(* ===== verification/_CoqProject ===== *)
-Q . S2P
Prelude.v
Defs.v
Random.v
Bitmap.v
RingBuffer.v
Latch.v
BTreeNode.v
BTree.v
BTreeInv.v
BTreeInsert.v
BTreeLookup.v
BTreeRemove.v
BTreeScan.v
BTreeSpec.v
FreeList.v
BufferFrame.v
Bag.v
FreeListBag.v
Memory.v
PageTable.v
PageTableInv.v
PageTableSpec.v
PageTableFind.v
Eviction.v
Messages.v
Protocol.v
Directory.v
Coherence.v
CoherenceInv.v
CoherenceSim.v
CoherenceView.v
CoherenceSteps.v
CoherenceFix.v
CoherenceHandlers.v
CoherenceRequests.v
CoherenceEvict.v
CoherenceTable.v
CoherenceWhole.v
CoherenceReach.v
CoherenceSpec.v
CoherenceLive.v
CoherenceFaults.v
AsyncIO.v
MessageHandler.v
Mailboxes.v
EvictionBatch.v
PageProvider.v
ProviderRequests.v
PageSampling.v
LinkedList.v
Barrier.v
LockFreeQueue.v
WorkerPool.v
Worker.v
Threads.v
SmallMap.v
