(* ===== verification/Prelude.v ===== *)
(** * A verification development for ScaleStore

    ScaleStore is a distributed storage engine.  Every node of a cluster owns a
    part of the pages, keeps a page on its SSD and caches pages of all nodes in
    memory; RDMA messages move and copy pages between the caches and a directory
    at the owner of a page keeps them coherent.  On top of the buffer manager
    sits a B-tree with optimistic latching.  The sources are under
    [src/backend/scalestore]; names of files below are relative to it.

    ** How the program is modelled

    Code is translated function by function.  Functions that can fail return
    the type [result] of this file: an [ensure] that fails, an exception, an
    access outside an array or through a null pointer, and a blocking operation
    that cannot proceed are different values of [exn].  The [assert] of the C++
    library is compiled into some builds only: the class [Build] says whether it
    is and how many nodes there are, definitions that contain an [assert] take it
    as an argument, and their theorems hold for every build and say where an
    assertion fails (deadlock freedom is shown for builds without them, of which
    [release_build] is one).  Integers are [Z] with
    the wrap-around of their C++ type written out.  Objects shared by threads
    are records; where the interleaving of threads matters (latches, free
    lists, page table, coherence protocol) the code is cut into its atomic
    actions, and theorems quantify over every interleaving.  Loops that are not
    structural take fuel; the theorems state how much is enough and are then
    about total behaviour.

    ** The parts and their files

    - Prelude.v: this file; [result], machine integers, arrays, tactics and
      generic lemmas.  Models the macro [ensure] of [Defs.hpp].
    - Defs.v: page ids and the helpers of [Defs.hpp].
    - Random.v: [utils/RandomGenerator], [utils/FNVHash].
    - Bitmap.v: [storage/datastructures/Bitmap.hpp].  [bset] is the set of
      nodes a word of possessors stands for.
    - RingBuffer.v: [storage/datastructures/RingBuffer.hpp] and the two
      containers of [utils/BatchQueue.hpp], which share a class of containers.
    - FreeList.v, Bag.v, FreeListBag.v: [utils/BatchQueue.hpp] and
      [storage/buffermanager/PartitionedQueue.hpp].  Bag.v is the interface
      (a class: a container never yields an element that was not put in) the
      page table relies on, FreeListBag.v its instance.
    - Latch.v: [syncprimitives/HybridLatch.hpp]; programs over atomic loads,
      stores and a read-write lock, with an interleaving semantics.
    - BufferFrame.v: [BufferFrame.hpp], [Guard.hpp], [AccessFunctors.hpp] and
      [BufferFrameGuards] of [storage/buffermanager].
    - PageTable.v (operations), PageTableInv.v (chains of frames),
      PageTableSpec.v (insert, remove, new and reclaimed pages, constructor),
      PageTableFind.v (the validated lookups under interference):
      [Buffermanager.{hpp,cpp}] and the first part of [Buffermanager.tpp].
    - BTreeNode.v, BTree.v (operations), BTreeInv.v (well-formed trees),
      BTreeInsert.v, BTreeLookup.v, BTreeRemove.v, BTreeScan.v, BTreeSpec.v:
      [storage/datastructures/BTree.hpp].
    - Messages.v: [rdma/messages/Messages.hpp].
    - Protocol.v: what [rdma/MessageHandler] and [Buffermanager::fix] do to one
      frame.  Coherence.v: the nodes of the cluster, their workers, message
      handlers and page providers, for one page.  Directory.v: the abstract specification of
      coherence.  CoherenceInv.v: the relation between the two.
      CoherenceSim.v, CoherenceView.v, CoherenceSteps.v, CoherenceFix.v,
      CoherenceHandlers.v, CoherenceRequests.v, CoherenceEvict.v: one lemma
      per action.  CoherenceTable.v: the dirty flag and the table of copies.
      CoherenceWhole.v: the combined invariant, for builds without assertions.
      CoherenceReach.v: reachable states of every build.  CoherenceSpec.v,
      CoherenceLive.v: the theorems.  CoherenceFaults.v: runs in which the code
      loses a page, fails a check or aborts, which the theorems except.
    - Memory.v: [utils/MemoryManagement.hpp] and the ranges of
      [utils/Parallelize.hpp], which every partition of the engine follows.
    - AsyncIO.v: [AsyncReadBuffer] and [AsyncWriteBuffer] of
      [storage/buffermanager], over libaio.
    - MessageHandler.v: the responses of [rdma/MessageHandler] and the pages
      parked until they are sent.  Mailboxes.v: its mailbox partitions, the
      assignment of connections, the polling loop.
    - Eviction.v: what [storage/buffermanager/PageProvider] does to frames.
      EvictionBatch.v: the requests and responses between providers.
      PageProvider.v: its partitions, traversals and connections.
      ProviderRequests.v: its requests while other threads use the frames.
      PageSampling.v: the sampling loop.
    - LockFreeQueue.v: [utils/MPMCQueue.hpp].  SmallMap.v:
      [storage/datastructures/SmallMap.hpp].
    - WorkerPool.v: [threads/WorkerPool].  Worker.v: the requests of
      [threads/Worker].  Threads.v: [threads/Concurrency.hpp] and
      [threads/CoreManager.hpp].
    - LinkedList.v: [storage/datastructures/Vector.hpp].
    - Barrier.v: [storage/datastructures/DistributedBarrier.hpp] and
      [storage/buffermanager/Catalog.hpp].

    ** What the theorems show

    - Coherence: a node that may write is alone; what a node may read is the
      last write; the system refines the directory; it does not deadlock.  No
      check of the protocol fails and the page written last is not lost,
      whatever is evicted, in every run that does not meet one of the named
      faults, each of which CoherenceFaults.v shows to be reachable.
    - B-tree: every operation refines the operation of a finite map, except that
      a lookup behind a full leaf reads outside of it; scans
      visit the keys of a range in order, the node searches agree, well-formed
      trees stay well-formed; the fuel is the height of the tree.
    - Latches: writers exclude readers and writers, validated optimistic reads
      return one snapshot, upgrades keep what the reader saw.
    - Free lists: no element is lost or handed out twice under any
      interleaving of the threads.
    - Page table: insertion, removal and lookup agree with a finite map from
      page ids to frames, and the lookups return what one moment of the table
      held although other threads change it between two reads.
    - Frames and guards: the access functors leave the latch as the state of
      the guard says, on every path; conversions release what they hold.
    - Bitmaps, ring buffers, page ids and generators: equivalence with sets,
      queues and numbers, with the bounds of the machine types.
    - Eviction: a page is given up only while another node or the SSD has it;
      owner and requester agree on what the requester drops, and the checks and
      assertions that can end an exchange are named; a traversal ends
      and meets every frame of its window, sampling ends and computes an order
      statistic, requests and the frames latched for them match however the
      other threads use the frames meanwhile.
    - Message handler: a page parked after a response is reused only when the
      write of the response is done; connections and mailboxes match, and each
      pass hands every message to its handler once.
    - Asynchronous I/O: each access is reported to its callback exactly once
      and no slot is used twice, until a call of the system fails.
    - Registered memory: allocations are aligned, disjoint and inside the buffer.
    - Worker pool: a worker executes each job once and in order, waits return only
      when the job was executed, and with one client every call returns.
    - Workers: a request is answered exactly once and its response returned, the
      send queue does not overflow; the barrier of a node; threads get cores of
      their own.
    - Containers: the lock-free queue is a queue under every interleaving, no
      access of it fails and its waits make progress; the linked list refines a list
      (an index behind its last page is followed into no page),
      the small map a map of stacks; no worker passes the barrier
      before all arrived, and waiting workers are released; what is registered
      in the catalog is found.

    ** Bounds and fuel

    [WORD_FUEL] = 64 bounds the loops over the set bits of a word.  Node ids are
    below 64, the width of the possessor bitmap.  The version of a page is a
    64-bit counter; the coherence theorems assume that the owner's version has
    not reached its maximum ([version_left]), those of the lock-free queue that its
    tickets are below 2^62 ([tickets_left]), those of the small map that it never
    holds 2^16 values ([fits]), those of optimistic reads that fewer than 2^63
    version stores happen during one.  Spinning loops are given by the
    oracle of the environment and are either fuelled or actions that are not
    enabled.

    ** Not modelled

    The set-up of RDMA connections and memory regions, the start of threads,
    profiling, the vendored table printer and performance counters, the
    Zipf samplers and the benchmark programs: they call libraries or the
    operating system, or are clients of the engine.  The coherence system is
    that of one page.
    What other pages contribute to it are arguments of its actions: the entry
    that is left in a response, the mailbox whose copy request is reset, a change
    of the bucket during a lookup; [deviates] of Coherence.v marks the actions
    that meet one of the first two.  The main loop of the page provider is given by its
    phases. *)

From stdpp Require Export base tactics list numbers gmap sorting.

(** ** Scopes and width-bounded integers

    Unsigned machine integers are [Z] with the wrap-around of each operation
    written out.  [u64] is the conversion to [uint64_t]. *)

Declare Scope u64_scope.
Delimit Scope u64_scope with u64.

Definition two64 : Z := 2 ^ 64.
Definition u64 (x : Z) : Z := x `mod` 2 ^ 64.
Definition u32 (x : Z) : Z := x `mod` 2 ^ 32.
Definition u16 (x : Z) : Z := x `mod` 2 ^ 16.
Definition u8 (x : Z) : Z := x `mod` 2 ^ 8.

(** Conversion to a signed 32-bit [int] (two's complement). *)
Definition s32 (x : Z) : Z :=
  let y := u32 x in if decide (y < 2 ^ 31)%Z then y else (y - 2 ^ 32)%Z.

Notation "x +₆₄ y" := (u64 (Z.add x y)) (at level 50, left associativity) : u64_scope.
Notation "x -₆₄ y" := (u64 (Z.sub x y)) (at level 50, left associativity) : u64_scope.
Notation "x *₆₄ y" := (u64 (Z.mul x y)) (at level 40, left associativity) : u64_scope.
Notation "x <<₆₄ y" := (u64 (Z.shiftl x y)) (at level 35, no associativity) : u64_scope.
Open Scope u64_scope.

(** [~x] on [uint64_t]. *)
Definition not64 (x : Z) : Z := Z.lxor x (2 ^ 64 - 1).

Definition is_u64 (x : Z) : Prop := (0 <= x < 2 ^ 64)%Z.

(** ** Results of fallible code

    [ensure(e)] throws when [e] is false; [assert(e)] aborts the process
    ([AssertFailed]) in a build that keeps assertions; other throws carry the
    class of the C++ exception.  [UndefinedBehaviour] is an access the language gives no
    meaning to (an index outside an array), [WouldBlock] a blocking call that
    cannot return in a sequential execution, [OutOfFuel] a loop bound of the
    model that was too small. *)

Inductive exn :=
| EnsureFailed
| AssertFailed
| RuntimeError
| LogicError
| BadAlloc
| InvalidArgument
| UndefinedBehaviour
| WouldBlock
| OutOfFuel.

#[export] Instance exn_eq_dec : EqDecision exn.
Proof. solve_decision. Defined.

Inductive result (A : Type) :=
| Ok (a : A)
| Throw (e : exn).
Arguments Ok {A} _.
Arguments Throw {A} _.

#[export] Instance result_eq_dec {A} `{EqDecision A} : EqDecision (result A).
Proof. solve_decision. Defined.

#[export] Instance result_ret : MRet result := λ A x, Ok x.
#[export] Instance result_bind : MBind result := λ A B f m,
  match m with Ok a => f a | Throw e => Throw e end.
#[export] Instance result_fmap : FMap result := λ A B f m,
  match m with Ok a => Ok (f a) | Throw e => Throw e end.

(** The macro [ensure(e)]. *)
Definition ensure (b : bool) : result unit :=
  if b then Ok tt else Throw EnsureFailed.

(** What the assertions depend on: whether they are compiled in (a build
    without [NDEBUG]) and the number of nodes the program was started with. *)
Class Build := mkBuild { asserts : bool; FLAGS_nodes : Z }.

(** A build without assertions. *)
Definition release_build : Build := mkBuild false 0.

(** The macro [assert(e)]. *)
Definition assert_ `{Build} (b : bool) : result unit :=
  if asserts && negb b then Throw AssertFailed else Ok tt.

(** [nodeId >= FLAGS_nodes/2]: the nodes that several assertions expect neither
    to own pages on an SSD nor to give up pages. *)
Definition upper_node `{Build} (nodeId : Z) : bool := (FLAGS_nodes / 2 <=? nodeId)%Z.

Definition of_option {A} (e : exn) (o : option A) : result A :=
  match o with Some a => Ok a | None => Throw e end.

(** Array reads and writes by index; outside the array they are undefined. *)
Definition arr_get {A} (l : list A) (i : nat) : result A :=
  of_option UndefinedBehaviour (l !! i).
Definition arr_set {A} (l : list A) (i : nat) (x : A) : result (list A) :=
  if decide (i < length l) then Ok (<[i := x]> l) else Throw UndefinedBehaviour.

Definition is_ok {A} (r : result A) : bool :=
  match r with Ok _ => true | Throw _ => false end.

Lemma ensure_true (b : bool) : b = true → ensure b = Ok tt.
Proof. by intros ->. Qed.

Lemma assert_true `{Build} (b : bool) : b = true → assert_ b = Ok tt.
Proof. intros ->. unfold assert_. by rewrite andb_false_r. Qed.
Lemma assert_off `{Build} (b : bool) : asserts = false → assert_ b = Ok tt.
Proof. intros E. unfold assert_. by rewrite E. Qed.
Lemma assert_release (b : bool) : assert_ (H:=release_build) b = Ok tt.
Proof. done. Qed.
Lemma assert_false `{Build} (b : bool) : asserts && negb b = true → assert_ b = Throw AssertFailed.
Proof. unfold assert_. by intros ->. Qed.
Lemma assert_cases `{Build} (b : bool) : assert_ b = if asserts && negb b then Throw AssertFailed else Ok tt.
Proof. done. Qed.

Lemma Ok_inj {A} (x y : A) : Ok x = Ok y → x = y.
Proof. congruence. Qed.
Lemma bind_Ok {A B} (a : A) (f : A → result B) : (Ok a ≫= f) = f a.
Proof. done. Qed.

Lemma bind_Ok_inv {A B} (m : result A) (f : A → result B) b :
  (m ≫= f) = Ok b → ∃ a, m = Ok a ∧ f a = Ok b.
Proof. destruct m as [a|e]; simpl; [eauto|done]. Qed.

Lemma arr_get_Ok {A} (l : list A) i x : arr_get l i = Ok x ↔ l !! i = Some x.
Proof. unfold arr_get. destruct (l !! i); simpl; split; congruence. Qed.

Lemma arr_get_lookup {A} (l : list A) i x : l !! i = Some x → arr_get l i = Ok x.
Proof. by rewrite arr_get_Ok. Qed.

Lemma arr_set_lt {A} (l : list A) i x : i < length l → arr_set l i x = Ok (<[i:=x]> l).
Proof. intros. unfold arr_set. by rewrite decide_True. Qed.

Create HintDb scalestore.
#[export] Hint Resolve ensure_true arr_get_lookup arr_set_lt : scalestore.

(** ** Tactics *)

(** Case analysis on every [decide] and [if] on a boolean in sight. *)
Ltac split_decide :=
  repeat first [ case_decide | case_bool_decide ]; try done.

(** Break hypotheses of the form [(x ← m; k) = Ok r]. *)
Ltac inv_bind :=
  repeat match goal with
  | H : (_ ≫= _) = Ok _ |- _ =>
      let a := fresh "r" in let E := fresh "E" in
      apply bind_Ok_inv in H as (a & E & H); simpl in H
  | H : Ok _ = Ok _ |- _ => injection H; clear H; intros; subst
  | H : Throw _ = Ok _ |- _ => discriminate H
  | H : ensure ?b = Ok _ |- _ =>
      unfold ensure in H; destruct b eqn:?; [clear H | discriminate H]
  end.

(** Case analysis on lookups in an updated map. *)
Ltac map_cases :=
  repeat match goal with
  | H : <[_ := _]> _ !! _ = Some _ |- _ => apply lookup_insert_Some in H as [[? ?]|[? H]]; subst
  | H : delete _ _ !! _ = Some _ |- _ => apply lookup_delete_Some in H as [? H]
  | H : {[_ := _]} !! _ = Some _ |- _ => apply lookup_singleton_Some in H as [? ?]; subst
  end.

(** [set_solver] on the facts about sets only: quantified hypotheses and the
    ones about other things are dropped first. *)
Ltac sset :=
  intros;
  repeat match goal with
  | H : ?P |- _ =>
      lazymatch type of P with
      | Prop =>
          lazymatch P with
          | _ ∈ _ => fail | _ ∉ _ => fail | _ ## _ => fail | _ ⊆ _ => fail
          | @eq (gset _) _ _ => fail | @eq Z _ _ => fail | not (@eq Z _ _) => fail
          | _ => clear H
          end
      | _ => fail
      end
  end; set_solver.

(** ** Arithmetic lemmas *)

Section arith.
Local Open Scope Z_scope.

Lemma u64_small x : 0 <= x < 2 ^ 64 → u64 x = x.
Proof. intros. unfold u64. by apply Z.mod_small. Qed.

Lemma u64_range x : 0 <= u64 x < 2 ^ 64.
Proof. unfold u64. apply Z.mod_pos_bound. lia. Qed.

Lemma u8_succ_ne k : u8 (Z.of_nat (S k)) ≠ u8 (Z.of_nat k).
Proof.
  unfold u8. change (2 ^ 8) with 256. pose proof (Z.div_mod (Z.of_nat k) 256 ltac:(lia)). pose proof (Z.div_mod (Z.of_nat (S k)) 256 ltac:(lia)).
  pose proof (Z.mod_pos_bound (Z.of_nat k) 256 ltac:(lia)). pose proof (Z.mod_pos_bound (Z.of_nat (S k)) 256 ltac:(lia)). lia.
Qed.

Lemma testbit_small x n i : 0 <= x < 2 ^ n → n <= i → Z.testbit x i = false.
Proof.
  intros Hx Hi. destruct (decide (n < 0)).
  { rewrite Z.pow_neg_r in Hx by lia. lia. }
  rewrite <- (Z.mod_small x (2 ^ n)) by done.
  apply Z.mod_pow2_bits_high. lia.
Qed.

Lemma bits_bounded x n : 0 <= n → 0 <= x →
  (∀ i, n <= i → Z.testbit x i = false) → x < 2 ^ n.
Proof.
  intros Hn Hx Hb. destruct (decide (x = 0)) as [->|]; [lia|].
  apply Z.log2_lt_pow2; [lia|].
  destruct (decide (n <= Z.log2 x)) as [Hle|]; [|lia].
  specialize (Hb _ Hle). rewrite Z.bit_log2 in Hb by lia. done.
Qed.

Lemma shiftl_1_testbit n i : 0 <= n → Z.testbit (Z.shiftl 1 n) i = bool_decide (i = n).
Proof.
  intros Hn. rewrite Z.shiftl_1_l. destruct (decide (0 <= i)).
  - rewrite Z.pow2_bits_eqb by lia. case_bool_decide.
    + subst. apply Z.eqb_refl.
    + by apply Z.eqb_neq.
  - rewrite Z.testbit_neg_r by lia. rewrite bool_decide_eq_false_2; [done|lia].
Qed.

Lemma land_ones_mod x n : 0 <= n → Z.land x (2 ^ n - 1) = x `mod` 2 ^ n.
Proof.
  intros. rewrite <- Z.land_ones by done. f_equal. rewrite Z.ones_equiv. lia.
Qed.

End arith.


(** ** List lemmas *)

Section lists.
Context {A : Type}.
Implicit Types l : list A.

Lemma filter_none (P : A → Prop) `{!∀ x, Decision (P x)} l :
  (∀ x, x ∈ l → ¬ P x) → filter P l = [].
Proof.
  induction l as [|x l IH]; intros Hl; [done|].
  rewrite filter_cons_False by (apply Hl; left). apply IH. intros y Hy. apply Hl. by right.
Qed.

Lemma filter_all (P : A → Prop) `{!∀ x, Decision (P x)} l : Forall P l → filter P l = l.
Proof.
  induction 1 as [|x l Hx _ IH]; [done|]. by rewrite filter_cons_True, IH.
Qed.

Lemma filter_ext_in (P Q : A → Prop) `{!∀ x, Decision (P x)} `{!∀ x, Decision (Q x)} l :
  (∀ x, x ∈ l → P x ↔ Q x) → filter P l = filter Q l.
Proof.
  induction l as [|x l IH]; intros Hl; [done|].
  rewrite !filter_cons, IH by (intros y Hy; apply Hl; by right).
  assert (P x ↔ Q x) as Hx by (apply Hl; by left). clear Hl IH.
  destruct (decide (P x)), (decide (Q x)); tauto.
Qed.

Lemma ssorted_lookup_lt (R : relation A) l i j x y :
  StronglySorted R l → l !! i = Some x → l !! j = Some y → i < j → R x y.
Proof.
  intros Hs. revert i j. induction Hs as [|z l Hl IH Hz]; intros i j Hi Hj Hlt; [done|].
  destruct j as [|j]; [lia|]. simpl in Hj. destruct i as [|i]; simpl in Hi.
  - injection Hi as ->. by eapply Forall_lookup_1 in Hz.
  - eapply IH; [done|done|lia].
Qed.

Lemma filter_ssorted (R : relation A) (P : A → Prop) `{!∀ x, Decision (P x)} l :
  StronglySorted R l → StronglySorted R (filter P l).
Proof.
  induction 1 as [|x l Hl IH Hx]; [constructor|]. rewrite filter_cons. case_decide; [|done].
  constructor; [done|]. apply Forall_forall. intros y [_ Hy]%list_elem_of_filter.
  by eapply Forall_forall in Hy; [|exact Hx].
Qed.

(** Counting by an update. *)
Lemma filter_insert_length (P : A → Prop) `{!∀ x, Decision (P x)} (l : list A) i x y : l !! i = Some x →
  (length (filter P (<[i := y]> l)) + (if decide (P x) then 1 else 0) = length (filter P l) + (if decide (P y) then 1 else 0))%nat.
Proof.
  revert i. induction l as [|z l IH]; intros [|i] Hi; cbn in Hi; [done|done| |].
  - injection Hi as ->. cbn [insert list_insert]. rewrite !filter_cons. destruct (decide (P x)), (decide (P y)); cbn; lia.
  - specialize (IH i Hi). change (<[S i:=y]> (z :: l)) with (z :: <[i:=y]> l). rewrite !filter_cons. destruct (decide (P z)); cbn; lia.
Qed.

Lemma filter_full (P : A → Prop) `{!∀ x, Decision (P x)} (l : list A) : (length l <= length (filter P l))%nat → Forall P l.
Proof.
  induction l as [|x l IH]; [constructor|]. rewrite filter_cons. pose proof (length_filter P l). destruct (decide (P x)); cbn; intros Hl.
  - constructor; [done|]. apply IH. lia.
  - lia.
Qed.

(** All but one element satisfy [P], and that one does not. *)
Lemma filter_others (P : A → Prop) `{!∀ x, Decision (P x)} (l : list A) t x : l !! t = Some x → ¬ P x →
  (length l <= S (length (filter P l)))%nat → Forall P (take t l) ∧ Forall P (drop (S t) l).
Proof.
  intros Ht Hx Hl. rewrite <- (take_drop_middle _ _ _ Ht) in Hl at 1 2. rewrite filter_app, (filter_cons_False P x), !length_app in Hl by done. cbn in Hl.
  pose proof (length_filter P (take t l)). pose proof (length_filter P (drop (S t) l)). split; apply (filter_full P); lia.
Qed.

End lists.
