(* ===== verification/Defs.v ===== *)
(** * shared-headers/Defs.hpp: page identifiers and power-of-two helpers

    [PID] packs the owning node into the top 8 bits of a 64-bit word and the
    slot on that node's SSD into the low 56 bits.  [Helper] holds the two bit
    tricks every ring buffer and the page table size themselves with. *)

From S2P Require Import Prelude.
Local Open Scope Z_scope.

(** ** Constants *)

Definition MAX_NODES : Z := 64.
Definition PARTITIONS : Z := 64.
Definition BATCH_SIZE : Z := 128.
Definition PAGEID_BITS_NODEID : Z := 8.
Definition NODEID_MASK : Z := Z.shiftr (not64 0) 8.

(** ** Page identifiers *)

Abbreviation NodeID := Z (only parsing).
Abbreviation PID := Z (only parsing).

(** [PID(owner, id)]: the shift drops what does not fit in 64 bits. *)
Definition mkPID (owner id : Z) : Z :=
  Z.lor (owner <<₆₄ (64 - PAGEID_BITS_NODEID)) id.

Definition getOwner (pid : Z) : Z := Z.shiftr pid (64 - PAGEID_BITS_NODEID).
Definition plainPID (pid : Z) : Z := Z.land pid NODEID_MASK.

Definition EMPTY_NODEID : Z := not64 0.
(** [~uint8_t(0)] is promoted to the [int] -1 and widened to 64 one bits. *)
Definition EMPTY_PID : Z := Eval vm_compute in mkPID (not64 0) (not64 0).
Definition EMPTY_PVERSION : Z := not64 0.
Definition EMPTY_EPOCH : Z := not64 0.

Definition CATALOG_OWNER : Z := 0.
Definition CATALOG_PID : Z := mkPID CATALOG_OWNER 0.

(** ** Power-of-two helpers *)

Definition smear (v k : Z) : Z := Z.lor v (Z.shiftr v k).

Definition nextPowerTwo (v : Z) : Z :=
  let v := v -₆₄ 1 in
  let v := smear v 1 in
  let v := smear v 2 in
  let v := smear v 4 in
  let v := smear v 8 in
  let v := smear v 16 in
  v +₆₄ 1.

Definition powerOfTwo (n : Z) : bool :=
  negb (n =? 0) && (Z.land n (n -₆₄ 1) =? 0).

(** ** Lemmas on page identifiers *)

Lemma NODEID_MASK_eq : NODEID_MASK = 2 ^ 56 - 1.
Proof. reflexivity. Qed.

Lemma mkPID_add owner id : 0 <= owner < 256 → 0 <= id < 2 ^ 56 →
  mkPID owner id = owner * 2 ^ 56 + id.
Proof.
  intros Ho Hi. unfold mkPID. change (64 - PAGEID_BITS_NODEID) with 56.
  rewrite u64_small by (rewrite Z.shiftl_mul_pow2; lia).
  rewrite Z.shiftl_mul_pow2 by lia.
  rewrite <- Z.add_lor_land.
  enough (Z.land (owner * 2 ^ 56) id = 0) as -> by lia.
  apply Z.bits_inj'. intros n Hn. rewrite Z.land_spec, Z.bits_0.
  destruct (decide (n < 56)).
  - rewrite Z.mul_pow2_bits_low by done. done.
  - rewrite (testbit_small id 56) by lia. apply andb_false_r.
Qed.

Lemma getOwner_div pid : getOwner pid = pid / 2 ^ 56.
Proof. unfold getOwner. by rewrite Z.shiftr_div_pow2. Qed.

Lemma plainPID_mod pid : plainPID pid = pid `mod` 2 ^ 56.
Proof. unfold plainPID. rewrite NODEID_MASK_eq. by apply land_ones_mod. Qed.

(** ** Lemmas on the bit smearing *)

(** [v] smeared over a window of [w] positions: bit [i] of [smeared v w] is
    set exactly when one of the bits [i .. i+w-1] of [v] is. *)
Definition smeared (v w r : Z) : Prop :=
  ∀ i, 0 <= i → Z.testbit r i = true ↔ ∃ j, 0 <= j < w ∧ Z.testbit v (i + j) = true.

Lemma smeared_1 v : smeared v 1 v.
Proof.
  intros i Hi. split.
  - intros H. exists 0. rewrite Z.add_0_r. split; [lia|done].
  - intros (j & Hj & H). by replace (i + j) with i in H by lia.
Qed.

Lemma smeared_step v w r : 0 < w → smeared v w r → smeared v (2 * w) (smear r w).
Proof.
  intros Hw Hr i Hi. unfold smear. rewrite Z.lor_spec, Z.shiftr_spec, orb_true_iff by done.
  rewrite (Hr i), (Hr (i + w)) by lia. split.
  - intros [(j & ? & ?)|(j & ? & Hj)]; [exists j; split; [lia|done]|].
    exists (w + j). rewrite Z.add_assoc. split; [lia|done].
  - intros (j & ? & Hj). destruct (decide (j < w)); [left; exists j; split; [lia|done]|].
    right. exists (j - w). replace (i + w + (j - w)) with (i + j) by lia. split; [lia|done].
Qed.

Lemma smeared_ones v w r : 0 < v → Z.log2 v < w → 0 <= r →
  smeared v w r → r = Z.ones (Z.log2 v + 1).
Proof.
  intros Hv Hw Hr Hs. assert (0 <= Z.log2 v) by apply Z.log2_nonneg.
  apply Z.bits_inj'. intros i Hi. apply eq_bool_prop_intro.
  rewrite !Is_true_true, (Hs i Hi), Z.testbit_ones_nonneg, Z.ltb_lt by lia. split.
  - intros (j & Hj & Hb). destruct (decide (i + j <= Z.log2 v)); [lia|].
    rewrite Z.bits_above_log2 in Hb by lia. done.
  - intros Hlt. exists (Z.log2 v - i). split; [lia|].
    replace (i + (Z.log2 v - i)) with (Z.log2 v) by lia. by apply Z.bit_log2.
Qed.

Lemma smear_nonneg v k : 0 <= v → 0 <= smear v k.
Proof. intros. unfold smear. apply Z.lor_nonneg. rewrite Z.shiftr_nonneg. done. Qed.

Lemma smear_0 k : smear 0 k = 0.
Proof. unfold smear. by rewrite Z.shiftr_0_l. Qed.

Lemma powerOfTwo_pow2 k : 0 <= k < 64 → powerOfTwo (2 ^ k) = true.
Proof.
  intros Hk. unfold powerOfTwo. assert (0 < 2 ^ k) by lia.
  assert (2 ^ k < 2 ^ 64) by (apply Z.pow_lt_mono_r; lia).
  rewrite u64_small by lia.
  rewrite (proj2 (Z.eqb_neq (2 ^ k) 0)) by lia. simpl.
  rewrite land_ones_mod, Z.mod_same by lia. done.
Qed.

Lemma powerOfTwo_inv n : 0 <= n < 2 ^ 64 → powerOfTwo n = true →
  n = 2 ^ Z.log2 n.
Proof.
  unfold powerOfTwo. rewrite andb_true_iff, negb_true_iff, Z.eqb_neq, Z.eqb_eq.
  intros Hn [Hnz Hl]. rewrite u64_small in Hl by lia.
  assert (0 <= Z.log2 n) by apply Z.log2_nonneg.
  destruct (Z.log2_spec n ltac:(lia)) as [Hlo Hhi].
  destruct (decide (n = 2 ^ Z.log2 n)) as [|Hne]; [done|exfalso].
  assert (Z.log2 (n - 1) = Z.log2 n) as Hlog.
  { apply Z.log2_unique; lia. }
  assert (Z.testbit (Z.land n (n - 1)) (Z.log2 n) = true) as Hb.
  { rewrite Z.land_spec, Z.bit_log2 by lia. rewrite <- Hlog at 1.
    rewrite Z.bit_log2 by lia. done. }
  rewrite Hl, Z.bits_0 in Hb. done.
Qed.

Lemma nextPowerTwo_lem v : 1 <= v <= 2 ^ 32 → nextPowerTwo v = 2 ^ Z.log2_up v.
Proof.
  intros Hv. unfold nextPowerTwo. rewrite (u64_small (v - 1)) by lia.
  destruct (decide (v = 1)) as [->|]; [reflexivity|].
  set (r := smear (smear (smear (smear (smear (v - 1) 1) 2) 4) 8) 16).
  assert (smeared (v - 1) 32 r) as Hs.
  { subst r.
    apply (smeared_step _ 16); [lia|]. apply (smeared_step _ 8); [lia|].
    apply (smeared_step _ 4); [lia|]. apply (smeared_step _ 2); [lia|].
    apply (smeared_step _ 1); [lia|]. apply smeared_1. }
  assert (Z.log2 (v - 1) < 32) by (apply Z.log2_lt_pow2; lia).
  assert (0 <= Z.log2 (v - 1)) by apply Z.log2_nonneg.
  assert (0 <= r) by (subst r; repeat apply smear_nonneg; lia).
  rewrite (smeared_ones (v - 1) 32 r) by (done || lia).
  rewrite Z.ones_equiv, Z.log2_up_eqn by lia.
  replace (Z.pred v) with (v - 1) by lia.
  replace (Z.pred (2 ^ (Z.log2 (v - 1) + 1)) + 1) with (2 ^ (Z.log2 (v - 1) + 1)) by lia.
  assert (2 ^ (Z.log2 (v - 1) + 1) <= 2 ^ 32) by (apply Z.pow_le_mono_r; lia).
  rewrite u64_small by (assert (0 < 2 ^ (Z.log2 (v - 1) + 1)); lia).
  f_equal; lia.
Qed.

(** ** Properties *)

(** Round trip of page identifiers: packing a node id below 256 and a
    56-bit slot gives back exactly these two parts, the packed word is a
    64-bit word, and unpacking then packing any 64-bit word is the identity
    (so distinct words have distinct owner/slot pairs). *)
Theorem pid_roundtrip :
  (∀ owner id, 0 <= owner < 256 → 0 <= id < 2 ^ 56 →
     getOwner (mkPID owner id) = owner ∧ plainPID (mkPID owner id) = id ∧
     is_u64 (mkPID owner id)) ∧
  (∀ pid, is_u64 pid →
     0 <= getOwner pid < 256 ∧ 0 <= plainPID pid < 2 ^ 56 ∧
     mkPID (getOwner pid) (plainPID pid) = pid).
Proof.
  split.
  - intros owner id Ho Hi. rewrite mkPID_add, getOwner_div, plainPID_mod by done.
    unfold is_u64.
    rewrite Z.div_add_l, Z.div_small by lia.
    rewrite (Z.add_comm _ id), Z.mod_add, Z.mod_small by lia. lia.
  - intros pid Hp. unfold is_u64 in Hp. rewrite getOwner_div, plainPID_mod.
    assert (0 <= pid / 2 ^ 56 < 256).
    { split; [apply Z.div_pos; lia|apply Z.div_lt_upper_bound; lia]. }
    assert (0 <= pid `mod` 2 ^ 56 < 2 ^ 56) by (apply Z.mod_pos_bound; lia).
    rewrite mkPID_add by done. pose proof (Z.div_mod pid (2 ^ 56)). lia.
Qed.

Lemma pid_roundtrip_witness :
  getOwner (mkPID 7 4242) = 7 ∧ mkPID (getOwner 123456789) (plainPID 123456789) = 123456789.
Proof.
  split; [apply (proj1 pid_roundtrip 7 4242); lia|].
  apply (proj2 pid_roundtrip). unfold is_u64. lia.
Defined.

(** [nextPowerTwo] is exact on its 32-bit range: for [1 <= v <= 2^32] the
    result passes [powerOfTwo], is at least [v], and no smaller 64-bit word
    that is at least [v] passes [powerOfTwo]. *)
Theorem nextPowerTwo_least v : 1 <= v <= 2 ^ 32 →
  powerOfTwo (nextPowerTwo v) = true ∧ v <= nextPowerTwo v ∧
  (∀ p, is_u64 p → powerOfTwo p = true → v <= p → nextPowerTwo v <= p).
Proof.
  intros Hv. rewrite nextPowerTwo_lem by done.
  assert (0 <= Z.log2_up v) by apply Z.log2_up_nonneg.
  assert (Z.log2_up v <= 32) by (rewrite <- (Z.log2_up_pow2 32) by lia; apply Z.log2_up_le_mono; lia).
  split; [apply powerOfTwo_pow2; lia|]. split.
  - destruct (decide (v = 1)) as [->|]; [done|]. apply Z.log2_up_spec. lia.
  - intros p Hp Hpow Hle. rewrite (powerOfTwo_inv p) in Hle |- * by done.
    apply Z.pow_le_mono_r; [lia|].
    rewrite <- (Z.log2_up_pow2 (Z.log2 p)) by apply Z.log2_nonneg.
    by apply Z.log2_up_le_mono.
Qed.

Lemma nextPowerTwo_least_witness :
  1 <= 1000 <= 2 ^ 32 ∧ powerOfTwo (nextPowerTwo 1000) = true ∧ nextPowerTwo 1000 = 1024.
Proof.
  split; [lia|]. split; [apply (nextPowerTwo_least 1000); lia|]. reflexivity.
Defined.

(** The smearing of [nextPowerTwo] stops at 16 positions, so above 32 bits
    it is wrong: for every [k] from 32 to 62 the result for [2^k + 1] is not a
    power of two at all (the mask [size - 1] built from it has holes). *)
Theorem nextPowerTwo_wide_wrong k : 32 <= k <= 62 →
  powerOfTwo (nextPowerTwo (2 ^ k + 1)) = false.
Proof.
  intros Hk.
  assert (∀ n : nat, (n <= 30)%nat →
    powerOfTwo (nextPowerTwo (2 ^ (32 + Z.of_nat n) + 1)) = false) as H.
  { intros n Hn. do 31 (destruct n as [|n]; [reflexivity|]). lia. }
  specialize (H (Z.to_nat (k - 32)) ltac:(lia)).
  by replace (32 + Z.of_nat (Z.to_nat (k - 32))) with k in H by lia.
Qed.

Lemma nextPowerTwo_wide_wrong_witness :
  32 <= 33 <= 62 ∧ powerOfTwo (nextPowerTwo (2 ^ 33 + 1)) = false.
Proof. split; [lia|]. apply (nextPowerTwo_wide_wrong 33). lia. Defined.
