(* ===== verification/Random.v ===== *)
(** * utils/RandomGenerator.*, utils/FNVHash.*: pseudo random numbers and hashing

    The Mersenne twister and the xorshift generator are state passing
    functions on their C++ state; the seed word read from [std::random_device]
    is an argument.  [RandomGenerator]'s static functions take the raw draw of
    the generator they call. *)

From S2P Require Import Prelude Defs.
Local Open Scope Z_scope.

(** ** MersenneTwister *)

Module MersenneTwister.

Definition NN : nat := 312.
Definition MM : nat := 156.
Definition MATRIX_A : Z := 0xB5026F5AA96619E9.
Definition UM : Z := 0xFFFFFFFF80000000.
Definition LM : Z := 0x7FFFFFFF.

Record state := mkState { mt : list Z; mti : nat }.

(** [init(seed)]: the loop runs for [mti = 1 .. NN-1]. *)
Fixpoint init_loop (n : nat) (i : Z) (prev : Z) : list Z :=
  match n with
  | O => []
  | S n' =>
      let x := (6364136223846793005 *₆₄ Z.lxor prev (Z.shiftr prev 62)) +₆₄ i in
      x :: init_loop n' (i + 1) x
  end.

Definition init (seed : Z) : state :=
  mkState (seed :: init_loop (NN - 1) 1 seed) NN.

Definition mag01 (b : Z) : Z := if b =? 0 then 0 else MATRIX_A.

(** One iteration of the generation loops: [mt[i] = mt[src] ^ (x >> 1) ^ mag01[x & 1]]
    with [x] built from [mt[i]] and [mt[nxt]]. *)
Definition twist (l : list Z) (i nxt src : nat) : result (list Z) :=
  a ← arr_get l i;
  b ← arr_get l nxt;
  let x := Z.lor (Z.land a UM) (Z.land b LM) in
  c ← arr_get l src;
  arr_set l i (Z.lxor (Z.lxor c (Z.shiftr x 1)) (mag01 (Z.land x 1))).

Fixpoint twist_range (l : list Z) (i n : nat) (off : nat → nat) : result (list Z) :=
  match n with
  | O => Ok l
  | S n' => l' ← twist l i (S i) (off i); twist_range l' (S i) n' off
  end.

(** The block [if (mti >= NN)]: NN words at one time. *)
Definition generate (l : list Z) : result (list Z) :=
  l1 ← twist_range l 0 (NN - MM) (λ i, i + MM)%nat;
  l2 ← twist_range l1 (NN - MM) (MM - 1) (λ i, i - (NN - MM))%nat;
  twist l2 (NN - 1) 0 (MM - 1).

Definition temper (x : Z) : Z :=
  let x := Z.lxor x (Z.land (Z.shiftr x 29) 0x5555555555555555) in
  let x := Z.lxor x (Z.land (x <<₆₄ 17) 0x71D67FFFEDA60000) in
  let x := Z.lxor x (Z.land (x <<₆₄ 37) 0xFFF7EEE000000000) in
  Z.lxor x (Z.shiftr x 43).

Definition rnd (s : state) : result (Z * state) :=
  s' ← (if decide (NN ≤ mti s)%nat
        then (l ← generate (mt s); Ok (mkState l 0))
        else Ok s);
  x ← arr_get (mt s') (mti s');
  Ok (temper x, mkState (mt s') (S (mti s'))).

Definition wf (s : state) : Prop :=
  length (mt s) = NN ∧ Forall is_u64 (mt s).

End MersenneTwister.

(** ** Xorshift64star *)

Definition xorshift_rnd (seed : Z) : Z * Z :=
  let x := seed in
  let x := Z.lxor x (Z.shiftr x 12) in
  let x := Z.lxor x (x <<₆₄ 25) in
  let x := Z.lxor x (Z.shiftr x 27) in
  (x *₆₄ 0x2545F4914F6CDD1D, x).

(** ** RandomGenerator *)

(** [getRandU64(min, max)]: [%] by zero is undefined. *)
Definition getRandU64 (raw min max : Z) : result Z :=
  let d := max -₆₄ min in
  if d =? 0 then Throw UndefinedBehaviour
  else
    let rand := min +₆₄ (raw `mod` d) in
    _ ← ensure (rand <? max);
    _ ← ensure (min <=? rand);
    Ok rand.

Definition getRandU64PowerTwo (raw maxPowerTwo : Z) : Z :=
  Z.land raw (maxPowerTwo -₆₄ 1).

(** [getRandString]: one draw per byte, each in [48, 123). *)
Fixpoint getRandString (raws : list Z) : result (list Z) :=
  match raws with
  | [] => Ok []
  | r :: rs => c ← getRandU64 r 48 123; cs ← getRandString rs; Ok (u8 c :: cs)
  end.

(** ** FNV *)

Definition FNV_OFFSET_BASIS_64 : Z := 0xCBF29CE484222325.
Definition FNV_PRIME_64 : Z := 1099511628211.

Fixpoint fnv_loop (n : nat) (val hash_val : Z) : Z :=
  match n with
  | O => hash_val
  | S n' =>
      let octet := Z.land val 0xff in
      fnv_loop n' (Z.shiftr val 8) (Z.lxor hash_val octet *₆₄ FNV_PRIME_64)
  end.
Definition fnv_hash (val : Z) : Z := fnv_loop 8 val FNV_OFFSET_BASIS_64.

(** ** Lemmas *)

Lemma is_u64_lxor x y : is_u64 x → is_u64 y → is_u64 (Z.lxor x y).
Proof.
  intros Hx Hy. unfold is_u64 in *. assert (0 <= Z.lxor x y) by (apply Z.lxor_nonneg; lia).
  split; [done|]. apply bits_bounded; [lia|done|]. intros i Hi.
  rewrite Z.lxor_spec, (testbit_small x 64), (testbit_small y 64) by lia. done.
Qed.

Lemma is_u64_lor x y : is_u64 x → is_u64 y → is_u64 (Z.lor x y).
Proof.
  intros Hx Hy. unfold is_u64 in *. assert (0 <= Z.lor x y) by (apply Z.lor_nonneg; lia).
  split; [done|]. apply bits_bounded; [lia|done|]. intros i Hi.
  rewrite Z.lor_spec, (testbit_small x 64), (testbit_small y 64) by lia. done.
Qed.

Lemma is_u64_land x y : is_u64 x → 0 <= y → is_u64 (Z.land x y).
Proof.
  intros Hx Hy. unfold is_u64 in *. assert (0 <= Z.land x y) by (apply Z.land_nonneg; lia).
  split; [done|]. apply bits_bounded; [lia|done|]. intros i Hi.
  rewrite Z.land_spec, (testbit_small x 64) by lia. done.
Qed.

Lemma is_u64_shiftr x k : is_u64 x → 0 <= k → is_u64 (Z.shiftr x k).
Proof.
  unfold is_u64. intros Hx Hk. rewrite Z.shiftr_div_pow2 by done.
  assert (0 < 2 ^ k) by lia. split; [apply Z.div_pos; lia|].
  apply Z.div_lt_upper_bound; nia.
Qed.

Lemma is_u64_u64 x : is_u64 (u64 x).
Proof. apply u64_range. Qed.

#[export] Hint Resolve is_u64_lxor is_u64_lor is_u64_land is_u64_shiftr is_u64_u64 : scalestore.

Ltac u64_solve := repeat first
  [ apply is_u64_u64 | apply is_u64_lxor | apply is_u64_lor
  | apply is_u64_land | apply is_u64_shiftr | done
  | match goal with |- is_u64 _ => unfold is_u64; lia end | lia ].

Section mersenne.
Import MersenneTwister.

Lemma init_loop_wf n i prev :
  length (init_loop n i prev) = n ∧ Forall is_u64 (init_loop n i prev).
Proof.
  revert i prev. induction n as [|n IH]; intros i prev; simpl; [done|].
  destruct (IH (i + 1) ((6364136223846793005 *₆₄ Z.lxor prev (Z.shiftr prev 62)) +₆₄ i)).
  split; [lia|]. constructor; [u64_solve|done].
Qed.

Lemma init_wf seed : is_u64 seed → wf (init seed).
Proof.
  intros Hs. destruct (init_loop_wf (NN - 1) 1 seed) as [Hl Hf].
  split; cbn [init mt length]; [rewrite Hl; reflexivity|by constructor].
Qed.

Lemma mag01_u64 b : is_u64 (mag01 b).
Proof. unfold mag01, MATRIX_A, is_u64. case_match; lia. Qed.

Lemma twist_ok l i nxt src :
  length l = NN → Forall is_u64 l → (i < NN)%nat → (nxt < NN)%nat → (src < NN)%nat →
  ∃ l', twist l i nxt src = Ok l' ∧ length l' = NN ∧ Forall is_u64 l'.
Proof.
  intros Hl Hf Hi Hn Hs.
  destruct (lookup_lt_is_Some_2 l i) as [a Ha]; [lia|].
  destruct (lookup_lt_is_Some_2 l nxt) as [b Hb]; [lia|].
  destruct (lookup_lt_is_Some_2 l src) as [c Hc]; [lia|].
  unfold twist. rewrite !(arr_get_lookup _ _ _ Ha), !(arr_get_lookup _ _ _ Hb).
  cbn [mbind result_bind]. rewrite (arr_get_lookup _ _ _ Hc). cbn [mbind result_bind].
  rewrite arr_set_lt by lia. eexists; split; [done|]. split; [by rewrite length_insert|].
  apply Forall_insert; [done|].
  assert (is_u64 a) by by eapply Forall_lookup_1.
  assert (is_u64 b) by by eapply Forall_lookup_1.
  assert (is_u64 c) by by eapply Forall_lookup_1.
  pose proof mag01_u64. unfold UM, LM. u64_solve.
Qed.

Lemma twist_range_ok n : ∀ l i off,
  length l = NN → Forall is_u64 l → (i + n < NN)%nat →
  (∀ j, (i ≤ j < i + n)%nat → (off j < NN)%nat) →
  ∃ l', twist_range l i n off = Ok l' ∧ length l' = NN ∧ Forall is_u64 l'.
Proof.
  induction n as [|n IH]; intros l i off Hl Hf Hb Hoff; simpl; [by eauto|].
  destruct (twist_ok l i (S i) (off i)) as (l' & -> & Hl' & Hf'); try done; try lia.
  { apply Hoff. lia. }
  cbn [mbind result_bind]. apply IH; [done|done|lia|]. intros j Hj. apply Hoff. lia.
Qed.

Lemma generate_ok l : length l = NN → Forall is_u64 l →
  ∃ l', generate l = Ok l' ∧ length l' = NN ∧ Forall is_u64 l'.
Proof.
  intros Hl Hf. unfold generate.
  destruct (twist_range_ok (NN - MM) l 0 (λ i, i + MM)%nat) as (l1 & -> & Hl1 & Hf1);
    [done|done|unfold NN, MM; lia|unfold NN, MM; lia|].
  cbn [mbind result_bind].
  destruct (twist_range_ok (MM - 1) l1 (NN - MM) (λ i, i - (NN - MM))%nat)
    as (l2 & -> & Hl2 & Hf2); [done|done|unfold NN, MM; lia|unfold NN, MM; lia|].
  cbn [mbind result_bind]. apply twist_ok; (done || unfold NN, MM; lia).
Qed.

Lemma temper_u64 x : is_u64 x → is_u64 (temper x).
Proof. intros. unfold temper. u64_solve. Qed.

(** The Mersenne twister never leaves its state array: from any state with
    312 words of 64 bits (which [init] establishes) [rnd] returns a 64-bit word,
    whatever the position counter, and its next state has the same shape. *)
Theorem mersenne_rnd_total s : wf s →
  ∃ x s', rnd s = Ok (x, s') ∧ is_u64 x ∧ wf s' ∧ (mti s' ≤ NN)%nat.
Proof.
  intros [Hl Hf]. unfold rnd. case_decide as Hd.
  - destruct (generate_ok (mt s)) as (l' & -> & Hl' & Hf'); [done|done|].
    cbn [mbind result_bind mt mti].
    destruct (lookup_lt_is_Some_2 l' 0) as [x Hx]; [unfold NN in *; lia|].
    rewrite (arr_get_lookup _ _ _ Hx). cbn [mbind result_bind].
    eexists _, _; split; [done|]. split; [apply temper_u64; by eapply Forall_lookup_1|].
    split; [done|]. unfold NN; cbn; lia.
  - destruct (lookup_lt_is_Some_2 (mt s) (mti s)) as [x Hx]; [lia|].
    cbn [mbind result_bind]. rewrite (arr_get_lookup _ _ _ Hx). cbn [mbind result_bind].
    eexists _, _; split; [done|]. split; [apply temper_u64; by eapply Forall_lookup_1|].
    split; [done|]. cbn. lia.
Qed.

Lemma mersenne_rnd_total_witness :
  wf (init 42) ∧ ∃ x s', rnd (init 42) = Ok (x, s') ∧ is_u64 x ∧ wf s' ∧ (mti s' ≤ NN)%nat.
Proof.
  assert (wf (init 42)) by (apply init_wf; unfold is_u64; lia).
  split; [done|]. by apply (mersenne_rnd_total (init 42)).
Defined.
End mersenne.

(** [getRandU64(min, max)] draws from the half-open interval: for
    [min < max] it throws nothing (neither of its [ensure]s fires) and
    returns a value with [min <= r < max]. *)
Theorem getRandU64_half_open raw min max :
  is_u64 raw → 0 <= min → min < max → max < 2 ^ 64 →
  ∃ r, getRandU64 raw min max = Ok r ∧ min <= r < max.
Proof.
  intros Hr Hmin Hlt Hmax. unfold getRandU64. rewrite (u64_small (max - min)) by lia.
  rewrite (proj2 (Z.eqb_neq _ 0)) by lia.
  pose proof (Z.mod_pos_bound raw (max - min)) as Hm.
  rewrite u64_small by lia. unfold ensure.
  rewrite (proj2 (Z.ltb_lt _ _)), (proj2 (Z.leb_le _ _)) by lia.
  eexists; split; [done|lia].
Qed.

Lemma getRandU64_half_open_witness :
  is_u64 17 ∧ ∃ r, getRandU64 17 3 8 = Ok r ∧ 3 <= r < 8.
Proof. split; [unfold is_u64; lia|]. apply getRandU64_half_open; unfold is_u64; lia. Defined.

Lemma lxor_shiftr_nonzero x k : 0 < x → 0 < k → Z.lxor x (Z.shiftr x k) ≠ 0.
Proof.
  intros Hx Hk E. apply Z.lxor_eq in E. rewrite Z.shiftr_div_pow2 in E by lia.
  assert (1 < 2 ^ k) by (apply Z.pow_gt_1; lia).
  assert (x / 2 ^ k < x) by (apply Z.div_lt; lia). lia.
Qed.

Lemma lxor_shiftl_nonzero x k : 0 < x < 2 ^ 64 → 0 < k < 64 → Z.lxor x (x <<₆₄ k) ≠ 0.
Proof.
  intros Hx Hk E. apply Z.lxor_eq in E.
  assert (∀ i, 0 <= i → Z.testbit x i = false) as Hz.
  { intros i Hi. pattern i. apply Z_lt_induction; [clear i Hi|done].
    intros i IH. destruct (decide (i < 0)); [by apply Z.testbit_neg_r|].
    rewrite E. unfold u64. destruct (decide (i < 64)).
    - rewrite Z.mod_pow2_bits_low, Z.shiftl_spec by lia. destruct (decide (i < k)).
      + apply Z.testbit_neg_r. lia.
      + apply IH. lia.
    - apply Z.mod_pow2_bits_high. lia. }
  assert (x = 0); [|lia]. apply Z.bits_inj'. intros n Hn. rewrite Hz, Z.bits_0; done.
Qed.

(** The xorshift generator never reaches the absorbing state 0: a non-zero
    64-bit seed is mapped to a non-zero 64-bit seed. *)
Theorem xorshift_seed_nonzero seed : is_u64 seed → seed ≠ 0 →
  is_u64 (xorshift_rnd seed).2 ∧ (xorshift_rnd seed).2 ≠ 0 ∧ is_u64 (xorshift_rnd seed).1.
Proof.
  intros Hs Hnz. unfold xorshift_rnd. cbn [fst snd].
  set (a := Z.lxor seed (Z.shiftr seed 12)).
  assert (is_u64 a) by (subst a; u64_solve).
  assert (a ≠ 0) by (apply lxor_shiftr_nonzero; unfold is_u64 in *; lia).
  set (b := Z.lxor a (a <<₆₄ 25)).
  assert (is_u64 b) by (subst b; u64_solve).
  assert (b ≠ 0) by (apply lxor_shiftl_nonzero; unfold is_u64 in *; lia).
  split; [u64_solve|]. split; [|u64_solve].
  apply lxor_shiftr_nonzero; unfold is_u64 in *; lia.
Qed.

Lemma xorshift_seed_nonzero_witness : is_u64 7 ∧ (xorshift_rnd 7).2 ≠ 0.
Proof.
  assert (is_u64 7) by (unfold is_u64; lia). split; [done|].
  by apply (xorshift_seed_nonzero 7).
Defined.
