(* ===== verification/Bitmap.v ===== *)
(** * storage/datastructures/Bitmap.hpp: the four bitmap classes

    [StaticBitmap<64>] is one word (it is the shared-possessor set of a buffer
    frame); [StaticBitmap<SIZE>], [Bitmap] and [AtomicBitmap] are arrays of
    words.  Callbacks [func] are state transformers [Z → S → S] applied in the
    order the loops call them.  The word loops peel the lowest set bit with
    [bitset ^= bitset & -bitset]; 64 rounds are enough for a 64-bit word. *)

From S2P Require Import Prelude Defs Random.
Local Open Scope Z_scope.

(** ** Compiler builtins *)

Fixpoint ctz_pos (p : positive) : Z :=
  match p with xO q => 1 + ctz_pos q | _ => 0 end.
(** [__builtin_ctzll]; undefined for 0 (every call site tests for 0 first). *)
Definition ctzll (w : Z) : Z := match w with Zpos p => ctz_pos p | _ => 0 end.

Fixpoint popcount_pos (p : positive) : Z :=
  match p with xH => 1 | xO q => popcount_pos q | xI q => 1 + popcount_pos q end.
Definition popcountll (w : Z) : Z := match w with Zpos p => popcount_pos p | _ => 0 end.

(** ** The loop shared by all classes

    [while (bitset != 0) { t = bitset & -bitset; r = ctz(bitset); func(base + r);
    bitset ^= t; }] *)
Fixpoint while_bits {S} (fuel : nat) (base : Z) (func : Z → S → S) (bitset : Z) (s : S)
    : result S :=
  if bitset =? 0 then Ok s
  else match fuel with
  | O => Throw OutOfFuel
  | Datatypes.S f =>
      let t := Z.land bitset (u64 (- bitset)) in
      let r := ctzll bitset in
      while_bits f base func (Z.lxor bitset t) (func (base + r) s)
  end.

Definition WORD_FUEL : nat := 64.
Arguments WORD_FUEL : simpl never.

(** The body [out[pos++] = x] as a callback; [out] is an array of [uint32_t]. *)
Definition out_push (x : Z) (out : list Z) : list Z := out ++ [u32 x].
(** The body [answ = x] as a callback; [None] is the uninitialised variable. *)
Definition keep_last (x : Z) (_ : option Z) : option Z := Some x.

(** ** StaticBitmap<64> *)

Definition sb64_set (w pos : Z) : Z := Z.lor w (1 <<₆₄ Z.land pos 63).
Definition sb64_reset (w pos : Z) : Z := Z.land w (not64 (1 <<₆₄ Z.land pos 63)).
Definition sb64_clear (w : Z) : Z := 0.
Definition sb64_test (w pos : Z) : bool :=
  negb (Z.land w (1 <<₆₄ Z.land pos 63) =? 0).
Definition sb64_decode (w : Z) : result (list Z) := while_bits WORD_FUEL 0 out_push w [].
Definition sb64_none (w : Z) : bool := if negb (w =? 0) then false else true.
Definition sb64_any (w : Z) : bool := negb (sb64_none w).
Definition sb64_applyForAll {S} (func : Z → S → S) (w : Z) (s : S) : result S :=
  while_bits WORD_FUEL 0 func w s.
Definition sb64_applyToOne {S} (func : Z → S → S) (w : Z) (s : S) : S :=
  if negb (w =? 0) then func (ctzll w) s else s.
Definition sb64_count (w : Z) : Z := popcountll w.

(** The counting loop of [applyToOneRnd]. *)
Fixpoint rnd_pick_loop {S} (fuel : nat) (func : Z → S → S) (pick idx bitset : Z) (s : S)
    : result S :=
  if bitset =? 0 then Ok s
  else match fuel with
  | O => Throw OutOfFuel
  | Datatypes.S f =>
      if idx =? pick then Ok (func (ctzll bitset) s)
      else
        let t := Z.land bitset (u64 (- bitset)) in
        rnd_pick_loop f func pick (idx + 1) (Z.lxor bitset t) s
  end.

(** [applyToOneRnd]; [raw] is the draw of the Mersenne twister. *)
Definition sb64_applyToOneRnd {S} (raw : Z) (func : Z → S → S) (w : Z) (s : S) : result S :=
  let cnt := sb64_count w in
  if cnt =? 1 then Ok (sb64_applyToOne func w s)
  else
    pick ← getRandU64 raw 0 (cnt -₆₄ 1);
    rnd_pick_loop WORD_FUEL func pick 0 w s.

Definition sb64_getHighestBitSet (w : Z) : result (option Z) :=
  while_bits WORD_FUEL 0 keep_last w None.
Definition sb64_getFreeSlot (w : Z) : option Z :=
  if negb (w =? 0xFFFFFFFFFFFFFFFF) then Some (ctzll (not64 w)) else None.

(** ** StaticBitmap<SIZE>: an array of words *)

Definition word_of (pos : Z) : nat := Z.to_nat (Z.shiftr pos 6).

Definition sb_set (bm : list Z) (pos : Z) : result (list Z) :=
  x ← arr_get bm (word_of pos);
  arr_set bm (word_of pos) (Z.lor x (1 <<₆₄ Z.land pos 63)).
Definition sb_reset (bm : list Z) (pos : Z) : result (list Z) :=
  x ← arr_get bm (word_of pos);
  arr_set bm (word_of pos) (Z.land x (not64 (1 <<₆₄ Z.land pos 63))).
Definition sb_clear (bm : list Z) : list Z := (λ _, 0) <$> bm.
Definition sb_test (bm : list Z) (pos : Z) : result bool :=
  x ← arr_get bm (word_of pos);
  Ok (negb (Z.land x (1 <<₆₄ Z.land pos 63) =? 0)).

(** [for (k = ..; k < ..; ++k) { bitset = bitmap[k]; while ... func(k * 64 + r) }] *)
Fixpoint for_words {S} (func : Z → S → S) (k : Z) (ws : list Z) (s : S) : result S :=
  match ws with
  | [] => Ok s
  | w :: ws' => s' ← while_bits WORD_FUEL (k * 64) func w s; for_words func (k + 1) ws' s'
  end.

Definition sb_decode (bm : list Z) : result (list Z) := for_words out_push 0 bm [].
Definition sb_applyForAll {S} (func : Z → S → S) (bm : list Z) (s : S) : result S :=
  for_words func 0 bm s.
Definition sb_getHighestBitSet (bm : list Z) : result (option Z) := for_words keep_last 0 bm None.

Fixpoint sb_none (bm : list Z) : bool :=
  match bm with [] => true | w :: bm' => if negb (w =? 0) then false else sb_none bm' end.
Definition sb_any (bm : list Z) : bool := negb (sb_none bm).

Fixpoint sb_applyToOne_from {S} (func : Z → S → S) (k : Z) (bm : list Z) (s : S) : S :=
  match bm with
  | [] => s
  | w :: bm' =>
      if negb (w =? 0) then func (k * 64 + ctzll w) s else sb_applyToOne_from func (k + 1) bm' s
  end.
Definition sb_applyToOne {S} (func : Z → S → S) (bm : list Z) (s : S) : S :=
  sb_applyToOne_from func 0 bm s.

Fixpoint sb_count (bm : list Z) : Z :=
  match bm with [] => 0 | w :: bm' => popcountll w + sb_count bm' end.

Fixpoint sb_getFreeSlot_from (k : Z) (bm : list Z) : option Z :=
  match bm with
  | [] => None
  | w :: bm' =>
      if negb (w =? 0xFFFFFFFFFFFFFFFF) then Some (k * 64 + ctzll (not64 w))
      else sb_getFreeSlot_from (k + 1) bm'
  end.
Definition sb_getFreeSlot (bm : list Z) : option Z := sb_getFreeSlot_from 0 bm.

(** ** Bitmap: words sized at run time *)

Record bitmap := mkBitmap { bm_words : list Z; bm_sizeBits : Z }.

Definition bm_new (sizeBits : Z) : result bitmap :=
  _ ← ensure (sizeBits `mod` 64 =? 0);
  Ok (mkBitmap (replicate (Z.to_nat (Z.shiftr sizeBits 6)) 0) sizeBits).
Definition bm_set (b : bitmap) (pos : Z) : result bitmap :=
  ws ← sb_set (bm_words b) pos; Ok (mkBitmap ws (bm_sizeBits b)).
Definition bm_reset (b : bitmap) (pos : Z) : result bitmap :=
  ws ← sb_reset (bm_words b) pos; Ok (mkBitmap ws (bm_sizeBits b)).
Definition bm_test (b : bitmap) (pos : Z) : result bool := sb_test (bm_words b) pos.
Definition bm_decode (b : bitmap) : result (list Z) := for_words out_push 0 (bm_words b) [].
Definition bm_applyForAll {S} (func : Z → S → S) (b : bitmap) (s : S) : result S :=
  for_words func 0 (bm_words b) s.
Definition bm_getHighestBitSet (b : bitmap) : result (option Z) :=
  for_words keep_last 0 (bm_words b) None.
Definition bm_count (b : bitmap) : Z := sb_count (bm_words b).
Definition bm_getFreeSlot (b : bitmap) : option Z := sb_getFreeSlot (bm_words b).

(** ** AtomicBitmap: each word update is one atomic [fetch_or]/[fetch_and] *)

Definition ab_new (sizeBits : Z) : bitmap :=
  mkBitmap (replicate (Z.to_nat (Z.shiftr sizeBits 6)) 0) sizeBits.
Definition ab_set (b : bitmap) (pos : Z) : result bitmap := bm_set b pos.
Definition ab_reset (b : bitmap) (pos : Z) : result bitmap := bm_reset b pos.
Definition ab_test (b : bitmap) (pos : Z) : result bool := bm_test b pos.
Definition ab_count (b : bitmap) : Z := sb_count (bm_words b).

(** [applyForAll(func, startIdx, blocks)]. *)
Definition ab_applyForAll {S} (func : Z → S → S) (startIdx blocks : nat) (b : bitmap) (s : S)
    : result S :=
  _ ← ensure (bool_decide (startIdx + blocks < length (bm_words b))%nat);
  for_words func (Z.of_nat startIdx) (take blocks (drop startIdx (bm_words b))) s.

(** One round of [applyToOneRnd]: the first set bit at or after [pick] in its word. *)
Fixpoint ab_first_from (fuel : nat) (pick bitset : Z) : result (option Z) :=
  if bitset =? 0 then Ok None
  else match fuel with
  | O => Throw OutOfFuel
  | S f =>
      let r := ctzll bitset + 64 * Z.shiftr pick 6 in
      if pick <=? r then Ok (Some r)
      else ab_first_from f pick (Z.lxor bitset (Z.land bitset (u64 (- bitset))))
  end.

(** [applyToOneRnd]: draws until a round finds a bit; one raw draw per round. *)
Fixpoint ab_applyToOneRnd {S} (raws : list Z) (func : Z → S → S) (b : bitmap) (s : S)
    : result S :=
  match raws with
  | [] => Throw OutOfFuel
  | raw :: raws' =>
      pick ← getRandU64 raw 0 (bm_sizeBits b -₆₄ 1);
      w ← arr_get (bm_words b) (word_of pick);
      o ← ab_first_from WORD_FUEL pick w;
      match o with
      | Some r => Ok (func r s)
      | None => ab_applyToOneRnd raws' func b s
      end
  end.

(** ** Word-level lemmas *)

(** The set bits of a word, in ascending order. *)
Definition bits (w : Z) : list Z := filter (λ i, Z.testbit w i = true) (seqZ 0 64).

Lemma ctz_pos_nonneg p : 0 <= ctz_pos p.
Proof. induction p; simpl; lia. Qed.

(** [p & ~(p - 1)] has exactly the lowest set bit. *)
Lemma lowest_bit_pos p i : 0 <= i →
  Z.testbit (Zpos p) i && negb (Z.testbit (Z.pred (Zpos p)) i) = bool_decide (i = ctz_pos p).
Proof.
  revert i. induction p as [q IH|q IH|]; intros i Hi.
  - replace (Z.pred (Zpos q~1)) with (2 * Zpos q) by lia.
    replace (Zpos q~1) with (2 * Zpos q + 1) by lia.
    destruct (decide (i = 0)) as [->|].
    { rewrite Z.testbit_odd_0, Z.testbit_even_0. reflexivity. }
    replace i with (Z.succ (i - 1)) by lia.
    rewrite Z.testbit_odd_succ, Z.testbit_even_succ by lia.
    rewrite andb_negb_r. simpl. rewrite bool_decide_eq_false_2; [done|lia].
  - replace (Z.pred (Zpos q~0)) with (2 * Z.pred (Zpos q) + 1) by lia.
    replace (Zpos q~0) with (2 * Zpos q) by lia. simpl ctz_pos.
    pose proof (ctz_pos_nonneg q). destruct (decide (i = 0)) as [->|].
    { rewrite Z.testbit_even_0, bool_decide_eq_false_2; [done|lia]. }
    replace i with (Z.succ (i - 1)) by lia.
    rewrite Z.testbit_odd_succ, Z.testbit_even_succ, IH by lia.
    apply bool_decide_ext. lia.
  - simpl. destruct (decide (i = 0)) as [->|]; [reflexivity|].
    rewrite bool_decide_eq_false_2 by lia. destruct i; [done|done|lia].
Qed.

Lemma lowbit_pow w : 0 < w < 2 ^ 64 → Z.land w (u64 (- w)) = 2 ^ ctzll w.
Proof.
  intros Hw. destruct w as [|p|p]; [lia| |lia]. simpl ctzll.
  pose proof (ctz_pos_nonneg p). apply Z.bits_inj'. intros i Hi.
  pose proof (lowest_bit_pos p i Hi) as Hl. rewrite Z.land_spec, Z.pow2_bits_eqb by done.
  unfold u64. destruct (decide (i < 64)).
  - rewrite Z.mod_pow2_bits_low, Z.bits_opp, Hl by lia.
    case_bool_decide; symmetry; [apply Z.eqb_eq|apply Z.eqb_neq]; lia.
  - rewrite (testbit_small (Zpos p) 64 i) in Hl |- * by lia. simpl in *.
    symmetry in Hl. apply bool_decide_eq_false in Hl. symmetry. apply Z.eqb_neq. lia.
Qed.

Lemma ctzll_testbit w : 0 < w → Z.testbit w (ctzll w) = true.
Proof.
  intros Hw. destruct w as [|p|p]; [lia| |lia]. simpl.
  pose proof (lowest_bit_pos p (ctz_pos p) (ctz_pos_nonneg p)) as H.
  rewrite bool_decide_eq_true_2 in H by done. by apply andb_true_iff in H as [? _].
Qed.

Lemma ctzll_below w i : 0 < w → 0 <= i < ctzll w → Z.testbit w i = false.
Proof.
  destruct w as [|p|p]; [lia| |lia]. intros _. simpl. revert i.
  induction p as [q IH|q IH|]; simpl; intros i Hi; [lia| |lia].
  replace (Zpos q~0) with (2 * Zpos q) by lia. destruct (decide (i = 0)) as [->|].
  { by rewrite Z.testbit_even_0. }
  replace i with (Z.succ (i - 1)) by lia. rewrite Z.testbit_even_succ by lia. apply IH. lia.
Qed.

Lemma ctzll_range w : 0 < w < 2 ^ 64 → 0 <= ctzll w < 64.
Proof.
  intros Hw. assert (0 <= ctzll w).
  { destruct w; simpl; [lia| |lia]. apply ctz_pos_nonneg. }
  split; [done|]. destruct (decide (ctzll w < 64)); [done|].
  pose proof (ctzll_testbit w) as Ht. rewrite (testbit_small w 64) in Ht; [|lia..].
  discriminate Ht. lia.
Qed.

Lemma elem_of_bits w i : i ∈ bits w ↔ 0 <= i < 64 ∧ Z.testbit w i = true.
Proof. unfold bits. rewrite list_elem_of_filter, elem_of_seqZ. lia || intuition lia. Qed.

Lemma bits_0 : bits 0 = [].
Proof. reflexivity. Qed.

(** Peeling the lowest bit off a word peels the head off its bit list. *)
Lemma bits_peel w : 0 < w < 2 ^ 64 →
  bits w = ctzll w :: bits (Z.lxor w (2 ^ ctzll w)) ∧ is_u64 (Z.lxor w (2 ^ ctzll w)).
Proof.
  intros Hw. pose proof (ctzll_range w Hw) as Hc. set (c := ctzll w) in *. split.
  - unfold bits. replace 64 with (c + (64 - c)) by lia.
    rewrite !seqZ_app, !filter_app by lia. rewrite Z.add_0_l, (seqZ_cons c) by lia.
    assert (∀ w', (∀ i, 0 <= i < c → Z.testbit w' i = false) →
      filter (λ i, Z.testbit w' i = true) (seqZ 0 c) = []) as Hlow.
    { intros w' Hb. apply filter_none. intros i Hi%elem_of_seqZ. rewrite Hb; [done|lia]. }
    rewrite !Hlow.
    2:{ intros i Hi. rewrite Z.lxor_spec, Z.pow2_bits_false, (ctzll_below w i) by lia. done. }
    2:{ intros i Hi. apply (ctzll_below w i); lia. }
    assert (Z.testbit w c = true) as Hwc by (apply ctzll_testbit; lia).
    rewrite !filter_cons, decide_True by done.
    rewrite decide_False by (rewrite Z.lxor_spec, Hwc, Z.pow2_bits_true by lia; done).
    simpl. f_equal. apply filter_ext_in. intros i Hi%elem_of_seqZ.
    rewrite Z.lxor_spec, Z.pow2_bits_false, xorb_false_r by lia. done.
  - assert (c < 64) by lia. assert (2 ^ c < 2 ^ 64) by (apply Z.pow_lt_mono_r; lia).
    apply is_u64_lxor; unfold is_u64; lia.
Qed.

(** ** The loops compute over the bit list *)

Lemma while_bits_spec {S} (func : Z → S → S) base fuel : ∀ w s,
  is_u64 w → (length (bits w) ≤ fuel)%nat →
  while_bits fuel base func w s = Ok (foldl (λ s i, func (base + i) s) s (bits w)).
Proof.
  induction fuel as [|fuel IH]; intros w s Hw Hl.
  - destruct (Z.eqb_spec w 0) as [->|]; [by rewrite bits_0|].
    destruct (bits_peel w) as [E _]; [unfold is_u64 in *; lia|]. rewrite E in Hl. simpl in Hl. lia.
  - simpl. destruct (Z.eqb_spec w 0) as [->|]; [by rewrite bits_0|].
    assert (0 < w < 2 ^ 64) as Hw' by (unfold is_u64 in *; lia).
    destruct (bits_peel w Hw') as [E Hx]. rewrite lowbit_pow by done.
    rewrite E in Hl |- *. simpl in *. apply IH; [done|lia].
Qed.

Lemma length_bits w : (length (bits w) ≤ WORD_FUEL)%nat.
Proof. unfold bits. etrans; [apply length_filter|]. by rewrite length_seqZ. Qed.

Lemma while_bits_full {S} (func : Z → S → S) base w s : is_u64 w →
  while_bits WORD_FUEL base func w s = Ok (foldl (λ s i, func (base + i) s) s (bits w)).
Proof. intros. apply while_bits_spec; [done|apply length_bits]. Qed.

(** The positions set in an array of words, the first word being word [k]. *)
Fixpoint positions (k : Z) (ws : list Z) : list Z :=
  match ws with [] => [] | w :: ws' => ((Z.add (k * 64)) <$> bits w) ++ positions (k + 1) ws' end.

Lemma for_words_spec {S} (func : Z → S → S) ws : ∀ k s, Forall is_u64 ws →
  for_words func k ws s = Ok (foldl (λ s i, func i s) s (positions k ws)).
Proof.
  induction ws as [|w ws IH]; intros k s Hw; [done|].
  apply Forall_cons in Hw as [? ?]. cbn [for_words positions]. rewrite while_bits_full by done.
  cbn [mbind result_bind]. rewrite IH by done. by rewrite foldl_app, foldl_fmap.
Qed.

Lemma elem_of_positions ws : ∀ k p, 0 <= k →
  p ∈ positions k ws ↔ k * 64 <= p ∧
    ∃ w, ws !! (Z.to_nat (Z.shiftr p 6) - Z.to_nat k)%nat = Some w ∧
         Z.testbit w (Z.land p 63) = true.
Proof.
  induction ws as [|w ws IH]; intros k p Hk; simpl.
  { split; [by intros ?%elem_of_nil|]. rewrite lookup_nil. intros (_ & ? & ? & _). done. }
  rewrite elem_of_app, IH, list_elem_of_fmap by lia.
  change 63 with (2 ^ 6 - 1). rewrite land_ones_mod, Z.shiftr_div_pow2 by lia.
  change (2 ^ 6) with 64. split.
  - intros [(i & -> & Hi%elem_of_bits)|(Hp & w' & Hw' & Hb)].
    + rewrite Z.div_add_l, Z.div_small, (Z.add_comm _ i), Z.mod_add, Z.mod_small by lia.
      split; [lia|]. exists w. replace (_ - _)%nat with 0%nat by lia. by destruct Hi.
    + split; [lia|]. exists w'. split; [|done]. assert (k + 1 <= p / 64) by (apply Z.div_le_lower_bound; lia).
      replace (Z.to_nat (p / 64) - Z.to_nat k)%nat
        with (S (Z.to_nat (p / 64) - Z.to_nat (k + 1)))%nat by lia. done.
  - intros (Hp & w' & Hw' & Hb). pose proof (Z.mod_pos_bound p 64).
    pose proof (Z.div_mod p 64). destruct (decide (p / 64 = k)) as [E|].
    + left. rewrite E, Nat.sub_diag in Hw'. injection Hw' as ->.
      exists (p `mod` 64). rewrite elem_of_bits. split; [lia|]. split; [lia|done].
    + right. assert (k <= p / 64) by (apply Z.div_le_lower_bound; lia).
      split; [lia|]. exists w'. split; [|done].
      by replace (Z.to_nat (p / 64) - Z.to_nat k)%nat
        with (S (Z.to_nat (p / 64) - Z.to_nat (k + 1)))%nat in Hw' by lia.
Qed.

(** ** Point operations in terms of bits *)

Lemma bit_mask pos : u64 (Z.shiftl 1 (Z.land pos 63)) = 2 ^ (pos `mod` 64).
Proof.
  change 63 with (2 ^ 6 - 1). rewrite land_ones_mod by lia. change (2 ^ 6) with 64.
  pose proof (Z.mod_pos_bound pos 64). rewrite Z.shiftl_1_l. apply u64_small.
  split; [lia|]. apply Z.pow_lt_mono_r; lia.
Qed.

Lemma not64_testbit x i : 0 <= i < 64 → Z.testbit (not64 x) i = negb (Z.testbit x i).
Proof.
  intros Hi. unfold not64. replace (2 ^ 64 - 1) with (Z.ones 64) by reflexivity.
  rewrite Z.lxor_spec, Z.ones_spec_low by lia. apply xorb_true_r.
Qed.

Lemma not64_range x : is_u64 x → is_u64 (not64 x).
Proof. intros. unfold not64. apply is_u64_lxor; [done|unfold is_u64; lia]. Qed.

Lemma land_pow2_test w k : 0 <= k → negb (Z.land w (2 ^ k) =? 0) = Z.testbit w k.
Proof.
  intros Hk. destruct (Z.testbit w k) eqn:E.
  - apply negb_true_iff, Z.eqb_neq. intros H.
    assert (Z.testbit (Z.land w (2 ^ k)) k = true) as Hb
      by (rewrite Z.land_spec, E, Z.pow2_bits_true by done; done).
    by rewrite H, Z.bits_0 in Hb.
  - apply negb_false_iff, Z.eqb_eq, Z.bits_inj'. intros i Hi.
    rewrite Z.land_spec, Z.bits_0. destruct (decide (i = k)) as [->|]; [by rewrite E|].
    rewrite Z.pow2_bits_false by lia. apply andb_false_r.
Qed.

Lemma sb64_test_bit w p : sb64_test w p = Z.testbit w (p `mod` 64).
Proof.
  unfold sb64_test. rewrite bit_mask. apply land_pow2_test.
  apply Z.mod_pos_bound. lia.
Qed.

Lemma sb64_set_u64 w p : is_u64 w → is_u64 (sb64_set w p).
Proof. intros. apply is_u64_lor; [done|apply is_u64_u64]. Qed.

Lemma sb64_reset_u64 w p : is_u64 w → is_u64 (sb64_reset w p).
Proof.
  intros. apply is_u64_land; [done|].
  pose proof (not64_range _ (is_u64_u64 (Z.shiftl 1 (Z.land p 63)))) as Hn.
  unfold is_u64 in Hn. lia.
Qed.

Lemma pow2_testbit_mod p q :
  Z.testbit (2 ^ (p `mod` 64)) (q `mod` 64) = bool_decide (p `mod` 64 = q `mod` 64).
Proof.
  pose proof (Z.mod_pos_bound p 64). pose proof (Z.mod_pos_bound q 64).
  rewrite Z.pow2_bits_eqb by lia. case_bool_decide; [by apply Z.eqb_eq|by apply Z.eqb_neq].
Qed.

Lemma sb64_test_set w p q :
  sb64_test (sb64_set w p) q = bool_decide (p `mod` 64 = q `mod` 64) || sb64_test w q.
Proof.
  rewrite !sb64_test_bit. unfold sb64_set.
  by rewrite bit_mask, Z.lor_spec, orb_comm, pow2_testbit_mod.
Qed.

Lemma sb64_test_reset w p q :
  sb64_test (sb64_reset w p) q = negb (bool_decide (p `mod` 64 = q `mod` 64)) && sb64_test w q.
Proof.
  rewrite !sb64_test_bit. unfold sb64_reset. rewrite bit_mask, Z.land_spec, andb_comm.
  rewrite not64_testbit by (apply Z.mod_pos_bound; lia). by rewrite pow2_testbit_mod.
Qed.

Lemma sb64_none_iff w : is_u64 w → sb64_none w = true ↔ ∀ p, 0 <= p < 64 → sb64_test w p = false.
Proof.
  intros Hw. unfold sb64_none. destruct (Z.eqb_spec w 0) as [->|Hn]; simpl.
  - split; [|done]. intros _ p _. by rewrite sb64_test_bit, Z.bits_0.
  - split; [done|]. intros Hz. exfalso. unfold is_u64 in Hw.
    pose proof (ctzll_range w ltac:(lia)). specialize (Hz (ctzll w) ltac:(lia)).
    rewrite sb64_test_bit, Z.mod_small, ctzll_testbit in Hz by lia. done.
Qed.

(** ** Counting and order *)

Lemma popcountll_double z : popcountll (2 * z) = popcountll z.
Proof. by destruct z. Qed.

Lemma popcount_drop_lowest p :
  popcountll (Zpos p - 2 ^ ctz_pos p) = popcount_pos p - 1.
Proof.
  induction p as [q IH|q IH|]; simpl ctz_pos; simpl popcount_pos; [| |done].
  - replace (Zpos q~1 - 2 ^ 0) with (2 * Zpos q) by lia. rewrite popcountll_double. simpl. lia.
  - pose proof (ctz_pos_nonneg q). rewrite Z.pow_add_r, Pos2Z.inj_xO by lia.
    replace (2 * Zpos q - 2 ^ 1 * 2 ^ ctz_pos q) with (2 * (Zpos q - 2 ^ ctz_pos q)) by lia.
    by rewrite popcountll_double.
Qed.

Lemma lxor_pow2_sub w c : 0 <= c → Z.testbit w c = true → Z.lxor w (2 ^ c) = w - 2 ^ c.
Proof.
  intros Hc Hb.
  assert (∀ i, Z.testbit (2 ^ c) i = true → Z.testbit w i = true) as Hsub.
  { intros i. destruct (decide (i = c)) as [->|]; [done|]. by rewrite Z.pow2_bits_false by lia. }
  rewrite Z.sub_nocarry_ldiff; apply Z.bits_inj'; intros i Hi;
    rewrite ?Z.lxor_spec, !Z.ldiff_spec, ?Z.bits_0; specialize (Hsub i);
    destruct (Z.testbit w i), (Z.testbit (2 ^ c) i); naive_solver.
Qed.

Lemma popcountll_bits w : is_u64 w → popcountll w = Z.of_nat (length (bits w)).
Proof.
  intros Hw. remember (length (bits w)) as n eqn:En. revert w Hw En.
  induction n as [|n IH]; intros w Hw En; unfold is_u64 in Hw;
    (destruct (Z.eqb_spec w 0) as [->|Hn]; [done|]);
    assert (0 < w < 2 ^ 64) as Hw' by lia; destruct (bits_peel w Hw') as [E Hx].
  - by rewrite E in En.
  - rewrite E in En. injection En as En. specialize (IH _ Hx En).
    rewrite lxor_pow2_sub in IH by (apply ctzll_range || apply ctzll_testbit; lia).
    destruct w as [|p|p]; [lia| |lia]. cbn [ctzll popcountll] in *.
    rewrite popcount_drop_lowest in IH. lia.
Qed.

Lemma seqZ_sorted m (n : nat) : StronglySorted Z.lt (seqZ m (Z.of_nat n)).
Proof.
  revert m. induction n as [|n IH]; intros m; [rewrite seqZ_nil by lia; constructor|].
  rewrite seqZ_cons by lia. replace (Z.pred (Z.of_nat (S n))) with (Z.of_nat n) by lia.
  constructor; [apply IH|]. apply Forall_forall. intros x Hx%elem_of_seqZ. lia.
Qed.

Lemma bits_sorted w : StronglySorted Z.lt (bits w).
Proof. apply filter_ssorted, (seqZ_sorted 0 64). Qed.

Lemma sorted_fmap_add k (l : list Z) : StronglySorted Z.lt l → StronglySorted Z.lt (Z.add k <$> l).
Proof.
  induction 1 as [|x l Hl IH Hx]; simpl; constructor; [done|].
  apply Forall_fmap. eapply Forall_impl; [exact Hx|]. simpl. lia.
Qed.

Lemma positions_sorted ws : ∀ k, 0 <= k → StronglySorted Z.lt (positions k ws).
Proof.
  induction ws as [|w ws IH]; intros k Hk; cbn [positions]; [constructor|].
  apply StronglySorted_app. split; [|split; [apply sorted_fmap_add, bits_sorted|apply IH; lia]].
  intros x y (i & -> & Hi%elem_of_bits)%list_elem_of_fmap Hy.
  apply elem_of_positions in Hy as [Hy _]; lia.
Qed.

Lemma foldl_out_push base l acc : Forall (λ i, 0 <= base + i < 2 ^ 32) l →
  foldl (λ s i, out_push (base + i) s) acc l = acc ++ (Z.add base <$> l).
Proof.
  revert acc. induction l as [|x l IH]; intros acc Hl; simpl; [by rewrite app_nil_r|].
  apply Forall_cons in Hl as [Hx Hl]. rewrite IH by done. unfold out_push, u32.
  rewrite Z.mod_small by done. by rewrite <- app_assoc.
Qed.

Lemma fmap_add_0 (l : list Z) : Z.add 0 <$> l = l.
Proof. induction l; simpl; [done|]. by f_equal. Qed.

(** ** Properties *)

(** Point updates of the 64-bit possessor set: after [set(p)] the test of
    [q] is true exactly when [p] and [q] name the same bit or [q] was set
    before, after [reset(p)] exactly when they differ and [q] was set, both
    keep the word 64 bits wide, and [none()] holds exactly when no bit tests
    true. *)
Theorem sb64_point_ops w p q : is_u64 w →
  sb64_test (sb64_set w p) q = bool_decide (p `mod` 64 = q `mod` 64) || sb64_test w q ∧
  sb64_test (sb64_reset w p) q = negb (bool_decide (p `mod` 64 = q `mod` 64)) && sb64_test w q ∧
  is_u64 (sb64_set w p) ∧ is_u64 (sb64_reset w p) ∧
  (sb64_none w = true ↔ ∀ i, 0 <= i < 64 → sb64_test w i = false).
Proof.
  intros Hw. split; [apply sb64_test_set|]. split; [apply sb64_test_reset|].
  split; [by apply sb64_set_u64|]. split; [by apply sb64_reset_u64|]. by apply sb64_none_iff.
Qed.

Lemma sb64_point_ops_witness :
  is_u64 5 ∧ sb64_test (sb64_set 5 63) 63 = true ∧ sb64_test (sb64_reset 5 2) 2 = false.
Proof.
  assert (is_u64 5) by (unfold is_u64; lia). split; [done|].
  destruct (sb64_point_ops 5 63 63) as (-> & _); [done|].
  destruct (sb64_point_ops 5 2 2) as (_ & -> & _); [done|]. by split.
Defined.

(** The bit-peeling loop terminates within 64 rounds and decodes the word
    exactly: [bitmap_decode_ctz] returns the positions whose test is true, each
    once and in ascending order, and there are [count()] of them; every
    [applyForAll] applies its callback to these positions in this order. *)
Theorem sb64_decode_exact w : is_u64 w →
  ∃ l, sb64_decode w = Ok l ∧ StronglySorted Z.lt l ∧ Z.of_nat (length l) = sb64_count w ∧
       (∀ i, i ∈ l ↔ 0 <= i < 64 ∧ sb64_test w i = true) ∧
       (∀ S (func : Z → S → S) s, sb64_applyForAll func w s = Ok (foldl (λ s i, func i s) s l)).
Proof.
  intros Hw. exists (bits w). unfold sb64_decode, sb64_applyForAll.
  rewrite while_bits_full, foldl_out_push, fmap_add_0 by
    (done || (apply Forall_forall; intros i Hi%elem_of_bits; lia)).
  split; [done|]. split; [apply bits_sorted|]. split; [by rewrite <- popcountll_bits|].
  split.
  - intros i. rewrite elem_of_bits, sb64_test_bit. split; intros [Hi Ht];
      (split; [done|]); by rewrite Z.mod_small in * by lia.
  - intros S func s. by rewrite while_bits_full.
Qed.

Lemma sb64_decode_exact_witness : is_u64 0x8000000000000021 ∧
  sb64_decode 0x8000000000000021 = Ok [0; 5; 63] ∧ sb64_count 0x8000000000000021 = 3.
Proof.
  assert (is_u64 0x8000000000000021) as H by (unfold is_u64; lia). split; [done|].
  destruct (sb64_decode_exact _ H) as (l & E & _ & Hl & _). rewrite <- Hl, E.
  vm_compute in E. injection E as <-. by split.
Defined.

Lemma rnd_pick_loop_spec {S} (func : Z → S → S) pick fuel : ∀ w idx s,
  is_u64 w → (length (bits w) ≤ fuel)%nat → 0 <= idx <= pick →
  rnd_pick_loop fuel func pick idx w s =
    Ok (match bits w !! Z.to_nat (pick - idx) with Some r => func r s | None => s end).
Proof.
  induction fuel as [|fuel IH]; intros w idx s Hw Hl Hidx;
    cbn [rnd_pick_loop]; (destruct (Z.eqb_spec w 0) as [->|Hn]; [by rewrite bits_0|]);
    assert (0 < w < 2 ^ 64) as Hw' by (unfold is_u64 in *; lia);
    destruct (bits_peel w Hw') as [E Hx].
  - rewrite E in Hl. simpl in Hl. lia.
  - rewrite E in Hl |- *. simpl in Hl. destruct (Z.eqb_spec idx pick) as [->|].
    { by rewrite Z.sub_diag. }
    rewrite lowbit_pow, IH by (done || lia). f_equal.
    replace (Z.to_nat (pick - idx)) with (Datatypes.S (Z.to_nat (pick - (idx + 1)))) by lia. done.
Qed.

Lemma applyToOneRnd_picks {S} raw (func : Z → S → S) w s :
  is_u64 w → w ≠ 0 → is_u64 raw →
  ∃ r, sb64_applyToOneRnd raw func w s = Ok (func r s) ∧ 0 <= r < 64 ∧
       sb64_test w r = true ∧
       (2 <= sb64_count w → ∃ h, sb64_test w h = true ∧ r < h < 64).
Proof.
  intros Hw Hn Hr. unfold sb64_applyToOneRnd.
  assert (0 < w < 2 ^ 64) as Hw' by (unfold is_u64 in *; lia).
  pose proof (ctzll_range w Hw') as Hc. pose proof (popcountll_bits w Hw) as Hcnt.
  assert (∀ i r, bits w !! i = Some r → 0 <= r < 64 ∧ sb64_test w r = true) as Hmem.
  { intros i r Hi%list_elem_of_lookup_2%elem_of_bits. rewrite sb64_test_bit.
    destruct Hi as [? ?]. split; [lia|]. by rewrite Z.mod_small by lia. }
  destruct (bits_peel w Hw') as [E _]. unfold sb64_count in *.
  destruct (Z.eqb_spec (popcountll w) 1) as [E1|].
  - unfold sb64_applyToOne. rewrite (proj2 (Z.eqb_neq w 0)) by done. simpl.
    exists (ctzll w). split; [done|]. destruct (Hmem 0%nat (ctzll w)) as [? ?]; [by rewrite E|].
    repeat split; (done || lia).
  - rewrite Hcnt in *. rewrite E in Hcnt. simpl in Hcnt.
    assert (2 <= Z.of_nat (length (bits w))) as Hge by (rewrite E in *; simpl in *; lia).
    pose proof (length_bits w) as Hlen. unfold WORD_FUEL in Hlen.
    rewrite u64_small by lia.
    destruct (getRandU64_half_open raw 0 (Z.of_nat (length (bits w)) - 1)) as (pick & -> & Hp);
      [done|lia..|].
    cbn [mbind result_bind]. rewrite rnd_pick_loop_spec by (done || apply length_bits || lia).
    destruct (lookup_lt_is_Some_2 (bits w) (Z.to_nat (pick - 0))) as [r Hlk]; [lia|].
    rewrite Hlk. exists r. split; [done|]. destruct (Hmem _ _ Hlk) as [? ?].
    split; [lia|]. split; [done|]. intros _.
    destruct (lookup_lt_is_Some_2 (bits w) (length (bits w) - 1)%nat) as [h Hh]; [lia|].
    exists h. destruct (Hmem _ _ Hh) as [? ?]. split; [done|]. split; [|lia].
    eapply (ssorted_lookup_lt Z.lt); [apply bits_sorted|exact Hlk|exact Hh|lia].
Qed.

(** [applyToOneRnd] on a non-empty possessor set never fails and calls the
    callback exactly once, on a member of the set; but because the upper bound
    of [getRandU64] is exclusive, with two or more members it never picks the
    highest one (doc and name promise a random member). *)
Theorem sb64_applyToOneRnd_member {S} raw (func : Z → S → S) w s :
  is_u64 w → w ≠ 0 → is_u64 raw →
  ∃ r, sb64_applyToOneRnd raw func w s = Ok (func r s) ∧ 0 <= r < 64 ∧
       sb64_test w r = true ∧
       (2 <= sb64_count w → ∃ h, sb64_test w h = true ∧ r < h < 64).
Proof. apply applyToOneRnd_picks. Qed.

Lemma sb64_applyToOneRnd_member_witness :
  sb64_applyToOneRnd 77 (λ r l, r :: l) 0x13 [] = Ok [1] ∧
  ∃ r, sb64_applyToOneRnd 77 (λ r l, r :: l) 0x13 [] = Ok [r] ∧ sb64_test 0x13 r = true.
Proof.
  split; [reflexivity|].
  destruct (sb64_applyToOneRnd_member 77 (λ r l, r :: l) 0x13 []) as (r & E & _ & Ht & _);
    [unfold is_u64; lia|done|unfold is_u64; lia|]. eauto.
Defined.

Lemma sb_test_positions ws p : Forall is_u64 ws → 0 <= p →
  p ∈ positions 0 ws ↔ sb_test ws p = Ok true.
Proof.
  intros Hw Hp. rewrite elem_of_positions by lia. unfold sb_test, word_of.
  change (Z.to_nat 0) with 0%nat. rewrite Nat.sub_0_r, bit_mask.
  assert (Z.land p 63 = p `mod` 64) as -> by (apply (land_ones_mod p 6); lia).
  split.
  - intros (_ & w & Hlk & Hb). rewrite (arr_get_lookup _ _ _ Hlk). cbn [mbind result_bind].
    rewrite land_pow2_test, Hb by (apply Z.mod_pos_bound; lia). done.
  - intros H. apply bind_Ok_inv in H as (w & Hlk%arr_get_Ok & H). split; [lia|].
    exists w. split; [done|]. injection H as H.
    rewrite land_pow2_test in H by (apply Z.mod_pos_bound; lia). done.
Qed.

Lemma length_positions ws : ∀ k, Forall is_u64 ws →
  Z.of_nat (length (positions k ws)) = sb_count ws.
Proof.
  induction ws as [|w ws IH]; intros k Hw; [done|]. apply Forall_cons in Hw as [Hw Hws].
  cbn [positions sb_count]. rewrite length_app, length_fmap, popcountll_bits by done.
  specialize (IH (k + 1) Hws). lia.
Qed.

(** The array bitmaps decode exactly: on words of 64 bits (at most [2^26]
    of them, so that positions fit the [uint32_t] output) [bitmap_decode_ctz]
    returns, ascending and without repetition, the positions whose [test] is
    true, [count()] of them, and [applyForAll] visits them in this order. *)
Theorem sb_decode_exact ws : Forall is_u64 ws → Z.of_nat (length ws) <= 2 ^ 26 →
  ∃ l, sb_decode ws = Ok l ∧ StronglySorted Z.lt l ∧ Z.of_nat (length l) = sb_count ws ∧
       (∀ p, 0 <= p → p ∈ l ↔ sb_test ws p = Ok true) ∧
       (∀ S (func : Z → S → S) s, sb_applyForAll func ws s = Ok (foldl (λ s i, func i s) s l)).
Proof.
  intros Hw Hlen. exists (positions 0 ws). unfold sb_decode, sb_applyForAll.
  rewrite for_words_spec by done.
  change (λ s i, out_push i s) with (λ s i, out_push (0 + i) s).
  rewrite foldl_out_push, fmap_add_0.
  2:{ apply Forall_forall. intros p Hp%elem_of_positions; [|lia].
      destruct Hp as (Hp & w & Hlk%lookup_lt_Some & _).
      rewrite Z.shiftr_div_pow2 in Hlk by lia. change (2 ^ 6) with 64 in Hlk.
      pose proof (Z.div_mod p 64). pose proof (Z.mod_pos_bound p 64). lia. }
  split; [done|]. split; [apply positions_sorted; lia|]. split; [by apply length_positions|].
  split; [intros; by apply sb_test_positions|]. intros. by apply for_words_spec.
Qed.

Lemma sb_decode_exact_witness :
  Forall is_u64 [0; 6] ∧ sb_decode [0; 6] = Ok [65; 66] ∧ sb_count [0; 6] = 2.
Proof.
  assert (Forall is_u64 [0; 6]) as H by (repeat constructor; unfold is_u64; lia).
  split; [done|]. destruct (sb_decode_exact [0; 6] H) as (l & E & _ & Hl & _); [simpl; lia|].
  rewrite <- Hl, E. vm_compute in E. injection E as <-. by split.
Defined.

Lemma not64_zero w : is_u64 w → not64 w = 0 ↔ w = 0xFFFFFFFFFFFFFFFF.
Proof.
  intros Hw. unfold not64. split.
  - intros E. by apply Z.lxor_eq in E.
  - intros ->. reflexivity.
Qed.

Lemma free_bit w : is_u64 w → w ≠ 0xFFFFFFFFFFFFFFFF →
  0 <= ctzll (not64 w) < 64 ∧ Z.testbit w (ctzll (not64 w)) = false ∧
  ∀ i, 0 <= i < ctzll (not64 w) → Z.testbit w i = true.
Proof.
  intros Hw Hn. pose proof (not64_range w Hw) as Hr. rewrite <- not64_zero in Hn by done.
  assert (0 < not64 w < 2 ^ 64) as H by (unfold is_u64 in *; lia).
  pose proof (ctzll_range _ H). pose proof (ctzll_testbit (not64 w)) as Ht.
  rewrite not64_testbit in Ht by lia. split; [done|]. split.
  - apply negb_true_iff, Ht. lia.
  - intros i Hi. apply negb_false_iff. rewrite <- not64_testbit by lia.
    apply ctzll_below; lia.
Qed.

(** Bit [p] of an array of words (positions from 0). *)
Definition bit_at (ws : list Z) (p : Z) : option bool :=
  w ← ws !! Z.to_nat (p / 64); Some (Z.testbit w (p `mod` 64)).

Lemma sb_test_bit_at ws p : sb_test ws p = of_option UndefinedBehaviour (bit_at ws p).
Proof.
  unfold sb_test, bit_at, word_of, arr_get. rewrite Z.shiftr_div_pow2, bit_mask by lia.
  change (2 ^ 6) with 64. destruct (ws !! Z.to_nat (p / 64)); simpl; [|done].
  by rewrite land_pow2_test by (apply Z.mod_pos_bound; lia).
Qed.

Lemma bit_at_shift w ws p : 64 <= p → bit_at (w :: ws) p = bit_at ws (p - 64).
Proof.
  intros Hp. unfold bit_at.
  assert (p / 64 = (p - 64) / 64 + 1 ∧ p `mod` 64 = (p - 64) `mod` 64) as [-> ->].
  { replace p with ((p - 64) + 1 * 64) at 1 3 by lia.
    by rewrite Z.div_add, Z.mod_add by lia. }
  assert (0 <= (p - 64) / 64) by (apply Z.div_pos; lia).
  by replace (Z.to_nat ((p - 64) / 64 + 1)) with (S (Z.to_nat ((p - 64) / 64))) by lia.
Qed.

Lemma bit_at_head w ws p : 0 <= p < 64 → bit_at (w :: ws) p = Some (Z.testbit w p).
Proof. intros. unfold bit_at. by rewrite Z.div_small, Z.mod_small by lia. Qed.

Lemma getFreeSlot_from_spec ws : ∀ k, Forall is_u64 ws →
  match sb_getFreeSlot_from k ws with
  | Some p => 0 <= p - k * 64 ∧ bit_at ws (p - k * 64) = Some false ∧
              ∀ q, 0 <= q < p - k * 64 → bit_at ws q = Some true
  | None => ∀ q, 0 <= q → bit_at ws q = Some true ∨ bit_at ws q = None
  end.
Proof.
  induction ws as [|w ws IH]; intros k Hw; cbn [sb_getFreeSlot_from].
  { intros q Hq. by right. }
  apply Forall_cons in Hw as [Hw Hws]. destruct (Z.eqb_spec w 0xFFFFFFFFFFFFFFFF) as [->|Hn].
  - cbn [negb]. assert (∀ q, 0 <= q < 64 → bit_at (0xFFFFFFFFFFFFFFFF :: ws) q = Some true) as H64.
    { intros q Hq. rewrite bit_at_head by done. f_equal. change 0xFFFFFFFFFFFFFFFF with (Z.ones 64).
      by apply Z.ones_spec_low. }
    specialize (IH (k + 1) Hws). destruct (sb_getFreeSlot_from (k + 1) ws) as [p|].
    + destruct IH as (H0 & Hb & Hlow). replace (p - k * 64) with ((p - (k + 1) * 64) + 64) by lia.
      split; [lia|]. rewrite bit_at_shift by lia. rewrite Z.add_simpl_r. split; [done|].
      intros q Hq. destruct (decide (q < 64)); [apply H64; lia|].
      rewrite bit_at_shift by lia. apply Hlow. lia.
    + intros q Hq. destruct (decide (q < 64)); [left; apply H64; lia|].
      rewrite bit_at_shift by lia. apply IH. lia.
  - cbn [negb]. destruct (free_bit w Hw Hn) as (Hr & Hb & Hlow).
    rewrite Z.add_simpl_l. split; [lia|]. split; [rewrite bit_at_head by lia; by f_equal|].
    intros q Hq. rewrite bit_at_head by lia. f_equal. apply Hlow. lia.
Qed.

(** [getFreeSlot] of the array bitmaps returns the lowest clear position:
    its [test] is false and every lower position tests true; it returns
    [nullopt] only when every position inside the bitmap is set. *)
Theorem sb_getFreeSlot_lowest ws : Forall is_u64 ws →
  match sb_getFreeSlot ws with
  | Some p => 0 <= p ∧ sb_test ws p = Ok false ∧ ∀ q, 0 <= q < p → sb_test ws q = Ok true
  | None => ∀ q, 0 <= q < 64 * Z.of_nat (length ws) → sb_test ws q = Ok true
  end.
Proof.
  intros Hw. pose proof (getFreeSlot_from_spec ws 0 Hw) as H. unfold sb_getFreeSlot.
  destruct (sb_getFreeSlot_from 0 ws) as [p|].
  - rewrite Z.sub_0_r in H. destruct H as (H0 & Hb & Hlow). split; [done|].
    rewrite sb_test_bit_at, Hb. split; [done|]. intros q Hq. by rewrite sb_test_bit_at, Hlow.
  - intros q Hq. rewrite sb_test_bit_at. destruct (H q) as [->|E]; [lia|done|].
    unfold bit_at in E. destruct (lookup_lt_is_Some_2 ws (Z.to_nat (q / 64))) as [w Hlk].
    { assert (q / 64 < Z.of_nat (length ws)) by (apply Z.div_lt_upper_bound; lia). lia. }
    by rewrite Hlk in E.
Qed.

Lemma sb_getFreeSlot_lowest_witness :
  Forall is_u64 [0xFFFFFFFFFFFFFFFF; 3] ∧ sb_getFreeSlot [0xFFFFFFFFFFFFFFFF; 3] = Some 66 ∧
  sb_test [0xFFFFFFFFFFFFFFFF; 3] 66 = Ok false.
Proof.
  assert (Forall is_u64 [0xFFFFFFFFFFFFFFFF; 3]) as H by (repeat constructor; unfold is_u64; lia).
  split; [done|]. split; [reflexivity|].
  pose proof (sb_getFreeSlot_lowest _ H) as Hs. vm_compute sb_getFreeSlot in Hs. apply Hs.
Defined.

(** The range check of [AtomicBitmap::applyForAll] is strict: it throws for
    every range that ends at the last word, so the last word of the bitmap is
    never visited, while every shorter range visits exactly its words. *)
Theorem ab_applyForAll_range {S} (func : Z → S → S) start blocks b s :
  Forall is_u64 (bm_words b) →
  ab_applyForAll func start blocks b s =
    if decide (start + blocks < length (bm_words b))%nat
    then Ok (foldl (λ s i, func i s) s
               (positions (Z.of_nat start) (take blocks (drop start (bm_words b)))))
    else Throw EnsureFailed.
Proof.
  intros Hw. unfold ab_applyForAll, ensure. case_bool_decide; rewrite ?decide_True, ?decide_False by done; [|done].
  cbn [mbind result_bind]. apply for_words_spec. by apply Forall_take, Forall_drop.
Qed.

Lemma ab_applyForAll_range_witness :
  Forall is_u64 (bm_words (mkBitmap [1; 2] 128)) ∧
  ab_applyForAll (λ i l, i :: l) 0 2 (mkBitmap [1; 2] 128) [] = Throw EnsureFailed ∧
  ab_applyForAll (λ i l, i :: l) 0 1 (mkBitmap [1; 2] 128) [] = Ok [0].
Proof.
  assert (Forall is_u64 (bm_words (mkBitmap [1; 2] 128))) as H
    by (repeat constructor; unfold is_u64; lia).
  split; [done|]. split.
  - by rewrite (ab_applyForAll_range _ _ _ _ _ H).
  - by rewrite (ab_applyForAll_range _ _ _ _ _ H).
Defined.

(** ** The set of nodes a word stands for *)

Definition bset (w : Z) : gset Z := list_to_set (bits w).

Lemma elem_of_bset w i : 0 <= i < 64 → i ∈ bset w ↔ sb64_test w i = true.
Proof.
  intros Hi. unfold bset. rewrite elem_of_list_to_set, elem_of_bits, sb64_test_bit, Z.mod_small by lia. tauto.
Qed.
Lemma bset_range w i : i ∈ bset w → 0 <= i < 64.
Proof. unfold bset. rewrite elem_of_list_to_set, elem_of_bits. tauto. Qed.

Lemma bset_0 : bset 0 = ∅.
Proof. reflexivity. Qed.

Lemma bset_set w p : 0 <= p < 64 → bset (sb64_set w p) = {[p]} ∪ bset w.
Proof.
  intros Hp. apply set_eq. intros i. rewrite elem_of_union, elem_of_singleton. split.
  - intros Hi. pose proof (bset_range _ _ Hi). apply elem_of_bset in Hi; [|done].
    rewrite sb64_test_set in Hi. apply orb_true_iff in Hi as [Hi|Hi]; [left|right; by apply elem_of_bset].
    apply bool_decide_eq_true in Hi. by rewrite !Z.mod_small in Hi by lia.
  - intros [->|Hi].
    + apply elem_of_bset; [done|]. rewrite sb64_test_set. by rewrite bool_decide_eq_true_2.
    + pose proof (bset_range _ _ Hi). apply elem_of_bset; [done|]. rewrite sb64_test_set.
      apply orb_true_iff. right. by apply elem_of_bset.
Qed.

Lemma bset_reset w p : 0 <= p < 64 → bset (sb64_reset w p) = bset w ∖ {[p]}.
Proof.
  intros Hp. apply set_eq. intros i. rewrite elem_of_difference, elem_of_singleton. split.
  - intros Hi. pose proof (bset_range _ _ Hi). apply elem_of_bset in Hi; [|done].
    rewrite sb64_test_reset in Hi. apply andb_true_iff in Hi as [Hn Hi]. split; [by apply elem_of_bset|].
    intros ->. by rewrite bool_decide_eq_true_2 in Hn.
  - intros [Hi Hne]. pose proof (bset_range _ _ Hi). apply elem_of_bset; [done|]. rewrite sb64_test_reset.
    apply andb_true_iff. split; [|by apply elem_of_bset].
    rewrite bool_decide_eq_false_2; [done|]. rewrite !Z.mod_small by lia. congruence.
Qed.

Lemma bset_any w : is_u64 w → sb64_any w = bool_decide (bset w ≠ ∅).
Proof.
  intros Hw. unfold sb64_any. destruct (sb64_none w) eqn:E; simpl; symmetry.
  - apply bool_decide_eq_false. intros Hne. apply Hne. apply set_eq. intros i.
    split; [|set_solver]. intros Hi. pose proof (bset_range _ _ Hi). apply elem_of_bset in Hi; [|done].
    pose proof (proj1 (sb64_none_iff w Hw) E i). rewrite Hi in *. naive_solver.
  - apply bool_decide_eq_true. intros He. assert (sb64_none w = true); [|congruence].
    apply sb64_none_iff; [done|]. intros i Hi. destruct (sb64_test w i) eqn:Et; [|done].
    apply elem_of_bset in Et; [|done]. set_solver.
Qed.

Lemma bset_nonzero w : bset w ≠ ∅ → w ≠ 0.
Proof. intros H ->. by apply H. Qed.

Lemma elem_nonempty (X : gset Z) i : i ∈ X → X ≠ ∅.
Proof. set_solver. Qed.
