(* ===== verification/RingBuffer.v ===== *)
(** * storage/datastructures/RingBuffer.hpp and the containers of utils/BatchQueue.hpp

    Two ring buffers (one with a front index and a count, one with two free
    running 64-bit counters) and the bounded stack.  Both rings are proved to
    refine the same bounded FIFO interface, for the counters also across their
    wrap-around at [2^64]. *)

From S2P Require Import Prelude Defs.
Local Open Scope Z_scope.

(** Array access with a [Z] index. *)
Definition arr_getZ {A} (l : list A) (i : Z) : result A :=
  if decide (0 <= i) then arr_get l (Z.to_nat i) else Throw UndefinedBehaviour.
Definition arr_setZ {A} (l : list A) (i : Z) (x : A) : result (list A) :=
  if decide (0 <= i) then arr_set l (Z.to_nat i) x else Throw UndefinedBehaviour.

(** ** The interface: a bounded FIFO queue *)

Class BoundedFifo (A Q : Type) := {
  bf_inv : Q → Prop;
  bf_abs : Q → list A;
  bf_cap : Q → Z;
  bf_push : A → Q → result (bool * Q);
  bf_pop : Q → result (option A * Q);
  bf_push_ok : ∀ q a, bf_inv q → Z.of_nat (length (bf_abs q)) < bf_cap q →
    ∃ q', bf_push a q = Ok (true, q') ∧ bf_inv q' ∧ bf_cap q' = bf_cap q ∧
          bf_abs q' = bf_abs q ++ [a];
  bf_pop_ok : ∀ q a l, bf_inv q → bf_abs q = a :: l →
    ∃ q', bf_pop q = Ok (Some a, q') ∧ bf_inv q' ∧ bf_cap q' = bf_cap q ∧ bf_abs q' = l;
}.

(** *** Running a sequence of operations against the interface *)

Inductive fifo_op (A : Type) := FPush (a : A) | FPop.
Arguments FPush {A} _.
Arguments FPop {A}.

(** The abstract machine: a list of at most [cap] elements; [None] when a
    caller pushes to a full or pops from an empty queue. *)
Fixpoint fifo_spec {A} (cap : Z) (ops : list (fifo_op A)) (l : list A) : option (list A * list A) :=
  match ops with
  | [] => Some ([], l)
  | FPush a :: ops =>
      if Z.of_nat (length l) <? cap then fifo_spec cap ops (l ++ [a]) else None
  | FPop :: ops =>
      match l with
      | [] => None
      | a :: l' => '(out, l'') ← fifo_spec cap ops l'; Some (a :: out, l'')
      end
  end.

Section client.
Context {A Q : Type} `{BoundedFifo A Q}.

Fixpoint fifo_run (ops : list (fifo_op A)) (q : Q) : result (list A * Q) :=
  match ops with
  | [] => Ok ([], q)
  | FPush a :: ops => '(_, q') ← bf_push a q; fifo_run ops q'
  | FPop :: ops =>
      '(o, q') ← bf_pop q;
      '(out, q'') ← fifo_run ops q';
      Ok (match o with Some a => a :: out | None => out end, q'')
  end.

Lemma fifo_run_refines ops q out l :
  bf_inv q → fifo_spec (bf_cap q) ops (bf_abs q) = Some (out, l) →
  ∃ q', fifo_run ops q = Ok (out, q') ∧ bf_inv q' ∧ bf_abs q' = l.
Proof.
  revert q out. induction ops as [|[a|] ops IH]; intros q out Hi Hs; simpl in *.
  - simplify_eq. eauto.
  - case_match eqn:Hc; [|done]. apply Z.ltb_lt in Hc.
    destruct (bf_push_ok q a Hi Hc) as (q' & -> & Hi' & Hcap & Habs).
    cbn [mbind result_bind]. apply IH; [done|]. by rewrite Hcap, Habs.
  - destruct (bf_abs q) as [|a l0] eqn:Habs; [done|].
    destruct (fifo_spec _ ops l0) as [[out' l']|] eqn:Hs'; simplify_eq/=.
    destruct (bf_pop_ok q a l0 Hi Habs) as (q' & -> & Hi' & Hcap & Habs').
    cbn [mbind result_bind].
    destruct (IH q' out' Hi') as (q'' & -> & ? & ?); [by rewrite Hcap, Habs'|]. simpl. eauto.
Qed.

End client.

(** ** Windows of a circular array *)

Section window.
Context {T : Type} `{!Inhabited T}.

Definition window (data : list T) (start : Z) (n : nat) : list T :=
  (λ i, data !!! Z.to_nat ((start + Z.of_nat i) `mod` Z.of_nat (length data))) <$> seq 0 n.

Lemma length_window data start n : length (window data start n) = n.
Proof. unfold window. by rewrite length_fmap, length_seq. Qed.

Lemma window_mod data start n : window data (start `mod` Z.of_nat (length data)) n = window data start n.
Proof.
  unfold window. apply list_fmap_ext. intros i x _. f_equal. f_equal.
  destruct (decide (Z.of_nat (length data) = 0)) as [->|]; [by rewrite !Z.mod_0_r|].
  by rewrite Z.add_mod_idemp_l.
Qed.

Lemma window_uncons data start n :
  window data start (S n) =
    data !!! Z.to_nat (start `mod` Z.of_nat (length data)) :: window data (start + 1) n.
Proof.
  unfold window. simpl. rewrite Z.add_0_r. f_equal. rewrite <- fmap_S_seq, <- list_fmap_compose.
  apply list_fmap_ext. intros i x _. simpl.
  replace (start + Z.of_nat (S x)) with (start + 1 + Z.of_nat x) by lia. done.
Qed.

Lemma window_snoc data start n x :
  (n < length data)%nat →
  window (<[Z.to_nat ((start + Z.of_nat n) `mod` Z.of_nat (length data)) := x]> data) start (S n) =
    window data start n ++ [x].
Proof.
  intros Hn. unfold window. rewrite seq_S, fmap_app, length_insert. simpl.
  set (m := Z.of_nat (length data)) in *. f_equal.
  - apply list_fmap_ext. intros i j Hj%lookup_seq.
    pose proof (Z.mod_pos_bound (start + Z.of_nat n) m).
    pose proof (Z.mod_pos_bound (start + Z.of_nat j) m).
    apply list_lookup_total_insert_ne. intros E. apply Z2Nat.inj in E; [|lia..].
    assert ((Z.of_nat n - Z.of_nat j) `mod` m = 0) as Hz.
    { replace (Z.of_nat n - Z.of_nat j) with ((start + Z.of_nat n) - (start + Z.of_nat j)) by lia.
      by rewrite Zminus_mod, E, Z.sub_diag. }
    rewrite Z.mod_small in Hz by lia. lia.
  - f_equal. apply list_lookup_total_insert_eq.
    pose proof (Z.mod_pos_bound (start + Z.of_nat n) m). lia.
Qed.

End window.

(** ** storage::RingBuffer<T> *)

Section ring.
Context {T : Type} `{!Inhabited T}.

Record ring := mkRing { rb_size : Z; rb_data : list T; rb_front : Z; rb_count : Z }.

Definition rb_new (sz : Z) : result ring :=
  let size := if powerOfTwo sz then sz else nextPowerTwo sz in
  if sz =? 0 then Throw InvalidArgument
  else Ok (mkRing size (replicate (Z.to_nat size) inhabitant) 0 0).

Definition rb_empty (r : ring) : bool := rb_count r =? 0.
Definition rb_full (r : ring) : bool := rb_count r =? rb_size r.
Definition rb_getSize (r : ring) : Z := rb_count r.
Definition rb_getCurrentIndex (r : ring) : Z :=
  Z.land (rb_front r +₆₄ rb_count r) (rb_size r -₆₄ 1).
Definition rb_clear (r : ring) : ring := mkRing (rb_size r) (rb_data r) 0 0.

(** [add] does not test for a full buffer; [end] is an [int]. *)
Definition rb_add (t : T) (r : ring) : result (bool * ring) :=
  let end_ := s32 (Z.land (rb_front r +₆₄ rb_count r) (rb_size r -₆₄ 1)) in
  data ← arr_setZ (rb_data r) end_ t;
  Ok (true, mkRing (rb_size r) data (rb_front r) (rb_count r +₆₄ 1)).

Definition rb_peek (r : ring) : result T := arr_getZ (rb_data r) (rb_front r).

(** [remove] advances [front] before its [ensure(count > 0)], so the object is
    changed also when the exception is thrown. *)
Definition rb_remove (r : ring) : result T * ring :=
  let front := Z.land (rb_front r +₆₄ 1) (rb_size r -₆₄ 1) in
  match arr_getZ (rb_data r) (rb_front r) with
  | Throw e => (Throw e, r)
  | Ok t =>
      match ensure (0 <? rb_count r) with
      | Throw e => (Throw e, mkRing (rb_size r) (rb_data r) front (rb_count r))
      | Ok _ => (Ok t, mkRing (rb_size r) (rb_data r) front (rb_count r -₆₄ 1))
      end
  end.

Definition rb_inv (r : ring) : Prop :=
  (∃ k, 0 <= k <= 31 ∧ rb_size r = 2 ^ k) ∧ Z.of_nat (length (rb_data r)) = rb_size r ∧
  0 <= rb_front r < rb_size r ∧ 0 <= rb_count r <= rb_size r.

Definition rb_abs (r : ring) : list T := window (rb_data r) (rb_front r) (Z.to_nat (rb_count r)).

End ring.
Arguments ring : clear implicits.

(** ** utils::RingBuffer<T, N> *)

Section uring.
Context {T : Type} `{!Inhabited T}.
(** The template parameter, a power of two by its [static_assert]. *)
Variable N : Z.

Record uring := mkURing { ur_read : Z; ur_write : Z; ur_buffer : list T }.

Definition ur_mask (val : Z) : Z := Z.land val (N -₆₄ 1).
Definition ur_get_size (r : uring) : Z := ur_write r -₆₄ ur_read r.
Definition ur_empty (r : uring) : bool := ur_read r =? ur_write r.
Definition ur_full (r : uring) : bool := ur_get_size r =? N.
Definition ur_reset (r : uring) : uring := mkURing 0 0 (ur_buffer r).
Definition ur_new : uring := mkURing 0 0 (replicate (Z.to_nat N) inhabitant).

Definition ur_try_push (e : T) (r : uring) : result (bool * uring) :=
  if ur_full r then Ok (false, r)
  else
    b ← arr_setZ (ur_buffer r) (ur_mask (ur_write r)) e;
    Ok (true, mkURing (ur_read r) (ur_write r +₆₄ 1) b).

Definition ur_try_pop (r : uring) : result (option T * uring) :=
  if ur_empty r then Ok (None, r)
  else
    e ← arr_getZ (ur_buffer r) (ur_mask (ur_read r));
    Ok (Some e, mkURing (ur_read r +₆₄ 1) (ur_write r) (ur_buffer r)).

Definition ur_inv (r : uring) : Prop :=
  (∃ k, 0 <= k < 64 ∧ N = 2 ^ k) ∧ is_u64 (ur_read r) ∧ is_u64 (ur_write r) ∧
  Z.of_nat (length (ur_buffer r)) = N ∧ ur_get_size r <= N.

Definition ur_abs (r : uring) : list T :=
  window (ur_buffer r) (ur_read r) (Z.to_nat (ur_get_size r)).

End uring.
Arguments uring : clear implicits.

(** ** utils::Stack<T, N> *)

Section stack.
Context {T : Type} `{!Inhabited T}.
Variable N : Z.

Record stack := mkStack { st_size : Z; st_buffer : list T }.

Definition st_new : stack := mkStack 0 (replicate (Z.to_nat N) inhabitant).
Definition st_empty (s : stack) : bool := st_size s =? 0.
Definition st_full (s : stack) : bool := st_size s =? N.
Definition st_get_size (s : stack) : Z := st_size s.
Definition st_reset (s : stack) : stack := mkStack 0 (st_buffer s).

Definition st_try_push (e : T) (s : stack) : result (bool * stack) :=
  if st_full s then Ok (false, s)
  else
    b ← arr_setZ (st_buffer s) (st_size s) e;
    Ok (true, mkStack (st_size s +₆₄ 1) b).

Definition st_try_pop (s : stack) : result (option T * stack) :=
  if st_empty s then Ok (None, s)
  else
    let size := st_size s -₆₄ 1 in
    e ← arr_getZ (st_buffer s) size;
    Ok (Some e, mkStack size (st_buffer s)).

Definition st_inv (s : stack) : Prop :=
  0 <= st_size s <= N ∧ N < 2 ^ 64 ∧ Z.of_nat (length (st_buffer s)) = N.

(** The elements, most recently pushed first. *)
Definition st_abs (s : stack) : list T := reverse (take (Z.to_nat (st_size s)) (st_buffer s)).

End stack.
Arguments stack : clear implicits.


(** ** Proofs *)

Lemma arr_getZ_lookup {A} `{!Inhabited A} (l : list A) i :
  0 <= i < Z.of_nat (length l) → arr_getZ l i = Ok (l !!! Z.to_nat i).
Proof.
  intros Hi. unfold arr_getZ. rewrite decide_True by lia. apply arr_get_lookup.
  apply list_lookup_lookup_total_lt. lia.
Qed.

Lemma arr_setZ_lt {A} (l : list A) i x :
  0 <= i < Z.of_nat (length l) → arr_setZ l i x = Ok (<[Z.to_nat i := x]> l).
Proof. intros Hi. unfold arr_setZ. rewrite decide_True by lia. apply arr_set_lt. lia. Qed.

(** Masking with [size - 1] is the remainder by a power of two. *)
Lemma mask_mod x k : 0 <= k < 64 → Z.land x (2 ^ k -₆₄ 1) = x `mod` 2 ^ k.
Proof.
  intros Hk. rewrite u64_small; [by apply land_ones_mod; lia|].
  pose proof (Z.pow_pos_nonneg 2 k). pose proof (Z.pow_lt_mono_r 2 k 64). lia.
Qed.

Lemma u64_mod_pow2 x k : 0 <= k < 64 → u64 x `mod` 2 ^ k = x `mod` 2 ^ k.
Proof.
  intros Hk. unfold u64.
  apply Z.mod_mod_divide. exists (2 ^ (64 - k)). rewrite <- Z.pow_add_r by lia. f_equal. lia.
Qed.

Lemma s32_small x : 0 <= x < 2 ^ 31 → s32 x = x.
Proof. intros. unfold s32, u32. rewrite Z.mod_small by lia. by rewrite decide_True by lia. Qed.

Section ring_proofs.
Context {T : Type} `{!Inhabited T}.
Implicit Types (r : ring T) (t : T).

Lemma rb_push_ok r t : rb_inv r → rb_count r < rb_size r →
  ∃ r', rb_add t r = Ok (true, r') ∧ rb_inv r' ∧ rb_size r' = rb_size r ∧ rb_abs r' = rb_abs r ++ [t].
Proof.
  destruct r as [size data front count]. unfold rb_inv, rb_add, rb_abs. cbn -[Z.pow].
  intros ((k & Hk & ->) & Hlen & Hf & Hc) Hlt.
  pose proof (Z.pow_le_mono_r 2 k 31 ltac:(lia) ltac:(lia)) as Hb.
  rewrite (u64_small (front + count)) by lia. rewrite mask_mod by lia.
  pose proof (Z.mod_pos_bound (front + count) (2 ^ k) ltac:(lia)).
  rewrite s32_small by lia. rewrite arr_setZ_lt by lia. cbn [mbind result_bind].
  rewrite (u64_small (count + 1)) by lia. eexists. split; [done|]. cbn -[Z.pow].
  rewrite length_insert. split; [split_and!; eauto; lia|]. split; [done|].
  replace (Z.to_nat (count + 1)) with (S (Z.to_nat count)) by lia.
  rewrite <- Hlen. rewrite <- (Z2Nat.id count) at 1 by lia. apply window_snoc. lia.
Qed.

Lemma rb_pop_ok r t l : rb_inv r → rb_abs r = t :: l →
  ∃ r', rb_remove r = (Ok t, r') ∧ rb_inv r' ∧ rb_size r' = rb_size r ∧ rb_abs r' = l.
Proof.
  destruct r as [size data front count]. unfold rb_inv, rb_remove, rb_abs. cbn -[Z.pow].
  intros ((k & Hk & ->) & Hlen & Hf & Hc) Habs.
  pose proof (Z.pow_le_mono_r 2 k 31 ltac:(lia) ltac:(lia)) as Hb.
  destruct (Z.to_nat count) as [|n] eqn:En; [done|]. rewrite window_uncons in Habs.
  rewrite Hlen, Z.mod_small in Habs by lia. injection Habs as <- <-.
  rewrite arr_getZ_lookup by lia. rewrite (proj2 (Z.ltb_lt 0 count)) by lia. simpl ensure.
  cbn match. eexists. split; [done|]. cbn -[Z.pow].
  rewrite (u64_small (front + 1)), mask_mod, (u64_small (count - 1)) by lia.
  pose proof (Z.mod_pos_bound (front + 1) (2 ^ k) ltac:(lia)).
  split; [split_and!; eauto; lia|]. split; [done|].
  replace (Z.to_nat (count - 1)) with n by lia. rewrite <- Hlen. apply window_mod.
Qed.

#[export] Instance ring_fifo : BoundedFifo T (ring T).
Proof.
  refine {| bf_inv := rb_inv; bf_abs := rb_abs; bf_cap := rb_size; bf_push := rb_add;
    bf_pop r := match rb_remove r with
                | (Ok t, r') => Ok (Some t, r') | (Throw e, _) => Throw e end |}.
  - intros r t Hi Hl. apply rb_push_ok; [done|]. unfold rb_abs in Hl. rewrite length_window in Hl.
    destruct Hi as (_ & _ & _ & Hc). lia.
  - intros r t l Hi Ha. destruct (rb_pop_ok r t l Hi Ha) as (r' & -> & ?). eauto.
Defined.

Lemma rb_new_inv sz : 0 < sz <= 2 ^ 31 →
  ∃ r : ring T, rb_new sz = Ok r ∧ rb_inv r ∧ rb_abs r = [] ∧ sz <= rb_size r.
Proof.
  intros Hsz. unfold rb_new. rewrite (proj2 (Z.eqb_neq sz 0)) by lia.
  assert (∃ k, 0 <= k <= 31 ∧ (if powerOfTwo sz then sz else nextPowerTwo sz) = 2 ^ k ∧ sz <= 2 ^ k)
    as (k & Hk & -> & Hle).
  { exists (Z.log2_up sz). pose proof (Z.log2_up_le_mono sz (2 ^ 31)) as Hm.
    rewrite Z.log2_up_pow2 in Hm by lia. pose proof (Z.log2_up_nonneg sz).
    split; [lia|]. split; [|apply Z.log2_up_le_pow2; lia].
    destruct (powerOfTwo sz) eqn:Hp.
    - apply powerOfTwo_inv in Hp; [|lia]. rewrite Hp at 2. pose proof (Z.log2_nonneg sz).
      by rewrite Z.log2_up_pow2 by lia.
    - apply nextPowerTwo_lem. lia. }
  eexists. split; [done|]. unfold rb_inv, rb_abs. cbn -[Z.pow]. rewrite length_replicate.
  pose proof (Z.pow_pos_nonneg 2 k). split_and!; eauto; lia.
Qed.

End ring_proofs.

(** ** The interface of the two containers of BatchQueue.hpp

    [Batch] is a template over its container; the laws hold for the ring as
    for the stack.  [k_abs] is the bag of stored elements. *)

Class Container (T C : Type) (N : Z) := {
  k_inv : C → Prop;
  k_abs : C → list T;
  k_new : C;
  k_try_push : T → C → result (bool * C);
  k_try_pop : C → result (option T * C);
  k_get_size : C → Z;
  k_full : C → bool;
  k_reset : C → C;
  k_new_ok : k_inv k_new ∧ k_abs k_new = [];
  k_reset_ok : ∀ c, k_inv c → k_inv (k_reset c) ∧ k_abs (k_reset c) = [];
  k_size_ok : ∀ c, k_inv c → k_get_size c = Z.of_nat (length (k_abs c)) ∧ k_get_size c <= N;
  k_full_ok : ∀ c, k_full c = (k_get_size c =? N);
  k_push_ok : ∀ c e, k_inv c → ∃ c',
    k_try_push e c = Ok (negb (k_full c), c') ∧ k_inv c' ∧
    k_abs c' ≡ₚ (if k_full c then [] else [e]) ++ k_abs c;
  k_pop_ok : ∀ c, k_inv c → ∃ o c',
    k_try_pop c = Ok (o, c') ∧ k_inv c' ∧ k_abs c ≡ₚ option_list o ++ k_abs c' ∧
    (o = None ↔ k_abs c = []);
}.

Section uring_proofs.
Context {T : Type} `{!Inhabited T}.

Lemma ur_size_length (r : uring T) : Z.of_nat (length (ur_abs r)) = ur_get_size r.
Proof.
  unfold ur_abs. rewrite length_window. pose proof (u64_range (ur_write r - ur_read r)).
  unfold ur_get_size. lia.
Qed.

Variable k : Z.
Hypothesis Hk : 0 <= k < 64.
Let N := 2 ^ k.
Implicit Types (r : uring T) (t : T).

Lemma N_bounds : 0 < N < 2 ^ 64.
Proof. unfold N. split; [apply Z.pow_pos_nonneg; lia|apply Z.pow_lt_mono_r; lia]. Qed.

(** The write position is the read position plus the size, modulo [N]. *)
Lemma ur_write_mod r : ur_write r `mod` N = (ur_read r + ur_get_size r) `mod` N.
Proof.
  unfold ur_get_size, N.
  rewrite <- (Z.add_mod_idemp_r _ (u64 _)), u64_mod_pow2, Z.add_mod_idemp_r by lia.
  f_equal. lia.
Qed.

Lemma ur_push_ok r t : ur_inv N r → ur_full N r = false →
  ∃ r', ur_try_push N t r = Ok (true, r') ∧ ur_inv N r' ∧ ur_abs r' = ur_abs r ++ [t].
Proof.
  pose proof N_bounds as HN. intros (_ & Hr & Hw & Hlen & Hs) Hf. unfold ur_try_push. rewrite Hf.
  unfold ur_full in Hf. apply Z.eqb_neq in Hf. unfold ur_mask, N. rewrite mask_mod by lia. fold N.
  pose proof (Z.mod_pos_bound (ur_write r) N ltac:(lia)).
  rewrite arr_setZ_lt by lia. cbn [mbind result_bind]. eexists. split; [done|].
  assert (ur_get_size (mkURing (ur_read r) (ur_write r +₆₄ 1)
     (<[Z.to_nat (ur_write r `mod` N):=t]> (ur_buffer r))) = ur_get_size r + 1) as Hs'.
  { unfold ur_get_size. cbn -[Z.pow]. pose proof (u64_range (ur_write r - ur_read r)) as Hg.
    fold (ur_get_size r) in Hg. unfold u64 at 1 2. rewrite Zminus_mod_idemp_l.
    replace (ur_write r + 1 - ur_read r) with ((ur_write r - ur_read r) + 1) by lia.
    rewrite <- Z.add_mod_idemp_l by lia. fold (u64 (ur_write r - ur_read r)). fold (ur_get_size r).
    apply u64_small. lia. }
  split.
  - split; [by exists k|]. cbn -[Z.pow]. rewrite length_insert. split; [done|].
    split; [apply u64_range|]. split; [done|]. rewrite Hs'. lia.
  - unfold ur_abs at 1. rewrite Hs'. cbn -[Z.pow]. rewrite ur_write_mod.
    pose proof (ur_size_length r) as Hsl.
    replace (Z.to_nat (ur_get_size r + 1)) with (S (Z.to_nat (ur_get_size r))) by lia.
    unfold ur_abs. rewrite <- window_snoc by lia. rewrite Hlen. by rewrite Z2Nat.id by lia.
Qed.

Lemma ur_pop_ok r t l : ur_inv N r → ur_abs r = t :: l →
  ∃ r', ur_try_pop N r = Ok (Some t, r') ∧ ur_inv N r' ∧ ur_abs r' = l.
Proof.
  pose proof N_bounds as HN. intros (_ & Hr & Hw & Hlen & Hs) Ha.
  pose proof (ur_size_length r) as Hsl. rewrite Ha in Hsl. simpl in Hsl.
  pose proof (u64_range (ur_write r - ur_read r)) as Hg. fold (ur_get_size r) in Hg.
  assert (ur_empty r = false) as He.
  { apply Z.eqb_neq. intros E. unfold ur_get_size in Hsl. rewrite E, Z.sub_diag in Hsl. done. }
  unfold ur_try_pop. rewrite He. unfold ur_mask, N. rewrite mask_mod by lia. fold N.
  pose proof (Z.mod_pos_bound (ur_read r) N ltac:(lia)).
  rewrite arr_getZ_lookup by lia. cbn [mbind result_bind].
  unfold ur_abs in Ha. replace (Z.to_nat (ur_get_size r)) with (S (length l)) in Ha by lia.
  rewrite window_uncons, Hlen in Ha. injection Ha as Ht Hl. subst t. eexists. split; [done|].
  assert (ur_get_size (mkURing (ur_read r +₆₄ 1) (ur_write r) (ur_buffer r)) = ur_get_size r - 1) as Hs'.
  { unfold ur_get_size. cbn -[Z.pow]. unfold u64 at 1 2. rewrite Zminus_mod_idemp_r.
    replace (ur_write r - (ur_read r + 1)) with ((ur_write r - ur_read r) - 1) by lia.
    rewrite <- Zminus_mod_idemp_l. fold (u64 (ur_write r - ur_read r)). fold (ur_get_size r).
    apply u64_small. lia. }
  split.
  - split; [by exists k|]. cbn -[Z.pow]. split; [apply u64_range|]. split; [done|]. split; [done|].
    rewrite Hs'. lia.
  - unfold ur_abs. rewrite Hs'. cbn -[Z.pow]. replace (Z.to_nat (ur_get_size r - 1)) with (length l) by lia.
    etrans; [|exact Hl]. rewrite <- window_mod, <- (window_mod _ (ur_read r + 1)), Hlen.
    unfold N. by rewrite u64_mod_pow2 by lia.
Qed.

End uring_proofs.

(** *** The stack *)

Section stack_proofs.
Context {T : Type} `{!Inhabited T}.
Variable N : Z.
Hypothesis HN : 0 <= N < 2 ^ 64.
Implicit Types (s : stack T) (t : T).

Lemma st_size_length s : st_inv N s → Z.of_nat (length (st_abs s)) = st_size s.
Proof.
  intros (Hs & _ & Hl). unfold st_abs. rewrite length_reverse, length_take. lia.
Qed.

Lemma st_push_ok s t : st_inv N s → st_full N s = false →
  ∃ s', st_try_push N t s = Ok (true, s') ∧ st_inv N s' ∧ st_abs s' = t :: st_abs s.
Proof.
  intros (Hs & Hb & Hl) Hf. unfold st_try_push. rewrite Hf. apply Z.eqb_neq in Hf.
  rewrite arr_setZ_lt by lia. cbn [mbind result_bind]. rewrite u64_small by lia.
  eexists. split; [done|]. unfold st_inv, st_abs. cbn -[Z.pow]. rewrite length_insert.
  split; [split_and!; lia|].
  replace (Z.to_nat (st_size s + 1)) with (S (Z.to_nat (st_size s))) by lia.
  erewrite take_S_r by (apply list_lookup_insert_eq; lia).
  by rewrite reverse_app, take_insert_ge by lia.
Qed.

Lemma st_pop_ok s t l : st_inv N s → st_abs s = t :: l →
  ∃ s', st_try_pop s = Ok (Some t, s') ∧ st_inv N s' ∧ st_abs s' = l.
Proof.
  intros Hi Ha. pose proof (st_size_length s Hi) as Hsl. destruct Hi as (Hs & Hb & Hl).
  rewrite Ha in Hsl. simpl in Hsl. unfold st_try_pop, st_empty.
  rewrite (proj2 (Z.eqb_neq (st_size s) 0)) by lia. rewrite u64_small by lia.
  rewrite arr_getZ_lookup by lia. cbn [mbind result_bind].
  unfold st_abs in Ha. replace (Z.to_nat (st_size s)) with (S (Z.to_nat (st_size s - 1))) in Ha by lia.
  erewrite take_S_r in Ha by (apply list_lookup_lookup_total_lt; lia).
  rewrite reverse_app in Ha. simpl in Ha. injection Ha as Ht Hl'. subst t.
  eexists. split; [done|]. split; [unfold st_inv; simpl; split_and!; lia|done].
Qed.

End stack_proofs.

(** *** Both are containers *)

Section container_instances.
Context {T : Type} `{!Inhabited T}.

#[export] Instance stack_container N (HN : 0 <= N < 2 ^ 64) : Container T (stack T) N.
Proof.
  refine {| k_inv := st_inv N; k_abs := st_abs; k_new := st_new N; k_try_push := st_try_push N;
    k_try_pop := st_try_pop; k_get_size := st_get_size; k_full := st_full N; k_reset := st_reset |}.
  - unfold st_inv, st_new, st_abs. cbn -[Z.pow]. rewrite length_replicate. split; [lia|done].
  - intros c (Hs & Hb & Hl). unfold st_inv, st_abs. cbn -[Z.pow]. split; [lia|done].
  - intros c Hi. rewrite (st_size_length N) by done. destruct Hi. unfold st_get_size. lia.
  - done.
  - intros c e Hi. destruct (st_full N c) eqn:Hf.
    + exists c. unfold st_try_push. by rewrite Hf.
    + destruct (st_push_ok N HN c e Hi Hf) as (c' & -> & ? & Ha).
      exists c'. by rewrite Ha.
  - intros c Hi. destruct (st_abs c) as [|t l] eqn:Ha.
    + exists None, c. unfold st_try_pop, st_empty. pose proof (st_size_length N c Hi) as Hsl.
      rewrite Ha in Hsl. simpl in Hsl. rewrite <- Hsl, Ha. done.
    + destruct (st_pop_ok N HN c t l Hi Ha) as (c' & -> & ? & Ha').
      exists (Some t), c'. by rewrite Ha'.
Defined.

#[export] Instance uring_container k (Hk : 0 <= k < 64) : Container T (uring T) (2 ^ k).
Proof.
  pose proof (N_bounds k Hk) as HN.
  refine {| k_inv := ur_inv (2 ^ k); k_abs := ur_abs; k_new := ur_new (2 ^ k);
    k_try_push := ur_try_push (2 ^ k); k_try_pop := ur_try_pop (2 ^ k);
    k_get_size := ur_get_size; k_full := ur_full (2 ^ k); k_reset := ur_reset |}.
  - unfold ur_inv, ur_new, ur_abs. cbn -[Z.pow]. rewrite length_replicate.
    split; [|done]. split; [by exists k|]. unfold is_u64. split_and!; try lia.
    change (ur_get_size _) with 0. lia.
  - intros c (? & Hr & Hw & Hl & Hs). unfold ur_inv, ur_abs. cbn -[Z.pow]. split; [|done].
    split; [by exists k|]. change (ur_get_size _) with 0. unfold is_u64. lia.
  - intros c Hi. rewrite ur_size_length. split; [done|apply Hi].
  - done.
  - intros c e Hi. destruct (ur_full (2 ^ k) c) eqn:Hf.
    + exists c. unfold ur_try_push. by rewrite Hf.
    + destruct (ur_push_ok k Hk c e Hi Hf) as (c' & -> & ? & Ha).
      exists c'. split_and!; [done..|]. by rewrite Ha, Permutation_app_comm.
  - intros c Hi. destruct (ur_abs c) as [|t l] eqn:Ha.
    + exists None, c. pose proof (ur_size_length c) as Hsl. rewrite Ha in Hsl. simpl in Hsl.
      assert (ur_empty c = true) as He.
      { apply Z.eqb_eq. destruct Hi as (_ & Hr & Hw & _). unfold ur_get_size, u64 in Hsl.
        unfold is_u64 in *. symmetry in Hsl. apply Z.mod_divide in Hsl as [q Hq]; [|lia]. nia. }
      unfold ur_try_pop. rewrite He, Ha. done.
    + destruct (ur_pop_ok k Hk c t l Hi Ha) as (c' & -> & ? & Ha').
      exists (Some t), c'. by rewrite Ha'.
Defined.

End container_instances.

(** ** Specification of the containers as bounded sequences *)

Inductive cont_op (T : Type) := CPush (e : T) | CPop | CReset.
Inductive cont_res (T : Type) := RBool (b : bool) | ROpt (o : option T) | RUnit.
Arguments CPush {T} _. Arguments CPop {T}. Arguments CReset {T}.
Arguments RBool {T} _. Arguments ROpt {T} _. Arguments RUnit {T}.

(** [put] says at which end a pushed element enters; pops take the head. *)
Definition cont_spec {T} (put : list T → T → list T) (N : Z) (op : cont_op T) (l : list T) :
    cont_res T * list T :=
  match op with
  | CPush e => if Z.of_nat (length l) =? N then (RBool false, l) else (RBool true, put l e)
  | CPop => match l with [] => (ROpt None, []) | e :: l' => (ROpt (Some e), l') end
  | CReset => (RUnit, [])
  end.
Definition fifo_put {T} (l : list T) (e : T) : list T := l ++ [e].
Definition lifo_put {T} (l : list T) (e : T) : list T := e :: l.

Section container_run.
Context {T C : Type} (N : Z) `{!Container T C N}.

Definition cont_step (op : cont_op T) (c : C) : result (cont_res T * C) :=
  match op with
  | CPush e => '(b, c') ← k_try_push e c; Ok (RBool b, c')
  | CPop => '(o, c') ← k_try_pop c; Ok (ROpt o, c')
  | CReset => Ok (RUnit, k_reset c)
  end.

Fixpoint cont_run (ops : list (cont_op T)) (c : C) : result (list (cont_res T) * C) :=
  match ops with
  | [] => Ok ([], c)
  | op :: ops =>
      '(r, c') ← cont_step op c;
      '(rs, c'') ← cont_run ops c';
      Ok (r :: rs, c'')
  end.

Fixpoint cont_spec_run (put : list T → T → list T) (ops : list (cont_op T)) (l : list T) :
    list (cont_res T) * list T :=
  match ops with
  | [] => ([], l)
  | op :: ops =>
      let '(r, l') := cont_spec put N op l in
      let '(rs, l'') := cont_spec_run put ops l' in (r :: rs, l'')
  end.

(** A container whose non-trivial pushes and pops follow [put] refines the
    bounded sequence for every sequence of operations. *)
Lemma cont_run_refines put :
  (∀ c e, k_inv c → k_full c = false →
     ∃ c', k_try_push e c = Ok (true, c') ∧ k_inv c' ∧ k_abs c' = put (k_abs c) e) →
  (∀ c e, k_inv c → k_full c = true → k_try_push e c = Ok (false, c)) →
  (∀ c t l, k_inv c → k_abs c = t :: l →
     ∃ c', k_try_pop c = Ok (Some t, c') ∧ k_inv c' ∧ k_abs c' = l) →
  ∀ ops c, k_inv c → ∃ c',
    cont_run ops c = Ok ((cont_spec_run put ops (k_abs c)).1, c') ∧ k_inv c' ∧
    k_abs c' = (cont_spec_run put ops (k_abs c)).2.
Proof.
  intros Hpush Hfull Hpop ops. induction ops as [|op ops IH]; intros c Hi; [by exists c|].
  assert (∃ c', cont_step op c = Ok ((cont_spec put N op (k_abs c)).1, c') ∧ k_inv c' ∧
                k_abs c' = (cont_spec put N op (k_abs c)).2) as (c' & Hs & Hi' & Ha).
  { destruct op as [e| |]; simpl.
    - destruct (k_size_ok c Hi) as [<- _]. rewrite <- k_full_ok. destruct (k_full c) eqn:Hf.
      + rewrite Hfull by done. simpl. eauto.
      + destruct (Hpush c e Hi Hf) as (c' & -> & ? & ?). simpl. eauto.
    - destruct (k_abs c) as [|t l] eqn:Ha.
      + destruct (k_pop_ok c Hi) as (o & c' & -> & ? & HP & Hn). rewrite Ha in HP.
        apply Permutation_nil_l in HP. destruct o; [done|]. simpl. eauto.
      + destruct (Hpop c t l Hi Ha) as (c' & -> & ? & ?). simpl. eauto.
    - destruct (k_reset_ok c Hi). eauto. }
  destruct (IH c' Hi') as (c'' & Hr & Hi'' & Ha''). exists c''. simpl. rewrite Hs.
  cbn [mbind result_bind]. rewrite Hr. cbn [mbind result_bind].
  rewrite Ha in Ha'' |- *. destruct (cont_spec put N op (k_abs c)) as [r l]. simpl in *.
  destruct (cont_spec_run put ops l) as [rs l']. done.
Qed.

End container_run.

(** ** Claims *)

(** storage::RingBuffer is a bounded FIFO queue: a buffer constructed for
    [sz] elements has room for at least [sz], and every sequence of additions
    and removals that never adds to a full or removes from an empty buffer
    returns the elements in the order in which they were added. *)
Theorem ring_run_fifo {T} `{!Inhabited T} (sz : Z) : 0 < sz <= 2 ^ 31 →
  ∃ r : ring T, rb_new sz = Ok r ∧ sz <= rb_size r ∧
    ∀ ops out l, fifo_spec (rb_size r) ops [] = Some (out, l) →
      ∃ r', fifo_run ops r = Ok (out, r') ∧ rb_abs r' = l.
Proof.
  intros Hsz. destruct (rb_new_inv (T:=T) sz Hsz) as (r & Hr & Hi & Ha & Hle).
  exists r. split; [done|]. split; [done|]. intros ops out l Hs. rewrite <- Ha in Hs.
  destruct (fifo_run_refines (H := ring_fifo) ops r out l Hi Hs) as (r' & ? & _ & ?). eauto.
Qed.

Lemma ring_run_fifo_witness :
  (0 < 3 <= 2 ^ 31) ∧ ∃ r : ring nat, rb_new 3 = Ok r ∧ 3 <= rb_size r ∧
    ∀ ops out l, fifo_spec (rb_size r) ops [] = Some (out, l) →
      ∃ r', fifo_run ops r = Ok (out, r') ∧ rb_abs r' = l.
Proof. split; [lia|]. apply (ring_run_fifo (T:=nat) 3). lia. Defined.

(** storage::RingBuffer::add has no test for a full buffer: on a full one it
    still returns true, the count exceeds the capacity, and the oldest element
    is overwritten by the newest, which the next [peek] returns. *)
Theorem rb_add_full_overwrites {T} `{!Inhabited T} (r : ring T) (t : T) :
  rb_inv r → rb_full r = true →
  ∃ r', rb_add t r = Ok (true, r') ∧ rb_count r' = rb_size r' + 1 ∧ rb_peek r' = Ok t.
Proof.
  destruct r as [size data front count]. unfold rb_inv, rb_full, rb_add, rb_peek. cbn -[Z.pow].
  intros ((k & Hk & ->) & Hlen & Hf & Hc) ->%Z.eqb_eq.
  pose proof (Z.pow_le_mono_r 2 k 31 ltac:(lia) ltac:(lia)) as Hb.
  rewrite (u64_small (front + 2 ^ k)), mask_mod by lia.
  replace (front + 2 ^ k) with (front + 1 * 2 ^ k) by lia.
  rewrite Z.mod_add, Z.mod_small, s32_small by lia.
  rewrite arr_setZ_lt by lia. cbn [mbind result_bind]. rewrite u64_small by lia.
  eexists. split; [done|]. cbn -[Z.pow]. split; [done|].
  rewrite arr_getZ_lookup by (rewrite length_insert; lia).
  by rewrite list_lookup_total_insert_eq by lia.
Qed.

Lemma rb_add_full_overwrites_witness :
  ∃ r', rb_add 9%nat (mkRing 2 [7; 8]%nat 1 2) = Ok (true, r') ∧ rb_count r' = rb_size r' + 1 ∧
    rb_peek r' = Ok 9%nat.
Proof.
  apply (rb_add_full_overwrites (mkRing 2 [7; 8]%nat 1 2) 9%nat).
  - unfold rb_inv. simpl. split; [exists 1; lia|lia].
  - reflexivity.
Defined.

(** The batch ring of capacity [N = 2^k] (free running 64-bit read and write
    counters) refines the bounded FIFO sequence for every sequence of pushes,
    pops and resets from every well-formed state, also when the counters wrap
    around at [2^64]: a push fails exactly when [N] elements are stored, a pop
    returns the oldest element and fails exactly on an empty ring, and no
    access leaves the array. *)
Theorem uring_refines_fifo {T} `{!Inhabited T} (k : Z) (Hk : 0 <= k < 64) (ops : list (cont_op T)) (r : uring T) :
  ur_inv (2 ^ k) r →
  let spec := cont_spec_run (2 ^ k) fifo_put ops (ur_abs r) in
  ∃ r', cont_run (2 ^ k) (Container0 := uring_container k Hk) ops r = Ok (spec.1, r') ∧
    ur_inv (2 ^ k) r' ∧ ur_abs r' = spec.2.
Proof.
  intros Hi. apply (cont_run_refines (2 ^ k) (Container0 := uring_container k Hk)); simpl; [..|done].
  - intros c e. apply ur_push_ok, Hk.
  - intros c e _ Hf. unfold ur_try_push. by rewrite Hf.
  - intros c t l. apply ur_pop_ok, Hk.
Qed.

Lemma uring_refines_fifo_witness :
  let r := mkURing (2 ^ 64 - 1) 0 [10; 11]%nat in
  let ops := [CPush 5; CPush 6; CPop; CPop; CPop]%nat in
  ∃ r', cont_run (2 ^ 1) (Container0 := uring_container 1 ltac:(lia)) ops r =
          Ok ([RBool true; RBool false; ROpt (Some 11); ROpt (Some 5); ROpt None]%nat, r') ∧
    ur_inv (2 ^ 1) r' ∧ ur_abs r' = [].
Proof.
  intros r ops. apply (uring_refines_fifo (T:=nat) 1 ltac:(lia) ops r).
  split; [by exists 1|]. unfold is_u64. vm_compute. intuition congruence.
Defined.

(** The batch stack of capacity [N] refines the bounded LIFO sequence for
    every sequence of pushes, pops and resets: a push fails exactly when [N]
    elements are stored, a pop returns the youngest element and fails exactly
    on an empty stack, and no access leaves the array. *)
Theorem stack_refines_lifo {T} `{!Inhabited T} (N : Z) (HN : 0 <= N < 2 ^ 64) (ops : list (cont_op T)) (s : stack T) :
  st_inv N s →
  let spec := cont_spec_run N lifo_put ops (st_abs s) in
  ∃ s', cont_run N (Container0 := stack_container N HN) ops s = Ok (spec.1, s') ∧
    st_inv N s' ∧ st_abs s' = spec.2.
Proof.
  intros Hi. apply (cont_run_refines N (Container0 := stack_container N HN)); simpl; [..|done].
  - intros c e. by apply st_push_ok.
  - intros c e _ Hf. unfold st_try_push. by rewrite Hf.
  - intros c t l. by apply st_pop_ok.
Qed.

Lemma stack_refines_lifo_witness :
  let s := mkStack 1 [10; 11]%nat in
  let ops := [CPush 5; CPush 6; CPop; CPop; CPop]%nat in
  ∃ s', cont_run 2 (Container0 := stack_container 2 ltac:(lia)) ops s =
          Ok ([RBool true; RBool false; ROpt (Some 5); ROpt (Some 10); ROpt None]%nat, s') ∧
    st_inv 2 s' ∧ st_abs s' = [].
Proof.
  intros s ops. apply (stack_refines_lifo (T:=nat) 2 ltac:(lia) ops s).
  unfold st_inv. simpl. lia.
Defined.
