(* ===== verification/Latch.v ===== *)
(** * syncprimitives/HybridLatch.hpp

    The methods of [OptimisticLatch] and [HybridLatch] are programs over the
    atomic actions they perform (loads, stores, compare-exchange, and the calls
    of [std::shared_mutex]), translated line by line.  The same programs have
    two semantics: [run], the sequential execution the other components use,
    and [step], which interleaves the actions of any number of threads
    (sequentially consistent atomics).  A small rely-guarantee logic, [valid],
    gives each method a contract; the theorems at the end hold for every
    interleaving of every pool of threads that respects the contracts. *)

From S2P Require Import Prelude.
Local Open Scope Z_scope.

(** ** Programs *)

Section prog.
Context {A : Type}.

Inductive prog : Type :=
| Ret (a : A)
| Crash (e : exn)
| Load (k : Z → prog)
| Store (v : Z) (p : prog)
| Cas (expected desired : Z) (k : bool → Z → prog)
| FetchAdd (n : Z) (p : prog)
| Lock (p : prog)
| TryLock (k : bool → prog)
| Unlock (p : prog)
| LockShared (p : prog)
| TryLockShared (k : bool → prog)
| UnlockShared (p : prog)
| ReadData (addr : nat) (k : option Z → prog)
| WriteData (addr : nat) (x : Z) (p : prog).

End prog.
Arguments prog : clear implicits.

Fixpoint prog_bind {A B} (f : A → prog B) (m : prog A) : prog B :=
  match m with
  | Ret a => f a
  | Crash e => Crash e
  | Load k => Load (λ v, prog_bind f (k v))
  | Store v p => Store v (prog_bind f p)
  | Cas e d k => Cas e d (λ b v, prog_bind f (k b v))
  | FetchAdd n p => FetchAdd n (prog_bind f p)
  | Lock p => Lock (prog_bind f p)
  | TryLock k => TryLock (λ b, prog_bind f (k b))
  | Unlock p => Unlock (prog_bind f p)
  | LockShared p => LockShared (prog_bind f p)
  | TryLockShared k => TryLockShared (λ b, prog_bind f (k b))
  | UnlockShared p => UnlockShared (prog_bind f p)
  | ReadData a k => ReadData a (λ x, prog_bind f (k x))
  | WriteData a x p => WriteData a x (prog_bind f p)
  end.

#[export] Instance prog_MBind : MBind prog := λ A B f m, prog_bind f m.
#[export] Instance prog_MRet : MRet prog := λ A a, Ret a.

Definition pensure (b : bool) : prog unit := if b then Ret tt else Crash EnsureFailed.
Definition load : prog Z := Load Ret.
Definition store (v : Z) : prog unit := Store v (Ret tt).

(** Bit 1 of a version says that the latch is held exclusively. *)
Definition isLatched (version : Z) : bool := Z.land version 2 =? 2.
Definition initial_version : Z := 4.

(** ** OptimisticLatch *)

Module OptimisticLatch.

Definition ol_isLatched_now : prog bool := v ← load; Ret (isLatched v).

Definition ol_optimisticLatchOrRestart : prog (option Z) :=
  version ← load;
  if isLatched version then Ret None else Ret (Some version).

(** The reference parameter is returned: on success it is advanced, on failure
    it is what the compare-exchange left in it. *)
Definition upgradeToExclusiveLatch (version : Z) : prog (bool * Z) :=
  if isLatched version then Ret (false, version)
  else
    Cas version (version +₆₄ 2) (λ ok actual,
      if ok then Ret (true, version +₆₄ 2) else Ret (false, actual)).

Definition ol_tryLatchExclusive : prog bool :=
  version ← ol_optimisticLatchOrRestart;
  match version with
  | None => Ret false
  | Some v => '(ok, _) ← upgradeToExclusiveLatch v; Ret ok
  end.

Definition ol_unlatchExclusive : prog unit :=
  l ← ol_isLatched_now;
  _ ← pensure l;
  v ← load;
  store (v +₆₄ 2).

Definition downgradeToOptimisticLatch : prog Z :=
  v ← load;
  _ ← ol_unlatchExclusive;
  Ret (v +₆₄ 2).

Definition optimisticUnlatch (startRead : Z) : prog bool := v ← load; Ret (startRead =? v).
Definition checkOrRestart (startRead : Z) : prog bool := optimisticUnlatch startRead.
Definition writeUnlockObsolete : prog unit := FetchAdd 3 (Ret tt).

End OptimisticLatch.

(** ** HybridLatch *)

Module HybridLatch.

Definition getVersion : prog Z := load.
Definition isLatched_now : prog bool := v ← load; Ret (isLatched v).

Definition unlatchShared : prog unit := UnlockShared (Ret tt).

Definition latchShared : prog unit :=
  LockShared (l ← isLatched_now; pensure (negb l)).

Definition latchExclusive : prog unit :=
  Lock (
    v ← load;
    _ ← store (v +₆₄ 2);
    l ← isLatched_now;
    pensure l).

Definition unlatchExclusive : prog unit :=
  l ← isLatched_now;
  _ ← pensure l;
  v ← load;
  _ ← store (v +₆₄ 2);
  l' ← isLatched_now;
  _ ← pensure (negb l');
  Unlock (Ret tt).

Definition tryDowngradeExclusiveToShared : prog bool :=
  l ← isLatched_now;
  _ ← pensure l;
  v ← load;
  let v := v +₆₄ 2 in
  _ ← store v;
  l' ← isLatched_now;
  _ ← pensure (negb l');
  Unlock (
    _ ← latchShared;
    v' ← load;
    if negb (v =? v') then _ ← unlatchShared; Ret false else Ret true).

Definition tryLatchExclusive : prog bool :=
  TryLock (λ ok,
    if ok then v ← load; _ ← store (v +₆₄ 2); Ret true else Ret false).

Definition tryLatchShared : prog bool := TryLockShared Ret.

Definition downgradeExclusiveToOptimistic : prog Z :=
  v ← load;
  _ ← unlatchExclusive;
  Ret (v +₆₄ 2).

Definition downgradeSharedToOptimistic : prog Z :=
  v ← load;
  _ ← unlatchShared;
  Ret v.

Definition optimisticUpgradeToShared (startRead : Z) : prog bool :=
  v ← load;
  if isLatched v then Ret false
  else if negb (v =? startRead) then Ret false
  else
    ok ← tryLatchShared;
    if negb ok then Ret false
    else
      v' ← load;
      if v' =? startRead then Ret true
      else _ ← unlatchShared; Ret false.

Definition optimisticUpgradeToExclusive (startRead : Z) : prog bool :=
  v ← load;
  if negb (v =? startRead) then Ret false
  else
    success ← tryLatchExclusive;
    if negb success then Ret false
    else
      v' ← load;
      if negb (startRead +₆₄ 2 =? v') then
        l ← isLatched_now;
        _ ← pensure l;
        _ ← unlatchExclusive;
        Ret false
      else
        l ← isLatched_now;
        _ ← pensure l;
        Ret true.

Definition optimisticLatchOrRestart : prog (option Z) :=
  v ← load;
  if isLatched v then Ret None else Ret (Some v).

Definition optimisticReadUnlatchOrRestart (startRead : Z) : prog bool :=
  v ← load; Ret (startRead =? v).
Definition optimisticCheckOrRestart (version : Z) : prog bool :=
  optimisticReadUnlatchOrRestart version.

(** The overload with a callback, which runs when the validation fails. *)
Definition optimisticReadUnlatchOrRestart_cb (version : Z) (failureCallback : prog unit) : prog bool :=
  ok ← optimisticReadUnlatchOrRestart version;
  if negb ok then _ ← failureCallback; Ret false else Ret true.

End HybridLatch.

(** ** The shared state *)

(** [std::shared_mutex]: free, held by one writer or by a set of readers. *)
Inductive mutex := MFree | MWriter (t : nat) | MReaders (ts : list nat).

#[export] Instance mutex_eq_dec : EqDecision mutex.
Proof. solve_decision. Defined.

(** [sh_clock] is ghost state: the number of stores to the version so far. *)
Record shared := mkShared {
  sh_version : Z;
  sh_mutex : mutex;
  sh_data : gmap nat Z;
  sh_clock : nat;
}.

Definition sh_init (data : gmap nat Z) : shared := mkShared initial_version MFree data 0.

Definition set_version (v : Z) (s : shared) : shared :=
  mkShared v (sh_mutex s) (sh_data s) (S (sh_clock s)).
Definition set_mutex (m : mutex) (s : shared) : shared :=
  mkShared (sh_version s) m (sh_data s) (sh_clock s).
Definition set_data (a : nat) (x : Z) (s : shared) : shared :=
  mkShared (sh_version s) (sh_mutex s) (<[a := x]> (sh_data s)) (sh_clock s).

Definition rlock (t : nat) (m : mutex) : option mutex :=
  match m with
  | MFree => Some (MReaders [t])
  | MReaders ts => Some (MReaders (t :: ts))
  | MWriter _ => None
  end.
Fixpoint remove_one (t : nat) (ts : list nat) : list nat :=
  match ts with
  | [] => []
  | u :: ts => if decide (u = t) then ts else u :: remove_one t ts
  end.
Definition runlock (t : nat) (m : mutex) : option mutex :=
  match m with
  | MReaders ts =>
      if decide (t ∈ ts)
      then Some (match remove_one t ts with [] => MFree | ts' => MReaders ts' end)
      else None
  | _ => None
  end.

(** ** Sequential execution of one thread *)

Fixpoint run {A} (t : nat) (p : prog A) (s : shared) : result (A * shared) :=
  match p with
  | Ret a => Ok (a, s)
  | Crash e => Throw e
  | Load k => run t (k (sh_version s)) s
  | Store v p => run t p (set_version v s)
  | Cas e d k =>
      if sh_version s =? e then run t (k true e) (set_version d s)
      else run t (k false (sh_version s)) s
  | FetchAdd n p => run t p (set_version (sh_version s +₆₄ n) s)
  | Lock p =>
      match sh_mutex s with
      | MFree => run t p (set_mutex (MWriter t) s)
      | _ => Throw WouldBlock
      end
  | TryLock k =>
      match sh_mutex s with
      | MFree => run t (k true) (set_mutex (MWriter t) s)
      | _ => run t (k false) s
      end
  | Unlock p =>
      if decide (sh_mutex s = MWriter t) then run t p (set_mutex MFree s)
      else Throw UndefinedBehaviour
  | LockShared p =>
      match rlock t (sh_mutex s) with
      | Some m => run t p (set_mutex m s)
      | None => Throw WouldBlock
      end
  | TryLockShared k =>
      match rlock t (sh_mutex s) with
      | Some m => run t (k true) (set_mutex m s)
      | None => run t (k false) s
      end
  | UnlockShared p =>
      match runlock t (sh_mutex s) with
      | Some m => run t p (set_mutex m s)
      | None => Throw UndefinedBehaviour
      end
  | ReadData a k => run t (k (sh_data s !! a)) s
  | WriteData a x p => run t p (set_data a x s)
  end.

(** ** Interleaving semantics *)

(** One action of thread [t].  The try-operations of a shared mutex may fail
    spuriously. *)
Inductive astep {A} (t : nat) : prog A → shared → prog A → shared → Prop :=
| AS_load k s : astep t (Load k) s (k (sh_version s)) s
| AS_store v p s : astep t (Store v p) s p (set_version v s)
| AS_cas_ok e d k s : sh_version s = e → astep t (Cas e d k) s (k true e) (set_version d s)
| AS_cas_fail e d k s : sh_version s ≠ e → astep t (Cas e d k) s (k false (sh_version s)) s
| AS_fetch_add n p s : astep t (FetchAdd n p) s p (set_version (sh_version s +₆₄ n) s)
| AS_lock p s : sh_mutex s = MFree → astep t (Lock p) s p (set_mutex (MWriter t) s)
| AS_trylock_ok k s : sh_mutex s = MFree → astep t (TryLock k) s (k true) (set_mutex (MWriter t) s)
| AS_trylock_fail k s : astep t (TryLock k) s (k false) s
| AS_unlock p s : sh_mutex s = MWriter t → astep t (Unlock p) s p (set_mutex MFree s)
| AS_unlock_ub p s : sh_mutex s ≠ MWriter t → astep t (Unlock p) s (Crash UndefinedBehaviour) s
| AS_lock_shared p s m : rlock t (sh_mutex s) = Some m → astep t (LockShared p) s p (set_mutex m s)
| AS_trylock_shared_ok k s m :
    rlock t (sh_mutex s) = Some m → astep t (TryLockShared k) s (k true) (set_mutex m s)
| AS_trylock_shared_fail k s : astep t (TryLockShared k) s (k false) s
| AS_unlock_shared p s m :
    runlock t (sh_mutex s) = Some m → astep t (UnlockShared p) s p (set_mutex m s)
| AS_unlock_shared_ub p s :
    runlock t (sh_mutex s) = None → astep t (UnlockShared p) s (Crash UndefinedBehaviour) s
| AS_read a k s : astep t (ReadData a k) s (k (sh_data s !! a)) s
| AS_write a x p s : astep t (WriteData a x p) s p (set_data a x s).

Record cfg (A : Type) := mkCfg { cf_threads : list (prog A); cf_shared : shared }.
Arguments mkCfg {A} _ _.
Arguments cf_threads {A} _.
Arguments cf_shared {A} _.

Inductive step {A} : cfg A → cfg A → Prop :=
| step_thread t p p' s s' ts :
    ts !! t = Some p → astep t p s p' s' →
    step (mkCfg ts s) (mkCfg (<[t := p']> ts) s').

(** ** Versions and the clock

    The version is a 64-bit counter that starts at [0b100] and advances by two
    at each store, so it is [ver n] after [n] stores; it is latched exactly
    when [n] is odd. *)

Definition ver (n : nat) : Z := u64 (4 + 2 * Z.of_nat n).

Lemma ver_S n : ver n +₆₄ 2 = ver (S n).
Proof. unfold ver, u64. rewrite Z.add_mod_idemp_l by lia. f_equal. lia. Qed.

Lemma ver_is_u64 n : is_u64 (ver n).
Proof. apply u64_range. Qed.

Lemma isLatched_testbit v : isLatched v = Z.testbit v 1.
Proof.
  unfold isLatched. apply eq_true_iff_eq. rewrite Z.eqb_eq. split.
  - intros E. apply (f_equal (λ x, Z.testbit x 1)) in E. rewrite Z.land_spec in E.
    by destruct (Z.testbit v 1).
  - intros E. apply Z.bits_inj'. intros i Hi. rewrite Z.land_spec.
    destruct (decide (i = 1)) as [->|]; [by rewrite E|].
    change 2 with (2 ^ 1). rewrite (Z.pow2_bits_false 1 i) by lia. by rewrite andb_false_r.
Qed.

Lemma Z_odd_of_nat n : Z.odd (Z.of_nat n) = Nat.odd n.
Proof.
  induction n as [|n IH]; [done|].
  by rewrite Nat2Z.inj_succ, Z.odd_succ, <- Z.negb_odd, IH, Nat.odd_succ, <- Nat.negb_odd.
Qed.

Lemma isLatched_ver n : isLatched (ver n) = Nat.odd n.
Proof.
  rewrite isLatched_testbit. unfold ver, u64. rewrite Z.mod_pow2_bits_low by lia.
  replace (4 + 2 * Z.of_nat n) with (2 * (Z.of_nat n + 2)) by lia.
  rewrite (Z.double_bits_succ _ 0), Z.bit0_odd, Z.odd_add, Z_odd_of_nat by lia. apply xorb_false_r.
Qed.

Lemma ver_eq_odd n m : ver n = ver m → Nat.odd n = Nat.odd m.
Proof. intros E. by rewrite <- !isLatched_ver, E. Qed.

(** Two equal versions less than [2^63] stores apart are the same instant. *)
Lemma ver_inj n m : ver n = ver m → (n <= m)%nat → Z.of_nat m - Z.of_nat n < 2 ^ 63 → n = m.
Proof.
  unfold ver, u64. intros E Hle Hd.
  assert ((4 + 2 * Z.of_nat m - (4 + 2 * Z.of_nat n)) `mod` 2 ^ 64 = 0) as Hz.
  { by rewrite Zminus_mod, E, Z.sub_diag. }
  rewrite Z.mod_small in Hz by lia. lia.
Qed.

Lemma odd_S n : Nat.odd (S n) = negb (Nat.odd n).
Proof. by rewrite Nat.odd_succ, <- Nat.negb_odd. Qed.

(** ** Contracts

    What a thread holds: nothing, the mutex with the version not (yet or any
    more) marked, the marked version, or the mutex in shared mode; each with
    the clock at which it holds it.  [Hyb] is the discipline of [HybridLatch],
    [Opt] the one of [OptimisticLatch], which has no mutex. *)

Inductive cap := CNone | CLocked (n : nat) | CLatched (n : nat) | CShared (n : nat).
Inductive discipline := Hyb | Opt.

(** [valid m c p Q]: from capability [c], whatever the other threads do, [p]
    performs only actions that its capability allows, never crashes, and ends
    with a value and a capability that satisfy [Q]. *)
Fixpoint valid {A} (m : discipline) (c : cap) (p : prog A) (Q : A → cap → Prop) : Prop :=
  match p with
  | Ret a => Q a c
  | Crash _ => False
  | Load k =>
      match c with
      | CNone => ∀ n, valid m c (k (ver n)) Q
      | CLocked n | CLatched n | CShared n => valid m c (k (ver n)) Q
      end
  | Store v p =>
      match c with
      | CLocked n => v = ver (S n) ∧ valid m (CLatched (S n)) p Q
      | CLatched n =>
          v = ver (S n) ∧ valid m (match m with Hyb => CLocked (S n) | Opt => CNone end) p Q
      | _ => False
      end
  | Cas e d k =>
      m = Opt ∧ c = CNone ∧ isLatched e = false ∧ d = e +₆₄ 2 ∧
      (∀ n, ver n = e → valid m (CLatched (S n)) (k true e) Q) ∧
      (∀ n, valid m CNone (k false (ver n)) Q)
  | FetchAdd _ _ => False
  | Lock p => m = Hyb ∧ c = CNone ∧ ∀ n, Nat.odd n = false → valid m (CLocked n) p Q
  | TryLock k =>
      m = Hyb ∧ c = CNone ∧ valid m CNone (k false) Q ∧
      ∀ n, Nat.odd n = false → valid m (CLocked n) (k true) Q
  | Unlock p => m = Hyb ∧ (∃ n, c = CLocked n) ∧ valid m CNone p Q
  | LockShared p => m = Hyb ∧ c = CNone ∧ ∀ n, Nat.odd n = false → valid m (CShared n) p Q
  | TryLockShared k =>
      m = Hyb ∧ c = CNone ∧ valid m CNone (k false) Q ∧
      ∀ n, Nat.odd n = false → valid m (CShared n) (k true) Q
  | UnlockShared p => m = Hyb ∧ (∃ n, c = CShared n) ∧ valid m CNone p Q
  | ReadData a k => ∀ x, valid m c (k x) Q
  | WriteData a x p => (∃ n, c = CLatched n) ∧ valid m c p Q
  end.

Lemma valid_mono {A} m c (p : prog A) (Q Q' : A → cap → Prop) :
  (∀ a c, Q a c → Q' a c) → valid m c p Q → valid m c p Q'.
Proof.
  intros HQ. revert c.
  induction p as [a|e|k IH|v p IH|e d k IH|n p IH|p IH|k IH|p IH|p IH|k IH|p IH|a k IH|a x p IH];
    intros c; simpl; try naive_solver; try (destruct c; naive_solver).
Qed.

Lemma valid_bind {A B} m c (p : prog A) (f : A → prog B) (Q : B → cap → Prop) :
  valid m c p (λ a c', valid m c' (f a) Q) → valid m c (p ≫= f) Q.
Proof.
  revert c.
  induction p as [a|e|k IH|v p IH|e d k IH|n p IH|p IH|k IH|p IH|p IH|k IH|p IH|a k IH|a x p IH];
    intros c; simpl; try naive_solver; try (destruct c; naive_solver).
Qed.

(** *** The contracts of the methods *)

Arguments Nat.odd : simpl never.

(** The method returns with nothing held. *)
Definition free_post {A} (a : A) (c : cap) : Prop := c = CNone.

Ltac vsolve :=
  unfold pensure, free_post; repeat first
    [ progress intros
    | progress rewrite ?ver_S, ?isLatched_ver, ?odd_S in *
    | progress simpl
    | progress simplify_eq
    | match goal with
      | H : Nat.odd _ = _ |- _ => progress rewrite H
      | |- _ ∧ _ => split
      | |- ∃ n, _ = _ n ∧ _ => eexists; split; [reflexivity|]
      | |- ∃ n, _ = _ n => eexists; reflexivity
      | |- context [ if ?b then _ else _ ] => destruct b eqn:?
      end
    | done ].

Section contracts.
Import HybridLatch.

Lemma latchExclusive_valid :
  valid Hyb CNone latchExclusive (λ _ c, ∃ n, c = CLatched n ∧ Nat.odd n = true).
Proof. unfold latchExclusive, isLatched_now, load, store. vsolve. Qed.

Lemma unlatchExclusive_valid n : Nat.odd n = true →
  valid Hyb (CLatched n) unlatchExclusive free_post.
Proof. unfold unlatchExclusive, isLatched_now, load, store. vsolve. Qed.

Lemma latchShared_valid :
  valid Hyb CNone latchShared (λ _ c, ∃ n, c = CShared n ∧ Nat.odd n = false).
Proof. unfold latchShared, isLatched_now, load, store. vsolve. Qed.

Lemma unlatchShared_valid n : valid Hyb (CShared n) unlatchShared free_post.
Proof. unfold unlatchShared. vsolve. Qed.

Lemma tryLatchExclusive_valid :
  valid Hyb CNone tryLatchExclusive
    (λ b c, if b then ∃ n, c = CLatched n ∧ Nat.odd n = true else c = CNone).
Proof. unfold tryLatchExclusive, load, store. vsolve. Qed.

Lemma tryLatchShared_valid :
  valid Hyb CNone tryLatchShared
    (λ b c, if b then ∃ n, c = CShared n ∧ Nat.odd n = false else c = CNone).
Proof. unfold tryLatchShared. vsolve. Qed.

Lemma tryDowngrade_valid n : Nat.odd n = true →
  valid Hyb (CLatched n) tryDowngradeExclusiveToShared
    (λ b c, if b then ∃ n', c = CShared n' ∧ Nat.odd n' = false ∧ ver n' = ver (S n)
            else c = CNone).
Proof.
  intros Hn. unfold tryDowngradeExclusiveToShared, latchShared, unlatchShared, isLatched_now, load, store.
  vsolve. apply negb_false_iff, Z.eqb_eq in Heqb. by symmetry.
Qed.

Lemma downgradeExclusiveToOptimistic_valid n : Nat.odd n = true →
  valid Hyb (CLatched n) downgradeExclusiveToOptimistic (λ v c, v = ver (S n) ∧ c = CNone).
Proof.
  intros. unfold downgradeExclusiveToOptimistic, unlatchExclusive, isLatched_now, load, store. vsolve.
Qed.

Lemma downgradeSharedToOptimistic_valid n :
  valid Hyb (CShared n) downgradeSharedToOptimistic (λ v c, v = ver n ∧ c = CNone).
Proof. unfold downgradeSharedToOptimistic, unlatchShared, load. vsolve. Qed.

Lemma optimisticUpgradeToShared_valid v :
  valid Hyb CNone (optimisticUpgradeToShared v)
    (λ b c, if b then ∃ n, c = CShared n ∧ ver n = v else c = CNone).
Proof.
  unfold optimisticUpgradeToShared, tryLatchShared, unlatchShared, load. vsolve.
  by apply Z.eqb_eq.
Qed.

Lemma optimisticUpgradeToExclusive_valid v :
  valid Hyb CNone (optimisticUpgradeToExclusive v)
    (λ b c, if b then ∃ n, c = CLatched n ∧ Nat.odd n = true ∧ ver n = v +₆₄ 2 else c = CNone).
Proof.
  unfold optimisticUpgradeToExclusive, tryLatchExclusive, unlatchExclusive, isLatched_now, load, store.
  vsolve. by apply negb_false_iff, Z.eqb_eq in Heqb0.
Qed.

Lemma optimisticLatchOrRestart_valid c :
  valid Hyb c optimisticLatchOrRestart
    (λ o c', c' = c ∧ ∀ v, o = Some v → ∃ n, v = ver n ∧ Nat.odd n = false).
Proof. unfold optimisticLatchOrRestart, load. destruct c; vsolve; eauto. Qed.

Lemma optimisticCheckOrRestart_valid c v :
  valid Hyb c (optimisticCheckOrRestart v) (λ _ c', c' = c).
Proof. unfold optimisticCheckOrRestart, optimisticReadUnlatchOrRestart, load. destruct c; vsolve. Qed.

End contracts.

Section opt_contracts.
Import OptimisticLatch.

Lemma opt_tryLatchExclusive_valid :
  valid Opt CNone ol_tryLatchExclusive
    (λ b c, if b then ∃ n, c = CLatched n ∧ Nat.odd n = true else c = CNone).
Proof.
  unfold ol_tryLatchExclusive, ol_optimisticLatchOrRestart, upgradeToExclusiveLatch, load. vsolve.
  all: match goal with H : ver _ = ver _ |- _ => apply ver_eq_odd in H; rewrite H end.
  all: by rewrite Heqb.
Qed.

Lemma opt_unlatchExclusive_valid n : Nat.odd n = true →
  valid Opt (CLatched n) ol_unlatchExclusive free_post.
Proof. intros. unfold ol_unlatchExclusive, ol_isLatched_now, load, store. vsolve. Qed.

Lemma opt_downgrade_valid n : Nat.odd n = true →
  valid Opt (CLatched n) downgradeToOptimisticLatch (λ v c, v = ver (S n) ∧ c = CNone).
Proof.
  intros. unfold downgradeToOptimisticLatch, ol_unlatchExclusive, ol_isLatched_now, load, store. vsolve.
Qed.

Lemma opt_upgradeToExclusiveLatch_valid v :
  valid Opt CNone (upgradeToExclusiveLatch v)
    (λ r c, if r.1 then ∃ n, c = CLatched n ∧ Nat.odd n = true ∧ r.2 = ver n ∧ r.2 = v +₆₄ 2
            else c = CNone).
Proof.
  unfold upgradeToExclusiveLatch. vsolve.
Qed.

End opt_contracts.

(** ** Soundness of the contracts under interleaving *)

Section soundness.
Context {A : Type} (m : discipline) (Q : A → cap → Prop).

(** What the shared state looks like while thread [t] has capability [c]. *)
Definition cap_ok (s : shared) (t : nat) (c : cap) : Prop :=
  match c with
  | CNone => True
  | CLocked n => n = sh_clock s ∧ Nat.odd n = false ∧ m = Hyb ∧ sh_mutex s = MWriter t
  | CLatched n => n = sh_clock s ∧ Nat.odd n = true ∧ (m = Hyb → sh_mutex s = MWriter t)
  | CShared n =>
      n = sh_clock s ∧ Nat.odd n = false ∧ m = Hyb ∧ ∃ ts, sh_mutex s = MReaders ts ∧ t ∈ ts
  end.

Record inv (c : cfg A) (caps : list cap) : Prop := {
  inv_valid : Forall2 (λ p k, valid m k p Q) (cf_threads c) caps;
  inv_caps : ∀ t k, caps !! t = Some k → cap_ok (cf_shared c) t k;
  inv_ver : sh_version (cf_shared c) = ver (sh_clock (cf_shared c));
  (** an odd clock has an owner, and only one *)
  inv_odd : Nat.odd (sh_clock (cf_shared c)) = true →
            ∃ t, caps !! t = Some (CLatched (sh_clock (cf_shared c)));
  inv_uniq : ∀ t u n k, caps !! t = Some (CLatched n) → caps !! u = Some (CLatched k) → t = u;
}.

(** A step of thread [t] that leaves the others' view intact. *)
Lemma inv_step ts s caps t p' s' k' :
  inv (mkCfg ts s) caps → (t < length ts)%nat →
  valid m k' p' Q → cap_ok s' t k' →
  (∀ u k, u ≠ t → caps !! u = Some k → cap_ok s u k → cap_ok s' u k) →
  sh_version s' = ver (sh_clock s') →
  (Nat.odd (sh_clock s') = true →
     k' = CLatched (sh_clock s') ∨
     ∃ u, u ≠ t ∧ caps !! u = Some (CLatched (sh_clock s'))) →
  ((∃ n, k' = CLatched n) → ∀ u n, u ≠ t → caps !! u ≠ Some (CLatched n)) →
  inv (mkCfg (<[t := p']> ts) s') (<[t := k']> caps).
Proof.
  intros [Hv Hc _ _ Hu] Hlt Hv' Hk' Hothers Hver Hodd Huniq. simpl in *.
  assert (t < length caps)%nat as Hlt' by (by rewrite <- (Forall2_length _ _ _ Hv)).
  split; simpl.
  - by apply Forall2_insert.
  - intros u k. destruct (decide (u = t)) as [->|Hne].
    + rewrite list_lookup_insert_eq by done. by intros [= <-].
    + rewrite list_lookup_insert_ne by done. intros Hu'. eauto.
  - done.
  - intros Ho. destruct (Hodd Ho) as [->|(u & Hne & Hl)].
    + exists t. by rewrite list_lookup_insert_eq.
    + exists u. by rewrite list_lookup_insert_ne.
  - intros u w n k Hu1 Hu2.
    destruct (decide (u = t)) as [->|Hn1], (decide (w = t)) as [->|Hn2]; [done|..].
    + rewrite list_lookup_insert_eq in Hu1 by done. rewrite list_lookup_insert_ne in Hu2 by done.
      injection Hu1 as ->. by destruct (Huniq (ex_intro _ n eq_refl) w k Hn2).
    + rewrite list_lookup_insert_ne in Hu1 by done. rewrite list_lookup_insert_eq in Hu2 by done.
      injection Hu2 as ->. by destruct (Huniq (ex_intro _ k eq_refl) u n Hn1).
    + rewrite list_lookup_insert_ne in Hu1, Hu2 by done. eauto.
Qed.

Lemma cap_ok_data s t k a x : cap_ok (set_data a x s) t k ↔ cap_ok s t k.
Proof. by destruct k. Qed.

Definition latched (k : cap) : bool := match k with CLatched _ => true | _ => false end.

(** A step that does not store a version. *)
Lemma inv_quiet ts s caps t p' s' k k' :
  inv (mkCfg ts s) caps → (t < length ts)%nat → caps !! t = Some k →
  valid m k' p' Q → cap_ok s' t k' →
  (∀ u k, u ≠ t → caps !! u = Some k → cap_ok s u k → cap_ok s' u k) →
  sh_version s' = sh_version s → sh_clock s' = sh_clock s →
  latched k = latched k' →
  inv (mkCfg (<[t := p']> ts) s') (<[t := k']> caps).
Proof.
  intros Hinv Hlt Hk Hv Hok Hoth Hver Hclk Hlat.
  pose proof (inv_caps _ _ Hinv _ _ Hk) as Hkok. simpl in Hkok.
  apply (inv_step ts s); try done.
  - rewrite Hver, Hclk. apply (inv_ver _ _ Hinv).
  - rewrite Hclk. intros Ho. destruct (inv_odd _ _ Hinv Ho) as [u Hu]. simpl in Hu.
    destruct (decide (u = t)) as [->|]; [left|right; eauto]. simplify_eq. simpl in Hlat.
    destruct k'; try done. simpl in Hok. destruct Hok as (-> & _). by rewrite Hclk.
  - intros [n ->] u n' Hne Hu. destruct k as [| | |]; try done.
    by apply Hne, (inv_uniq _ _ Hinv u t n' n0).
Qed.

(** While a thread holds the mutex exclusively or the mark, the others hold nothing. *)
Lemma others_none ts s caps t k u k' :
  inv (mkCfg ts s) caps → caps !! t = Some k →
  match k with CLocked _ | CLatched _ => True | _ => False end →
  u ≠ t → caps !! u = Some k' → k' = CNone.
Proof.
  intros Hinv Ht Hk Hne Hu.
  pose proof (inv_caps _ _ Hinv _ _ Ht) as Htok. pose proof (inv_caps _ _ Hinv _ _ Hu) as Huok.
  simpl in *. destruct k as [|n|n|]; try done; destruct k' as [|n'|n'|n']; simpl in *; try done.
  - naive_solver congruence.
  - naive_solver congruence.
  - naive_solver congruence.
  - naive_solver congruence.
  - by destruct Hne; apply (inv_uniq _ _ Hinv u t n' n).
  - naive_solver congruence.
Qed.

(** With a free mutex in the hybrid discipline the clock is even. *)
Lemma unowned_even ts s caps :
  inv (mkCfg ts s) caps → m = Hyb → (∀ t, sh_mutex s ≠ MWriter t) → Nat.odd (sh_clock s) = false.
Proof.
  intros Hinv Hm Hw. destruct (Nat.odd (sh_clock s)) eqn:Ho; [|done].
  destruct (inv_odd _ _ Hinv Ho) as [t Ht]. apply (inv_caps _ _ Hinv) in Ht. simpl in Ht.
  destruct Ht as (_ & _ & Hmut). by destruct (Hw t (Hmut Hm)).
Qed.

Lemma rlock_Some t mu mu' : rlock t mu = Some mu' →
  (∀ u, mu ≠ MWriter u) ∧ ∃ ts, mu' = MReaders ts ∧ t ∈ ts ∧
    (∀ us u, mu = MReaders us → u ∈ us → u ∈ ts).
Proof.
  destruct mu as [|w|us]; simpl; intros [= <-]; (split; [done|]); eexists; (split; [done|]);
    set_solver.
Qed.

Lemma remove_one_other t u ts : u ≠ t → u ∈ ts → u ∈ remove_one t ts.
Proof.
  intros Hne. induction ts as [|w ts IH]; simpl; [done|]. intros [->|Hu]%elem_of_cons.
  - rewrite decide_False by done. by left.
  - case_decide; [done|]. right. eauto.
Qed.

Lemma runlock_Some t mu ts : mu = MReaders ts → t ∈ ts → ∃ mu', runlock t mu = Some mu' ∧
  (∀ w, mu' ≠ MWriter w) ∧ (∀ u, u ≠ t → u ∈ ts → ∃ ts', mu' = MReaders ts' ∧ u ∈ ts').
Proof.
  intros -> Ht. simpl. rewrite decide_True by done. eexists. split; [done|].
  split; [by destruct (remove_one t ts)|]. intros u Hne Hu.
  pose proof (remove_one_other t u ts Hne Hu) as Hr.
  destruct (remove_one t ts); [by apply elem_of_nil in Hr|]. eauto.
Qed.

(** A store of the version: the mark is set or cleared. *)
Lemma inv_store ts s caps t k k' p' v :
  inv (mkCfg ts s) caps → (t < length ts)%nat → caps !! t = Some k →
  (∃ n, k = CLocked n ∧ v = ver (S n) ∧ k' = CLatched (S n)) ∨
  (∃ n, k = CLatched n ∧ v = ver (S n) ∧ k' = match m with Hyb => CLocked (S n) | Opt => CNone end) →
  valid m k' p' Q →
  inv (mkCfg (<[t := p']> ts) (set_version v s)) (<[t := k']> caps).
Proof.
  intros Hinv Hlt Hk Hcase Hv. pose proof (inv_caps _ _ Hinv _ _ Hk) as Hok. simpl in Hok.
  assert (∀ u k, u ≠ t → caps !! u = Some k → k = CNone) as Hnone.
  { intros u k0 Hne Hu. eapply others_none; [done|exact Hk| |done|done].
    by destruct Hcase as [(n & -> & _)|(n & -> & _)]. }
  apply (inv_step ts s); try done.
  - destruct Hcase as [(n & -> & -> & ->)|(n & -> & -> & ->)]; simpl in *.
    + destruct Hok as (-> & Ho & ? & ?). by rewrite odd_S, Ho.
    + destruct Hok as (-> & Ho & Hm). destruct m eqn:Em; simpl; [|done]. rewrite odd_S, Ho. auto.
  - intros u k0 Hne Hu _. by rewrite (Hnone u k0).
  - destruct Hcase as [(n & -> & -> & _)|(n & -> & -> & _)]; by destruct Hok as (-> & _).
  - intros Ho. left. destruct Hcase as [(n & -> & _ & ->)|(n & -> & _ & ->)]; simpl in *.
    + by destruct Hok as (-> & _).
    + destruct Hok as (-> & Ho' & _). by rewrite odd_S, Ho' in Ho.
  - intros _ u n Hne Hu. by apply Hnone in Hu.
Qed.

(** A successful compare-exchange takes the mark. *)
Lemma inv_cas ts s caps t p' e :
  inv (mkCfg ts s) caps → (t < length ts)%nat → caps !! t = Some CNone →
  m = Opt → isLatched e = false → sh_version s = e →
  (∀ n, ver n = e → valid m (CLatched (S n)) p' Q) →
  inv (mkCfg (<[t := p']> ts) (set_version (e +₆₄ 2) s)) (<[t := CLatched (S (sh_clock s))]> caps).
Proof.
  intros Hinv Hlt Hk Hm He Hver Hv. pose proof (inv_ver _ _ Hinv) as Hc. simpl in Hc.
  assert (Nat.odd (sh_clock s) = false) as Ho by (rewrite <- isLatched_ver; congruence).
  assert (∀ u k, u ≠ t → caps !! u = Some k → k = CNone) as Hnone.
  { intros u k Hne Hu. apply (inv_caps _ _ Hinv) in Hu. simpl in Hu.
    destruct k; simpl in *; naive_solver congruence. }
  apply (inv_step ts s); try done.
  - apply Hv. congruence.
  - simpl. rewrite odd_S, Ho. split; [done|]. split; [done|]. congruence.
  - intros u k Hne Hu _. by rewrite (Hnone u k).
  - simpl. by rewrite <- Hver, Hc, ver_S.
  - by left.
  - intros _ u n Hne Hu. by apply Hnone in Hu.
Qed.

(** Taking the mutex exclusively. *)
Lemma inv_lock ts s caps t p' :
  inv (mkCfg ts s) caps → (t < length ts)%nat → caps !! t = Some CNone →
  m = Hyb → sh_mutex s = MFree →
  (∀ n, Nat.odd n = false → valid m (CLocked n) p' Q) →
  inv (mkCfg (<[t := p']> ts) (set_mutex (MWriter t) s)) (<[t := CLocked (sh_clock s)]> caps).
Proof.
  intros Hinv Hlt Hk Hm Hf Hv.
  assert (Nat.odd (sh_clock s) = false) as Ho by (eapply unowned_even; [done..|]; by rewrite Hf).
  eapply (inv_quiet ts s); try done.
  - auto.
  - intros u k Hne Hu Hok. destruct k; simpl in *; naive_solver congruence.
Qed.

(** Taking the mutex in shared mode. *)
Lemma inv_rlock ts s caps t p' mu :
  inv (mkCfg ts s) caps → (t < length ts)%nat → caps !! t = Some CNone →
  m = Hyb → rlock t (sh_mutex s) = Some mu →
  (∀ n, Nat.odd n = false → valid m (CShared n) p' Q) →
  inv (mkCfg (<[t := p']> ts) (set_mutex mu s)) (<[t := CShared (sh_clock s)]> caps).
Proof.
  intros Hinv Hlt Hk Hm (Hw & rs & -> & Hin & Hmono)%rlock_Some Hv.
  assert (Nat.odd (sh_clock s) = false) as Ho by (by eapply unowned_even).
  eapply (inv_quiet ts s); try done.
  - auto.
  - simpl. eauto 6.
  - intros u k Hne Hu Hok. destruct k; simpl in *; naive_solver.
Qed.

(** Every step of every thread preserves the invariant. *)
Lemma inv_preserved c c' caps : inv c caps → step c c' → ∃ caps', inv c' caps'.
Proof.
  intros Hinv Hstep. destruct Hstep as [t p p' s s' ts Ht Ha].
  pose proof (lookup_lt_Some _ _ _ Ht) as Hlt.
  destruct (Forall2_lookup_l _ _ _ _ _ (inv_valid _ _ Hinv) Ht) as (k & Hk & Hv). simpl in Hv.
  pose proof (inv_caps _ _ Hinv _ _ Hk) as Hok. pose proof (inv_ver _ _ Hinv) as Hver. simpl in Hok, Hver.
  assert (∀ p'', valid m k p'' Q → ∃ caps', inv (mkCfg (<[t := p'']> ts) s) caps') as Hsame.
  { intros p'' Hv''. eexists. by eapply (inv_quiet ts s). }
  destruct Ha; simpl in Hv.
  - apply Hsame. rewrite Hver. destruct k; simpl in *; try (destruct Hok as (<- & _)); auto.
  - destruct k as [|n|n|]; try done; destruct Hv as [-> Hv].
    + eexists. eapply (inv_store ts s caps t _ (CLatched (S n))); eauto 6.
    + eexists. eapply (inv_store ts s caps t _ (match m with Hyb => CLocked (S n) | Opt => CNone end));
        eauto 6.
  - destruct Hv as (Hm & -> & He & -> & Hs & _). eexists. by eapply inv_cas.
  - destruct Hv as (Hm & -> & He & -> & _ & Hf). apply Hsame. rewrite Hver. auto.
  - done.
  - destruct Hv as (Hm & -> & Hv). eexists. by eapply inv_lock.
  - destruct Hv as (Hm & -> & _ & Hv). eexists. by eapply inv_lock.
  - destruct Hv as (Hm & -> & Hv & _). auto.
  - destruct Hv as (Hm & [n ->] & Hv). eexists. eapply (inv_quiet ts s _ _ _ _ _ CNone); try done.
    intros u k Hne Hu Huok.
    assert (k = CNone) as -> by (eapply (others_none ts s caps t); eauto; done). done.
  - destruct Hv as (Hm & [n ->] & Hv). simpl in Hok. naive_solver.
  - destruct Hv as (Hm & -> & Hv). eexists. by eapply inv_rlock.
  - destruct Hv as (Hm & -> & _ & Hv). eexists. by eapply inv_rlock.
  - destruct Hv as (Hm & -> & Hv & _). auto.
  - destruct Hv as (Hm & [n ->] & Hv). simpl in Hok. destruct Hok as (-> & Ho & _ & rs & Hr & Hin).
    destruct (runlock_Some _ _ _ Hr Hin) as (mu & E & Hnw & Hrest). simplify_eq.
    eexists. eapply (inv_quiet ts s _ _ _ _ _ CNone); try done.
    intros u k Hne Hu Huok. destruct k as [|n|n|n]; simpl in *; [done|..].
    + destruct Huok as (_ & _ & _ & Hmu). by rewrite Hr in Hmu.
    + destruct Huok as (_ & _ & Hmu). specialize (Hmu Hm). by rewrite Hr in Hmu.
    + destruct Huok as (? & ? & ? & ts' & Hr' & Hin'). rewrite Hr in Hr'. simplify_eq. eauto.
  - destruct Hv as (Hm & [n ->] & Hv). simpl in Hok. destruct Hok as (-> & Ho & _ & rs & Hr & Hin).
    destruct (runlock_Some _ _ _ Hr Hin) as (mu & E & _). congruence.
  - apply Hsame, Hv.
  - destruct Hv as ([n ->] & Hv). eexists. eapply (inv_quiet ts s); try done.
Qed.

Lemma inv_init ts data :
  Forall (λ p, valid m CNone p Q) ts → ∃ caps, inv (mkCfg ts (sh_init data)) caps.
Proof.
  intros Hv. exists (replicate (length ts) CNone). split; simpl.
  - apply Forall2_same_length_lookup_2; [by rewrite length_replicate|].
    intros i p k Hp Hk. apply lookup_replicate in Hk as [-> _]. by eapply Forall_lookup_1 in Hv.
  - intros t k Hk. by apply lookup_replicate in Hk as [-> _].
  - reflexivity.
  - done.
  - intros t u n k Ht. by apply lookup_replicate in Ht as [].
Qed.

Lemma inv_reachable c c' caps : inv c caps → rtc step c c' → ∃ caps', inv c' caps'.
Proof.
  intros Hi Hr. revert caps Hi. induction Hr as [|c c1 c2 Hs _ IH]; [eauto|].
  intros caps Hi. destruct (inv_preserved c c1 caps Hi Hs) as [caps1 Hi1]. eauto.
Qed.

(** A step stores at most one version; data changes only while it is marked,
    and not in a step that stores. *)
Lemma step_clock c c' caps : inv c caps → step c c' →
  (sh_clock (cf_shared c') = sh_clock (cf_shared c) ∧
   (Nat.odd (sh_clock (cf_shared c)) = false → sh_data (cf_shared c') = sh_data (cf_shared c))) ∨
  (sh_clock (cf_shared c') = S (sh_clock (cf_shared c)) ∧
   sh_data (cf_shared c') = sh_data (cf_shared c)).
Proof.
  intros Hinv Hstep. destruct Hstep as [t p p' s s' ts Ht Ha].
  destruct (Forall2_lookup_l _ _ _ _ _ (inv_valid _ _ Hinv) Ht) as (k & Hk & Hv). simpl in Hv.
  pose proof (inv_caps _ _ Hinv _ _ Hk) as Hok. simpl in Hok.
  destruct Ha; simpl in *; auto. left. split; [done|].
  destruct Hv as ([n ->] & _). simpl in Hok. destruct Hok as (-> & -> & _). done.
Qed.

Lemma trace_clock c c' caps : inv c caps → rtc step c c' →
  (sh_clock (cf_shared c) <= sh_clock (cf_shared c'))%nat ∧
  (sh_clock (cf_shared c) = sh_clock (cf_shared c') → Nat.odd (sh_clock (cf_shared c)) = false →
   sh_data (cf_shared c') = sh_data (cf_shared c)).
Proof.
  intros Hi Hr. revert caps Hi. induction Hr as [|c c1 c2 Hs _ IH]; [done|]. intros caps Hi.
  destruct (inv_preserved c c1 caps Hi Hs) as [caps1 Hi1].
  destruct (IH caps1 Hi1) as [Hle Heq].
  destruct (step_clock c c1 caps Hi Hs) as [[E Hd]|[E Hd]]; rewrite E in *; split; try lia.
  intros Ec Ho. by rewrite Heq, Hd.
Qed.

(** What mutual exclusion gives an observer: no thread has crashed, and a
    thread about to write the data holds the latch, alone. *)
Definition about_to_write (c : cfg A) (t : nat) : Prop :=
  ∃ a x p, cf_threads c !! t = Some (WriteData a x p).
Definition safe (c : cfg A) : Prop :=
  (∀ t e, cf_threads c !! t ≠ Some (Crash e)) ∧
  (∀ t, about_to_write c t →
     isLatched (sh_version (cf_shared c)) = true ∧ (m = Hyb → sh_mutex (cf_shared c) = MWriter t)) ∧
  (∀ t u, about_to_write c t → about_to_write c u → t = u).

Lemma inv_safe c caps : inv c caps → safe c.
Proof.
  intros Hinv.
  assert (∀ t, about_to_write c t → ∃ n, caps !! t = Some (CLatched n)) as Hw.
  { intros t (a & x & p & Ht).
    destruct (Forall2_lookup_l _ _ _ _ _ (inv_valid _ _ Hinv) Ht) as (k & Hk & [n ->] & _). eauto. }
  split; [|split].
  - intros t e Ht. by destruct (Forall2_lookup_l _ _ _ _ _ (inv_valid _ _ Hinv) Ht) as (k & Hk & Hv).
  - intros t Ht. destruct (Hw t Ht) as [n Hn]. apply (inv_caps _ _ Hinv) in Hn as (-> & Ho & Hm).
    by rewrite (inv_ver _ _ Hinv), isLatched_ver.
  - intros t u Ht Hu. destruct (Hw t Ht) as [n Hn], (Hw u Hu) as [n' Hn'].
    by eapply (inv_uniq _ _ Hinv).
Qed.

End soundness.

(** ** Clients: threads that use the latches *)

Fixpoint reads (addrs : list nat) : prog (list (option Z)) :=
  match addrs with
  | [] => Ret []
  | a :: addrs => ReadData a (λ x, xs ← reads addrs; Ret (x :: xs))
  end.
Fixpoint writes (l : list (nat * Z)) : prog unit :=
  match l with
  | [] => Ret tt
  | (a, x) :: l => WriteData a x (writes l)
  end.

(** One use of a latch; the reads and writes are arbitrary. *)
Inductive session :=
| SWrite (l : list (nat * Z))
| STryWrite (l : list (nat * Z))
| SShared (addrs : list nat)
| SOptimistic (addrs : list nat)
| SUpgradeExclusive (addrs : list nat) (l : list (nat * Z))
| SUpgradeShared (addrs more : list nat)
| SDowngradeShared (l : list (nat * Z)) (addrs : list nat)
| SDowngradeOptimistic (l : list (nat * Z)) (addrs : list nat).

Section hybrid_sessions.
Import HybridLatch.

Definition hybrid_session (s : session) : prog unit :=
  match s with
  | SWrite l => _ ← latchExclusive; _ ← writes l; unlatchExclusive
  | STryWrite l =>
      ok ← tryLatchExclusive;
      if (ok : bool) then _ ← writes l; unlatchExclusive else Ret tt
  | SShared addrs => _ ← latchShared; _ ← reads addrs; unlatchShared
  | SOptimistic addrs =>
      o ← optimisticLatchOrRestart;
      match (o : option Z) with
      | None => Ret tt
      | Some v => _ ← reads addrs; _ ← optimisticCheckOrRestart v; Ret tt
      end
  | SUpgradeExclusive addrs l =>
      o ← optimisticLatchOrRestart;
      match (o : option Z) with
      | None => Ret tt
      | Some v =>
          _ ← reads addrs;
          ok ← optimisticUpgradeToExclusive v;
          if (ok : bool) then _ ← writes l; unlatchExclusive else Ret tt
      end
  | SUpgradeShared addrs more =>
      o ← optimisticLatchOrRestart;
      match (o : option Z) with
      | None => Ret tt
      | Some v =>
          _ ← reads addrs;
          ok ← optimisticUpgradeToShared v;
          if (ok : bool) then _ ← reads more; unlatchShared else Ret tt
      end
  | SDowngradeShared l addrs =>
      _ ← latchExclusive; _ ← writes l;
      ok ← tryDowngradeExclusiveToShared;
      if (ok : bool) then _ ← reads addrs; unlatchShared else Ret tt
  | SDowngradeOptimistic l addrs =>
      _ ← latchExclusive; _ ← writes l;
      v ← downgradeExclusiveToOptimistic;
      _ ← reads addrs; _ ← optimisticCheckOrRestart v; Ret tt
  end.

End hybrid_sessions.

Section optimistic_sessions.
Import OptimisticLatch.

(** Without a mutex the shared sessions are optimistic reads. *)
Definition optimistic_session (s : session) : prog unit :=
  match s with
  | SWrite l | STryWrite l =>
      ok ← ol_tryLatchExclusive;
      if (ok : bool) then _ ← writes l; ol_unlatchExclusive else Ret tt
  | SUpgradeExclusive addrs l =>
      o ← ol_optimisticLatchOrRestart;
      match (o : option Z) with
      | None => Ret tt
      | Some v =>
          _ ← reads addrs;
          '(ok, _) ← upgradeToExclusiveLatch v;
          if (ok : bool) then _ ← writes l; ol_unlatchExclusive else Ret tt
      end
  | SShared addrs | SOptimistic addrs | SUpgradeShared addrs _ =>
      o ← ol_optimisticLatchOrRestart;
      match (o : option Z) with
      | None => Ret tt
      | Some v => _ ← reads addrs; _ ← checkOrRestart v; Ret tt
      end
  | SDowngradeShared l addrs | SDowngradeOptimistic l addrs =>
      ok ← ol_tryLatchExclusive;
      if (ok : bool) then
        _ ← writes l;
        v ← downgradeToOptimisticLatch;
        _ ← reads addrs; _ ← optimisticUnlatch v; Ret tt
      else Ret tt
  end.

End optimistic_sessions.

Definition thread_of (session_prog : session → prog unit) (ss : list session) : prog unit :=
  foldr (λ s p, _ ← session_prog s; p) (Ret tt) ss.


Lemma reads_valid m c addrs (Q : list (option Z) → cap → Prop) :
  (∀ xs, Q xs c) → valid m c (reads addrs) Q.
Proof.
  revert Q. induction addrs as [|a addrs IH]; simpl; intros Q HQ; [done|].
  intros x. apply valid_bind. apply IH. simpl. auto.
Qed.

Lemma writes_valid m n l : valid m (CLatched n) (writes l) (λ _ c, c = CLatched n).
Proof. induction l as [|[a x] l IH]; simpl; eauto. Qed.

Ltac vcall lem := apply valid_bind; eapply valid_mono; [|apply lem]; cbv beta.

Lemma hybrid_session_valid s : valid Hyb CNone (hybrid_session s) free_post.
Proof.
  assert (∀ n l, Nat.odd n = true →
    valid Hyb (CLatched n) (_ ← writes l; HybridLatch.unlatchExclusive) free_post) as Hw.
  { intros n l Hn. vcall writes_valid. intros _ c ->. by apply unlatchExclusive_valid. }
  destruct s as [l|l|addrs|addrs|addrs l|addrs more|l addrs|l addrs]; unfold hybrid_session.
  - vcall latchExclusive_valid. intros _ c (n & -> & Hn). by apply Hw.
  - vcall tryLatchExclusive_valid. intros [] c; [|by intros ->]. intros (n & -> & Hn). by apply Hw.
  - vcall latchShared_valid. intros _ c (n & -> & Hn). apply valid_bind, reads_valid. intros _.
    apply unlatchShared_valid.
  - vcall optimisticLatchOrRestart_valid. intros [v|] c [-> _]; [|done].
    apply valid_bind, reads_valid. intros _. by vcall optimisticCheckOrRestart_valid.
  - vcall optimisticLatchOrRestart_valid. intros [v|] c [-> _]; [|done].
    apply valid_bind, reads_valid. intros _. vcall optimisticUpgradeToExclusive_valid.
    intros [] c; [|by intros ->]. intros (n & -> & Hn & _). by apply Hw.
  - vcall optimisticLatchOrRestart_valid. intros [v|] c [-> _]; [|done].
    apply valid_bind, reads_valid. intros _. vcall optimisticUpgradeToShared_valid.
    intros [] c; [|by intros ->]. intros (n & -> & Hn). apply valid_bind, reads_valid. intros _.
    apply unlatchShared_valid.
  - vcall latchExclusive_valid. intros _ c (n & -> & Hn). vcall writes_valid. intros _ c ->.
    vcall tryDowngrade_valid; [|done]. intros [] c; [|by intros ->]. intros (n' & -> & _).
    apply valid_bind, reads_valid. intros _. apply unlatchShared_valid.
  - vcall latchExclusive_valid. intros _ c (n & -> & Hn). vcall writes_valid. intros _ c ->.
    vcall downgradeExclusiveToOptimistic_valid; [|done]. intros v c [_ ->].
    apply valid_bind, reads_valid. intros _. by vcall optimisticCheckOrRestart_valid.
Qed.

Lemma opt_load_valid {A} (f : Z → A) : valid Opt CNone (v ← load; Ret (f v)) free_post.
Proof. by intros n. Qed.

Lemma opt_optimisticLatchOrRestart_valid :
  valid Opt CNone OptimisticLatch.ol_optimisticLatchOrRestart free_post.
Proof. intros n. simpl. by destruct (isLatched (ver n)). Qed.

Lemma optimistic_session_valid s : valid Opt CNone (optimistic_session s) free_post.
Proof.
  assert (∀ n l, Nat.odd n = true →
    valid Opt (CLatched n) (_ ← writes l; OptimisticLatch.ol_unlatchExclusive) free_post) as Hw.
  { intros n l Hn. vcall writes_valid. intros _ c ->. by apply opt_unlatchExclusive_valid. }
  assert (∀ addrs v, valid Opt CNone
    (_ ← reads addrs; _ ← OptimisticLatch.checkOrRestart v; Ret tt) free_post) as Hr.
  { intros addrs v. apply valid_bind, reads_valid. intros _.
    vcall (opt_load_valid (λ x, v =? x)). by intros _ c ->. }
  assert (∀ addrs, valid Opt CNone (optimistic_session (SOptimistic addrs)) free_post) as Hopt.
  { intros addrs. cbn [optimistic_session]. vcall opt_optimisticLatchOrRestart_valid. intros [v|] c ->; [apply Hr|done]. }
  assert (∀ l addrs, valid Opt CNone (optimistic_session (SDowngradeOptimistic l addrs)) free_post) as Hd.
  { intros l addrs. cbn [optimistic_session]. vcall opt_tryLatchExclusive_valid. intros [] c; [|by intros ->].
    intros (n & -> & Hn). vcall writes_valid. intros _ c ->. vcall opt_downgrade_valid; [|done].
    intros v c [_ ->]. apply Hr. }
  assert (∀ l, valid Opt CNone (optimistic_session (SWrite l)) free_post) as Hx.
  { intros l. cbn [optimistic_session]. vcall opt_tryLatchExclusive_valid. intros [] c; [|by intros ->].
    intros (n & -> & Hn). by apply Hw. }
  destruct s as [l|l|addrs|addrs|addrs l|addrs more|l addrs|l addrs];
    [apply (Hx l)|apply (Hx l)|apply (Hopt addrs)|apply (Hopt addrs)| |apply (Hopt addrs)
    |apply (Hd l addrs)|apply (Hd l addrs)].
  cbn [optimistic_session]. vcall opt_optimisticLatchOrRestart_valid. intros [v|] c ->; [|done].
  apply valid_bind, reads_valid. intros _. vcall opt_upgradeToExclusiveLatch_valid.
  intros [[] w] c; cbn [fst snd]; [|by intros ->]. intros (n & -> & Hn & _). by apply Hw.
Qed.

Lemma thread_valid m f ss : (∀ s, valid m CNone (f s) free_post) →
  valid m CNone (thread_of f ss) free_post.
Proof.
  intros Hf. induction ss as [|s ss IH]; [done|]. unfold thread_of. cbn [foldr]. vcall Hf. by intros _ c ->.
Qed.

(** ** Claims *)

(** [C11] Under every interleaving of any number of threads, each performing any
    sequence of latch sessions through the methods of HybridLatch, no [ensure]
    inside a method fails and no mutex is released by a thread that does not
    hold it; a thread that writes the protected data holds the mutex
    exclusively and the version is marked, and no second thread does. *)
Theorem hybrid_latch_safe (pool : list (list session)) (data : gmap nat Z) (c : cfg unit) :
  rtc step (mkCfg (thread_of hybrid_session <$> pool) (sh_init data)) c →
  safe Hyb c.
Proof.
  intros Hr. destruct (inv_init Hyb free_post (thread_of hybrid_session <$> pool) data) as [caps Hi].
  { apply Forall_fmap, Forall_true. intros ss. apply thread_valid, hybrid_session_valid. }
  destruct (inv_reachable Hyb free_post _ _ _ Hi Hr) as [caps' Hi']. by eapply inv_safe.
Qed.

(** Two writers: the first has taken the latch and is about to write. *)
Lemma hybrid_latch_safe_witness : ∃ c,
  rtc step (mkCfg (thread_of hybrid_session <$> [[SWrite [(0%nat, 7)]]; [SWrite [(0%nat, 8)]]]) (sh_init ∅)) c ∧
  about_to_write c 0 ∧ sh_mutex (cf_shared c) = MWriter 0 ∧ isLatched (sh_version (cf_shared c)) = true.
Proof.
  eexists (mkCfg _ (set_version 6 (set_mutex (MWriter 0) (sh_init ∅)))).
  assert (∀ c, rtc step (mkCfg (thread_of hybrid_session <$> [[SWrite [(0%nat, 7)]]; [SWrite [(0%nat, 8)]]]) (sh_init ∅)) c → about_to_write c 0 →
    sh_mutex (cf_shared c) = MWriter 0 ∧ isLatched (sh_version (cf_shared c)) = true) as Hc.
  { intros c Hr Hw. destruct (hybrid_latch_safe [[SWrite [(0%nat, 7)]]; [SWrite [(0%nat, 8)]]] ∅ c Hr) as (_ & H & _).
    destruct (H 0%nat Hw) as [Hl Hm]. split; [exact (Hm eq_refl)|exact Hl]. }
  match goal with |- rtc step ?a ?b ∧ _ => assert (rtc step a b) as Hr end.
  { eapply rtc_l; [eapply (step_thread 0); [reflexivity|by apply AS_lock]|].
    eapply rtc_l; [eapply (step_thread 0); [reflexivity|apply AS_load]|].
    eapply rtc_l; [eapply (step_thread 0); [reflexivity|apply AS_store]|].
    eapply rtc_l; [eapply (step_thread 0); [reflexivity|apply AS_load]|]. apply rtc_refl. }
  split; [exact Hr|]. match goal with |- ?P ∧ _ => assert P as Hw by (by do 3 eexists) end.
  split; [exact Hw|]. apply Hc; [exact Hr|exact Hw].
Defined.

(** The same for OptimisticLatch, whose exclusive mode is taken by a
    compare-exchange on the version and has no mutex: under every interleaving
    no [ensure] fails and at most one thread writes, with the version marked. *)
Theorem optimistic_latch_safe (pool : list (list session)) (data : gmap nat Z) (c : cfg unit) :
  rtc step (mkCfg (thread_of optimistic_session <$> pool) (sh_init data)) c →
  safe Opt c.
Proof.
  intros Hr. destruct (inv_init Opt free_post (thread_of optimistic_session <$> pool) data) as [caps Hi].
  { apply Forall_fmap, Forall_true. intros ss. apply thread_valid, optimistic_session_valid. }
  destruct (inv_reachable Opt free_post _ _ _ Hi Hr) as [caps' Hi']. by eapply inv_safe.
Qed.

Lemma optimistic_latch_safe_witness :
  safe Opt (mkCfg [thread_of optimistic_session [SWrite [(0%nat, 7)]]] (sh_init ∅)).
Proof.
  apply (optimistic_latch_safe [[SWrite [(0%nat, 7)]]] ∅). apply rtc_refl.
Defined.

(** *** An optimistic reader among the threads *)

(** A read of some addresses: [None] when the latch was held or the validation
    failed, and the caller has to restart. *)
Definition optimistic_read (addrs : list nat) : prog (option (list (option Z))) :=
  o ← HybridLatch.optimisticLatchOrRestart;
  match (o : option Z) with
  | None => Ret None
  | Some v =>
      xs ← reads addrs;
      ok ← HybridLatch.optimisticReadUnlatchOrRestart v;
      Ret (if (ok : bool) then Some xs else None)
  end.

(** The reader [t] and the threads of the pool take turns, one action at a
    time. *)
Inductive istep {A B} (t : nat) : prog A * cfg B → prog A * cfg B → Prop :=
| IS_reader p p' ts s s' : astep t p s p' s' → istep t (p, mkCfg ts s) (p', mkCfg ts s')
| IS_pool p c c' : step c c' → istep t (p, c) (p, c').

Section reader.
Context {B : Type} (t : nat).
Implicit Types c : cfg B.

Lemma astep_bind {A A'} (p : prog A') (k : A' → prog A) s q s' : astep t (p ≫= k) s q s' →
  (∃ a, p = Ret a) ∨ ∃ p', astep t p s p' s' ∧ q = p' ≫= k.
Proof. destruct p; intros H; [left; by eexists|inv H..]; right; eexists; (split; [by constructor|done]). Qed.

Lemma Ret_steps {A} (a : A) c q c' : rtc (istep t) (Ret a, c) (q, c') → q = Ret a ∧ rtc step c c'.
Proof.
  intros Hr. remember (Ret a, c) as x eqn:Ex. remember (q, c') as y eqn:Ey. revert c Ex.
  induction Hr as [x|x x1 y Hs _ IH]; intros c Ex; subst; [by simplify_eq|]. destruct x1 as [q1 c1].
  inv Hs as [? ? ? ? ? Ha|? ? ? Hp]; [by inv Ha|]. destruct (IH eq_refl c1 eq_refl) as [-> ?]. split; [done|]. by eapply rtc_l.
Qed.

Lemma bind_steps {A A'} (p : prog A') (k : A' → prog A) c b c' : rtc (istep t) (p ≫= k, c) (Ret b, c') →
  ∃ a c1, rtc (istep t) (p, c) (Ret a, c1) ∧ rtc (istep t) (k a, c1) (Ret b, c').
Proof.
  intros Hr. remember (p ≫= k, c) as x eqn:Ex. remember (Ret b, c') as y eqn:Ey. revert p c Ex.
  induction Hr as [x|x x1 y Hs Hr IH]; intros p c Ex; subst.
  - destruct p; simplify_eq. eexists _, _. split; [apply rtc_refl|]. cbn in *. match goal with E : Ret b = _ |- _ => rewrite <- E end. apply rtc_refl.
  - destruct x1 as [q1 c1]. inv Hs as [? ? ts s s' Ha|? ? ? Hp].
    + destruct (astep_bind p k s q1 s' Ha) as [[a ->]|(p' & Hp & ->)].
      * exists a, (mkCfg ts s). split; [apply rtc_refl|]. eapply rtc_l; [|exact Hr]. by constructor.
      * destruct (IH eq_refl p' _ eq_refl) as (a & c2 & H1 & H2). exists a, c2. split; [|done]. eapply rtc_l; [|exact H1]. by constructor.
    + destruct (IH eq_refl p c1 eq_refl) as (a & c2 & H1 & H2). exists a, c2. split; [|done]. eapply rtc_l; [|exact H1]. by constructor.
Qed.

(** A load sees the version at some point. *)
Lemma load_steps c v c' : rtc (istep t) (load, c) (Ret v, c') → ∃ c1, rtc step c c1 ∧ v = sh_version (cf_shared c1) ∧ rtc step c1 c'.
Proof.
  intros Hr. remember (load, c) as x eqn:Ex. remember (Ret v, c') as y eqn:Ey. revert c Ex.
  induction Hr as [x|x x1 y Hs Hr IH]; intros c Ex; subst; [done|]. destruct x1 as [q1 c1]. inv Hs as [? ? ts s s' Ha|? ? ? Hp].
  - inv Ha. apply Ret_steps in Hr as [[= ->] Hr]. by exists (mkCfg ts s').
  - destruct (IH eq_refl c1 eq_refl) as (c2 & H1 & H2 & H3). exists c2. split; [by eapply rtc_l|done].
Qed.

(** Each address is read at some point. *)
Definition seen c c' (a : nat) (x : option Z) : Prop := ∃ c1, rtc step c c1 ∧ rtc step c1 c' ∧ x = sh_data (cf_shared c1) !! a.

Lemma read_steps {A} a (k : option Z → prog A) c b c' : rtc (istep t) (ReadData a k, c) (Ret b, c') →
  ∃ c1, rtc step c c1 ∧ rtc (istep t) (k (sh_data (cf_shared c1) !! a), c1) (Ret b, c').
Proof.
  intros Hr. remember (ReadData a k, c) as x eqn:Ex. remember (Ret b, c') as y eqn:Ey. revert c Ex.
  induction Hr as [x|x x1 y Hs Hr IH]; intros c Ex; subst; [done|]. destruct x1 as [q1 c1]. inv Hs as [? ? ts s s' Ha|? ? ? Hp].
  - inv Ha. exists (mkCfg ts s'). split; [apply rtc_refl|done].
  - destruct (IH eq_refl c1 eq_refl) as (c2 & H1 & H2). exists c2. split; [by eapply rtc_l|done].
Qed.

Lemma reads_steps addrs c xs c' : rtc (istep t) (reads addrs, c) (Ret xs, c') → rtc step c c' ∧ Forall2 (seen c c') addrs xs.
Proof.
  revert c xs c'. induction addrs as [|a addrs IH]; intros c xs c' Hr; cbn [reads] in Hr.
  - apply Ret_steps in Hr as [[= ->] Hr]. by split.
  - apply read_steps in Hr as (c1 & H1 & Hr). apply bind_steps in Hr as (ys & c2 & H2 & Hr).
    apply Ret_steps in Hr as [[= ->] Hr]. apply IH in H2 as [H2 Hs].
    assert (rtc step c1 c') as H1' by (by etransitivity). split; [by etransitivity|]. constructor; [by exists c1|].
    eapply Forall2_impl; [exact Hs|]. intros b y (c3 & H3 & H4 & ->). exists c3. split; [by etransitivity|]. split; [by etransitivity|done].
Qed.

(** What a read that was validated went through. *)
Lemma optimistic_read_steps addrs c xs c' : rtc (istep t) (optimistic_read addrs, c) (Ret (Some xs), c') →
  ∃ c1 c3, rtc step c c1 ∧ rtc step c1 c3 ∧ rtc step c3 c' ∧ isLatched (sh_version (cf_shared c1)) = false ∧
    sh_version (cf_shared c3) = sh_version (cf_shared c1) ∧ Forall2 (seen c1 c3) addrs xs.
Proof.
  intros Hr. apply bind_steps in Hr as (o & c1 & H1 & Hr).
  apply bind_steps in H1 as (v & c0 & H0 & H1). apply load_steps in H0 as (ca & Ha & -> & Ha').
  destruct (isLatched (sh_version (cf_shared ca))) eqn:El; apply Ret_steps in H1 as [[= ->] H1].
  { by apply Ret_steps in Hr as [? _]. }
  apply bind_steps in Hr as (ys & c2 & H2 & Hr). apply reads_steps in H2 as [H2 Hs].
  apply bind_steps in Hr as (ok & c3 & H3 & Hr). apply Ret_steps in Hr as [Hok Hr].
  apply bind_steps in H3 as (v' & c4 & H4 & H3). apply load_steps in H4 as (cb & Hb & -> & Hb').
  apply Ret_steps in H3 as [[= ->] H3]. destruct (Z.eqb_spec (sh_version (cf_shared ca)) (sh_version (cf_shared cb))) as [E|]; [|done].
  injection Hok as ->. assert (rtc step ca c1) as Hca by (by etransitivity).
  exists ca, cb. split; [done|]. split; [etransitivity; [exact Hca|]; by etransitivity|]. split; [etransitivity; [exact Hb'|]; by etransitivity|].
  split; [done|]. split; [done|]. eapply Forall2_impl; [exact Hs|]. intros a x (cx & Hx1 & Hx2 & ->). exists cx.
  split; [by etransitivity|]. split; [by etransitivity|done].
Qed.
End reader.

(** Between two equal unmarked versions the data does not change and the version
    is never marked. *)
Lemma snapshot (Q : unit → cap → Prop) c1 c2 c3 caps : inv Hyb Q c1 caps → rtc step c1 c2 → rtc step c2 c3 →
  isLatched (sh_version (cf_shared c1)) = false → sh_version (cf_shared c3) = sh_version (cf_shared c1) →
  Z.of_nat (sh_clock (cf_shared c3)) - Z.of_nat (sh_clock (cf_shared c1)) < 2 ^ 63 →
  sh_data (cf_shared c2) = sh_data (cf_shared c1) ∧ sh_version (cf_shared c2) = sh_version (cf_shared c1).
Proof.
  intros Hi1 H12 H23 Hl Hv Hb. destruct (inv_reachable _ _ _ _ _ Hi1 H12) as [caps2 Hi2]. destruct (inv_reachable _ _ _ _ _ Hi2 H23) as [caps3 Hi3].
  destruct (trace_clock _ _ _ _ _ Hi1 H12) as [Hle1 Hd1]. destruct (trace_clock _ _ _ _ _ Hi2 H23) as [Hle2 _].
  rewrite (inv_ver _ _ _ _ Hi1), isLatched_ver in Hl. rewrite (inv_ver _ _ _ _ Hi1), (inv_ver _ _ _ _ Hi3) in Hv.
  assert (sh_clock (cf_shared c1) = sh_clock (cf_shared c3)) as E by (apply ver_inj; [done|lia..]).
  assert (sh_clock (cf_shared c1) = sh_clock (cf_shared c2)) as E' by lia.
  split; [by apply Hd1|]. rewrite (inv_ver _ _ _ _ Hi1), (inv_ver _ _ _ _ Hi2). by rewrite E'.
Qed.

(** [C29] Optimistic reads are consistent.  A thread runs
    [optimisticLatchOrRestart], any number of reads and
    [optimisticReadUnlatchOrRestart], interleaved at every atomic action with any
    pool of threads that use the latch.  If the first call gave a version and
    the validation succeeded, then all values it returns are those of one
    instant during its run, and from that instant to the validation no thread
    had the version marked.  The 64-bit version may wrap around; the validation
    is sound as long as fewer than [2^63] version stores happen meanwhile. *)
Theorem optimistic_read_consistent (pool : list (list session)) (data : gmap nat Z) t addrs xs (c c' : cfg unit) :
  rtc step (mkCfg (thread_of hybrid_session <$> pool) (sh_init data)) c →
  rtc (istep t) (optimistic_read addrs, c) (Ret (Some xs), c') →
  Z.of_nat (sh_clock (cf_shared c')) - Z.of_nat (sh_clock (cf_shared c)) < 2 ^ 63 →
  ∃ c1 c3, rtc step c c1 ∧ rtc step c1 c3 ∧ rtc step c3 c' ∧
    xs = map (λ a, sh_data (cf_shared c1) !! a) addrs ∧
    ∀ c2, rtc step c1 c2 → rtc step c2 c3 → isLatched (sh_version (cf_shared c2)) = false ∧ sh_data (cf_shared c2) = sh_data (cf_shared c1).
Proof.
  intros H0 Hr Hb. destruct (optimistic_read_steps _ _ _ _ _ Hr) as (c1 & c3 & H1 & H2 & H3 & Hl & Hv & Hs).
  destruct (inv_init Hyb free_post (thread_of hybrid_session <$> pool) data) as [caps Hi].
  { apply Forall_fmap, Forall_true. intros ss. apply thread_valid, hybrid_session_valid. }
  destruct (inv_reachable _ _ _ _ _ Hi H0) as [capsc Hc]. destruct (inv_reachable _ _ _ _ _ Hc H1) as [caps1 Hi1].
  destruct (inv_reachable _ _ _ _ _ Hi1 H2) as [caps3 Hi3].
  destruct (trace_clock _ _ _ _ _ Hc H1) as [Hle1 _]. destruct (trace_clock _ _ _ _ _ Hi3 H3) as [Hle3 _].
  assert (∀ c2, rtc step c1 c2 → rtc step c2 c3 → sh_data (cf_shared c2) = sh_data (cf_shared c1) ∧ sh_version (cf_shared c2) = sh_version (cf_shared c1)) as Hsnap.
  { intros c2 H12 H23. eapply snapshot; [exact Hi1|done..|lia]. }
  exists c1, c3. split; [done|]. split; [done|]. split; [done|]. split.
  - clear Hr. induction Hs as [|a x addrs xs (c2 & H12 & H23 & ->) _ IH]; [done|]. cbn. rewrite (proj1 (Hsnap c2 H12 H23)), <- IH. done.
  - intros c2 H12 H23. destruct (Hsnap c2 H12 H23) as [-> ->]. done.
Qed.

(** A writer comes in between the reads: the reader sees address 0, then the
    writer takes the mutex, then the reader sees address 1 and validates; the
    writer has not marked the version yet. *)
Lemma optimistic_read_consistent_witness :
  let p := thread_of hybrid_session [SWrite [(0%nat, 9)]] in
  let s0 := sh_init {[0%nat := 5; 1%nat := 6]} in
  let s1 := set_mutex (MWriter 0) s0 in
  ∃ p1, rtc (istep 1) (optimistic_read [0; 1]%nat, mkCfg [p] s0) (Ret (Some [Some 5; Some 6]), mkCfg [p1] s1) ∧
  ∃ c1 c3, rtc step (mkCfg [p] s0) c1 ∧ rtc step c3 (mkCfg [p1] s1) ∧
    [Some 5; Some 6] = map (λ a, sh_data (cf_shared c1) !! a) [0; 1]%nat ∧ sh_data (cf_shared c3) = sh_data (cf_shared c1).
Proof.
  intros p s0 s1. set (p1 := match p with Lock q => q | q => q end). exists p1.
  assert (rtc (istep 1) (optimistic_read [0; 1]%nat, mkCfg [p] s0) (Ret (Some [Some 5; Some 6]), mkCfg [p1] s1)) as Hr.
  { eapply rtc_l; [apply IS_reader, AS_load|]. eapply rtc_l; [apply IS_reader, AS_read|].
    eapply rtc_l; [apply IS_pool; eapply (step_thread 0 p p1 s0 s1); [reflexivity|by apply AS_lock]|].
    eapply rtc_l; [apply IS_reader, AS_read|]. eapply rtc_l; [apply IS_reader, AS_load|]. apply rtc_refl. }
  split; [exact Hr|].
  destruct (optimistic_read_consistent [[SWrite [(0%nat, 9)]]] {[0%nat := 5; 1%nat := 6]} 1 [0; 1]%nat [Some 5; Some 6] (mkCfg [p] s0) (mkCfg [p1] s1))
    as (c1 & c3 & H1 & H2 & H3 & H4 & H5); [apply rtc_refl|exact Hr|vm_compute; reflexivity|].
  exists c1, c3. split; [exact H1|]. split; [exact H3|]. split; [exact H4|]. apply (H5 c3 H2), rtc_refl.
Defined.

(** When the writer has run between the reads and the validation, the validation
    fails. *)
Example write_invalidates : ∃ s, run 0 (hybrid_session (SWrite [(0%nat, 9)])) (sh_init {[0%nat := 5]}) = Ok (tt, s) ∧
  run 1 (HybridLatch.optimisticReadUnlatchOrRestart (sh_version (sh_init {[0%nat := 5]}))) s = Ok (false, s).
Proof. eexists. split; reflexivity. Qed.

(** An upgrade starts from the snapshot that was validated: when the step
    that marks the version leads to the version an optimistic reader saw plus
    two, which is what [optimisticUpgradeToExclusive] checks, the data the new
    exclusive holder finds is the data of the optimistic read. *)
Theorem upgrade_from_snapshot (pool : list (list session)) (data : gmap nat Z) (c1 c2 c3 : cfg unit) :
  rtc step (mkCfg (thread_of hybrid_session <$> pool) (sh_init data)) c1 →
  rtc step c1 c2 → step c2 c3 →
  isLatched (sh_version (cf_shared c1)) = false →
  sh_clock (cf_shared c3) = S (sh_clock (cf_shared c2)) →
  sh_version (cf_shared c3) = sh_version (cf_shared c1) +₆₄ 2 →
  Z.of_nat (sh_clock (cf_shared c3)) - Z.of_nat (sh_clock (cf_shared c1)) < 2 ^ 63 →
  sh_data (cf_shared c3) = sh_data (cf_shared c1).
Proof.
  intros H01 H12 H23 Hl Hc Hv Hb.
  destruct (inv_init Hyb free_post (thread_of hybrid_session <$> pool) data) as [caps Hi].
  { apply Forall_fmap, Forall_true. intros ss. apply thread_valid, hybrid_session_valid. }
  destruct (inv_reachable _ _ _ _ _ Hi H01) as [caps1 Hi1].
  destruct (inv_reachable _ _ _ _ _ Hi1 H12) as [caps2 Hi2].
  destruct (inv_preserved _ _ _ _ _ Hi2 H23) as [caps3 Hi3].
  destruct (trace_clock _ _ _ _ _ Hi1 H12) as [Hle1 Hd1].
  rewrite (inv_ver _ _ _ _ Hi1), isLatched_ver in Hl.
  rewrite (inv_ver _ _ _ _ Hi1), (inv_ver _ _ _ _ Hi3), ver_S in Hv.
  assert (S (sh_clock (cf_shared c1)) = sh_clock (cf_shared c3)) as E by (apply ver_inj; [done|lia..]).
  destruct (step_clock _ _ _ _ _ Hi2 H23) as [[E' _]|[_ Hd]]; [lia|].
  rewrite Hd. apply Hd1; [lia|done].
Qed.

Lemma upgrade_from_snapshot_witness :
  let p := thread_of hybrid_session [SWrite [(0%nat, 9)]] in
  let s0 := sh_init {[0%nat := 5]} in
  let s1 := set_mutex (MWriter 0) s0 in
  let p1 := match p with Lock (Load k) => k 4 | q => q end in
  let p2 := match p1 with Store _ q => q | q => q end in
  sh_data (set_version 6 s1) = sh_data s0.
Proof.
  intros p s0 s1 p1 p2.
  refine (upgrade_from_snapshot [[SWrite [(0%nat, 9)]]] {[0%nat := 5]}
    (mkCfg [p] s0) (mkCfg [p1] s1) (mkCfg [p2] (set_version 6 s1)) _ _ _ _ _ _ _);
    try reflexivity.
  - eapply rtc_l; [eapply (step_thread 0 p _ s0); [done|by apply AS_lock]|].
    eapply rtc_l; [eapply (step_thread 0); [done|apply AS_load]|]. apply rtc_refl.
  - by refine (step_thread 0 p1 p2 s1 _ [p1] _ (AS_store _ _ _ _)).
Defined.
