(* ===== verification/BTreeNode.v ===== *)
(** * storage/datastructures/BTree.hpp: the nodes

    Leaves and inner nodes with their fixed-size arrays, of which only a prefix
    is in use, and the operations on one node: the three binary searches,
    insertion, removal and the two splits.  Keys are compared with the integer
    order.  [count] is a [uint16_t] that the guards keep below the array size;
    positions and counts are [nat].  The array contents of a freshly allocated
    page are whatever the page held before: they are variables of the model. *)

From S2P Require Import Prelude Defs.
Local Open Scope Z_scope.

(** ** memmove and memcpy on arrays *)

Section arrays.
Context {A : Type}.

Definition memmove (l : list A) (dst src n : nat) : result (list A) :=
  if decide (dst + n ≤ length l ∧ src + n ≤ length l)%nat
  then Ok (take dst l ++ take n (drop src l) ++ drop (dst + n) l)
  else Throw UndefinedBehaviour.

Definition memcpy (d : list A) (dst : nat) (s : list A) (src n : nat) : result (list A) :=
  if decide (dst + n ≤ length d ∧ src + n ≤ length s)%nat
  then Ok (take dst d ++ take n (drop src s) ++ drop (dst + n) d)
  else Throw UndefinedBehaviour.

End arrays.

(** ** The three searches *)

(** [lowerBound] of leaves and inner nodes: a do-while loop, whose first
    iteration reads [keys[0]] also when the node is empty. *)
Fixpoint lowerBound_loop (fuel : nat) (keys : list Z) (k : Z) (lower upper : nat) : result nat :=
  match fuel with
  | O => Throw OutOfFuel
  | S fuel =>
      let mid := ((upper - lower) / 2 + lower)%nat in
      x ← arr_get keys mid;
      if k <? x then
        if decide (lower < mid)%nat then lowerBound_loop fuel keys k lower mid else Ok lower
      else if x <? k then
        if decide (mid + 1 < upper)%nat then lowerBound_loop fuel keys k (mid + 1) upper
        else Ok (mid + 1)%nat
      else Ok mid
  end.
Definition lowerBound (keys : list Z) (count : nat) (k : Z) : result nat :=
  lowerBound_loop (S count) keys k 0 count.

(** [upperBound] of inner nodes; its third branch is unreachable. *)
Fixpoint upperBound_loop (fuel : nat) (keys : list Z) (k : Z) (lower upper : nat) : result nat :=
  match fuel with
  | O => Throw OutOfFuel
  | S fuel =>
      let mid := ((upper - lower) / 2 + lower)%nat in
      x ← arr_get keys mid;
      if k <? x then
        if decide (lower < mid)%nat then upperBound_loop fuel keys k lower mid else Ok lower
      else if x <=? k then
        if decide (mid + 1 < upper)%nat then upperBound_loop fuel keys k (mid + 1) upper
        else Ok (mid + 1)%nat
      else Ok mid
  end.
Definition upperBound (keys : list Z) (count : nat) (k : Z) : result nat :=
  upperBound_loop (S count) keys k 0 count.

(** The branch-free search; [base] is the offset of the pointer into [keys]. *)
Fixpoint lowerBoundBF_loop (fuel : nat) (keys : list Z) (k : Z) (base n : nat) : result nat :=
  match fuel with
  | O => Throw OutOfFuel
  | S fuel =>
      if decide (1 < n)%nat then
        let half := (n / 2)%nat in
        x ← arr_get keys (base + half);
        lowerBoundBF_loop fuel keys k (if (x <? k)%Z then base + half else base)%nat (n - half)
      else
        x ← arr_get keys base;
        Ok ((if (x <? k)%Z then 1 else 0) + base)%nat
  end.
Definition lowerBoundBF (keys : list Z) (count : nat) (k : Z) : result nat :=
  lowerBoundBF_loop (S count) keys k 0 count.

(** ** Fence keys *)

Record FenceKey := mkFence { isInfinity : bool; fkey : Z }.
Definition infinity : FenceKey := mkFence true 0.

(** ** Leaves *)

Section leaf.
Context {V : Type}.
(** [maxEntries], and the contents of a fresh page. *)
Variables (leafMax : nat) (junkK : list Z) (junkV : list V).

Record BTreeLeaf := mkLeaf {
  lf_count : nat;
  lf_lower : FenceKey;
  lf_upper : FenceKey;
  lf_keys : list Z;
  lf_payloads : list V;
}.

Definition leaf_new : BTreeLeaf := mkLeaf 0 infinity infinity junkK junkV.
Definition leaf_isFull (lf : BTreeLeaf) : bool := bool_decide (lf_count lf = leafMax).
Definition leaf_underflowSize : nat := (leafMax / 4)%nat.
Definition leaf_isUnderflow (lf : BTreeLeaf) : bool := bool_decide (lf_count lf ≤ leaf_underflowSize)%nat.
Definition leaf_setFences (lower upper : FenceKey) (lf : BTreeLeaf) : BTreeLeaf :=
  mkLeaf (lf_count lf) lower upper (lf_keys lf) (lf_payloads lf).
Definition leaf_lowerBound (lf : BTreeLeaf) (k : Z) : result nat :=
  lowerBound (lf_keys lf) (lf_count lf) k.
Definition leaf_lowerBoundBF (lf : BTreeLeaf) (k : Z) : result nat :=
  lowerBoundBF (lf_keys lf) (lf_count lf) k.

(** [(pos < count) && (keys[pos] == k)] *)
Definition leaf_hit (lf : BTreeLeaf) (pos : nat) (k : Z) : result bool :=
  if decide (pos < lf_count lf)%nat then x ← arr_get (lf_keys lf) pos; Ok (x =? k) else Ok false.

Definition leaf_remove (k : Z) (lf : BTreeLeaf) : result (bool * BTreeLeaf) :=
  let count := lf_count lf in
  if decide (count = 0%nat) then Ok (false, lf)
  else
    pos ← leaf_lowerBound lf k;
    hit ← leaf_hit lf pos k;
    if (hit : bool) then
      keys ← memmove (lf_keys lf) pos (pos + 1) (count - (pos + 1));
      payloads ← memmove (lf_payloads lf) pos (pos + 1) (count - (pos + 1));
      Ok (true, mkLeaf (count - 1) (lf_lower lf) (lf_upper lf) keys payloads)
    else Ok (false, lf).

Definition leaf_insert (k : Z) (p : V) (lf : BTreeLeaf) : result BTreeLeaf :=
  let count := lf_count lf in
  if decide (count = 0%nat) then
    keys ← arr_set (lf_keys lf) 0 k;
    payloads ← arr_set (lf_payloads lf) 0 p;
    Ok (mkLeaf (count + 1) (lf_lower lf) (lf_upper lf) keys payloads)
  else
    pos ← leaf_lowerBound lf k;
    hit ← leaf_hit lf pos k;
    if (hit : bool) then
      payloads ← arr_set (lf_payloads lf) pos p;
      Ok (mkLeaf count (lf_lower lf) (lf_upper lf) (lf_keys lf) payloads)
    else
      keys ← memmove (lf_keys lf) (pos + 1) pos (count - pos);
      payloads ← memmove (lf_payloads lf) (pos + 1) pos (count - pos);
      keys ← arr_set keys pos k;
      payloads ← arr_set payloads pos p;
      Ok (mkLeaf (count + 1) (lf_lower lf) (lf_upper lf) keys payloads).

(** Returns the separator, this leaf and the new leaf. *)
Definition leaf_split (lf : BTreeLeaf) : result (Z * BTreeLeaf * BTreeLeaf) :=
  _ ← ensure (bool_decide (lf_count lf = leafMax));
  let newLeaf := leaf_new in
  let newCount := (lf_count lf - lf_count lf / 2)%nat in
  let count := (lf_count lf - newCount)%nat in
  nkeys ← memcpy (lf_keys newLeaf) 0 (lf_keys lf) count newCount;
  npayloads ← memcpy (lf_payloads newLeaf) 0 (lf_payloads lf) count newCount;
  sep ← arr_get (lf_keys lf) (count - 1);
  Ok (sep,
      mkLeaf count (lf_lower lf) (mkFence false sep) (lf_keys lf) (lf_payloads lf),
      mkLeaf newCount (mkFence false sep) (lf_upper lf) nkeys npayloads).

(** The part of [BTree::remove] that moves the entries of the right sibling. *)
Definition leaf_absorb (right lf : BTreeLeaf) : result BTreeLeaf :=
  let lf := leaf_setFences (lf_lower lf) (lf_upper right) lf in
  keys ← memcpy (lf_keys lf) (lf_count lf) (lf_keys right) 0 (lf_count right);
  payloads ← memcpy (lf_payloads lf) (lf_count lf) (lf_payloads right) 0 (lf_count right);
  Ok (mkLeaf (lf_count lf + lf_count right) (lf_lower lf) (lf_upper lf) keys payloads).

(** The entries in use. *)
Definition leaf_keys (lf : BTreeLeaf) : list Z := take (lf_count lf) (lf_keys lf).
Definition leaf_entries (lf : BTreeLeaf) : list (Z * V) :=
  zip (leaf_keys lf) (take (lf_count lf) (lf_payloads lf)).

Definition leaf_wf (lf : BTreeLeaf) : Prop :=
  length (lf_keys lf) = leafMax ∧ length (lf_payloads lf) = leafMax ∧
  (lf_count lf ≤ leafMax)%nat ∧ StronglySorted Z.lt (leaf_keys lf).

End leaf.
Arguments BTreeLeaf : clear implicits.

(** ** Inner nodes *)

Section inner.
Variables (innerMax : nat) (junkK junkP : list Z).

Record BTreeInner := mkInner {
  in_count : nat;
  in_lower : FenceKey;
  in_upper : FenceKey;
  in_keys : list Z;
  in_children : list PID;
}.

Definition inner_new : BTreeInner := mkInner 0 infinity infinity junkK junkP.
Definition inner_isFull (nd : BTreeInner) : bool := bool_decide (in_count nd = innerMax - 1)%nat.
Definition inner_lowerBound (nd : BTreeInner) (k : Z) : result nat :=
  lowerBound (in_keys nd) (in_count nd) k.
Definition inner_lowerBoundBF (nd : BTreeInner) (k : Z) : result nat :=
  lowerBoundBF (in_keys nd) (in_count nd) k.
Definition inner_upperBound (nd : BTreeInner) (k : Z) : result nat :=
  upperBound (in_keys nd) (in_count nd) k.

(** Returns the separator, this node and the new node; one key beyond the used
    ones is copied along. *)
Definition inner_split (nd : BTreeInner) : result (Z * BTreeInner * BTreeInner) :=
  let newInner := inner_new in
  let newCount := (in_count nd - in_count nd / 2)%nat in
  let count := (in_count nd - newCount - 1)%nat in
  sep ← arr_get (in_keys nd) count;
  nkeys ← memcpy (in_keys newInner) 0 (in_keys nd) (count + 1) (newCount + 1);
  nchildren ← memcpy (in_children newInner) 0 (in_children nd) (count + 1) (newCount + 1);
  Ok (sep,
      mkInner count (in_lower nd) (mkFence false sep) (in_keys nd) (in_children nd),
      mkInner newCount (mkFence false sep) (in_upper nd) nkeys nchildren).

Definition inner_insert (k : Z) (child : PID) (nd : BTreeInner) : result BTreeInner :=
  let count := in_count nd in
  _ ← ensure (bool_decide (count < innerMax - 1)%nat);
  pos ← inner_lowerBound nd k;
  keys ← memmove (in_keys nd) (pos + 1) pos (count - pos + 1);
  children ← memmove (in_children nd) (pos + 1) pos (count - pos + 1);
  keys ← arr_set keys pos k;
  children ← arr_set children pos child;
  a ← arr_get children pos;
  b ← arr_get children (pos + 1);
  children ← arr_set children pos b;
  children ← arr_set children (pos + 1) a;
  Ok (mkInner (count + 1) (in_lower nd) (in_upper nd) keys children).

(** The element count of the second [memmove], [count - (pos + 2) + 1], is
    computed on unsigned numbers and is [count + 1 - (pos + 2)]. *)
Definition inner_remove (pos : nat) (nd : BTreeInner) : result (bool * BTreeInner) :=
  let count := in_count nd in
  if decide (count = 0%nat) then Ok (false, nd)
  else if decide (pos < count)%nat then
    keys ← memmove (in_keys nd) pos (pos + 1) (count - (pos + 1));
    children ← memmove (in_children nd) (pos + 1) (pos + 2) (count + 1 - (pos + 2));
    Ok (true, mkInner (count - 1) (in_lower nd) (in_upper nd) keys children)
  else Ok (false, nd).

(** The keys and children in use. *)
Definition inner_keys (nd : BTreeInner) : list Z := take (in_count nd) (in_keys nd).
Definition inner_children (nd : BTreeInner) : list PID := take (S (in_count nd)) (in_children nd).

Definition inner_wf (nd : BTreeInner) : Prop :=
  length (in_keys nd) = innerMax ∧ length (in_children nd) = innerMax ∧
  (1 ≤ in_count nd ≤ innerMax - 1)%nat ∧ StronglySorted Z.lt (inner_keys nd).

End inner.

(** ** Sorted key sequences *)

(** The number of keys below [k], and of keys at most [k]. *)
Definition rank (k : Z) (ks : list Z) : nat := length (filter (λ x, x < k) ks).
Definition rank_le (k : Z) (ks : list Z) : nat := length (filter (λ x, x <= k) ks).

Section rank.
Implicit Types ks : list Z.

Lemma filter_take_prefix {A} (P : A → Prop) `{!∀ x, Decision (P x)} (ks : list A) :
  (∀ i j x y, ks !! i = Some x → ks !! j = Some y → (i < j)%nat → P y → P x) →
  filter P ks = take (length (filter P ks)) ks.
Proof.
  induction ks as [|x ks IH]; intros Hm; [done|].
  rewrite filter_cons. case_decide as Hx; simpl.
  - f_equal. apply IH. intros i j y z Hi Hj Hlt. apply (Hm (S i) (S j)); [done..|lia].
  - rewrite filter_none; [done|]. intros y [j Hj]%list_elem_of_lookup Hy.
    apply Hx, (Hm 0%nat (S j) x y); [done..|lia|done].
Qed.

(** The elements outside a prefix-closed predicate are the rest of the list. *)
Lemma filter_drop_suffix {A} (P Q : A → Prop) `{!∀ x, Decision (P x)} `{!∀ x, Decision (Q x)} (ks : list A) :
  (∀ x, Q x ↔ ¬ P x) →
  (∀ i j x y, ks !! i = Some x → ks !! j = Some y → (i < j)%nat → P y → P x) →
  filter Q ks = drop (length (filter P ks)) ks.
Proof.
  intros HQ. induction ks as [|x ks IH]; intros Hm; [done|].
  assert (∀ i j y z, ks !! i = Some y → ks !! j = Some z → (i < j)%nat → P z → P y) as Hm'.
  { intros i j y z Hi Hj Hlt. apply (Hm (S i) (S j)); [done..|lia]. }
  rewrite !filter_cons. destruct (decide (P x)) as [Hx|Hx].
  - rewrite decide_False by (by rewrite HQ; intros []). simpl. by apply IH.
  - rewrite decide_True by (by apply HQ). rewrite (filter_none P ks); simpl.
    + f_equal. apply filter_all, Forall_lookup. intros j y Hj. apply HQ. intros Hy.
      apply Hx, (Hm 0%nat (S j) x y); [done..|lia|done].
    + intros y [j Hj]%list_elem_of_lookup Hy. apply Hx, (Hm 0%nat (S j) x y); [done..|lia|done].
Qed.

Lemma sorted_mono (P : Z → Prop) ks : StronglySorted Z.lt ks → (∀ x y, x < y → P y → P x) →
  ∀ i j x y, ks !! i = Some x → ks !! j = Some y → (i < j)%nat → P y → P x.
Proof. intros Hs HP i j x y Hi Hj Hlt. apply HP. by eapply ssorted_lookup_lt. Qed.

Lemma filter_lt_take ks k : StronglySorted Z.lt ks → filter (λ x, x < k) ks = take (rank k ks) ks.
Proof. intros Hs. apply filter_take_prefix, sorted_mono; [done|lia]. Qed.

Lemma rank_length k ks : (rank k ks ≤ length ks)%nat.
Proof. apply length_filter. Qed.

(** A position that separates the keys below [k] from the others is the rank. *)
Lemma count_unique (P : Z → Prop) `{!∀ x, Decision (P x)} ks r : (r ≤ length ks)%nat →
  (∀ i x, ks !! i = Some x → P x ↔ (i < r)%nat) → length (filter P ks) = r.
Proof.
  intros Hr HP. rewrite <- (take_drop r ks), filter_app, length_app.
  rewrite (filter_none P (drop r ks)), Nat.add_0_r.
  - assert (filter P (take r ks) = take r ks) as ->; [|rewrite length_take; lia].
    apply filter_all. apply Forall_lookup. intros i x Hx.
    apply lookup_take_Some in Hx as [Hx ?]. by apply (HP i x).
  - intros x [i Hi]%list_elem_of_lookup Hx. rewrite lookup_drop in Hi.
    apply (HP _ _ Hi) in Hx. lia.
Qed.

Lemma rank_spec k ks i x : StronglySorted Z.lt ks → ks !! i = Some x → x < k ↔ (i < rank k ks)%nat.
Proof.
  intros Hs Hi. pose proof (filter_lt_take ks k Hs) as Hf. split.
  - intros Hx. destruct (decide (i < rank k ks)%nat) as [|Hge]; [done|exfalso].
    assert (x ∈ filter (λ y, y < k) ks) as Hin.
    { apply list_elem_of_filter. split; [done|]. by eapply list_elem_of_lookup_2. }
    rewrite Hf in Hin. apply list_elem_of_lookup in Hin as [j Hj].
    apply lookup_take_Some in Hj as [Hj ?].
    assert (j < i)%nat by lia. pose proof (ssorted_lookup_lt _ _ _ _ _ _ Hs Hj Hi ltac:(done)). lia.
  - intros Hlt. assert (x ∈ filter (λ y, y < k) ks) as Hin.
    { rewrite Hf. apply (list_elem_of_lookup_2 _ i). rewrite lookup_take_lt; [done|lia]. }
    by apply list_elem_of_filter in Hin as [? _].
Qed.

Lemma rank_le_spec k ks i x :
  StronglySorted Z.lt ks → ks !! i = Some x → x <= k ↔ (i < rank_le k ks)%nat.
Proof.
  assert (rank_le k ks = rank (k + 1) ks) as ->.
  { unfold rank_le, rank. f_equal. apply filter_ext_in. intros; lia. }
  intros Hs Hi. rewrite <- (rank_spec (k + 1) ks i x) by done. lia.
Qed.

Lemma sorted_insert k ks : StronglySorted Z.lt ks → k ∉ ks →
  StronglySorted Z.lt (take (rank k ks) ks ++ k :: drop (rank k ks) ks).
Proof.
  intros Hs Hni. pose proof Hs as Hs0. rewrite <- (take_drop (rank k ks) ks) in Hs0.
  apply StronglySorted_app in Hs0 as (Hlt & Hs1 & Hs2).
  assert (∀ x, x ∈ take (rank k ks) ks → x < k) as H1.
  { intros x. rewrite <- filter_lt_take by done. by intros [? _]%list_elem_of_filter. }
  assert (Forall (λ x, k < x) (drop (rank k ks) ks)) as H2.
  { apply Forall_lookup. intros i x Hx. rewrite lookup_drop in Hx.
    pose proof (rank_spec k ks _ x Hs Hx). assert (x ≠ k); [|lia].
    intros ->. apply Hni. by eapply list_elem_of_lookup_2. }
  apply StronglySorted_app_2; [|done|by constructor].
  intros x y Hx [->|Hy]%elem_of_cons; [auto|]. eapply Forall_forall in H2; [|done].
  specialize (H1 x Hx). lia.
Qed.

Lemma rank_hit k ks i : StronglySorted Z.lt ks → ks !! i = Some k → rank k ks = i.
Proof.
  intros Hs Hi. apply count_unique; [apply lookup_lt_Some in Hi; lia|].
  intros j x Hj. destruct (Nat.lt_trichotomy i j) as [Hlt|[<-|Hlt]].
  - pose proof (ssorted_lookup_lt _ _ _ _ _ _ Hs Hi Hj Hlt). lia.
  - simplify_eq. lia.
  - pose proof (ssorted_lookup_lt _ _ _ _ _ _ Hs Hj Hi Hlt). lia.
Qed.

End rank.

(** ** The searches find the rank *)

Section search.
Variables (arr : list Z) (count : nat) (k : Z).
Hypothesis Hcount : (1 ≤ count ≤ length arr)%nat.
Let ks := take count arr.
Hypothesis Hs : StronglySorted Z.lt ks.

Lemma search_read mid : (mid < count)%nat → ∃ x, arr_get arr mid = Ok x ∧ ks !! mid = Some x.
Proof.
  intros Hm. destruct (lookup_lt_is_Some_2 arr mid) as [x Hx]; [lia|].
  exists x. split; [by apply arr_get_lookup|]. unfold ks. by rewrite lookup_take_lt.
Qed.

Lemma mid_bounds lower upper : (lower < upper)%nat →
  (lower ≤ (upper - lower) / 2 + lower < upper)%nat.
Proof.
  intros. pose proof (Nat.div_lt (upper - lower) 2 ltac:(lia) ltac:(lia)). lia.
Qed.

Lemma lowerBound_loop_ok fuel lower upper :
  (lower < upper ≤ count)%nat → (upper - lower ≤ fuel)%nat → (lower ≤ rank k ks ≤ upper)%nat →
  lowerBound_loop fuel arr k lower upper = Ok (rank k ks).
Proof.
  revert lower upper. induction fuel as [|fuel IH]; intros lower upper Hlu Hf Hr; [lia|]. cbn [lowerBound_loop].
  pose proof (mid_bounds lower upper ltac:(lia)) as Hm.
  set (mid := ((upper - lower) / 2 + lower)%nat) in *.
  destruct (search_read mid) as (x & -> & Hx); [lia|]. cbn [mbind result_bind].
  pose proof (rank_spec k ks mid x Hs Hx) as Hrs.
  destruct (Z.ltb_spec k x); [|destruct (Z.ltb_spec x k)].
  - case_decide; [apply IH; lia|]. f_equal. lia.
  - case_decide; [apply IH; lia|]. f_equal. lia.
  - assert (x = k) as -> by lia. by rewrite (rank_hit k ks mid).
Qed.

Lemma upperBound_loop_ok fuel lower upper :
  (lower < upper ≤ count)%nat → (upper - lower ≤ fuel)%nat → (lower ≤ rank_le k ks ≤ upper)%nat →
  upperBound_loop fuel arr k lower upper = Ok (rank_le k ks).
Proof.
  revert lower upper. induction fuel as [|fuel IH]; intros lower upper Hlu Hf Hr; [lia|]. cbn [upperBound_loop].
  pose proof (mid_bounds lower upper ltac:(lia)) as Hm.
  set (mid := ((upper - lower) / 2 + lower)%nat) in *.
  destruct (search_read mid) as (x & -> & Hx); [lia|]. cbn [mbind result_bind].
  pose proof (rank_le_spec k ks mid x Hs Hx) as Hrs.
  destruct (Z.ltb_spec k x); [|destruct (Z.leb_spec x k); [|lia]];
    (case_decide; [apply IH; lia|]); f_equal; lia.
Qed.

Lemma lowerBoundBF_loop_ok fuel base n :
  (1 ≤ n)%nat → (base + n ≤ count)%nat → (n ≤ fuel)%nat → (base ≤ rank k ks ≤ base + n)%nat →
  lowerBoundBF_loop fuel arr k base n = Ok (rank k ks).
Proof.
  revert base n. induction fuel as [|fuel IH]; intros base n Hn Hb Hf Hr; [lia|]. cbn [lowerBoundBF_loop].
  case_decide as H1.
  - pose proof (Nat.div_lt n 2 ltac:(lia) ltac:(lia)).
    pose proof (Nat.div_str_pos n 2 ltac:(lia)). pose proof (Nat.Div0.mul_div_le n 2).
    set (half := (n / 2)%nat) in *.
    destruct (search_read (base + half)) as (x & -> & Hx); [lia|]. cbn [mbind result_bind].
    pose proof (rank_spec k ks _ x Hs Hx) as Hrs.
    destruct (Z.ltb_spec x k); apply IH; lia.
  - destruct (search_read base) as (x & -> & Hx); [lia|]. cbn [mbind result_bind].
    pose proof (rank_spec k ks _ x Hs Hx) as Hrs.
    destruct (Z.ltb_spec x k); f_equal; lia.
Qed.

Lemma length_ks : length ks = count.
Proof. unfold ks. rewrite length_take. lia. Qed.

Lemma lowerBound_rank : lowerBound arr count k = Ok (rank k ks).
Proof.
  pose proof (rank_length k ks). pose proof length_ks. apply lowerBound_loop_ok; lia.
Qed.

Lemma lowerBoundBF_rank : lowerBoundBF arr count k = Ok (rank k ks).
Proof.
  pose proof (rank_length k ks). pose proof length_ks. apply lowerBoundBF_loop_ok; lia.
Qed.

Lemma upperBound_rank : upperBound arr count k = Ok (rank_le k ks).
Proof.
  assert (rank_le k ks ≤ length ks)%nat by apply length_filter. pose proof length_ks.
  apply upperBound_loop_ok; lia.
Qed.

End search.

(** ** Specification: sorted association lists *)

Section alist.
Context {V : Type}.
Implicit Types (es : list (Z * V)).

Definition al_sorted es : Prop := StronglySorted Z.lt es.*1.
Definition al_insert (k : Z) (v : V) es : list (Z * V) :=
  filter (λ e, e.1 < k) es ++ (k, v) :: filter (λ e, k < e.1) es.
Definition al_remove (k : Z) es : list (Z * V) :=
  filter (λ e, e.1 < k) es ++ filter (λ e, k < e.1) es.

Lemma fst_filter_length (P : Z → Prop) `{!∀ x, Decision (P x)} es :
  length (filter (λ e, P e.1) es) = length (filter P es.*1).
Proof.
  induction es as [|e es IH]; [done|]. csimpl. rewrite !filter_cons.
  case_decide; simpl; by rewrite IH.
Qed.

Lemma al_prefix (P : Z → Prop) es : al_sorted es → (∀ x y, x < y → P y → P x) →
  ∀ i j x y, es !! i = Some x → es !! j = Some y → (i < j)%nat → P y.1 → P x.1.
Proof.
  intros Hs HP i j x y Hi Hj Hlt. apply HP.
  eapply (ssorted_lookup_lt _ _ i j); [exact Hs| | |done]; rewrite list_lookup_fmap.
  - by rewrite Hi.
  - by rewrite Hj.
Qed.

Lemma al_below k es : al_sorted es → filter (λ e, e.1 < k) es = take (rank k es.*1) es.
Proof.
  intros Hs. unfold rank. rewrite <- (fst_filter_length (λ x, x < k)).
  apply filter_take_prefix. apply (al_prefix (λ x, x < k)); [done|lia].
Qed.

Lemma al_above k es : al_sorted es → filter (λ e, k < e.1) es = drop (rank_le k es.*1) es.
Proof.
  intros Hs. unfold rank_le. rewrite <- (fst_filter_length (λ x, x <= k)).
  apply filter_drop_suffix; [intros; lia|]. apply (al_prefix (λ x, x <= k)); [done|lia].
Qed.

Lemma rank_le_hit k ks i : StronglySorted Z.lt ks → ks !! i = Some k → rank_le k ks = S i.
Proof.
  intros Hs Hi. apply count_unique; [by apply lookup_lt_Some in Hi|].
  intros j x Hj. destruct (Nat.lt_trichotomy i j) as [Hlt|[<-|Hlt]].
  - pose proof (ssorted_lookup_lt _ _ _ _ _ _ Hs Hi Hj Hlt). lia.
  - simplify_eq. lia.
  - pose proof (ssorted_lookup_lt _ _ _ _ _ _ Hs Hj Hi Hlt). lia.
Qed.

Lemma rank_le_miss k ks : k ∉ ks → rank_le k ks = rank k ks.
Proof.
  intros Hk. unfold rank_le, rank. f_equal. apply filter_ext_in. intros x Hx.
  assert (x ≠ k) by congruence. lia.
Qed.

(** A key is at its rank, or nowhere. *)
Lemma rank_elem k ks : StronglySorted Z.lt ks → k ∈ ks ↔ ks !! rank k ks = Some k.
Proof.
  intros Hs. split; [|apply list_elem_of_lookup_2].
  intros [i Hi]%list_elem_of_lookup. by rewrite (rank_hit k ks i).
Qed.

Lemma al_insert_hit k v es i : al_sorted es → es.*1 !! i = Some k →
  al_insert k v es = <[i := (k, v)]> es.
Proof.
  intros Hs Hi. unfold al_insert. rewrite al_below, al_above by done.
  rewrite (rank_hit k _ i), (rank_le_hit k _ i) by done.
  symmetry. apply insert_take_drop. rewrite <- (length_fmap fst). by apply lookup_lt_Some in Hi.
Qed.

Lemma al_insert_miss k v es : al_sorted es → k ∉ es.*1 →
  al_insert k v es = take (rank k es.*1) es ++ (k, v) :: drop (rank k es.*1) es.
Proof. intros Hs Hk. unfold al_insert. by rewrite al_below, al_above, rank_le_miss. Qed.

Lemma al_remove_hit k es i : al_sorted es → es.*1 !! i = Some k →
  al_remove k es = take i es ++ drop (S i) es.
Proof.
  intros Hs Hi. unfold al_remove. rewrite al_below, al_above by done.
  by rewrite (rank_hit k _ i), (rank_le_hit k _ i).
Qed.

(** Entries on either side of the key stay where they are. *)
Lemma al_middle k es1 es es2 : (∀ e, e ∈ es1 → e.1 < k) → (∀ e, e ∈ es2 → k < e.1) →
  filter (λ e, e.1 < k) (es1 ++ es ++ es2) = es1 ++ filter (λ e, e.1 < k) es ∧
  filter (λ e, k < e.1) (es1 ++ es ++ es2) = filter (λ e, k < e.1) es ++ es2.
Proof.
  intros H1 H2. rewrite !filter_app. split.
  - rewrite (filter_all _ es1), (filter_none _ es2), app_nil_r; [done|..].
    + intros e He. specialize (H2 e He). lia.
    + by apply Forall_forall.
  - rewrite (filter_none _ es1), (filter_all _ es2); [done|..].
    + by apply Forall_forall.
    + intros e He. specialize (H1 e He). lia.
Qed.

Lemma al_insert_middle k v es1 es es2 : (∀ e, e ∈ es1 → e.1 < k) → (∀ e, e ∈ es2 → k < e.1) →
  al_insert k v (es1 ++ es ++ es2) = es1 ++ al_insert k v es ++ es2.
Proof.
  intros H1 H2. unfold al_insert. destruct (al_middle k es1 es es2 H1 H2) as [-> ->].
  by rewrite <- !app_assoc.
Qed.

Lemma al_remove_middle k es1 es es2 : (∀ e, e ∈ es1 → e.1 < k) → (∀ e, e ∈ es2 → k < e.1) →
  al_remove k (es1 ++ es ++ es2) = es1 ++ al_remove k es ++ es2.
Proof.
  intros H1 H2. unfold al_remove. destruct (al_middle k es1 es es2 H1 H2) as [-> ->].
  by rewrite <- !app_assoc.
Qed.

Lemma al_remove_miss k es : al_sorted es → k ∉ es.*1 → al_remove k es = es.
Proof.
  intros Hs Hk. unfold al_remove. rewrite al_below, al_above, rank_le_miss by done. apply take_drop.
Qed.

End alist.

(** ** Array lemmas: shifting the used prefix *)

Section array_lemmas.
Context {A : Type}.
Implicit Types (l : list A).

Lemma memmove_ok l dst src n : (dst + n ≤ length l)%nat → (src + n ≤ length l)%nat →
  memmove l dst src n = Ok (take dst l ++ take n (drop src l) ++ drop (dst + n) l).
Proof. intros. unfold memmove. by rewrite decide_True. Qed.

Lemma memcpy_ok (d s : list A) dst src n : (dst + n ≤ length d)%nat → (src + n ≤ length s)%nat →
  memcpy d dst s src n = Ok (take dst d ++ take n (drop src s) ++ drop (dst + n) d).
Proof. intros. unfold memcpy. by rewrite decide_True. Qed.

(** Opening a gap at [pos] in the first [count] elements ([extra] more are
    moved along) and filling it. *)
Lemma shift_insert l pos count extra x :
  (pos ≤ count)%nat → (count + extra < length l)%nat →
  ∃ l1 l2, memmove l (pos + 1) pos (count - pos + extra) = Ok l1 ∧ arr_set l1 pos x = Ok l2 ∧
    length l1 = length l ∧ length l2 = length l ∧
    take (S count) l2 = take pos (take count l) ++ x :: drop pos (take count l) ∧
    l2 = take pos l ++ x :: take (count - pos + extra) (drop pos l) ++ drop (count + extra + 1) l.
Proof.
  intros Hp Hc. eexists _, _. rewrite memmove_ok by lia. split; [done|].
  assert (∀ l', length (take (pos + 1) l ++ l') = (pos + 1 + length l')%nat) as Hlen.
  { intros. rewrite length_app, length_take. lia. }
  rewrite arr_set_lt by (rewrite Hlen; lia). split; [done|].
  rewrite length_insert, Hlen, length_app, length_take, !length_drop.
  split; [lia|]. split; [lia|].
  destruct (lookup_lt_is_Some_2 l pos) as [y Hy]; [lia|].
  rewrite Nat.add_1_r, (take_S_r l pos y) by done. rewrite <- !app_assoc.
  rewrite insert_app_r_alt by (rewrite length_take; lia).
  rewrite length_take. replace (pos - pos `min` length l)%nat with 0%nat by lia. simpl.
  replace (S (pos + (count - pos + extra)))%nat with (count + extra + 1)%nat by lia.
  split; [|done].
  rewrite take_app, take_take, length_take.
  replace (S count `min` pos)%nat with pos by lia.
  replace (S count - pos `min` length l)%nat with (S (count - pos)) by lia. cbn [take].
  rewrite take_app, take_take, length_take, length_drop, take_take.
  replace (pos `min` count)%nat with pos by lia.
  replace ((count - pos) `min` (count - pos + extra))%nat with (count - pos)%nat by lia.
  replace (count - pos - (count - pos + extra) `min` (length l - pos))%nat with 0%nat by lia.
  by rewrite take_0, app_nil_r, skipn_firstn_comm.
Qed.

(** The same, with the new element swapped behind the one at [pos]. *)
Lemma shift_insert_after l pos count x :
  (pos ≤ count)%nat → (count + 1 < length l)%nat →
  ∃ l1 l2 a b l3 l4, memmove l (pos + 1) pos (count - pos + 1) = Ok l1 ∧ arr_set l1 pos x = Ok l2 ∧
    arr_get l2 pos = Ok a ∧ arr_get l2 (pos + 1) = Ok b ∧
    arr_set l2 pos b = Ok l3 ∧ arr_set l3 (pos + 1) a = Ok l4 ∧ length l4 = length l ∧
    take (S (S count)) l4 = take (S pos) (take (S count) l) ++ x :: drop (S pos) (take (S count) l).
Proof.
  intros Hp Hc. destruct (shift_insert l pos count 1 x) as (l1 & l2 & E1 & E2 & _ & Hl2 & _ & El2); [lia..|].
  destruct (lookup_lt_is_Some_2 l pos) as [old Hold]; [lia|].
  set (B := take (count - pos) (drop (S pos) l) ++ drop (count + 1 + 1) l).
  assert (l2 = take pos l ++ x :: old :: B) as El2'.
  { rewrite El2. f_equal. f_equal. rewrite (drop_S _ _ _ Hold).
    by replace (count - pos + 1)%nat with (S (count - pos)) by lia. }
  assert (length (take pos l) = pos) as HA by (rewrite length_take; lia).
  exists l1, l2, x, old, (take pos l ++ old :: old :: B), (take pos l ++ old :: x :: B).
  split; [done|]. split; [done|].
  split. { apply arr_get_lookup. by rewrite El2', list_lookup_middle. }
  split. { apply arr_get_lookup. rewrite El2', lookup_app_r, HA by lia.
           by replace (pos + 1 - pos)%nat with 1%nat by lia. }
  split. { rewrite arr_set_lt by lia. f_equal. rewrite El2', insert_app_r_alt, HA, Nat.sub_diag by lia. done. }
  split. { rewrite arr_set_lt by (rewrite length_app, HA; simpl; lia).
           f_equal. rewrite insert_app_r_alt, HA by lia. by replace (pos + 1 - pos)%nat with 1%nat by lia. }
  split. { rewrite <- Hl2, El2', !length_app. done. }
  rewrite (take_S_r (take (S count) l) pos old) by (rewrite lookup_take_lt; [done|lia]).
  rewrite take_take, skipn_firstn_comm. replace (pos `min` S count)%nat with pos by lia.
  rewrite take_app, take_take, HA. replace (S (S count) `min` pos)%nat with pos by lia.
  rewrite <- app_assoc. f_equal. replace (S (S count) - pos)%nat with (S (S (count - pos))) by lia. simpl.
  f_equal. f_equal. unfold B. rewrite take_app_length'; [f_equal; lia|].
  rewrite length_take, length_drop. lia.
Qed.

(** Closing the gap at [pos]. *)
Lemma shift_delete l pos count :
  (pos < count ≤ length l)%nat →
  ∃ l1, memmove l pos (pos + 1) (count - (pos + 1)) = Ok l1 ∧ length l1 = length l ∧
    take (count - 1) l1 = take pos (take count l) ++ drop (S pos) (take count l).
Proof.
  intros Hp. eexists. rewrite memmove_ok by lia. split; [done|].
  rewrite !length_app, !length_take, !length_drop. split; [lia|].
  rewrite take_app, take_take, length_take.
  replace ((count - 1) `min` pos)%nat with pos by lia. replace (pos `min` count)%nat with pos by lia.
  rewrite take_take, skipn_firstn_comm. replace (pos `min` count)%nat with pos by lia. f_equal.
  rewrite take_app, take_take, length_take, length_drop.
  replace (count - 1 - pos `min` length l - (count - (pos + 1)) `min` (length l - (pos + 1)))%nat
    with 0%nat by lia.
  rewrite take_0, app_nil_r. rewrite Nat.add_1_r. f_equal. lia.
Qed.

(** Copying to the start of, or behind a prefix of, another array. *)
Lemma copy_append (d s : list A) dst src n : (dst + n ≤ length d)%nat → (src + n ≤ length s)%nat →
  ∃ l1, memcpy d dst s src n = Ok l1 ∧ length l1 = length d ∧
    take (dst + n) l1 = take dst d ++ take n (drop src s).
Proof.
  intros Hd Hs. eexists. rewrite memcpy_ok by done. split; [done|].
  rewrite !length_app, !length_take, !length_drop. split; [lia|].
  rewrite app_assoc. apply take_app_length'. rewrite length_app, !length_take, length_drop. lia.
Qed.

End array_lemmas.

(** ** Operations of leaves *)

Section leaf_lemmas.
Context {V : Type}.
Variable leafMax : nat.
Implicit Types (lf : BTreeLeaf V).
Local Notation wf := (leaf_wf leafMax).

Lemma leaf_lengths lf : wf lf →
  length (leaf_keys lf) = lf_count lf ∧ length (take (lf_count lf) (lf_payloads lf)) = lf_count lf.
Proof. intros (Hk & Hp & Hc & _). unfold leaf_keys. rewrite !length_take. lia. Qed.

Lemma leaf_entries_fst lf : wf lf → (leaf_entries lf).*1 = leaf_keys lf.
Proof. intros Hwf. destruct (leaf_lengths lf Hwf). apply fst_zip. lia. Qed.

Lemma leaf_entries_sorted lf : wf lf → al_sorted (leaf_entries lf).
Proof. intros Hwf. unfold al_sorted. rewrite leaf_entries_fst by done. apply Hwf. Qed.

Lemma length_leaf_entries lf : wf lf → length (leaf_entries lf) = lf_count lf.
Proof. intros Hwf. rewrite <- (length_fmap fst), leaf_entries_fst by done. by apply leaf_lengths. Qed.

Lemma leaf_lowerBound_rank lf k : wf lf → lf_count lf ≠ 0%nat →
  leaf_lowerBound lf k = Ok (rank k (leaf_keys lf)).
Proof.
  intros (Hk & Hp & Hc & Hs) Hne. apply lowerBound_rank; [lia|done].
Qed.

Lemma leaf_hit_spec lf k : wf lf →
  leaf_hit lf (rank k (leaf_keys lf)) k = Ok (bool_decide (k ∈ leaf_keys lf)).
Proof.
  intros Hwf. pose proof Hwf as (Hk & Hp & Hc & Hs). destruct (leaf_lengths lf Hwf) as [Hlen _].
  unfold leaf_hit. pose proof (rank_elem k (leaf_keys lf) Hs) as Hel. case_decide as Hlt.
  - destruct (lookup_lt_is_Some_2 (leaf_keys lf) (rank k (leaf_keys lf))) as [x Hx]; [lia|].
    assert (lf_keys lf !! rank k (leaf_keys lf) = Some x) as Hx'.
    { unfold leaf_keys in Hx at 1. by apply lookup_take_Some in Hx as [? _]. }
    rewrite (arr_get_lookup _ _ _ Hx'). cbn [mbind result_bind]. f_equal.
    rewrite Hx in Hel. apply eq_true_iff_eq. rewrite Z.eqb_eq, bool_decide_eq_true, Hel.
    split; congruence.
  - f_equal. symmetry. apply bool_decide_eq_false. rewrite Hel. intros Hl%lookup_lt_Some. lia.
Qed.

(** Rebuilding a leaf from arrays whose used prefixes are known. *)
Lemma leaf_rebuild (c : nat) lo hi (ak : list Z) (ap : list V) (ks : list Z) (ps : list V) :
  length ak = leafMax → length ap = leafMax → (c ≤ leafMax)%nat →
  take c ak = ks → take c ap = ps → StronglySorted Z.lt ks →
  wf (mkLeaf c lo hi ak ap) ∧ leaf_entries (mkLeaf c lo hi ak ap) = zip ks ps.
Proof. intros ? ? ? <- <- Hs. split; [|done]. split_and!; try done. Qed.

Lemma al_insert_sorted k (v : V) es : al_sorted es → al_sorted (al_insert k v es).
Proof.
  intros Hs. unfold al_sorted, al_insert. rewrite fmap_app, fmap_cons.
  assert (∀ P `{!∀ e, Decision (P e)}, StronglySorted Z.lt (filter P es).*1) as Hf.
  { intros P ?. unfold al_sorted in Hs. induction es as [|e es IH]; [constructor|].
    apply StronglySorted_inv in Hs as [Hs He]. rewrite filter_cons. case_decide; [|by apply IH].
    constructor; [by apply IH|]. apply Forall_forall. intros x (e' & -> & [_ He']%list_elem_of_filter)%list_elem_of_fmap.
    eapply Forall_forall in He; [done|]. apply list_elem_of_fmap. eauto. }
  apply StronglySorted_app_2; [|apply Hf|].
  - intros x y (e & -> & [He _]%list_elem_of_filter)%list_elem_of_fmap Hy.
    apply elem_of_cons in Hy as [->|Hy]; [done|].
    apply list_elem_of_fmap in Hy as (e' & -> & [He' _]%list_elem_of_filter). lia.
  - constructor; [apply Hf|]. apply Forall_forall.
    intros x (e & -> & [He _]%list_elem_of_filter)%list_elem_of_fmap. done.
Qed.

(** What an operation that keeps the fences makes of a leaf. *)
Definition leaf_becomes lf lf' (es : list (Z * V)) : Prop :=
  wf lf' ∧ leaf_entries lf' = es ∧ lf_lower lf' = lf_lower lf ∧ lf_upper lf' = lf_upper lf.

Lemma leaf_insert_empty lf k v : wf lf → lf_count lf = 0%nat → (0 < leafMax)%nat →
  ∃ lf', leaf_insert k v lf = Ok lf' ∧ leaf_becomes lf lf' (al_insert k v (leaf_entries lf)).
Proof.
  intros (Hk & Hp & _ & _) H0 Hpos. unfold leaf_insert, leaf_becomes. rewrite decide_True by done.
  rewrite !arr_set_lt by lia. cbn [mbind result_bind]. eexists. split; [done|].
  assert (leaf_entries lf = []) as -> by (unfold leaf_entries, leaf_keys; by rewrite H0).
  rewrite H0. destruct (lf_keys lf) as [|x0 ak]; simpl in *; [lia|].
  destruct (lf_payloads lf) as [|p0 ap]; simpl in *; [lia|].
  edestruct (leaf_rebuild 1 (lf_lower lf) (lf_upper lf) (k :: ak) (v :: ap) [k] [v]) as [? ->];
    [done..|lia|done|done|repeat constructor|done].
Qed.

Lemma leaf_insert_present lf k v : wf lf → k ∈ leaf_keys lf →
  ∃ lf', leaf_insert k v lf = Ok lf' ∧ leaf_becomes lf lf' (al_insert k v (leaf_entries lf)).
Proof.
  intros Hwf Hin. pose proof Hwf as (Hk & Hp & Hc & Hs). destruct (leaf_lengths lf Hwf) as [Hlk Hlp].
  pose proof (proj1 (rank_elem k _ Hs) Hin) as Hr. pose proof (lookup_lt_Some _ _ _ Hr) as Hlt.
  rewrite Hlk in Hlt. unfold leaf_insert, leaf_becomes. rewrite decide_False by lia.
  rewrite leaf_lowerBound_rank by (done || lia). cbn [mbind result_bind].
  rewrite leaf_hit_spec, bool_decide_eq_true_2 by done. cbn [mbind result_bind].
  rewrite arr_set_lt by lia. cbn [mbind result_bind]. eexists. split; [done|].
  set (pos := rank k (leaf_keys lf)) in *.
  rewrite (al_insert_hit _ _ _ pos) by (by rewrite ?leaf_entries_fst || by apply leaf_entries_sorted).
  edestruct (leaf_rebuild (lf_count lf) (lf_lower lf) (lf_upper lf) (lf_keys lf)
    (<[pos := v]> (lf_payloads lf)) (leaf_keys lf) (<[pos := v]> (take (lf_count lf) (lf_payloads lf))))
    as [? ->]; [done|by rewrite length_insert|done|done|by rewrite take_insert_lt by lia|done|].
  split; [done|]. split; [|done]. unfold leaf_entries. rewrite insert_zip_with.
  by rewrite (list_insert_id (leaf_keys lf)).
Qed.

Lemma leaf_insert_absent lf k v : wf lf → (0 < lf_count lf < leafMax)%nat → k ∉ leaf_keys lf →
  ∃ lf', leaf_insert k v lf = Ok lf' ∧ leaf_becomes lf lf' (al_insert k v (leaf_entries lf)).
Proof.
  intros Hwf Hlt Hni. pose proof Hwf as (Hk & Hp & Hc & Hs). destruct (leaf_lengths lf Hwf) as [Hlk Hlp].
  pose proof (leaf_entries_fst lf Hwf) as Hfst. pose proof (leaf_entries_sorted lf Hwf) as Hso.
  pose proof (al_insert_sorted k v _ Hso) as Hso'.
  pose proof (rank_length k (leaf_keys lf)) as Hrl.
  unfold leaf_insert, leaf_becomes. rewrite decide_False by lia.
  rewrite leaf_lowerBound_rank by (done || lia). cbn [mbind result_bind].
  rewrite leaf_hit_spec, bool_decide_eq_false_2 by done. cbn [mbind result_bind].
  rewrite al_insert_miss in Hso' |- * by (by rewrite ?Hfst). rewrite Hfst in *.
  set (pos := rank k (leaf_keys lf)) in *.
  destruct (shift_insert (lf_keys lf) pos (lf_count lf) 0 k)
    as (k1 & k2 & Em1 & Es1 & _ & Hl2 & Hk2 & _); [lia..|].
  destruct (shift_insert (lf_payloads lf) pos (lf_count lf) 0 v)
    as (p1 & p2 & Em2 & Es2 & _ & Hl2' & Hp2 & _); [lia..|].
  rewrite Nat.add_0_r in Em1, Em2. rewrite Em1. cbn [mbind result_bind].
  rewrite Em2. cbn [mbind result_bind]. rewrite Es1. cbn [mbind result_bind].
  rewrite Es2. cbn [mbind result_bind]. eexists. split; [done|]. rewrite Nat.add_1_r.
  unfold al_sorted in Hso'. rewrite fmap_app, fmap_cons, fmap_take, fmap_drop, Hfst in Hso'.
  edestruct (leaf_rebuild (S (lf_count lf)) (lf_lower lf) (lf_upper lf) k2 p2) as [? ->];
    [by rewrite Hl2|by rewrite Hl2'|lia|exact Hk2|exact Hp2|exact Hso'|].
  split; [done|]. split; [|done]. fold (leaf_keys lf).
  rewrite zip_with_app by (rewrite !length_take; lia). simpl.
  by rewrite <- zip_with_take, <- zip_with_drop.
Qed.

Lemma leaf_insert_ok lf k v : wf lf → (lf_count lf < leafMax)%nat →
  ∃ lf', leaf_insert k v lf = Ok lf' ∧ leaf_becomes lf lf' (al_insert k v (leaf_entries lf)).
Proof.
  intros Hwf Hlt. destruct (decide (lf_count lf = 0%nat)); [apply leaf_insert_empty; [done|done|lia]|].
  destruct (decide (k ∈ leaf_keys lf)); [by apply leaf_insert_present|].
  apply leaf_insert_absent; [done|lia|done].
Qed.

Lemma al_remove_sorted k (es : list (Z * V)) : al_sorted es → al_sorted (al_remove k es).
Proof.
  intros Hs. unfold al_sorted, al_remove. rewrite al_below, al_above by done.
  rewrite fmap_app, fmap_take, fmap_drop.
  destruct (decide (k ∈ es.*1)) as [Hin|Hni].
  - pose proof (proj1 (rank_elem k _ Hs) Hin) as Hr. rewrite (rank_le_hit k _ _ Hs Hr).
    unfold al_sorted in Hs. rewrite <- (take_drop_middle _ _ _ Hr) in Hs.
    apply StronglySorted_app in Hs as (Hx & H1 & H2).
    apply StronglySorted_inv in H2 as [H2 _].
    apply StronglySorted_app_2; [|done|done]. intros x y Hx' Hy. apply Hx; [done|by right].
  - rewrite rank_le_miss, take_drop by done. done.
Qed.

Lemma leaf_remove_ok lf k : wf lf →
  ∃ lf', leaf_remove k lf = Ok (bool_decide (k ∈ leaf_keys lf), lf') ∧
    leaf_becomes lf lf' (al_remove k (leaf_entries lf)).
Proof.
  intros Hwf. pose proof Hwf as (Hk & Hp & Hc & Hs). destruct (leaf_lengths lf Hwf) as [Hlk Hlp].
  pose proof (leaf_entries_fst lf Hwf) as Hfst. pose proof (leaf_entries_sorted lf Hwf) as Hso.
  pose proof (al_remove_sorted k _ Hso) as Hso'.
  assert (k ∉ leaf_keys lf → leaf_becomes lf lf (al_remove k (leaf_entries lf))) as Hsame.
  { intros Hni. rewrite al_remove_miss by (by rewrite ?Hfst). done. }
  unfold leaf_remove. case_decide as H0.
  { assert (k ∉ leaf_keys lf) by (unfold leaf_keys; rewrite H0; apply not_elem_of_nil).
    exists lf. rewrite bool_decide_eq_false_2 by done. auto. }
  rewrite leaf_lowerBound_rank by done. cbn [mbind result_bind].
  rewrite leaf_hit_spec by done. cbn [mbind result_bind]. case_bool_decide as Hin; [|eauto].
  pose proof (proj1 (rank_elem k _ Hs) Hin) as Hr. pose proof (lookup_lt_Some _ _ _ Hr) as Hlt.
  rewrite (al_remove_hit _ _ (rank k (leaf_keys lf))) in Hso' |- * by (by rewrite ?Hfst).
  set (pos := rank k (leaf_keys lf)) in *.
  destruct (shift_delete (lf_keys lf) pos (lf_count lf)) as (k1 & -> & Hl1 & Hk1); [lia|].
  destruct (shift_delete (lf_payloads lf) pos (lf_count lf)) as (p1 & -> & Hl1' & Hp1); [lia|].
  cbn [mbind result_bind]. eexists. split; [done|]. unfold leaf_becomes.
  unfold al_sorted in Hso'. rewrite fmap_app, fmap_take, fmap_drop, Hfst in Hso'.
  edestruct (leaf_rebuild (lf_count lf - 1) (lf_lower lf) (lf_upper lf) k1 p1) as [? ->];
    [by rewrite Hl1|by rewrite Hl1'|lia|exact Hk1|exact Hp1|exact Hso'|].
  split; [done|]. split; [|done]. fold (leaf_keys lf).
  rewrite zip_with_app by (rewrite !length_take; lia).
  by rewrite <- zip_with_take, <- zip_with_drop.
Qed.

Section split.
Variables (junkK : list Z) (junkV : list V).
Hypothesis Hmax : (2 ≤ leafMax)%nat.
Hypothesis HjunkK : length junkK = leafMax.
Hypothesis HjunkV : length junkV = leafMax.

(** A split leaf: two leaves, neither full, whose entries are those of the old
    one, the separator being the largest key of the left one. *)
Lemma leaf_split_ok lf : wf lf → lf_count lf = leafMax →
  ∃ sep lf1 lf2, leaf_split leafMax junkK junkV lf = Ok (sep, lf1, lf2) ∧ wf lf1 ∧ wf lf2 ∧
    leaf_entries lf = leaf_entries lf1 ++ leaf_entries lf2 ∧
    (∀ x, x ∈ leaf_keys lf1 → x <= sep) ∧ (∀ x, x ∈ leaf_keys lf2 → sep < x) ∧ sep ∈ leaf_keys lf ∧
    lf_lower lf1 = lf_lower lf ∧ lf_upper lf1 = mkFence false sep ∧
    lf_lower lf2 = mkFence false sep ∧ lf_upper lf2 = lf_upper lf ∧
    (lf_count lf1 < leafMax)%nat ∧ (0 < lf_count lf2 < leafMax)%nat.
Proof.
  intros Hwf Hfull. pose proof Hwf as (Hk & Hp & Hc & Hs). destruct (leaf_lengths lf Hwf) as [Hlk Hlp].
  pose proof (Nat.div_lt leafMax 2 ltac:(lia) ltac:(lia)). pose proof (Nat.div_str_pos leafMax 2 ltac:(lia)).
  unfold leaf_split. rewrite bool_decide_eq_true_2 by done. cbn [mbind result_bind ensure].
  rewrite Hfull. replace (leafMax - (leafMax - leafMax / 2))%nat with (leafMax / 2)%nat by lia.
  set (c := (leafMax / 2)%nat) in *. set (n := (leafMax - c)%nat).
  destruct (copy_append junkK (lf_keys lf) 0 c n) as (nk & Enk & Hlnk & Hnk); [lia..|].
  destruct (copy_append junkV (lf_payloads lf) 0 c n) as (np & Enp & Hlnp & Hnp); [lia..|].
  cbn [lf_keys lf_payloads leaf_new]. rewrite Enk. cbn [mbind result_bind].
  rewrite Enp. cbn [mbind result_bind].
  destruct (lookup_lt_is_Some_2 (leaf_keys lf) (c - 1)) as [sep Hsep]; [lia|].
  pose proof Hsep as Hsep'. unfold leaf_keys in Hsep'. apply lookup_take_Some in Hsep' as [Hsep' _].
  rewrite (arr_get_lookup _ _ _ Hsep'). cbn [mbind result_bind].
  assert (leaf_keys lf = lf_keys lf) as Eks by (unfold leaf_keys; by apply take_ge; lia).
  assert (take n (drop c (lf_keys lf)) = drop c (leaf_keys lf)) as Edk.
  { rewrite Eks. apply take_ge. rewrite length_drop. lia. }
  assert (take n (drop c (lf_payloads lf)) = drop c (take (lf_count lf) (lf_payloads lf))) as Edp.
  { rewrite Hfull, (take_ge (lf_payloads lf)) by lia. apply take_ge. rewrite length_drop. lia. }
  rewrite Nat.add_0_l, take_0, app_nil_l, Edk in Hnk. rewrite Nat.add_0_l, take_0, app_nil_l, Edp in Hnp.
  pose proof Hs as Hs0. rewrite <- (take_drop c (leaf_keys lf)) in Hs0.
  apply StronglySorted_app in Hs0 as (_ & Hs1 & Hs2).
  eexists _, _, _. split; [done|].
  edestruct (leaf_rebuild c (lf_lower lf) (mkFence false sep) (lf_keys lf) (lf_payloads lf)
    (take c (leaf_keys lf)) (take c (take (lf_count lf) (lf_payloads lf)))) as [Hwf1 He1];
    [done..|lia|by rewrite Eks|rewrite take_take; f_equal; lia|done|].
  edestruct (leaf_rebuild n (mkFence false sep) (lf_upper lf) nk np) as [Hwf2 He2];
    [lia|lia|lia|exact Hnk|exact Hnp|done|].
  rewrite He1, He2, <- (leaf_entries_fst _ Hwf1), <- (leaf_entries_fst _ Hwf2), He1, He2.
  rewrite !fst_zip by (rewrite ?length_take, ?length_drop, ?length_take; lia).
  split; [done|]. split; [done|]. split.
  { unfold leaf_entries. by rewrite <- zip_with_take, <- zip_with_drop, take_drop. }
  split.
  { intros x [i Hi]%list_elem_of_lookup. apply lookup_take_Some in Hi as [Hi ?].
    destruct (decide (i = c - 1)%nat) as [->|]; [simplify_eq; lia|].
    pose proof (ssorted_lookup_lt _ _ _ _ _ _ Hs Hi Hsep ltac:(lia)). lia. }
  split.
  { intros x [i Hi]%list_elem_of_lookup. rewrite lookup_drop in Hi.
    exact (ssorted_lookup_lt _ _ _ _ _ _ Hs Hsep Hi ltac:(lia)). }
  split; [by eapply list_elem_of_lookup_2|]. simpl. split_and!; try done; lia.
Qed.

End split.

Lemma leaf_absorb_ok lf right : wf lf → wf right → (lf_count lf + lf_count right ≤ leafMax)%nat →
  (∀ x y, x ∈ leaf_keys lf → y ∈ leaf_keys right → x < y) →
  ∃ lf', leaf_absorb right lf = Ok lf' ∧ wf lf' ∧
    leaf_entries lf' = leaf_entries lf ++ leaf_entries right ∧
    lf_lower lf' = lf_lower lf ∧ lf_upper lf' = lf_upper right ∧
    lf_count lf' = (lf_count lf + lf_count right)%nat.
Proof.
  intros Hwf1 Hwf2 Hfit Hlt. pose proof Hwf1 as (Hk & Hp & Hc & Hs). pose proof Hwf2 as (Hk' & Hp' & Hc' & Hs').
  destruct (leaf_lengths lf Hwf1) as [Hlk Hlp]. unfold leaf_absorb. cbn [lf_count lf_keys lf_payloads leaf_setFences].
  destruct (copy_append (lf_keys lf) (lf_keys right) (lf_count lf) 0 (lf_count right))
    as (nk & -> & Hlnk & Hnk); [lia..|].
  destruct (copy_append (lf_payloads lf) (lf_payloads right) (lf_count lf) 0 (lf_count right))
    as (np & -> & Hlnp & Hnp); [lia..|].
  cbn [mbind result_bind]. eexists. split; [done|]. rewrite drop_0 in Hnk. rewrite drop_0 in Hnp.
  edestruct (leaf_rebuild (lf_count lf + lf_count right) (lf_lower lf) (lf_upper right) nk np) as [Hwf' He];
    [lia|lia|lia|exact Hnk|exact Hnp| |].
  { fold (leaf_keys lf) (leaf_keys right). by apply StronglySorted_app_2. }
  cbn [lf_lower lf_upper]. split; [done|]. split; [|done]. etrans; [exact He|]. fold (leaf_keys lf).
  apply zip_with_app. lia.
Qed.

End leaf_lemmas.

(** ** Operations of inner nodes *)

Section inner_lemmas.
Variable innerMax : nat.
Implicit Types (nd : BTreeInner).
Local Notation wf := (inner_wf innerMax).

Lemma inner_lengths nd : wf nd →
  length (inner_keys nd) = in_count nd ∧ length (inner_children nd) = S (in_count nd).
Proof.
  intros (Hk & Hp & Hc & _). unfold inner_keys, inner_children. rewrite !length_take. lia.
Qed.

Lemma inner_lowerBound_rank nd k : wf nd → inner_lowerBound nd k = Ok (rank k (inner_keys nd)).
Proof. intros (Hk & Hp & Hc & Hs). apply lowerBound_rank; [lia|done]. Qed.
Lemma inner_lowerBoundBF_rank nd k : wf nd → inner_lowerBoundBF nd k = Ok (rank k (inner_keys nd)).
Proof. intros (Hk & Hp & Hc & Hs). apply lowerBoundBF_rank; [lia|done]. Qed.
Lemma inner_upperBound_rank nd k : wf nd → inner_upperBound nd k = Ok (rank_le k (inner_keys nd)).
Proof. intros (Hk & Hp & Hc & Hs). apply upperBound_rank; [lia|done]. Qed.

(** The child at a position up to [count] is in the array. *)
Lemma inner_child nd i : wf nd → (i ≤ in_count nd)%nat →
  ∃ c, arr_get (in_children nd) i = Ok c ∧ inner_children nd !! i = Some c.
Proof.
  intros (Hk & Hp & Hc & _) Hi. destruct (lookup_lt_is_Some_2 (in_children nd) i) as [c Hx]; [lia|].
  exists c. split; [by apply arr_get_lookup|]. unfold inner_children. rewrite lookup_take_lt; [done|lia].
Qed.

(** The new separator and child enter behind the child that was split. *)
Lemma inner_insert_ok nd k child : wf nd → (in_count nd < innerMax - 1)%nat → k ∉ inner_keys nd →
  let pos := rank k (inner_keys nd) in
  ∃ nd', inner_insert innerMax k child nd = Ok nd' ∧ wf nd' ∧
    inner_keys nd' = take pos (inner_keys nd) ++ k :: drop pos (inner_keys nd) ∧
    inner_children nd' = take (S pos) (inner_children nd) ++ child :: drop (S pos) (inner_children nd) ∧
    in_count nd' = S (in_count nd).
Proof.
  intros Hwf Hlt Hni pos. pose proof Hwf as (Hk & Hp & Hc & Hs). destruct (inner_lengths nd Hwf) as [Hlk Hlc].
  pose proof (rank_length k (inner_keys nd)) as Hrl. fold pos in Hrl.
  unfold inner_insert. rewrite bool_decide_eq_true_2 by done. cbn [mbind result_bind ensure].
  rewrite inner_lowerBound_rank by done. cbn [mbind result_bind]. fold pos.
  destruct (shift_insert (in_keys nd) pos (in_count nd) 1 k)
    as (k1 & k2 & Em1 & Es1 & _ & Hl2 & Hk2 & _); [lia..|].
  destruct (shift_insert_after (in_children nd) pos (in_count nd) child)
    as (c1 & c2 & a & b & c3 & c4 & Em2 & Es2 & Eg1 & Eg2 & Es3 & Es4 & Hl4 & Hc4); [lia..|].
  rewrite Em1. cbn [mbind result_bind]. rewrite Em2. cbn [mbind result_bind].
  rewrite Es1. cbn [mbind result_bind]. rewrite Es2. cbn [mbind result_bind].
  rewrite Eg1. cbn [mbind result_bind]. rewrite Eg2. cbn [mbind result_bind].
  rewrite Es3. cbn [mbind result_bind]. rewrite Es4. cbn [mbind result_bind].
  eexists. split; [done|]. unfold inner_wf, inner_keys, inner_children. cbn [in_count in_keys in_children].
  rewrite Nat.add_1_r, Hk2, Hc4. split; [|done].
  split_and!; [lia..|]. by apply sorted_insert.
Qed.

Lemma inner_split_ok (junkK junkP : list Z) nd :
  (5 ≤ innerMax)%nat → length junkK = innerMax → length junkP = innerMax → wf nd → in_count nd = (innerMax - 1)%nat →
  ∃ c sep nd1 nd2, inner_split junkK junkP nd = Ok (sep, nd1, nd2) ∧ wf nd1 ∧ wf nd2 ∧
    inner_keys nd !! c = Some sep ∧
    inner_keys nd1 = take c (inner_keys nd) ∧ inner_keys nd2 = drop (S c) (inner_keys nd) ∧
    inner_children nd1 = take (S c) (inner_children nd) ∧
    inner_children nd2 = drop (S c) (inner_children nd) ∧
    (in_count nd1 < innerMax - 1)%nat ∧ (in_count nd2 < innerMax - 1)%nat.
Proof.
  intros Hmax HjunkK HjunkP Hwf Hfull. pose proof Hwf as (Hk & Hp & Hc & Hs). destruct (inner_lengths nd Hwf) as [Hlk Hlc].
  pose proof (Nat.div_lt (innerMax - 1) 2 ltac:(lia) ltac:(lia)).
  pose proof (Nat.Div0.div_le_mono 4 (innerMax - 1) 2 ltac:(lia)) as Hge.
  change (4 / 2)%nat with 2%nat in Hge.
  unfold inner_split. rewrite Hfull. set (h := ((innerMax - 1) / 2)%nat) in *.
  set (n := (innerMax - 1 - h)%nat). replace (innerMax - 1 - n - 1)%nat with (h - 1)%nat by lia.
  set (c := (h - 1)%nat). exists c.
  destruct (lookup_lt_is_Some_2 (inner_keys nd) c) as [sep Hsep]; [lia|].
  pose proof Hsep as Hsep'. unfold inner_keys in Hsep'. apply lookup_take_Some in Hsep' as [Hsep' _].
  rewrite (arr_get_lookup _ _ _ Hsep'). cbn [mbind result_bind in_keys in_children inner_new].
  destruct (copy_append junkK (in_keys nd) 0 (c + 1) (n + 1)) as (nk & -> & Hlnk & Hnk); [lia..|].
  destruct (copy_append junkP (in_children nd) 0 (c + 1) (n + 1)) as (nc & -> & Hlnc & Hnc); [lia..|].
  cbn [mbind result_bind]. rewrite Nat.add_0_l, take_0, app_nil_l in Hnk, Hnc.
  assert (take n nk = drop (S c) (inner_keys nd)) as Ek.
  { apply (f_equal (take n)) in Hnk. rewrite !take_take in Hnk.
    replace (n `min` (n + 1))%nat with n in Hnk by lia. rewrite Hnk.
    unfold inner_keys. rewrite skipn_firstn_comm, Nat.add_1_r. f_equal. lia. }
  assert (take (S n) nc = drop (S c) (inner_children nd)) as Ec.
  { rewrite Nat.add_1_r in Hnc. rewrite Hnc. unfold inner_children.
    rewrite skipn_firstn_comm, Nat.add_1_r. f_equal. lia. }
  pose proof Hs as Hs0. rewrite <- (take_drop (S c) (inner_keys nd)) in Hs0.
  apply StronglySorted_app in Hs0 as (_ & Hs1 & Hs2).
  rewrite (take_S_r _ _ sep) in Hs1 by done. apply StronglySorted_app in Hs1 as (_ & Hs1 & _).
  eexists sep, _, _. split; [done|]. unfold inner_wf.
  unfold inner_keys at 1 2 4 5, inner_children at 1 3. cbn [in_count in_keys in_children].
  rewrite Ek, Ec. unfold inner_keys in Hs1. unfold inner_children, inner_keys.
  rewrite take_take in Hs1 |- *. replace (c `min` in_count nd)%nat with c in * by lia.
  rewrite take_take. replace (S c `min` S (in_count nd))%nat with (S c) by lia.
  split_and!; try done; lia.
Qed.

Lemma inner_remove_ok nd pos : wf nd → (2 ≤ in_count nd)%nat → (pos < in_count nd)%nat →
  ∃ nd', inner_remove pos nd = Ok (true, nd') ∧ wf nd' ∧
    inner_keys nd' = take pos (inner_keys nd) ++ drop (S pos) (inner_keys nd) ∧
    inner_children nd' = take (S pos) (inner_children nd) ++ drop (S (S pos)) (inner_children nd) ∧
    in_count nd' = (in_count nd - 1)%nat.
Proof.
  intros Hwf H2 Hpos. pose proof Hwf as (Hk & Hp & Hc & Hs). destruct (inner_lengths nd Hwf) as [Hlk Hlc].
  unfold inner_remove. rewrite decide_False by lia. rewrite decide_True by done.
  destruct (shift_delete (in_keys nd) pos (in_count nd)) as (k1 & -> & Hl1 & Hk1); [lia|].
  destruct (shift_delete (in_children nd) (S pos) (S (in_count nd))) as (c1 & Ec & Hl1' & Hc1); [lia|].
  cbn [mbind result_bind].
  replace (memmove (in_children nd) (pos + 1) (pos + 2) (in_count nd + 1 - (pos + 2))) with (Ok c1)
    by (rewrite <- Ec; f_equal; lia).
  cbn [mbind result_bind].
  eexists. split; [done|]. unfold inner_wf.
  unfold inner_keys at 1 2, inner_children at 1. cbn [in_count in_keys in_children].
  replace (S (in_count nd - 1)) with (S (in_count nd) - 1)%nat by lia.
  rewrite Hk1, Hc1. split; [|done]. split_and!; [lia..|]. fold (inner_keys nd).
  destruct (lookup_lt_is_Some_2 (inner_keys nd) pos) as [x Hx]; [lia|].
  rewrite <- (take_drop_middle _ _ _ Hx) in Hs. apply StronglySorted_app in Hs as (Hlt & Hs1 & Hs2).
  apply StronglySorted_inv in Hs2 as [Hs2 _].
  apply StronglySorted_app_2; [|done|done]. intros y z Hy Hz. apply Hlt; [done|by right].
Qed.

End inner_lemmas.

(** ** Claims *)

(** [C40] The three binary searches of the nodes: on every node with at least one
    entry and strictly increasing keys, [lowerBound] and the branch-free
    [lowerBoundBF] return the same position, the number of keys below [k], and
    [upperBound] returns the number of keys at most [k]. *)
Theorem searches_agree (keys : list Z) (count : nat) (k : Z) :
  (1 ≤ count ≤ length keys)%nat → StronglySorted Z.lt (take count keys) →
  lowerBound keys count k = Ok (rank k (take count keys)) ∧
  lowerBoundBF keys count k = lowerBound keys count k ∧
  upperBound keys count k = Ok (rank_le k (take count keys)).
Proof.
  intros Hc Hs. rewrite lowerBoundBF_rank, lowerBound_rank, upperBound_rank by done. done.
Qed.

Lemma searches_agree_witness :
  lowerBound [1; 3; 5; 0] 3 4 = Ok (rank 4 [1; 3; 5]) ∧
  lowerBoundBF [1; 3; 5; 0] 3 4 = lowerBound [1; 3; 5; 0] 3 4 ∧
  upperBound [1; 3; 5; 0] 3 4 = Ok (rank_le 4 [1; 3; 5]).
Proof.
  apply (searches_agree [1; 3; 5; 0] 3 4); [simpl; lia|]. simpl. repeat constructor; lia.
Defined.
