(* ===== verification/BTree.v ===== *)
(** * storage/datastructures/BTree.hpp: the tree

    The tree over a store of pages, in a sequential execution: no other thread
    changes a page, so every [retry()] of a guard is false and the only
    restarts left are the explicit [goto restart] after a split.  [alloc] is
    the page identifier the buffer manager hands out for a new page. *)

From S2P Require Import Prelude Defs BTreeNode.
Local Open Scope Z_scope.

Inductive page (V : Type) :=
| PEntry (root : PID) (height : nat)
| PLeaf (lf : BTreeLeaf V)
| PInner (nd : BTreeInner).
Arguments PEntry {V} _ _.
Arguments PLeaf {V} _.
Arguments PInner {V} _.

Section tree.
Context {V : Type}.
Variables (leafMax innerMax : nat).
Variables (junkK : list Z) (junkV : list V) (junkIK junkIP : list Z).
Variables (alloc : gset Z → PID).

Notation store := (gmap Z (page V)).

Definition get_entry (st : store) (pid : PID) : result (PID * nat) :=
  match st !! pid with Some (PEntry r h) => Ok (r, h) | _ => Throw UndefinedBehaviour end.
(** [ensure(node->type == PageType::BTreeInner)] and the cast. *)
Definition get_inner (st : store) (pid : PID) : result BTreeInner :=
  match st !! pid with
  | Some (PInner nd) => Ok nd
  | Some _ => Throw EnsureFailed
  | None => Throw UndefinedBehaviour
  end.
Definition get_leaf (st : store) (pid : PID) : result (BTreeLeaf V) :=
  match st !! pid with
  | Some (PLeaf lf) => Ok lf
  | Some _ => Throw EnsureFailed
  | None => Throw UndefinedBehaviour
  end.

(** ** Construction *)

(** Returns the store and [entryPage]. *)
Definition btree_new (st : store) : store * PID :=
  let entryPage := alloc (dom st) in
  let st := <[entryPage := PEntry EMPTY_PID 0]> st in
  let root := alloc (dom st) in
  let st := <[root := PLeaf (leaf_new junkK junkV)]> st in
  (<[entryPage := PEntry root 0]> st, entryPage).

(** ** Insertion *)

Variable entryPage : PID.

Definition makeRoot (st : store) (k : Z) (left right : PID) : result store :=
  let root_pid := alloc (dom st) in
  let root := inner_new junkIK junkIP in
  keys ← arr_set (in_keys root) 0 k;
  children ← arr_set (in_children root) 0 left;
  children ← arr_set children 1 right;
  '(_, height) ← get_entry st entryPage;
  Ok (<[entryPage := PEntry root_pid (height + 1)]>
      (<[root_pid := PInner (mkInner 1 (in_lower root) (in_upper root) keys children)]> st)).

(** [xg_parent.getFrame().pid == entryPage ? makeRoot : insert] *)
Definition add_to_parent (st : store) (parent : PID) (sep : Z) (left new : PID) : result store :=
  if parent =? entryPage then makeRoot st sep left new
  else
    p ← get_inner st parent;
    p' ← inner_insert innerMax sep new p;
    Ok (<[parent := PInner p']> st).

Inductive outcome := Restart | Done.

(** The loop over the levels, one pass from the label [restart]. *)
Fixpoint insert_descend (levels : nat) (st : store) (parent cur : PID) (k : Z) (v : V) :
    result (store * outcome) :=
  match levels with
  | S levels =>
      inner ← get_inner st cur;
      if inner_isFull innerMax inner then
        '(sep, inner', inner2) ← inner_split junkIK junkIP inner;
        let newInner := alloc (dom st) in
        let st := <[cur := PInner inner']> (<[newInner := PInner inner2]> st) in
        st ← add_to_parent st parent sep cur newInner;
        Ok (st, Restart)
      else
        i ← inner_lowerBoundBF inner k;
        child ← arr_get (in_children inner) i;
        insert_descend levels st cur child k v
  | O =>
      leaf ← get_leaf st cur;
      if leaf_isFull leafMax leaf then
        '(sep, leaf', leaf2) ← leaf_split leafMax junkK junkV leaf;
        let newLeaf := alloc (dom st) in
        let st := <[cur := PLeaf leaf']> (<[newLeaf := PLeaf leaf2]> st) in
        st ← add_to_parent st parent sep cur newLeaf;
        Ok (st, Restart)
      else
        leaf' ← leaf_insert k v leaf;
        Ok (<[cur := PLeaf leaf']> st, Done)
  end.

Fixpoint insert_loop (fuel : nat) (st : store) (k : Z) (v : V) : result store :=
  match fuel with
  | O => Throw OutOfFuel
  | S fuel =>
      '(root, height) ← get_entry st entryPage;
      '(st', o) ← insert_descend height st entryPage root k v;
      match o with
      | Restart => insert_loop fuel st' k v
      | Done => Ok st'
      end
  end.

(** The number of passes is bounded by the square of the number of levels. *)
Definition insert_fuel (height : nat) : nat := S ((height + 1) * (height + 1)).
Definition insert (st : store) (k : Z) (v : V) : result store :=
  '(_, height) ← get_entry st entryPage;
  insert_loop (insert_fuel height) st k v.

(** ** Lookups *)

Fixpoint find_leaf (levels : nat) (st : store) (cur : PID) (k : Z) : result PID :=
  match levels with
  | S levels =>
      inner ← get_inner st cur;
      i ← inner_lowerBoundBF inner k;
      child ← arr_get (in_children inner) i;
      find_leaf levels st child k
  | O => Ok cur
  end.

(** The payload is read before the key is compared; a missing key runs into
    [ensure(false)]. *)
Definition lookup (st : store) (k : Z) : result V :=
  '(root, height) ← get_entry st entryPage;
  pid ← find_leaf height st root k;
  leaf ← get_leaf st pid;
  pos ← leaf_lowerBound leaf k;
  returnValue ← arr_get (lf_payloads leaf) pos;
  hit ← leaf_hit leaf pos k;
  _ ← ensure hit;
  Ok returnValue.

(** The overload of [lookup_opt] with a reference for the value: the same reads
    under an optimistic instead of a shared guard. *)
Definition lookup_opt_value (st : store) (k : Z) : result V :=
  '(root, height) ← get_entry st entryPage;
  currentPID ← find_leaf height st root k;
  leaf ← get_leaf st currentPID;
  pos ← leaf_lowerBound leaf k;
  returnValue ← arr_get (lf_payloads leaf) pos;
  hit ← leaf_hit leaf pos k;
  if (hit : bool) then Ok returnValue else Throw EnsureFailed.

(** [lookup_opt] with a reader, whose result is returned. *)
Definition lookup_opt {B} (st : store) (k : Z) (read_function : V → B) : result B :=
  '(root, height) ← get_entry st entryPage;
  pid ← find_leaf height st root k;
  leaf ← get_leaf st pid;
  pos ← leaf_lowerBound leaf k;
  hit ← leaf_hit leaf pos k;
  if (hit : bool) then p ← arr_get (lf_payloads leaf) pos; Ok (read_function p)
  else Throw EnsureFailed.

Definition lookupAndUpdate (st : store) (k : Z) (callback : V → V) : result store :=
  '(root, height) ← get_entry st entryPage;
  pid ← find_leaf height st root k;
  leaf ← get_leaf st pid;
  pos ← leaf_lowerBound leaf k;
  hit ← leaf_hit leaf pos k;
  if (hit : bool) then
    p ← arr_get (lf_payloads leaf) pos;
    payloads ← arr_set (lf_payloads leaf) pos (callback p);
    Ok (<[pid := PLeaf (mkLeaf (lf_count leaf) (lf_lower leaf) (lf_upper leaf) (lf_keys leaf) payloads)]> st)
  else Throw EnsureFailed.

(** ** Removal *)

Definition remove_from_leaf (st : store) (cur : PID) (leaf : BTreeLeaf V) (k : Z) : result (bool * store) :=
  '(removed, leaf') ← leaf_remove k leaf;
  Ok (removed, <[cur := PLeaf leaf']> st).

(** The merge of an underfull leaf with its right sibling. *)
Definition remove_underflow (st : store) (parent cur : PID) (leaf : BTreeLeaf V) (k : Z) :
    result (bool * store) :=
  inner ← get_inner st parent;
  pos ← inner_lowerBound inner k;
  if decide (2 ≤ in_count inner ∧ pos + 1 < in_count inner)%nat then
    pid_right ← arr_get (in_children inner) (pos + 1);
    right ← get_leaf st pid_right;
    if decide (leafMax ≤ lf_count leaf + lf_count right)%nat then remove_from_leaf st cur leaf k
    else
      leaf' ← leaf_absorb right leaf;
      '(_, inner') ← inner_remove pos inner;
      let st := delete pid_right (<[parent := PInner inner']> (<[cur := PLeaf leaf']> st)) in
      remove_from_leaf st cur leaf' k
  else remove_from_leaf st cur leaf k.

(** The loop [while (node->type == PageType::BTreeInner)]; [fuel] bounds the levels. *)
Fixpoint remove_descend (fuel : nat) (st : store) (parent cur : PID) (k : Z) : result (bool * store) :=
  match fuel with
  | O => Throw OutOfFuel
  | S fuel =>
      match st !! cur with
      | Some (PInner inner) =>
          i ← inner_lowerBound inner k;
          nextPid ← arr_get (in_children inner) i;
          remove_descend fuel st cur nextPid k
      | Some (PLeaf leaf) =>
          if leaf_isUnderflow leafMax leaf && negb (parent =? entryPage)
          then remove_underflow st parent cur leaf k
          else remove_from_leaf st cur leaf k
      | _ => Throw UndefinedBehaviour
      end
  end.

Definition remove (st : store) (k : Z) : result (bool * store) :=
  '(root, height) ← get_entry st entryPage;
  remove_descend (S height) st entryPage root k.

(** ** Scans *)

Inductive RC := FINISHED | CONTINUE.
Inductive direction := DESC_SCAN | ASC_SCAN.

(** The callback [func(key, payload)] has a state of its own and says whether
    the scan goes on. *)
Context {S : Type}.
Variable func : S → Z → V → S * bool.

(** [while (it != end)] of the ascending functor, from position [pos]. *)
Fixpoint asc_loop (n : nat) (leaf : BTreeLeaf V) (pos : nat) (s : S) : result (S * bool) :=
  match n with
  | O => Ok (s, true)
  | Datatypes.S n =>
      k ← arr_get (lf_keys leaf) pos;
      p ← arr_get (lf_payloads leaf) pos;
      let '(s, go) := func s k p in
      if (go : bool) then asc_loop n leaf (pos + 1) s else Ok (s, false)
  end.

(** [while (enter_scan)] of the descending functor: down to position 0 included. *)
Fixpoint desc_loop (pos : nat) (leaf : BTreeLeaf V) (s : S) : result (S * bool) :=
  k ← arr_get (lf_keys leaf) pos;
  p ← arr_get (lf_payloads leaf) pos;
  let '(s, go) := func s k p in
  if (go : bool) then match pos with O => Ok (s, true) | Datatypes.S pos => desc_loop pos leaf s end
  else Ok (s, false).

Definition asc_leaf (k : Z) (leaf : BTreeLeaf V) (s : S) : result (S * RC * Z) :=
  let up := lf_upper leaf in
  let rest := if isInfinity up then FINISHED else CONTINUE in
  if decide (lf_count leaf = 0%nat) then Ok (s, rest, fkey up)
  else
    pos ← leaf_lowerBound leaf k;
    '(s, go) ← asc_loop (lf_count leaf - pos) leaf pos s;
    Ok (s, if (go : bool) then rest else FINISHED, fkey up).

Definition desc_leaf (k : Z) (leaf : BTreeLeaf V) (s : S) : result (S * RC * Z) :=
  let low := lf_lower leaf in
  let rest := if isInfinity low then FINISHED else CONTINUE in
  if decide (lf_count leaf = 0%nat) then Ok (s, rest, fkey low)
  else
    lb ← leaf_lowerBound leaf k;
    let lb := if decide (lf_count leaf ≤ lb)%nat then (lf_count leaf - 1)%nat else lb in
    x ← arr_get (lf_keys leaf) lb;
    if k <? x then
      match lb with
      | O => Ok (s, rest, fkey low)
      | Datatypes.S lb =>
          '(s, go) ← desc_loop lb leaf s; Ok (s, if (go : bool) then rest else FINISHED, fkey low)
      end
    else '(s, go) ← desc_loop lb leaf s; Ok (s, if (go : bool) then rest else FINISHED, fkey low).

Definition next_node (dir : direction) (isFirstTraversal : bool) (k : Z) (inner : BTreeInner) : result PID :=
  i ← match dir, isFirstTraversal with
      | ASC_SCAN, false => inner_upperBound inner k
      | _, _ => inner_lowerBound inner k
      end;
  arr_get (in_children inner) i.

Fixpoint scan_descend (fuel : nat) (dir : direction) (first : bool) (st : store) (cur : PID) (k : Z) (s : S) :
    result (S * RC * Z) :=
  match fuel with
  | O => Throw OutOfFuel
  | Datatypes.S fuel =>
      match st !! cur with
      | Some (PInner inner) =>
          nextPid ← next_node dir first k inner;
          scan_descend fuel dir first st nextPid k s
      | Some (PLeaf leaf) =>
          match dir with ASC_SCAN => asc_leaf k leaf s | DESC_SCAN => desc_leaf k leaf s end
      | _ => Throw UndefinedBehaviour
      end
  end.

Definition scan_ (dir : direction) (first : bool) (st : store) (k : Z) (s : S) : result (S * RC * Z) :=
  '(root, height) ← get_entry st entryPage;
  scan_descend (Datatypes.S height) dir first st root k s.

(** The scan driver: one traversal per leaf. *)
Fixpoint scan_loop (fuel : nat) (dir : direction) (first : bool) (st : store) (k : Z) (s : S) : result S :=
  match fuel with
  | O => Throw OutOfFuel
  | Datatypes.S fuel =>
      '(s, rc, sep) ← scan_ dir first st k s;
      match rc with
      | FINISHED => Ok s
      | CONTINUE => scan_loop fuel dir false st sep s
      end
  end.
Definition scan (dir : direction) (st : store) (k : Z) (s : S) : result S :=
  scan_loop (Datatypes.S (size st)) dir true st k s.

End tree.
