(* ===== verification/BTreeInv.v ===== *)
(** * The representation invariant of the tree

    [repr st h cur lo hi es ps]: the page [cur] is the root of a subtree of
    height [h] in the store [st], made of the pages [ps], for the keys in
    [(lo, hi]], whose entries in key order are [es].  The children of an inner
    node form a [chain]: one child per interval between separators. *)

From S2P Require Import Prelude Defs BTreeNode BTree.
Local Open Scope Z_scope.

(** ** Key intervals *)

(** [k] lies in [(lo, hi]]; [None] is infinity. *)
Definition in_range (lo hi : option Z) (k : Z) : Prop :=
  (match lo with Some l => l < k | None => True end) ∧
  (match hi with Some h => k <= h | None => True end).
(** [k] lies strictly between the bounds, as separators do. *)
Definition inside (lo hi : option Z) (k : Z) : Prop :=
  (match lo with Some l => l < k | None => True end) ∧
  (match hi with Some h => k < h | None => True end).
Definition fence_ok (f : FenceKey) (o : option Z) : Prop :=
  match o with None => isInfinity f = true | Some k => f = mkFence false k end.

Lemma inside_in_range lo hi k : inside lo hi k → in_range lo hi k.
Proof. unfold inside, in_range. destruct lo, hi; lia. Qed.

(** ** Ranks around a separator *)

Lemma rank_nil k : rank k [] = 0%nat.
Proof. done. Qed.
Lemma rank_cons_lt k x ks : x < k → rank k (x :: ks) = S (rank k ks).
Proof. intros. unfold rank. by rewrite filter_cons_True. Qed.
Lemma rank_cons_ge k x ks : StronglySorted Z.lt (x :: ks) → k <= x → rank k (x :: ks) = 0%nat.
Proof.
  intros Hs Hk. apply StronglySorted_inv in Hs as [Hs Hlt]. unfold rank.
  rewrite filter_none; [done|]. intros y [->|Hy]%elem_of_cons; [lia|].
  eapply Forall_forall in Hlt; [|done]. simpl in Hlt. lia.
Qed.

Lemma rank_app k ks1 ks2 : rank k (ks1 ++ ks2) = (rank k ks1 + rank k ks2)%nat.
Proof. unfold rank. by rewrite filter_app, length_app. Qed.

Lemma rank_take k ks i sep : StronglySorted Z.lt ks → ks !! i = Some sep → k <= sep →
  rank k (take i ks) = rank k ks ∧ (rank k ks ≤ i)%nat.
Proof.
  intros Hs Hi Hk. pose proof (lookup_lt_Some _ _ _ Hi). rewrite <- (take_drop_middle _ _ _ Hi) in Hs.
  apply StronglySorted_app in Hs as (_ & _ & Hs). rewrite <- (take_drop_middle _ _ _ Hi) at 2 3.
  rewrite rank_app, (rank_cons_ge k sep) by done.
  pose proof (rank_length k (take i ks)) as Hl. rewrite length_take in Hl. lia.
Qed.

Lemma rank_drop k ks i sep : StronglySorted Z.lt ks → ks !! i = Some sep → sep < k →
  rank k ks = (S i + rank k (drop (S i) ks))%nat.
Proof.
  intros Hs Hi Hk. rewrite <- (take_drop (S i) ks) at 1. rewrite rank_app. f_equal.
  unfold rank. rewrite filter_all, length_take; [apply lookup_lt_Some in Hi; lia|].
  apply Forall_lookup. intros j x Hj. apply lookup_take_Some in Hj as [Hj ?].
  destruct (decide (j = i)) as [->|]; [simplify_eq; done|].
  pose proof (ssorted_lookup_lt _ _ _ _ _ _ Hs Hj Hi ltac:(lia)). lia.
Qed.

(** The rank once a separator has been added at that rank. *)
Lemma rank_insert_sep k sep ks i : StronglySorted Z.lt ks → sep ∉ ks → rank sep ks = i → rank k ks = i →
  rank k (take i ks ++ sep :: drop i ks) = if decide (k <= sep) then i else S i.
Proof.
  intros Hs Hni Hsep Hk. pose proof (sorted_insert sep ks Hs Hni) as Hs'. rewrite Hsep in Hs'.
  apply StronglySorted_app in Hs' as (_ & _ & Hs').
  assert (rank k (take i ks) = i) as Ht.
  { rewrite <- Hk at 1. rewrite <- filter_lt_take by done. unfold rank at 1.
    rewrite filter_all; [exact Hk|]. apply Forall_forall. by intros x [? _]%list_elem_of_filter. }
  rewrite rank_app, Ht. case_decide.
  - rewrite rank_cons_ge by done. lia.
  - rewrite rank_cons_lt by lia. rewrite <- (take_drop i ks), rank_app, Ht in Hk. lia.
Qed.

(** The separators on either side of one of them. *)
Lemma inside_take lo hi ks i sep : StronglySorted Z.lt ks → Forall (inside lo hi) ks →
  ks !! i = Some sep → Forall (inside lo (Some sep)) (take i ks).
Proof.
  intros Hs Hin Hi. apply Forall_lookup. intros j x Hj. apply lookup_take_Some in Hj as [Hj ?].
  pose proof (ssorted_lookup_lt _ _ _ _ _ _ Hs Hj Hi ltac:(done)).
  eapply Forall_lookup_1 in Hin; [|exact Hj]. unfold inside in *. destruct lo; lia.
Qed.
Lemma inside_drop lo hi ks i sep : StronglySorted Z.lt ks → Forall (inside lo hi) ks →
  ks !! i = Some sep → Forall (inside (Some sep) hi) (drop (S i) ks).
Proof.
  intros Hs Hin Hi. apply Forall_lookup. intros j x Hj. rewrite lookup_drop in Hj.
  pose proof (ssorted_lookup_lt _ _ _ _ _ _ Hs Hi Hj ltac:(lia)).
  eapply Forall_lookup_1 in Hin; [|exact Hj]. unfold inside in *. destruct hi; lia.
Qed.

(** ** Chains of children *)

Section chain.
Context {V : Type}.
Implicit Types (es : list (Z * V)) (ps : gset Z) (lo hi : option Z) (ks : list Z) (cs : list PID).

Notation subtree := (PID → option Z → option Z → list (Z * V) → gset Z → Prop).

Inductive chain (R : subtree) : option Z → option Z → list Z → list PID → list (Z * V) → gset Z → Prop :=
| chain_last lo hi c es ps : R c lo hi es ps → chain R lo hi [] [c] es ps
| chain_cons lo hi k ks c cs es1 es2 ps1 ps2 :
    R c lo (Some k) es1 ps1 → chain R (Some k) hi ks cs es2 ps2 → ps1 ## ps2 →
    chain R lo hi (k :: ks) (c :: cs) (es1 ++ es2) (ps1 ∪ ps2).

(** A child in its chain: what surrounds it and how it can be replaced. *)
Record focus (R : subtree) lo hi ks cs es ps (i : nat)
    (c : PID) lo' hi' es1 es' es2 ps' rest : Prop := {
  fc_child : cs !! i = Some c;
  fc_sub : R c lo' hi' es' ps';
  fc_es : es = es1 ++ es' ++ es2;
  fc_ps : ps = ps' ∪ rest;
  fc_disj : ps' ## rest;
  fc_rank : ∀ x, in_range lo' hi' x → rank x ks = i;
  fc_fresh : ∀ x, inside lo' hi' x → x ∉ ks;
  fc_before : ∀ e x, e ∈ es1 → in_range lo' hi' x → e.1 < x;
  fc_after : ∀ e x, e ∈ es2 → in_range lo' hi' x → x < e.1;
  fc_in_range : ∀ x, Forall (inside lo hi) ks → in_range lo' hi' x → in_range lo hi x;
  fc_inside : ∀ x, Forall (inside lo hi) ks → inside lo' hi' x → inside lo hi x;
  (** the child is replaced by one for the same interval *)
  fc_replace : ∀ (R' : subtree) es'' ps'',
    (∀ d l h e p, p ⊆ rest → R d l h e p → R' d l h e p) →
    R' c lo' hi' es'' ps'' → ps'' ## rest →
    chain R' lo hi ks cs (es1 ++ es'' ++ es2) (ps'' ∪ rest);
  (** the child is replaced by two, with a separator *)
  fc_split : ∀ (R' : subtree) sep c' ea eb pa pb,
    (∀ d l h e p, p ⊆ rest → R d l h e p → R' d l h e p) →
    R' c lo' (Some sep) ea pa → R' c' (Some sep) hi' eb pb → pa ## pb → pa ∪ pb ## rest →
    chain R' lo hi (take i ks ++ sep :: drop i ks) (take (S i) cs ++ c' :: drop (S i) cs)
      (es1 ++ (ea ++ eb) ++ es2) ((pa ∪ pb) ∪ rest);
}.

Lemma chain_mono (R R' : subtree) lo hi ks cs es ps :
  (∀ d l h e p, p ⊆ ps → R d l h e p → R' d l h e p) →
  chain R lo hi ks cs es ps → chain R' lo hi ks cs es ps.
Proof.
  intros Hmono Hch. induction Hch as [|lo hi k ks c cs es1 es2 ps1 ps2 Hc _ IH Hd]; constructor.
  - apply Hmono; [set_solver|done].
  - apply Hmono; [set_solver|done].
  - apply IH. intros. apply Hmono; [set_solver|done].
  - done.
Qed.

Lemma chain_length (R : subtree) lo hi ks cs es ps : chain R lo hi ks cs es ps → length cs = S (length ks).
Proof. induction 1; simpl; congruence. Qed.

(** Cutting a chain at one of its separators. *)
Lemma chain_split_at (R : subtree) lo hi ks cs es ps i sep :
  chain R lo hi ks cs es ps → ks !! i = Some sep →
  ∃ es1 es2 ps1 ps2, es = es1 ++ es2 ∧ ps = ps1 ∪ ps2 ∧ ps1 ## ps2 ∧
    chain R lo (Some sep) (take i ks) (take (S i) cs) es1 ps1 ∧
    chain R (Some sep) hi (drop (S i) ks) (drop (S i) cs) es2 ps2.
Proof.
  intros Hch. revert i. induction Hch as [lo hi c es ps Hc|lo hi k ks c cs es1 es2 ps1 ps2 Hc Hch IH Hd];
    intros i Hi; [done|]. destruct i as [|i]; simpl in Hi.
  - injection Hi as ->. exists es1, es2, ps1, ps2. split_and!; try done. simpl.
    rewrite take_0. by constructor.
  - destruct (IH i Hi) as (ea & eb & pa & pb & -> & -> & Hdab & Ha & Hb).
    exists (es1 ++ ea), eb, (ps1 ∪ pa), pb. split_and!; [by rewrite app_assoc|set_solver|set_solver| |done].
    simpl. constructor; [done|done|set_solver].
Qed.

Section chain_lemmas.
Variable R : subtree.
Hypothesis HR : ∀ c lo hi es ps, R c lo hi es ps → Forall (λ e, in_range lo hi e.1) es.

(** The bounds of a chain and its separators are ordered. *)
Lemma chain_range lo hi ks cs es ps :
  chain R lo hi ks cs es ps → StronglySorted Z.lt ks → Forall (inside lo hi) ks →
  Forall (λ e, in_range lo hi e.1) es.
Proof.
  induction 1 as [lo hi c es ps Hc|lo hi k ks c cs es1 es2 ps1 ps2 Hc _ IH _]; intros Hs Hin; [eauto|].
  apply StronglySorted_inv in Hs as [Hs Hlt]. apply Forall_cons in Hin as [Hk Hin].
  apply Forall_app. split.
  - eapply Forall_impl; [by eapply HR|]. unfold in_range, inside in *. intros e. simpl.
    destruct lo, hi; lia.
  - eapply Forall_impl; [apply IH; [done|]|].
    + rewrite Forall_forall in Hin, Hlt |- *. intros x Hx. specialize (Hin x Hx). specialize (Hlt x Hx).
      unfold inside in *. destruct hi; simpl; lia.
    + unfold in_range, inside in *. intros e. simpl. destruct lo, hi; lia.
Qed.

Lemma chain_tail_inside lo hi k0 ks :
  StronglySorted Z.lt (k0 :: ks) → Forall (inside lo hi) (k0 :: ks) → Forall (inside (Some k0) hi) ks.
Proof.
  intros [_ Hlt]%StronglySorted_inv [_ Hin]%Forall_cons. rewrite Forall_forall in Hin, Hlt |- *.
  intros x Hx. specialize (Hin x Hx). specialize (Hlt x Hx). unfold inside in *. destruct hi; simpl; lia.
Qed.

(** The first child in focus. *)
Lemma focus_head lo hi k0 ks c cs es1 es2 ps1 ps2 :
  R c lo (Some k0) es1 ps1 → chain R (Some k0) hi ks cs es2 ps2 → ps1 ## ps2 →
  StronglySorted Z.lt (k0 :: ks) → Forall (inside lo hi) (k0 :: ks) →
  focus R lo hi (k0 :: ks) (c :: cs) (es1 ++ es2) (ps1 ∪ ps2) 0 c lo (Some k0) [] es1 es2 ps1 ps2.
Proof.
  intros Hc Hch Hd Hs Hin. pose proof (chain_tail_inside _ _ _ _ Hs Hin) as Hin'.
  split; try done.
  - intros x [_ Hx]. by apply rank_cons_ge.
  - intros x [_ Hx] [->|Hx']%elem_of_cons; [lia|].
    eapply Forall_forall in Hin'; [|done]. destruct Hin' as [? _]. lia.
  - by intros e x ?%elem_of_nil.
  - intros e x He [_ Hx]. apply StronglySorted_inv in Hs as [Hs _].
    pose proof (chain_range _ _ _ _ _ _ Hch Hs Hin') as Hr.
    eapply Forall_forall in Hr; [|done]. unfold in_range in Hr. lia.
  - intros x [Hk0 _]%Forall_cons. unfold in_range, inside in *. destruct lo, hi; simpl in *; lia.
  - intros x [Hk0 _]%Forall_cons. unfold inside in *. destruct lo, hi; simpl in *; lia.
  - intros R' es'' ps'' Hmono Hc' Hd'. simpl. constructor; [done|by eapply chain_mono|done].
  - intros R' sep c' ea eb pa pb Hmono Ha Hb Hdab Hdr. simpl. rewrite <- app_assoc, <- union_assoc_L.
    constructor; [done| |set_solver]. constructor; [done|by eapply chain_mono|set_solver].
Qed.

(** A later child in focus. *)
Lemma focus_tail lo hi k0 ks c0 cs es0 es ps0 ps i c lo' hi' es1 es' es2 ps' rest :
  R c0 lo (Some k0) es0 ps0 → ps0 ## ps →
  StronglySorted Z.lt (k0 :: ks) → Forall (inside lo hi) (k0 :: ks) →
  focus R (Some k0) hi ks cs es ps i c lo' hi' es1 es' es2 ps' rest →
  focus R lo hi (k0 :: ks) (c0 :: cs) (es0 ++ es) (ps0 ∪ ps) (S i) c lo' hi'
    (es0 ++ es1) es' es2 ps' (ps0 ∪ rest).
Proof.
  intros Hc0 Hd Hs Hin [Hl Hc -> -> Hd' Hrank Hfresh Hbef Haft Hinr Hins Hrep Hspl].
  pose proof (chain_tail_inside _ _ _ _ Hs Hin) as Hin'. apply Forall_cons in Hin as [Hk0 Hin].
  assert (∀ x, in_range lo' hi' x → k0 < x) as Hgt.
  { intros x Hx. by apply Hinr in Hx as [? _]. }
  split; try done.
  - by rewrite <- app_assoc.
  - set_solver.
  - set_solver.
  - intros x Hx. rewrite rank_cons_lt by auto. f_equal. auto.
  - intros x Hx [->|Hx']%elem_of_cons; [|by apply (Hfresh x)].
    apply inside_in_range, Hgt in Hx. lia.
  - intros e x [He|He]%elem_of_app Hx; [|eauto]. apply HR in Hc0.
    eapply Forall_forall in Hc0; [|done]. specialize (Hgt x Hx). unfold in_range in Hc0. lia.
  - intros x _ Hx. specialize (Hinr x Hin' Hx). unfold in_range, inside in *. destruct lo, hi; simpl in *; lia.
  - intros x _ Hx. specialize (Hins x Hin' Hx). unfold inside in *. destruct lo, hi; simpl in *; lia.
  - intros R' es'' ps'' Hmono Hc' Hd''. rewrite <- app_assoc.
    replace (ps'' ∪ (ps0 ∪ rest)) with (ps0 ∪ (ps'' ∪ rest)) by set_solver.
    constructor; [apply Hmono; [set_solver|done]| |set_solver].
    apply Hrep; [|done|set_solver]. intros. apply Hmono; [set_solver|done].
  - intros R' sep c' ea eb pa pb Hmono Ha Hb Hdab Hdr. rewrite <- (app_assoc es0).
    replace (pa ∪ pb ∪ (ps0 ∪ rest)) with (ps0 ∪ ((pa ∪ pb) ∪ rest)) by set_solver.
    simpl. constructor; [apply Hmono; [set_solver|done]| |set_solver].
    apply Hspl; [|done|done|done|set_solver]. intros. apply Hmono; [set_solver|done].
Qed.

(** Searching [k] leads to the child responsible for [k]. *)
Lemma chain_focus lo hi ks cs es ps k :
  chain R lo hi ks cs es ps → StronglySorted Z.lt ks → Forall (inside lo hi) ks → in_range lo hi k →
  ∃ c lo' hi' es1 es' es2 ps' rest,
    focus R lo hi ks cs es ps (rank k ks) c lo' hi' es1 es' es2 ps' rest ∧ in_range lo' hi' k.
Proof.
  induction 1 as [lo hi c es ps Hc|lo hi k0 ks c cs es1 es2 ps1 ps2 Hc Hch IH Hd]; intros Hs Hin Hk.
  - exists c, lo, hi, [], es, [], ps, ∅. split; [|done]. rewrite rank_nil.
    split; try done; try (by intros; set_solver).
    + by rewrite app_nil_r.
    + intros R' es'' ps'' _ Hc' _. rewrite app_nil_r, union_empty_r_L. by constructor.
    + intros R' sep c' ea eb pa pb _ Ha Hb Hdis _. rewrite app_nil_r, union_empty_r_L. simpl.
      constructor; [done|by constructor|done].
  - destruct (decide (k <= k0)) as [Hle|Hgt].
    + exists c, lo, (Some k0), [], es1, es2, ps1, ps2. rewrite rank_cons_ge by done.
      split; [by apply focus_head|]. unfold in_range in *. destruct lo; simpl; lia.
    + destruct IH as (d & lo' & hi' & e1 & e' & e2 & ps' & rest & Hf & Hk').
      * by apply StronglySorted_inv in Hs as [? _].
      * by eapply chain_tail_inside.
      * unfold in_range in *. destruct hi; lia.
      * exists d, lo', hi', (es1 ++ e1), e', e2, ps', (ps1 ∪ rest). split; [|done].
        rewrite rank_cons_lt by lia. by apply focus_tail.
Qed.

(** The child responsible for [k] and its right sibling, which can be merged. *)
Lemma chain_merge lo hi ks cs es ps k :
  chain R lo hi ks cs es ps → StronglySorted Z.lt ks → Forall (inside lo hi) ks → in_range lo hi k →
  (rank k ks < length ks)%nat →
  let i := rank k ks in
  ∃ c d lo' sep hi' es1 ea eb es2 pa pb rest,
    cs !! i = Some c ∧ cs !! S i = Some d ∧
    R c lo' (Some sep) ea pa ∧ R d (Some sep) hi' eb pb ∧
    es = es1 ++ (ea ++ eb) ++ es2 ∧ ps = (pa ∪ pb) ∪ rest ∧ pa ## pb ∧ pa ∪ pb ## rest ∧
    (∀ e, e ∈ es1 → e.1 < k) ∧ (∀ e, e ∈ es2 → k < e.1) ∧ inside lo' hi' sep ∧
    (∀ (R' : subtree) em pm,
      (∀ d l h e p, p ⊆ rest → R d l h e p → R' d l h e p) → R' c lo' hi' em pm → pm ## rest →
      chain R' lo hi (take i ks ++ drop (S i) ks) (take (S i) cs ++ drop (S (S i)) cs)
        (es1 ++ em ++ es2) (pm ∪ rest)).
Proof.
  induction 1 as [lo hi c es ps Hc|lo hi k0 ks c cs es1 es2 ps1 ps2 Hc Hch IH Hd]; intros Hs Hin Hk Hlen.
  { simpl in Hlen. lia. }
  pose proof (chain_tail_inside _ _ _ _ Hs Hin) as Hin'.
  destruct (decide (k <= k0)) as [Hle|Hgt].
  - rewrite rank_cons_ge by done. simpl.
    pose proof Hs as Hs0. apply StronglySorted_inv in Hs as [Hs _].
    inversion Hch as [lo2 hi2 d eb pb Hb|lo2 hi2 k1 ks' d cs' eb es3 pb ps3 Hb Hch' Hd']; subst.
    + exists c, d, lo, k0, hi, [], es1, es2, [], ps1, ps2, ∅. rewrite app_nil_r, union_empty_r_L.
      split_and!; try done; try (by intros; sset); [by apply Forall_cons in Hin as [? _]|].
      intros R' em pm _ Hm _. rewrite app_nil_r, union_empty_r_L. by constructor.
    + exists c, d, lo, k0, (Some k1), [], es1, eb, es3, ps1, pb, ps3.
      rewrite <- app_assoc, <- union_assoc_L. split_and!; try done; try sset.
      * intros e He. pose proof (chain_tail_inside _ _ _ _ Hs Hin') as Hin2.
        apply StronglySorted_inv in Hs as [Hs' Hlt]. pose proof (chain_range _ _ _ _ _ _ Hch' Hs' Hin2) as Hr.
        eapply Forall_forall in Hr; [|done]. apply Forall_cons in Hin' as [[Hk1 _] _].
        unfold in_range in Hr. lia.
      * apply Forall_cons in Hin as [[? _] _]. apply Forall_cons in Hin' as [[? _] _]. by split.
      * intros R' em pm Hmono Hm Hdm. simpl. constructor; [done|by eapply chain_mono|done].
  - assert (in_range (Some k0) hi k) as Hk' by (unfold in_range in *; destruct hi; lia).
    rewrite rank_cons_lt in Hlen |- * by lia. simpl in Hlen.
    pose proof Hs as Hs0. apply StronglySorted_inv in Hs as [Hs _].
    destruct (IH Hs Hin' Hk' ltac:(lia)) as (c' & d & lo' & sep & hi' & e1 & ea & eb & e2 & pa & pb & rest &
      Hc1 & Hc2 & Ha & Hb & -> & -> & Hdab & Hdr & He1 & He2 & Hsep & Hrep).
    exists c', d, lo', sep, hi', (es1 ++ e1), ea, eb, e2, pa, pb, (ps1 ∪ rest). simpl.
    split_and!; try done.
    + by rewrite <- !app_assoc.
    + sset.
    + sset.
    + intros e [He|He]%elem_of_app; [|auto]. apply HR in Hc. eapply Forall_forall in Hc; [|done].
      unfold in_range in Hc. lia.
    + intros R' em pm Hmono Hm Hdm. rewrite <- app_assoc.
      replace (pm ∪ (ps1 ∪ rest)) with (ps1 ∪ (pm ∪ rest)) by (clear; set_solver).
      constructor; [apply Hmono; [sset|done]| |sset].
      apply Hrep; [|done|sset]. intros. apply Hmono; [sset|done].
Qed.

End chain_lemmas.
End chain.

(** ** Subtrees in the store *)

Section repr.
Context {V : Type}.
Variables (leafMax innerMax : nat).
Notation store := (gmap Z (page V)).
Implicit Types (st : store) (es : list (Z * V)) (ps : gset Z) (lo hi : option Z).

Fixpoint repr st (h : nat) (cur : PID) lo hi es ps : Prop :=
  match h with
  | O => ∃ lf, st !! cur = Some (PLeaf lf) ∧ leaf_wf leafMax lf ∧
      fence_ok (lf_lower lf) lo ∧ fence_ok (lf_upper lf) hi ∧
      Forall (λ e, in_range lo hi e.1) (leaf_entries lf) ∧ es = leaf_entries lf ∧ ps = {[cur]}
  | S h => ∃ nd ps', st !! cur = Some (PInner nd) ∧ inner_wf innerMax nd ∧
      Forall (inside lo hi) (inner_keys nd) ∧
      chain (repr st h) lo hi (inner_keys nd) (inner_children nd) es ps' ∧
      cur ∉ ps' ∧ ps = {[cur]} ∪ ps'
  end.

Lemma repr_range st h cur lo hi es ps :
  repr st h cur lo hi es ps → Forall (λ e, in_range lo hi e.1) es.
Proof.
  revert cur lo hi es ps. induction h as [|h IH]; intros cur lo hi es ps; simpl.
  - intros (lf & _ & _ & _ & _ & Hr & -> & _). done.
  - intros (nd & ps' & _ & (_ & _ & _ & Hs) & Hin & Hch & _). by eapply chain_range.
Qed.

Lemma repr_frame st st' h cur lo hi es ps :
  (∀ p, p ∈ ps → st' !! p = st !! p) → repr st h cur lo hi es ps → repr st' h cur lo hi es ps.
Proof.
  revert cur lo hi es ps. induction h as [|h IH]; intros cur lo hi es ps Hag; simpl.
  - intros (lf & Hl & ? & ? & ? & ? & ? & ->). exists lf. rewrite Hag by set_solver. done.
  - intros (nd & ps' & Hl & ? & ? & Hch & ? & ->). exists nd, ps'. rewrite Hag by set_solver.
    split_and!; try done. eapply chain_mono; [|done]. intros d l h' e p Hp. apply IH. set_solver.
Qed.

Lemma chain_pages_dom (R : PID → option Z → option Z → list (Z * V) → gset Z → Prop) st lo hi ks cs es ps :
  (∀ c lo hi es ps, R c lo hi es ps → ps ⊆ dom st) → chain R lo hi ks cs es ps → ps ⊆ dom st.
Proof. intros HR. induction 1; [eauto|]. apply union_subseteq. eauto. Qed.

Lemma repr_dom st h cur lo hi es ps : repr st h cur lo hi es ps → cur ∈ ps ∧ ps ⊆ dom st.
Proof.
  revert cur lo hi es ps. induction h as [|h IH]; intros cur lo hi es ps; simpl.
  - intros (lf & Hl & _ & _ & _ & _ & _ & ->). apply elem_of_dom_2 in Hl. set_solver.
  - intros (nd & ps' & Hl & _ & _ & Hch & _ & ->). apply elem_of_dom_2 in Hl.
    eapply chain_pages_dom in Hch; [set_solver|]. intros. by eapply IH.
Qed.

Lemma al_sorted_app (es1 es2 : list (Z * V)) : al_sorted es1 → al_sorted es2 →
  (∀ e1 e2, e1 ∈ es1 → e2 ∈ es2 → e1.1 < e2.1) → al_sorted (es1 ++ es2).
Proof.
  intros H1 H2 Hlt. unfold al_sorted. rewrite fmap_app. apply StronglySorted_app_2; [|done|done].
  intros x y (e1 & -> & He1)%list_elem_of_fmap (e2 & -> & He2)%list_elem_of_fmap. auto.
Qed.

Lemma chain_sorted (R : PID → option Z → option Z → list (Z * V) → gset Z → Prop) lo hi ks cs es ps :
  (∀ c lo hi es ps, R c lo hi es ps → Forall (λ e, in_range lo hi e.1) es ∧ al_sorted es) →
  chain R lo hi ks cs es ps → StronglySorted Z.lt ks → Forall (inside lo hi) ks → al_sorted es.
Proof.
  intros HR. induction 1 as [lo hi c es ps Hc|lo hi k ks c cs es1 es2 ps1 ps2 Hc Hch IH _]; intros Hs Hin.
  - by apply HR in Hc as [_ ?].
  - pose proof (chain_tail_inside _ _ _ _ Hs Hin) as Hin'. apply StronglySorted_inv in Hs as [Hs Hlt].
    destruct (HR _ _ _ _ _ Hc) as [Hr1 Hs1].
    assert (Forall (λ e, in_range (Some k) hi e.1) es2) as Hr2.
    { eapply (chain_range R); [|exact Hch|done|done]. intros. by eapply HR. }
    apply al_sorted_app; [done|auto|]. intros e1 e2 He1 He2.
    eapply Forall_forall in Hr1; [|done]. eapply Forall_forall in Hr2; [|done].
    unfold in_range in *. lia.
Qed.

Lemma repr_sorted st h cur lo hi es ps : repr st h cur lo hi es ps → al_sorted es.
Proof.
  revert cur lo hi es ps. induction h as [|h IH]; intros cur lo hi es ps; simpl.
  - intros (lf & _ & Hwf & _ & _ & _ & -> & _). by eapply leaf_entries_sorted.
  - intros (nd & ps' & _ & (_ & _ & _ & Hs) & Hin & Hch & _).
    eapply chain_sorted; [|done..]. intros. split; [by eapply repr_range|by eapply IH].
Qed.

(** Descending one level for key [k]. *)
Lemma repr_descend st h cur lo hi es ps nd k :
  repr st (S h) cur lo hi es ps → st !! cur = Some (PInner nd) → in_range lo hi k →
  ∃ ps0 c lo' hi' es1 es' es2 ps' rest,
    inner_wf innerMax nd ∧ Forall (inside lo hi) (inner_keys nd) ∧ cur ∉ ps0 ∧ ps = {[cur]} ∪ ps0 ∧
    focus (repr st h) lo hi (inner_keys nd) (inner_children nd) es ps0 (rank k (inner_keys nd))
      c lo' hi' es1 es' es2 ps' rest ∧ in_range lo' hi' k ∧
    arr_get (in_children nd) (rank k (inner_keys nd)) = Ok c.
Proof.
  simpl. intros (nd' & ps0 & Hl & Hwf & Hin & Hch & Hni & ->) Hl' Hk. simplify_eq.
  destruct (chain_focus (repr st h) (repr_range st h) _ _ _ _ _ _ k Hch) as
    (c & lo' & hi' & e1 & e' & e2 & ps' & rest & Hf & Hk'); [by destruct Hwf as (_&_&_&?)|done|done|].
  exists ps0, c, lo', hi', e1, e', e2, ps', rest. split_and!; try done.
  apply arr_get_lookup. pose proof (fc_child _ _ _ _ _ _ _ _ _ _ _ _ _ _ _ _ Hf) as Hc.
  unfold inner_children in Hc. by apply lookup_take_Some in Hc as [? _].
Qed.

(** The state of the whole tree. *)
Definition tree_ok st (entryPage : PID) es : Prop :=
  ∃ root h ps, st !! entryPage = Some (PEntry root h) ∧ repr st h root None None es ps ∧ entryPage ∉ ps.

End repr.
