(* ===== verification/BTreeInsert.v ===== *)
(** * Insertion into the tree

    One pass of [BTree::insert] either inserts the entry, or splits one node
    and asks for a restart; a measure on the full nodes of the search path
    decreases with every restart.  So [insert] returns, keeps the invariant and
    updates the map that the tree represents. *)

From S2P Require Import Prelude Defs BTreeNode BTree BTreeInv.
Local Open Scope Z_scope.

(** ** The measure *)

(** The passes needed for a path with [z] levels above it. *)
Fixpoint cost (z : nat) (path : list bool) : nat :=
  match path with
  | [] => 0
  | false :: r => cost (S z) r
  | true :: r => S z + cost (S (S z)) r
  end%nat.

(** Below a node that is not full, a full child is split; the node may fill up. *)
Inductive vstep : list bool → list bool → Prop :=
| vs_here b r : vstep (false :: true :: r) (b :: false :: r)
| vs_next r r' : vstep r r' → vstep (false :: r) (false :: r').

Lemma cost_mono z z' r : (z ≤ z')%nat → (cost z r ≤ cost z' r)%nat.
Proof.
  revert z z'. induction r as [|[] r IH]; intros z z' Hz; simpl; [done|..].
  - pose proof (IH (S (S z)) (S (S z')) ltac:(lia)). lia.
  - apply IH. lia.
Qed.

Lemma vstep_cost z r r' : vstep r r' → (cost z r' < cost z r)%nat.
Proof.
  intros Hv. revert z. induction Hv as [[] r|r r' _ IH]; intros z; simpl; [lia| |apply IH].
  pose proof (cost_mono (S (S z)) (S (S (S z))) r). lia.
Qed.

Lemma cost_bound z r : (cost z r ≤ length r * (z + length r))%nat.
Proof.
  revert z. induction r as [|[] r IH]; intros z; simpl; [done|..].
  - specialize (IH (S (S z))). nia.
  - specialize (IH (S z)). nia.
Qed.

(** ** Facts about page sets *)

Section page_sets.
Implicit Types (X Y A B : gset Z) (n c : Z).

Lemma set_cancel c X Y : c ∉ X → c ∉ Y → {[c]} ∪ X = {[c]} ∪ Y → X = Y.
Proof.
  intros HX HY E. apply set_eq. intros y.
  assert (y ∈ {[c]} ∪ X ↔ y ∈ {[c]} ∪ Y) as Hy by (by rewrite E).
  rewrite !elem_of_union, !elem_of_singleton in Hy. destruct (decide (y = c)) as [->|]; tauto.
Qed.

(** A child's pages [X] become [A ∪ B], with one new page [n], beside [Y]. *)
Lemma set_regroup A B X Y n : A ∪ B = X ∪ {[n]} → (X ∪ Y) ∪ {[n]} = (A ∪ B) ∪ Y.
Proof. intros ->. set_solver. Qed.
Lemma set_parts A B X Y n : A ∪ B = X ∪ {[n]} → A ⊆ (X ∪ Y) ∪ {[n]} ∧ B ⊆ (X ∪ Y) ∪ {[n]}.
Proof. intros E. assert (A ⊆ X ∪ {[n]} ∧ B ⊆ X ∪ {[n]}) by (rewrite <- E; set_solver). set_solver. Qed.
Lemma set_apart A B X Y D n : A ∪ B = X ∪ {[n]} → X ## Y → X ∪ Y ⊆ D → n ∉ D → A ∪ B ## Y.
Proof. intros ->. set_solver. Qed.

End page_sets.

Section insert_proof.
Context {V : Type}.
Variables (leafMax innerMax : nat).
Variables (junkK : list Z) (junkV : list V) (junkIK junkIP : list Z).
Variable alloc : gset Z → PID.
Variable entryPage : PID.
Hypothesis HleafMax : (2 ≤ leafMax)%nat.
Hypothesis HinnerMax : (5 ≤ innerMax)%nat.
Hypothesis HjunkK : length junkK = leafMax.
Hypothesis HjunkV : length junkV = leafMax.
Hypothesis HjunkIK : length junkIK = innerMax.
Hypothesis HjunkIP : length junkIP = innerMax.
(** The buffer manager never hands out the identifier of a page in use. *)
Hypothesis Halloc : ∀ X, alloc X ∉ X.

Notation store := (gmap Z (page V)).
Notation repr := (repr leafMax innerMax).
Implicit Types (st : store) (es : list (Z * V)) (ps : gset Z) (lo hi : option Z).

(** Which nodes on the search path of [k] are full, from the top. *)
Fixpoint path_full st (h : nat) (cur : PID) (k : Z) : list bool :=
  match h, st !! cur with
  | O, Some (PLeaf lf) => [leaf_isFull leafMax lf]
  | S h, Some (PInner nd) =>
      inner_isFull innerMax nd ::
      match inner_children nd !! rank k (inner_keys nd) with
      | Some c => path_full st h c k
      | None => []
      end
  | _, _ => []
  end.

Lemma path_full_frame st st' h cur lo hi es ps k :
  repr st h cur lo hi es ps → in_range lo hi k → (∀ p, p ∈ ps → st' !! p = st !! p) →
  path_full st' h cur k = path_full st h cur k.
Proof.
  revert cur lo hi es ps. induction h as [|h IH]; intros cur lo hi es ps Hr Hk Hag.
  - destruct Hr as (lf & Hl & _ & _ & _ & _ & _ & ->). simpl. by rewrite Hag by sset.
  - pose proof Hr as (nd & _ & Hl & _ & _ & _ & _ & _).
    destruct (repr_descend _ _ _ _ _ _ _ _ _ _ k Hr Hl Hk)
      as (ps0 & c & lo' & hi' & e1 & e' & e2 & ps' & rest & _ & _ & _ & -> & Hf & Hk' & _).
    destruct Hf as [Hc Hsub _ -> _ _ _ _ _ _ _ _ _].
    simpl. rewrite Hag by sset. rewrite Hl, Hc. f_equal.
    eapply IH; [done|done|]. intros p Hp. apply Hag. sset.
Qed.

Lemma path_full_length st h cur lo hi es ps k :
  repr st h cur lo hi es ps → in_range lo hi k → length (path_full st h cur k) = S h.
Proof.
  revert cur lo hi es ps. induction h as [|h IH]; intros cur lo hi es ps Hr Hk.
  - destruct Hr as (lf & Hl & _). simpl. by rewrite Hl.
  - pose proof Hr as (nd & _ & Hl & _ & _ & _ & _ & _).
    destruct (repr_descend _ _ _ _ _ _ _ _ _ _ k Hr Hl Hk)
      as (ps0 & c & lo' & hi' & e1 & e' & e2 & ps' & rest & _ & _ & _ & -> & Hf & Hk' & _).
    destruct Hf as [Hc Hsub _ -> _ _ _ _ _ _ _ _ _]. simpl. rewrite Hl, Hc. simpl. f_equal. by eapply IH.
Qed.

(** ** What one pass does to a subtree *)

Inductive pass st (h : nat) (par cur : PID) lo hi es ps (k : Z) (v : V) : result (store * outcome) → Prop :=
| pass_done st' :
    repr st' h cur lo hi (al_insert k v es) ps → (∀ p, p ∉ ps → st' !! p = st !! p) →
    pass st h par cur lo hi es ps k v (Ok (st', Done))
(** a node further down was split *)
| pass_below st' ps' :
    repr st' h cur lo hi es ps' → ps ⊆ ps' → (∀ p, p ∈ ps' → p ∉ ps → p ∉ dom st) →
    (∀ p, p ∉ ps' → st' !! p = st !! p) →
    vstep (path_full st h cur k) (path_full st' h cur k) →
    pass st h par cur lo hi es ps k v (Ok (st', Restart))
(** this node was split: the parent gets the separator *)
| pass_split st1 sep new es1 es2 ps1 ps2 r :
    repr st1 h cur lo (Some sep) es1 ps1 → repr st1 h new (Some sep) hi es2 ps2 →
    es = es1 ++ es2 → inside lo hi sep → ps1 ## ps2 → ps1 ∪ ps2 = ps ∪ {[new]} → new ∉ dom st →
    (∀ p, p ∉ ps ∪ {[new]} → st1 !! p = st !! p) →
    path_full st h cur k = true :: r →
    path_full st1 h (if decide (k <= sep) then cur else new) k = false :: r →
    pass st h par cur lo hi es ps k v
      (st' ← add_to_parent innerMax junkIK junkIP alloc entryPage st1 par sep cur new; Ok (st', Restart)).

Notation descend := (insert_descend leafMax innerMax junkK junkV junkIK junkIP alloc entryPage).

(** Entries on one side of a separator. *)
Lemma range_le lo hi sep es : Forall (λ e, e.1 <= sep) es → Forall (λ e, in_range lo hi e.1) es →
  Forall (λ e, in_range lo (Some sep) e.1) es.
Proof.
  intros H1 H2. rewrite Forall_forall in H1, H2 |- *. intros e He.
  specialize (H1 e He). specialize (H2 e He). unfold in_range in *. destruct lo, hi; simpl in *; lia.
Qed.
Lemma range_gt lo hi sep es : Forall (λ e, sep < e.1) es → Forall (λ e, in_range lo hi e.1) es →
  Forall (λ e, in_range (Some sep) hi e.1) es.
Proof.
  intros H1 H2. rewrite Forall_forall in H1, H2 |- *. intros e He.
  specialize (H1 e He). specialize (H2 e He). unfold in_range in *. destruct lo, hi; simpl in *; lia.
Qed.

(** A property of the keys is a property of the entries. *)
Lemma leaf_keys_entries (P : Z → Prop) (lf : BTreeLeaf V) : leaf_wf leafMax lf →
  (∀ x, x ∈ leaf_keys lf → P x) ↔ Forall (λ e, P e.1) (leaf_entries lf).
Proof.
  intros Hwf. rewrite <- (leaf_entries_fst _ _ Hwf), <- Forall_forall, Forall_fmap. done.
Qed.

(** The separator of a split leaf lies strictly inside its interval. *)
Lemma leaf_sep_inside lo hi sep (lf lf2 : BTreeLeaf V) :
  leaf_wf leafMax lf → leaf_wf leafMax lf2 → (0 < lf_count lf2)%nat →
  Forall (λ e, in_range lo hi e.1) (leaf_entries lf) →
  Forall (λ e, in_range lo hi e.1) (leaf_entries lf2) →
  (∀ x, x ∈ leaf_keys lf2 → sep < x) → sep ∈ leaf_keys lf → inside lo hi sep.
Proof.
  intros Hwf Hwf2 Hc Hr Hr2 Hgt Hsep.
  rewrite <- (leaf_keys_entries (in_range lo hi) lf Hwf) in Hr.
  rewrite <- (leaf_keys_entries (in_range lo hi) lf2 Hwf2) in Hr2.
  destruct (Hr sep Hsep) as [Hs1 _]. split; [done|]. destruct hi as [h|]; [|done].
  destruct (leaf_lengths _ _ Hwf2) as [Hlen2 _].
  destruct (lookup_lt_is_Some_2 (leaf_keys lf2) 0) as [x Hx]; [lia|].
  apply list_elem_of_lookup_2 in Hx. specialize (Hgt x Hx). destruct (Hr2 x Hx) as [_ ?]. lia.
Qed.

Lemma new_not_used st (cur : PID) (pg : page V) : st !! cur = Some pg → alloc (dom st) ≠ cur.
Proof. intros Hl E. apply (Halloc (dom st)). rewrite E. by eapply elem_of_dom_2. Qed.

Lemma pass_leaf_full st par cur lo hi es ps k v lf :
  repr st 0 cur lo hi es ps → st !! cur = Some (PLeaf lf) → lf_count lf = leafMax →
  pass st 0 par cur lo hi es ps k v (descend 0 st par cur k v).
Proof.
  intros (lf' & Hl & Hwf & Hlo & Hhi & Hrng & -> & ->) Hl' Hfull.
  assert (lf' = lf) as -> by congruence.
  cbn [insert_descend]. unfold get_leaf. rewrite Hl. cbn [mbind result_bind].
  unfold leaf_isFull. rewrite bool_decide_eq_true_2 by done.
  destruct (leaf_split_ok leafMax junkK junkV HleafMax HjunkK HjunkV lf Hwf Hfull)
    as (sep & lf1 & lf2 & -> & Hwf1 & Hwf2 & Hes & Hle & Hgt & Hsep & Hf1 & Hf2 & Hf3 & Hf4 & Hc1 & Hc2).
  cbn [mbind result_bind]. set (new := alloc (dom st)).
  assert (new ≠ cur) as Hne by (by eapply new_not_used).
  pose proof Hrng as Hrng'. rewrite Hes in Hrng'. apply Forall_app in Hrng' as [Hr1 Hr2].
  eapply (pass_split _ _ _ _ _ _ _ _ _ _ _ sep new (leaf_entries lf1) (leaf_entries lf2)
    {[cur]} {[new]} []); try done.
  - exists lf1. rewrite lookup_insert_eq. rewrite Hf1, Hf2. split_and!; try done.
    eapply range_le; [|done]. by apply (leaf_keys_entries (λ x, x <= sep)).
  - exists lf2. rewrite lookup_insert_ne, lookup_insert_eq by done. rewrite Hf3, Hf4.
    split_and!; try done. eapply range_gt; [|done]. by apply (leaf_keys_entries (λ x, sep < x)).
  - eapply (leaf_sep_inside _ _ _ lf lf2); try done. lia.
  - sset.
  - apply Halloc.
  - intros p Hp. rewrite !lookup_insert_ne; [done|sset..].
  - simpl. rewrite Hl. unfold leaf_isFull. by rewrite bool_decide_eq_true_2.
  - simpl. case_decide; rewrite ?lookup_insert_eq; [|rewrite lookup_insert_ne, lookup_insert_eq by done];
      unfold leaf_isFull; rewrite bool_decide_eq_false_2; (done || lia).
Qed.

Lemma pass_leaf st par cur lo hi es ps k v :
  repr st 0 cur lo hi es ps → in_range lo hi k →
  pass st 0 par cur lo hi es ps k v (descend 0 st par cur k v).
Proof.
  intros Hr Hk. pose proof Hr as (lf & Hl & Hwf & Hlo & Hhi & Hrng & -> & ->).
  destruct (decide (lf_count lf = leafMax)) as [Hfull|Hfull]; [by eapply pass_leaf_full|].
  cbn [insert_descend]. unfold get_leaf. rewrite Hl. cbn [mbind result_bind].
  unfold leaf_isFull. rewrite bool_decide_eq_false_2 by done.
  pose proof Hwf as (_ & _ & Hcnt & _).
  destruct (leaf_insert_ok leafMax lf k v Hwf ltac:(lia)) as (lf' & -> & Hwf' & He' & Hlo' & Hhi').
  cbn [mbind result_bind]. apply pass_done.
  - exists lf'. rewrite lookup_insert_eq, Hlo', Hhi', He'. split_and!; try done.
    unfold al_insert. rewrite Forall_app, Forall_cons. split_and!; [|done|];
      apply Forall_forall; intros e [_ He]%list_elem_of_filter; by eapply Forall_forall in Hrng.
  - intros p Hp. rewrite lookup_insert_ne by sset. done.
Qed.

(** An inner node that is full is split. *)
Lemma pass_inner_full st h par cur lo hi es ps k v nd :
  repr st (S h) cur lo hi es ps → in_range lo hi k → st !! cur = Some (PInner nd) →
  in_count nd = (innerMax - 1)%nat →
  pass st (S h) par cur lo hi es ps k v (descend (S h) st par cur k v).
Proof.
  intros Hr Hk Hl Hfull. pose proof Hr as (nd' & ps0 & Hl' & Hwf & Hin & Hch & Hni & ->).
  assert (nd' = nd) as -> by congruence.
  pose proof (repr_descend _ _ _ _ _ _ _ _ _ _ k Hr Hl Hk)
    as (ps0' & c & lo' & hi' & e1 & e' & e2 & psc & rest & _ & _ & Hni' & Eps & Hf & Hk' & _).
  assert (ps0' = ps0) as -> by (by eapply set_cancel).
  cbn [insert_descend]. unfold get_inner. rewrite Hl. cbn [mbind result_bind].
  unfold inner_isFull. rewrite bool_decide_eq_true_2 by done.
  destruct (inner_split_ok innerMax junkIK junkIP nd HinnerMax HjunkIK HjunkIP Hwf Hfull)
    as (i & sep & nd1 & nd2 & -> & Hwf1 & Hwf2 & Hsep & Hk1 & Hk2 & Hc1 & Hc2 & Hn1 & Hn2).
  cbn [mbind result_bind]. set (new := alloc (dom st)).
  assert (new ≠ cur) as Hne by (by eapply new_not_used).
  assert (new ∉ ps0) as Hnew.
  { destruct (repr_dom _ _ _ _ _ _ _ _ _ Hr) as [_ Hd]. pose proof (Halloc (dom st)). sset. }
  destruct (chain_split_at _ _ _ _ _ _ _ _ _ Hch Hsep) as (es1 & es2 & ps1 & ps2 & -> & -> & Hdis & Ha & Hb).
  set (st1 := <[cur := PInner nd1]> (<[new := PInner nd2]> st)).
  assert (∀ p, p ≠ cur → p ≠ new → st1 !! p = st !! p) as Hag.
  { intros p ? ?. unfold st1. by rewrite !lookup_insert_ne. }
  assert (∀ d l h0 e p, p ⊆ ps1 ∪ ps2 → repr st h d l h0 e p → repr st1 h d l h0 e p) as Hmono.
  { intros d l h0 e p Hp. apply repr_frame. intros q Hq. apply Hag; sset. }
  pose proof Hin as Hins. eapply Forall_lookup_1 in Hins; [|exact Hsep].
  destruct Hwf as (_ & _ & _ & Hs).
  destruct Hf as [Hfc Hfs _ Efps _ _ _ _ _ _ _ _ _].
  assert (path_full st1 h c k = path_full st h c k) as Hpf.
  { eapply path_full_frame; [done|done|]. intros p Hp. apply Hag; sset. }
  eapply (pass_split _ _ _ _ _ _ _ _ _ _ st1 sep new es1 es2 ({[cur]} ∪ ps1) ({[new]} ∪ ps2)
    (path_full st h c k)); try done.
  - exists nd1, ps1. unfold st1 at 1. rewrite lookup_insert_eq, Hk1, Hc1. split_and!; try done; [|..].
    + by eapply inside_take.
    + eapply chain_mono; [|done]. intros. apply Hmono; [sset|done].
    + sset.
  - exists nd2, ps2. unfold st1 at 1. rewrite lookup_insert_ne, lookup_insert_eq, Hk2, Hc2 by done.
    split_and!; try done; [|..].
    + by eapply inside_drop.
    + eapply chain_mono; [|done]. intros. apply Hmono; [sset|done].
    + sset.
  - sset.
  - sset.
  - apply Halloc.
  - intros p Hp. apply Hag; sset.
  - simpl. rewrite Hl, Hfc. unfold inner_isFull. by rewrite bool_decide_eq_true_2.
  - rewrite <- Hpf. simpl. unfold inner_isFull. case_decide as Hks.
    + destruct (rank_take k (inner_keys nd) i sep Hs Hsep Hks) as [Er Hri].
      unfold st1 at 1. rewrite lookup_insert_eq, Hk1, Hc1, Er, lookup_take_lt, Hfc by lia.
      by rewrite bool_decide_eq_false_2 by lia.
    + pose proof (rank_drop k (inner_keys nd) i sep Hs Hsep ltac:(lia)) as Er.
      unfold st1 at 1. rewrite lookup_insert_ne, lookup_insert_eq, Hk2, Hc2, lookup_drop, <- Er, Hfc by done.
      by rewrite bool_decide_eq_false_2 by lia.
Qed.

(** The separator of a split child enters the node above it. *)
Lemma absorb_split st h cur lo hi es ps0 k nd c lo' hi' e1 e' e2 psc rest st1 sep new ea eb pa pb r :
  repr st (S h) cur lo hi es ({[cur]} ∪ ps0) → st !! cur = Some (PInner nd) → cur ∉ ps0 →
  cur ≠ entryPage → (in_count nd < innerMax - 1)%nat →
  focus (repr st h) lo hi (inner_keys nd) (inner_children nd) es ps0 (rank k (inner_keys nd))
    c lo' hi' e1 e' e2 psc rest → in_range lo' hi' k →
  repr st1 h c lo' (Some sep) ea pa → repr st1 h new (Some sep) hi' eb pb →
  e' = ea ++ eb → inside lo' hi' sep → pa ## pb → pa ∪ pb = psc ∪ {[new]} → new ∉ dom st →
  (∀ p, p ∉ psc ∪ {[new]} → st1 !! p = st !! p) →
  path_full st h c k = true :: r →
  path_full st1 h (if decide (k <= sep) then c else new) k = false :: r →
  ∃ st', add_to_parent innerMax junkIK junkIP alloc entryPage st1 cur sep c new = Ok st' ∧
    repr st' (S h) cur lo hi es ({[cur]} ∪ (ps0 ∪ {[new]})) ∧
    (∀ p, p ∉ {[cur]} ∪ (ps0 ∪ {[new]}) → st' !! p = st !! p) ∧
    vstep (path_full st (S h) cur k) (path_full st' (S h) cur k).
Proof.
  intros Hr Hl Hni Hne Hnf [Hfc Hfs Efe Efp Hfd Hrank Hfresh _ _ _ Hfin _ Hspl] Hk' Ha Hb -> Hins Hdab Epab Hnew Hag Hp1 Hp2.
  destruct Hr as (nd0 & ps1 & Hl0 & Hwf & Hin & Hch & Hni1 & Eps). assert (nd0 = nd) as -> by congruence.
  assert (ps1 = ps0) as -> by (by eapply set_cancel). clear Eps.
  assert (ps0 ⊆ dom st) as Hdom.
  { eapply chain_pages_dom; [|exact Hch]. intros. by eapply repr_dom. }
  assert (cur ≠ new) as Hcn by (intros ->; apply Hnew; by eapply elem_of_dom_2).
  assert (st1 !! cur = Some (PInner nd)) as Hl1 by (rewrite Hag; [done|sset]).
  unfold add_to_parent. rewrite (proj2 (Z.eqb_neq cur entryPage)) by done.
  unfold get_inner. rewrite Hl1. cbn [mbind result_bind].
  destruct (inner_insert_ok innerMax nd sep new Hwf Hnf (Hfresh sep Hins))
    as (nd' & -> & Hwf' & Hk1 & Hc1 & Hcnt). cbn [mbind result_bind].
  rewrite (Hrank sep (inside_in_range _ _ _ Hins)) in Hk1, Hc1.
  set (i := rank k (inner_keys nd)) in *.
  eexists. split; [done|].
  assert (∀ d l h0 e p, p ⊆ ps0 ∪ {[new]} → repr st1 h d l h0 e p →
    repr (<[cur:=PInner nd']> st1) h d l h0 e p) as Hmono.
  { intros d l h0 e p Hp. apply repr_frame. intros q Hq. apply lookup_insert_ne. sset. }
  split; [|split].
  - exists nd', (ps0 ∪ {[new]}). rewrite lookup_insert_eq, Hk1, Hc1. split_and!; try done.
    + rewrite Forall_app, Forall_cons. split_and!.
      * by apply Forall_take.
      * by apply Hfin.
      * by apply Forall_drop.
    + rewrite Efe. subst ps0. rewrite (set_regroup _ _ _ rest _ Epab).
      destruct (set_parts _ _ _ rest _ Epab) as [Hpa Hpb].
      apply Hspl; [|by apply Hmono|by apply Hmono|done|by eapply set_apart].
      intros d l h0 e p Hp Hd. apply Hmono; [sset|]. eapply repr_frame; [|done].
      intros q Hq. apply Hag. sset.
    + sset.
  - intros p Hp. rewrite lookup_insert_ne by sset. apply Hag. sset.
  - simpl. rewrite Hl, lookup_insert_eq. fold i. rewrite Hfc, Hp1. unfold inner_isFull at 1.
    rewrite bool_decide_eq_false_2 by lia. rewrite Hk1, Hc1.
    destruct Hwf as (_ & _ & _ & Hs).
    rewrite (rank_insert_sep k sep _ i Hs (Hfresh sep Hins) (Hrank sep (inside_in_range _ _ _ Hins)) eq_refl).
    assert (length (take (S i) (inner_children nd)) = S i) as Hlen.
    { apply lookup_lt_Some in Hfc. rewrite length_take. lia. }
    case_decide as Hks.
    + rewrite lookup_app_l, lookup_take_lt, Hfc by lia.
      erewrite path_full_frame; [rewrite Hp2; constructor|exact Ha| |].
      * unfold in_range in *. destruct lo'; lia.
      * intros p Hp. apply lookup_insert_ne. sset.
    + rewrite lookup_app_r, Hlen, Nat.sub_diag by lia. simpl.
      erewrite path_full_frame; [rewrite Hp2; constructor|exact Hb| |].
      * unfold in_range in *. destruct hi'; lia.
      * intros p Hp. apply lookup_insert_ne. sset.
Qed.

(** A node that is not full passes on what happens to its child. *)
Lemma pass_inner st h par cur lo hi es ps k v nd :
  repr st (S h) cur lo hi es ps → in_range lo hi k → entryPage ∉ ps → st !! cur = Some (PInner nd) →
  (in_count nd < innerMax - 1)%nat →
  (∀ c lo' hi' es' ps', repr st h c lo' hi' es' ps' → in_range lo' hi' k → entryPage ∉ ps' →
     pass st h cur c lo' hi' es' ps' k v (descend h st cur c k v)) →
  pass st (S h) par cur lo hi es ps k v (descend (S h) st par cur k v).
Proof.
  intros Hr Hk Hep Hl Hnf IH. destruct (repr_descend _ _ _ _ _ _ _ _ _ _ k Hr Hl Hk)
    as (ps0 & c & lo' & hi' & e1 & e' & e2 & psc & rest & Hwf & Hin & Hni & -> & Hf & Hk' & Hgc).
  cbn [insert_descend]. unfold get_inner. rewrite Hl. cbn [mbind result_bind].
  unfold inner_isFull. rewrite bool_decide_eq_false_2 by lia.
  rewrite (inner_lowerBoundBF_rank innerMax) by done. cbn [mbind result_bind]. rewrite Hgc.
  cbn [mbind result_bind]. pose proof Hf as [Hfc Hfs Efe Efp Hfd _ _ Hbef Haft _ _ Hrep _].
  assert (path_full st (S h) cur k = false :: path_full st h c k) as Hpath.
  { simpl. rewrite Hl, Hfc. unfold inner_isFull. by rewrite bool_decide_eq_false_2 by lia. }
  assert (rest ⊆ dom st) as Hrd.
  { destruct (repr_dom _ _ _ _ _ _ _ _ _ Hr) as [_ Hd]. sset. }
  assert (cur ∈ dom st) as Hcd by (by eapply elem_of_dom_2).
  specialize (IH c lo' hi' e' psc Hfs Hk' ltac:(sset)). destruct IH as [st' Hr' Hag|st' psc' Hr' Hsub Hnew Hag Hv|].
  - apply pass_done; [|intros p Hp; apply Hag; sset].
    exists nd, ps0. rewrite Hag by sset. split_and!; try done.
    rewrite Efe, al_insert_middle by (intros; by (eapply Hbef || eapply Haft)).
    rewrite Efp. apply Hrep; [|done|done]. intros d l h0 e p Hp. apply repr_frame.
    intros q Hq. apply Hag. sset.
  - assert (psc' ## rest) as Hd'.
    { intros p Hp1 Hp2. destruct (decide (p ∈ psc)); [by apply (Hfd p)|]. by apply (Hnew p); [..|apply Hrd]. }
    assert (cur ∉ psc') as Hnc.
    { intros Hc. destruct (decide (cur ∈ psc)); [sset|]. by apply (Hnew cur). }
    apply (pass_below _ _ _ _ _ _ _ _ _ _ st' ({[cur]} ∪ (psc' ∪ rest))).
    + exists nd, (psc' ∪ rest). rewrite Hag by done. split_and!; try done; [|sset].
      rewrite Efe. apply Hrep; [|done|done]. intros d l h0 e p Hp. apply repr_frame.
      intros q Hq. apply Hag. sset.
    + sset.
    + intros p Hp1 Hp2. apply Hnew; sset.
    + intros p Hp. apply Hag. sset.
    + rewrite Hpath. simpl. rewrite Hag, Hl, Hfc by done. unfold inner_isFull.
      rewrite bool_decide_eq_false_2 by lia. by apply vs_next.
  - edestruct absorb_split as (st' & -> & Hr' & Hag & Hv); try done; [sset|].
    cbn [mbind result_bind]. apply (pass_below _ _ _ _ _ _ _ _ _ _ st' ({[cur]} ∪ (ps0 ∪ {[new]}))); try done.
    + sset.
    + intros p Hp1 Hp2. assert (p = new) as -> by sset. done.
Qed.

Lemma pass_ok h st par cur lo hi es ps k v :
  repr st h cur lo hi es ps → in_range lo hi k → entryPage ∉ ps →
  pass st h par cur lo hi es ps k v (descend h st par cur k v).
Proof.
  revert par cur lo hi es ps. induction h as [|h IH]; intros par cur lo hi es ps Hr Hk Hep;
    [by apply pass_leaf|].
  pose proof Hr as (nd & ps0 & Hl & (_ & _ & Hc & _) & _).
  destruct (decide (in_count nd = innerMax - 1)%nat); [by eapply pass_inner_full|].
  eapply pass_inner; [done..|lia|]. intros. by apply IH.
Qed.

(** ** The root *)

Lemma makeRoot_ok st1 h cur new lo hi sep es1 es2 ps1 ps2 root0 h0 k r :
  repr st1 h cur lo (Some sep) es1 ps1 → repr st1 h new (Some sep) hi es2 ps2 → ps1 ## ps2 →
  inside lo hi sep → st1 !! entryPage = Some (PEntry root0 h0) → entryPage ∉ ps1 ∪ ps2 →
  in_range lo hi k → path_full st1 h (if decide (k <= sep) then cur else new) k = false :: r →
  ∃ st' root ps', makeRoot junkIK junkIP alloc entryPage st1 sep cur new = Ok st' ∧
    st' !! entryPage = Some (PEntry root (h0 + 1)) ∧
    repr st' (S h) root lo hi (es1 ++ es2) ps' ∧ entryPage ∉ ps' ∧
    path_full st' (S h) root k = false :: false :: r.
Proof.
  intros Ha Hb Hd Hins He Hep Hk Hp. set (root := alloc (dom st1)).
  destruct (repr_dom _ _ _ _ _ _ _ _ _ Ha) as [_ Hda]. destruct (repr_dom _ _ _ _ _ _ _ _ _ Hb) as [_ Hdb].
  assert (root ∉ dom st1) as Hroot by apply Halloc.
  assert (root ≠ entryPage) as Hne by (by eapply new_not_used).
  destruct junkIK as [|k0 [|k1 ks]]; [simpl in HjunkIK; lia..|].
  destruct junkIP as [|c0 [|c1 cs]]; [simpl in HjunkIP; lia..|].
  unfold makeRoot. fold root. cbn [inner_new in_keys in_children in_lower in_upper].
  rewrite !arr_set_lt by (simpl; lia). cbn [mbind result_bind].
  rewrite arr_set_lt by (simpl; lia). cbn [mbind result_bind]. unfold get_entry. rewrite He.
  cbn [mbind result_bind]. eexists _, root, ({[root]} ∪ (ps1 ∪ ps2)). split; [done|].
  set (st' := <[entryPage := PEntry root (h0 + 1)]> _).
  assert (∀ p, p ∈ ps1 ∪ ps2 → st' !! p = st1 !! p) as Hag.
  { intros p Hp'. unfold st'. rewrite !lookup_insert_ne; [done|intros ->; sset..]. }
  split; [by unfold st'; rewrite lookup_insert_eq|].
  assert (st' !! root = Some (PInner (mkInner 1 infinity infinity (sep :: k1 :: ks) (cur :: new :: cs)))) as Hlr.
  { unfold st'. by rewrite lookup_insert_ne, lookup_insert_eq. }
  split; [|split; [sset|]].
  - eexists _, (ps1 ∪ ps2). split; [exact Hlr|].
    unfold inner_wf, inner_keys, inner_children. cbn [in_count in_keys in_children take].
    split; [simpl in *; split_and!; try lia; repeat constructor|].
    split; [by apply Forall_singleton|]. split; [|split; [sset|done]].
    constructor; [eapply repr_frame; [|done]|constructor; eapply repr_frame; [|done]|done];
      intros p Hp'; apply Hag; sset.
  - simpl. rewrite Hlr. unfold inner_isFull, inner_keys, inner_children. cbn [in_count in_keys in_children take].
    rewrite bool_decide_eq_false_2 by lia. f_equal. rewrite <- Hp. case_decide as Hks.
    + rewrite rank_cons_ge by (try done; repeat constructor). simpl.
      eapply path_full_frame; [exact Ha| |intros p Hp'; apply Hag; sset]. unfold in_range in *. destruct lo; simpl; lia.
    + rewrite rank_cons_lt, rank_nil by lia. simpl.
      eapply path_full_frame; [exact Hb| |intros p Hp'; apply Hag; sset]. unfold in_range in *. destruct hi; simpl; lia.
Qed.

(** ** The loop *)

(** One pass over the whole tree. *)
Lemma pass_tree st es root h ps k v :
  st !! entryPage = Some (PEntry root h) → repr st h root None None es ps → entryPage ∉ ps →
  (∃ st', descend h st entryPage root k v = Ok (st', Done) ∧
     tree_ok leafMax innerMax st' entryPage (al_insert k v es)) ∨
  (∃ st' root' h' ps', descend h st entryPage root k v = Ok (st', Restart) ∧
     st' !! entryPage = Some (PEntry root' h') ∧ repr st' h' root' None None es ps' ∧ entryPage ∉ ps' ∧
     (cost 0 (path_full st' h' root' k) < cost 0 (path_full st h root k))%nat).
Proof.
  intros He Hr Hep. assert (in_range None None k) as Hk by done.
  destruct (pass_ok h st entryPage root None None es ps k v Hr Hk Hep)
    as [st' Hr' Hag|st' ps' Hr' Hsub Hnew Hag Hv|st1 sep new es1 es2 ps1 ps2 r Ha Hb -> Hins Hd Eps Hnew Hag Hp1 Hp2].
  - left. exists st'. split; [done|]. exists root, h, ps. by rewrite Hag.
  - assert (entryPage ∉ ps') as Hep'.
    { intros Hin. apply (Hnew entryPage); [done..|]. by eapply elem_of_dom_2. }
    right. exists st', root, h, ps'. rewrite Hag by done. split_and!; try done. by apply vstep_cost.
  - assert (entryPage ≠ new) as Hne by (intros ->; apply Hnew; by eapply elem_of_dom_2).
    assert (entryPage ∉ ps1 ∪ ps2) as Hep' by (rewrite Eps; sset).
    assert (st1 !! entryPage = Some (PEntry root h)) as He1 by (rewrite Hag; [done|sset]).
    destruct (makeRoot_ok st1 h root new None None sep es1 es2 ps1 ps2 root h k r)
      as (st' & root' & ps' & Hmk & He' & Hr' & Hep'' & Hp'); try done.
    right. exists st', root', (S h), ps'. unfold add_to_parent. rewrite Z.eqb_refl, Hmk.
    rewrite He', Nat.add_1_r. split_and!; try done. rewrite Hp', Hp1. simpl. lia.
Qed.

Lemma insert_loop_ok fuel st es root h ps k v :
  st !! entryPage = Some (PEntry root h) → repr st h root None None es ps → entryPage ∉ ps →
  (cost 0 (path_full st h root k) < fuel)%nat →
  ∃ st', insert_loop leafMax innerMax junkK junkV junkIK junkIP alloc entryPage fuel st k v = Ok st' ∧
    tree_ok leafMax innerMax st' entryPage (al_insert k v es).
Proof.
  revert st root h ps. induction fuel as [|fuel IH]; intros st root h ps He Hr Hep Hf; [lia|].
  cbn [insert_loop]. unfold get_entry. rewrite He. cbn [mbind result_bind].
  destruct (pass_tree st es root h ps k v He Hr Hep)
    as [(st' & -> & Hok)|(st' & root' & h' & ps' & -> & He' & Hr' & Hep' & Hc)]; cbn [mbind result_bind].
  - eauto.
  - eapply IH; [done..|lia].
Qed.

Lemma insert_tree_ok st es k v : tree_ok leafMax innerMax st entryPage es →
  ∃ st', insert leafMax innerMax junkK junkV junkIK junkIP alloc entryPage st k v = Ok st' ∧
    tree_ok leafMax innerMax st' entryPage (al_insert k v es).
Proof.
  intros (root & h & ps & He & Hr & Hep). unfold insert, get_entry. rewrite He.
  cbn [mbind result_bind]. eapply insert_loop_ok; [done..|].
  pose proof (cost_bound 0 (path_full st h root k)) as Hb.
  erewrite path_full_length in Hb by done. unfold insert_fuel. lia.
Qed.

End insert_proof.
