(* ===== verification/BTreeLookup.v ===== *)
(** * Lookups, updates in place and removals *)

From S2P Require Import Prelude Defs BTreeNode BTree BTreeInv.
Local Open Scope Z_scope.

Section lookup_proof.
Context {V : Type}.
Variables (leafMax innerMax : nat).
Notation store := (gmap Z (page V)).
Notation repr := (repr leafMax innerMax).
Implicit Types (st : store) (es : list (Z * V)) (ps : gset Z) (lo hi : option Z) (lf : BTreeLeaf V).

(** Replacing the leaf [lf] by [lf'] keeps what the tree needs of it. *)
Definition leaf_compatible lo hi (lf lf' : BTreeLeaf V) : Prop :=
  leaf_wf leafMax lf' ∧ lf_lower lf' = lf_lower lf ∧ lf_upper lf' = lf_upper lf ∧
  Forall (λ e, in_range lo hi e.1) (leaf_entries lf').

(** The search reaches the leaf whose interval contains the key. *)
Lemma find_leaf_ok h st cur lo hi es ps k :
  repr st h cur lo hi es ps → in_range lo hi k →
  ∃ pid lf lo' hi' es1 es2,
    find_leaf h st cur k = Ok pid ∧ st !! pid = Some (PLeaf lf) ∧ leaf_wf leafMax lf ∧
    pid ∈ ps ∧ in_range lo' hi' k ∧
    Forall (λ e, in_range lo' hi' e.1) (leaf_entries lf) ∧
    es = es1 ++ leaf_entries lf ++ es2 ∧
    (∀ e, e ∈ es1 → e.1 < k) ∧ (∀ e, e ∈ es2 → k < e.1) ∧
    (∀ lf', leaf_compatible lo' hi' lf lf' →
       repr (<[pid := PLeaf lf']> st) h cur lo hi (es1 ++ leaf_entries lf' ++ es2) ps).
Proof.
  revert cur lo hi es ps. induction h as [|h IH]; intros cur lo hi es ps Hr Hk.
  - pose proof Hr as (lf & Hl & Hwf & Hlo & Hhi & Hrng & -> & ->).
    exists cur, lf, lo, hi, [], []. simpl. rewrite app_nil_r.
    split_and!; try done; try (by intros e He; apply elem_of_nil in He); [set_solver|].
    intros lf' (Hwf' & El & Eh & Hrng'). exists lf'. rewrite lookup_insert_eq, El, Eh, app_nil_r. done.
  - pose proof Hr as (nd & _ & Hl & _).
    destruct (repr_descend _ _ _ _ _ _ _ _ _ _ k Hr Hl Hk)
      as (ps0 & c & lo1 & hi1 & e1 & e' & e2 & psc & rest & Hwf & Hin & Hni & -> & Hf & Hk' & Hgc).
    cbn [find_leaf]. unfold get_inner. rewrite Hl. cbn [mbind result_bind].
    rewrite (inner_lowerBoundBF_rank innerMax) by done. cbn [mbind result_bind]. rewrite Hgc.
    cbn [mbind result_bind]. destruct Hf as [Hfc Hfs -> -> Hfd _ _ Hbef Haft _ _ Hrep _].
    destruct (IH c lo1 hi1 e' psc Hfs Hk') as
      (pid & lf & lo' & hi' & es1 & es2 & -> & Hlf & Hwf' & Hpid & Hk2 & Hrng & -> & He1 & He2 & Hnew).
    exists pid, lf, lo', hi', (e1 ++ es1), (es2 ++ e2). rewrite <- !app_assoc.
    split_and!; try done.
    + sset.
    + intros e [He|He]%elem_of_app; [by eapply Hbef|auto].
    + intros e [He|He]%elem_of_app; [auto|by eapply Haft].
    + intros lf' Hc. specialize (Hnew lf' Hc). exists nd, (psc ∪ rest).
      rewrite lookup_insert_ne by (intros ->; sset). split_and!; try done.
      replace ((e1 ++ es1) ++ leaf_entries lf' ++ es2 ++ e2)
        with (e1 ++ (es1 ++ leaf_entries lf' ++ es2) ++ e2) by (by rewrite <- !app_assoc).
      apply Hrep; [|done|done]. intros d l h0 e p Hp. apply repr_frame.
      intros q Hq. apply lookup_insert_ne. intros ->. sset.
Qed.

(** The leaf is full and all its keys are smaller: the search position is behind
    the arrays. *)
Definition past_leaf (lf : BTreeLeaf V) (k : Z) : bool :=
  bool_decide (lf_count lf = leafMax) && forallb (λ x, x <? k) (leaf_keys lf).

Lemma rank_full k ks : rank k ks = length ks ↔ forallb (λ x, x <? k) ks = true.
Proof.
  unfold rank. induction ks as [|x ks IH]; [done|]. cbn [forallb length]. rewrite filter_cons.
  pose proof (length_filter (λ x, x < k) ks). destruct (Z.ltb_spec x k); case_decide; cbn [andb length]; try lia.
  rewrite <- IH. lia.
Qed.

(** A search position in a leaf, empty leaves included. *)
Lemma leaf_search lf k : (2 ≤ leafMax)%nat → leaf_wf leafMax lf →
  ∃ pos, leaf_lowerBound lf k = Ok pos ∧ leaf_hit lf pos k = Ok (bool_decide (k ∈ leaf_keys lf)) ∧
    (k ∈ leaf_keys lf → leaf_keys lf !! pos = Some k) ∧
    (if past_leaf lf k then leafMax ≤ pos else pos < leafMax)%nat.
Proof.
  intros Hmax Hwf. destruct (decide (lf_count lf = 0%nat)) as [H0|H0].
  - pose proof Hwf as (Hk & _). unfold leaf_lowerBound, lowerBound. rewrite H0.
    cbn [lowerBound_loop]. change ((0 - 0) / 2 + 0)%nat with 0%nat.
    destruct (lookup_lt_is_Some_2 (lf_keys lf) 0) as [x Hx]; [lia|].
    rewrite (arr_get_lookup _ _ _ Hx). cbn [mbind result_bind].
    assert (leaf_keys lf = []) as -> by (unfold leaf_keys; by rewrite H0).
    rewrite bool_decide_eq_false_2 by apply not_elem_of_nil.
    assert (∀ pos, leaf_hit lf pos k = Ok false) as Hh.
    { intros pos. unfold leaf_hit. by rewrite decide_False by lia. }
    assert (past_leaf lf k = false) as -> by (unfold past_leaf; rewrite bool_decide_eq_false_2 by lia; done).
    destruct (k <? x), (x <? k); eexists; (split; [done|]); (split; [apply Hh|]); (split; [by intros ?%elem_of_nil|cbn; lia]).
  - exists (rank k (leaf_keys lf)). rewrite (leaf_lowerBound_rank leafMax), (leaf_hit_spec leafMax) by done.
    split; [done|]. split; [done|]. pose proof Hwf as (_ & _ & Hc & Hs). split; [by rewrite rank_elem|].
    pose proof (rank_full k (leaf_keys lf)) as Hf. destruct (leaf_lengths _ _ Hwf) as [Hlen _]. pose proof (rank_length k (leaf_keys lf)).
    unfold past_leaf. case_bool_decide as E; cbn [andb]; [|lia]. destruct (forallb _ _) eqn:Ef; [rewrite (proj2 Hf) by done; lia|].
    assert (rank k (leaf_keys lf) ≠ length (leaf_keys lf)) by (intros Hx; apply Hf in Hx; done). lia.
Qed.

(** A payload is found where its key is. *)
Lemma leaf_payload lf pos k v : leaf_wf leafMax lf → leaf_keys lf !! pos = Some k →
  (k, v) ∈ leaf_entries lf → lf_payloads lf !! pos = Some v.
Proof.
  intros Hwf Hp He. pose proof Hwf as (_ & _ & _ & Hs).
  apply list_elem_of_lookup in He as [j Hj]. unfold leaf_entries in Hj.
  apply lookup_zip_with_Some in Hj as (k' & v' & [= <- <-] & Hk & Hv).
  assert (j = pos) as -> by (rewrite <- (rank_hit k _ _ Hs Hk); by apply rank_hit).
  by apply lookup_take_Some in Hv as [? _].
Qed.

Lemma leaf_keys_elem lf k : leaf_wf leafMax lf → k ∈ leaf_keys lf ↔ ∃ v, (k, v) ∈ leaf_entries lf.
Proof.
  intros Hwf. rewrite <- (leaf_entries_fst _ _ Hwf), list_elem_of_fmap. split.
  - intros ([k' v] & -> & He). eauto.
  - intros (v & He). by exists (k, v).
Qed.

(** An entry with key [k] is in the leaf the search reaches. *)
Lemma middle_elem k (v : V) es1 es es2 : (∀ e, e ∈ es1 → e.1 < k) → (∀ e, e ∈ es2 → k < e.1) →
  (k, v) ∈ es1 ++ es ++ es2 ↔ (k, v) ∈ es.
Proof.
  intros H1 H2. rewrite !elem_of_app. split; [|tauto].
  intros [He|[He|He]]; [apply H1 in He|done|apply H2 in He]; simpl in He; lia.
Qed.

(** ** Lookups *)

Variable entryPage : PID.

(** The search for [k] ends behind the arrays of a full leaf. *)
Definition past_full_leaf (st : store) (k : Z) : bool :=
  match '(root, height) ← get_entry st entryPage; pid ← find_leaf height st root k; get_leaf st pid with
  | Ok lf => past_leaf lf k
  | Throw _ => false
  end.

Section search.
Variables (st : store) (es : list (Z * V)) (k : Z).
Hypothesis Hmax : (2 ≤ leafMax)%nat.
Hypothesis Hok : tree_ok leafMax innerMax st entryPage es.

(** What every lookup does first. *)
Lemma search_ok :
  ∃ root h pid lf pos lo hi es1 es2,
    get_entry st entryPage = Ok (root, h) ∧ find_leaf h st root k = Ok pid ∧
    get_leaf st pid = Ok lf ∧ leaf_wf leafMax lf ∧ leaf_lowerBound lf k = Ok pos ∧
    leaf_hit lf pos k = Ok (bool_decide (k ∈ leaf_keys lf)) ∧
    (∀ v, (k, v) ∈ es ↔ (k, v) ∈ leaf_entries lf) ∧
    (∀ v, (k, v) ∈ es → lf_payloads lf !! pos = Some v ∧ leaf_keys lf !! pos = Some k) ∧
    es = es1 ++ leaf_entries lf ++ es2 ∧
    (∀ e, e ∈ es1 → e.1 < k) ∧ (∀ e, e ∈ es2 → k < e.1) ∧
    in_range lo hi k ∧ Forall (λ e, in_range lo hi e.1) (leaf_entries lf) ∧
    (∀ lf', leaf_compatible lo hi lf lf' →
       tree_ok leafMax innerMax (<[pid := PLeaf lf']> st) entryPage (es1 ++ leaf_entries lf' ++ es2)) ∧
    (if past_full_leaf st k then leafMax ≤ pos else pos < leafMax)%nat.
Proof.
  destruct Hok as (root & h & ps & He & Hr & Hep).
  destruct (find_leaf_ok h st root None None es ps k Hr) as
    (pid & lf & lo & hi & es1 & es2 & Hfl & Hl & Hwf & Hpid & Hk & Hrng & -> & H1 & H2 & Hrep); [done|].
  destruct (leaf_search lf k Hmax Hwf) as (pos & Hlb & Hh & Hpos & Hpast).
  exists root, h, pid, lf, pos, lo, hi, es1, es2. unfold past_full_leaf, get_entry, get_leaf. rewrite He. cbn [mbind result_bind].
  rewrite Hfl. cbn [mbind result_bind]. rewrite Hl.
  split_and!; try done.
  - intros v. by apply middle_elem.
  - intros v Hv%middle_elem; [|done..]. assert (k ∈ leaf_keys lf) as Hin by (apply leaf_keys_elem; eauto).
    split; [|auto]. by eapply leaf_payload; [|apply Hpos|].
  - intros lf' Hc. exists root, h, ps. rewrite lookup_insert_ne by (intros ->; done).
    split_and!; try done. by apply Hrep.
Qed.

Lemma lookup_found v : (k, v) ∈ es → lookup entryPage st k = Ok v.
Proof.
  intros Hv. destruct search_ok as (root & h & pid & lf & pos & lo & hi & es1 & es2 & He & Hfl & Hgl & Hwf &
    Hlb & Hh & Hin & Hp & _). unfold lookup. rewrite He. cbn [mbind result_bind]. rewrite Hfl. cbn [mbind result_bind].
  rewrite Hgl. cbn [mbind result_bind]. rewrite Hlb. cbn [mbind result_bind].
  destruct (Hp v Hv) as [Hpv _]. rewrite (arr_get_lookup _ _ _ Hpv). cbn [mbind result_bind].
  rewrite Hh, bool_decide_eq_true_2; [done|]. apply leaf_keys_elem; [done|]. exists v. by apply Hin.
Qed.

Lemma lookup_missing : (∀ v, (k, v) ∉ es) → lookup entryPage st k = Throw (if past_full_leaf st k then UndefinedBehaviour else EnsureFailed).
Proof.
  intros Hv. destruct search_ok as (root & h & pid & lf & pos & lo & hi & es1 & es2 & He & Hfl & Hgl & Hwf &
    Hlb & Hh & Hin & Hp & _ & _ & _ & _ & _ & _ & Hpast). unfold lookup. rewrite He. cbn [mbind result_bind]. rewrite Hfl. cbn [mbind result_bind].
  rewrite Hgl. cbn [mbind result_bind]. rewrite Hlb. cbn [mbind result_bind].
  pose proof Hwf as (_ & Hlp & _). destruct (past_full_leaf st k).
  { unfold arr_get. rewrite lookup_ge_None_2 by lia. done. }
  destruct (lookup_lt_is_Some_2 (lf_payloads lf) pos) as [x Hx]; [lia|]. rewrite (arr_get_lookup _ _ _ Hx). cbn [mbind result_bind].
  rewrite Hh, bool_decide_eq_false_2; [done|].
  intros (v & Hv')%leaf_keys_elem; [|done]. apply Hin in Hv'. by apply (Hv v).
Qed.

(** A search that ends behind a full leaf finds nothing. *)
Lemma past_full_leaf_missing v : past_full_leaf st k = true → (k, v) ∉ es.
Proof.
  intros Hpast Hv. destruct search_ok as (root & h & pid & lf & pos & lo & hi & es1 & es2 & He & Hfl & Hgl & Hwf &
    Hlb & Hh & Hin & Hp & _ & _ & _ & _ & _ & _ & Hle). rewrite Hpast in Hle. destruct (Hp v Hv) as [Hx%lookup_lt_Some _].
  pose proof Hwf as (_ & Hlp & _). lia.
Qed.

Lemma lookup_opt_spec {B} (f : V → B) :
  (∀ v, (k, v) ∈ es → lookup_opt entryPage st k f = Ok (f v)) ∧
  ((∀ v, (k, v) ∉ es) → lookup_opt entryPage st k f = Throw EnsureFailed).
Proof.
  destruct search_ok as (root & h & pid & lf & pos & lo & hi & es1 & es2 & He & Hfl & Hgl & Hwf &
    Hlb & Hh & Hin & Hp & _). unfold lookup_opt. rewrite He. cbn [mbind result_bind]. rewrite Hfl. cbn [mbind result_bind].
  rewrite Hgl. cbn [mbind result_bind]. rewrite Hlb. cbn [mbind result_bind]. rewrite Hh. cbn [mbind result_bind].
  split.
  - intros v Hv. destruct (Hp v Hv) as [Hpv _].
    rewrite bool_decide_eq_true_2, (arr_get_lookup _ _ _ Hpv); [done|].
    apply leaf_keys_elem; [done|]. exists v. by apply Hin.
  - intros Hv. rewrite bool_decide_eq_false_2; [done|].
    intros (v & Hv')%leaf_keys_elem; [|done]. apply Hin in Hv'. by apply (Hv v).
Qed.

(** An update in place is an insertion of the new value. *)
Lemma lookupAndUpdate_found f v : (k, v) ∈ es →
  ∃ st', lookupAndUpdate entryPage st k f = Ok st' ∧
    tree_ok leafMax innerMax st' entryPage (al_insert k (f v) es).
Proof.
  intros Hv. destruct search_ok as (root & h & pid & lf & pos & lo & hi & es1 & es2 & He & Hfl & Hgl & Hwf &
    Hlb & Hh & Hin & Hp & -> & H1 & H2 & Hk & Hrng & Hrep & _).
  unfold lookupAndUpdate. rewrite He. cbn [mbind result_bind]. rewrite Hfl. cbn [mbind result_bind].
  rewrite Hgl. cbn [mbind result_bind]. rewrite Hlb. cbn [mbind result_bind]. rewrite Hh. cbn [mbind result_bind].
  destruct (Hp v Hv) as [Hpv Hkv]. pose proof Hwf as (Hlk & Hlp & Hc & Hs).
  destruct (leaf_lengths _ _ Hwf) as [Hlen1 Hlen2].
  rewrite bool_decide_eq_true_2 by (by eapply list_elem_of_lookup_2).
  rewrite (arr_get_lookup _ _ _ Hpv). cbn [mbind result_bind].
  rewrite arr_set_lt by (by apply lookup_lt_Some in Hpv). cbn [mbind result_bind].
  eexists. split; [done|]. apply lookup_lt_Some in Hkv as Hlt.
  destruct (leaf_rebuild leafMax (lf_count lf) (lf_lower lf) (lf_upper lf) (lf_keys lf)
    (<[pos := f v]> (lf_payloads lf)) (leaf_keys lf) (<[pos := f v]> (take (lf_count lf) (lf_payloads lf))))
    as [Hwf' He']; [done|by rewrite length_insert|done|done|by rewrite take_insert_lt by lia|done|].
  assert (zip (leaf_keys lf) (<[pos := f v]> (take (lf_count lf) (lf_payloads lf)))
    = al_insert k (f v) (leaf_entries lf)) as Hz.
  { rewrite (al_insert_hit _ _ _ pos) by (by rewrite ?(leaf_entries_fst leafMax) || by eapply leaf_entries_sorted).
    unfold leaf_entries. rewrite insert_zip_with. by rewrite (list_insert_id (leaf_keys lf)). }
  rewrite al_insert_middle, <- Hz, <- He' by done. apply Hrep. split_and!; try done. rewrite He', Hz.
  unfold al_insert. rewrite Forall_app, Forall_cons.
  split_and!; [|done|]; apply Forall_forall; intros e [_ He2]%list_elem_of_filter; by eapply Forall_forall in Hrng.
Qed.

End search.

End lookup_proof.
