(* ===== verification/BTreeRemove.v ===== *)
(** * Removal from the tree, with the merge of underfull leaves *)

From S2P Require Import Prelude Defs BTreeNode BTree BTreeInv BTreeLookup.
Local Open Scope Z_scope.

Section remove_proof.
Context {V : Type}.
Variables (leafMax innerMax : nat).
Variable entryPage : PID.
Notation store := (gmap Z (page V)).
Notation repr := (repr leafMax innerMax).
Implicit Types (st : store) (es : list (Z * V)) (ps : gset Z) (lo hi : option Z) (lf : BTreeLeaf V).

(** What a removal below [cur] establishes. *)
Definition removed st h cur lo hi es ps k (r : result (bool * store)) : Prop :=
  ∃ st' ps', r = Ok (bool_decide (k ∈ es.*1), st') ∧
    repr st' h cur lo hi (al_remove k es) ps' ∧ ps' ⊆ ps ∧ (∀ p, p ∉ ps → st' !! p = st !! p).

Lemma Forall_al_remove (P : Z * V → Prop) k es : Forall P es → Forall P (al_remove k es).
Proof.
  intros HP. unfold al_remove. rewrite Forall_app.
  split; apply Forall_forall; intros e [_ He]%list_elem_of_filter; by eapply Forall_forall in HP.
Qed.

(** The key is in the whole tree exactly when it is in the part that is searched. *)
Lemma middle_key k es1 es es2 : (∀ e, e ∈ es1 → e.1 < k) → (∀ e, e ∈ es2 → k < e.1) →
  bool_decide (k ∈ (es1 ++ es ++ es2).*1) = bool_decide (k ∈ es.*1).
Proof.
  intros H1 H2. apply bool_decide_ext. rewrite !list_elem_of_fmap. split.
  - intros ([k' v] & -> & He). exists (k', v). split; [done|]. by eapply middle_elem.
  - intros (e & -> & He). exists e. rewrite !elem_of_app. auto.
Qed.

(** A leaf without a merge. *)
Lemma remove_from_leaf_ok st cur lo hi es ps lf k :
  repr st 0 cur lo hi es ps → st !! cur = Some (PLeaf lf) →
  removed st 0 cur lo hi es ps k (remove_from_leaf st cur lf k).
Proof.
  intros (lf0 & Hl & Hwf & Hlo & Hhi & Hrng & -> & ->) Hl'. assert (lf0 = lf) as -> by congruence.
  unfold remove_from_leaf. destruct (leaf_remove_ok leafMax lf k Hwf) as (lf' & -> & Hwf' & He' & El & Eu).
  cbn [mbind result_bind]. rewrite <- (leaf_entries_fst _ _ Hwf).
  eexists _, {[cur]}. split; [done|]. split; [|split; [done|]].
  - exists lf'. rewrite lookup_insert_eq, El, Eu, He'. split_and!; try done. by apply Forall_al_remove.
  - intros p Hp. rewrite lookup_insert_ne by set_solver. done.
Qed.

(** Changing one child in place changes the node above it accordingly. *)
Lemma removed_above st h cur lo hi es ps k nd ps0 c lo' hi' e1 e' e2 psc rest r :
  repr st (S h) cur lo hi es ps → st !! cur = Some (PInner nd) → cur ∉ ps0 → ps = {[cur]} ∪ ps0 →
  focus (repr st h) lo hi (inner_keys nd) (inner_children nd) es ps0 (rank k (inner_keys nd))
    c lo' hi' e1 e' e2 psc rest → in_range lo' hi' k →
  removed st h c lo' hi' e' psc k r → removed st (S h) cur lo hi es ps k r.
Proof.
  intros Hr Hl Hni -> [Hfc Hfs -> -> Hfd _ _ Hbef Haft _ _ Hrep _] Hk' (st' & psc' & -> & Hr' & Hsub & Hag).
  destruct Hr as (nd0 & _ & Hl0 & Hwf & Hin & _). assert (nd0 = nd) as -> by congruence.
  assert (∀ e, e ∈ e1 → e.1 < k) as H1 by (intros; by eapply Hbef).
  assert (∀ e, e ∈ e2 → k < e.1) as H2 by (intros; by eapply Haft).
  rewrite <- (middle_key k e1 e' e2 H1 H2).
  eexists st', ({[cur]} ∪ (psc' ∪ rest)). split; [done|]. split; [|split; [sset|]].
  - exists nd, (psc' ∪ rest). rewrite Hag by sset. split_and!; try done; [|sset].
    rewrite al_remove_middle by done. apply Hrep; [|done|sset].
    intros d l h0 e p Hp. apply repr_frame. intros q Hq. apply Hag. sset.
  - intros p Hp. apply Hag. sset.
Qed.

(** The merge with the right sibling. *)
Lemma remove_merge_ok st cur lo hi es ps k nd c lf :
  repr st 1 cur lo hi es ps → in_range lo hi k → st !! cur = Some (PInner nd) →
  inner_children nd !! rank k (inner_keys nd) = Some c → st !! c = Some (PLeaf lf) →
  (2 ≤ in_count nd)%nat → (rank k (inner_keys nd) + 1 < in_count nd)%nat →
  ∃ pid_right right, arr_get (in_children nd) (rank k (inner_keys nd) + 1) = Ok pid_right ∧
    get_leaf st pid_right = Ok right ∧
    ((lf_count lf + lf_count right < leafMax)%nat →
     ∃ lf' nd', leaf_absorb right lf = Ok lf' ∧
       inner_remove (rank k (inner_keys nd)) nd = Ok (true, nd') ∧
       removed st 1 cur lo hi es ps k
         (remove_from_leaf (delete pid_right (<[cur := PInner nd']> (<[c := PLeaf lf']> st))) c lf' k)).
Proof.
  intros Hr Hk Hl Hc Hlf H2 Hpos.
  destruct Hr as (nd0 & ps0 & Hl0 & Hwf & Hin & Hch & Hni & ->). assert (nd0 = nd) as -> by congruence.
  pose proof Hwf as (_ & _ & _ & Hs). destruct (inner_lengths innerMax nd Hwf) as [Hlk Hlc].
  destruct (chain_merge (repr st 0) (repr_range _ _ st 0) _ _ _ _ _ _ k Hch Hs Hin Hk ltac:(lia)) as
    (c0 & d & lo' & sep & hi' & e1 & ea & eb & e2 & pa & pb & rest & Hc0 & Hd & Ha & Hb & -> & -> & Hdab & Hdr &
     He1 & He2 & Hsep & Hrep). assert (c0 = c) as -> by congruence.
  set (i := rank k (inner_keys nd)) in *.
  destruct Ha as (lfa & Hla & Hwfa & Hloa & Hhia & Hra & -> & ->). assert (lfa = lf) as -> by congruence.
  destruct Hb as (right & Hlb & Hwfb & Hlob & Hhib & Hrb & -> & ->).
  exists d, right. rewrite Nat.add_1_r in *.
  split. { apply arr_get_lookup. unfold inner_children in Hd. by apply lookup_take_Some in Hd as [? _]. }
  split; [unfold get_leaf; by rewrite Hlb|]. intros Hfit.
  destruct (leaf_absorb_ok leafMax lf right Hwfa Hwfb ltac:(lia)) as (lf' & Hab & Hwf' & Hent & Elo & Ehi & _).
  { intros x y (vx & Hx)%(leaf_keys_elem leafMax) (vy & Hy)%(leaf_keys_elem leafMax); [|done..].
    eapply Forall_forall in Hra; [|exact Hx]. eapply Forall_forall in Hrb; [|exact Hy].
    unfold in_range in Hra, Hrb. simpl in *. lia. }
  destruct (inner_remove_ok innerMax nd i Hwf H2 ltac:(lia)) as (nd' & Hrm & Hwfn & Hkn & Hcn & _).
  exists lf', nd'. split; [done|]. split; [done|].
  set (st1 := delete d (<[cur := PInner nd']> (<[c := PLeaf lf']> st))).
  assert (c ≠ cur) as Hcc by (intros ->; sset). assert (d ≠ cur) as Hdc by (intros ->; sset).
  assert (d ≠ c) as Hdc' by (intros ->; sset).
  assert (repr st1 0 c lo' hi' (leaf_entries lf ++ leaf_entries right) {[c]}) as Hrc.
  { exists lf'. unfold st1. rewrite lookup_delete_ne, lookup_insert_ne, lookup_insert_eq, Elo, Ehi, Hent by done.
    split_and!; try done. apply Forall_app.
    split; [eapply Forall_impl; [exact Hra|]|eapply Forall_impl; [exact Hrb|]].
    - intros e. unfold in_range, inside in *. destruct lo', hi'; simpl in *; lia.
    - intros e. unfold in_range, inside in *. destruct lo', hi'; simpl in *; lia. }
  assert (st1 !! c = Some (PLeaf lf')) as Hlc1.
  { unfold st1. by rewrite lookup_delete_ne, lookup_insert_ne, lookup_insert_eq. }
  destruct (remove_from_leaf_ok st1 c lo' hi' _ _ lf' k Hrc Hlc1) as (st' & pm & -> & Hr' & Hsub & Hag).
  rewrite <- (middle_key k e1 _ e2 He1 He2).
  assert (∀ p, p ≠ c → p ≠ d → p ≠ cur → st' !! p = st !! p) as Hag'.
  { intros p ? ? ?. rewrite Hag by sset. unfold st1. by rewrite lookup_delete_ne, !lookup_insert_ne. }
  eexists st', ({[cur]} ∪ (pm ∪ rest)). split; [done|]. split; [|split; [sset|]].
  - exists nd', (pm ∪ rest). rewrite Hag by sset. unfold st1 at 1.
    rewrite lookup_delete_ne, lookup_insert_eq, Hkn, Hcn by done. split_and!; try done; [|..].
    + apply Forall_app. split; [by apply Forall_take|by apply Forall_drop].
    + rewrite al_remove_middle by done. apply Hrep; [|done|sset].
      intros d' l h0 e p Hp. apply repr_frame. intros q Hq. apply Hag'; intros ->; sset.
    + sset.
  - intros p Hp. apply Hag'; intros ->; sset.
Qed.

Notation descend := (remove_descend leafMax entryPage).

(** A leaf below an inner node. *)
Lemma remove_level1 st par cur lo hi es ps k :
  repr st 1 cur lo hi es ps → in_range lo hi k → cur ≠ entryPage →
  removed st 1 cur lo hi es ps k (descend 2 st par cur k).
Proof.
  intros Hr Hk Hne. pose proof Hr as (nd & _ & Hl & _).
  destruct (repr_descend _ _ _ _ _ _ _ _ _ _ k Hr Hl Hk)
    as (ps0 & c & lo' & hi' & e1 & e' & e2 & psc & rest & Hwf & Hin & Hni & -> & Hf & Hk' & Hgc).
  pose proof (fc_sub _ _ _ _ _ _ _ _ _ _ _ _ _ _ _ _ Hf) as Hsub.
  pose proof (fc_child _ _ _ _ _ _ _ _ _ _ _ _ _ _ _ _ Hf) as Hchild.
  pose proof Hsub as (lf & Hlf & _).
  assert (removed st 1 cur lo hi es ({[cur]} ∪ ps0) k (remove_from_leaf st c lf k)) as Hplain.
  { eapply removed_above; [done..|]. by eapply remove_from_leaf_ok. }
  set (n := 2%nat). simpl descend. unfold n. cbn [remove_descend]. rewrite Hl.
  rewrite (inner_lowerBound_rank innerMax) by done. cbn [mbind result_bind]. rewrite Hgc.
  cbn [mbind result_bind]. rewrite Hlf. rewrite (proj2 (Z.eqb_neq cur entryPage)) by done.
  destruct (leaf_isUnderflow leafMax lf); cbn [andb negb]; [|done].
  unfold remove_underflow, get_inner. rewrite Hl. cbn [mbind result_bind].
  rewrite (inner_lowerBound_rank innerMax) by done. cbn [mbind result_bind].
  case_decide as Hd; [|done]. destruct Hd as [H2 Hpos].
  destruct (remove_merge_ok st cur lo hi es _ k nd c lf Hr Hk Hl Hchild Hlf H2 Hpos)
    as (pid_right & right & -> & Hgr & Hmerge). cbn [mbind result_bind]. rewrite Hgr. cbn [mbind result_bind].
  case_decide; [done|]. destruct Hmerge as (lf' & nd' & -> & Hrm & Hres); [lia|].
  cbn [mbind result_bind]. rewrite Hrm. done.
Qed.

Lemma remove_descend_ok h st par cur lo hi es ps k :
  repr st (S h) cur lo hi es ps → in_range lo hi k → entryPage ∉ ps →
  removed st (S h) cur lo hi es ps k (descend (S (S h)) st par cur k).
Proof.
  revert par cur lo hi es ps. induction h as [|h IH]; intros par cur lo hi es ps Hr Hk Hep.
  - apply remove_level1; [done..|]. destruct (repr_dom _ _ _ _ _ _ _ _ _ Hr) as [? _]. by intros ->.
  - pose proof Hr as (nd & _ & Hl & _).
    destruct (repr_descend _ _ _ _ _ _ _ _ _ _ k Hr Hl Hk)
      as (ps0 & c & lo' & hi' & e1 & e' & e2 & psc & rest & Hwf & Hin & Hni & -> & Hf & Hk' & Hgc).
    pose proof (fc_sub _ _ _ _ _ _ _ _ _ _ _ _ _ _ _ _ Hf) as Hsub.
    pose proof (fc_ps _ _ _ _ _ _ _ _ _ _ _ _ _ _ _ _ Hf) as Eps.
    change (descend (S (S (S h))) st par cur k) with
      (match st !! cur with
       | Some (PInner inner) =>
           i ← inner_lowerBound inner k; nextPid ← arr_get (in_children inner) i;
           descend (S (S h)) st cur nextPid k
       | Some (PLeaf leaf) =>
           if leaf_isUnderflow leafMax leaf && negb (par =? entryPage)
           then remove_underflow leafMax st par cur leaf k else remove_from_leaf st cur leaf k
       | _ => Throw UndefinedBehaviour end).
    rewrite Hl, (inner_lowerBound_rank innerMax) by done. cbn [mbind result_bind]. rewrite Hgc.
    eapply removed_above; [done..|]. apply IH; [done..|sset].
Qed.

Lemma remove_tree_ok st es k : tree_ok leafMax innerMax st entryPage es →
  ∃ st', remove leafMax entryPage st k = Ok (bool_decide (k ∈ es.*1), st') ∧
    tree_ok leafMax innerMax st' entryPage (al_remove k es).
Proof.
  intros (root & h & ps & He & Hr & Hep). unfold remove, get_entry. rewrite He. cbn [mbind result_bind].
  assert (removed st h root None None es ps k (descend (S h) st entryPage root k)) as
    (st' & ps' & -> & Hr' & Hsub & Hag).
  { destruct h as [|h]; [|by apply remove_descend_ok].
    pose proof Hr as (lf & Hl & _). cbn [remove_descend]. rewrite Hl, Z.eqb_refl, andb_false_r.
    by apply remove_from_leaf_ok. }
  exists st'. split; [done|]. exists root, h, ps'. rewrite Hag by done. split_and!; try done. sset.
Qed.

End remove_proof.
