(* ===== verification/BTreeScan.v ===== *)
(** * Range scans

    The leaves of a tree partition the key space into consecutive intervals.
    A scan visits them one traversal at a time, following the fence keys; the
    callback sees every entry of the range once, in order, until it stops the
    scan. *)

From S2P Require Import Prelude Defs BTreeNode BTree BTreeInv.
Local Open Scope Z_scope.

Section scan_proof.
Context {V : Type}.
Variables (leafMax innerMax : nat).
Notation store := (gmap Z (page V)).
Notation repr := (repr leafMax innerMax).
Implicit Types (st : store) (es : list (Z * V)) (ps : gset Z) (lo hi : option Z) (lf : BTreeLeaf V).

(** ** The leaves in order *)

Definition seg : Type := option Z * option Z * BTreeLeaf V.
Definition seg_ok (s : seg) : Prop :=
  let '(lo, hi, lf) := s in
  leaf_wf leafMax lf ∧ fence_ok (lf_lower lf) lo ∧ fence_ok (lf_upper lf) hi ∧
  Forall (λ e, in_range lo hi e.1) (leaf_entries lf).
Definition seg_entries (L : list seg) : list (Z * V) := L ≫= λ s, leaf_entries s.2.

Definition nonempty lo hi : Prop :=
  match lo, hi with Some a, Some b => a < b | _, _ => True end.

Inductive segs : option Z → option Z → list seg → Prop :=
| segs_one lo hi lf : seg_ok (lo, hi, lf) → nonempty lo hi → segs lo hi [(lo, hi, lf)]
| segs_cons lo m hi lf L :
    seg_ok (lo, Some m, lf) → inside lo hi m → segs (Some m) hi L →
    segs lo hi ((lo, Some m, lf) :: L).

Lemma segs_app lo m hi L1 L2 : segs lo (Some m) L1 → segs (Some m) hi L2 → inside lo hi m →
  segs lo hi (L1 ++ L2).
Proof.
  remember (Some m) as mid eqn:Em. induction 1 as [lo mid lf Hs Hne|lo n mid lf L Hs Hn _ IH]; intros H2 Hin; subst.
  - simpl. by constructor.
  - simpl. constructor; [done| |].
    + unfold inside in *. destruct lo, hi; simpl in *; lia.
    + apply IH; [done|done|]. unfold inside in *. destruct hi; simpl in *; lia.
Qed.

Lemma segs_range lo hi L s x : segs lo hi L → s ∈ L → in_range s.1.1 s.1.2 x → in_range lo hi x.
Proof.
  induction 1 as [lo hi lf Hs Hne|lo n hi lf L Hs Hn _ IH].
  - by intros ->%list_elem_of_singleton.
  - intros [->|Hin]%elem_of_cons Hx; simpl in *.
    + unfold in_range, inside in *. destruct lo, hi; simpl in *; lia.
    + specialize (IH Hin Hx). unfold in_range, inside in *. destruct lo, hi; simpl in *; lia.
Qed.

Lemma segs_nonempty lo hi L : segs lo hi L → nonempty lo hi.
Proof.
  induction 1 as [|lo n hi lf L Hs Hn _ IH]; [done|]. unfold nonempty, inside in *. destruct lo, hi; lia.
Qed.

Lemma segs_entries_range lo hi L e : segs lo hi L → e ∈ seg_entries L → in_range lo hi e.1.
Proof.
  intros Hs (s & He & Hin)%list_elem_of_bind. eapply segs_range; [done|exact Hin|].
  assert (seg_ok s) as Hok.
  { clear He. induction Hs as [|????? ? ? ? IH]; [by apply list_elem_of_singleton in Hin as ->|].
    apply elem_of_cons in Hin as [->|?]; auto. }
  destruct s as [[lo' hi'] lf]. destruct Hok as (_ & _ & _ & Hr). by eapply Forall_forall in Hr.
Qed.

(** The leaf responsible for [k], with the leaves on either side. *)
Lemma segs_find lo hi L k : segs lo hi L → in_range lo hi k →
  ∃ L1 lo' hi' lf L2, L = L1 ++ (lo', hi', lf) :: L2 ∧ seg_ok (lo', hi', lf) ∧ in_range lo' hi' k ∧
    ((L1 = [] ∧ lo' = lo) ∨ ∃ a, lo' = Some a ∧ segs lo (Some a) L1) ∧
    ((L2 = [] ∧ hi' = hi) ∨ ∃ b, hi' = Some b ∧ segs (Some b) hi L2).
Proof.
  induction 1 as [lo hi lf Hs Hne|lo n hi lf L Hs Hn Hsg IH]; intros Hk.
  - exists [], lo, hi, lf, []. auto 10.
  - destruct (decide (k <= n)) as [Hle|Hgt].
    + exists [], lo, (Some n), lf, L. split_and!; try done; eauto.
      unfold in_range in *. destruct lo; simpl; lia.
    + destruct IH as (L1 & lo' & hi' & lf' & L2 & -> & Hok & Hk' & HL1 & HL2).
      { unfold in_range in *. destruct hi; simpl; lia. }
      exists ((lo, Some n, lf) :: L1), lo', hi', lf', L2. split_and!; try done. right.
      destruct HL1 as [[-> ->]|(a & -> & Ha)].
      * exists n. split; [done|]. constructor; [done|]. unfold nonempty, inside in *. destruct lo; lia.
      * exists a. split; [done|]. pose proof (segs_nonempty _ _ _ Ha) as Hna. simpl in Hna.
        constructor; [done| |done]. unfold inside in *. destruct lo; simpl; lia.
Qed.

(** Following the children by the rank of [x] leads from [cur] to the leaf [lf]. *)
Fixpoint reach st (h : nat) (cur : PID) (x : Z) lf : Prop :=
  match h with
  | O => st !! cur = Some (PLeaf lf)
  | S h => ∃ nd c, st !! cur = Some (PInner nd) ∧ inner_wf innerMax nd ∧
      inner_children nd !! rank x (inner_keys nd) = Some c ∧ reach st h c x lf
  end.

Lemma chain_segs (R : PID → option Z → option Z → list (Z * V) → gset Z → Prop)
    (reachR : PID → Z → BTreeLeaf V → Prop) lo hi ks cs es ps :
  (∀ c lo hi es ps, R c lo hi es ps → nonempty lo hi → ∃ L, segs lo hi L ∧ es = seg_entries L ∧ (length L ≤ size ps)%nat ∧
     ∀ s x, s ∈ L → in_range s.1.1 s.1.2 x → reachR c x s.2) →
  chain R lo hi ks cs es ps → StronglySorted Z.lt ks → Forall (inside lo hi) ks → nonempty lo hi →
  ∃ L, segs lo hi L ∧ es = seg_entries L ∧ (length L ≤ size ps)%nat ∧
    ∀ s x, s ∈ L → in_range s.1.1 s.1.2 x → ∃ c, cs !! rank x ks = Some c ∧ reachR c x s.2.
Proof.
  intros HR. induction 1 as [lo hi c es ps Hc|lo hi k ks c cs es1 es2 ps1 ps2 Hc Hch IH Hd]; intros Hs Hin Hne.
  - destruct (HR _ _ _ _ _ Hc Hne) as (L & Hsg & -> & Hlen & Hre). exists L. split_and!; try done. eauto.
  - pose proof (chain_tail_inside _ _ _ _ Hs Hin) as Hin'. apply Forall_cons in Hin as [Hk _].
    pose proof Hs as Hs0. apply StronglySorted_inv in Hs0 as [Hs0 _].
    destruct (HR _ _ _ _ _ Hc) as (L1 & Hsg1 & -> & Hlen1 & Hre1).
    { unfold nonempty, inside in *. destruct lo; lia. }
    destruct (IH Hs0 Hin') as (L2 & Hsg2 & -> & Hlen2 & Hre2).
    { unfold nonempty, inside in *. destruct hi; lia. }
    exists (L1 ++ L2). split; [by eapply segs_app|]. split; [unfold seg_entries; by rewrite bind_app|].
    split; [rewrite length_app, size_union by done; lia|].
    intros s x [Hs1|Hs2]%elem_of_app Hx.
    + pose proof (segs_range _ _ _ _ _ Hsg1 Hs1 Hx) as [_ Hle]. rewrite rank_cons_ge by done. eauto.
    + pose proof (segs_range _ _ _ _ _ Hsg2 Hs2 Hx) as [Hgt _]. rewrite rank_cons_lt by done.
      simpl. auto.
Qed.

Lemma repr_segs st h cur lo hi es ps : repr st h cur lo hi es ps → nonempty lo hi →
  ∃ L, segs lo hi L ∧ es = seg_entries L ∧ (length L ≤ size ps)%nat ∧
    ∀ s x, s ∈ L → in_range s.1.1 s.1.2 x → reach st h cur x s.2.
Proof.
  revert cur lo hi es ps. induction h as [|h IH]; intros cur lo hi es ps.
  - intros (lf & Hl & Hwf & Hlo & Hhi & Hr & -> & ->) Hne. exists [(lo, hi, lf)].
    split; [by constructor|]. split; [unfold seg_entries; simpl; by rewrite app_nil_r|].
    split; [by rewrite (size_singleton (C := gset Z) cur)|]. by intros s x ->%list_elem_of_singleton.
  - intros (nd & ps' & Hl & Hwf & Hin & Hch & Hni & ->) Hne. pose proof Hwf as (_ & _ & _ & Hs).
    destruct (chain_segs (repr st h) (reach st h) _ _ _ _ _ _ IH Hch Hs Hin Hne) as (L & Hsg & -> & Hlen & Hre).
    exists L. split_and!; try done.
    + rewrite size_union by set_solver. lia.
    + intros s x Hs' Hx. destruct (Hre s x Hs' Hx) as (c & Hc & Hr). exists nd, c. done.
Qed.

(** ** The callback on a sequence of entries *)

Context {S : Type}.
Variable func : S → Z → V → S * bool.

Fixpoint feed (s : S) es : S * bool :=
  match es with
  | [] => (s, true)
  | (k, v) :: es => let '(s', go) := func s k v in if go then feed s' es else (s', false)
  end.

Lemma feed_app s es1 es2 :
  feed s (es1 ++ es2) = (let '(s', go) := feed s es1 in if go then feed s' es2 else (s', false)).
Proof.
  revert s. induction es1 as [|[k v] es1 IH]; intros s; simpl; [done|].
  destruct (func s k v) as [s' []]; [apply IH|done].
Qed.

(** Reading an entry of a leaf. *)
Lemma leaf_entry_read lf i : leaf_wf leafMax lf → (i < lf_count lf)%nat →
  ∃ k v, leaf_entries lf !! i = Some (k, v) ∧ arr_get (lf_keys lf) i = Ok k ∧
    arr_get (lf_payloads lf) i = Ok v.
Proof.
  intros Hwf Hi. destruct (lookup_lt_is_Some_2 (leaf_entries lf) i) as [[k v] He].
  { by rewrite (length_leaf_entries leafMax). }
  exists k, v. split; [done|]. unfold leaf_entries, leaf_keys in He.
  apply lookup_zip_with_Some in He as (k' & v' & [= <- <-] & Hk & Hv).
  apply lookup_take_Some in Hk as [Hk _]. apply lookup_take_Some in Hv as [Hv _].
  by rewrite (arr_get_lookup _ _ _ Hk), (arr_get_lookup _ _ _ Hv).
Qed.

Lemma asc_loop_ok n lf pos s : leaf_wf leafMax lf → (pos + n = lf_count lf)%nat →
  asc_loop func n lf pos s = Ok (feed s (drop pos (leaf_entries lf))).
Proof.
  intros Hwf. revert pos s. induction n as [|n IH]; intros pos s Hn.
  - simpl. rewrite drop_ge; [done|]. rewrite (length_leaf_entries leafMax) by done. lia.
  - destruct (leaf_entry_read lf pos Hwf ltac:(lia)) as (k & v & He & Ek & Ev).
    cbn [asc_loop]. rewrite Ek, Ev. cbn [mbind result_bind]. rewrite (drop_S _ _ _ He). simpl.
    destruct (func s k v) as [s' []]; [|done]. rewrite IH by lia. by rewrite Nat.add_1_r.
Qed.

Lemma desc_loop_ok pos lf s : leaf_wf leafMax lf → (pos < lf_count lf)%nat →
  desc_loop func pos lf s = Ok (feed s (reverse (take (Datatypes.S pos) (leaf_entries lf)))).
Proof.
  intros Hwf. revert s. induction pos as [|pos IH]; intros s Hp;
    destruct (leaf_entry_read lf _ Hwf Hp) as (k & v & He & Ek & Ev);
    cbn [desc_loop]; rewrite Ek, Ev; cbn [mbind result_bind];
    rewrite (take_S_r _ _ _ He), reverse_snoc; simpl.
  - by destruct (func s k v) as [s' []].
  - destruct (func s k v) as [s' []]; [|done]. by rewrite IH by lia.
Qed.

(** One leaf, ascending: its entries from [k] on. *)
Lemma asc_leaf_ok lf k s : leaf_wf leafMax lf →
  asc_leaf func k lf s =
    (let '(s', go) := feed s (filter (λ e, k <= e.1) (leaf_entries lf)) in
     Ok (s', if go then (if isInfinity (lf_upper lf) then FINISHED else CONTINUE) else FINISHED,
         fkey (lf_upper lf))).
Proof.
  intros Hwf. pose proof (leaf_entries_fst _ _ Hwf) as Hfst. pose proof (leaf_entries_sorted _ _ Hwf) as Hs.
  pose proof (length_leaf_entries _ _ Hwf) as Hlen. unfold asc_leaf. case_decide as H0.
  - assert (leaf_entries lf = []) as -> by (apply nil_length_inv; lia). done.
  - rewrite (leaf_lowerBound_rank leafMax) by done. cbn [mbind result_bind].
    pose proof (rank_length k (leaf_keys lf)) as Hr. destruct (leaf_lengths _ _ Hwf) as [Hlk _].
    rewrite asc_loop_ok by (done || lia). cbn [mbind result_bind].
    replace (filter (λ e, k <= e.1) (leaf_entries lf)) with (drop (rank k (leaf_keys lf)) (leaf_entries lf)).
    { by destruct (feed s _) as [s' []]. }
    symmetry. rewrite <- Hfst. unfold rank. rewrite <- (fst_filter_length (λ x, x < k)).
    apply filter_drop_suffix; [intros; lia|]. apply (al_prefix (λ x, x < k)); [done|lia].
Qed.

Lemma filter_le_take es k : al_sorted es → filter (λ e, e.1 <= k) es = take (rank_le k es.*1) es.
Proof.
  intros Hs. unfold rank_le. rewrite <- (fst_filter_length (λ x, x <= k)).
  apply filter_take_prefix. apply (al_prefix (λ x, x <= k)); [done|lia].
Qed.

(** One leaf, descending: its entries up to [k], from the right. *)
Lemma desc_leaf_ok lf k s : leaf_wf leafMax lf →
  desc_leaf func k lf s =
    (let '(s', go) := feed s (reverse (filter (λ e, e.1 <= k) (leaf_entries lf))) in
     Ok (s', if go then (if isInfinity (lf_lower lf) then FINISHED else CONTINUE) else FINISHED,
         fkey (lf_lower lf))).
Proof.
  intros Hwf. pose proof (leaf_entries_fst _ _ Hwf) as Hfst. pose proof (leaf_entries_sorted _ _ Hwf) as Hs.
  pose proof (length_leaf_entries _ _ Hwf) as Hlen. pose proof Hwf as (_ & _ & _ & Hsk).
  destruct (leaf_lengths _ _ Hwf) as [Hlk _]. unfold desc_leaf. case_decide as H0.
  - assert (leaf_entries lf = []) as -> by (apply nil_length_inv; lia). done.
  - rewrite (leaf_lowerBound_rank leafMax) by done. cbn [mbind result_bind].
    rewrite filter_le_take, Hfst by done. pose proof (rank_length k (leaf_keys lf)) as Hr.
    assert (rank_le k (leaf_keys lf) ≤ length (leaf_keys lf))%nat as Hrl by apply length_filter.
    set (r := rank k (leaf_keys lf)) in *.
    set (lb := if decide (lf_count lf ≤ r)%nat then (lf_count lf - 1)%nat else r).
    assert (lb < lf_count lf)%nat as Hlb by (unfold lb; case_decide; lia).
    destruct (leaf_entry_read lf lb Hwf Hlb) as (x & v & He & Ek & _).
    assert (leaf_keys lf !! lb = Some x) as Hx by (rewrite <- Hfst, list_lookup_fmap, He; done).
    rewrite Ek. cbn [mbind result_bind].
    pose proof (rank_spec k _ lb x Hsk Hx) as Hsp. fold r in Hsp.
    pose proof (rank_le_spec k _ lb x Hsk Hx) as Hsp2.
    destruct (Z.ltb_spec k x) as [Hkx|Hkx].
    + assert (lb = r) as E by (unfold lb in *; case_decide; lia).
      assert (rank_le k (leaf_keys lf) = r) as ->.
      { unfold r. apply rank_le_miss. intros Hin%rank_elem; [|done]. fold r in Hin. rewrite <- E, Hx in Hin.
        simplify_eq. lia. }
      rewrite <- E. destruct lb as [|lb]; [by rewrite take_0|].
      rewrite desc_loop_ok by (done || lia). by destruct (feed s _) as [s' []].
    + rewrite desc_loop_ok by done. cbn [mbind result_bind].
      assert (rank_le k (leaf_keys lf) = Datatypes.S lb) as ->; [|by destruct (feed s _) as [s' []]].
      unfold lb in *. case_decide; [lia|]. assert (x = k) as -> by lia. by apply rank_le_hit.
Qed.

(** ** Traversals and the driver *)

(** The key whose rank a traversal follows: an ascending continuation looks for
    the leaf right of the fence. *)
Definition target (dir : direction) (first : bool) (k : Z) : Z :=
  match dir, first with ASC_SCAN, false => k + 1 | _, _ => k end.

Lemma rank_le_succ k ks : rank_le k ks = rank (k + 1) ks.
Proof. unfold rank_le, rank. f_equal. apply filter_ext_in. intros; lia. Qed.

Lemma scan_descend_ok dir first st h cur k s lf :
  reach st h cur (target dir first k) lf →
  scan_descend func (Datatypes.S h) dir first st cur k s =
    match dir with ASC_SCAN => asc_leaf func k lf s | DESC_SCAN => desc_leaf func k lf s end.
Proof.
  revert cur. induction h as [|h IH]; intros cur Hre.
  - cbn [scan_descend]. simpl in Hre. by rewrite Hre.
  - destruct Hre as (nd & c & Hl & Hwf & Hc & Hre).
    change (scan_descend func (Datatypes.S (Datatypes.S h)) dir first st cur k s) with
      (match st !! cur with
       | Some (PInner inner) => nextPid ← next_node dir first k inner;
           scan_descend func (Datatypes.S h) dir first st nextPid k s
       | Some (PLeaf leaf) =>
           match dir with ASC_SCAN => asc_leaf func k leaf s | DESC_SCAN => desc_leaf func k leaf s end
       | _ => Throw UndefinedBehaviour end).
    rewrite Hl. assert (next_node dir first k nd = Ok c) as ->; [|by apply IH].
    unfold next_node. unfold inner_children in Hc. apply lookup_take_Some in Hc as [Hc _].
    destruct dir, first; simpl in Hc; rewrite ?(inner_lowerBound_rank innerMax), ?(inner_upperBound_rank innerMax), ?rank_le_succ by done;
      cbn [mbind result_bind]; by apply arr_get_lookup.
Qed.

Section driver.
Variables (entryPage root : PID) (st : store) (h : nat) (L : list seg).
Hypothesis Hentry : st !! entryPage = Some (PEntry root h).
Hypothesis Hreach : ∀ s x, s ∈ L → in_range s.1.1 s.1.2 x → reach st h root x s.2.

Lemma scan_step dir first k s lo hi lf : (lo, hi, lf) ∈ L → in_range lo hi (target dir first k) →
  scan_ entryPage func dir first st k s =
    match dir with ASC_SCAN => asc_leaf func k lf s | DESC_SCAN => desc_leaf func k lf s end.
Proof.
  intros Hin Hk. unfold scan_, get_entry. rewrite Hentry. cbn [mbind result_bind].
  apply scan_descend_ok. by apply (Hreach (lo, hi, lf)).
Qed.

Lemma seg_entries_cons lo hi lf L' : seg_entries ((lo, hi, lf) :: L') = leaf_entries lf ++ seg_entries L'.
Proof. done. Qed.
Lemma seg_entries_app L1 L2 : seg_entries (L1 ++ L2) = seg_entries L1 ++ seg_entries L2.
Proof. apply bind_app. Qed.

(** All leaves from a fence on, ascending. *)
Lemma asc_rest fuel L2 b s : segs (Some b) None L2 → L2 ⊆ L → (length L2 ≤ fuel)%nat →
  scan_loop entryPage func fuel ASC_SCAN false st b s = Ok (feed s (seg_entries L2)).1.
Proof.
  revert L2 b s. induction fuel as [|fuel IH]; intros L2 b s Hsg Hsub Hlen.
  { inversion Hsg; subst; simpl in Hlen; lia. }
  cbn [scan_loop]. inversion Hsg as [lo hi lf Hok Hne|lo m hi lf L3 Hok Hm Hsg3]; subst;
    destruct Hok as (Hwf & _ & Hup & Hr).
  - rewrite (scan_step _ _ _ _ (Some b) None lf) by (first [by apply Hsub; left | unfold in_range; simpl; lia]).
    rewrite asc_leaf_ok by done. rewrite filter_all; [|eapply Forall_impl; [exact Hr|intros e; unfold in_range; simpl; lia]].
    rewrite seg_entries_cons, app_nil_r. simpl in Hup. rewrite Hup.
    by destruct (feed s (leaf_entries lf)) as [s' []].
  - rewrite (scan_step _ _ _ _ (Some b) (Some m) lf)
      by (first [by apply Hsub; left | unfold in_range, inside in *; simpl; lia]).
    rewrite asc_leaf_ok by done. rewrite filter_all; [|eapply Forall_impl; [exact Hr|intros e; unfold in_range; simpl; lia]].
    rewrite seg_entries_cons, feed_app. simpl in Hup. rewrite Hup. cbn [isInfinity fkey].
    destruct (feed s (leaf_entries lf)) as [s' []]; cbn [mbind result_bind]; [|done].
    apply IH; [done|set_solver|simpl in Hlen; lia].
Qed.

(** All leaves up to a fence, descending. *)
Lemma desc_rest fuel L1 a s : segs None (Some a) L1 → L1 ⊆ L → (length L1 ≤ fuel)%nat →
  scan_loop entryPage func fuel DESC_SCAN false st a s = Ok (feed s (reverse (seg_entries L1))).1.
Proof.
  revert L1 a s. induction fuel as [|fuel IH]; intros L1 a s Hsg Hsub Hlen.
  { inversion Hsg; subst; simpl in Hlen; lia. }
  cbn [scan_loop].
  destruct (segs_find None (Some a) L1 a Hsg) as (L0 & lo & hi & lf & L2 & -> & Hok & Hka & HL0 & HL2);
    [unfold in_range; simpl; lia|].
  assert (L2 = []) as ->.
  { destruct HL2 as [[-> _]|(b & -> & Hb)]; [done|]. apply segs_nonempty in Hb. simpl in Hb.
    unfold in_range in Hka. lia. }
  destruct Hok as (Hwf & Hlo & _ & Hr).
  rewrite (scan_step _ _ _ _ lo hi lf) by (first [apply Hsub, elem_of_app; right; by left | done]).
  rewrite desc_leaf_ok by done.
  assert (hi = Some a) as -> by (destruct HL2 as [[_ ->]|(b & -> & Hb)]; [done|by inversion Hb]).
  rewrite filter_all; [|eapply Forall_impl; [exact Hr|intros e; unfold in_range; simpl; lia]].
  rewrite seg_entries_app, seg_entries_cons, app_nil_r, reverse_app, feed_app.
  destruct HL0 as [[-> ->]|(c & -> & Hc)]; simpl in Hlo; rewrite Hlo; cbn [isInfinity fkey].
  - by destruct (feed s _) as [s' []].
  - destruct (feed s (reverse (leaf_entries lf))) as [s' []]; cbn [mbind result_bind]; [|done].
    apply IH; [done|set_solver|]. rewrite length_app in Hlen. simpl in Hlen. unfold seg in *. lia.
Qed.

End driver.

Lemma scan_asc_ok st entryPage es k s : tree_ok leafMax innerMax st entryPage es →
  scan entryPage func ASC_SCAN st k s = Ok (feed s (filter (λ e, k <= e.1) es)).1.
Proof.
  intros (root & h & ps & He & Hr & _). destruct (repr_segs st h root None None es ps Hr) as
    (L & Hsg & -> & Hlen & Hre); [done|].
  destruct (repr_dom _ _ _ _ _ _ _ _ _ Hr) as [_ Hdom]. apply subseteq_size in Hdom. rewrite size_dom in Hdom.
  destruct (segs_find None None L k Hsg) as (L1 & lo & hi & lf & L2 & -> & Hok & Hk & HL1 & HL2); [done|].
  unfold scan. cbn [scan_loop].
  rewrite (scan_step entryPage root st h _ He Hre _ _ _ _ lo hi lf)
    by (first [apply elem_of_app; right; by left | done]).
  pose proof Hok as (Hwf & _ & Hup & _). rewrite asc_leaf_ok by done.
  rewrite seg_entries_app, seg_entries_cons, !filter_app. rewrite (filter_none _ (seg_entries L1)).
  2: { intros e Hin. destruct HL1 as [[-> _]|(a & -> & Ha)]; [by apply elem_of_nil in Hin|].
       pose proof (segs_entries_range _ _ _ _ Ha Hin) as [_ ?]. unfold in_range in Hk. lia. }
  rewrite (filter_all _ (seg_entries L2)).
  2: { apply Forall_forall. intros e Hin. destruct HL2 as [[-> _]|(b & -> & Hb)]; [by apply elem_of_nil in Hin|].
       pose proof (segs_entries_range _ _ _ _ Hb Hin) as [? _]. unfold in_range in Hk. lia. }
  simpl app. rewrite feed_app. destruct HL2 as [[-> ->]|(b & -> & Hb)]; simpl in Hup; rewrite Hup.
  - by destruct (feed s _) as [s' []].
  - cbn [isInfinity fkey]. destruct (feed s (filter _ _)) as [s' []]; cbn [mbind result_bind]; [|done].
    eapply (asc_rest entryPage root st h); [done|exact Hre|done|set_solver|].
    rewrite length_app in Hlen. simpl in Hlen. unfold seg in *. lia.
Qed.

Lemma scan_desc_ok st entryPage es k s : tree_ok leafMax innerMax st entryPage es →
  scan entryPage func DESC_SCAN st k s = Ok (feed s (reverse (filter (λ e, e.1 <= k) es))).1.
Proof.
  intros (root & h & ps & He & Hr & _). destruct (repr_segs st h root None None es ps Hr) as
    (L & Hsg & -> & Hlen & Hre); [done|].
  destruct (repr_dom _ _ _ _ _ _ _ _ _ Hr) as [_ Hdom]. apply subseteq_size in Hdom. rewrite size_dom in Hdom.
  destruct (segs_find None None L k Hsg) as (L1 & lo & hi & lf & L2 & -> & Hok & Hk & HL1 & HL2); [done|].
  unfold scan. cbn [scan_loop].
  rewrite (scan_step entryPage root st h _ He Hre _ _ _ _ lo hi lf)
    by (first [apply elem_of_app; right; by left | done]).
  pose proof Hok as (Hwf & Hlo & _ & _). rewrite desc_leaf_ok by done.
  rewrite seg_entries_app, seg_entries_cons, !filter_app. rewrite (filter_none _ (seg_entries L2)).
  2: { intros e Hin. destruct HL2 as [[-> _]|(b & -> & Hb)]; [by apply elem_of_nil in Hin|].
       pose proof (segs_entries_range _ _ _ _ Hb Hin) as [? _]. unfold in_range in Hk. lia. }
  rewrite (filter_all _ (seg_entries L1)).
  2: { apply Forall_forall. intros e Hin. destruct HL1 as [[-> _]|(a & -> & Ha)]; [by apply elem_of_nil in Hin|].
       pose proof (segs_entries_range _ _ _ _ Ha Hin) as [_ ?]. unfold in_range in Hk. lia. }
  rewrite app_nil_r, reverse_app, feed_app. destruct HL1 as [[-> ->]|(a & -> & Ha)]; simpl in Hlo; rewrite Hlo.
  - by destruct (feed s _) as [s' []].
  - cbn [isInfinity fkey]. destruct (feed s (reverse (filter _ _))) as [s' []]; cbn [mbind result_bind]; [|done].
    eapply (desc_rest entryPage root st h); [done|exact Hre|done|set_solver|].
    rewrite length_app in Hlen. simpl in Hlen. unfold seg in *. lia.
Qed.

End scan_proof.
