(* ===== verification/BTreeSpec.v ===== *)
(** * The tree as an ordered map

    The contract of [BTree<Key, Value>]: the operations refine those of a
    finite map, for every sequence of operations, and scans enumerate it in
    order. *)

From S2P Require Import Prelude Defs BTreeNode BTree BTreeInv BTreeInsert BTreeLookup BTreeRemove BTreeScan.
Local Open Scope Z_scope.

Section map.
Context {V : Type}.
Implicit Types (es : list (Z * V)).

Definition al_map es : gmap Z V := list_to_map es.

Lemma al_sorted_NoDup es : al_sorted es → NoDup es.*1.
Proof.
  unfold al_sorted. generalize es.*1. intros ks Hs. induction Hs as [|x ks _ IH Hx]; constructor; [|done].
  intros Hin. eapply Forall_forall in Hx; [|done]. simpl in Hx. lia.
Qed.

Lemma al_map_lookup es k v : al_sorted es → al_map es !! k = Some v ↔ (k, v) ∈ es.
Proof. intros Hs. symmetry. apply elem_of_list_to_map, al_sorted_NoDup, Hs. Qed.

Lemma al_map_lookup_None es k : al_sorted es → al_map es !! k = None → ∀ v, (k, v) ∉ es.
Proof. intros Hs Hn v Hv. apply al_map_lookup in Hv; [|done]. congruence. Qed.

Lemma al_map_dom es k : al_sorted es → k ∈ es.*1 ↔ is_Some (al_map es !! k).
Proof.
  intros Hs. rewrite list_elem_of_fmap. split.
  - intros ([k' v] & -> & He). exists v. by apply al_map_lookup.
  - intros [v Hv%al_map_lookup]; [|done]. by exists (k, v).
Qed.

Lemma al_map_insert es k v : al_sorted es → al_map (al_insert k v es) = <[k := v]> (al_map es).
Proof.
  intros Hs. apply map_eq. intros i. apply option_eq. intros x.
  rewrite al_map_lookup by (by apply al_insert_sorted). unfold al_insert.
  rewrite elem_of_app, elem_of_cons, !list_elem_of_filter. simpl.
  destruct (decide (i = k)) as [->|Hne].
  - rewrite lookup_insert_eq. split; [|intros [= ->]; auto].
    intros [[? _]|[[= ->]|[? _]]]; [lia|done|lia].
  - rewrite lookup_insert_ne, al_map_lookup by done. split.
    + intros [[_ ?]|[[= ]|[_ ?]]]; done.
    + intros Hin. assert (i < k ∨ k < i) as [|] by lia; auto.
Qed.

Lemma al_map_remove es k : al_sorted es → al_map (al_remove k es) = delete k (al_map es).
Proof.
  intros Hs. apply map_eq. intros i. apply option_eq. intros x.
  rewrite al_map_lookup by (by apply al_remove_sorted). unfold al_remove.
  rewrite elem_of_app, !list_elem_of_filter. simpl.
  destruct (decide (i = k)) as [->|Hne].
  - rewrite lookup_delete_eq. split; [|done]. intros [[? _]|[? _]]; lia.
  - rewrite lookup_delete_ne, al_map_lookup by done. split; [intros [[_ ?]|[_ ?]]; done|].
    intros Hin. assert (i < k ∨ k < i) as [|] by lia; auto.
Qed.

End map.

(** The parameters of a tree: array sizes, contents of fresh pages and the page
    allocation of the buffer manager. *)
Record tree_params (V : Type) := mkParams {
  tp_leafMax : nat; tp_innerMax : nat;
  tp_junkK : list Z; tp_junkV : list V; tp_junkIK : list Z; tp_junkIP : list Z;
  tp_alloc : gset Z → PID;
}.
Arguments tp_leafMax {V} _. Arguments tp_innerMax {V} _. Arguments tp_junkK {V} _. Arguments tp_junkV {V} _.
Arguments tp_junkIK {V} _. Arguments tp_junkIP {V} _. Arguments tp_alloc {V} _.
Arguments mkParams {V} _ _ _ _ _ _ _.

(** A page holds at least two entries or five children; arrays have their
    declared size; allocation returns a page that is not in use. *)
Record params_ok {V} (P : tree_params V) : Prop := {
  po_leaf : (2 ≤ tp_leafMax P)%nat;
  po_inner : (5 ≤ tp_innerMax P)%nat;
  po_junkK : length (tp_junkK P) = tp_leafMax P;
  po_junkV : length (tp_junkV P) = tp_leafMax P;
  po_junkIK : length (tp_junkIK P) = tp_innerMax P;
  po_junkIP : length (tp_junkIP P) = tp_innerMax P;
  po_alloc : ∀ X, tp_alloc P X ∉ X;
}.

Section ops.
Context {V : Type} (P : tree_params V).

Definition t_new (st : gmap Z (page V)) : gmap Z (page V) * PID :=
  btree_new (tp_junkK P) (tp_junkV P) (tp_alloc P) st.
Definition t_insert (e : PID) (st : gmap Z (page V)) (k : Z) (v : V) : result (gmap Z (page V)) :=
  insert (tp_leafMax P) (tp_innerMax P) (tp_junkK P) (tp_junkV P) (tp_junkIK P) (tp_junkIP P)
    (tp_alloc P) e st k v.
Definition t_remove (e : PID) (st : gmap Z (page V)) (k : Z) : result (bool * gmap Z (page V)) :=
  remove (tp_leafMax P) e st k.
Definition t_ok (e : PID) (st : gmap Z (page V)) (m : gmap Z V) : Prop :=
  ∃ es, tree_ok (tp_leafMax P) (tp_innerMax P) st e es ∧ al_map es = m.

Hypothesis HP : params_ok P.

Lemma tree_ok_sorted e (st : gmap Z (page V)) (es : list (Z * V)) : tree_ok (tp_leafMax P) (tp_innerMax P) st e es → al_sorted es.
Proof. intros (root & h & ps & _ & Hr & _). by eapply repr_sorted. Qed.

Lemma t_new_ok st : t_ok (t_new st).2 (t_new st).1 ∅.
Proof.
  unfold t_new, btree_new. simpl. set (e := tp_alloc P (dom st)).
  set (st1 := <[e := PEntry EMPTY_PID 0]> st). set (r := tp_alloc P (dom st1)).
  assert (r ∉ dom st1) as Hr by apply po_alloc, HP.
  assert (r ≠ e) as Hne by (intros E; apply Hr; unfold st1; rewrite E, dom_insert; set_solver).
  exists []. split; [|done]. exists r, 0%nat, {[r]}. rewrite lookup_insert_eq.
  split; [done|]. split; [|set_solver].
  exists (leaf_new (tp_junkK P) (tp_junkV P)). rewrite lookup_insert_ne, lookup_insert_eq by done.
  split_and!; try done. unfold leaf_wf. simpl.
  split_and!; [apply HP|apply HP|lia|constructor].
Qed.

End ops.

(** ** Sequences of operations *)

Inductive tree_op (V : Type) := OInsert (k : Z) (v : V) | ORemove (k : Z) | OLookup (k : Z).
Inductive tree_res (V : Type) := TUnit | TBool (b : bool) | TFound (o : option V).
Arguments OInsert {V} _ _. Arguments ORemove {V} _. Arguments OLookup {V} _.
Arguments TUnit {V}. Arguments TBool {V} _. Arguments TFound {V} _.

(** A lookup whose caller catches the exception of the failed check, and only
    that one. *)
Definition try_lookup {V} (e : PID) (st : gmap Z (page V)) (k : Z) : result (option V) :=
  match lookup e st k with
  | Ok v => Ok (Some v)
  | Throw EnsureFailed => Ok None
  | Throw x => Throw x
  end.

Fixpoint tree_run {V} (P : tree_params V) (e : PID) (ops : list (tree_op V)) (st : gmap Z (page V)) :
    result (list (tree_res V) * gmap Z (page V)) :=
  match ops with
  | [] => Ok ([], st)
  | op :: ops =>
      '(r, st') ← match op with
                  | OInsert k v => st' ← t_insert P e st k v; Ok (TUnit, st')
                  | ORemove k => '(b, st') ← t_remove P e st k; Ok (TBool b, st')
                  | OLookup k => o ← try_lookup e st k; Ok (TFound o, st)
                  end;
      '(rs, st'') ← tree_run P e ops st';
      Ok (r :: rs, st'')
  end.

(** The same sequence on a finite map. *)
Fixpoint map_run {V} (ops : list (tree_op V)) (m : gmap Z V) : list (tree_res V) * gmap Z V :=
  match ops with
  | [] => ([], m)
  | op :: ops =>
      let '(r, m') := match op with
                      | OInsert k v => (TUnit, <[k := v]> m)
                      | ORemove k => (TBool (bool_decide (is_Some (m !! k))), delete k m)
                      | OLookup k => (TFound (m !! k), m)
                      end in
      let '(rs, m'') := map_run ops m' in (r :: rs, m'')
  end.

(** A lookup of the sequence ends behind the arrays of a full leaf. *)
Definition t_past {V} (P : tree_params V) (e : PID) (st : gmap Z (page V)) (k : Z) : bool :=
  past_full_leaf (tp_leafMax P) e st k.
Fixpoint reads_past {V} (P : tree_params V) (e : PID) (ops : list (tree_op V)) (st : gmap Z (page V)) : bool :=
  match ops with
  | [] => false
  | OInsert k v :: ops => match t_insert P e st k v with Ok st' => reads_past P e ops st' | Throw _ => false end
  | ORemove k :: ops => match t_remove P e st k with Ok (_, st') => reads_past P e ops st' | Throw _ => false end
  | OLookup k :: ops => t_past P e st k || reads_past P e ops st
  end.

(** ** Lemmas behind the claims *)

Section refine.
Context {V : Type} (P : tree_params V).
Hypothesis HP : params_ok P.

Lemma t_insert_lem e st m k v : t_ok P e st m →
  ∃ st', t_insert P e st k v = Ok st' ∧ t_ok P e st' (<[k := v]> m).
Proof.
  intros (es & Hok & <-). pose proof (tree_ok_sorted P e st es Hok) as Hs.
  destruct (insert_tree_ok (tp_leafMax P) (tp_innerMax P) (tp_junkK P) (tp_junkV P) (tp_junkIK P)
    (tp_junkIP P) (tp_alloc P) e) with (st := st) (es := es) (k := k) (v := v) as (st' & Hi & Hok');
    try apply HP; [done|].
  exists st'. split; [done|]. exists (al_insert k v es). split; [done|]. by apply al_map_insert.
Qed.

Lemma t_remove_lem e st m k : t_ok P e st m →
  ∃ st', t_remove P e st k = Ok (bool_decide (is_Some (m !! k)), st') ∧ t_ok P e st' (delete k m).
Proof.
  intros (es & Hok & <-). pose proof (tree_ok_sorted P e st es Hok) as Hs.
  destruct (remove_tree_ok (tp_leafMax P) (tp_innerMax P) e st es k Hok) as (st' & Hr & Hok').
  exists st'. split; [|exists (al_remove k es); split; [done|by apply al_map_remove]].
  unfold t_remove. rewrite Hr. f_equal. f_equal. apply bool_decide_ext. by apply al_map_dom.
Qed.

Lemma t_lookup_lem {B} e st m k (f : V → B) : t_ok P e st m →
  (∀ v, m !! k = Some v → t_past P e st k = false ∧ lookup e st k = Ok v ∧ lookup_opt e st k f = Ok (f v)) ∧
  (m !! k = None → lookup e st k = Throw (if t_past P e st k then UndefinedBehaviour else EnsureFailed) ∧
                   lookup_opt e st k f = Throw EnsureFailed).
Proof.
  intros (es & Hok & <-). pose proof (tree_ok_sorted P e st es Hok) as Hs.
  destruct (lookup_opt_spec (tp_leafMax P) (tp_innerMax P) e st es k (po_leaf _ HP) Hok f) as [H1 H2].
  split.
  - intros v Hv%al_map_lookup; [|done]. split; [|split; [|by apply H1]].
    + apply not_true_iff_false. intros Hp. by apply (past_full_leaf_missing (tp_leafMax P) (tp_innerMax P) e st es k (po_leaf _ HP) Hok v) in Hp.
    + by eapply lookup_found; [apply HP|exact Hok|].
  - intros Hn. pose proof (al_map_lookup_None es k Hs Hn) as Hn'. split; [|by apply H2].
    by eapply lookup_missing; [apply HP|exact Hok|].
Qed.

Lemma try_lookup_lem e st m k : t_ok P e st m → try_lookup e st k = if t_past P e st k then Throw UndefinedBehaviour else Ok (m !! k).
Proof.
  intros Hok. destruct (t_lookup_lem e st m k id Hok) as [H1 H2]. unfold try_lookup. destruct (m !! k) as [v|].
  - by destruct (H1 v eq_refl) as (-> & -> & _).
  - destruct (H2 eq_refl) as (-> & _). by destruct (t_past P e st k).
Qed.

Lemma tree_run_lem e ops st m : t_ok P e st m →
  if reads_past P e ops st then tree_run P e ops st = Throw UndefinedBehaviour
  else ∃ st', tree_run P e ops st = Ok ((map_run ops m).1, st') ∧ t_ok P e st' (map_run ops m).2.
Proof.
  revert st m. induction ops as [|op ops IH]; intros st m Hok; [by exists st|].
  cbn [tree_run map_run reads_past]. destruct op as [k v|k|k].
  - destruct (t_insert_lem e st m k v Hok) as (st1 & -> & Hok1). cbn [mbind result_bind]. specialize (IH st1 _ Hok1).
    destruct (reads_past P e ops st1); [by rewrite IH|]. destruct IH as (st' & -> & Hok'). exists st'. by destruct (map_run ops _).
  - destruct (t_remove_lem e st m k Hok) as (st1 & -> & Hok1). cbn [mbind result_bind]. specialize (IH st1 _ Hok1).
    destruct (reads_past P e ops st1); [by rewrite IH|]. destruct IH as (st' & -> & Hok'). exists st'. by destruct (map_run ops _).
  - rewrite (try_lookup_lem e st m k Hok). destruct (t_past P e st k); [done|]. cbn [orb mbind result_bind]. specialize (IH st m Hok).
    destruct (reads_past P e ops st); [by rewrite IH|]. destruct IH as (st' & -> & Hok'). exists st'. by destruct (map_run ops _).
Qed.

End refine.

(** ** Claims *)

(** [C10] The B-tree refines a finite map: for every sequence of insertions,
    removals and lookups on a freshly constructed tree, every operation returns
    and yields what the same sequence on a map yields, an absent key being the
    exception of the failed check.  The one exception, stated by an executable
    condition, is a lookup that ends behind the last entry of a full leaf: it
    reads a payload outside of the array before it compares the key. *)
Theorem btree_refines_map {V} (P : tree_params V) (st0 : gmap Z (page V)) (ops : list (tree_op V)) :
  params_ok P →
  let '(st, e) := t_new P st0 in
  if reads_past P e ops st then tree_run P e ops st = Throw UndefinedBehaviour
  else ∃ st', tree_run P e ops st = Ok ((map_run ops ∅).1, st') ∧ t_ok P e st' (map_run ops ∅).2.
Proof.
  intros HP. pose proof (t_new_ok P HP st0) as Hok. destruct (t_new P st0) as [st e].
  by apply tree_run_lem.
Qed.

(** BTree::insert returns after finitely many restarts (at most the square
    of the number of levels), keeps the tree well formed and makes it represent
    the map with [k] bound to [v], whether or not [k] was present and whatever
    splits of leaves, inner nodes and the root are needed. *)
Theorem btree_insert_refines {V} (P : tree_params V) e st m k v :
  params_ok P → t_ok P e st m →
  ∃ st', t_insert P e st k v = Ok st' ∧ t_ok P e st' (<[k := v]> m).
Proof.
  intros HP. by apply t_insert_lem.
Qed.

(** The parameters used in the witnesses. *)
Definition sample_params : tree_params Z :=
  mkParams 4 5 (replicate 4 0) (replicate 4 0) (replicate 5 0) (replicate 5 0) fresh.
Lemma sample_params_ok : params_ok sample_params.
Proof. split; simpl; try (lia || done). intros X. apply is_fresh. Qed.

(** Five keys, so that the leaf is split; one is removed; one is absent. *)
Definition sample_ops : list (tree_op Z) :=
  [OInsert 30 3; OInsert 10 1; OInsert 40 4; OInsert 20 2; OInsert 50 5; OLookup 20; ORemove 20; OLookup 20; OInsert 10 7; OLookup 10].

Lemma btree_refines_map_witness :
  let '(st, e) := t_new sample_params ∅ in
  ∃ st', tree_run sample_params e sample_ops st =
           Ok ([TUnit; TUnit; TUnit; TUnit; TUnit; TFound (Some 2); TBool true; TFound None; TUnit; TFound (Some 7)], st') ∧
         t_ok sample_params e st' (map_run sample_ops ∅).2.
Proof.
  exact (btree_refines_map sample_params ∅ sample_ops sample_params_ok).
Defined.

(** A full leaf with the keys 10 to 40. *)
Definition full_leaf : gmap Z (page Z) :=
  match tree_run sample_params (t_new sample_params ∅).2 [OInsert 30 3; OInsert 10 1; OInsert 40 4; OInsert 20 2] (t_new sample_params ∅).1 with
  | Ok (_, st) => st
  | Throw _ => ∅
  end.
Lemma full_leaf_ok : t_ok sample_params (t_new sample_params ∅).2 full_leaf (map_run [OInsert 30 3; OInsert 10 1; OInsert 40 4; OInsert 20 2] ∅).2.
Proof.
  pose proof (tree_run_lem sample_params sample_params_ok _ [OInsert 30 3; OInsert 10 1; OInsert 40 4; OInsert 20 2] _ _
    (t_new_ok sample_params sample_params_ok ∅)) as H.
  destruct (reads_past _ _ _ _) eqn:E; [vm_compute in E; discriminate E|]. destruct H as (st' & H1 & H2).
  unfold full_leaf. rewrite H1. exact H2.
Qed.

(** The key behind a full leaf reads outside of it. *)
Example lookup_past_full_leaf : lookup (t_new sample_params ∅).2 full_leaf 50 = Throw UndefinedBehaviour.
Proof. vm_compute. reflexivity. Qed.

Lemma btree_insert_refines_witness :
  let '(st, e) := t_new sample_params ∅ in
  ∃ st', t_insert sample_params e st 7 70 = Ok st' ∧ t_ok sample_params e st' (<[7 := 70]> ∅).
Proof.
  exact (btree_insert_refines sample_params (t_new sample_params ∅).2 (t_new sample_params ∅).1 ∅ 7 70
    sample_params_ok (t_new_ok sample_params sample_params_ok ∅)).
Defined.

(** BTree::remove returns, says whether the key was present, and makes the
    tree represent the map without it, also when the leaf is underfull and its
    right sibling is merged into it and its page reclaimed. *)
Theorem btree_remove_refines {V} (P : tree_params V) e st m k :
  params_ok P → t_ok P e st m →
  ∃ st', t_remove P e st k = Ok (bool_decide (is_Some (m !! k)), st') ∧ t_ok P e st' (delete k m).
Proof.
  intros HP. by apply t_remove_lem.
Qed.

Lemma btree_remove_refines_witness :
  let '(st, e) := t_new sample_params ∅ in
  ∃ st', t_remove sample_params e st 7 = Ok (bool_decide (is_Some ((∅ : gmap Z Z) !! 7)), st') ∧
    t_ok sample_params e st' (delete 7 ∅).
Proof.
  exact (btree_remove_refines sample_params (t_new sample_params ∅).2 (t_new sample_params ∅).1 ∅ 7
    sample_params_ok (t_new_ok sample_params sample_params_ok ∅)).
Defined.

Lemma lookup_opt_value_eq {V} e (st : gmap PID (page V)) k : lookup_opt_value e st k = lookup e st k.
Proof.
  unfold lookup_opt_value, lookup. destruct (get_entry st e) as [[root h]|]; [|done]. simpl.
  destruct (find_leaf h st root k); [|done]. simpl. destruct (get_leaf st a) as [lf|]; [|done]. simpl.
  destruct (leaf_lowerBound lf k); [|done]. simpl. destruct (arr_get _ _); [|done]. simpl.
  by destruct (leaf_hit lf a0 k) as [[]|].
Qed.

(** [C38] BTree::lookup and both forms of lookup_opt return the value of a key
    that is present.  For a key that is absent the form of lookup_opt with a
    reader runs into [ensure(false)], so the [return false] behind it is never
    reached; lookup and the other form do so too, unless the search ends behind
    the last entry of a full leaf, where they first read a payload outside of
    the array. *)
Theorem btree_lookup_refines {V B} (P : tree_params V) e st m k (f : V → B) :
  params_ok P → t_ok P e st m →
  (∀ v, m !! k = Some v →
     lookup e st k = Ok v ∧ lookup_opt_value e st k = Ok v ∧ lookup_opt e st k f = Ok (f v)) ∧
  (m !! k = None →
     let x := if t_past P e st k then UndefinedBehaviour else EnsureFailed in
     lookup e st k = Throw x ∧ lookup_opt_value e st k = Throw x ∧ lookup_opt e st k f = Throw EnsureFailed).
Proof.
  intros HP Ht. rewrite lookup_opt_value_eq. destruct (t_lookup_lem P HP e st m k f Ht) as [H1 H2]. split.
  - intros v Hv. by destruct (H1 v Hv) as (_ & -> & ->).
  - intros Hn. by destruct (H2 Hn) as (-> & ->).
Qed.

(** In the full leaf: a key that is present, one between the keys, one behind
    them. *)
Lemma btree_lookup_refines_witness :
  let e := (t_new sample_params ∅).2 in
  (lookup e full_leaf 20 = Ok 2 ∧ lookup_opt_value e full_leaf 20 = Ok 2 ∧ lookup_opt e full_leaf 20 (Z.add 1) = Ok 3) ∧
  (lookup e full_leaf 25 = Throw EnsureFailed ∧ lookup_opt_value e full_leaf 25 = Throw EnsureFailed ∧
   lookup_opt e full_leaf 25 (Z.add 1) = Throw EnsureFailed) ∧
  (lookup e full_leaf 50 = Throw UndefinedBehaviour ∧ lookup_opt_value e full_leaf 50 = Throw UndefinedBehaviour ∧
   lookup_opt e full_leaf 50 (Z.add 1) = Throw EnsureFailed).
Proof.
  intros e.
  pose proof (λ k, btree_lookup_refines sample_params e full_leaf _ k (Z.add 1) sample_params_ok full_leaf_ok) as H.
  split; [exact (proj1 (H 20) 2 eq_refl)|]. split; [exact (proj2 (H 25) eq_refl)|exact (proj2 (H 50) eq_refl)].
Defined.

(** BTree::lookupAndUpdate on a present key applies the callback to its
    value in place and changes nothing else of the map. *)
Theorem btree_update_refines {V} (P : tree_params V) e st m k v (callback : V → V) :
  params_ok P → t_ok P e st m → m !! k = Some v →
  ∃ st', lookupAndUpdate e st k callback = Ok st' ∧ t_ok P e st' (<[k := callback v]> m).
Proof.
  intros HP (es & Hok & <-) Hv. pose proof (tree_ok_sorted P e st es Hok) as Hs.
  apply al_map_lookup in Hv; [|done].
  destruct (lookupAndUpdate_found (tp_leafMax P) (tp_innerMax P) e st es k (po_leaf _ HP) Hok callback v Hv)
    as (st' & ? & Hok').
  exists st'. split; [done|]. exists (al_insert k (callback v) es). split; [done|]. by apply al_map_insert.
Qed.

Lemma btree_update_refines_witness :
  ∃ st e st', t_ok sample_params e st (<[7 := 70]> ∅) ∧ lookupAndUpdate e st 7 (Z.add 1) = Ok st' ∧
    t_ok sample_params e st' (<[7 := 71]> (<[7 := 70]> ∅)).
Proof.
  destruct (t_insert_lem sample_params sample_params_ok (t_new sample_params ∅).2 (t_new sample_params ∅).1 ∅ 7 70)
    as (st & _ & H); [apply t_new_ok, sample_params_ok|].
  destruct (btree_update_refines sample_params _ st (<[7 := 70]> ∅) 7 70 (Z.add 1) sample_params_ok H)
    as (st' & H1 & H2); [apply lookup_insert_eq|].
  exists st, (t_new sample_params ∅).2, st'. split; [exact H|]. split; [exact H1|exact H2].
Defined.

(** [C39] The ascending scan from [k] calls the callback on exactly the entries
    whose key is at least [k], each once and in ascending key order, until the
    callback asks to stop; it always terminates. *)
Theorem btree_scan_asc {V S} (P : tree_params V) e st es (func : S → Z → V → S * bool) k s :
  tree_ok (tp_leafMax P) (tp_innerMax P) st e es →
  al_sorted es ∧
  scan e func ASC_SCAN st k s = Ok (feed func s (filter (λ x, k <= x.1) es)).1.
Proof. intros Hok. split; [by eapply tree_ok_sorted|by eapply scan_asc_ok]. Qed.

Lemma btree_scan_asc_witness :
  ∃ es, al_sorted es ∧ al_map es !! 30 = Some 3 ∧
    Ok [40; 30; 20] = scan (t_new sample_params ∅).2 (λ (s : list Z) k _, (k :: s, true)) ASC_SCAN full_leaf 15 [] ∧
    scan (t_new sample_params ∅).2 (λ (s : list Z) k _, (k :: s, true)) ASC_SCAN full_leaf 15 [] =
      Ok (feed (λ (s : list Z) k _, (k :: s, true)) [] (filter (λ x : Z * Z, 15 <= x.1) es)).1.
Proof.
  destruct full_leaf_ok as (es & Hok & Hm). exists es.
  destruct (btree_scan_asc sample_params _ _ es (λ (s : list Z) k _, (k :: s, true)) 15 [] Hok) as [H1 H2].
  split; [exact H1|]. split; [rewrite Hm; reflexivity|]. split; [vm_compute; reflexivity|exact H2].
Defined.

(** The descending scan from [k] calls the callback on exactly the entries
    whose key is at most [k], each once and in descending key order, until the
    callback asks to stop; it always terminates. *)
Theorem btree_scan_desc {V S} (P : tree_params V) e st es (func : S → Z → V → S * bool) k s :
  tree_ok (tp_leafMax P) (tp_innerMax P) st e es →
  al_sorted es ∧
  scan e func DESC_SCAN st k s = Ok (feed func s (reverse (filter (λ x, x.1 <= k) es))).1.
Proof. intros Hok. split; [by eapply tree_ok_sorted|by eapply scan_desc_ok]. Qed.

Lemma btree_scan_desc_witness :
  ∃ es, al_sorted es ∧
    scan (t_new sample_params ∅).2 (λ (s : list Z) k _, (k :: s, true)) DESC_SCAN (t_new sample_params ∅).1 3 [] =
      Ok (feed (λ (s : list Z) k _, (k :: s, true)) [] (reverse (filter (λ x : Z * Z, x.1 <= 3) es))).1.
Proof.
  destruct (t_new_ok sample_params sample_params_ok ∅) as (es & Hok & _). exists es.
  apply (btree_scan_desc sample_params _ _ es (λ (s : list Z) k _, (k :: s, true)) 3 [] Hok).
Defined.
