(* ===== verification/FreeList.v ===== *)
(** * utils/BatchQueue.hpp and storage/buffermanager/PartitionedQueue.hpp

    The free lists of the buffer manager: partitions, each with an intrusive
    linked list of full and one of empty batches, and a handle per thread that
    caches one batch.  Batches live in a heap and are named by partition and
    index.  What runs under the latch of one queue is one atomic action, as is
    an access to the batch a thread has taken out; [try_push] and [try_pop] are
    programs of these actions, and threads interleave between them. *)

From S2P Require Import Prelude Defs RingBuffer.
From Stdlib Require Import SpecFloat.
Local Open Scope Z_scope.

(** A batch: its partition and its index in the array of the queue. *)
Notation ptr := (nat * nat)%type.

Section queue.
Context {T C : Type} (N : Z) `{!Container T C N}.

Record Batch := mkBatch { container : C; next : option ptr }.
Notation heap := (gmap ptr Batch).

Record BatchQueue := mkBQ {
  bq_elements : Z;
  bq_size : Z;
  full_head : option ptr; full_size : Z;
  empty_head : option ptr; empty_size : Z;
}.

Definition deref (h : heap) (b : ptr) : result Batch := of_option UndefinedBehaviour (h !! b).
Definition set_next (h : heap) (b : ptr) (n : option ptr) : result heap :=
  bt ← deref h b; Ok (<[b := mkBatch (container bt) n]> h).

Definition increment_elements (inc : Z) (q : BatchQueue) : BatchQueue :=
  mkBQ (bq_elements q +₆₄ inc) (bq_size q) (full_head q) (full_size q) (empty_head q) (empty_size q).
Definition decrement_elements (dec : Z) (q : BatchQueue) : BatchQueue :=
  mkBQ (bq_elements q -₆₄ dec) (bq_size q) (full_head q) (full_size q) (empty_head q) (empty_size q).

Definition set_full (head : option ptr) (size : Z) (q : BatchQueue) : BatchQueue :=
  mkBQ (bq_elements q) (bq_size q) head size (empty_head q) (empty_size q).
Definition set_empty (head : option ptr) (size : Z) (q : BatchQueue) : BatchQueue :=
  mkBQ (bq_elements q) (bq_size q) (full_head q) (full_size q) head size.

(** An [assert] of the code: a failing one stops the program. *)
Definition has_size (P : Z → bool) (h : heap) (b : ptr) : result unit :=
  bt ← deref h b; ensure (P (k_get_size (container bt))).
Definition size_zero (n : Z) : bool := n =? 0.
Definition size_pos (n : Z) : bool := 0 <? n.

(** [try_push_full] and [try_push_empty] spin for the latch and always succeed,
    so [push_full] and [push_empty] make one call. *)
Definition try_push_full (b : ptr) (h : heap) (q : BatchQueue) : result (heap * BatchQueue) :=
  h' ← set_next h b (full_head q);
  bt ← deref h' b;
  let q := increment_elements (k_get_size (container bt)) q in
  Ok (h', set_full (Some b) (full_size q +₆₄ 1) q).

Definition try_push_empty (b : ptr) (h : heap) (q : BatchQueue) : result (heap * BatchQueue) :=
  h' ← set_next h b (empty_head q);
  _ ← has_size size_zero h' b;
  Ok (h', set_empty (Some b) (empty_size q +₆₄ 1) q).

Definition push_full (b : ptr) (h : heap) (q : BatchQueue) : result (heap * BatchQueue) :=
  _ ← has_size size_pos h b; try_push_full b h q.
Definition push_empty (b : ptr) (h : heap) (q : BatchQueue) : result (heap * BatchQueue) :=
  _ ← has_size size_zero h b; try_push_empty b h q.

Definition try_pop_empty (h : heap) (q : BatchQueue) : result (option ptr * BatchQueue) :=
  match empty_head q with
  | None => Ok (None, q)
  | Some b =>
      bt ← deref h b;
      _ ← has_size size_zero h b;
      Ok (Some b, set_empty (next bt) (empty_size q -₆₄ 1) q)
  end.

(** The guard variable is read before the latch is tried; [busy] is the outcome
    of the failing [try_lock]. *)
Definition try_pop_full (busy : bool) (h : heap) (q : BatchQueue) : result (option ptr * BatchQueue) :=
  if bq_elements q =? 0 then Ok (None, q)
  else if busy then Ok (None, q)
  else
    match full_head q with
    | None => Ok (None, q)
    | Some b =>
        bt ← deref h b;
        let q := set_full (next bt) (full_size q) q in
        let q := decrement_elements (k_get_size (container bt)) q in
        Ok (Some b, set_full (full_head q) (full_size q -₆₄ 1) q)
    end.

Definition push_full_and_try_pop_empty (b : ptr) (h : heap) (q : BatchQueue) :
    result (option ptr * heap * BatchQueue) :=
  match empty_head q with
  | None => Ok (None, h, q)
  | Some e =>
      h' ← set_next h b (full_head q);
      bt ← deref h' b;
      let q := increment_elements (k_get_size (container bt)) q in
      let q := set_full (Some b) (full_size q +₆₄ 1) q in
      et ← deref h' e;
      _ ← has_size size_zero h' e;
      Ok (Some e, h', set_empty (next et) (empty_size q -₆₄ 1) q)
  end.

Definition push_empty_and_try_pop_full (busy : bool) (b : ptr) (h : heap) (q : BatchQueue) :
    result (option ptr * heap * BatchQueue) :=
  if bq_elements q =? 0 then Ok (None, h, q)
  else if busy then Ok (None, h, q)
  else
    match full_head q with
    | None => Ok (None, h, q)
    | Some f =>
        _ ← has_size size_zero h b;
        h' ← set_next h b (empty_head q);
        let q := set_empty (Some b) (empty_size q +₆₄ 1) q in
        ft ← deref h' f;
        let q := set_full (next ft) (full_size q) q in
        let q := decrement_elements (k_get_size (container ft)) q in
        Ok (Some f, h', set_full (full_head q) (full_size q -₆₄ 1) q)
    end.

Definition approx_size (q : BatchQueue) : Z := bq_elements q.
Definition assert_no_leaks (q : BatchQueue) : result unit :=
  if empty_size q +₆₄ full_size q =? bq_size q then Ok tt else Throw RuntimeError.

(** [while (try_pop_full(full_batch))] of [reset], which no other thread runs
    against; the fuel bounds the number of full batches. *)
Fixpoint reset_loop (fuel : nat) (h : heap) (q : BatchQueue) : result (heap * BatchQueue) :=
  match fuel with
  | O => Throw OutOfFuel
  | S fuel =>
      '(o, q) ← try_pop_full false h q;
      match o with
      | None => Ok (h, q)
      | Some b =>
          bt ← deref h b;
          let h := <[b := mkBatch (k_reset (container bt)) (next bt)]> h in
          '(h, q) ← try_push_empty b h q;
          reset_loop fuel h q
      end
  end.

(** The walk of [assert_no_duplicates] over one list: the histogram is
    indexed by batch, and only the second walk checks it. *)
Fixpoint histogram_walk (fuel : nat) (check : bool) (h : heap) (current : option ptr)
    (histogram : gmap ptr nat) : result (gmap ptr nat) :=
  match current with
  | None => Ok histogram
  | Some b =>
      match fuel with
      | O => Throw OutOfFuel
      | S fuel =>
          let n := S (default O (histogram !! b)) in
          if check && (1 <? n)%nat then Throw RuntimeError
          else
            bt ← deref h b;
            histogram_walk fuel check h (next bt) (<[b := n]> histogram)
      end
  end.

Definition assert_no_duplicates (h : heap) (q : BatchQueue) : result unit :=
  hist ← histogram_walk (S (size h)) false h (full_head q) ∅;
  _ ← histogram_walk (S (size h)) true h (empty_head q) hist;
  Ok tt.

Definition bq_reset (h : heap) (q : BatchQueue) : result (heap * BatchQueue) :=
  if full_size q =? 0 then Ok (h, q)
  else
    _ ← ensure (bool_decide (is_Some (full_head q)));
    '(h, q) ← reset_loop (S (size h)) h q;
    _ ← ensure (full_size q =? 0);
    _ ← assert_no_duplicates h q;
    Ok (h, q).

(** The constructor: partition [pi] with [n] batches, pushed to the empty list. *)
Fixpoint bq_init (pi n : nat) (k : nat) (h : heap) (q : BatchQueue) : result (heap * BatchQueue) :=
  match n with
  | O => Ok (h, q)
  | S n =>
      '(h, q) ← push_empty (pi, k) (<[(pi, k) := mkBatch k_new None]> h) q;
      bq_init pi n (S k) h q
  end.

(** [(size_ / BatchSize) * oversubscription] in double precision, truncated. *)
Definition oversubscription : spec_float :=
  SFdiv 53 1024 (binary_normalize 53 1024 11 0 false) (binary_normalize 53 1024 10 0 false).
Definition sf_trunc (f : spec_float) : Z :=
  match f with
  | S754_finite false m e => if 0 <=? e then Zpos m * 2 ^ e else Zpos m / 2 ^ (- e)
  | _ => 0
  end.
Definition bq_batches (size_ : Z) : Z :=
  sf_trunc (SFmul 53 1024 (binary_normalize 53 1024 (size_ / N) 0 false) oversubscription).

Definition bq_new (pi : nat) (size_ : Z) (h : heap) : result (heap * BatchQueue) :=
  let n := bq_batches size_ in
  (* the conversion of a double to size_t is undefined out of range *)
  _ ← (if n <? 2 ^ 64 then Ok tt else Throw UndefinedBehaviour);
  bq_init pi (Z.to_nat n) 0 h (mkBQ 0 n None 0 None 0).

(** ** PartitionedQueue *)

(** A handle caches a batch and remembers the partition it belongs to. *)
Definition handle : Type := option (ptr * nat).
Record PQ := mkPQ { pq_heap : heap; pq_queues : list BatchQueue }.

Fixpoint pq_init (pi n : nat) (queueSize : Z) (s : PQ) : result PQ :=
  match n with
  | O => Ok s
  | S n =>
      '(h, q) ← bq_new pi queueSize (pq_heap s);
      pq_init (S pi) n queueSize (mkPQ h (pq_queues s ++ [q]))
  end.
Definition pq_new (Partitions : nat) (expectedElements : Z) : result PQ :=
  pq_init 0 Partitions (expectedElements / Z.of_nat Partitions) (mkPQ ∅ []).

(** *** Atomic actions *)

Inductive action : Type → Type :=
| PopEmpty (i : nat) : action (option ptr)
| TryPopFull (i : nat) (busy : bool) : action (option ptr)
| PushEmpty (i : nat) (b : ptr) : action unit
| PushFull (i : nat) (b : ptr) : action unit
| ContPush (b : ptr) (e : T) : action bool
| ContPop (b : ptr) : action (option T)
| ContEmpty (b : ptr) : action bool.

Definition on_queue {A} (i : nat) (s : PQ) (f : heap → BatchQueue → result (A * heap * BatchQueue)) :
    result (A * PQ) :=
  q ← arr_get (pq_queues s) i;
  '(a, h', q') ← f (pq_heap s) q;
  Ok (a, mkPQ h' (<[i := q']> (pq_queues s))).

Definition on_batch {A} (b : ptr) (s : PQ) (f : C → result (A * C)) : result (A * PQ) :=
  bt ← deref (pq_heap s) b;
  '(a, c) ← f (container bt);
  Ok (a, mkPQ (<[b := mkBatch c (next bt)]> (pq_heap s)) (pq_queues s)).

Definition act_run {R} (a : action R) (s : PQ) : result (R * PQ) :=
  match a with
  | PopEmpty i => on_queue i s (λ h q, '(o, q') ← try_pop_empty h q; Ok (o, h, q'))
  | TryPopFull i busy => on_queue i s (λ h q, '(o, q') ← try_pop_full busy h q; Ok (o, h, q'))
  | PushEmpty i b => on_queue i s (λ h q, '(h', q') ← push_empty b h q; Ok (tt, h', q'))
  | PushFull i b => on_queue i s (λ h q, '(h', q') ← push_full b h q; Ok (tt, h', q'))
  | ContPush b e => on_batch b s (k_try_push e)
  | ContPop b => on_batch b s k_try_pop
  | ContEmpty b => on_batch b s (λ c, Ok (k_get_size c =? 0, c))
  end.

Inductive qprog (A : Type) : Type :=
| QRet (a : A)
| QAct {R : Type} (act : action R) (k : R → qprog A).
Arguments QRet {A} _.
Arguments QAct {A R} _ _.

Fixpoint qrun {A} (p : qprog A) (s : PQ) : result (A * PQ) :=
  match p with
  | QRet a => Ok (a, s)
  | QAct act k => '(r, s') ← act_run act s; qrun (k r) s'
  end.

Fixpoint qbind {A B} (f : A → qprog B) (p : qprog A) : qprog B :=
  match p with
  | QRet a => f a
  | QAct act k => QAct act (λ r, qbind f (k r))
  end.

(** *** The operations

    [Partitions] queues; [rnd1] and [rnd2] are the draws of
    [RandomGenerator::getRandU64Fast()], [busy] the outcomes of the [try_lock]s
    in the order they are tried. *)

Section ops.
Variable Partitions : nat.

Definition pick (rnd : Z) : nat := Z.to_nat (Z.land rnd (Z.of_nat Partitions -₆₄ 1)).

(** [for (auto& q_ptr : queues)]: the first queue with a batch. *)
Fixpoint first_pop {A} (pop : nat → action (option ptr)) (idxs : list nat)
    (found : ptr → nat → qprog A) (none : qprog A) : qprog A :=
  match idxs with
  | [] => none
  | i :: idxs =>
      QAct (pop i) (λ o, match o with Some b => found b i | None => first_pop pop idxs found none end)
  end.

Definition push_fresh (e : T) (b : ptr) (qi : nat) : qprog (bool * handle) :=
  QAct (ContPush b e) (λ ok, QRet (ok, Some (b, qi))).

(** [try_push] once the handle has a batch. *)
Definition push_held (e : T) (rnd2 : Z) (b : ptr) (qi : nat) : qprog (bool * handle) :=
  QAct (ContPush b e) (λ ok : bool,
    if ok then QRet (true, Some (b, qi))
    else
      QAct (PushFull qi b) (λ _,
      let p_id := pick rnd2 in
      QAct (PopEmpty p_id) (λ o,
        match o with
        | Some b => push_fresh e b p_id
        | None => first_pop PopEmpty (seq 0 Partitions) (push_fresh e) (QRet (false, None))
        end))).

Definition try_push (e : T) (rnd1 rnd2 : Z) (hd : handle) : qprog (bool * handle) :=
  match hd with
  | Some (b, qi) => push_held e rnd2 b qi
  | None =>
      let p_id := pick rnd1 in
      QAct (PopEmpty p_id) (λ o,
        match o with Some b => push_held e rnd2 b p_id | None => QRet (false, None) end)
  end.

Definition pop_fresh (b : ptr) (qi : nat) : qprog (option T * handle) :=
  QAct (ContPop b) (λ r, QRet (r, Some (b, qi))).

(** [try_pop] once the handle has a batch. *)
Definition pop_held (rnd2 : Z) (busy : nat → bool) (b : ptr) (qi : nat) : qprog (option T * handle) :=
  QAct (ContPop b) (λ r,
    match r with
    | Some e => QRet (Some e, Some (b, qi))
    | None =>
        QAct (PushEmpty qi b) (λ _,
        let p_id := pick rnd2 in
        QAct (TryPopFull p_id (busy 1%nat)) (λ o,
          match o with
          | Some b => pop_fresh b p_id
          | None =>
              first_pop (λ i, TryPopFull i (busy (i + 2)%nat)) (seq 0 Partitions) pop_fresh (QRet (None, None))
          end))
    end).

Definition try_pop (rnd1 rnd2 : Z) (busy : nat → bool) (hd : handle) : qprog (option T * handle) :=
  match hd with
  | Some (b, qi) => pop_held rnd2 busy b qi
  | None =>
      let p_id := pick rnd1 in
      QAct (TryPopFull p_id (busy 0%nat)) (λ o,
        match o with Some b => pop_held rnd2 busy b p_id | None => QRet (None, None) end)
  end.

(** [~BatchHandle()] *)
Definition handle_release (hd : handle) : qprog unit :=
  match hd with
  | None => QRet tt
  | Some (b, qi) =>
      QAct (ContEmpty b) (λ e : bool,
        if e then QAct (PushEmpty qi b) QRet else QAct (PushFull qi b) QRet)
  end.

(** What a worker does with its handle: pushes and pops in some order, and the
    handle is released at the end.  It returns what its calls reported as
    pushed and popped. *)
Inductive fl_op :=
| OPush (e : T) (rnd1 rnd2 : Z)
| OPop (rnd1 rnd2 : Z) (busy : nat → bool).

Fixpoint session (ops : list fl_op) (hd : handle) (pushed popped : list T) : qprog (list T * list T) :=
  match ops with
  | [] => qbind (λ _, QRet (pushed, popped)) (handle_release hd)
  | OPush e rnd1 rnd2 :: ops =>
      qbind (λ r, session ops r.2 ((if r.1 : bool then [e] else []) ++ pushed) popped)
        (try_push e rnd1 rnd2 hd)
  | OPop rnd1 rnd2 busy :: ops =>
      qbind (λ r, session ops r.2 pushed (option_list r.1 ++ popped)) (try_pop rnd1 rnd2 busy hd)
  end.

End ops.

(** Threads interleave between atomic actions. *)
Record qcfg (A : Type) := mkQCfg { qc_threads : list (qprog A); qc_state : PQ }.
Arguments mkQCfg {A} _ _.
Arguments qc_threads {A} _.
Arguments qc_state {A} _.

Inductive qstep {A} : qcfg A → qcfg A → Prop :=
| qstep_act ths s s' t R (a : action R) k r :
    ths !! t = Some (QAct a k) → act_run a s = Ok (r, s') →
    qstep (mkQCfg ths s) (mkQCfg (<[t := k r]> ths) s').

Definition pq_approx_size (s : PQ) : Z :=
  foldl (λ size q, size +₆₄ approx_size q) 0 (pq_queues s).
Definition pq_assert_no_leaks (s : PQ) : result unit :=
  foldr (λ q r, _ ← assert_no_leaks q; r) (Ok tt) (pq_queues s).
Definition pq_assert_no_duplicates (s : PQ) : result unit :=
  foldr (λ q r, _ ← assert_no_duplicates (pq_heap s) q; r) (Ok tt) (pq_queues s).
Fixpoint reset_queues (h : heap) (qs : list BatchQueue) : result (heap * list BatchQueue) :=
  match qs with
  | [] => Ok (h, [])
  | q :: qs =>
      '(h, q) ← bq_reset h q;
      '(h, qs) ← reset_queues h qs;
      Ok (h, q :: qs)
  end.
Definition pq_reset (s : PQ) : result PQ :=
  '(h, qs) ← reset_queues (pq_heap s) (pq_queues s); Ok (mkPQ h qs).

End queue.

Arguments mkBatch {C} _ _.
Arguments container {C} _.
Arguments next {C} _.
Arguments mkPQ {C} _ _.
Arguments pq_heap {C} _.
Arguments pq_queues {C} _.
Arguments QRet {T A} _.
Arguments QAct {T A R} _ _.
Arguments mkQCfg {T C A} _ _.
Arguments qc_threads {T C A} _.
Arguments qc_state {T C A} _.

(** ** The invariant

    [held] are the batches out of the queues, one per handle.  The batches of a
    partition are the ones of its two lists and the held ones that belong to
    it, each once; full batches are not empty, empty ones are, and the counters
    are the lengths and the number of elements modulo [2^64]. *)

Section proofs.
Context {T C : Type} (N : Z) `{K : !Container T C N}.
Notation heap := (gmap ptr (@Batch C)).
Notation PQ := (@PQ C).
Implicit Types (h : heap) (b : ptr) (l fl el held R : list ptr) (q : BatchQueue) (s : PQ) (i j : nat).

Fixpoint llist h (hd : option ptr) l : Prop :=
  match l with
  | [] => hd = None
  | b :: l => hd = Some b ∧ ∃ bt, h !! b = Some bt ∧ llist h (next bt) l
  end.

Definition sz h b : Z := match h !! b with Some bt => k_get_size (container bt) | None => 0 end.
Definition total h l : Z := foldr (λ b n, sz h b + n) 0 l.
Definition mine i l : list ptr := filter (λ b, b.1 = i) l.
Definition keys h : list ptr := elements (dom h : gset ptr).

Record queue_ok h held i q fl el : Prop := {
  qo_full : llist h (full_head q) fl;
  qo_empty : llist h (empty_head q) el;
  qo_fsize : full_size q = u64 (Z.of_nat (length fl));
  qo_esize : empty_size q = u64 (Z.of_nat (length el));
  qo_elements : bq_elements q = u64 (total h fl);
  qo_nonempty : Forall (λ b, 0 < sz h b) fl;
  qo_isempty : Forall (λ b, sz h b = 0) el;
  qo_perm : fl ++ el ++ mine i held ≡ₚ mine i (keys h);
  qo_size : bq_size q = Z.of_nat (length (mine i (keys h)));
  qo_bound : bq_size q < 2 ^ 64;
}.

Record inv s held : Prop := {
  inv_queues i q : pq_queues s !! i = Some q → ∃ fl el, queue_ok (pq_heap s) held i q fl el;
  inv_conts b bt : pq_heap s !! b = Some bt → k_inv (container bt);
  inv_held b : b ∈ held → (b.1 < length (pq_queues s))%nat;
  inv_keys b : b ∈ keys (pq_heap s) → (b.1 < length (pq_queues s))%nat;
}.

Definition contents h : list T := map_to_list h ≫= λ p, k_abs (container p.2).

(** *** Frame lemmas: a change of one batch *)

Lemma keys_insert h b bt : is_Some (h !! b) → keys (<[b := bt]> h) = keys h.
Proof. intros. unfold keys. by rewrite dom_insert_lookup_L. Qed.

Lemma elem_keys h b : b ∈ keys h ↔ is_Some (h !! b).
Proof. unfold keys. by rewrite elem_of_elements, elem_of_dom. Qed.

Lemma NoDup_mine_keys i h : NoDup (mine i (keys h)).
Proof. apply NoDup_filter. unfold keys. apply NoDup_elements. Qed.

Lemma sz_insert_ne h b b' bt : b ≠ b' → sz (<[b := bt]> h) b' = sz h b'.
Proof. intros. unfold sz. by rewrite lookup_insert_ne. Qed.
Lemma sz_insert h b bt : sz (<[b := bt]> h) b = k_get_size (container bt).
Proof. unfold sz. by rewrite lookup_insert_eq. Qed.

Lemma llist_insert h b bt hd l : b ∉ l → llist h hd l → llist (<[b := bt]> h) hd l.
Proof.
  revert hd. induction l as [|b' l IH]; intros hd Hb; [done|]. apply not_elem_of_cons in Hb as [? ?].
  intros (-> & bt' & Hl & ?). split; [done|]. exists bt'. rewrite lookup_insert_ne by done. eauto.
Qed.

Lemma total_insert h b bt l : b ∉ l → total (<[b := bt]> h) l = total h l.
Proof.
  induction l as [|b' l IH]; intros Hb; [done|]. apply not_elem_of_cons in Hb as [? ?]. simpl.
  rewrite sz_insert_ne, IH by done. done.
Qed.

Lemma Forall_sz_insert (P : Z → Prop) h b bt l :
  b ∉ l → Forall (λ x, P (sz h x)) l → Forall (λ x, P (sz (<[b := bt]> h) x)) l.
Proof.
  rewrite !Forall_forall. intros Hb Hl b' Hb'. assert (b ≠ b') by (intros Heq; by subst).
  rewrite sz_insert_ne by done. exact (Hl b' Hb').
Qed.

Lemma queue_ok_insert h held held' i q fl el b bt :
  queue_ok h held i q fl el → is_Some (h !! b) → b ∉ fl ++ el → mine i held' ≡ₚ mine i held →
  queue_ok (<[b := bt]> h) held' i q fl el.
Proof.
  intros [] Hb [Hbf Hbe]%not_elem_of_app Hm.
  split; rewrite ?keys_insert, ?total_insert by done; auto using llist_insert.
  - by apply (Forall_sz_insert (λ n, 0 < n)).
  - by apply (Forall_sz_insert (λ n, n = 0)).
  - by rewrite Hm.
Qed.

(** A held batch is in no list, and a batch of one partition in no other's. *)
Lemma held_notin h held i q fl el b : queue_ok h held i q fl el → b ∈ held → b ∉ fl ++ el.
Proof.
  intros Hq Hb Hin. pose proof (qo_perm _ _ _ _ _ _ Hq) as HP.
  assert (NoDup ((fl ++ el) ++ mine i held)) as Hnd
    by (rewrite <- app_assoc, HP; apply NoDup_mine_keys).
  assert (b ∈ mine i (keys h)) as [Hi _]%list_elem_of_filter
    by (rewrite <- HP, app_assoc; apply elem_of_app; by left).
  apply NoDup_app in Hnd as (_ & Hd & _). apply (Hd b Hin). by apply list_elem_of_filter.
Qed.

Lemma foreign_notin h held i q fl el b : queue_ok h held i q fl el → b.1 ≠ i → b ∉ fl ++ el.
Proof.
  intros Hq Hb Hin. pose proof (qo_perm _ _ _ _ _ _ Hq) as HP.
  assert (b ∈ mine i (keys h)) as [Hi _]%list_elem_of_filter
    by (rewrite <- HP, app_assoc; apply elem_of_app; by left). done.
Qed.

Lemma held_lookup s held b : inv s held → b ∈ held → ∃ bt, pq_heap s !! b = Some bt ∧ k_inv (container bt).
Proof.
  intros HI Hb. pose proof (inv_held _ _ HI b Hb) as Hlt.
  apply lookup_lt_is_Some_2 in Hlt as [q Hq].
  destruct (inv_queues _ _ HI _ _ Hq) as (fl & el & Hok).
  assert (b ∈ mine b.1 (keys (pq_heap s))) as [_ Hk]%list_elem_of_filter.
  { rewrite <- (qo_perm _ _ _ _ _ _ Hok), !elem_of_app. right; right. by apply list_elem_of_filter. }
  apply elem_keys in Hk as [bt Hbt]. eauto using inv_conts.
Qed.

Lemma mine_cons_eq i b l : b.1 = i → mine i (b :: l) = b :: mine i l.
Proof. intros. unfold mine. by rewrite filter_cons_True. Qed.
Lemma mine_cons_ne i b l : b.1 ≠ i → mine i (b :: l) = mine i l.
Proof. intros. unfold mine. by rewrite filter_cons_False. Qed.

Lemma inv_Permutation s held held' : held ≡ₚ held' → inv s held → inv s held'.
Proof.
  intros HP [Hq Hc Hh Hk]. split; [|done|intros b; rewrite <- HP; auto|done].
  intros i q Hi. destruct (Hq i q Hi) as (fl & el & []). exists fl, el.
  split; try done. unfold mine in *. by rewrite <- HP.
Qed.

(** *** The atomic actions *)

Lemma u64_add_l x y : u64 (u64 x + y) = u64 (x + y).
Proof. unfold u64. by rewrite Z.add_mod_idemp_l. Qed.
Lemma u64_sub_l x y : u64 (u64 x - y) = u64 (x - y).
Proof. unfold u64. by rewrite Zminus_mod_idemp_l. Qed.

Lemma queue_ok_held h held held' i q fl el :
  mine i held' ≡ₚ mine i held → queue_ok h held i q fl el → queue_ok h held' i q fl el.
Proof. intros Hm []. split; try done. by rewrite Hm. Qed.

Lemma inv_update s held held' i q q' h' fl el :
  inv s held → pq_queues s !! i = Some q → queue_ok h' held' i q' fl el →
  (∀ j qj fl el, j ≠ i → queue_ok (pq_heap s) held j qj fl el → queue_ok h' held' j qj fl el) →
  (∀ b bt, h' !! b = Some bt → k_inv (container bt)) →
  (∀ b, b ∈ held' → b ∈ held ∨ b.1 = i) → keys h' = keys (pq_heap s) →
  inv (mkPQ h' (<[i := q']> (pq_queues s))) held'.
Proof.
  intros HI Hi Hq' Hj Hc Hh Hk. apply lookup_lt_Some in Hi as Hlt. split; simpl; [|done| |].
  - intros j qj. destruct (decide (i = j)) as [->|].
    + rewrite list_lookup_insert_eq by done. intros [= <-]. eauto.
    + rewrite list_lookup_insert_ne by done. intros Hqj.
      destruct (inv_queues _ _ HI _ _ Hqj) as (fl' & el' & Hok). eauto.
  - rewrite length_insert. intros b [Hb| ->]%Hh; [|done]. by eapply inv_held in Hb.
  - rewrite length_insert, Hk. apply (inv_keys _ _ HI).
Qed.

Lemma pop_empty_ok s R i : inv s R → (i < length (pq_queues s))%nat →
  ∃ o s' q, act_run N (PopEmpty i) s = Ok (o, s') ∧ pq_queues s !! i = Some q ∧ o = empty_head q ∧
    inv s' (option_list o ++ R) ∧ pq_heap s' = pq_heap s ∧ (o = None → s' = s) ∧
    ∀ b, o = Some b → b.1 = i ∧ sz (pq_heap s) b = 0.
Proof.
  intros HI [q Hq]%lookup_lt_is_Some_2. destruct (inv_queues _ _ HI _ _ Hq) as (fl & el & Hok).
  cbn [act_run]. unfold on_queue. rewrite (arr_get_lookup _ _ _ Hq). cbn [mbind result_bind].
  pose proof (qo_empty _ _ _ _ _ _ Hok) as He. pose proof (qo_isempty _ _ _ _ _ _ Hok) as Hz.
  pose proof (qo_perm _ _ _ _ _ _ Hok) as HP. unfold try_pop_empty. destruct el as [|b el].
  { simpl in He. rewrite He. cbn [mbind result_bind]. do 3 eexists. split; [done|].
    rewrite list_insert_id by done. destruct s. split_and!; eauto. by intros. }
  destruct He as (Hhd & bt & Hb & Hl). rewrite Hhd. apply Forall_cons in Hz as [Hz Hzl].
  unfold has_size, deref. rewrite Hb. cbn [of_option mbind result_bind].
  pose proof Hz as Hz'. unfold sz in Hz'. rewrite Hb in Hz'. unfold size_zero. rewrite Hz'.
  cbn [ensure Z.eqb mbind result_bind]. do 3 eexists. split; [done|]. split; [done|]. split; [by rewrite Hhd|].
  assert (b.1 = i) as Hbi.
  { assert (b ∈ mine i (keys (pq_heap s))) as [? _]%list_elem_of_filter; [|done].
    rewrite <- HP, !elem_of_app. right; left. by left. }
  split; [|split; [done|split; [done|]]; by intros ? [= <-]]. simpl.
  eapply (inv_update s R); [done|done| |..].
  - destruct Hok. split; cbn [full_head full_size empty_head empty_size bq_elements bq_size set_empty]; try done.
    + rewrite qo_esize0, u64_sub_l. f_equal. simpl. lia.
    + rewrite mine_cons_eq by done. rewrite <- HP. simpl. by rewrite <- Permutation_middle.
  - intros j qj fl' el' Hj. apply queue_ok_held. by rewrite mine_cons_ne by congruence.
  - intros. by eapply inv_conts.
  - intros b' [->|?]%elem_of_cons; auto.
  - done.
Qed.

Lemma pop_full_ok s R i busy : inv s R → (i < length (pq_queues s))%nat →
  ∃ o s' q, act_run N (TryPopFull i busy) s = Ok (o, s') ∧ pq_queues s !! i = Some q ∧
    o = (if (bq_elements q =? 0) || busy then None else full_head q) ∧
    inv s' (option_list o ++ R) ∧ pq_heap s' = pq_heap s ∧ (o = None → s' = s) ∧
    ∀ b, o = Some b → b.1 = i ∧ 0 < sz (pq_heap s) b.
Proof.
  intros HI [q Hq]%lookup_lt_is_Some_2. destruct (inv_queues _ _ HI _ _ Hq) as (fl & el & Hok).
  cbn [act_run]. unfold on_queue. rewrite (arr_get_lookup _ _ _ Hq). cbn [mbind result_bind].
  assert (∃ s' q', mkPQ (pq_heap s) (<[i := q]> (pq_queues s)) = s' ∧ pq_queues s !! i = Some q' ∧ inv s' R ∧
            s' = s ∧ q' = q) as (s' & q' & Hs' & Hqq & HI' & -> & ->).
  { do 2 eexists. rewrite list_insert_id by done. destruct s. eauto. }
  unfold try_pop_full. destruct (bq_elements q =? 0) eqn:Hz0.
  { cbn [mbind result_bind]. rewrite Hs'. exists None, s, q. rewrite Hz0. split_and!; try done. }
  destruct busy; [cbn [mbind result_bind]; rewrite Hs'; exists None, s, q; rewrite Hz0; split_and!; try done|].
  pose proof (qo_full _ _ _ _ _ _ Hok) as He. pose proof (qo_nonempty _ _ _ _ _ _ Hok) as Hz.
  pose proof (qo_perm _ _ _ _ _ _ Hok) as HP. destruct fl as [|b fl].
  { simpl in He. rewrite He. cbn [mbind result_bind]. rewrite Hs'. exists None, s, q. rewrite Hz0, He. split_and!; try done. }
  destruct He as (Hhd & bt & Hb & Hl). rewrite Hhd. apply Forall_cons in Hz as [Hz Hzl].
  unfold deref. rewrite Hb. cbn [of_option mbind result_bind]. do 3 eexists. split; [done|]. split; [done|].
  split; [by rewrite Hz0, Hhd|].
  assert (b.1 = i) as Hbi.
  { assert (b ∈ mine i (keys (pq_heap s))) as [? _]%list_elem_of_filter; [|done].
    rewrite <- HP, !elem_of_app. left. by left. }
  split; [|split; [done|split; [done|]]; by intros ? [= <-]]. simpl.
  eapply (inv_update s R); [done|done| |..].
  - destruct Hok. split;
      cbn [full_head full_size empty_head empty_size bq_elements bq_size set_full decrement_elements]; try done.
    + rewrite qo_fsize0, u64_sub_l. f_equal. simpl. lia.
    + rewrite qo_elements0, u64_sub_l. f_equal. simpl. unfold sz at 1. rewrite Hb. lia.
    + rewrite mine_cons_eq by done. rewrite <- HP. simpl.
      rewrite (app_assoc fl el (b :: _)), <- Permutation_middle. by rewrite <- app_assoc.
  - intros j qj fl' el' Hj. apply queue_ok_held. by rewrite mine_cons_ne by congruence.
  - intros b' bt'. apply (inv_conts _ _ HI).
  - intros b' [->|?]%elem_of_cons; auto.
  - done.
Qed.

Lemma contents_lookup h b bt : h !! b = Some bt →
  contents h ≡ₚ k_abs (container bt) ++ contents (delete b h).
Proof.
  intros Hb. unfold contents. rewrite <- (map_to_list_delete _ _ _ Hb). simpl. done.
Qed.

Lemma contents_insert h b bt : contents (<[b := bt]> h) ≡ₚ k_abs (container bt) ++ contents (delete b h).
Proof.
  rewrite (contents_lookup _ b bt) by apply lookup_insert_eq. by rewrite delete_insert_eq.
Qed.

Lemma contents_next h b bt n : h !! b = Some bt →
  contents (<[b := mkBatch (container bt) n]> h) ≡ₚ contents h.
Proof. intros Hb. by rewrite contents_insert, (contents_lookup _ _ _ Hb). Qed.

Lemma conts_insert s held b c n b' bt' : inv s held → k_inv c →
  <[b := mkBatch c n]> (pq_heap s) !! b' = Some bt' → k_inv (container bt').
Proof. intros HI Hc [[<- <-]|[? ?]]%lookup_insert_Some; [done|by eapply inv_conts]. Qed.

(** What a push or an access of the batch [b] leaves alone. *)
Definition only b h h' : Prop := ∀ b', b' ≠ b → h' !! b' = h !! b'.

Lemma only_insert b bt h : only b h (<[b := bt]> h).
Proof. intros b' ?. by rewrite lookup_insert_ne. Qed.

Lemma push_empty_ok s R b : inv s (b :: R) → sz (pq_heap s) b = 0 →
  ∃ s', act_run N (PushEmpty b.1 b) s = Ok (tt, s') ∧ inv s' R ∧
    contents (pq_heap s') ≡ₚ contents (pq_heap s) ∧ only b (pq_heap s) (pq_heap s').
Proof.
  intros HI Hz. destruct (held_lookup _ _ b HI) as (bt & Hb & Hc); [by left|].
  pose proof (inv_held _ _ HI b ltac:(by left)) as Hlt. apply lookup_lt_is_Some_2 in Hlt as [q Hq].
  destruct (inv_queues _ _ HI _ _ Hq) as (fl & el & Hok).
  pose proof (held_notin _ _ _ _ _ _ b Hok ltac:(by left)) as [Hbf Hbe]%not_elem_of_app.
  cbn [act_run]. unfold on_queue. rewrite (arr_get_lookup _ _ _ Hq). cbn [mbind result_bind].
  pose proof Hz as Hz'. unfold sz in Hz'. rewrite Hb in Hz'.
  unfold push_empty, try_push_empty, has_size, set_next, deref, size_zero.
  rewrite Hb. cbn [of_option mbind result_bind]. rewrite Hz'. cbn [Z.eqb ensure mbind result_bind].
  rewrite lookup_insert_eq. cbn [of_option mbind result_bind container]. rewrite Hz'. cbn [Z.eqb ensure mbind result_bind].
  eexists. split; [done|]. cbn [pq_heap]. split; [|split; [by apply contents_next|apply only_insert]].
  eapply (inv_update s (b :: R) _ _ _ _ _ fl (b :: el)); [done|done| |..].
  - pose proof (queue_ok_insert _ _ (b :: R) _ _ _ _ b (mkBatch (container bt) (empty_head q)) Hok) as Hok'.
    destruct Hok'; [done|by apply not_elem_of_app|done|].
    split; cbn [full_head full_size empty_head empty_size bq_elements bq_size set_empty]; try done.
    + split; [done|]. eexists. rewrite lookup_insert_eq. done.
    + rewrite qo_esize0, u64_add_l. f_equal. simpl. lia.
    + constructor; [|done]. by rewrite sz_insert.
    + rewrite <- qo_perm0, mine_cons_eq by done. simpl. by rewrite <- (Permutation_middle el).
  - intros j qj fl' el' Hj Hok'. eapply queue_ok_insert; [done|done|by eapply foreign_notin|].
    by rewrite mine_cons_ne.
  - intros b' bt'. by eapply conts_insert.
  - intros b' ?. left. by right.
  - by apply keys_insert.
Qed.

Lemma push_full_ok s R b : inv s (b :: R) → 0 < sz (pq_heap s) b →
  ∃ s', act_run N (PushFull b.1 b) s = Ok (tt, s') ∧ inv s' R ∧
    contents (pq_heap s') ≡ₚ contents (pq_heap s) ∧ only b (pq_heap s) (pq_heap s').
Proof.
  intros HI Hz. destruct (held_lookup _ _ b HI) as (bt & Hb & Hc); [by left|].
  pose proof (inv_held _ _ HI b ltac:(by left)) as Hlt. apply lookup_lt_is_Some_2 in Hlt as [q Hq].
  destruct (inv_queues _ _ HI _ _ Hq) as (fl & el & Hok).
  pose proof (held_notin _ _ _ _ _ _ b Hok ltac:(by left)) as [Hbf Hbe]%not_elem_of_app.
  cbn [act_run]. unfold on_queue. rewrite (arr_get_lookup _ _ _ Hq). cbn [mbind result_bind].
  pose proof Hz as Hz'. unfold sz in Hz'. rewrite Hb in Hz'.
  unfold push_full, try_push_full, has_size, set_next, deref, size_pos.
  rewrite Hb. cbn [of_option mbind result_bind]. rewrite (proj2 (Z.ltb_lt _ _) Hz').
  cbn [ensure mbind result_bind]. rewrite lookup_insert_eq. cbn [of_option mbind result_bind container].
  eexists. split; [done|]. cbn [pq_heap]. split; [|split; [by apply contents_next|apply only_insert]].
  eapply (inv_update s (b :: R) _ _ _ _ _ (b :: fl) el); [done|done| |..].
  - pose proof (queue_ok_insert _ _ (b :: R) _ _ _ _ b (mkBatch (container bt) (full_head q)) Hok) as Hok'.
    destruct Hok'; [done|by apply not_elem_of_app|done|].
    split; cbn [full_head full_size empty_head empty_size bq_elements bq_size set_full increment_elements]; try done.
    + split; [done|]. eexists. rewrite lookup_insert_eq. done.
    + rewrite qo_fsize0, u64_add_l. f_equal. simpl. lia.
    + rewrite qo_elements0, u64_add_l. f_equal. simpl. rewrite sz_insert. simpl. lia.
    + constructor; [|done]. by rewrite sz_insert.
    + rewrite <- qo_perm0, mine_cons_eq by done. simpl. by rewrite (app_assoc fl el (b :: _)), <- Permutation_middle, <- app_assoc.
  - intros j qj fl' el' Hj Hok'. eapply queue_ok_insert; [done|done|by eapply foreign_notin|].
    by rewrite mine_cons_ne.
  - intros b' bt'. by eapply conts_insert.
  - intros b' ?. left. by right.
  - by apply keys_insert.
Qed.

Lemma inv_batch s R b bt c : inv s (b :: R) → pq_heap s !! b = Some bt → k_inv c →
  inv (mkPQ (<[b := mkBatch c (next bt)]> (pq_heap s)) (pq_queues s)) (b :: R).
Proof.
  intros HI Hb Hc. split; cbn [pq_heap pq_queues].
  - intros i q Hq. destruct (inv_queues _ _ HI _ _ Hq) as (fl & el & Hok). exists fl, el.
    eapply queue_ok_insert; [done|done| |done]. eapply held_notin; [done|]. by left.
  - intros b' bt'. by eapply conts_insert.
  - by apply inv_held.
  - rewrite keys_insert by done. apply (inv_keys _ _ HI).
Qed.

(** *** What a thread knows of the batch it has taken out *)

Inductive know := KUnk | KEmpty | KNonEmpty.
Inductive cap := Idle | Holds (b : ptr) (k : know).

Definition know_ok (n : Z) (k : know) : Prop :=
  match k with KUnk => True | KEmpty => n = 0 | KNonEmpty => 0 < n end.
Definition cap_ok h (c : cap) : Prop :=
  match c with Idle => True | Holds b k => know_ok (sz h b) k end.
Definition cap_list (c : cap) : list ptr := match c with Idle => [] | Holds b _ => [b] end.

(** When an action may be taken, and what holds after it returned [r]. *)
Definition allowed {A} (n : nat) (c : cap) (a : action (T:=T) A) : Prop :=
  match a with
  | PopEmpty i | TryPopFull i _ => c = Idle ∧ (i < n)%nat
  | PushEmpty i b => c = Holds b KEmpty ∧ i = b.1
  | PushFull i b => c = Holds b KNonEmpty ∧ i = b.1
  | ContPush b _ | ContPop b | ContEmpty b => ∃ k, c = Holds b k
  end.

Definition took (k : know) i (o : option ptr) (c' : cap) : Prop :=
  match o with None => c' = Idle | Some b => c' = Holds b k ∧ b.1 = i end.

Definition after {A} (c : cap) (a : action (T:=T) A) : A → cap → Prop :=
  match a in action A return A → cap → Prop with
  | PopEmpty i => took KEmpty i
  | TryPopFull i _ => took KNonEmpty i
  | PushEmpty _ _ | PushFull _ _ => λ _ c', c' = Idle
  | ContPush b _ => λ ok c', c' = Holds b KNonEmpty ∧ (c = Holds b KEmpty → ok = true)
  | ContPop b => λ r c',
      c' = Holds b (match r with None => KEmpty | Some _ => KUnk end) ∧ (c = Holds b KNonEmpty → is_Some r)
  | ContEmpty b => λ e c', c' = Holds b (if e then KEmpty else KNonEmpty)
  end.

(** The element an action put into or took out of a container. *)
Definition ev_push {A} (a : action (T:=T) A) : A → list T :=
  match a in action A return A → list T with
  | ContPush _ e => λ ok, if ok then [e] else []
  | _ => λ _, []
  end.
Definition ev_pop {A} (a : action (T:=T) A) : A → list T :=
  match a in action A return A → list T with
  | ContPop _ => option_list
  | _ => λ _, []
  end.

Lemma act_run_length {A} (a : action (T:=T) A) s r s' :
  act_run N a s = Ok (r, s') → length (pq_queues s') = length (pq_queues s).
Proof.
  destruct a; cbn [act_run]; unfold on_queue, on_batch; intros H; inv_bind;
    repeat match goal with p : _ * _ |- _ => destruct p end; inv_bind; simpl; by rewrite ?length_insert.
Qed.

Hypothesis HN : 0 < N.

Lemma act_ok {A} (a : action (T:=T) A) c s R :
  allowed (length (pq_queues s)) c a → inv s (cap_list c ++ R) → cap_ok (pq_heap s) c →
  ∃ r s' c', act_run N a s = Ok (r, s') ∧ after c a r c' ∧
    inv s' (cap_list c' ++ R) ∧ cap_ok (pq_heap s') c' ∧
    ev_pop a r ++ contents (pq_heap s') ≡ₚ ev_push a r ++ contents (pq_heap s) ∧
    (∀ b, b ∉ cap_list c → pq_heap s' !! b = pq_heap s !! b).
Proof.
  intros Ha HI Hc. destruct a as [i|i busy|i b|i b|b e|b|b]; simpl in Ha.
  - destruct Ha as [-> Hi]. destruct (pop_empty_ok s R i HI Hi) as (o & s' & q & Hr & _ & _ & HI' & Hh & _ & Hb).
    exists o, s'. destruct o as [b|].
    + exists (Holds b KEmpty). destruct (Hb b eq_refl). simpl. rewrite Hh. by split_and!.
    + exists Idle. simpl. rewrite Hh. by split_and!.
  - destruct Ha as [-> Hi].
    destruct (pop_full_ok s R i busy HI Hi) as (o & s' & q & Hr & _ & _ & HI' & Hh & _ & Hb).
    exists o, s'. destruct o as [b|].
    + exists (Holds b KNonEmpty). destruct (Hb b eq_refl). simpl. rewrite Hh. by split_and!.
    + exists Idle. simpl. rewrite Hh. by split_and!.
  - destruct Ha as [-> ->]. destruct (push_empty_ok s R b HI Hc) as (s' & Hr & HI' & HP & Ho).
    exists tt, s', Idle. simpl. split_and!; try done. intros b' Hb'. apply Ho. set_solver.
  - destruct Ha as [-> ->]. destruct (push_full_ok s R b HI Hc) as (s' & Hr & HI' & HP & Ho).
    exists tt, s', Idle. simpl. split_and!; try done. intros b' Hb'. apply Ho. set_solver.
  - destruct Ha as [k ->]. destruct (held_lookup _ _ b HI) as (bt & Hb & Hk); [by left|].
    destruct (k_push_ok _ e Hk) as (cc & Hp & Hcc & HP). cbn [act_run]. unfold on_batch, deref.
    rewrite Hb. cbn [of_option mbind result_bind]. rewrite Hp. cbn [mbind result_bind].
    do 2 eexists. exists (Holds b KNonEmpty). split; [done|].
    destruct (k_size_ok _ Hk) as [Hs _]. destruct (k_size_ok _ Hcc) as [Hs' _].
    rewrite (Permutation_length HP), length_app, Nat2Z.inj_add in Hs'.
    pose proof (k_full_ok (container bt)) as Hf.
    split; [split; [done|]|split_and!].
    + intros [= ->]. simpl in Hc. unfold sz in Hc. rewrite Hb in Hc. rewrite Hf, Hc.
      destruct (Z.eqb_spec 0 N); [lia|done].
    + by apply inv_batch.
    + simpl. rewrite sz_insert. simpl. rewrite Hs', <- Hs. destruct (k_full (container bt)); simpl.
      * symmetry in Hf. apply Z.eqb_eq in Hf. lia.
      * lia.
    + simpl. rewrite contents_insert, (contents_lookup _ _ _ Hb). simpl. rewrite HP, <- app_assoc.
      by destruct (k_full (container bt)).
    + intros b' Hb'. simpl. rewrite lookup_insert_ne by set_solver. done.
  - destruct Ha as [k ->]. destruct (held_lookup _ _ b HI) as (bt & Hb & Hk); [by left|].
    destruct (k_pop_ok _ Hk) as (o & cc & Hp & Hcc & HP & Hno). cbn [act_run]. unfold on_batch, deref.
    rewrite Hb. cbn [of_option mbind result_bind]. rewrite Hp. cbn [mbind result_bind].
    do 2 eexists. eexists (Holds b _). split; [done|]. split; [split; [done|]|].
    + intros [= ->]. simpl in Hc. unfold sz in Hc. rewrite Hb in Hc.
      destruct (k_size_ok _ Hk) as [Hs _]. destruct o; [done|]. rewrite (proj1 Hno eq_refl) in Hs.
      simpl in Hs. lia.
    + split_and!; [by apply inv_batch| | |].
      * simpl. rewrite sz_insert. simpl. destruct o; [done|]. simpl.
        destruct (k_size_ok _ Hcc) as [-> _]. simpl in HP. rewrite (proj1 Hno eq_refl) in HP.
        apply Permutation_nil_l in HP. by rewrite <- HP.
      * simpl. rewrite contents_insert, (contents_lookup _ _ _ Hb). simpl. by rewrite HP, <- app_assoc.
      * intros b' Hb'. simpl. rewrite lookup_insert_ne by set_solver. done.
  - destruct Ha as [k ->]. destruct (held_lookup _ _ b HI) as (bt & Hb & Hk); [by left|].
    cbn [act_run]. unfold on_batch, deref. rewrite Hb. cbn [of_option mbind result_bind].
    do 2 eexists. eexists (Holds b _). split; [done|]. split; [done|].
    split_and!; [by apply inv_batch| | |].
    + simpl. rewrite sz_insert. simpl. destruct (k_size_ok _ Hk) as [Hs _].
      destruct (k_get_size (container bt) =? 0) eqn:E; simpl; lia.
    + simpl. by apply contents_next.
    + intros b' Hb'. simpl. rewrite lookup_insert_ne by set_solver. done.
Qed.

(** *** Programs that respect the capabilities *)

Notation qprog := (qprog (T:=T)).
Implicit Types (c : cap) (ps pp : list T).

Fixpoint valid {A} (n : nat) c ps pp (p : qprog A) (Q : A → cap → list T → list T → Prop) : Prop :=
  match p with
  | QRet a => Q a c ps pp
  | QAct act k => allowed n c act ∧
      ∀ r c', after c act r c' → valid n c' (ev_push act r ++ ps) (ev_pop act r ++ pp) (k r) Q
  end.

Lemma qvalid_bind {A B} n c ps pp (p : qprog A) (f : A → qprog B) Q Q' :
  valid n c ps pp p Q → (∀ a c ps pp, Q a c ps pp → valid n c ps pp (f a) Q') →
  valid n c ps pp (qbind f p) Q'.
Proof.
  intros Hv Hf. revert c ps pp Hv. induction p as [a|R act k IH]; simpl; intros c ps pp Hv; [auto|].
  destruct Hv as [? Hv]. split; [done|]. intros r c' Hr. auto.
Qed.

Lemma qvalid_mono {A} n c ps pp (p : qprog A) (Q Q' : A → cap → list T → list T → Prop) :
  valid n c ps pp p Q → (∀ a c ps pp, Q a c ps pp → Q' a c ps pp) → valid n c ps pp p Q'.
Proof.
  intros Hv HQ. revert c ps pp Hv. induction p as [a|R act k IH]; simpl; intros c ps pp Hv; [auto|].
  destruct Hv as [? Hv]. split; [done|]. intros r c' Hr. auto.
Qed.

Lemma valid_qrun {A} (p : qprog A) c ps pp s R Q :
  valid (length (pq_queues s)) c ps pp p Q → inv s (cap_list c ++ R) → cap_ok (pq_heap s) c →
  ∃ a s' c' ps' pp', qrun N p s = Ok (a, s') ∧ Q a c' ps' pp' ∧
    inv s' (cap_list c' ++ R) ∧ cap_ok (pq_heap s') c' ∧ length (pq_queues s') = length (pq_queues s) ∧
    pp' ++ ps ++ contents (pq_heap s') ≡ₚ ps' ++ pp ++ contents (pq_heap s).
Proof.
  revert c ps pp s. induction p as [a|X act k IH]; simpl; intros c ps pp s Hv HI Hc.
  - exists a, s, c, ps, pp. split_and!; try done. by rewrite !app_assoc, (Permutation_app_comm pp).
  - destruct Hv as [Ha Hv]. destruct (act_ok act c s R Ha HI Hc) as (r & s' & c' & Hr & Haf & HI' & Hc' & HP & _).
    rewrite Hr. cbn [mbind result_bind]. rewrite <- (act_run_length _ _ _ _ Hr) in Hv.
    destruct (IH r _ _ _ _ (Hv r c' Haf) HI' Hc') as (a & s2 & c2 & ps2 & pp2 & Hq & HQ & HI2 & Hc2 & Hl2 & HP2).
    exists a, s2, c2, ps2, pp2. rewrite (act_run_length _ _ _ _ Hr) in Hl2. split_and!; try done.
    apply (Permutation_app_inv_l (ev_push act r)).
    transitivity (pp2 ++ (ev_push act r ++ ps) ++ contents (pq_heap s2)).
    { solve_Permutation. }
    rewrite HP2.
    transitivity (ps2 ++ pp ++ (ev_pop act r ++ contents (pq_heap s'))).
    { solve_Permutation. }
    rewrite HP. solve_Permutation.
Qed.

(** *** The operations respect them *)

Definition hd_cap (hd : handle) c : Prop :=
  match hd with None => c = Idle | Some (b, qi) => qi = b.1 ∧ ∃ k, c = Holds b k end.

Lemma valid_first_pop {A} n c ps pp pop idxs (found : ptr → nat → qprog A) none Q :
  c = Idle → (∀ i, i ∈ idxs → (i < n)%nat) →
  (∀ i, ∃ busy, pop i = PopEmpty i ∨ pop i = TryPopFull i busy) →
  (∀ b i k, b.1 = i → valid n (Holds b k) ps pp (found b i) Q) → valid n Idle ps pp none Q →
  valid n c ps pp (first_pop pop idxs found none) Q.
Proof.
  intros -> Hi Hpop Hf Hn. induction idxs as [|i idxs IH]; [done|]. simpl.
  assert (allowed n Idle (pop i)) as Ha.
  { destruct (Hpop i) as [busy [->| ->]]; (split; [done|]); apply Hi; by left. }
  assert (valid n Idle ps pp (first_pop pop idxs found none) Q) by (apply IH; intros; apply Hi; by right).
  split; [done|]. intros o c'. destruct (Hpop i) as [busy [->| ->]]; simpl; destruct o as [b|]; simpl;
    first [by intros -> | by intros [-> ?]; auto].
Qed.

Variable P : nat.
Hypothesis HP2 : ∃ k, 0 <= k < 64 ∧ Z.of_nat P = 2 ^ k.

Lemma pick_lt rnd : (pick P rnd < P)%nat.
Proof using HP2.
  destruct HP2 as (k & Hk & HP). unfold pick. rewrite HP, mask_mod by lia.
  pose proof (Z.mod_pos_bound rnd (2 ^ k)). pose proof (Z.pow_pos_nonneg 2 k). lia.
Qed.

Lemma valid_push_held e rnd2 b k ps pp :
  valid P (Holds b k) ps pp (push_held P e rnd2 b b.1)
    (λ r c' ps' pp', hd_cap r.2 c' ∧ ps' = (if r.1 then [e] else []) ++ ps ∧ pp' = pp).
Proof using HP2.
  split; [by eexists|]. intros r c' [-> _]. destruct r as [|]; [simpl; eauto|].
  split; [done|]. intros [] c' ->. simpl.
  assert (∀ b qi k, b.1 = qi → valid P (Holds b k) ps pp (push_fresh e b qi) (λ r c' ps' pp', hd_cap r.2 c' ∧ ps' = (if r.1 then [e] else []) ++ ps ∧ pp' = pp)) as Htake.
  { intros b' qi' k' <-. split; [by eexists|]. intros r c' [-> _]. simpl. eauto. }
  split; [split; [done|apply pick_lt]|]. intros o c'. simpl. destruct o as [b'|]; simpl.
  - intros [-> Hb']. by apply Htake.
  - intros ->. apply valid_first_pop; [done| | |by intros; apply Htake|by simpl].
    + intros i [_ ?]%elem_of_seq. lia.
    + intros i. exists false. by left.
Qed.

Lemma valid_try_push e rnd1 rnd2 hd c ps pp : hd_cap hd c →
  valid P c ps pp (try_push P e rnd1 rnd2 hd)
    (λ r c' ps' pp', hd_cap r.2 c' ∧ ps' = (if r.1 then [e] else []) ++ ps ∧ pp' = pp).
Proof using HP2.
  intros Hc. destruct hd as [[b qi]|]; simpl in Hc.
  - destruct Hc as [-> [k ->]]. apply valid_push_held.
  - subst c. split; [split; [done|apply pick_lt]|]. intros o c'. simpl. destruct o as [b|]; simpl.
    + intros [-> <-]. apply valid_push_held.
    + intros ->. by simpl.
Qed.

Lemma valid_pop_held rnd2 busy b k ps pp :
  valid P (Holds b k) ps pp (pop_held P rnd2 busy b b.1)
    (λ r c' ps' pp', hd_cap r.2 c' ∧ ps' = ps ∧ pp' = option_list r.1 ++ pp).
Proof using HP2.
  split; [by eexists|]. intros r c' [-> _]. destruct r as [e|]; [simpl; eauto|].
  split; [done|]. intros [] c' ->. simpl.
  assert (∀ b qi k, b.1 = qi → valid P (Holds b k) ps pp (pop_fresh b qi) (λ r c' ps' pp', hd_cap r.2 c' ∧ ps' = ps ∧ pp' = option_list r.1 ++ pp)) as Htake.
  { intros b' qi' k' <-. split; [by eexists|]. intros r c' [-> _]. simpl. eauto. }
  split; [split; [done|apply pick_lt]|]. intros o c'. simpl. destruct o as [b'|]; simpl.
  - intros [-> Hb']. by apply Htake.
  - intros ->. apply valid_first_pop; [done| | |by intros; apply Htake|by simpl].
    + intros i [_ ?]%elem_of_seq. lia.
    + intros i. eexists. by right.
Qed.

Lemma valid_try_pop rnd1 rnd2 busy hd c ps pp : hd_cap hd c →
  valid P c ps pp (try_pop P rnd1 rnd2 busy hd)
    (λ r c' ps' pp', hd_cap r.2 c' ∧ ps' = ps ∧ pp' = option_list r.1 ++ pp).
Proof using HP2.
  intros Hc. destruct hd as [[b qi]|]; simpl in Hc.
  - destruct Hc as [-> [k ->]]. apply valid_pop_held.
  - subst c. split; [split; [done|apply pick_lt]|]. intros o c'. simpl. destruct o as [b|]; simpl.
    + intros [-> <-]. apply valid_pop_held.
    + intros ->. by simpl.
Qed.

Lemma valid_release hd c ps pp n : hd_cap hd c →
  valid n c ps pp (handle_release hd) (λ _ c' ps' pp', c' = Idle ∧ ps' = ps ∧ pp' = pp).
Proof.
  intros Hc. destruct hd as [[b qi]|]; simpl in Hc |- *; [|done]. destruct Hc as [-> [k ->]].
  split; [by eexists|]. intros e c' ->. destruct e; simpl; (split; [done|]); by intros _ c' ->.
Qed.

Lemma valid_session ops hd c ps pp : hd_cap hd c →
  valid P c ps pp (session P ops hd ps pp) (λ r c' ps' pp', c' = Idle ∧ ps' = r.1 ∧ pp' = r.2).
Proof using HP2.
  revert hd c ps pp. induction ops as [|[e r1 r2|r1 r2 busy] ops IH]; intros hd c ps pp Hc; simpl.
  - eapply qvalid_bind; [by apply valid_release|]. intros [] c' ps' pp' (-> & -> & ->). by simpl.
  - eapply qvalid_bind; [by apply valid_try_push|]. intros [ok hd'] c' ps' pp' (? & -> & ->). by apply IH.
  - eapply qvalid_bind; [by apply valid_try_pop|]. intros [o hd'] c' ps' pp' (? & -> & ->). by apply IH.
Qed.

(** *** The constructor *)

Lemma queue_ok_agree h h' held i q fl el :
  (∀ b, b.1 = i → h' !! b = h !! b) → queue_ok h held i q fl el → queue_ok h' held i q fl el.
Proof.
  intros Hh Hok. assert (mine i (keys h') ≡ₚ mine i (keys h)) as Hm.
  { apply NoDup_Permutation; [apply NoDup_mine_keys..|]. intros b. unfold mine.
    rewrite !list_elem_of_filter, !elem_keys. split; intros [Hi Hx]; (split; [done|]);
      [rewrite <- Hh by done|rewrite Hh by done]; done. }
  assert (∀ b, b ∈ fl ++ el → b.1 = i) as Hi.
  { intros b Hb. destruct (decide (b.1 = i)) as [|Hne]; [done|]. by destruct (foreign_notin _ _ _ _ _ _ b Hok Hne Hb). }
  assert (∀ hd l, (∀ b, b ∈ l → b.1 = i) → llist h hd l → llist h' hd l) as Hl.
  { intros hd l. revert hd. induction l as [|b l IH]; intros hd Hb; [done|]. intros (-> & bt & Hbt & Hn).
    split; [done|]. exists bt. rewrite Hh by (apply Hb; by left). split; [done|]. apply IH; [|done].
    intros b' ?. apply Hb. by right. }
  assert (∀ b, b.1 = i → sz h' b = sz h b) as Hs by (intros b Hb; unfold sz; by rewrite Hh).
  assert (∀ l, (∀ b, b ∈ l → b.1 = i) → total h' l = total h l) as Ht.
  { induction l as [|b l IH]; intros Hb; [done|]. simpl. rewrite Hs by (apply Hb; by left).
    rewrite IH; [done|]. intros b' ?. apply Hb. by right. }
  destruct Hok. split; rewrite ?Hm; try done.
  - apply Hl; [|done]. intros b ?. apply Hi. set_solver.
  - apply Hl; [|done]. intros b ?. apply Hi. set_solver.
  - rewrite Ht; [done|]. intros b ?. apply Hi. set_solver.
  - apply Forall_forall. intros b Hb. rewrite Hs by (apply Hi; set_solver).
    by apply (proj1 (Forall_forall _ _) qo_nonempty0).
  - apply Forall_forall. intros b Hb. rewrite Hs by (apply Hi; set_solver).
    by apply (proj1 (Forall_forall _ _) qo_isempty0).
Qed.

Definition resize (n : Z) q : BatchQueue :=
  mkBQ (bq_elements q) n (full_head q) (full_size q) (empty_head q) (empty_size q).
Definition count i h : nat := length (mine i (keys h)).

Lemma keys_fresh i h b bt : h !! b = None → b.1 = i → mine i (keys (<[b := bt]> h)) ≡ₚ b :: mine i (keys h).
Proof.
  intros Hb Hi. unfold keys, mine. rewrite dom_insert_L, elements_union_singleton.
  - by rewrite filter_cons_True.
  - by apply not_elem_of_dom.
Qed.

Lemma bq_init_ok pi n k h q el :
  queue_ok h [] pi (resize (Z.of_nat (count pi h)) q) [] el → (∀ j, (k ≤ j)%nat → h !! (pi, j) = None) →
  (∀ b bt, h !! b = Some bt → k_inv (container bt) ∧ k_abs (container bt) = []) →
  Z.of_nat (count pi h + n) < 2 ^ 64 →
  ∃ h' q' el', bq_init N pi n k h q = Ok (h', q') ∧
    queue_ok h' [] pi (resize (Z.of_nat (count pi h')) q') [] el' ∧ bq_size q' = bq_size q ∧
    count pi h' = (count pi h + n)%nat ∧ (∀ b, b.1 ≠ pi → h' !! b = h !! b) ∧
    (∀ b bt, h' !! b = Some bt → k_inv (container bt) ∧ k_abs (container bt) = []).
Proof.
  revert k h q el. induction n as [|n IH]; intros k h q el Hok Hf Hk Hbd; simpl.
  { exists h, q, el. split_and!; done || lia. }
  destruct k_new_ok as [Hn Hn']. destruct (k_size_ok _ Hn) as [Hs _]. rewrite Hn' in Hs. simpl in Hs.
  unfold push_empty, try_push_empty, has_size, set_next, deref, size_zero.
  rewrite lookup_insert_eq. cbn [of_option mbind result_bind container]. rewrite Hs.
  cbn [Z.eqb ensure mbind result_bind]. rewrite insert_insert_eq, lookup_insert_eq.
  cbn [of_option mbind result_bind container]. rewrite Hs. cbn [Z.eqb ensure mbind result_bind].
  set (h2 := <[(pi, k) := mkBatch k_new (empty_head q)]> h).
  assert (h !! (pi, k) = None) as Hfk by (apply Hf; lia).
  pose proof (keys_fresh pi h (pi, k) (mkBatch k_new (empty_head q)) Hfk eq_refl) as Hkeys.
  fold h2 in Hkeys.
  assert ((pi, k) ∉ el) as Hnin.
  { intros Hin. pose proof (qo_perm _ _ _ _ _ _ Hok) as HPm.
    assert ((pi, k) ∈ mine pi (keys h)) as [_ Hk']%list_elem_of_filter.
    { rewrite <- HPm. apply elem_of_app. right. apply elem_of_app. by left. }
    apply elem_keys in Hk' as [? Hk'].
    discriminate (eq_trans (eq_sym Hfk) Hk'). }
  assert (count pi h2 = S (count pi h)) as Hc by (unfold count; by rewrite Hkeys).
  destruct (IH (S k) h2 (set_empty (Some (pi, k)) (empty_size q +₆₄ 1) q) ((pi, k) :: el))
    as (h' & q' & el' & Hr & Hok' & Hsz & Hcn & Hag & Hk').
  - destruct Hok. cbn in qo_full0, qo_empty0, qo_fsize0, qo_esize0, qo_elements0, qo_perm0, qo_size0.
    split; cbn -[Z.of_nat u64]; try done; try lia.
    + split; [done|]. eexists. unfold h2. rewrite lookup_insert_eq. split; [done|]. by apply llist_insert.
    + rewrite qo_esize0, u64_add_l. f_equal. lia.
    + constructor; [unfold h2; rewrite sz_insert; done|]. by apply (Forall_sz_insert (λ n, n = 0)).
    + rewrite Hkeys, app_nil_r in *. by constructor.
  - intros j Hj. unfold h2. rewrite lookup_insert_ne by (intros [= ?]; lia). apply Hf. lia.
  - intros b bt. unfold h2. intros [[<- <-]|[? ?]]%lookup_insert_Some; [done|eauto].
  - lia.
  - exists h', q', el'. split_and!; try done.
    + lia.
    + intros b Hb. rewrite Hag by done. unfold h2. rewrite lookup_insert_ne; [done|]. intros <-. done.
Qed.

Lemma contents_nil h : (∀ b bt, h !! b = Some bt → k_abs (container bt) = []) → contents h = [].
Proof.
  intros Hh. unfold contents.
  assert (∀ x, x ∈ map_to_list h → k_abs (container x.2) = []) as Hx
    by (intros [b bt] Hin%elem_of_map_to_list; eauto).
  revert Hx. generalize (map_to_list h). induction l as [|x l IH]; intros Hx; [done|].
  rewrite bind_cons, (Hx x) by left. apply IH. intros. apply Hx. by right.
Qed.

Lemma sf_trunc_nonneg f : 0 <= sf_trunc f.
Proof.
  destruct f as [| | |[] m e]; simpl; try lia. destruct (Z.leb_spec 0 e).
  - pose proof (Z.pow_pos_nonneg 2 e). nia.
  - apply Z.div_pos; [lia|]. apply Z.pow_pos_nonneg; lia.
Qed.

(** While partitions are built, the heap only has batches of the built ones. *)
Definition built s : Prop :=
  inv s [] ∧
  (∀ b bt, pq_heap s !! b = Some bt → k_abs (container bt) = []).

Lemma pq_init_ok n pi qs s : pi = length (pq_queues s) → built s →
  bq_batches N qs < 2 ^ 64 →
  ∃ s', pq_init N pi n qs s = Ok s' ∧ built s' ∧ length (pq_queues s') = (length (pq_queues s) + n)%nat.
Proof.
  intros -> Hs Hq. revert s Hs. induction n as [|n IH]; intros s (HI & Ha); simpl.
  { exists s. split; [done|]. split; [done|lia]. }
  pose proof (sf_trunc_nonneg (SFmul 53 1024 (binary_normalize 53 1024 (qs / N) 0 false) oversubscription)) as Hnn.
  fold (bq_batches N qs) in Hnn.
  unfold bq_new. rewrite (proj2 (Z.ltb_lt _ _) Hq). cbn [mbind result_bind].
  set (pi := length (pq_queues s)). set (nb := bq_batches N qs) in *.
  assert (mine pi (keys (pq_heap s)) = []) as Hm.
  { apply filter_none. intros b Hk%(inv_keys _ _ HI). lia. }
  destruct (bq_init_ok pi (Z.to_nat nb) 0 (pq_heap s) (mkBQ 0 nb None 0 None 0) [])
    as (h' & q' & el & -> & Hok & Hsz & Hc & Hag & Hk).
  - unfold count. rewrite Hm. split; simpl; try done; by rewrite Hm.
  - intros j _. apply eq_None_not_Some. intros Hj%elem_keys%(inv_keys _ _ HI). simpl in Hj. lia.
  - intros b bt Hbt. split; [by eapply inv_conts|by eapply Ha].
  - unfold count. rewrite Hm. simpl. lia.
  - cbn [mbind result_bind]. unfold count in Hc. rewrite Hm in Hc. simpl in Hc, Hsz.
    destruct (IH (mkPQ h' (pq_queues s ++ [q']))) as (s' & Hr & Hs' & Hl).
    + unfold built. simpl. split_and!.
      * split; simpl.
        -- intros i q [Hi|[Hi Hq']]%lookup_app_Some.
           ++ apply lookup_lt_Some in Hi as Hlt. destruct (inv_queues _ _ HI _ _ Hi) as (fl & el' & Hok').
              exists fl, el'. eapply queue_ok_agree; [|done]. intros b Hbi. apply Hag. lia.
           ++ apply list_lookup_singleton_Some in Hq' as [Hi0 <-].
              assert (i = pi) as -> by lia. exists [], el. destruct Hok. split; try done; rewrite Hsz; [|done].
              unfold count in Hc. rewrite Hc. lia.
        -- intros b bt Hbt. by apply (Hk b bt Hbt).
        -- intros b Hb0. by apply elem_of_nil in Hb0.
        -- rewrite length_app. simpl. intros b Hx%elem_keys. destruct (decide (b.1 = pi)); [lia|].
           rewrite Hag in Hx by done. apply elem_keys, (inv_keys _ _ HI) in Hx. lia.
      * intros b bt Hbt. by apply (Hk b bt Hbt).
    + simpl in Hr, Hl. rewrite length_app in Hr, Hl. simpl in Hr, Hl.
      replace (length (pq_queues s) + 1)%nat with (S pi) in Hr by lia. exists s'. split_and!; try done. lia.
Qed.

Lemma pq_new_ok e : bq_batches N (e / Z.of_nat P) < 2 ^ 64 →
  ∃ s, pq_new N P e = Ok s ∧ built s ∧ length (pq_queues s) = P.
Proof.
  intros Hb. unfold pq_new. apply pq_init_ok; [done| |done].
  unfold built. simpl. split; [|done].
  split; simpl; [done|done|..]; intros b Hb0; [by apply elem_of_nil in Hb0|].
  apply elem_keys in Hb0 as [? Hx]. by rewrite lookup_empty in Hx.
Qed.

(** *** Interleavings *)

(** What is known of one thread: its batch, and what it pushed and popped. *)
Record ghost := mkGhost { g_cap : cap; g_pushed : list T; g_popped : list T }.
Definition held_of (G : list ghost) : list ptr := G ≫= λ g, cap_list (g_cap g).

Record ginv {A} (Q : A → cap → list T → list T → Prop) (cf : qcfg A) (G : list ghost) : Prop := {
  gi_queues : length (pq_queues (qc_state cf)) = P;
  gi_threads : Forall2 (λ p g, valid P (g_cap g) (g_pushed g) (g_popped g) p Q) (qc_threads cf) G;
  gi_inv : inv (qc_state cf) (held_of G);
  gi_caps : Forall (λ g, cap_ok (pq_heap (qc_state cf)) (g_cap g)) G;
  gi_contents : (G ≫= g_popped) ++ contents (pq_heap (qc_state cf)) ≡ₚ (G ≫= g_pushed);
}.

Lemma inv_disjoint s l R b : inv s (l ++ R) → b ∈ l → b ∉ R.
Proof.
  intros HI Hl HR. assert (b ∈ l ++ R) as Hb by set_solver. pose proof (inv_held _ _ HI b Hb) as Hlt.
  apply lookup_lt_is_Some_2 in Hlt as [q Hq]. destruct (inv_queues _ _ HI _ _ Hq) as (fl & el & Hok).
  pose proof (NoDup_mine_keys b.1 (pq_heap s)) as Hnd. rewrite <- (qo_perm _ _ _ _ _ _ Hok) in Hnd.
  apply NoDup_app in Hnd as (_ & _ & Hnd). apply NoDup_app in Hnd as (_ & _ & Hnd).
  unfold mine in Hnd. rewrite filter_app in Hnd. apply NoDup_app in Hnd as (_ & Hd & _).
  apply (Hd b); by apply list_elem_of_filter.
Qed.

Lemma bind_insert {B} (f : ghost → list B) G t g g' : G !! t = Some g →
  ∃ L, (G ≫= f) ≡ₚ f g ++ L ∧ (<[t := g']> G ≫= f) ≡ₚ f g' ++ L.
Proof.
  intros Hg. exists ((take t G ≫= f) ++ (drop (S t) G ≫= f)).
  rewrite <- (take_drop_middle G t g Hg) at 1. apply lookup_lt_Some in Hg as Hlt.
  rewrite insert_take_drop by done. rewrite !bind_app, !bind_cons. split; solve_Permutation.
Qed.

Lemma held_other G t g x : G !! t = Some g → ∃ L, held_of G ≡ₚ cap_list (g_cap g) ++ L ∧
  (held_of (<[t := x]> G) ≡ₚ cap_list (g_cap x) ++ L) ∧
  ∀ j g', j ≠ t → G !! j = Some g' → ∀ b, b ∈ cap_list (g_cap g') → b ∈ L.
Proof.
  intros Hg. unfold held_of. exists ((take t G ≫= λ g, cap_list (g_cap g)) ++ (drop (S t) G ≫= λ g, cap_list (g_cap g))).
  apply lookup_lt_Some in Hg as Hlt. split; [|split].
  - rewrite <- (take_drop_middle G t g Hg) at 1. rewrite bind_app, bind_cons. solve_Permutation.
  - rewrite insert_take_drop by done. rewrite bind_app, bind_cons. solve_Permutation.
  - intros j g' Hj Hg' b Hb. apply elem_of_app. destruct (decide (j < t)%nat).
    + left. apply list_elem_of_bind. exists g'. split; [done|].
      apply (list_elem_of_lookup_2 _ j). by rewrite lookup_take_lt.
    + right. apply list_elem_of_bind. exists g'. split; [done|].
      apply (list_elem_of_lookup_2 _ (j - S t)). rewrite lookup_drop. by replace (S t + (j - S t))%nat with j by lia.
Qed.

Lemma ginv_act {A} Q ths s G t X (a : action X) (k : X → qprog A) :
  ginv Q (mkQCfg ths s) G → ths !! t = Some (QAct a k) →
  ∃ r s', act_run N a s = Ok (r, s') ∧ ∃ G', ginv Q (mkQCfg (<[t := k r]> ths) s') G'.
Proof.
  intros [Hlen Hth HI Hcaps HC] Ht. simpl in *.
  destruct (Forall2_lookup_l _ _ _ _ _ Hth Ht) as (g & Hg & Ha & Hv).
  destruct (held_other G t g g Hg) as (L & HL & _ & HLo).
  apply (inv_Permutation _ _ _ HL) in HI. rewrite <- Hlen in Ha.
  destruct (act_ok a (g_cap g) s L Ha HI) as (r & s' & c' & Hr & Haf & HI' & Hc' & HP & Hfr).
  { by eapply Forall_lookup_1 in Hg; [|exact Hcaps]. }
  exists r, s'. split; [done|].
  set (g' := mkGhost c' (ev_push a r ++ g_pushed g) (ev_pop a r ++ g_popped g)).
  exists (<[t := g']> G). split; simpl.
  - by rewrite (act_run_length _ _ _ _ Hr).
  - apply Forall2_insert; [done|]. by apply Hv.
  - destruct (held_other G t g g' Hg) as (L' & HL1 & HL2 & _).
    apply (inv_Permutation _ (cap_list c' ++ L)); [|done]. rewrite HL2. simpl.
    apply Permutation_app_head. rewrite HL in HL1. by apply Permutation_app_inv_l in HL1.
  - apply Forall_lookup_2. intros j gj. destruct (decide (j = t)) as [->|Hj].
    + apply lookup_lt_Some in Hg as Hlt. rewrite list_lookup_insert_eq by done. by intros [= <-].
    + rewrite list_lookup_insert_ne by done. intros Hgj.
      pose proof (Forall_lookup_1 _ _ _ _ Hcaps Hgj) as Hcj. simpl in Hcj.
      pose proof (HLo j gj Hj Hgj) as HbL. destruct (g_cap gj) as [|b kn]; [done|]. simpl in *.
      unfold sz. rewrite Hfr; [done|]. intros Hb. apply (inv_disjoint _ _ _ _ HI Hb). apply HbL. by left.
  - destruct (bind_insert g_popped G t g g' Hg) as (Lp & HLp & HLp').
    destruct (bind_insert g_pushed G t g g' Hg) as (Lq & HLq & HLq').
    rewrite HLp', HLq'. rewrite HLp, HLq in HC. simpl.
    transitivity (g_popped g ++ Lp ++ ev_pop a r ++ contents (pq_heap s')); [solve_Permutation|].
    rewrite HP. transitivity (ev_push a r ++ (g_popped g ++ Lp) ++ contents (pq_heap s)); [solve_Permutation|].
    rewrite HC. solve_Permutation.
Qed.

Lemma ginv_steps {A} Q (cf cf' : qcfg A) : (∃ G, ginv Q cf G) → rtc (qstep N) cf cf' → ∃ G, ginv Q cf' G.
Proof.
  intros HG Hs. induction Hs as [|cf cf1 cf2 Hst _ IH]; [done|]. apply IH. destruct HG as [G HG].
  destruct Hst as [ths s s' t X a k r Ht Hr].
  destruct (ginv_act Q ths s G t X a k HG Ht) as (r' & s1 & Hr' & HG'). rewrite Hr in Hr'.
  by injection Hr' as <- <-.
Qed.

Lemma ginv_init s (opss : list (list fl_op)) : built s → length (pq_queues s) = P →
  ∃ G, ginv (λ r c ps pp, c = Idle ∧ ps = r.1 ∧ pp = r.2)
         (mkQCfg ((λ ops, session P ops None [] []) <$> opss) s) G.
Proof using HP2 HN.
  intros (HI & Ha) Hl. exists (replicate (length opss) (mkGhost Idle [] [])).
  assert (∀ {B} (f : ghost → list B), f (mkGhost Idle [] []) = [] →
    (replicate (length opss) (mkGhost Idle [] []) ≫= f) = []) as Hrep.
  { intros B f Hf. induction (length opss) as [|n IHn]; [done|].
    by rewrite replicate_S, bind_cons, Hf, IHn. }
  split; simpl; [done| | |by apply Forall_replicate|].
  - apply Forall2_fmap_l. apply Forall2_replicate_r; [done|]. apply Forall_true. intros ops.
    by apply valid_session.
  - unfold held_of. by rewrite Hrep.
  - rewrite !Hrep, contents_nil by done. done.
Qed.

(** *** The checks and the sizes *)

Lemma leaks_ok s : inv s [] → pq_assert_no_leaks s = Ok tt.
Proof.
  intros HI. unfold pq_assert_no_leaks.
  assert (Forall (λ q, assert_no_leaks q = Ok tt) (pq_queues s)) as Hq.
  { apply Forall_lookup_2. intros i q Hi. destruct (inv_queues _ _ HI _ _ Hi) as (fl & el & []).
    unfold assert_no_leaks. rewrite qo_fsize0, qo_esize0.
    apply Permutation_length in qo_perm0. rewrite app_nil_r, length_app in qo_perm0.
    rewrite (u64_small (Z.of_nat (length fl))), (u64_small (Z.of_nat (length el))), u64_small by lia.
    rewrite (proj2 (Z.eqb_eq _ _)); [done|]. lia. }
  induction Hq as [|q qs Hq _ IH]; [done|]. simpl. by rewrite Hq.
Qed.

Lemma histogram_ok fuel check h hd l hist : llist h hd l → (length l ≤ fuel)%nat →
  (check = true → NoDup l ∧ ∀ b, b ∈ l → hist !! b = None) →
  ∃ hist', histogram_walk fuel check h hd hist = Ok hist' ∧ ∀ b, b ∉ l → hist' !! b = hist !! b.
Proof.
  revert hd l hist. induction fuel as [|fuel IH]; intros hd l hist Hl Hf Hc.
  { destruct l; simpl in *; [|lia]. subst. eauto. }
  destruct l as [|b l]; simpl in Hl; [subst; simpl; eauto|]. destruct Hl as (-> & bt & Hb & Hl). simpl.
  assert (check && (1 <? S (default 0 (hist !! b)))%nat = false) as ->.
  { destruct check; [|done]. destruct (Hc eq_refl) as [_ Hn]. rewrite (Hn b) by left. done. }
  unfold deref. rewrite Hb. cbn [of_option mbind result_bind].
  destruct (IH (next bt) l (<[b := S (default O (hist !! b))]> hist) Hl) as (hist' & -> & Hh).
  - simpl in Hf. lia.
  - intros Ht. destruct (Hc Ht) as [Hnd Hn]. apply NoDup_cons in Hnd as [Hbl Hnd]. split; [done|].
    intros b' Hb'. rewrite lookup_insert_ne by (intros ->; done). apply Hn. by right.
  - exists hist'. split; [done|]. intros b' [Hne Hb']%not_elem_of_cons.
    rewrite Hh by done. by rewrite lookup_insert_ne.
Qed.

Lemma lists_bounded h held i q fl el : queue_ok h held i q fl el →
  NoDup (fl ++ el) ∧ (length fl + length el ≤ size h)%nat.
Proof.
  intros []. pose proof (NoDup_mine_keys i h) as Hnd. rewrite <- qo_perm0, app_assoc in Hnd.
  apply NoDup_app in Hnd as [Hnd _]. split; [done|].
  assert (length (fl ++ el) ≤ length (keys h))%nat as Hle.
  { apply submseteq_length. apply NoDup_submseteq; [done|]. intros b Hb.
    assert (b ∈ mine i (keys h)) as [_ ?]%list_elem_of_filter; [|done].
    rewrite <- qo_perm0, app_assoc. apply elem_of_app. by left. }
  rewrite length_app in Hle. unfold keys in Hle. rewrite <- size_dom. exact Hle.
Qed.

Lemma no_duplicates_ok s held i q : inv s held → pq_queues s !! i = Some q →
  assert_no_duplicates (pq_heap s) q = Ok tt.
Proof.
  intros HI Hi. destruct (inv_queues _ _ HI _ _ Hi) as (fl & el & Hok).
  destruct (lists_bounded _ _ _ _ _ _ Hok) as [Hnd Hle]. apply NoDup_app in Hnd as (_ & Hd & Hnd).
  unfold assert_no_duplicates.
  destruct (histogram_ok (S (size (pq_heap s))) false _ _ fl ∅ (qo_full _ _ _ _ _ _ Hok)) as (h1 & -> & H1);
    [lia|done|]. cbn [mbind result_bind].
  destruct (histogram_ok (S (size (pq_heap s))) true _ _ el h1 (qo_empty _ _ _ _ _ _ Hok)) as (h2 & -> & _);
    [lia| |done].
  intros _. split; [done|]. intros b Hb. rewrite H1; [apply lookup_empty|]. intros Hf. by apply (Hd b).
Qed.

Lemma duplicates_ok s held : inv s held → pq_assert_no_duplicates s = Ok tt.
Proof.
  intros HI. unfold pq_assert_no_duplicates.
  assert (Forall (λ q, assert_no_duplicates (pq_heap s) q = Ok tt) (pq_queues s)) as Hq.
  { apply Forall_lookup_2. intros i q Hi. by eapply no_duplicates_ok. }
  induction Hq as [|q qs Hq _ IH]; [done|]. simpl. by rewrite Hq.
Qed.

Lemma total_app h l l' : total h (l ++ l') = total h l + total h l'.
Proof. induction l as [|b l IH]; simpl; [lia|]. rewrite IH. lia. Qed.

#[local] Instance total_Permutation h : Proper ((≡ₚ) ==> (=)) (total h).
Proof. intros l l' HP. induction HP; simpl; lia. Qed.

Lemma total_nonneg s held l : inv s held → 0 <= total (pq_heap s) l.
Proof.
  intros HI. induction l as [|b l IH]; simpl; [lia|]. unfold sz.
  destruct (pq_heap s !! b) as [bt|] eqn:Hb; [|lia].
  destruct (k_size_ok _ (inv_conts _ _ HI _ _ Hb)) as [-> _]. lia.
Qed.

Lemma total_zero h l : Forall (λ b, sz h b = 0) l → total h l = 0.
Proof. induction 1; simpl; lia. Qed.

Lemma total_contents s held : inv s held →
  total (pq_heap s) (keys (pq_heap s)) = Z.of_nat (length (contents (pq_heap s))).
Proof.
  intros HI. assert (keys (pq_heap s) ≡ₚ (map_to_list (pq_heap s)).*1) as ->.
  { apply NoDup_Permutation; [unfold keys; apply NoDup_elements|apply NoDup_fst_map_to_list|].
    intros b. rewrite elem_keys, list_elem_of_fmap. split.
    - intros [bt Hb]. exists (b, bt). split; [done|]. by apply elem_of_map_to_list.
    - intros ([b' bt] & -> & Hb%elem_of_map_to_list). by eexists. }
  unfold contents. assert (∀ x, x ∈ map_to_list (pq_heap s) → pq_heap s !! x.1 = Some x.2) as Hx
    by (intros [b bt] ?%elem_of_map_to_list; done).
  revert Hx. generalize (map_to_list (pq_heap s)). induction l as [|x l IH]; intros Hx; [done|].
  rewrite fmap_cons, bind_cons, length_app, Nat2Z.inj_add. simpl.
  rewrite IH by (intros; apply Hx; by right). f_equal. unfold sz. rewrite (Hx x) by left.
  apply k_size_ok. eapply inv_conts; [done|]. apply Hx. by left.
Qed.

Lemma total_split h n l : total h (filter (λ b, (b.1 < n)%nat) l) =
  foldr (λ i z, total h (mine i l) + z) 0 (seq 0 n).
Proof.
  induction n as [|n IH].
  { rewrite filter_none; [done|]. intros; lia. }
  rewrite seq_S, foldr_app. simpl.
  assert (∀ l z, foldr (λ i z, total h (mine i l) + z) z (seq 0 n) =
                 foldr (λ i z, total h (mine i l) + z) 0 (seq 0 n) + z) as Hz.
  { intros l' z. generalize (seq 0 n). intros idxs. induction idxs as [|i idxs IHs]; simpl; [lia|].
    rewrite IHs. lia. }
  rewrite Hz, <- IH, Z.add_0_r. clear. induction l as [|b l IHl]; [done|].
  unfold mine in *. rewrite !filter_cons. destruct (decide (b.1 = n)) as [Hb|Hb].
  - rewrite decide_True, decide_False by lia. simpl. lia.
  - destruct (decide (b.1 < n)%nat); [rewrite decide_True by lia; simpl; lia|].
    rewrite decide_False by lia. lia.
Qed.

Lemma full_total h i q fl el : queue_ok h [] i q fl el → total h (mine i (keys h)) = total h fl.
Proof.
  intros []. rewrite <- qo_perm0, !total_app. rewrite (total_zero h el) by done. simpl. lia.
Qed.

Lemma approx_size_ok s : inv s [] → pq_approx_size s = u64 (Z.of_nat (length (contents (pq_heap s)))).
Proof.
  intros HI. rewrite <- (total_contents _ _ HI).
  rewrite <- (filter_all (λ b, (b.1 < length (pq_queues s))%nat) (keys (pq_heap s)))
    by (apply Forall_forall; apply (inv_keys _ _ HI)).
  rewrite total_split. unfold pq_approx_size, approx_size.
  assert (∀ qs n z, (∀ i q, qs !! i = Some q → ∃ fl el, queue_ok (pq_heap s) [] (n + i) q fl el) →
    foldl (λ size q, size +₆₄ bq_elements q) (u64 z) qs =
    u64 (z + foldr (λ i z, total (pq_heap s) (mine i (keys (pq_heap s))) + z) 0 (seq n (length qs)))) as Hg.
  { induction qs as [|q qs IH]; intros n z Hqs; [simpl; by rewrite Z.add_0_r|].
    destruct (Hqs O q eq_refl) as (fl & el & Hok). rewrite Nat.add_0_r in Hok. simpl.
    rewrite (qo_elements _ _ _ _ _ _ Hok).
    rewrite u64_add_l, (Z.add_comm z), u64_add_l, Z.add_comm.
    rewrite (IH (S n)). 2: { intros i q' Hi. destruct (Hqs (S i) q' Hi) as (fl' & el' & ?).
      exists fl', el'. by replace (S n + i)%nat with (n + S i)%nat by lia. }
    rewrite (full_total _ _ _ _ _ Hok). f_equal. lia. }
  specialize (Hg (pq_queues s) O 0). change (u64 0) with 0 in Hg. rewrite Hg; [done|].
  intros i q Hi. by apply (inv_queues _ _ HI).
Qed.

(** *** reset *)

Lemma full_le s held i q fl el : inv s held → queue_ok (pq_heap s) held i q fl el →
  0 <= total (pq_heap s) fl <= Z.of_nat (length (contents (pq_heap s))).
Proof.
  intros HI Hok. split; [by eapply total_nonneg|]. rewrite <- (total_contents _ _ HI).
  assert (fl ⊆+ keys (pq_heap s)) as [l HPm]%submseteq_Permutation.
  { destruct (lists_bounded _ _ _ _ _ _ Hok) as [Hnd _]. apply NoDup_app in Hnd as [Hnd _].
    apply NoDup_submseteq; [done|]. intros b Hb.
    assert (b ∈ mine i (keys (pq_heap s))) as [_ ?]%list_elem_of_filter; [|done].
    rewrite <- (qo_perm _ _ _ _ _ _ Hok). apply elem_of_app. by left. }
  rewrite HPm, total_app. pose proof (total_nonneg _ _ l HI). lia.
Qed.

Lemma full_size_exact s held i q fl el : inv s held → queue_ok (pq_heap s) held i q fl el →
  full_size q = Z.of_nat (length fl).
Proof.
  intros HI []. rewrite qo_fsize0. apply u64_small.
  apply Permutation_length in qo_perm0. rewrite length_app in qo_perm0. lia.
Qed.

Lemma pos_total h l : Forall (λ b, 0 < sz h b) l → l ≠ [] → 0 < total h l.
Proof.
  intros Hl Hn. destruct l as [|b l]; [done|]. apply Forall_cons in Hl as [Hb Hl]. simpl.
  assert (0 <= total h l); [|lia]. clear Hn. induction Hl; simpl in *; lia.
Qed.

Lemma try_pop_full_some s held i q n : inv s held → pq_queues s !! i = Some q → full_size q = Z.of_nat (S n) →
  Z.of_nat (length (contents (pq_heap s))) < 2 ^ 64 →
  ∃ b q', try_pop_full N false (pq_heap s) q = Ok (Some b, q') ∧ full_size q' = Z.of_nat n ∧
    inv (mkPQ (pq_heap s) (<[i := q']> (pq_queues s))) (b :: held) ∧ b.1 = i.
Proof.
  intros HI Hi Hn Hc. destruct (inv_queues _ _ HI _ _ Hi) as (fl & el & Hok).
  pose proof (full_size_exact _ _ _ _ _ _ HI Hok) as Hfl. pose proof (full_le _ _ _ _ _ _ HI Hok) as Hle.
  destruct fl as [|b fl]; [simpl in Hfl; lia|].
  pose proof (pos_total _ _ (qo_nonempty _ _ _ _ _ _ Hok) ltac:(done)) as Hpos.
  assert (bq_elements q =? 0 = false) as He.
  { rewrite (qo_elements _ _ _ _ _ _ Hok), u64_small by lia. apply Z.eqb_neq. lia. }
  destruct (qo_full _ _ _ _ _ _ Hok) as (Hhd & bt & Hb & _).
  destruct (pop_full_ok s held i false HI (lookup_lt_Some _ _ _ Hi)) as (o & s' & q0 & Hr & Hq0 & Ho & HI' & _ & _ & Hbi).
  rewrite Hi in Hq0. injection Hq0 as <-. rewrite He, Hhd in Ho. simpl in Ho. subst o.
  revert Hr. cbn [act_run]. unfold on_queue. rewrite (arr_get_lookup _ _ _ Hi). cbn [mbind result_bind].
  unfold try_pop_full. rewrite He, Hhd. unfold deref. rewrite Hb. cbn [of_option mbind result_bind].
  intros [= <-]. exists b. eexists. split; [done|]. split; [|split; [|by apply Hbi]].
  - cbn. rewrite Hn. replace (Z.of_nat (S n) - 1) with (Z.of_nat n) by lia. apply u64_small.
    destruct Hok. apply Permutation_length in qo_perm0. rewrite length_app in qo_perm0. lia.
  - exact HI'.
Qed.

Lemma reset_loop_ok n fuel s i q : inv s [] → pq_queues s !! i = Some q → full_size q = Z.of_nat n →
  (n < fuel)%nat → Z.of_nat (length (contents (pq_heap s))) < 2 ^ 64 →
  ∃ h' q', reset_loop N fuel (pq_heap s) q = Ok (h', q') ∧
    inv (mkPQ h' (<[i := q']> (pq_queues s))) [] ∧ full_size q' = 0 ∧
    (length (contents h') ≤ length (contents (pq_heap s)))%nat.
Proof.
  revert fuel s q. induction n as [|n IH]; intros fuel s q HI Hi Hn Hf Hc; (destruct fuel as [|fuel]; [lia|]); simpl.
  { destruct (inv_queues _ _ HI _ _ Hi) as (fl & el & Hok).
    pose proof (full_size_exact _ _ _ _ _ _ HI Hok) as Hfl. destruct fl; [|simpl in Hfl; lia].
    unfold try_pop_full. rewrite (qo_elements _ _ _ _ _ _ Hok). simpl. do 2 eexists. split; [done|].
    rewrite list_insert_id by done. destruct s. by split_and!. }
  destruct (try_pop_full_some s [] i q n HI Hi Hn Hc) as (b & q1 & -> & Hn1 & HI1 & <-). cbn [mbind result_bind].
  set (s1 := mkPQ (pq_heap s) (<[b.1 := q1]> (pq_queues s))) in HI1.
  destruct (held_lookup _ _ b HI1) as (bt & Hb & Hk); [by left|]. simpl in Hb.
  unfold deref at 1. rewrite Hb. cbn [of_option mbind result_bind].
  destruct (k_reset_ok _ Hk) as [Hk' Ha']. destruct (k_size_ok _ Hk') as [Hz _]. rewrite Ha' in Hz. simpl in Hz.
  pose proof (inv_batch s1 [] b bt (k_reset (container bt)) HI1 Hb Hk') as HI2.
  destruct (push_empty_ok _ [] b HI2) as (s3 & Hr & HI3 & HP3 & _); [by simpl; rewrite sz_insert|].
  revert Hr. cbn [act_run pq_queues pq_heap s1]. unfold on_queue. cbn [pq_queues pq_heap].
  apply lookup_lt_Some in Hi as Hlt. rewrite (arr_get_lookup _ _ q1) by (by rewrite list_lookup_insert_eq).
  cbn [mbind result_bind]. unfold push_empty. intros Hr. inv_bind.
  destruct r0 as [h3 q3]. injection E as <-. injection Hr as <-. simpl in HI3, HP3.
  rewrite E0. cbn [mbind result_bind].
  assert (full_size q3 = Z.of_nat n) as Hn3.
  { revert E0. unfold try_push_empty. intros E0. inv_bind. done. }
  assert (length (contents h3) ≤ length (contents (pq_heap s)))%nat as Hl3.
  { rewrite HP3. rewrite contents_insert, (contents_lookup _ _ _ Hb). simpl. rewrite Ha', !length_app. simpl. lia. }
  rewrite list_insert_insert_eq in HI3.
  destruct (IH fuel (mkPQ h3 (<[b.1 := q3]> (pq_queues s))) q3) as (h' & q' & Hr' & HI' & Hf' & Hl'); simpl in *.
  - done.
  - by rewrite list_lookup_insert_eq.
  - done.
  - lia.
  - lia.
  - exists h', q'. rewrite list_insert_insert_eq in HI'. split_and!; try done. lia.
Qed.

Lemma bq_reset_ok s i q : inv s [] → pq_queues s !! i = Some q →
  Z.of_nat (length (contents (pq_heap s))) < 2 ^ 64 →
  ∃ h' q', bq_reset N (pq_heap s) q = Ok (h', q') ∧
    inv (mkPQ h' (<[i := q']> (pq_queues s))) [] ∧ full_size q' = 0 ∧
    (length (contents h') ≤ length (contents (pq_heap s)))%nat.
Proof.
  intros HI Hi Hc. unfold bq_reset. destruct (Z.eqb_spec (full_size q) 0).
  { do 2 eexists. split; [done|]. rewrite list_insert_id by done. destruct s. by split_and!. }
  destruct (inv_queues _ _ HI _ _ Hi) as (fl & el & Hok).
  pose proof (full_size_exact _ _ _ _ _ _ HI Hok) as Hfl.
  destruct (lists_bounded _ _ _ _ _ _ Hok) as [_ Hsz].
  assert (is_Some (full_head q)) as Hh.
  { destruct fl; [simpl in Hfl; lia|]. destruct (qo_full _ _ _ _ _ _ Hok) as [-> _]. done. }
  rewrite bool_decide_eq_true_2 by done. cbn [ensure mbind result_bind].
  destruct (reset_loop_ok (length fl) (S (size (pq_heap s))) s i q HI Hi Hfl ltac:(lia) Hc)
    as (h' & q' & -> & HI' & Hz & Hl). cbn [mbind result_bind]. rewrite Hz. cbn [Z.eqb ensure mbind result_bind].
  assert (assert_no_duplicates h' q' = Ok tt) as ->.
  { apply (no_duplicates_ok _ _ i q' HI'). simpl. apply list_lookup_insert_eq. by eapply lookup_lt_Some. }
  cbn [mbind result_bind]. exists h', q'. by split_and!.
Qed.

Lemma reset_queues_ok rest : ∀ pre h, inv (mkPQ h (pre ++ rest)) [] →
  Forall (λ q, full_size q = 0) pre → Z.of_nat (length (contents h)) < 2 ^ 64 →
  ∃ h' rest', reset_queues N h rest = Ok (h', rest') ∧ inv (mkPQ h' (pre ++ rest')) [] ∧
    Forall (λ q, full_size q = 0) (pre ++ rest').
Proof.
  induction rest as [|q rest IH]; intros pre h HI Hp Hc; simpl.
  { exists h, []. split; [done|]. by rewrite app_nil_r in *. }
  destruct (bq_reset_ok _ (length pre) q HI) as (h' & q' & Hr & HI' & Hz & Hl); [|done|].
  { simpl. by rewrite list_lookup_middle. }
  simpl in Hr. rewrite Hr. cbn [mbind result_bind]. simpl in HI', Hl.
  rewrite insert_app_r_alt, Nat.sub_diag in HI' by lia. simpl in HI'.
  replace (pre ++ q' :: rest) with ((pre ++ [q']) ++ rest) in HI' by (by rewrite <- app_assoc).
  destruct (IH (pre ++ [q']) h' HI') as (h2 & rest' & -> & HI2 & Hf2); [|lia|].
  { apply Forall_app. split; [done|]. by constructor. }
  cbn [mbind result_bind]. exists h2, (q' :: rest').
  rewrite <- app_assoc in HI2, Hf2. by split_and!.
Qed.

Lemma reset_empties s : inv s [] → Forall (λ q, full_size q = 0) (pq_queues s) → contents (pq_heap s) = [].
Proof.
  intros HI Hf. apply nil_length_inv. apply Nat2Z.inj. rewrite <- (total_contents _ _ HI).
  rewrite <- (filter_all (λ b, (b.1 < length (pq_queues s))%nat) (keys (pq_heap s)))
    by (apply Forall_forall; apply (inv_keys _ _ HI)).
  rewrite total_split. assert (∀ i, (i < length (pq_queues s))%nat →
    total (pq_heap s) (mine i (keys (pq_heap s))) = 0) as Hz.
  { intros i [q Hi]%lookup_lt_is_Some_2. destruct (inv_queues _ _ HI _ _ Hi) as (fl & el & Hok).
    rewrite (full_total _ _ _ _ _ Hok). pose proof (full_size_exact _ _ _ _ _ _ HI Hok) as Hfl.
    pose proof (Forall_lookup_1 _ _ _ _ Hf Hi) as H0. simpl in H0. destruct fl; [done|simpl in Hfl; lia]. }
  assert (∀ idxs : list nat, (∀ i, i ∈ idxs → (i < length (pq_queues s))%nat) →
    foldr (λ i z, total (pq_heap s) (mine i (keys (pq_heap s))) + z) 0 idxs = 0) as Hg.
  { induction idxs as [|i idxs IH]; intros Hl; [done|]. simpl. rewrite Hz by (apply Hl; left).
    rewrite IH; [done|]. intros. apply Hl. by right. }
  apply Hg. intros i [_ ?]%elem_of_seq. lia.
Qed.

(** *** When the operations fail *)

Lemma first_pop_none {A} (G : A → Prop) (D : nat → Prop) pop (found : ptr → nat → qprog A) none idxs s res s' :
  (∀ i, i ∈ idxs → ∃ o s1, act_run N (pop i) s = Ok (o, s1) ∧
     match o with
     | None => s1 = s ∧ D i
     | Some b => ∃ a s2, qrun N (found b i) s1 = Ok (a, s2) ∧ G a
     end) →
  qrun N (first_pop pop idxs found none) s = Ok (res, s') →
  G res ∨ (∀ i, i ∈ idxs → D i) ∧ qrun N none s = Ok (res, s').
Proof.
  induction idxs as [|i idxs IH]; intros Hp Hr.
  { right. split; [|done]. by intros i Hi%elem_of_nil. }
  cbn [first_pop qrun] in Hr. destruct (Hp i ltac:(by left)) as (o & s1 & Ho & Hm). rewrite Ho in Hr.
  cbn [mbind result_bind] in Hr. destruct o as [b|].
  - destruct Hm as (a & s2 & Ha & HG). rewrite Ha in Hr. injection Hr as <- <-. by left.
  - destruct Hm as [-> HD]. destruct IH as [?|[HD' ?]]; [intros; apply Hp; by right|done|by left|].
    right. split; [|done]. intros j [->|?]%elem_of_cons; auto.
Qed.

Lemma push_fresh_ok e b i s R : inv s (b :: R) → sz (pq_heap s) b = 0 →
  ∃ a s2, qrun N (push_fresh e b i) s = Ok (a, s2) ∧ a.1 = true.
Proof using HN.
  intros HI Hz. destruct (act_ok (ContPush b e) (Holds b KEmpty) s R) as (r & s' & c' & Hr & Haf & _);
    [by eexists|done|done|]. unfold push_fresh. cbn [qrun]. rewrite Hr. cbn [mbind result_bind].
  do 2 eexists. split; [done|]. by apply Haf.
Qed.

Lemma pop_fresh_ok b i s R : inv s (b :: R) → 0 < sz (pq_heap s) b →
  ∃ a s2, qrun N (pop_fresh b i) s = Ok (a, s2) ∧ is_Some a.1.
Proof using HN.
  intros HI Hz. destruct (act_ok (ContPop (T:=T) b) (Holds b KNonEmpty) s R) as (r & s' & c' & Hr & Haf & _);
    [by eexists|done|done|]. unfold pop_fresh. cbn [qrun]. rewrite Hr. cbn [mbind result_bind].
  do 2 eexists. split; [done|]. by apply Haf.
Qed.

Lemma push_held_fails e rnd2 b s R hd' s' : length (pq_queues s) = P → inv s (b :: R) →
  qrun N (push_held P e rnd2 b b.1) s = Ok ((false, hd'), s') →
  ∀ i q, pq_queues s' !! i = Some q → empty_head q = None.
Proof using HN HP2.
  intros Hl HI. unfold push_held. cbn [qrun].
  destruct (act_ok (ContPush b e) (Holds b KUnk) s R) as (ok & s1 & c1 & Hr1 & Haf & HI1 & Hc1 & _);
    [by eexists|done|done|]. pose proof (act_run_length _ _ _ _ Hr1) as Hl1.
  rewrite Hr1. cbn [mbind result_bind]. destruct Haf as [-> _]. destruct ok; [done|]. simpl in HI1, Hc1.
  cbn [qrun]. destruct (push_full_ok s1 R b HI1 Hc1) as (s2 & Hr2 & HI2 & _ & _). rewrite Hr2.
  pose proof (act_run_length _ _ _ _ Hr2) as Hl2. cbn [mbind result_bind qrun].
  assert (∀ i, (i < P)%nat → ∃ o s1 q, act_run N (PopEmpty (T:=T) i) s2 = Ok (o, s1) ∧
     pq_queues s2 !! i = Some q ∧ o = empty_head q ∧
     match o with
     | None => s1 = s2
     | Some b => ∃ a s3, qrun N (push_fresh e b i) s1 = Ok (a, s3) ∧ a.1 = true
     end) as Hpop.
  { intros i Hi. destruct (pop_empty_ok s2 R i HI2) as (o & s3 & q & Hr & Hq & Ho & HI3 & Hh & Hn & Hb); [lia|].
    exists o, s3, q. split_and!; try done. destruct o as [b'|]; [|by apply Hn].
    apply (push_fresh_ok _ _ _ _ R); [exact HI3|]. rewrite Hh. by apply Hb. }
  destruct (Hpop _ (pick_lt rnd2)) as (o & s3 & q & -> & _ & _ & Hm). cbn [mbind result_bind]. destruct o as [b'|].
  { destruct Hm as (a & s4 & -> & Ha). by intros [= -> ->]. }
  subst s3. intros Hr. pose proof (first_pop_none (λ a, a.1 = true)
    (λ i, ∀ q, pq_queues s2 !! i = Some q → empty_head q = None)
    PopEmpty (push_fresh e) (QRet (false, None)) (seq 0 P) s2 (false, hd') s') as Hf.
  destruct Hf as [?|[HD Hs]]; [|done|done|].
  { intros i [_ Hi]%elem_of_seq. destruct (Hpop i ltac:(lia)) as (o & s4 & q' & Hr4 & Hq4 & Ho4 & Hm4).
    exists o, s4. split; [done|]. destruct o; [done|]. split; [done|]. intros q2 Hq2. congruence. }
  simpl in Hs. injection Hs as _ <-. intros i qi Hi. apply (HD i); [|done].
  apply elem_of_seq. apply lookup_lt_Some in Hi. lia.
Qed.

Lemma pop_held_fails rnd2 b s R hd' s' : length (pq_queues s) = P → inv s (b :: R) →
  Z.of_nat (length (contents (pq_heap s))) < 2 ^ 64 →
  qrun N (pop_held P rnd2 (λ _, false) b b.1) s = Ok ((None, hd'), s') →
  ∀ i q, pq_queues s' !! i = Some q → full_head q = None.
Proof using HN HP2.
  intros Hl HI Hcon. unfold pop_held. cbn [qrun].
  destruct (act_ok (ContPop (T:=T) b) (Holds b KUnk) s R) as (ok & s1 & c1 & Hr1 & Haf & HI1 & Hc1 & HC1 & _);
    [by eexists|done|done|]. pose proof (act_run_length _ _ _ _ Hr1) as Hl1.
  rewrite Hr1. cbn [mbind result_bind]. destruct Haf as [-> _]. destruct ok; [done|]. simpl in HI1, Hc1, HC1.
  cbn [qrun]. destruct (push_empty_ok s1 R b HI1 Hc1) as (s2 & Hr2 & HI2 & HC2 & _). rewrite Hr2.
  pose proof (act_run_length _ _ _ _ Hr2) as Hl2. cbn [mbind result_bind qrun].
  rewrite <- HC1, <- HC2 in Hcon.
  assert (∀ i, (i < P)%nat → ∃ o s1 q, act_run N (TryPopFull (T:=T) i false) s2 = Ok (o, s1) ∧
     pq_queues s2 !! i = Some q ∧ o = full_head q ∧
     match o with
     | None => s1 = s2
     | Some b => ∃ a s3, qrun N (pop_fresh b i) s1 = Ok (a, s3) ∧ is_Some a.1
     end) as Hpop.
  { intros i Hi. destruct (pop_full_ok s2 R i false HI2) as (o & s3 & q & Hr & Hq & Ho & HI3 & Hh & Hn & Hb); [lia|].
    exists o, s3, q. destruct (inv_queues _ _ HI2 _ _ Hq) as (fl & el & Hok).
    assert (o = full_head q) as Ho'.
    { rewrite Ho. destruct (Z.eqb_spec (bq_elements q) 0) as [He|]; [|done]. simpl.
      pose proof (full_le _ _ _ _ _ _ HI2 Hok). destruct fl as [|b' fl]; [by rewrite (qo_full _ _ _ _ _ _ Hok)|].
      pose proof (pos_total _ _ (qo_nonempty _ _ _ _ _ _ Hok) ltac:(done)).
      rewrite (qo_elements _ _ _ _ _ _ Hok), u64_small in He by lia. lia. }
    split_and!; try done. destruct o as [b'|]; [|by apply Hn].
    apply (pop_fresh_ok _ _ _ R); [exact HI3|]. rewrite Hh. by apply Hb. }
  destruct (Hpop _ (pick_lt rnd2)) as (o & s3 & q & -> & _ & _ & Hm). cbn [mbind result_bind]. destruct o as [b'|].
  { destruct Hm as (a & s4 & -> & Ha). intros [= -> ->]. by destruct Ha. }
  subst s3. intros Hr. pose proof (first_pop_none (λ a, is_Some a.1)
    (λ i, ∀ q, pq_queues s2 !! i = Some q → full_head q = None)
    (λ i, TryPopFull i false) (pop_fresh (T:=T)) (QRet (None, None)) (seq 0 P) s2 (None, hd') s') as Hf.
  destruct Hf as [Hx|[HD Hs]]; [|done|by destruct Hx|].
  { intros i [_ Hi]%elem_of_seq. destruct (Hpop i ltac:(lia)) as (o & s4 & q' & Hr4 & Hq4 & Ho4 & Hm4).
    exists o, s4. split; [done|]. destruct o; [done|]. split; [done|]. intros q2 Hq2. congruence. }
  simpl in Hs. injection Hs as _ <-. intros i qi Hi. apply (HD i); [|done].
  apply elem_of_seq. apply lookup_lt_Some in Hi. lia.
Qed.

Lemma pq_new_built e s : pq_new N P e = Ok s → built s ∧ length (pq_queues s) = P.
Proof using HN HP2.
  intros Hs. destruct (Z_lt_le_dec (bq_batches N (e / Z.of_nat P)) (2 ^ 64)) as [Hlt|Hle].
  - destruct (pq_new_ok e Hlt) as (s' & Hs' & ? & ?). rewrite Hs in Hs'. by injection Hs' as <-.
  - exfalso. destruct HP2 as (k & Hk & HP). pose proof (Z.pow_pos_nonneg 2 k).
    destruct P as [|n]; [lia|]. unfold pq_new in Hs. cbn [pq_init] in Hs. unfold bq_new in Hs.
    rewrite (proj2 (Z.ltb_ge _ _) Hle) in Hs. discriminate.
Qed.

Definition handle_ptrs (hd : handle) : list ptr := match hd with None => [] | Some (b, _) => [b] end.
Definition handle_ok (hd : handle) : Prop := match hd with None => True | Some (b, qi) => qi = b.1 end.

Lemma hd_cap_exists hd : handle_ok hd → ∃ c, hd_cap hd c ∧ cap_list c = handle_ptrs hd ∧ ∀ h, cap_ok h c.
Proof. destruct hd as [[b qi]|]; [intros ->; exists (Holds b KUnk)|exists Idle]; simpl; eauto. Qed.

Lemma hd_cap_ptrs hd c : hd_cap hd c → cap_list c = handle_ptrs hd ∧ handle_ok hd.
Proof. destruct hd as [[b qi]|]; simpl; [intros [-> [k H]]; subst|intros ->]; done. Qed.

Lemma qrun_rtc {A} (ths : list (qprog A)) t p s a s' : ths !! t = Some p → qrun N p s = Ok (a, s') →
  rtc (qstep N) (mkQCfg ths s) (mkQCfg (<[t := QRet a]> ths) s').
Proof.
  revert ths s. induction p as [a0|X act k IH]; intros ths s Ht Hr; cbn [qrun] in Hr.
  - injection Hr as -> ->. by rewrite list_insert_id.
  - inv_bind. destruct r as [r s1]. apply lookup_lt_Some in Ht as Hlt.
    eapply rtc_l; [by eapply qstep_act|].
    rewrite <- (list_insert_insert_eq ths t (QRet a) (k r)). eapply IH; [by apply list_lookup_insert_eq|done].
Qed.

End proofs.

(** ** Claims *)

(** [C12] Any number of threads push to and pop from a free list in any
    interleaving of their atomic sections, each ending with the release of its
    handle.  No section throws or fails an assertion, so every unfinished
    thread can take its next one; and once all are done, what the calls
    reported as popped together with what is stored is exactly what they
    reported as pushed, no batch leaked or is in two lists, and [approx_size]
    is the number of stored elements. *)
Theorem freelist_interleaving {T C : Type} (N : Z) `{K : !Container T C N} (P : nat) (e : Z)
    (opss : list (list (fl_op (T:=T)))) (s0 : PQ) cf :
  0 < N → (∃ k, 0 <= k < 64 ∧ Z.of_nat P = 2 ^ k) → pq_new N P e = Ok s0 →
  rtc (qstep N) (mkQCfg ((λ ops, session P ops None [] []) <$> opss) s0) cf →
  (∀ t X (a : action X) k, qc_threads cf !! t = Some (QAct a k) →
     ∃ r s', act_run N a (qc_state cf) = Ok (r, s')) ∧
  ∀ rs, qc_threads cf = QRet <$> rs →
    (rs ≫= snd) ++ contents N (pq_heap (qc_state cf)) ≡ₚ (rs ≫= fst) ∧
    pq_assert_no_leaks (qc_state cf) = Ok tt ∧ pq_assert_no_duplicates (qc_state cf) = Ok tt ∧
    pq_approx_size (qc_state cf) = u64 (Z.of_nat (length (contents N (pq_heap (qc_state cf))))).
Proof.
  intros HN HP Hs Hst. destruct (pq_new_built N HN P HP e s0 Hs) as [Hb Hl].
  pose proof (ginv_init N HN P HP s0 opss Hb Hl) as HG.
  destruct (ginv_steps N HN P HP _ _ _ HG Hst) as [G HG']. split.
  - intros t X a k Ht. destruct cf as [ths s].
    destruct (ginv_act N HN P HP _ ths s G t X a k HG' Ht) as (r & s' & ? & _). eauto.
  - intros rs Hrs. destruct HG' as [_ Hth HI _ HC]. rewrite Hrs in Hth. apply Forall2_fmap_l in Hth.
    assert ((G ≫= g_popped) = rs ≫= snd ∧ (G ≫= g_pushed) = rs ≫= fst ∧ held_of G = []) as (Hp & Hq & Hh).
    { unfold held_of. clear -Hth. induction Hth as [|r g rs G (Hc & H1 & H2) _ (IH1 & IH2 & IH3)]; [done|].
      rewrite !bind_cons, IH1, IH2, IH3, H1, H2, Hc. done. }
    rewrite Hp, Hq in HC. rewrite Hh in HI.
    split_and!; eauto using leaks_ok, duplicates_ok, approx_size_ok.
Qed.

Lemma two_partitions : ∃ k, 0 <= k < 64 ∧ Z.of_nat 2 = 2 ^ k.
Proof. exists 1. split; [lia|reflexivity]. Qed.

Lemma freelist_interleaving_witness :
  let K := stack_container (T:=nat) 2 ltac:(lia) in
  let opss := [[OPush 5%nat 0 1; OPush 6%nat 0 1; OPush 7%nat 0 1]; [OPop 0 1 (λ _, false)]] in
  ∃ s0 s2, pq_new 2 2 8 = Ok s0 ∧
    rtc (qstep 2) (mkQCfg ((λ ops, session 2 ops None [] []) <$> opss) s0)
      (mkQCfg [QRet ([7; 6; 5]%nat, []); QRet ([], [6]%nat)] s2) ∧
    [6]%nat ++ contents 2 (pq_heap s2) ≡ₚ [7; 6; 5]%nat ∧ pq_assert_no_leaks s2 = Ok tt ∧
    pq_approx_size s2 = 2.
Proof.
  intros K opss.
  destruct (pq_new 2 2 8) as [s0|] eqn:Hs0; [|exfalso; vm_compute in Hs0; discriminate].
  destruct (qrun 2 (session 2 [OPush 5%nat 0 1; OPush 6%nat 0 1; OPush 7%nat 0 1] None [] []) s0) as [[r1 s1]|] eqn:Hr1.
  2: { exfalso. vm_compute in Hs0. injection Hs0 as <-. vm_compute in Hr1. discriminate. }
  destruct (qrun 2 (session 2 [OPop 0 1 (λ _, false)] None [] []) s1) as [[r2 s2]|] eqn:Hr2.
  2: { exfalso. vm_compute in Hs0. injection Hs0 as <-. vm_compute in Hr1. injection Hr1 as <- <-.
       vm_compute in Hr2. discriminate. }
  assert (r1 = ([7; 6; 5]%nat, []) ∧ r2 = ([], [6]%nat) ∧ pq_approx_size s2 = 2) as (-> & -> & Ha).
  { vm_compute in Hs0. injection Hs0 as <-. vm_compute in Hr1. injection Hr1 as <- <-.
    vm_compute in Hr2. injection Hr2 as <- <-. done. }
  assert (rtc (qstep 2) (mkQCfg ((λ ops, session 2 ops None [] []) <$> opss) s0)
      (mkQCfg [QRet ([7; 6; 5]%nat, []); QRet ([], [6]%nat)] s2)) as Hst.
  { etransitivity; [exact (qrun_rtc 2 ((λ ops, session 2 ops None [] []) <$> opss) 0 _ s0 _ s1 eq_refl Hr1)|].
    exact (qrun_rtc 2 [QRet ([7; 6; 5]%nat, []); session 2 [OPop 0 1 (λ _, false)] None [] []] 1
             _ s1 _ s2 eq_refl Hr2). }
  exists s0, s2.
  destruct (freelist_interleaving (K:=K) 2 2 8 opss s0 _ ltac:(lia) two_partitions Hs0 Hst) as [_ Hd].
  destruct (Hd [([7; 6; 5]%nat, []); ([], [6]%nat)] eq_refl) as (HC & HL & _ & _). by split_and!.
Defined.

(** [try_push] on a list in any state the interleavings reach: it returns,
    keeps the invariant with the handle it leaves, stores the element exactly
    when it reports success, and with a batch in the handle it fails only when
    no partition has an empty batch left. *)
Theorem try_push_spec {T C : Type} (N : Z) `{K : !Container T C N} (P : nat) (e : T) (rnd1 rnd2 : Z)
    (hd : handle) (R : list ptr) (s : PQ) :
  0 < N → (∃ k, 0 <= k < 64 ∧ Z.of_nat P = 2 ^ k) → length (pq_queues s) = P →
  handle_ok hd → inv N s (handle_ptrs hd ++ R) →
  ∃ ok hd' s', qrun N (try_push P e rnd1 rnd2 hd) s = Ok ((ok, hd'), s') ∧
    handle_ok hd' ∧ inv N s' (handle_ptrs hd' ++ R) ∧
    contents N (pq_heap s') ≡ₚ (if ok then [e] else []) ++ contents N (pq_heap s) ∧
    (ok = false → hd ≠ None → ∀ i q, pq_queues s' !! i = Some q → empty_head q = None).
Proof.
  intros HN HP Hl Hok HI. destruct (hd_cap_exists N hd Hok) as (c & Hc & Hcl & Hco).
  rewrite <- Hcl in HI. pose proof (valid_try_push P HP e rnd1 rnd2 hd c [] [] Hc) as Hv. rewrite <- Hl in Hv.
  destruct (valid_qrun N HN _ c [] [] s R _ Hv HI (Hco _))
    as ([ok hd'] & s' & c' & ps & pp & Hr & (Hc' & -> & ->) & HI' & _ & _ & HPm).
  destruct (hd_cap_ptrs hd' c' Hc') as [Hcl' Hok']. rewrite Hcl' in HI'. simpl in HPm.
  rewrite Hl in Hr. exists ok, hd', s'. split_and!; try done.
  { rewrite HPm. destruct ok; solve_Permutation. }
  intros -> Hhd. destruct hd as [[b qi]|]; [|done]. simpl in Hok. subst qi. rewrite Hcl in HI.
  by eapply (push_held_fails N HN P HP e rnd2 b s R hd' s').
Qed.

Lemma try_push_spec_witness :
  let K := stack_container (T:=nat) 2 ltac:(lia) in
  ∃ s ok hd' s', pq_new 2 2 8 = Ok s ∧ inv 2 s [] ∧
    qrun 2 (try_push 2 5%nat 0 1 None) s = Ok ((ok, hd'), s') ∧ ok = true ∧
    contents 2 (pq_heap s') ≡ₚ [5]%nat ++ contents 2 (pq_heap s).
Proof.
  intros K. destruct (pq_new 2 2 8) as [s|] eqn:Hs; [|exfalso; vm_compute in Hs; discriminate].
  pose proof two_partitions as HP.
  destruct (pq_new_built 2 ltac:(lia) 2 HP 8 s Hs) as [[HI _] Hl].
  destruct (try_push_spec (K:=K) 2 2 5%nat 0 1 None [] s ltac:(lia) HP Hl I HI)
    as (ok & hd' & s' & Hr & _ & _ & HC & _).
  exists s, ok, hd', s'. assert (ok = true) as ->.
  { vm_compute in Hs. injection Hs as <-. vm_compute in Hr. by injection Hr. }
  by split_and!.
Defined.

(** [try_pop] on a list in any state the interleavings reach: it returns,
    keeps the invariant with the handle it leaves, takes out exactly the
    element it returns, and, when no latch was busy and it had a batch in the
    handle, it fails only when no partition has a full batch. *)
Theorem try_pop_spec {T C : Type} (N : Z) `{K : !Container T C N} (P : nat) (rnd1 rnd2 : Z) (busy : nat → bool)
    (hd : handle) (R : list ptr) (s : PQ) :
  0 < N → (∃ k, 0 <= k < 64 ∧ Z.of_nat P = 2 ^ k) → length (pq_queues s) = P →
  handle_ok hd → inv N s (handle_ptrs hd ++ R) →
  ∃ o hd' s', qrun N (try_pop P rnd1 rnd2 busy hd) s = Ok ((o, hd'), s') ∧
    handle_ok hd' ∧ inv N s' (handle_ptrs hd' ++ R) ∧
    contents N (pq_heap s) ≡ₚ option_list o ++ contents N (pq_heap s') ∧
    (o = None → hd ≠ None → busy = (λ _, false) → Z.of_nat (length (contents N (pq_heap s))) < 2 ^ 64 →
     ∀ i q, pq_queues s' !! i = Some q → full_head q = None).
Proof.
  intros HN HP Hl Hok HI. destruct (hd_cap_exists N hd Hok) as (c & Hc & Hcl & Hco).
  rewrite <- Hcl in HI. pose proof (valid_try_pop (T:=T) P HP rnd1 rnd2 busy hd c [] [] Hc) as Hv. rewrite <- Hl in Hv.
  destruct (valid_qrun N HN _ c [] [] s R _ Hv HI (Hco _))
    as ([o hd'] & s' & c' & ps & pp & Hr & (Hc' & -> & ->) & HI' & _ & _ & HPm).
  destruct (hd_cap_ptrs hd' c' Hc') as [Hcl' Hok']. rewrite Hcl' in HI'. simpl in HPm. rewrite app_nil_r in HPm.
  rewrite Hl in Hr. exists o, hd', s'. split_and!; try done.
  intros -> Hhd -> Hlt. destruct hd as [[b qi]|]; [|done]. simpl in Hok. subst qi. rewrite Hcl in HI.
  by eapply (pop_held_fails N HN P HP rnd2 b s R hd' s').
Qed.

Lemma try_pop_spec_witness :
  let K := stack_container (T:=nat) 2 ltac:(lia) in
  ∃ s s1 o hd' s', pq_new 2 2 8 = Ok s ∧ qrun 2 (session 2 [OPush 5%nat 0 1] None [] []) s = Ok (([5]%nat, []), s1) ∧
    qrun 2 (try_pop 2 0 1 (λ _, false) None) s1 = Ok ((o, hd'), s') ∧ o = Some 5%nat ∧
    contents 2 (pq_heap s1) ≡ₚ [5]%nat ++ contents 2 (pq_heap s').
Proof.
  intros K. destruct (pq_new 2 2 8) as [s|] eqn:Hs; [|exfalso; vm_compute in Hs; discriminate].
  pose proof two_partitions as HP.
  destruct (pq_new_built 2 ltac:(lia) 2 HP 8 s Hs) as [[HI _] Hl].
  pose proof (valid_session 2 HP [OPush 5%nat 0 1] None Idle [] [] eq_refl) as Hv. rewrite <- Hl in Hv at 1.
  destruct (valid_qrun 2 ltac:(lia) _ Idle [] [] s [] _ Hv HI I)
    as (r & s1 & c' & ps & pp & Hr1 & (-> & _ & _) & HI1 & _ & Hl1 & _). simpl in HI1.
  destruct (try_pop_spec (K:=K) 2 2 0 1 (λ _, false) None [] s1 ltac:(lia) HP ltac:(lia) I HI1)
    as (o & hd' & s' & Hr & _ & _ & HC & _).
  exists s, s1, o, hd', s'. assert (r = ([5]%nat, []) ∧ o = Some 5%nat) as [-> ->].
  { vm_compute in Hs. injection Hs as <-. vm_compute in Hr1. injection Hr1 as <- <-. vm_compute in Hr.
    by injection Hr. }
  by split_and!.
Defined.

(** [reset] of a free list whose handles are all released returns, passes
    its own assertions, empties every full list and leaves no element behind. *)
Theorem freelist_reset {T C : Type} (N : Z) `{K : !Container T C N} (s : PQ) :
  inv N s [] → Z.of_nat (length (contents N (pq_heap s))) < 2 ^ 64 →
  ∃ s', pq_reset N s = Ok s' ∧ inv N s' [] ∧ contents N (pq_heap s') = [] ∧ pq_approx_size s' = 0 ∧
    Forall (λ q, full_size q = 0) (pq_queues s').
Proof.
  intros HI Hc. unfold pq_reset.
  destruct (reset_queues_ok N (pq_queues s) [] (pq_heap s)) as (h & qs & -> & HI' & Hf); [by destruct s|done|done|].
  cbn [mbind result_bind]. simpl in HI', Hf. exists (mkPQ h qs). split; [done|]. split; [done|].
  pose proof (reset_empties N _ HI' Hf) as He. split; [done|]. split; [|done].
  rewrite (approx_size_ok N _ HI'), He. done.
Qed.

Lemma freelist_reset_witness :
  let K := stack_container (T:=nat) 2 ltac:(lia) in
  ∃ s s1 s', pq_new 2 2 8 = Ok s ∧ qrun 2 (session 2 [OPush 5%nat 0 1] None [] []) s = Ok (([5]%nat, []), s1) ∧
    pq_approx_size s1 = 1 ∧ pq_reset 2 s1 = Ok s' ∧ pq_approx_size s' = 0.
Proof.
  intros K. destruct (pq_new 2 2 8) as [s|] eqn:Hs; [|exfalso; vm_compute in Hs; discriminate].
  pose proof two_partitions as HP.
  destruct (pq_new_built 2 ltac:(lia) 2 HP 8 s Hs) as [[HI _] Hl].
  pose proof (valid_session 2 HP [OPush 5%nat 0 1] None Idle [] [] eq_refl) as Hv. rewrite <- Hl in Hv at 1.
  destruct (valid_qrun 2 ltac:(lia) _ Idle [] [] s [] _ Hv HI I)
    as (r & s1 & c' & ps & pp & Hr1 & (-> & _ & _) & HI1 & _ & Hl1 & _). simpl in HI1.
  assert (r = ([5]%nat, []) ∧ pq_approx_size s1 = 1 ∧ length (contents 2 (pq_heap s1)) = 1%nat) as (-> & Ha & Hlen).
  { vm_compute in Hs. injection Hs as <-. vm_compute in Hr1. by injection Hr1 as <- <-. }
  destruct (freelist_reset (K:=K) 2 s1 HI1 ltac:(rewrite Hlen; lia)) as (s' & Hr & _ & _ & Ha' & _).
  exists s, s1, s'. by split_and!.
Defined.
