(* ===== verification/BufferFrame.v ===== *)
(** * storage/buffermanager: BufferFrame.hpp, Guard.hpp, AccessFunctors.hpp,
      the functors of rdma/MessageHandler.hpp and BufferFrameGuards.{hpp,cpp}

    A buffer frame holds a cached page, its latch and, on the owner, the
    directory entry of the page.  Guards name a frame and the mode it is
    latched in.  The latch calls are the programs of Latch.v, run by thread
    [t]; what other threads do to the frame between two of them is an argument
    [env] of the operation. *)

From S2P Require Import Prelude Defs Bitmap Latch.
Local Open Scope Z_scope.

Inductive POSSESSION := NOBODY | EXCLUSIVE | SHARED.
#[export] Instance POSSESSION_eq_dec : EqDecision POSSESSION.
Proof. solve_decision. Defined.

Inductive BF_STATE := FREE | HOT | EVICTED | IO_RDMA | IO_SSD | INVALIDATION_EXPECTED.
#[export] Instance BF_STATE_eq_dec : EqDecision BF_STATE.
Proof. solve_decision. Defined.

(** Frames and pages are named by their index in the buffer pool.  The union
    [Possessors] is its 64-bit word: a node id or the bitmap of nodes. *)
Record BufferFrame := mkBF {
  bf_pid : Z;
  bf_next : option nat;
  bf_page : option nat;
  bf_pVersion : Z;
  bf_epoch : Z;
  bf_ht_latch : shared;
  bf_possessors : Z;
  bf_state : BF_STATE;
  bf_mhWaiting : bool;
  bf_cooling : bool;
  bf_dirty : bool;
  bf_isHtBucket : bool;
  bf_possession : POSSESSION;
  bf_latch : shared;
}.

Definition set_pid (x : Z) (f : BufferFrame) : BufferFrame :=
  mkBF x (bf_next f) (bf_page f) (bf_pVersion f) (bf_epoch f) (bf_ht_latch f) (bf_possessors f) (bf_state f) (bf_mhWaiting f) (bf_cooling f) (bf_dirty f) (bf_isHtBucket f) (bf_possession f) (bf_latch f).
Definition set_next (x : option nat) (f : BufferFrame) : BufferFrame :=
  mkBF (bf_pid f) x (bf_page f) (bf_pVersion f) (bf_epoch f) (bf_ht_latch f) (bf_possessors f) (bf_state f) (bf_mhWaiting f) (bf_cooling f) (bf_dirty f) (bf_isHtBucket f) (bf_possession f) (bf_latch f).
Definition set_page (x : option nat) (f : BufferFrame) : BufferFrame :=
  mkBF (bf_pid f) (bf_next f) x (bf_pVersion f) (bf_epoch f) (bf_ht_latch f) (bf_possessors f) (bf_state f) (bf_mhWaiting f) (bf_cooling f) (bf_dirty f) (bf_isHtBucket f) (bf_possession f) (bf_latch f).
Definition set_pVersion (x : Z) (f : BufferFrame) : BufferFrame :=
  mkBF (bf_pid f) (bf_next f) (bf_page f) x (bf_epoch f) (bf_ht_latch f) (bf_possessors f) (bf_state f) (bf_mhWaiting f) (bf_cooling f) (bf_dirty f) (bf_isHtBucket f) (bf_possession f) (bf_latch f).
Definition set_epoch (x : Z) (f : BufferFrame) : BufferFrame :=
  mkBF (bf_pid f) (bf_next f) (bf_page f) (bf_pVersion f) x (bf_ht_latch f) (bf_possessors f) (bf_state f) (bf_mhWaiting f) (bf_cooling f) (bf_dirty f) (bf_isHtBucket f) (bf_possession f) (bf_latch f).
Definition set_ht_latch (x : shared) (f : BufferFrame) : BufferFrame :=
  mkBF (bf_pid f) (bf_next f) (bf_page f) (bf_pVersion f) (bf_epoch f) x (bf_possessors f) (bf_state f) (bf_mhWaiting f) (bf_cooling f) (bf_dirty f) (bf_isHtBucket f) (bf_possession f) (bf_latch f).
Definition set_possessors (x : Z) (f : BufferFrame) : BufferFrame :=
  mkBF (bf_pid f) (bf_next f) (bf_page f) (bf_pVersion f) (bf_epoch f) (bf_ht_latch f) x (bf_state f) (bf_mhWaiting f) (bf_cooling f) (bf_dirty f) (bf_isHtBucket f) (bf_possession f) (bf_latch f).
Definition set_state (x : BF_STATE) (f : BufferFrame) : BufferFrame :=
  mkBF (bf_pid f) (bf_next f) (bf_page f) (bf_pVersion f) (bf_epoch f) (bf_ht_latch f) (bf_possessors f) x (bf_mhWaiting f) (bf_cooling f) (bf_dirty f) (bf_isHtBucket f) (bf_possession f) (bf_latch f).
Definition set_mhWaiting (x : bool) (f : BufferFrame) : BufferFrame :=
  mkBF (bf_pid f) (bf_next f) (bf_page f) (bf_pVersion f) (bf_epoch f) (bf_ht_latch f) (bf_possessors f) (bf_state f) x (bf_cooling f) (bf_dirty f) (bf_isHtBucket f) (bf_possession f) (bf_latch f).
Definition set_cooling (x : bool) (f : BufferFrame) : BufferFrame :=
  mkBF (bf_pid f) (bf_next f) (bf_page f) (bf_pVersion f) (bf_epoch f) (bf_ht_latch f) (bf_possessors f) (bf_state f) (bf_mhWaiting f) x (bf_dirty f) (bf_isHtBucket f) (bf_possession f) (bf_latch f).
Definition set_dirty (x : bool) (f : BufferFrame) : BufferFrame :=
  mkBF (bf_pid f) (bf_next f) (bf_page f) (bf_pVersion f) (bf_epoch f) (bf_ht_latch f) (bf_possessors f) (bf_state f) (bf_mhWaiting f) (bf_cooling f) x (bf_isHtBucket f) (bf_possession f) (bf_latch f).
Definition set_isHtBucket (x : bool) (f : BufferFrame) : BufferFrame :=
  mkBF (bf_pid f) (bf_next f) (bf_page f) (bf_pVersion f) (bf_epoch f) (bf_ht_latch f) (bf_possessors f) (bf_state f) (bf_mhWaiting f) (bf_cooling f) (bf_dirty f) x (bf_possession f) (bf_latch f).
Definition set_possession (x : POSSESSION) (f : BufferFrame) : BufferFrame :=
  mkBF (bf_pid f) (bf_next f) (bf_page f) (bf_pVersion f) (bf_epoch f) (bf_ht_latch f) (bf_possessors f) (bf_state f) (bf_mhWaiting f) (bf_cooling f) (bf_dirty f) (bf_isHtBucket f) x (bf_latch f).
Definition set_latch (x : shared) (f : BufferFrame) : BufferFrame :=
  mkBF (bf_pid f) (bf_next f) (bf_page f) (bf_pVersion f) (bf_epoch f) (bf_ht_latch f) (bf_possessors f) (bf_state f) (bf_mhWaiting f) (bf_cooling f) (bf_dirty f) (bf_isHtBucket f) (bf_possession f) x.

Definition bf_new : BufferFrame :=
  mkBF EMPTY_PID None None 0 EMPTY_EPOCH (sh_init ∅) 0 FREE false false false false NOBODY (sh_init ∅).

Definition fill (pid1 : Z) (page1 : option nat) (possession1 : POSSESSION) (f : BufferFrame) : BufferFrame :=
  set_possession possession1 (set_page page1 (set_pid pid1 f)).

Definition bf_reset (f : BufferFrame) : BufferFrame :=
  let f := set_pVersion 0 f in
  let f := set_pid EMPTY_PID f in
  let f := if negb (bf_isHtBucket f) then set_next None f else f in
  let f := set_page None f in
  let f := set_possession NOBODY f in
  let f := set_possessors 0 f in
  let f := set_mhWaiting false f in
  let f := set_epoch EMPTY_EPOCH f in
  let f := set_dirty false f in
  set_state FREE f.

Definition setPossession (p : POSSESSION) (f : BufferFrame) : BufferFrame := set_possession p f.

Definition setPossessor (nodeId : Z) (f : BufferFrame) : result BufferFrame :=
  match bf_possession f with
  | NOBODY => Throw RuntimeError
  | EXCLUSIVE => Ok (set_possessors nodeId f)
  | SHARED => Ok (set_possessors (sb64_set (bf_possessors f) nodeId) f)
  end.

Definition isPossessor (nodeId : Z) (f : BufferFrame) : bool :=
  match bf_possession f with
  | EXCLUSIVE => bf_possessors f =? nodeId
  | SHARED => sb64_test (bf_possessors f) nodeId
  | NOBODY => false
  end.

Definition isDirty (f : BufferFrame) : bool := bf_dirty f.
Definition setDirty (f : BufferFrame) : BufferFrame := set_dirty true f.

(** ** Guards *)

Inductive STATE :=
| UNINITIALIZED | SSD | REMOTE | LOCAL_POSSESSION_CHANGE | REMOTE_POSSESSION_CHANGE
| RETRY | INITIALIZED | MOVED | NOT_FOUND.
#[export] Instance STATE_eq_dec : EqDecision STATE.
Proof. solve_decision. Defined.

Inductive CONTENTION_METHOD := BLOCKING | NON_BLOCKING.
Inductive LATCH_STATE := UNLATCHED | LS_OPTIMISTIC | LS_SHARED | LS_EXCLUSIVE.
#[export] Instance LATCH_STATE_eq_dec : EqDecision LATCH_STATE.
Proof. solve_decision. Defined.

Record Guard := mkGuard {
  vAcquired : Z;
  g_frame : option nat;
  g_state : STATE;
  g_method : CONTENTION_METHOD;
  latchState : LATCH_STATE;
}.
Definition guard_new : Guard := mkGuard 0 None UNINITIALIZED BLOCKING UNLATCHED.

Definition with_state (x : STATE) (g : Guard) : Guard :=
  mkGuard (vAcquired g) (g_frame g) x (g_method g) (latchState g).
Definition with_latch (x : LATCH_STATE) (g : Guard) : Guard :=
  mkGuard (vAcquired g) (g_frame g) (g_state g) (g_method g) x.
Definition with_version (x : Z) (g : Guard) : Guard :=
  mkGuard x (g_frame g) (g_state g) (g_method g) (latchState g).

(** The move constructor: the new guard and the one it was moved from. *)
Definition guard_move (other : Guard) : Guard * Guard := (other, with_state MOVED other).

Definition guard_swap (g other : Guard) : Guard * Guard := (other, g).

(** A latch call of thread [t] on a frame. *)
Definition on_latch {A} (t : nat) (p : prog A) (f : BufferFrame) : result (A * BufferFrame) :=
  '(a, s) ← run t p (bf_latch f); Ok (a, set_latch s f).
Definition latch_version (f : BufferFrame) : Z := sh_version (bf_latch f).
Definition frame_latched (f : BufferFrame) : bool := isLatched (latch_version f).

Import HybridLatch.

(** The move assignment releases what the target held in its frame [f] first;
    the result is the assigned guard, the source and the frame. *)
Definition guard_assign (t : nat) (g other : Guard) (f : BufferFrame) : result (Guard * Guard * BufferFrame) :=
  f ← (if decide (latchState g = LS_EXCLUSIVE) then '(_, f) ← on_latch t unlatchExclusive f; Ok f else Ok f);
  f ← (if decide (latchState g = LS_SHARED) then '(_, f) ← on_latch t unlatchShared f; Ok f else Ok f);
  Ok (other, mkGuard 0 None MOVED (g_method other) UNLATCHED, f).

Definition needDowngrade (desired : LATCH_STATE) (g : Guard) : result bool :=
  if decide (desired = LS_EXCLUSIVE ∧ desired ≠ latchState g) then Throw RuntimeError
  else Ok (bool_decide (desired ≠ latchState g)).

(** [env] acts between the release of the exclusive and the attempt to take
    the shared latch. *)
Definition downgrade (t : nat) (env : BufferFrame → BufferFrame) (desired : LATCH_STATE)
    (g : Guard) (f : BufferFrame) : result (bool * Guard * BufferFrame) :=
  match desired with
  | LS_EXCLUSIVE => _ ← ensure (bool_decide (desired = latchState g)); Ok (true, g, f)
  | LS_SHARED =>
      _ ← ensure (frame_latched f);
      let v := latch_version f in
      '(_, f) ← on_latch t unlatchExclusive f;
      let f := env f in
      '(ok, f) ← on_latch t tryLatchShared f;
      if negb ok then Ok (false, with_state RETRY (with_latch UNLATCHED g), f)
      else if negb (v +₆₄ 2 =? latch_version f) then
        '(_, f) ← on_latch t unlatchShared f;
        Ok (false, with_state RETRY (with_latch UNLATCHED (with_version (v +₆₄ 2) g)), f)
      else Ok (true, with_latch LS_SHARED (with_version (latch_version f) g), f)
  | LS_OPTIMISTIC =>
      _ ← ensure (vAcquired g =? latch_version f);
      match latchState g with
      | LS_EXCLUSIVE =>
          '(v, f) ← on_latch t downgradeExclusiveToOptimistic f;
          Ok (true, with_latch LS_OPTIMISTIC (with_version v g), f)
      | LS_SHARED =>
          '(v, f) ← on_latch t downgradeSharedToOptimistic f;
          Ok (true, with_latch LS_OPTIMISTIC (with_version v g), f)
      | _ => Ok (true, g, f)
      end
  | UNLATCHED => Ok (true, g, f)
  end.

Definition unlock (t : nat) (g : Guard) (f : BufferFrame) : result (Guard * BufferFrame) :=
  '(g, f) ← match latchState g with
            | LS_EXCLUSIVE =>
                _ ← ensure (frame_latched f);
                '(_, f) ← on_latch t unlatchExclusive f;
                Ok (with_state UNINITIALIZED g, f)
            | LS_SHARED =>
                '(_, f) ← on_latch t unlatchShared f;
                Ok (with_state UNINITIALIZED g, f)
            | LS_OPTIMISTIC =>
                '(ok, f) ← on_latch t (optimisticReadUnlatchOrRestart (vAcquired g)) f;
                Ok (if negb ok then with_state RETRY g else g, f)
            | UNLATCHED => Ok (g, f)
            end;
  Ok (with_latch UNLATCHED g, f).

(** ** Access functors

    [env] acts between the optimistic read of the directory fields and the
    call that takes the latch. *)

Section functors.
Variables (t : nat) (env : BufferFrame → BufferFrame).
Implicit Types (g : Guard) (f : BufferFrame).

Definition retry_guard g : Guard := with_latch UNLATCHED (with_state RETRY g).

(** Which node has to change the possession when [ok] does not hold. *)
Definition possession_state (ok : bool) (nodeId : Z) f : STATE :=
  if ok then INITIALIZED
  else if getOwner (bf_pid f) =? nodeId then LOCAL_POSSESSION_CHANGE else REMOTE_POSSESSION_CHANGE.

Definition Exclusive_op (nodeId : Z) g f : result (Guard * BufferFrame) :=
  '(version, f) ← on_latch t optimisticLatchOrRestart f;
  match version with
  | None => Ok (retry_guard g, f)
  | Some v =>
      if bf_mhWaiting f then Ok (retry_guard g, f)
      else
        let st := possession_state (bool_decide (bf_possession f = EXCLUSIVE) && isPossessor nodeId f) nodeId f in
        let f := env f in
        '(ok, f) ← on_latch t (optimisticUpgradeToExclusive v) f;
        if negb ok then Ok (with_version (latch_version f) (retry_guard g), f)
        else Ok (with_latch LS_EXCLUSIVE (with_version (latch_version f) (with_state st g)), f)
  end.

Definition Exclusive_undo g f : result (Guard * BufferFrame) :=
  _ ← ensure (bool_decide (g_state g ≠ RETRY));
  _ ← ensure (frame_latched f);
  '(_, f) ← on_latch t unlatchExclusive f;
  Ok (with_latch UNLATCHED (with_state UNINITIALIZED g), f).

Definition Shared_op (nodeId : Z) g f : result (Guard * BufferFrame) :=
  '(version, f) ← on_latch t optimisticLatchOrRestart f;
  match version with
  | None => Ok (retry_guard g, f)
  | Some v =>
      if bf_mhWaiting f then Ok (retry_guard g, f)
      else
        let st := possession_state (isPossessor nodeId f) nodeId f in
        let f := env f in
        if decide (st ≠ INITIALIZED) then
          '(ok, f) ← on_latch t (optimisticUpgradeToExclusive v) f;
          let g := if negb ok then retry_guard g else with_latch LS_EXCLUSIVE (with_state st g) in
          Ok (with_version (latch_version f) g, f)
        else
          '(ok, f) ← on_latch t (optimisticUpgradeToShared v) f;
          if negb ok then Ok (with_version (latch_version f) (retry_guard g), f)
          else Ok (with_latch LS_SHARED (with_version (latch_version f) (with_state st g)), f)
  end.

Definition Shared_undo g f : result (Guard * BufferFrame) :=
  if decide (latchState g = LS_EXCLUSIVE) then
    _ ← ensure (bool_decide (g_state g ≠ RETRY));
    _ ← ensure (frame_latched f);
    '(_, f) ← on_latch t unlatchExclusive f;
    Ok (with_latch UNLATCHED (with_state UNINITIALIZED g), f)
  else
    _ ← ensure (bool_decide (latchState g = LS_SHARED));
    _ ← ensure (bool_decide (g_state g ≠ RETRY));
    _ ← ensure (negb (frame_latched f));
    '(_, f) ← on_latch t unlatchShared f;
    Ok (with_latch UNLATCHED (with_state UNINITIALIZED g), f).

Definition Optimistic_op (nodeId : Z) g f : result (Guard * BufferFrame) :=
  '(version, f) ← on_latch t optimisticLatchOrRestart f;
  match version with
  | None => Ok (retry_guard g, f)
  | Some v =>
      if bf_mhWaiting f then Ok (retry_guard g, f)
      else
        let st := possession_state (isPossessor nodeId f) nodeId f in
        let f := env f in
        if decide (st ≠ INITIALIZED) then
          '(ok, f) ← on_latch t (optimisticUpgradeToExclusive v) f;
          if negb ok then Ok (with_state RETRY g, f)
          else Ok (with_version (latch_version f) (with_latch LS_EXCLUSIVE (with_state st g)), f)
        else
          '(ok, f) ← on_latch t (optimisticCheckOrRestart v) f;
          let st := if negb ok then RETRY else st in
          Ok (with_latch LS_OPTIMISTIC (with_version v (with_state st g)), f)
  end.

Definition Optimistic_undo g f : result (Guard * BufferFrame) :=
  if decide (latchState g = LS_EXCLUSIVE) then
    _ ← ensure (bool_decide (g_state g ≠ RETRY));
    _ ← ensure (frame_latched f);
    '(_, f) ← on_latch t unlatchExclusive f;
    Ok (with_latch UNLATCHED (with_state UNINITIALIZED g), f)
  else Ok (with_latch UNLATCHED (with_state UNINITIALIZED g), f).

(** The functors the message handler passes to the buffer manager. *)
Definition Protocol_op (DESIRED_MODE : POSSESSION) (nodeId : Z) g f : result (Guard * BufferFrame) :=
  '(version, f) ← on_latch t optimisticLatchOrRestart f;
  match version with
  | None => Ok (retry_guard g, f)
  | Some v =>
      let st := if bool_decide (bf_possession f ≠ DESIRED_MODE) || negb (isPossessor nodeId f)
                then LOCAL_POSSESSION_CHANGE else INITIALIZED in
      let f := env f in
      '(ok, f) ← on_latch t (optimisticUpgradeToExclusive v) f;
      if (ok : bool) then Ok (with_latch LS_EXCLUSIVE (with_version (latch_version f) (with_state st g)), f)
      else Ok (with_latch UNLATCHED (with_state RETRY (with_state st g)), f)
  end.

Definition Invalidation_op (nodeId : Z) g f : result (Guard * BufferFrame) :=
  '(ok, f) ← on_latch t tryLatchExclusive f;
  if negb ok then Ok (with_state RETRY (with_latch UNLATCHED g), f)
  else Ok (with_state INITIALIZED (with_latch LS_EXCLUSIVE (with_version (latch_version f) g)), f).

(** [undo] of [Protocol] and of [Invalidation]. *)
Definition Protocol_undo g f : result (Guard * BufferFrame) :=
  if decide (latchState g = LS_EXCLUSIVE) then
    _ ← ensure (bool_decide (g_state g ≠ RETRY));
    _ ← ensure (frame_latched f);
    '(_, f) ← on_latch t unlatchExclusive f;
    Ok (with_latch UNLATCHED (with_state RETRY g), f)
  else Ok (g, f).
Definition Invalidation_undo g f : result (Guard * BufferFrame) :=
  if decide (latchState g = LS_EXCLUSIVE) then
    _ ← ensure (bool_decide (g_state g ≠ RETRY));
    _ ← ensure (frame_latched f);
    '(_, f) ← on_latch t unlatchExclusive f;
    Ok (with_latch UNLATCHED (with_state RETRY g), f)
  else Ok (g, f).

Definition Copy_op (nodeId : Z) g f : result (Guard * BufferFrame) :=
  '(ok, f) ← on_latch t tryLatchShared f;
  if negb ok then Ok (with_state RETRY (with_latch UNLATCHED g), f)
  else Ok (with_state INITIALIZED (with_latch LS_SHARED (with_version (latch_version f) g)), f).

Definition Copy_undo g f : result (Guard * BufferFrame) :=
  if decide (latchState g = LS_SHARED) then
    _ ← ensure (bool_decide (g_state g ≠ RETRY));
    _ ← ensure (negb (frame_latched f));
    '(_, f) ← on_latch t unlatchShared f;
    Ok (with_latch UNLATCHED (with_state RETRY g), f)
  else Ok (g, f).

(** ** Conversions between the guards of BufferFrameGuards.cpp

    The new guard starts uninitialised; [fix] is the call of
    [Buffermanager::fix] with the exclusive functor. *)

Variable fixX : Z → BufferFrame → result (Guard * BufferFrame).

(** [~ExclusiveBFGuard], [~SharedBFGuard] *)
Definition destroyX g f : result (Guard * BufferFrame) :=
  if decide (g_state g = INITIALIZED ∧ latchState g = LS_EXCLUSIVE) then
    '(_, f) ← on_latch t unlatchExclusive f;
    Ok (with_latch UNLATCHED (with_state UNINITIALIZED g), f)
  else Ok (g, f).
Definition destroyS g f : result (Guard * BufferFrame) :=
  if decide (g_state g = INITIALIZED ∧ latchState g = LS_SHARED) then
    '(_, f) ← on_latch t unlatchShared f;
    Ok (with_latch UNLATCHED (with_state INITIALIZED g), f)
  else Ok (g, f).

(** [retry()] of an optimistic guard. *)
Definition retryO g f : result (bool * Guard * BufferFrame) :=
  if decide (g_state g = RETRY) then Ok (true, g, f)
  else
    '(ok, f) ← on_latch t (optimisticCheckOrRestart (vAcquired g)) f;
    if negb ok then Ok (true, with_state RETRY g, f) else Ok (false, g, f).

(** [ExclusiveBFGuard(SharedBFGuard&&)] *)
Definition S_to_X (sg : Guard) f : result (Guard * BufferFrame) :=
  _ ← ensure (bool_decide (latchState sg = LS_SHARED));
  let pid := bf_pid f in
  let sg := with_latch UNLATCHED (with_state MOVED sg) in
  '(_, f) ← on_latch t unlatchShared f;
  '(g, f) ← fixX pid (env f);
  _ ← ensure (bool_decide (g_state g = INITIALIZED));
  let g := if decide (g_frame g ≠ g_frame sg) then with_state RETRY g else g in
  let g := if negb (vAcquired g =? vAcquired sg +₆₄ 2) then with_state RETRY g else g in
  Ok (g, if decide (g_state g ≠ RETRY) then set_dirty true f else f).

(** [ExclusiveBFGuard(OptimisticBFGuard&&)] *)
Definition O_to_X (og : Guard) f : result (Guard * BufferFrame) :=
  _ ← ensure (bool_decide (latchState og = LS_OPTIMISTIC));
  let pid := bf_pid f in
  let og := with_latch UNLATCHED (with_state MOVED og) in
  let g := with_state RETRY guard_new in
  '(again, og, f) ← retryO og f;
  '(g, f) ← (if negb again then
               '(g, f) ← fixX pid (env f);
               _ ← ensure (bool_decide (g_state g = INITIALIZED));
               _ ← ensure (bool_decide (latchState g = LS_EXCLUSIVE));
               let g := if decide (g_frame g ≠ g_frame og) then with_state RETRY g else g in
               let g := if negb (vAcquired g =? vAcquired og +₆₄ 2) then with_state RETRY g else g in
               Ok (g, f)
             else Ok (g, f));
  let f := if decide (g_state g ≠ RETRY) then set_dirty true f else f in
  if decide (g_state g = RETRY ∧ latchState g = LS_EXCLUSIVE) then
    _ ← ensure (frame_latched f);
    '(_, f) ← on_latch t unlatchExclusive f;
    Ok (with_latch UNLATCHED g, f)
  else Ok (g, f).

(** [SharedBFGuard(ExclusiveBFGuard&&)] *)
Definition X_to_S (xg : Guard) f : result (Guard * BufferFrame) :=
  _ ← ensure (bool_decide (latchState xg = LS_EXCLUSIVE));
  _ ← ensure (frame_latched f);
  let g := xg in
  '(_, f) ← on_latch t unlatchExclusive f;
  let g := with_state RETRY g in
  let f := env f in
  '(ok, f) ← on_latch t tryLatchShared f;
  if (ok : bool) then
    if latch_version f =? vAcquired g +₆₄ 2 then
      Ok (with_version (vAcquired g +₆₄ 2) (with_latch LS_SHARED (with_state INITIALIZED g)), f)
    else '(_, f) ← on_latch t unlatchShared f; Ok (g, f)
  else Ok (g, f).

(** [SharedBFGuard(OptimisticBFGuard&&)] *)
Definition O_to_S (og : Guard) f : result (Guard * BufferFrame) :=
  _ ← ensure (bool_decide (latchState og = LS_OPTIMISTIC));
  let g := with_state RETRY og in
  let f := env f in
  '(ok, f) ← on_latch t tryLatchShared f;
  if (ok : bool) then
    if latch_version f =? vAcquired g then
      Ok (with_latch LS_SHARED (with_state INITIALIZED g), f)
    else '(_, f) ← on_latch t unlatchShared f; Ok (g, f)
  else Ok (g, f).

(** [OptimisticBFGuard(ExclusiveBFGuard&&)] *)
Definition X_to_O (xg : Guard) f : result (Guard * BufferFrame) :=
  _ ← ensure (bool_decide (latchState xg = LS_EXCLUSIVE));
  _ ← ensure (frame_latched f);
  let g := xg in
  '(_, f) ← on_latch t unlatchExclusive f;
  let g := with_state RETRY g in
  let f := env f in
  '(ok, f) ← on_latch t (optimisticCheckOrRestart (vAcquired g +₆₄ 2)) f;
  if (ok : bool) then
    Ok (with_version (vAcquired g +₆₄ 2) (with_latch LS_OPTIMISTIC (with_state INITIALIZED g)), f)
  else Ok (g, f).

(** [OptimisticBFGuard(SharedBFGuard&&)] *)
Definition S_to_O (sg : Guard) f : result (Guard * BufferFrame) :=
  _ ← ensure (bool_decide (latchState sg = LS_SHARED));
  let g := sg in
  '(_, f) ← on_latch t unlatchShared f;
  let g := with_state RETRY g in
  let f := env f in
  '(ok, f) ← on_latch t (optimisticCheckOrRestart (vAcquired g)) f;
  if (ok : bool) then Ok (with_latch LS_OPTIMISTIC (with_state INITIALIZED g), f)
  else Ok (g, f).

End functors.

(** ** The latch calls in a frame *)

(** A latch between calls: the version is marked exactly while a writer holds
    the mutex, and a thread holds it at most once. *)
Definition latch_ok (s : shared) : Prop :=
  is_u64 (sh_version s) ∧
  match sh_mutex s with
  | MWriter _ => isLatched (sh_version s) = true
  | MReaders ts => isLatched (sh_version s) = false ∧ ts ≠ [] ∧ NoDup ts
  | MFree => isLatched (sh_version s) = false
  end.

(** The mode in which thread [t] holds a latch. *)
Definition mode (t : nat) (s : shared) : LATCH_STATE :=
  match sh_mutex s with
  | MWriter u => if decide (u = t) then LS_EXCLUSIVE else UNLATCHED
  | MReaders ts => if decide (t ∈ ts) then LS_SHARED else UNLATCHED
  | MFree => UNLATCHED
  end.

Section latch_runs.
Variable t : nat.
Implicit Types (s : shared) (v : Z).

Lemma isLatched_add2 v : isLatched (v +₆₄ 2) = negb (isLatched v).
Proof.
  rewrite !isLatched_testbit. unfold u64. rewrite Z.mod_pow2_bits_low by lia.
  rewrite !Z.testbit_odd, !Z.shiftr_div_pow2 by lia. change (2 ^ 1) with 2.
  replace (v + 2) with (v + 1 * 2) by lia. rewrite Z.div_add by lia.
  rewrite Z.add_1_r, Z.odd_succ, <- Z.negb_odd. done.
Qed.

Lemma is_u64_add2 v : is_u64 (v +₆₄ 2).
Proof. apply u64_range. Qed.

Lemma run_optLatch s : run t optimisticLatchOrRestart s =
  Ok (if isLatched (sh_version s) then None else Some (sh_version s), s).
Proof. unfold optimisticLatchOrRestart, load. simpl. by destruct (isLatched (sh_version s)). Qed.

Lemma run_check v s : run t (optimisticCheckOrRestart v) s = Ok (v =? sh_version s, s).
Proof. done. Qed.
Lemma run_read_unlatch v s : run t (optimisticReadUnlatchOrRestart v) s = Ok (v =? sh_version s, s).
Proof. done. Qed.

Definition lockX s : shared := set_version (sh_version s +₆₄ 2) (set_mutex (MWriter t) s).
Definition unlockX s : shared := set_mutex MFree (set_version (sh_version s +₆₄ 2) s).

Lemma run_tryX s : run t tryLatchExclusive s =
  Ok (if decide (sh_mutex s = MFree) then (true, lockX s) else (false, s)).
Proof. unfold tryLatchExclusive, load, store. simpl. by destruct (sh_mutex s). Qed.

Lemma run_tryS s : run t tryLatchShared s =
  Ok (match rlock t (sh_mutex s) with Some m => (true, set_mutex m s) | None => (false, s) end).
Proof. unfold tryLatchShared. simpl. by destruct (rlock t (sh_mutex s)). Qed.

Lemma run_unX s : latch_ok s → mode t s = LS_EXCLUSIVE → run t unlatchExclusive s = Ok (tt, unlockX s).
Proof.
  unfold latch_ok, mode. intros [_ Hl] Hm. destruct (sh_mutex s) as [|u|] eqn:E; try (by repeat case_decide).
  case_decide; [subst u|done]. unfold unlatchExclusive, isLatched_now, load, store, pensure. simpl.
  rewrite Hl. simpl. rewrite isLatched_add2, Hl. simpl. by rewrite decide_True.
Qed.

Lemma run_unS s : mode t s = LS_SHARED → ∃ m, runlock t (sh_mutex s) = Some m ∧
  run t unlatchShared s = Ok (tt, set_mutex m s).
Proof.
  unfold mode. intros Hm. destruct (sh_mutex s) as [|u|ts] eqn:E; try (by repeat case_decide).
  case_decide; [|done]. unfold unlatchShared. simpl. rewrite E. unfold runlock. rewrite decide_True by done. eauto.
Qed.

Lemma run_upX v s : latch_ok s → isLatched v = false → run t (optimisticUpgradeToExclusive v) s =
  Ok (if decide (sh_version s = v ∧ sh_mutex s = MFree) then (true, lockX s) else (false, s)).
Proof.
  intros Hs Hv. unfold optimisticUpgradeToExclusive, tryLatchExclusive, isLatched_now, load, store, pensure. simpl.
  destruct (Z.eqb_spec (sh_version s) v) as [<-|]; simpl; [|by rewrite decide_False by tauto].
  destruct (sh_mutex s) eqn:E; simpl; [|by rewrite decide_False by naive_solver..].
  rewrite Z.eqb_refl. simpl. rewrite isLatched_add2, Hv. simpl. by rewrite decide_True.
Qed.

Lemma run_upS v s : isLatched v = false → run t (optimisticUpgradeToShared v) s =
  Ok (if decide (sh_version s = v) then
        match rlock t (sh_mutex s) with Some m => (true, set_mutex m s) | None => (false, s) end
      else (false, s)).
Proof.
  intros Hv. unfold optimisticUpgradeToShared, tryLatchShared, load. simpl. destruct (decide (sh_version s = v)) as [<-|Hne].
  - rewrite Hv, Z.eqb_refl. simpl. destruct (rlock t (sh_mutex s)); simpl; [|done]. by rewrite Z.eqb_refl.
  - destruct (isLatched (sh_version s)); [done|]. by rewrite (proj2 (Z.eqb_neq _ _) Hne).
Qed.

Lemma lockX_ok s : latch_ok s → sh_mutex s = MFree → latch_ok (lockX s) ∧ mode t (lockX s) = LS_EXCLUSIVE.
Proof.
  unfold latch_ok, mode. intros [_ Hl] Hm. rewrite Hm in Hl. simpl.
  rewrite decide_True by done. split; [|done]. split; [apply is_u64_add2|]. by rewrite isLatched_add2, Hl.
Qed.

Lemma unlockX_ok s : latch_ok s → mode t s = LS_EXCLUSIVE → latch_ok (unlockX s) ∧ mode t (unlockX s) = UNLATCHED.
Proof.
  unfold latch_ok, mode. intros [_ Hl] Hm. destruct (sh_mutex s) as [|u|]; try (by repeat case_decide).
  simpl. split; [|done]. split; [apply is_u64_add2|]. by rewrite isLatched_add2, Hl.
Qed.

Lemma rlock_ok s m : latch_ok s → mode t s = UNLATCHED → rlock t (sh_mutex s) = Some m →
  latch_ok (set_mutex m s) ∧ mode t (set_mutex m s) = LS_SHARED.
Proof.
  unfold latch_ok, mode. intros [Hu Hl] Hm Hr. destruct (sh_mutex s) as [|u|ts]; simpl in Hr; simplify_eq; simpl.
  - rewrite decide_True by (by left). split; [|done]. split_and!; try done. apply NoDup_singleton.
  - rewrite decide_True by (by left). split; [|done]. case_decide; [done|].
    destruct Hl as (? & ? & ?). split_and!; try done. by apply NoDup_cons.
Qed.

Lemma remove_one_elem u ts : u ∈ remove_one t ts → u ∈ ts.
Proof. induction ts as [|w ts IH]; simpl; [done|]. case_decide; set_solver. Qed.

Lemma remove_one_NoDup ts : NoDup ts → NoDup (remove_one t ts) ∧ t ∉ remove_one t ts.
Proof.
  induction ts as [|u ts IH]; simpl; [set_solver|]. intros [Hu Ho]%NoDup_cons.
  case_decide; [by subst|]. destruct (IH Ho). split; [|by apply not_elem_of_cons].
  apply NoDup_cons. split; [|done]. intros H'%remove_one_elem. done.
Qed.

Lemma runlock_ok s m : latch_ok s → mode t s = LS_SHARED → runlock t (sh_mutex s) = Some m →
  latch_ok (set_mutex m s) ∧ mode t (set_mutex m s) = UNLATCHED.
Proof.
  unfold latch_ok, mode. intros [Hu Hl] Hm Hr. destruct (sh_mutex s) as [|u|ts]; simpl in Hr; simplify_eq.
  rewrite decide_True in Hr by (by case_decide). simplify_eq. simpl. destruct Hl as (Hl & _ & Ho).
  destruct (remove_one_NoDup ts Ho) as [Hnd Hn].
  destruct (remove_one t ts) as [|u ts'] eqn:E; simpl; [done|].
  rewrite decide_False by done. by split_and!.
Qed.

End latch_runs.

(** ** The access functors as one *)

Inductive ACCESS := AExclusive | AShared | AOptimistic.

Definition access_op (a : ACCESS) :=
  match a with AExclusive => Exclusive_op | AShared => Shared_op | AOptimistic => Optimistic_op end.
Definition access_undo (a : ACCESS) :=
  match a with AExclusive => Exclusive_undo | AShared => Shared_undo | AOptimistic => Optimistic_undo end.
Definition access_type (a : ACCESS) : LATCH_STATE :=
  match a with AExclusive => LS_EXCLUSIVE | AShared => LS_SHARED | AOptimistic => LS_OPTIMISTIC end.

(** The possession the access needs. *)
Definition granted (a : ACCESS) (nodeId : Z) (f : BufferFrame) : bool :=
  match a with
  | AExclusive => bool_decide (bf_possession f = EXCLUSIVE) && isPossessor nodeId f
  | AShared | AOptimistic => isPossessor nodeId f
  end.

(** What other threads may do to a frame while thread [t] is between two calls:
    they do not touch what [t] holds, they leave the latch between calls, and
    the fields of the directory change only with the version. *)
Record env_ok (t : nat) (env : BufferFrame → BufferFrame) : Prop := {
  env_mode f : mode t (bf_latch (env f)) = mode t (bf_latch f);
  env_latch f : latch_ok (bf_latch f) → latch_ok (bf_latch (env f));
  env_fields f : latch_version (env f) = latch_version f →
    bf_pid (env f) = bf_pid f ∧ bf_possession (env f) = bf_possession f ∧
    bf_possessors (env f) = bf_possessors f ∧ bf_page (env f) = bf_page f;
}.

(** The latch mode a guard claims to hold. *)
Definition claims (g : Guard) : LATCH_STATE :=
  match latchState g with LS_OPTIMISTIC => UNLATCHED | m => m end.

Lemma granted_env a n f f' : bf_possession f' = bf_possession f → bf_possessors f' = bf_possessors f →
  granted a n f' = granted a n f.
Proof. unfold granted, isPossessor. by intros -> ->. Qed.

Lemma granted_latch a n s f : granted a n (set_latch s f) = granted a n f.
Proof. done. Qed.

#[local] Arguments getOwner : simpl never.
#[local] Arguments u64 : simpl never.
#[local] Arguments isPossessor : simpl never.
#[local] Arguments lockX : simpl never.
#[local] Arguments unlockX : simpl never.

Section functor_proofs.
Variables (t : nat) (env : BufferFrame → BufferFrame) (nodeId : Z).
Hypothesis Henv : env_ok t env.
Implicit Types (g : Guard) (f : BufferFrame) (a : ACCESS).

Lemma on_latch_eq {A} (p : prog A) f x s : run t p (bf_latch f) = Ok (x, s) →
  on_latch t p f = Ok (x, set_latch s f).
Proof. intros Hr. unfold on_latch. by rewrite Hr. Qed.

Lemma set_latch_id f : set_latch (bf_latch f) f = f.
Proof. by destruct f. Qed.

(** The state a functor leaves. *)
Definition functor_post a g f : Prop :=
  latch_ok (bf_latch f) ∧ mode t (bf_latch f) = claims g ∧
  match g_state g with
  | INITIALIZED => latchState g = access_type a ∧ granted a nodeId f = true ∧ vAcquired g = latch_version f
  | LOCAL_POSSESSION_CHANGE =>
      latchState g = LS_EXCLUSIVE ∧ granted a nodeId f = false ∧ getOwner (bf_pid f) = nodeId ∧
      vAcquired g = latch_version f
  | REMOTE_POSSESSION_CHANGE =>
      latchState g = LS_EXCLUSIVE ∧ granted a nodeId f = false ∧ getOwner (bf_pid f) ≠ nodeId ∧
      vAcquired g = latch_version f
  | RETRY => claims g = UNLATCHED
  | _ => False
  end.

(** Taking the latch exclusively in the state the snapshot decided. *)
Lemma upgrade_post a g f v :
  latch_ok (bf_latch f) → mode t (bf_latch f) = UNLATCHED → v = latch_version f → isLatched v = false →
  ∃ ok f', on_latch t (optimisticUpgradeToExclusive v) (env f) = Ok (ok, f') ∧
    latch_ok (bf_latch f') ∧
    (ok = false → f' = env f ∧ mode t (bf_latch f') = UNLATCHED) ∧
    (ok = true → ∀ st, (st = INITIALIZED → access_type a = LS_EXCLUSIVE) →
       st = possession_state (granted a nodeId f) nodeId f →
       functor_post a (with_latch LS_EXCLUSIVE (with_version (latch_version f') (with_state st g))) f').
Proof.
  intros Hl Hm -> Hv. pose proof (env_latch _ _ Henv _ Hl) as Hl'.
  pose proof (env_mode _ _ Henv f) as Hm'. rewrite Hm in Hm'.
  pose proof (run_upX t _ _ Hl' Hv) as Hr. destruct (decide _) as [[Hv' Hf]|Hn].
  - exists true. eexists. split; [by apply on_latch_eq|]. destruct (lockX_ok t _ Hl' Hf) as [H1 H2].
    split; [done|]. split; [done|]. intros _ st Hst ->.
    destruct (env_fields _ _ Henv f Hv') as (Hp & Hpo & Hps & _).
    assert (granted a nodeId (set_latch (lockX t (bf_latch (env f))) (env f)) = granted a nodeId f) as Hg.
    { rewrite granted_latch. by apply granted_env. }
    split; [done|]. split; [done|]. unfold functor_post, possession_state. cbn [g_state latchState vAcquired with_latch with_version with_state access_type].
    rewrite Hg. change (bf_pid (set_latch ?s (env f))) with (bf_pid (env f)). rewrite Hp.
    destruct (granted a nodeId f); [by rewrite Hst|].
    destruct (Z.eqb_spec (getOwner (bf_pid f)) nodeId); by split_and!.
  - exists false. eexists. split; [by apply on_latch_eq|]. rewrite set_latch_id. by split_and!.
Qed.

Lemma functor_spec a g f : latch_ok (bf_latch f) → mode t (bf_latch f) = UNLATCHED → latchState g = UNLATCHED →
  ∃ g' f', access_op a t env nodeId g f = Ok (g', f') ∧ functor_post a g' f'.
Proof.
  intros Hl Hm Hg.
  assert (∀ f' g', latch_ok (bf_latch f') → mode t (bf_latch f') = UNLATCHED → g_state g' = RETRY →
    claims g' = UNLATCHED → functor_post a g' f') as Hretry.
  { intros f' g' H1 H2 H3 H4. split; [done|]. split; [by rewrite H2, H4|]. by rewrite H3. }
  pose proof (on_latch_eq _ _ _ _ (run_optLatch t (bf_latch f))) as Ho. rewrite set_latch_id in Ho.
  assert (isLatched (latch_version f) = true ∨ isLatched (latch_version f) = false) as [Hv|Hv]
    by (destruct (isLatched _); auto); unfold latch_version in Hv; rewrite Hv in Ho.
  { exists (retry_guard g), f. split; [by destruct a; cbn [access_op]; unfold Exclusive_op, Shared_op, Optimistic_op; rewrite Ho|].
    by apply Hretry. }
  destruct (bf_mhWaiting f) eqn:Hw.
  { exists (retry_guard g), f. split; [|by apply Hretry].
    destruct a; cbn [access_op]; unfold Exclusive_op, Shared_op, Optimistic_op; rewrite Ho;
      cbn [mbind result_bind]; by rewrite Hw. }
  destruct (upgrade_post a g f _ Hl Hm eq_refl Hv) as (ok & f1 & Hup & Hl1 & Hno & Hyes). fold (latch_version f) in *.
  pose proof (env_latch _ _ Henv _ Hl) as Hle.
  pose proof (env_mode _ _ Henv f) as Hme. rewrite Hm in Hme.
  set (st := possession_state (granted a nodeId f) nodeId f) in *.
  assert (∀ okS m f2, f2 = set_latch m (env f) → latch_ok m → sh_version m = latch_version (env f) →
     (okS = true → latch_version (env f) = latch_version f ∧ mode t m = match a with AShared => LS_SHARED | _ => UNLATCHED end) →
     (okS = false → mode t m = UNLATCHED) → st = INITIALIZED → a ≠ AExclusive →
     functor_post a (if okS then with_latch (access_type a) (with_version (latch_version f) (with_state st g))
                     else with_version (latch_version f) (retry_guard g)) f2) as Hopt.
  { intros okS m f2 -> Hlm Hvm Hok Hnok Hst Ha. destruct okS.
    - destruct (Hok eq_refl) as [Hvv Hmm]. unfold functor_post. simpl. rewrite Hst. split; [done|].
      split; [rewrite Hmm; by destruct a|]. split; [done|]. unfold latch_version at 2. simpl.
      rewrite Hvm, Hvv. split; [|done]. rewrite granted_latch.
      destruct (env_fields _ _ Henv f Hvv) as (? & ? & ? & _). rewrite granted_env with (f := f) by done.
      subst st. unfold possession_state in Hst. destruct (granted a nodeId f); [done|].
      by destruct (getOwner _ =? _).
    - apply Hretry; try done. by apply Hnok. }
  destruct a; cbn [access_op]; unfold Exclusive_op, Shared_op, Optimistic_op; rewrite Ho;
    cbn [mbind result_bind]; rewrite Hw; cbv zeta.
  - rewrite Hup. cbn [mbind result_bind]. destruct ok; simpl.
    + do 2 eexists. split; [done|]. by apply Hyes.
    + do 2 eexists. split; [done|]. destruct (Hno eq_refl) as [-> ?]. by apply Hretry.
  - fold (granted AShared nodeId f). fold st. destruct (decide (st ≠ INITIALIZED)) as [Hst|Hst].
    + rewrite Hup. cbn [mbind result_bind]. destruct ok; simpl; do 2 eexists; (split; [done|]).
      * apply (Hyes eq_refl st); [done|done].
      * destruct (Hno eq_refl) as [-> ?]. by apply Hretry.
    + apply dec_stable in Hst. pose proof (run_upS t _ (bf_latch (env f)) Hv) as Hr.
      destruct (decide (sh_version (bf_latch (env f)) = latch_version f)) as [Hvv|Hvv];
        [destruct (rlock t (sh_mutex (bf_latch (env f)))) as [m|] eqn:Hrl|];
        rewrite (on_latch_eq _ _ _ _ Hr); cbn [mbind result_bind negb]; do 2 eexists; (split; [done|]).
      * destruct (rlock_ok t _ _ Hle Hme Hrl) as [H1 H2]. rewrite Hst.
        replace (latch_version (set_latch _ (env f))) with (latch_version f) by (symmetry; exact Hvv).
        rewrite <- Hst. apply (Hopt true (set_mutex m (bf_latch (env f)))); done.
      * by apply Hretry.
      * by apply Hretry.
  - fold (granted AOptimistic nodeId f). fold st. destruct (decide (st ≠ INITIALIZED)) as [Hst|Hst].
    + rewrite Hup. cbn [mbind result_bind]. destruct ok; simpl; do 2 eexists; (split; [done|]).
      * apply (Hyes eq_refl st); [done|done].
      * destruct (Hno eq_refl) as [-> ?]. apply Hretry; try done. unfold claims. simpl. by rewrite Hg.
    + apply dec_stable in Hst. rewrite (on_latch_eq _ _ _ _ (run_check t _ _)), set_latch_id.
      cbn [mbind result_bind]. do 2 eexists. split; [done|].
      destruct (Z.eqb_spec (latch_version f) (sh_version (bf_latch (env f)))) as [Hvv|Hvv]; cbn [negb].
      * apply (Hopt true (bf_latch (env f))); try done. by rewrite set_latch_id.
      * by apply Hretry.
Qed.

End functor_proofs.

(** ** Undo, conversions and the release of guards *)

Section guard_proofs.
Variables (t : nat).
Implicit Types (g : Guard) (f : BufferFrame).

(** A guard that is what it claims: the latch mode, and the version the frame
    has while it is held. *)
Definition holds (m : LATCH_STATE) g f : Prop :=
  latch_ok (bf_latch f) ∧ latchState g = m ∧ mode t (bf_latch f) = claims g ∧ vAcquired g = latch_version f.

(** The fields a version protects. *)
Definition same_fields f f' : Prop :=
  bf_pid f' = bf_pid f ∧ bf_possession f' = bf_possession f ∧ bf_possessors f' = bf_possessors f ∧
  bf_page f' = bf_page f.

(** What a conversion of a guard on [f] to mode [m] returns: either the new
    mode, with nothing changed in between, or a retry with nothing held. *)
Definition converted (m : LATCH_STATE) f g' f' : Prop :=
  latch_ok (bf_latch f') ∧
  (g_state g' = INITIALIZED ∧ holds m g' f' ∧ same_fields f f' ∨
   g_state g' = RETRY ∧ mode t (bf_latch f') = UNLATCHED).

Lemma on_unX f : latch_ok (bf_latch f) → mode t (bf_latch f) = LS_EXCLUSIVE →
  on_latch t unlatchExclusive f = Ok (tt, set_latch (unlockX (bf_latch f)) f) ∧
  latch_ok (unlockX (bf_latch f)) ∧ mode t (unlockX (bf_latch f)) = UNLATCHED.
Proof.
  intros Hl Hm. split; [by apply on_latch_eq, run_unX|by apply unlockX_ok].
Qed.

Lemma on_unS f : latch_ok (bf_latch f) → mode t (bf_latch f) = LS_SHARED →
  ∃ s, on_latch t unlatchShared f = Ok (tt, set_latch s f) ∧ latch_ok s ∧ mode t s = UNLATCHED ∧
    sh_version s = latch_version f.
Proof.
  intros Hl Hm. destruct (run_unS t _ Hm) as (m & Hr & Hrun).
  exists (set_mutex m (bf_latch f)). split; [by apply on_latch_eq|].
  destruct (runlock_ok t _ _ Hl Hm Hr). done.
Qed.

Lemma modeX_latched f : latch_ok (bf_latch f) → mode t (bf_latch f) = LS_EXCLUSIVE → frame_latched f = true.
Proof.
  unfold latch_ok, mode, frame_latched, latch_version. intros [_ Hl] Hm.
  destruct (sh_mutex (bf_latch f)); repeat case_decide; done.
Qed.

Lemma modeS_unlatched f : latch_ok (bf_latch f) → mode t (bf_latch f) = LS_SHARED → frame_latched f = false.
Proof.
  unfold latch_ok, mode, frame_latched, latch_version. intros [_ Hl] Hm.
  destruct (sh_mutex (bf_latch f)); repeat case_decide; naive_solver.
Qed.

Lemma undo_spec a n g f : functor_post t n a g f → g_state g ≠ RETRY →
  ∃ g' f', access_undo a t g f = Ok (g', f') ∧ latch_ok (bf_latch f') ∧
    mode t (bf_latch f') = UNLATCHED ∧ latchState g' = UNLATCHED ∧ g_state g' = UNINITIALIZED.
Proof.
  intros (Hl & Hm & Hst) Hnr.
  assert (latchState g = LS_EXCLUSIVE ∨ latchState g = access_type a) as Hls
    by (destruct (g_state g); naive_solver).
  assert (latchState g = LS_EXCLUSIVE → ∃ f', on_latch t unlatchExclusive f = Ok (tt, f') ∧
    latch_ok (bf_latch f') ∧ mode t (bf_latch f') = UNLATCHED ∧ frame_latched f = true) as HX.
  { intros E. unfold claims in Hm. rewrite E in Hm. destruct (on_unX f Hl Hm) as (? & ? & ?).
    eexists. split_and!; try done. by apply modeX_latched. }
  assert (bool_decide (g_state g ≠ RETRY) = true) as Hb by (by apply bool_decide_eq_true_2).
  destruct a; cbn [access_undo]; unfold Exclusive_undo, Shared_undo, Optimistic_undo; rewrite ?Hb; cbn [ensure].
  - destruct HX as (f' & Hr & ? & ? & ->); [by destruct Hls|]. cbn [ensure mbind result_bind]. rewrite Hr.
    cbn [mbind result_bind]. eauto 10.
  - destruct (decide (latchState g = LS_EXCLUSIVE)) as [E|E].
    + destruct HX as (f' & Hr & ? & ? & ->); [done|]. cbn [ensure mbind result_bind]. rewrite Hr.
      cbn [mbind result_bind]. eauto 10.
    + destruct Hls as [|Hls]; [done|]. simpl in Hls. unfold claims in Hm. rewrite Hls in Hm.
      rewrite bool_decide_eq_true_2 by done. rewrite (modeS_unlatched f Hl Hm). cbn [ensure negb mbind result_bind].
      destruct (on_unS f Hl Hm) as (s & -> & ? & ? & _). cbn [mbind result_bind]. eauto 10.
  - destruct (decide (latchState g = LS_EXCLUSIVE)) as [E|E].
    + destruct HX as (f' & Hr & ? & ? & ->); [done|]. cbn [ensure mbind result_bind]. rewrite Hr.
      cbn [mbind result_bind]. eauto 10.
    + destruct Hls as [|Hls]; [done|]. unfold claims in Hm. rewrite Hls in Hm. simpl in Hm. eauto 10.
Qed.

Variable env : BufferFrame → BufferFrame.
Hypothesis Henv : env_ok t env.

(** After a release, try to take the latch shared at version [v]. *)
Lemma retake_shared f v g : latch_ok (bf_latch f) → mode t (bf_latch f) = UNLATCHED → latch_version f = v →
  ∃ ok f', on_latch t tryLatchShared (env f) = Ok (ok, f') ∧ latch_ok (bf_latch f') ∧
    (ok = false → mode t (bf_latch f') = UNLATCHED) ∧
    (ok = true → mode t (bf_latch f') = LS_SHARED ∧ latch_version f' = latch_version (env f) ∧
       (latch_version f' = v → same_fields f f')).
Proof.
  intros Hl Hm Hv. pose proof (env_latch _ _ Henv _ Hl) as Hle. pose proof (env_mode _ _ Henv f) as Hme.
  rewrite Hm in Hme. pose proof (run_tryS t (bf_latch (env f))) as Hr.
  destruct (rlock t (sh_mutex (bf_latch (env f)))) as [m|] eqn:Hrl; rewrite (on_latch_eq _ _ _ _ _ Hr).
  - do 2 eexists. split; [done|]. destruct (rlock_ok t _ _ Hle Hme Hrl). split_and!; try done.
    intros _. split_and!; try done. unfold latch_version at 1. cbn [bf_latch set_latch sh_version set_mutex].
    intros E. destruct (env_fields _ _ Henv f) as (? & ? & ? & ?); [by unfold latch_version at 1; rewrite E|]. done.
  - do 2 eexists. split; [done|]. rewrite set_latch_id. by split_and!.
Qed.

Lemma X_to_S_spec xg f : holds LS_EXCLUSIVE xg f → ∃ g f', X_to_S t env xg f = Ok (g, f') ∧ converted LS_SHARED f g f'.
Proof.
  intros (Hl & Hx & Hm & Hv). unfold claims in Hm. rewrite Hx in Hm. unfold X_to_S.
  rewrite bool_decide_eq_true_2, (modeX_latched f Hl Hm) by done. cbn [ensure mbind result_bind].
  destruct (on_unX f Hl Hm) as (-> & Hlu & Hmu). cbn [mbind result_bind].
  destruct (retake_shared (set_latch (unlockX (bf_latch f)) f) (latch_version f +₆₄ 2) xg) as (ok & f' & -> & Hl' & Hno & Hyes);
    [done|done|done|]. cbn [mbind result_bind]. destruct ok.
  - destruct (Hyes eq_refl) as (Hm' & _ & Hsame). cbn [vAcquired with_state]. rewrite Hv.
    destruct (Z.eqb_spec (latch_version f') (latch_version f +₆₄ 2)) as [E|E].
    + do 2 eexists. split; [done|]. split; [done|]. left. split; [done|]. split; [|by apply Hsame]. by split_and!.
    + destruct (on_unS f' Hl' Hm') as (s & -> & ? & ? & _). cbn [mbind result_bind].
      do 2 eexists. split; [done|]. split; [done|]. by right.
  - do 2 eexists. split; [done|]. split; [done|]. right. by split; [|apply Hno].
Qed.

Lemma O_to_S_spec og f : holds LS_OPTIMISTIC og f → ∃ g f', O_to_S t env og f = Ok (g, f') ∧ converted LS_SHARED f g f'.
Proof.
  intros (Hl & Hx & Hm & Hv). unfold claims in Hm. rewrite Hx in Hm. unfold O_to_S.
  rewrite bool_decide_eq_true_2 by done. cbn [ensure mbind result_bind].
  destruct (retake_shared f (latch_version f) og) as (ok & f' & -> & Hl' & Hno & Hyes);
    [done|done|done|]. cbn [mbind result_bind]. destruct ok.
  - destruct (Hyes eq_refl) as (Hm' & _ & Hsame). cbn [vAcquired with_state]. rewrite Hv.
    destruct (Z.eqb_spec (latch_version f') (latch_version f)) as [E|E].
    + do 2 eexists. split; [done|]. split; [done|]. left. split; [done|]. split; [|by apply Hsame].
      split_and!; try done. cbn [vAcquired with_latch with_state]. congruence.
    + destruct (on_unS f' Hl' Hm') as (s & -> & ? & ? & _). cbn [mbind result_bind].
      do 2 eexists. split; [done|]. split; [done|]. by right.
  - do 2 eexists. split; [done|]. split; [done|]. right. by split; [|apply Hno].
Qed.

Lemma recheck f v : latch_ok (bf_latch f) → mode t (bf_latch f) = UNLATCHED → latch_version f = v →
  on_latch t (optimisticCheckOrRestart v) (env f) = Ok (v =? latch_version (env f), env f) ∧
  latch_ok (bf_latch (env f)) ∧ mode t (bf_latch (env f)) = UNLATCHED ∧
  (latch_version (env f) = v → same_fields f (env f)).
Proof.
  intros Hl Hm <-. rewrite (on_latch_eq _ _ _ _ _ (run_check t _ _)), set_latch_id.
  split; [done|]. split; [by apply (env_latch _ _ Henv)|]. split; [by rewrite (env_mode _ _ Henv)|].
  apply (env_fields _ _ Henv).
Qed.

Lemma X_to_O_spec xg f : holds LS_EXCLUSIVE xg f → ∃ g f', X_to_O t env xg f = Ok (g, f') ∧ converted LS_OPTIMISTIC f g f'.
Proof.
  intros (Hl & Hx & Hm & Hv). unfold claims in Hm. rewrite Hx in Hm. unfold X_to_O.
  rewrite bool_decide_eq_true_2, (modeX_latched f Hl Hm) by done. cbn [ensure mbind result_bind].
  destruct (on_unX f Hl Hm) as (-> & Hlu & Hmu). cbn [mbind result_bind vAcquired with_state]. rewrite Hv.
  destruct (recheck (set_latch (unlockX (bf_latch f)) f) (latch_version f +₆₄ 2)) as (-> & Hl' & Hm' & Hs);
    [done|done|done|]. cbn [mbind result_bind].
  destruct (Z.eqb_spec (latch_version f +₆₄ 2) (latch_version (env (set_latch (unlockX (bf_latch f)) f)))) as [E|E];
    do 2 eexists; (split; [done|]); (split; [done|]); [left|by right].
  split; [done|]. split; [|by apply Hs]. by split_and!.
Qed.

Lemma S_to_O_spec sg f : holds LS_SHARED sg f → ∃ g f', S_to_O t env sg f = Ok (g, f') ∧ converted LS_OPTIMISTIC f g f'.
Proof.
  intros (Hl & Hx & Hm & Hv). unfold claims in Hm. rewrite Hx in Hm. unfold S_to_O.
  rewrite bool_decide_eq_true_2 by done. cbn [ensure mbind result_bind].
  destruct (on_unS f Hl Hm) as (s & -> & Hlu & Hmu & Hvs). cbn [mbind result_bind vAcquired with_state]. rewrite Hv.
  destruct (recheck (set_latch s f) (latch_version f)) as (-> & Hl' & Hm' & Hs);
    [done|done|done|]. cbn [mbind result_bind].
  destruct (Z.eqb_spec (latch_version f) (latch_version (env (set_latch s f)))) as [E|E];
    do 2 eexists; (split; [done|]); (split; [done|]); [left|by right].
  split; [done|]. split; [|by apply Hs]. split_and!; try done. cbn [vAcquired with_latch with_state]. congruence.
Qed.

End guard_proofs.

(** ** Upgrades to an exclusive guard, which fix the page again *)

Section upgrade_proofs.
Variables (t : nat) (env : BufferFrame → BufferFrame) (fixX : Z → BufferFrame → result (Guard * BufferFrame)).
Hypothesis Henv : env_ok t env.

(** What the upgrade relies on of [Buffermanager::fix]: it returns a guard that
    holds its frame exclusively. *)
Definition fix_ok : Prop := ∀ pid f, latch_ok (bf_latch f) → mode t (bf_latch f) = UNLATCHED →
  ∃ g f', fixX pid f = Ok (g, f') ∧ g_state g = INITIALIZED ∧ holds t LS_EXCLUSIVE g f'.
Hypothesis Hfix : fix_ok.

(** Whether the guard [g] of the new fix is on the state the old guard saw. *)
Definition undisturbed (old g : Guard) : Prop := g_frame g = g_frame old ∧ vAcquired g = vAcquired old +₆₄ 2.

Lemma recheck_frame old g : ∀ g1 g2,
  g1 = (if decide (g_frame g ≠ g_frame old) then with_state RETRY g else g) →
  g2 = (if negb (vAcquired g1 =? vAcquired old +₆₄ 2) then with_state RETRY g1 else g1) →
  undisturbed old g ∧ g2 = g ∨ ¬ undisturbed old g ∧ g2 = with_state RETRY g.
Proof.
  unfold undisturbed. intros g1 g2 -> ->. destruct g as [v fr st m l]; destruct old as [v' fr' st' m' l'].
  cbn [g_frame vAcquired]. case_decide as Hf; cbn [vAcquired with_state];
    destruct (Z.eqb_spec v (v' +₆₄ 2)); cbn [negb]; cbv [with_state vAcquired g_frame g_state g_method latchState]; naive_solver.
Qed.

Lemma S_to_X_spec sg f : holds t LS_SHARED sg f → ∃ g f',
  S_to_X t env fixX sg f = Ok (g, f') ∧ latch_ok (bf_latch f') ∧ mode t (bf_latch f') = LS_EXCLUSIVE ∧
  (g_state g = INITIALIZED ∧ undisturbed sg g ∧ bf_dirty f' = true ∨
   g_state g = RETRY ∧ ¬ undisturbed sg g ∧ destroyX t g f' = Ok (g, f')).
Proof.
  intros (Hl & Hx & Hm & Hv). unfold claims in Hm. rewrite Hx in Hm. unfold S_to_X.
  rewrite bool_decide_eq_true_2 by done. cbn [ensure mbind result_bind].
  destruct (on_unS t f Hl Hm) as (s & -> & Hlu & Hmu & Hvs). cbn [mbind result_bind].
  destruct (Hfix (bf_pid f) (env (set_latch s f))) as (g & f1 & -> & Hst & Hl1 & Hx1 & Hm1 & Hv1);
    [by apply (env_latch _ _ Henv)|by rewrite (env_mode _ _ Henv)|].
  unfold claims in Hm1. rewrite Hx1 in Hm1. cbn [mbind result_bind].
  rewrite bool_decide_eq_true_2 by done. cbn [ensure mbind result_bind].
  destruct (recheck_frame sg g _ _ eq_refl eq_refl) as [[Hu E]|[Hu E]]; cbn [g_frame vAcquired with_state with_latch];
    rewrite E; do 2 eexists; (split; [done|]).
  - rewrite decide_True by (by rewrite Hst). eauto 10.
  - rewrite decide_False by (cbn; tauto). split_and!; try done. right. split_and!; try done.
Qed.

Lemma O_to_X_spec og f : holds t LS_OPTIMISTIC og f → g_state og ≠ RETRY → ∃ g f',
  O_to_X t env fixX og f = Ok (g, f') ∧ latch_ok (bf_latch f') ∧
  (g_state g = INITIALIZED ∧ undisturbed og g ∧ bf_dirty f' = true ∧ mode t (bf_latch f') = LS_EXCLUSIVE ∨
   g_state g = RETRY ∧ mode t (bf_latch f') = UNLATCHED).
Proof.
  intros (Hl & Hx & Hm & Hv) Hr. unfold claims in Hm. rewrite Hx in Hm. unfold O_to_X.
  rewrite bool_decide_eq_true_2 by done. unfold retryO. cbn [ensure mbind result_bind g_state with_state with_latch].
  rewrite decide_False by done.
  rewrite (on_latch_eq _ _ _ _ _ (run_check t _ _)), set_latch_id. cbn [vAcquired with_latch with_state].
  fold (latch_version f). rewrite Hv, Z.eqb_refl. cbn [mbind result_bind negb].
  destruct (Hfix (bf_pid f) (env f)) as (g & f1 & -> & Hst & Hl1 & Hx1 & Hm1 & Hv1);
    [by apply (env_latch _ _ Henv)|by rewrite (env_mode _ _ Henv)|].
  unfold claims in Hm1. rewrite Hx1 in Hm1. cbn [mbind result_bind].
  rewrite (bool_decide_eq_true_2 _ Hst), (bool_decide_eq_true_2 _ Hx1). cbn [ensure mbind result_bind].
  destruct (recheck_frame og g _ _ eq_refl eq_refl) as [[Hu E]|[Hu E]]; cbn [g_frame vAcquired with_state with_latch];
    rewrite E; cbn [mbind result_bind].
  - destruct (decide (g_state g ≠ RETRY)) as [_|[]]; [|by rewrite Hst].
    rewrite decide_False by (rewrite Hst; naive_solver). eauto 10.
  - destruct (decide (g_state (with_state RETRY g) ≠ RETRY)) as [[]|_]; [done|]. rewrite decide_True by done.
    rewrite (modeX_latched t f1 Hl1 Hm1). cbn [ensure mbind result_bind].
    destruct (on_unX t f1 Hl1 Hm1) as (-> & ? & ?). cbn [mbind result_bind]. eauto 10.
Qed.
End upgrade_proofs.

(** ** Claims *)

(** [C35] The access functors, run by a thread that holds nothing against other
    threads that follow the latch discipline, return in every case; the guard's
    latch state is exactly how the thread then holds the latch, an initialised
    guard has the possession it asked for at its version, a possession change is
    asked of the owner or locally according to the page id and is decided under
    the exclusive latch, and a retry holds nothing.  [undo] of a guard that is
    not a retry releases the latch. *)
Theorem access_functors_correct t env nodeId a g f :
  env_ok t env → latch_ok (bf_latch f) → mode t (bf_latch f) = UNLATCHED → latchState g = UNLATCHED →
  ∃ g1 f1, access_op a t env nodeId g f = Ok (g1, f1) ∧ functor_post t nodeId a g1 f1 ∧
    (g_state g1 ≠ RETRY → ∃ g2 f2, access_undo a t g1 f1 = Ok (g2, f2) ∧ latch_ok (bf_latch f2) ∧
       mode t (bf_latch f2) = UNLATCHED ∧ latchState g2 = UNLATCHED ∧ g_state g2 = UNINITIALIZED).
Proof.
  intros Henv Hl Hm Hg. destruct (functor_spec t env nodeId Henv a g f Hl Hm Hg) as (g1 & f1 & Hop & Hpost).
  exists g1, f1. split_and!; try done. intros Hr.
  destruct (undo_spec t a nodeId g1 f1 Hpost Hr) as (g2 & f2 & Hu & H1 & H2 & H3 & H4).
  by exists g2, f2.
Qed.

(** Other threads that stand still. *)
Lemma env_id t : env_ok t (λ f, f).
Proof. by constructor. Qed.

(** An exclusive access of node 3 to a page of node 3 that is held shared: the
    possession change is local. *)
Definition ex_frame : BufferFrame :=
  set_possession SHARED (set_possessors 0x18 (set_state HOT (set_pid (mkPID 3 7) bf_new))).

Lemma access_functors_correct_witness : ∃ g1 f1,
  access_op AExclusive 1 (λ f, f) 3 guard_new ex_frame = Ok (g1, f1) ∧ g_state g1 = LOCAL_POSSESSION_CHANGE ∧
  functor_post 1 3 AExclusive g1 f1 ∧
  ∃ g2 f2, access_undo AExclusive 1 g1 f1 = Ok (g2, f2) ∧ mode 1 (bf_latch f2) = UNLATCHED.
Proof.
  destruct (access_functors_correct 1 (λ f, f) 3 AExclusive guard_new ex_frame) as (g1 & f1 & Hop & Hpost & Hu).
  - apply env_id.
  - by vm_compute.
  - done.
  - done.
  - exists g1, f1. assert (g_state g1 = LOCAL_POSSESSION_CHANGE) as Hst.
    { revert Hop. vm_compute. by intros [= <- _]. }
    split_and!; try done. destruct Hu as (g2 & f2 & Hu & _ & Hm & _); [by rewrite Hst|]. by exists g2, f2.
Defined.

(** Converting a guard that holds its frame in one mode into a guard of a
    weaker or an optimistic guard into a shared one: whatever the other threads
    do between the release and the new latch call, the constructor returns, and
    either the new guard holds the frame in the new mode at its version with
    the page, page id and possession it had, or it is a retry that holds
    nothing. *)
Theorem guard_conversions_ok t env g f : env_ok t env →
  (holds t LS_EXCLUSIVE g f → ∃ g' f', X_to_S t env g f = Ok (g', f') ∧ converted t LS_SHARED f g' f') ∧
  (holds t LS_EXCLUSIVE g f → ∃ g' f', X_to_O t env g f = Ok (g', f') ∧ converted t LS_OPTIMISTIC f g' f') ∧
  (holds t LS_SHARED g f → ∃ g' f', S_to_O t env g f = Ok (g', f') ∧ converted t LS_OPTIMISTIC f g' f') ∧
  (holds t LS_OPTIMISTIC g f → ∃ g' f', O_to_S t env g f = Ok (g', f') ∧ converted t LS_SHARED f g' f').
Proof.
  intros Henv. split_and!; [by apply X_to_S_spec|by apply X_to_O_spec|by apply S_to_O_spec|by apply O_to_S_spec].
Qed.

(** A frame latched exclusively by thread 1 and its guard. *)
Definition ex_latched : BufferFrame := set_latch (lockX 1 (bf_latch ex_frame)) ex_frame.
Definition ex_guard : Guard := mkGuard 6 (Some 0%nat) INITIALIZED BLOCKING LS_EXCLUSIVE.

Lemma guard_conversions_ok_witness :
  ∃ g' f', X_to_S 1 (λ f, f) ex_guard ex_latched = Ok (g', f') ∧ g_state g' = INITIALIZED ∧
    converted 1 LS_SHARED ex_latched g' f'.
Proof.
  destruct (guard_conversions_ok 1 (λ f, f) ex_guard ex_latched (env_id 1)) as [H _].
  destruct H as (g' & f' & Hc & Hp); [split_and!; [split; [split; by vm_compute|by vm_compute]|done..]|]. exists g', f'. split_and!; try done.
  revert Hc. vm_compute. by intros [= <- _].
Defined.

(** [C36] Upgrades to an exclusive guard fix the page again.  From an optimistic
    guard the result is an exclusive guard on the state the old guard saw, with
    the frame marked dirty, or a retry that holds nothing.  From a shared guard
    a disturbed upgrade is a retry that still holds the exclusive latch, and the
    destructor of the guard does not release it. *)
Theorem upgrade_latch_on_retry t env fixX g f : env_ok t env → fix_ok t fixX →
  (holds t LS_OPTIMISTIC g f → g_state g ≠ RETRY → ∃ g' f', O_to_X t env fixX g f = Ok (g', f') ∧
     (g_state g' = INITIALIZED ∧ undisturbed g g' ∧ bf_dirty f' = true ∧ mode t (bf_latch f') = LS_EXCLUSIVE ∨
      g_state g' = RETRY ∧ mode t (bf_latch f') = UNLATCHED)) ∧
  (holds t LS_SHARED g f → ∃ g' f', S_to_X t env fixX g f = Ok (g', f') ∧ mode t (bf_latch f') = LS_EXCLUSIVE ∧
     (g_state g' = INITIALIZED ∧ undisturbed g g' ∧ bf_dirty f' = true ∨
      g_state g' = RETRY ∧ ¬ undisturbed g g' ∧ destroyX t g' f' = Ok (g', f'))).
Proof.
  intros Henv Hfix. split.
  - intros Hh Hr. destruct (O_to_X_spec t env fixX Henv Hfix g f Hh Hr) as (g' & f' & ? & _ & ?). by exists g', f'.
  - intros Hh. destruct (S_to_X_spec t env fixX Henv Hfix g f Hh) as (g' & f' & ? & _ & ? & ?). by exists g', f'.
Qed.

(** A fix that waits for the latch to be free and then takes it. *)
Definition ex_fix (t : nat) (pid : Z) (f : BufferFrame) : result (Guard * BufferFrame) :=
  let f := if decide (sh_mutex (bf_latch f) = MFree) then f
           else set_latch (sh_init ∅) f in
  '(_, f) ← on_latch t tryLatchExclusive f;
  Ok (mkGuard (latch_version f) (Some 0%nat) INITIALIZED BLOCKING LS_EXCLUSIVE, f).

Lemma ex_fix_ok t : fix_ok t (ex_fix t).
Proof.
  intros pid f Hl _. unfold ex_fix.
  assert (∀ f0, latch_ok (bf_latch f0) → sh_mutex (bf_latch f0) = MFree →
    on_latch t tryLatchExclusive f0 = Ok (true, set_latch (lockX t (bf_latch f0)) f0) ∧
    latch_ok (lockX t (bf_latch f0)) ∧ mode t (lockX t (bf_latch f0)) = LS_EXCLUSIVE) as H.
  { intros f0 Hl0 Hf0. split; [|by apply lockX_ok]. apply on_latch_eq. rewrite run_tryX. by rewrite decide_True. }
  case_decide as Hd; [destruct (H f) as (-> & ? & ?)|destruct (H (set_latch (sh_init ∅) f)) as (-> & ? & ?)];
    try done; cbn [mbind result_bind]; do 2 eexists; by split_and!.
Qed.

(** Between the release of the shared latch and the fix, a writer comes and
    goes: the version moves from 4 to 8. *)
Definition ex_shared : BufferFrame := set_latch (set_mutex (MReaders [1%nat]) (set_version 4 (sh_init ∅))) ex_frame.
Definition ex_writer (f : BufferFrame) : BufferFrame :=
  match sh_mutex (bf_latch f) with
  | MFree => set_latch (set_version (latch_version f +₆₄ 4) (bf_latch f)) f
  | _ => f
  end.
Lemma ex_writer_ok t : env_ok t ex_writer.
Proof.
  constructor; intros f; unfold ex_writer; destruct (sh_mutex (bf_latch f)) eqn:E; try done.
  unfold latch_ok. cbn. rewrite E. intros [_ Hl]. split; [apply u64_range|].
  rewrite <- Hl, !isLatched_testbit. unfold latch_version, u64. rewrite Z.mod_pow2_bits_low by lia.
  rewrite !Z.testbit_odd, !Z.shiftr_div_pow2 by lia. change (2 ^ 1) with 2.
  replace (sh_version (bf_latch f) + 4) with (sh_version (bf_latch f) + 2 * 2) by lia.
  rewrite Z.div_add by lia. by rewrite Z.odd_add_mul_2 with (m := 1).
Qed.

Lemma upgrade_latch_on_retry_witness :
  ∃ g' f', S_to_X 1 ex_writer (ex_fix 1) (mkGuard 4 (Some 0%nat) INITIALIZED BLOCKING LS_SHARED) ex_shared = Ok (g', f') ∧
    g_state g' = RETRY ∧ destroyX 1 g' f' = Ok (g', f') ∧ mode 1 (bf_latch f') = LS_EXCLUSIVE.
Proof.
  destruct (upgrade_latch_on_retry 1 ex_writer (ex_fix 1) (mkGuard 4 (Some 0%nat) INITIALIZED BLOCKING LS_SHARED)
    ex_shared (ex_writer_ok 1) (ex_fix_ok 1)) as [_ H].
  destruct H as (g' & f' & Hc & Hm & Hs).
  - split_and!; [split; [split; by vm_compute|split_and!; [done|done|apply NoDup_singleton]]|done..].
  - exists g', f'. assert (g_state g' = RETRY) as Hst by (revert Hc; vm_compute; by intros [= <- _]).
    rewrite Hst in Hs. destruct Hs as [[? _]|(_ & _ & ?)]; [done|]. by split_and!.
Defined.

(** The directory entry of a frame.  Setting a possessor of a frame in
    exclusive possession replaces the holder, in shared possession adds one to
    the holders and keeps the others, and without possession is an error; a
    reset frame has no possessor. *)
Theorem possessor_laws n m f : 0 ≤ n < MAX_NODES → 0 ≤ m < MAX_NODES →
  match setPossessor n f with
  | Ok f' => bf_possession f ≠ NOBODY ∧ bf_possession f' = bf_possession f ∧
      isPossessor m f' = bool_decide (m = n) || (bool_decide (bf_possession f = SHARED) && isPossessor m f)
  | _ => bf_possession f = NOBODY
  end ∧ isPossessor m (bf_reset f) = false.
Proof.
  unfold MAX_NODES. intros Hn Hm. split; [|by unfold isPossessor, bf_reset; destruct (bf_isHtBucket f)].
  unfold setPossessor. destruct (bf_possession f) eqn:E; [done|..]; (split; [done|]); (split; [exact E|]);
    unfold isPossessor; cbn [bf_possession bf_possessors set_possessors]; rewrite E.
  - cbn. rewrite orb_false_r. apply eq_true_iff_eq. rewrite bool_decide_eq_true. lia.
  - rewrite sb64_test_set, !Z.mod_small by lia. rewrite (bool_decide_eq_true_2 (SHARED = SHARED)) by done.
    f_equal. apply bool_decide_ext. lia.
Qed.

Lemma possessor_laws_witness : 0 ≤ 5 < MAX_NODES ∧
  match setPossessor 5 ex_frame with
  | Ok f' => isPossessor 5 f' = true ∧ isPossessor 3 f' = true ∧ isPossessor 6 f' = false
  | _ => False
  end.
Proof.
  assert (0 ≤ 5 < MAX_NODES) as H5 by (by vm_compute). split; [done|].
  destruct (possessor_laws 5 5 ex_frame H5 H5) as [Ha _]. destruct (possessor_laws 5 3 ex_frame H5) as [Hb _]; [by vm_compute|].
  destruct (possessor_laws 5 6 ex_frame H5) as [Hc _]; [by vm_compute|].
  destruct (setPossessor 5 ex_frame) eqn:E; [|done..]. destruct Ha as (_ & _ & ->), Hb as (_ & _ & ->), Hc as (_ & _ & ->).
  by vm_compute.
Defined.
