(* ===== verification/Bag.v ===== *)
(** * The interface of the free lists

    The buffer manager takes frames, pages and page ids from partitioned queues
    and returns them there.  What it relies on is that the queue is a bag: an
    element comes out as often as it was put in.  [FreeBag] states that; the
    buffer manager is proved against it, and the queue of FreeList.v
    discharges it in FreeListBag.v. *)

From S2P Require Import Prelude.

Class FreeBag (Q A : Type) := {
  bag_ok : Q → Prop;
  bag_contents : Q → list A;
  bag_try_pop : Q → result (option A * Q);
  bag_try_push : A → Q → result (bool * Q);
  bag_pop_law q : bag_ok q → ∃ o q', bag_try_pop q = Ok (o, q') ∧ bag_ok q' ∧
    bag_contents q ≡ₚ option_list o ++ bag_contents q';
  bag_push_law x q : bag_ok q → ∃ ok q', bag_try_push x q = Ok (ok, q') ∧ bag_ok q' ∧
    bag_contents q' ≡ₚ (if ok then [x] else []) ++ bag_contents q;
}.

(** The blocking calls repeat the attempt; [fuel] bounds the rounds the calling
    thread spends alone. *)
Section blocking.
Context {Q A : Type} `{!FreeBag Q A}.

Fixpoint bag_pop (fuel : nat) (q : Q) : result (A * Q) :=
  match fuel with
  | O => Throw WouldBlock
  | S n => '(o, q) ← bag_try_pop q; match o with Some x => Ok (x, q) | None => bag_pop n q end
  end.

Fixpoint bag_push (fuel : nat) (x : A) (q : Q) : result Q :=
  match fuel with
  | O => Throw WouldBlock
  | S n => '(ok, q) ← bag_try_push x q; if (ok : bool) then Ok q else bag_push n x q
  end.

Lemma bag_pop_inv n q x q' : bag_ok q → bag_pop n q = Ok (x, q') → bag_ok q' ∧ bag_contents q ≡ₚ x :: bag_contents q'.
Proof.
  revert q. induction n as [|n IH]; intros q Hq Hr; [done|]. simpl in Hr.
  destruct (bag_pop_law q Hq) as (o & q1 & Hp & Hq1 & HP). rewrite Hp in Hr. simpl in Hr. destruct o as [y|].
  - by simplify_eq/=.
  - destruct (IH _ Hq1 Hr) as [? HP']. split; [done|]. rewrite HP. by simpl.
Qed.

Lemma bag_push_inv n x q q' : bag_ok q → bag_push n x q = Ok q' → bag_ok q' ∧ bag_contents q' ≡ₚ x :: bag_contents q.
Proof.
  revert q. induction n as [|n IH]; intros q Hq Hr; [done|]. simpl in Hr.
  destruct (bag_push_law x q Hq) as (ok & q1 & Hp & Hq1 & HP). rewrite Hp in Hr. simpl in Hr. destruct ok.
  - by simplify_eq/=.
  - destruct (IH _ Hq1 Hr) as [? HP']. split; [done|]. by rewrite HP', HP.
Qed.

End blocking.

(** A list used as an unbounded stack. *)
#[export] Program Instance list_bag {A} : FreeBag (list A) A := {|
  bag_ok q := True;
  bag_contents q := q;
  bag_try_pop q := Ok (match q with [] => (None, []) | x :: q => (Some x, q) end);
  bag_try_push x q := Ok (true, x :: q);
|}.
Next Obligation. intros A [|x q] _; by do 2 eexists. Qed.
Next Obligation. intros A x q _. by do 2 eexists. Qed.
