(* ===== verification/FreeListBag.v ===== *)
(** * The partitioned queue is a free list of the buffer manager

    Discharges [FreeBag] with the queue of FreeList.v as one thread sees it: the
    queue, the batch handle of the thread, and how many random numbers it has
    drawn.  The batches other threads hold are [R]; pops look at every
    partition they can lock ([busy] is false), in the order the draws give. *)

From S2P Require Import Prelude RingBuffer Bag FreeList.
Local Open Scope Z_scope.

Section queue_bag.
Context {T C : Type} (N : Z) `{K : !Container T C N} (P : nat) (rnd : nat → Z) (R : list ptr).
Hypotheses (HN : 0 < N) (HP : ∃ k, 0 <= k < 64 ∧ Z.of_nat P = 2 ^ k).

Record thread_queue := mkTQ { tq_queue : PQ (C:=C); tq_handle : handle; tq_draws : nat }.

Definition tq_ok (q : thread_queue) : Prop :=
  length (pq_queues (tq_queue q)) = P ∧ handle_ok (tq_handle q) ∧ inv N (tq_queue q) (handle_ptrs (tq_handle q) ++ R).

Definition tq_try_pop (q : thread_queue) : result (option T * thread_queue) :=
  let n := tq_draws q in
  '((o, hd), s) ← qrun N (try_pop P (rnd n) (rnd (S n)) (λ _, false) (tq_handle q)) (tq_queue q);
  Ok (o, mkTQ s hd (S (S n))).

Definition tq_try_push (x : T) (q : thread_queue) : result (bool * thread_queue) :=
  let n := tq_draws q in
  '((ok, hd), s) ← qrun N (try_push P x (rnd n) (rnd (S n)) (tq_handle q)) (tq_queue q);
  Ok (ok, mkTQ s hd (S (S n))).

Lemma tq_pop_law q : tq_ok q → ∃ o q', tq_try_pop q = Ok (o, q') ∧ tq_ok q' ∧
  contents N (pq_heap (tq_queue q)) ≡ₚ option_list o ++ contents N (pq_heap (tq_queue q')).
Proof.
  intros (Hl & Hok & HI). unfold tq_try_pop. cbv zeta. destruct (hd_cap_exists N (tq_handle q) Hok) as (c & Hc & Hcl & Hco).
  rewrite <- Hcl in HI.
  pose proof (valid_try_pop (T:=T) P HP (rnd (tq_draws q)) (rnd (S (tq_draws q))) (λ _, false) (tq_handle q) c [] [] Hc) as Hv.
  rewrite <- Hl in Hv.
  destruct (valid_qrun N HN _ c [] [] (tq_queue q) R _ Hv HI (Hco _))
    as ([o hd'] & s' & c' & ps & pp & Hr & (Hc' & -> & ->) & HI' & _ & Hlen & HPm).
  destruct (hd_cap_ptrs hd' c' Hc') as [Hcl' Hok']. rewrite Hcl' in HI'. simpl in HPm. rewrite app_nil_r in HPm.
  rewrite Hl in Hr. rewrite Hr, bind_Ok. eexists _, _. split; [reflexivity|]. split; [|by symmetry].
  split; [|by split]. simpl. by rewrite Hlen.
Qed.

Lemma tq_push_law x q : tq_ok q → ∃ ok q', tq_try_push x q = Ok (ok, q') ∧ tq_ok q' ∧
  contents N (pq_heap (tq_queue q')) ≡ₚ (if ok then [x] else []) ++ contents N (pq_heap (tq_queue q)).
Proof.
  intros (Hl & Hok & HI). unfold tq_try_push. cbv zeta. destruct (hd_cap_exists N (tq_handle q) Hok) as (c & Hc & Hcl & Hco).
  rewrite <- Hcl in HI.
  pose proof (valid_try_push P HP x (rnd (tq_draws q)) (rnd (S (tq_draws q))) (tq_handle q) c [] [] Hc) as Hv.
  rewrite <- Hl in Hv.
  destruct (valid_qrun N HN _ c [] [] (tq_queue q) R _ Hv HI (Hco _))
    as ([ok hd'] & s' & c' & ps & pp & Hr & (Hc' & -> & ->) & HI' & _ & Hlen & HPm).
  destruct (hd_cap_ptrs hd' c' Hc') as [Hcl' Hok']. rewrite Hcl' in HI'. simpl in HPm.
  rewrite Hl in Hr. rewrite Hr, bind_Ok. eexists _, _. split; [reflexivity|]. split.
  - split; [|by split]. simpl. by rewrite Hlen.
  - simpl. rewrite HPm. destruct ok; solve_Permutation.
Qed.

#[export] Instance queue_bag : FreeBag thread_queue T := {|
  bag_ok := tq_ok;
  bag_contents q := contents N (pq_heap (tq_queue q));
  bag_try_pop := tq_try_pop;
  bag_try_push := tq_try_push;
  bag_pop_law := tq_pop_law;
  bag_push_law := tq_push_law;
|}.

End queue_bag.
