(* ===== verification/Memory.v ===== *)
(** * utils/MemoryManagement.hpp and utils/Parallelize.hpp

    The monotonic buffer from which all registered memory is taken (pages,
    mailboxes, messages), and the division of a range among threads, which the
    message handler and the page provider also use for their partitions.

    Addresses are [Z]; the address of the underlying buffer, which comes from
    [posix_memalign], is an argument. *)

From S2P Require Import Prelude Defs.
Local Open Scope Z_scope.

(** ** The monotonic buffer *)

Record mono := mkMono { bufferPosition : Z; bufferSize : Z; sizeLeft : Z; buffer : Z }.

(** [ret] is the result of [posix_memalign], [p] the memory it found. *)
Definition mono_new (size ret p : Z) : result mono :=
  if negb (ret =? 0) then Throw RuntimeError else Ok (mkMono p size size p).

(** [std::align]: the first aligned position with [bytes] of room, with the
    space left behind it. *)
Definition align (alignment bytes position space : Z) : option (Z * Z) :=
  let pad := (- position) `mod` alignment in
  if pad + bytes <=? space then Some (position + pad, space - pad) else None.

Definition do_allocate (bytes alignment : Z) (m : mono) : result (Z * mono) :=
  if sizeLeft m <? bytes then Throw BadAlloc
  else
    match align alignment bytes (bufferPosition m) (sizeLeft m) with
    | Some (position, space) =>
        if negb (position `mod` alignment =? 0) then Throw RuntimeError
        else Ok (position, mkMono (position + bytes) (bufferSize m) (space - bytes) (buffer m))
    | None => Throw BadAlloc
    end.

Definition do_deallocate {A} (p bytes alignment : Z) (m : mono) : result A := Throw RuntimeError.

(** A sequence of allocations, with the regions they return.  The synchronized
    resource takes its mutex around the same call, so concurrent allocations are
    such a sequence. *)
Fixpoint allocate_all (l : list (Z * Z)) (m : mono) : result (list (Z * Z) * mono) :=
  match l with
  | [] => Ok ([], m)
  | (bytes, alignment) :: l =>
      '(p, m) ← do_allocate bytes alignment m;
      '(ps, m) ← allocate_all l m;
      Ok ((p, bytes) :: ps, m)
  end.

(** The regions one after the other, from [low] to [high]. *)
Fixpoint regions (low high : Z) (l : list (Z * Z)) : Prop :=
  match l with
  | [] => low <= high
  | (p, n) :: l => low <= p ∧ regions (p + n) high l
  end.

Definition mono_ok (m : mono) : Prop :=
  0 <= sizeLeft m ∧ bufferPosition m + sizeLeft m = buffer m + bufferSize m.

Lemma align_spec alignment bytes position space p rest : 0 < alignment →
  align alignment bytes position space = Some (p, rest) →
  position <= p ∧ p `mod` alignment = 0 ∧ p + rest = position + space ∧ bytes <= rest.
Proof.
  intros Ha. unfold align. pose proof (Z.mod_pos_bound (- position) alignment Ha) as Hm.
  destruct (Z.leb_spec ((- position) `mod` alignment + bytes) space); [|done]. intros [= <- <-].
  split; [lia|]. split; [|lia]. rewrite <- Zplus_mod_idemp_l.
  pose proof (Z.div_mod (- position) alignment ltac:(lia)) as Hd.
  replace ((-position) `mod` alignment) with (- position - alignment * ((- position) / alignment)) by lia.
  rewrite Zplus_mod_idemp_l.
  replace (position + (- position - alignment * (- position / alignment))) with ((- (- position / alignment)) * alignment) by lia.
  by apply Z.mod_mul; lia.
Qed.

Lemma do_allocate_ok bytes alignment m : mono_ok m → 0 <= bytes → 0 < alignment →
  match do_allocate bytes alignment m with
  | Ok (p, m') => mono_ok m' ∧ p `mod` alignment = 0 ∧ bufferPosition m <= p ∧ bufferPosition m' = p + bytes ∧
      buffer m' = buffer m ∧ bufferSize m' = bufferSize m
  | Throw e => e = BadAlloc ∧ sizeLeft m < bytes + alignment - 1
  end.
Proof.
  intros [Hl Hs] Hb Ha. unfold do_allocate. destruct (Z.ltb_spec (sizeLeft m) bytes); [split; [done|lia]|].
  destruct (align _ _ _ _) as [[p rest]|] eqn:E.
  - apply align_spec in E as (H1 & H2 & H3 & H4); [|done]. rewrite H2. unfold mono_ok. cbn. lia.
  - split; [done|]. unfold align in E. case_match eqn:C; [done|]. apply Z.leb_gt in C.
    pose proof (Z.mod_pos_bound (- bufferPosition m) alignment Ha). lia.
Qed.

Lemma allocate_all_regions l m ps m' : mono_ok m → Forall (λ x, 0 <= x.1 ∧ 0 < x.2) l →
  allocate_all l m = Ok (ps, m') →
  mono_ok m' ∧ buffer m' = buffer m ∧ bufferSize m' = bufferSize m ∧
  regions (bufferPosition m) (bufferPosition m') ps ∧ Forall2 (λ x p, p.1 `mod` x.2 = 0 ∧ p.2 = x.1) l ps.
Proof.
  revert m ps m'. induction l as [|[n a] l IH]; intros m ps m' Hm Hl; cbn [allocate_all].
  - intros [= <- <-]. cbn. split_and!; try done.
  - apply Forall_cons in Hl as [[Hn Ha] Hl]. cbn in Hn, Ha. pose proof (do_allocate_ok n a m Hm Hn Ha) as Hstep. intros E.
    inv_bind. destruct r as [p m1]. rewrite E0 in Hstep. destruct Hstep as (Hm1 & Hp & Hlow & Hpos & Hb & Hs).
    inv_bind. destruct r as [ps' m2]. inv_bind.
    destruct (IH _ _ _ Hm1 Hl E1) as (? & Hb2 & Hs2 & Hr & Hf). rewrite Hpos in Hr. rewrite Hb2, Hs2, Hb, Hs. cbn.
    split_and!; try done. by constructor.
Qed.

Lemma regions_Forall low high l : regions low high l → Forall (λ r, 0 <= r.2) l →
  low <= high ∧ Forall (λ r, low <= r.1 ∧ r.1 + r.2 <= high) l.
Proof.
  revert low. induction l as [|[p n] l IH]; intros low H Hl; cbn [regions] in *; [done|].
  apply Forall_cons in Hl as [Hn Hl]. cbn in Hn. destruct H as [H1 H2]. destruct (IH _ H2 Hl) as [H3 H4].
  split; [lia|]. constructor; [cbn; lia|]. eapply Forall_impl; [exact H4|]. cbn. intros r. lia.
Qed.

Lemma regions_disjoint low high l i j p q : regions low high l → Forall (λ r, 0 <= r.2) l →
  (i < j)%nat → l !! i = Some p → l !! j = Some q → p.1 + p.2 <= q.1.
Proof.
  revert low i j. induction l as [|[x n] l IH]; intros low i j H Hl Hij Hi Hj; [done|]. cbn [regions] in H.
  destruct H as [_ H]. apply Forall_cons in Hl as [Hn Hl]. destruct j as [|j]; [lia|]. cbn in Hj. destruct i as [|i].
  - cbn in Hi. injection Hi as <-. destruct (regions_Forall _ _ _ H Hl) as [_ Hf].
    pose proof (proj1 (Forall_lookup _ _) Hf _ _ Hj) as Hq. cbn in *. lia.
  - cbn in Hi. eapply IH; [done|done| |done|done]. lia.
Qed.

(** [C28] Registered memory is handed out safely: the regions returned by a
    sequence of allocations are aligned as requested, lie inside the buffer and
    do not overlap. *)
Theorem allocations_disjoint size base m l ps m' :
  mono_new size 0 base = Ok m → 0 <= size → Forall (λ x, 0 <= x.1 ∧ 0 < x.2) l → allocate_all l m = Ok (ps, m') →
  Forall2 (λ x p, p.1 `mod` x.2 = 0 ∧ p.2 = x.1) l ps ∧
  Forall (λ p, base <= p.1 ∧ p.1 + p.2 <= base + size) ps ∧
  ∀ i j p q, (i < j)%nat → ps !! i = Some p → ps !! j = Some q → p.1 + p.2 <= q.1.
Proof.
  intros [= <-] Hsize Hl Hrun.
  assert (mono_ok (mkMono base size size base)) as H0 by (split; cbn; lia).
  destruct (allocate_all_regions l _ ps m' H0 Hl Hrun) as ([Hl' Hs'] & Hb & Hs & Hr & Hf). cbn in Hb, Hs, Hr.
  assert (Forall (λ r : Z * Z, 0 <= r.2) ps) as Hpos.
  { clear -Hf Hl. induction Hf as [|x p l ps [_ H] Hf IH]; [constructor|]. apply Forall_cons in Hl as [[H1 _] Hl].
    constructor; [lia|auto]. }
  destruct (regions_Forall _ _ _ Hr Hpos) as [_ Hin]. split; [done|]. split.
  - eapply Forall_impl; [exact Hin|]. cbn. intros p. lia.
  - intros i j p q. by apply (regions_disjoint base (bufferPosition m')).
Qed.

Lemma allocations_disjoint_witness : ∃ m m',
  mono_new 4096 0 1000 = Ok m ∧ allocate_all [(3, 64); (100, 512); (64, 64)] m = Ok ([(1024, 3); (1536, 100); (1664, 64)], m') ∧
  Forall (λ p, 1000 <= p.1 ∧ p.1 + p.2 <= 1000 + 4096) [(1024, 3); (1536, 100); (1664, 64)].
Proof.
  eexists _, _. split; [reflexivity|]. split; [vm_compute; reflexivity|].
  eapply (allocations_disjoint 4096 1000 _ [(3, 64); (100, 512); (64, 64)]);
    [reflexivity|lia|repeat constructor; cbn; lia|vm_compute; reflexivity].
Defined.

(** An allocation fails only when the buffer is exhausted up to the padding. *)
Lemma allocate_total bytes alignment m : mono_ok m → 0 <= bytes → 0 < alignment →
  bytes + alignment - 1 <= sizeLeft m → ∃ p m', do_allocate bytes alignment m = Ok (p, m').
Proof.
  intros Hm Hb Ha Hl. pose proof (do_allocate_ok bytes alignment m Hm Hb Ha) as H.
  destruct (do_allocate bytes alignment m) as [[p m']|e]; [eauto|]. lia.
Qed.

(** ** Ranges divided among threads *)

(** The range of thread [t_i]; the last one takes the rest. *)
Definition block (n threads t_i : Z) : Z * Z :=
  let blockSize := n / threads in
  let begin := t_i *₆₄ blockSize in
  let end_ := begin +₆₄ blockSize in
  (begin, if t_i =? threads -₆₄ 1 then n else end_).

(** The calls of [function], one per worker. *)
Definition parallelRange (threads n : Z) : result (list (Z * Z)) :=
  _ ← ensure (0 <? threads);
  let blockSize := n / threads in
  _ ← ensure (0 <? blockSize);
  Ok (map (block n threads) (seqZ 0 threads)).

Definition range (b : Z * Z) : list Z := seqZ (b.1) (b.2 - b.1).

Lemma seqZ_one m : seqZ m 1 = [m].
Proof. unfold seqZ. done. Qed.

Section blocks.
Context (n threads : Z) (Hn : 0 < threads <= n) (Hw : n < 2 ^ 64).
Let blockSize := n / threads.

Lemma block_size_pos : 0 < blockSize ∧ threads * blockSize <= n.
Proof. unfold blockSize. split; [apply Z.div_str_pos; lia|apply Z.mul_div_le; lia]. Qed.

Lemma block_inner t : 0 <= t < threads - 1 → block n threads t = (t * blockSize, t * blockSize + blockSize).
Proof.
  intros Ht. destruct block_size_pos as [H1 H2]. unfold block. fold blockSize.
  assert ((t + 1) * blockSize <= threads * blockSize) by (apply Z.mul_le_mono_nonneg_r; lia).
  assert (0 <= t * blockSize) by (apply Z.mul_nonneg_nonneg; lia).
  rewrite (u64_small (t * blockSize)), !u64_small by lia. destruct (Z.eqb_spec t (threads - 1)); [lia|done].
Qed.

Lemma block_last : block n threads (threads - 1) = ((threads - 1) * blockSize, n).
Proof.
  destruct block_size_pos as [H1 H2]. unfold block. fold blockSize.
  assert (0 <= (threads - 1) * blockSize <= n) by (split; [apply Z.mul_nonneg_nonneg; lia|lia]).
  rewrite (u64_small (threads - 1)), Z.eqb_refl, u64_small by lia. done.
Qed.

Lemma blocks_prefix j : 0 <= j <= threads - 1 →
  concat (map (range ∘ block n threads) (seqZ 0 j)) = seqZ 0 (j * blockSize).
Proof.
  destruct block_size_pos as [H1 H2]. intros [Hj Hj']. revert Hj'.
  pattern j. apply natlike_ind; [done| |done]. intros i Hi IH Hi'. unfold Z.succ in *.
  rewrite seqZ_app by lia. rewrite map_app, concat_app, IH by lia. rewrite seqZ_one.
  cbn [map concat]. unfold compose. rewrite Z.add_0_l, block_inner by lia. unfold range. cbn [fst snd].
  rewrite app_nil_r.
  replace ((i + 1) * blockSize) with (i * blockSize + blockSize) by lia. rewrite (seqZ_app _ (i * blockSize)) by lia.
  f_equal. f_equal; lia.
Qed.

(** The blocks are consecutive and cover the range. *)
Lemma blocks_cover : concat (map (range ∘ block n threads) (seqZ 0 threads)) = seqZ 0 n.
Proof.
  destruct block_size_pos as [H1 H2]. replace threads with (threads - 1 + 1) at 2 by lia.
  rewrite seqZ_app, map_app, concat_app, blocks_prefix by lia. rewrite seqZ_one.
  cbn [map concat]. unfold compose. replace (0 + (threads - 1)) with (threads - 1) by lia.
  rewrite block_last, app_nil_r. unfold range. cbn [fst snd].
  assert (0 <= (threads - 1) * blockSize <= n) by (split; [apply Z.mul_nonneg_nonneg; lia|lia]).
  replace n with ((threads - 1) * blockSize + (n - (threads - 1) * blockSize)) at 2 by lia.
  rewrite seqZ_app by lia. done.
Qed.

Lemma block_bounds t : 0 <= t < threads → 0 <= (block n threads t).1 < (block n threads t).2 ∧ (block n threads t).2 <= n.
Proof.
  destruct block_size_pos as [H1 H2]. intros Ht. destruct (decide (t = threads - 1)) as [->|].
  - rewrite block_last. cbn. pose proof (Z.mul_nonneg_nonneg (threads - 1) blockSize). lia.
  - rewrite block_inner by lia. cbn. pose proof (Z.mul_nonneg_nonneg t blockSize).
    assert ((t + 1) * blockSize <= threads * blockSize) by (apply Z.mul_le_mono_nonneg_r; lia). lia.
Qed.
End blocks.

(** [parallelRange] runs its function on every element of [0, n) exactly
    once, each worker on a non-empty range, if there are at most [n] workers;
    otherwise a check fails. *)
Theorem parallelRange_once threads n : 0 <= n < 2 ^ 64 →
  match parallelRange threads n with
  | Ok calls => 0 < threads <= n ∧ length calls = Z.to_nat threads ∧ Forall (λ b, b.1 < b.2) calls ∧
      concat (map range calls) = seqZ 0 n
  | Throw e => e = EnsureFailed ∧ ¬ 0 < threads <= n
  end.
Proof.
  intros Hn. unfold parallelRange. destruct (Z.ltb_spec 0 threads); [|split; [done|lia]]. cbn [ensure mbind result_bind].
  destruct (Z.ltb_spec 0 (n / threads)) as [Hb|Hb]; cbn [ensure mbind result_bind].
  - assert (threads <= n) by (pose proof (Z.mul_div_le n threads); nia).
    split; [done|]. rewrite length_map, length_seqZ, map_map. split; [done|]. split; [|apply blocks_cover; lia].
    apply Forall_fmap, Forall_forall. intros t Ht. apply elem_of_seqZ in Ht. apply (block_bounds n threads); lia.
  - split; [done|]. intros Hc. pose proof (Z.div_str_pos n threads). lia.
Qed.

Lemma parallelRange_once_witness : (0 <= 11 < 2 ^ 64) ∧ parallelRange 3 11 = Ok [(0, 3); (3, 6); (6, 11)] ∧
  concat (map range [(0, 3); (3, 6); (6, 11)]) = seqZ 0 11.
Proof.
  split; [lia|]. split; [vm_compute; reflexivity|].
  assert (0 <= 11 < 2 ^ 64) as H by lia. pose proof (parallelRange_once 3 11 H) as T. vm_compute in T. apply T.
Defined.
