(* ===== verification/PageTable.v ===== *)
(** * storage/buffermanager/Buffermanager.{hpp,tpp,cpp}: the page table

    The hash table from page ids to buffer frames: the first [pt_size] frames of
    the pool are the buckets and hold a page inline, further frames of a bucket
    are chained through [next].  Modifications run under the optimistic latch of
    the bucket; lookups run without it and validate its version.

    [insertFrame], [removeFrame] and the page allocation run sequentially, as
    the exclusive bucket latch lets them.  [findFrame] and [findFrameOrInsert]
    are interleaved with other threads: at each point between two reads the
    next element of the stream [env] is applied to the state. *)

From S2P Require Import Prelude Defs Bitmap Latch BufferFrame Bag Memory.
Local Open Scope Z_scope.
Import OptimisticLatch.

(** ** Hashing *)

Definition Rotr64 (x n : Z) : Z := Z.lor (Z.shiftr x n) (x <<₆₄ (64 - n)).

Definition FasterHash (input : Z) : Z :=
  let h := 8 in
  let h := 40343 *₆₄ h +₆₄ Z.land input 65535 in
  let h := 40343 *₆₄ h +₆₄ Z.land (Z.shiftr input 16) 65535 in
  let h := 40343 *₆₄ h +₆₄ Z.land (Z.shiftr input 32) 65535 in
  let h := 40343 *₆₄ h +₆₄ Z.shiftr input 48 in
  40343 *₆₄ h.

Section buffermanager.
Context `{!Build} {QF QP QI : Type} `{!FreeBag QF nat, !FreeBag QP nat, !FreeBag QI Z}.

(** Frames are named by their index in [bfs]. *)
Record BM := mkBM {
  bfs : gmap nat BufferFrame;
  pt_size : Z;
  bm_nodeId : Z;
  frameFreeList : QF;
  pageFreeList : QP;
  pidFreeList : QI;
  globalEpoch : Z;
}.
Implicit Types (s : BM) (i b : nat) (pid v : Z).

Definition with_bfs (m : gmap nat BufferFrame) s : BM :=
  mkBM m (pt_size s) (bm_nodeId s) (frameFreeList s) (pageFreeList s) (pidFreeList s) (globalEpoch s).
Definition with_frames (q : QF) s : BM :=
  mkBM (bfs s) (pt_size s) (bm_nodeId s) q (pageFreeList s) (pidFreeList s) (globalEpoch s).
Definition with_pages (q : QP) s : BM :=
  mkBM (bfs s) (pt_size s) (bm_nodeId s) (frameFreeList s) q (pidFreeList s) (globalEpoch s).
Definition with_pids (q : QI) s : BM :=
  mkBM (bfs s) (pt_size s) (bm_nodeId s) (frameFreeList s) (pageFreeList s) q (globalEpoch s).

Definition get_frame s i : result BufferFrame := of_option UndefinedBehaviour (bfs s !! i).
Definition put_frame i (f : BufferFrame) s : BM := with_bfs (<[i := f]> (bfs s)) s.

(** [PageTable::operator[]] *)
Definition bucket_of (size : Z) pid : nat := Z.to_nat (Z.land (FasterHash pid) (size -₆₄ 1)).

(** A call on the latch of a bucket. *)
Definition on_ht {A} (t : nat) (p : prog A) (f : BufferFrame) : result (A * BufferFrame) :=
  '(a, l) ← run t p (bf_ht_latch f); Ok (a, set_ht_latch l f).
Definition on_bucket {A} (t : nat) (p : prog A) b s : result (A * BM) :=
  f ← get_frame s b; '(a, f) ← on_ht t p f; Ok (a, put_frame b f s).
Definition ht_version s b : result Z := f ← get_frame s b; Ok (sh_version (bf_ht_latch f)).

(** ** Insertion and removal *)

(** The loop of [insertFrame] over the chain: the frame whose [next] is the
    empty slot. *)
Fixpoint tail_slot (fuel : nat) s pid i : result nat :=
  match fuel with
  | O => Throw OutOfFuel
  | S n =>
      f ← get_frame s i;
      match bf_next f with
      | None => Ok i
      | Some j =>
          fj ← get_frame s j;
          if bf_pid fj =? pid then Throw RuntimeError else tail_slot n s pid j
      end
  end.

Definition chain_fuel s : nat := S (size (bfs s)).

Fixpoint insertFrame (fuel t : nat) pid (init : BufferFrame → result BufferFrame) s : result (nat * BM) :=
  match fuel with
  | O => Throw WouldBlock
  | S n =>
      let b := bucket_of (pt_size s) pid in
      '(ok, s) ← on_bucket t ol_tryLatchExclusive b s;
      if negb ok then insertFrame n t pid init s
      else
        bucket_bf ← get_frame s b;
        if decide (bf_state bucket_bf = FREE) then
          f ← init bucket_bf;
          '(_, f) ← on_ht t ol_unlatchExclusive f;
          _ ← ensure (frame_latched f);
          Ok (b, put_frame b f s)
        else
          last ← tail_slot (chain_fuel s) s pid b;
          '(o, q) ← bag_try_pop (frameFreeList s);
          let s := with_frames q s in
          match o with
          | None => '(_, s) ← on_bucket t ol_unlatchExclusive b s; insertFrame n t pid init s
          | Some x =>
              fl ← get_frame s last;
              let s := put_frame last (set_next (Some x) fl) s in
              fx ← get_frame s x;
              fx ← init fx;
              let s := put_frame x fx s in
              '(_, s) ← on_bucket t ol_unlatchExclusive b s;
              fx ← get_frame s x;
              _ ← ensure (frame_latched fx);
              Ok (x, s)
          end
  end.

(** The loop of [removeFrame]: the frame whose [next] points to the first frame
    of the chain with the page id. *)
Fixpoint pred_slot (fuel : nat) s pid i : result nat :=
  match fuel with
  | O => Throw OutOfFuel
  | S n =>
      f ← get_frame s i;
      match bf_next f with
      | None => Throw RuntimeError
      | Some j =>
          fj ← get_frame s j;
          if bf_pid fj =? pid then Ok i else pred_slot n s pid j
      end
  end.

(** Spin on the latch of a bucket. *)
Fixpoint latch_bucket (fuel t : nat) b s : result BM :=
  match fuel with
  | O => Throw WouldBlock
  | S n => '(ok, s) ← on_bucket t ol_tryLatchExclusive b s; if (ok : bool) then Ok s else latch_bucket n t b s
  end.

(** [frame] latched exclusively by [t]; [handle] is the page handler. *)
Definition removeFrame (fuel t : nat) (i : nat) (handle : BufferFrame → BM → result BM) s : result BM :=
  frame ← get_frame s i;
  _ ← assert_ (negb (upper_node (bm_nodeId s) && negb (bf_pid frame =? 0)));
  _ ← ensure (frame_latched frame);
  if bf_isHtBucket frame then
    s ← latch_bucket fuel t i s;
    frame ← get_frame s i;
    _ ← ensure (bool_decide (bf_state frame ≠ FREE));
    s ← handle frame s;
    let frame := bf_reset frame in
    '(_, frame) ← on_ht t ol_unlatchExclusive frame;
    '(_, frame) ← on_latch t HybridLatch.unlatchExclusive frame;
    Ok (put_frame i frame s)
  else
    let b := bucket_of (pt_size s) (bf_pid frame) in
    s ← latch_bucket fuel t b s;
    p ← pred_slot (chain_fuel s) s (bf_pid frame) b;
    fp ← get_frame s p;
    nxt ← of_option UndefinedBehaviour (bf_next fp);
    fn ← get_frame s nxt;
    let s := put_frame p (set_next (bf_next fn) fp) s in
    frame ← get_frame s i;
    _ ← ensure (bool_decide (bf_state frame ≠ FREE));
    s ← handle frame s;
    let s := put_frame i (bf_reset frame) s in
    '(_, s) ← on_bucket t ol_unlatchExclusive b s;
    frame ← get_frame s i;
    '(_, frame) ← on_latch t HybridLatch.unlatchExclusive frame;
    let s := put_frame i frame s in
    '(_, q) ← bag_try_push i (frameFreeList s);
    Ok (with_frames q s).

(** ** Allocation of pages *)

(** The initialisers passed to [insertFrame] by [newPage], [newRemotePage] and
    the allocation of the catalog page. *)
Definition init_newPage (t : nat) (nodeId pid : Z) (page : nat) (epoch : option Z) (f : BufferFrame) : result BufferFrame :=
  '(_, f) ← on_latch t HybridLatch.latchExclusive f;
  let f := set_page (Some page) f in
  let f := set_pid pid f in
  let f := setPossession EXCLUSIVE f in
  f ← setPossessor nodeId f;
  let f := set_state HOT f in
  let f := set_pVersion 0 f in
  Ok (match epoch with Some e => set_epoch e f | None => f end).

Definition newPage (fuel t : nat) s : result (nat * BM) :=
  '(pid, q) ← bag_pop fuel (pidFreeList s);
  let s := with_pids q s in
  '(page, q) ← bag_pop fuel (pageFreeList s);
  let s := with_pages q s in
  insertFrame fuel t pid (init_newPage t (bm_nodeId s) pid page (Some (globalEpoch s))) s.

(** [pid] is the page id the remote node answered. *)
Definition newRemotePage (fuel t : nat) pid s : result (nat * BM) :=
  '(page, q) ← bag_pop fuel (pageFreeList s);
  let s := with_pages q s in
  insertFrame fuel t pid (init_newPage t (bm_nodeId s) pid page (Some 0)) s.

(** A frame that is reclaimed has a page. *)
Definition push_page (fuel : nat) (page : option nat) s : result BM :=
  page ← of_option UndefinedBehaviour page;
  q ← bag_push fuel page (pageFreeList s);
  Ok (with_pages q s).

Definition reclaimPage (fuel t : nat) i s : result BM :=
  frame ← get_frame s i;
  _ ← ensure (frame_latched frame);
  if getOwner (bf_pid frame) =? bm_nodeId s then
    removeFrame fuel t i (λ frame s,
      q ← bag_push fuel (bf_pid frame) (pidFreeList s);
      push_page fuel (bf_page frame) (with_pids q s)) s
  else removeFrame fuel t i (λ frame s, push_page fuel (bf_page frame) s) s.

(** ** Lookup *)

(** A functor of the access protocol with its undo. *)
Record Functor := mkFunctor {
  fn_op : Guard → BufferFrame → result (Guard * BufferFrame);
  fn_undo : Guard → BufferFrame → result (Guard * BufferFrame);
}.

Section find.
Variables (env : nat → BM → BM) (t : nat).

(** The state of a lookup: how many steps the others have taken, and the
    buffer manager. *)
Definition world : Type := nat * BM.
Definition interfere (x : world) : world := (S x.1, env x.1 x.2).

(** [optimisticUnlatch] and [checkOrRestart] on the bucket, after the others
    had their turn. *)
Definition validate b v (x : world) : result (bool * world) :=
  let x := interfere x in
  v' ← ht_version x.2 b; Ok (v =? v', x).

(** [BufferFrame**]: the local pointer to the bucket or the [next] field of a
    frame. *)
Inductive slot := SBucket (b : nat) | SNext (i : nat).
Definition read_slot s (sl : slot) : result (option nat) :=
  match sl with SBucket b => Ok (Some b) | SNext i => f ← get_frame s i; Ok (bf_next f) end.
Definition write_slot s (sl : slot) (p : nat) : result BM :=
  match sl with
  | SBucket _ => Ok s
  | SNext i => f ← get_frame s i; Ok (put_frame i (set_next (Some p) f) s)
  end.

Inductive walked := WRestart | WFound (i : nat) | WEnd (sl : slot).

(** The loop over the chain.  The slot is read by the condition and again for
    [tmp]; every read is validated before it is used. *)
Fixpoint walk (fuel : nat) b v pid (sl : slot) (x : world) : result (walked * world) :=
  match fuel with
  | O => Throw OutOfFuel
  | S n =>
      cond ← read_slot x.2 sl;
      if decide (cond = None) then Ok (WEnd sl, x)
      else
        let x := interfere x in
        tmp ← read_slot x.2 sl;
        '(ok, x) ← validate b v x;
        if negb ok then Ok (WRestart, x)
        else
          tmp ← of_option UndefinedBehaviour tmp;
          let x := interfere x in
          f ← get_frame x.2 tmp;
          if bf_pid f =? pid then
            '(ok, x) ← validate b v x;
            Ok (if negb ok then WRestart else WFound tmp, x)
          else
            '(ok, x) ← validate b v x;
            if negb ok then Ok (WRestart, x) else walk n b v pid (SNext tmp) x
  end.

Inductive found := FReturn (g : Guard) | FRestart (g : Guard).

(** The functor on the frame that was found, and the check of the bucket. *)
Definition on_found (method : CONTENTION_METHOD) (fn : Functor) b v (tmp : nat) (g : Guard) (x : world) :
    result (found * world) :=
  let g := mkGuard (vAcquired g) (Some tmp) (g_state g) (g_method g) (latchState g) in
  f ← get_frame x.2 tmp;
  '(g, f) ← fn_op fn g f;
  let x := (x.1, put_frame tmp f x.2) in
  let undo g (x : world) :=
    f ← get_frame x.2 tmp; '(g, f) ← fn_undo fn g f; Ok (g, (x.1, put_frame tmp f x.2)) in
  match method with
  | NON_BLOCKING =>
      '(ok, x) ← validate b v x;
      if negb ok then '(g, x) ← undo g x; Ok (FReturn g, x) else Ok (FReturn g, x)
  | BLOCKING =>
      if decide (g_state g = RETRY) then Ok (FRestart g, x)
      else
        '(ok, x) ← validate b v x;
        if negb ok then '(g, x) ← undo g x; Ok (FRestart g, x) else Ok (FReturn g, x)
  end.

Fixpoint findFrame (fuel : nat) (method : CONTENTION_METHOD) (fn : Functor) pid (g : Guard) (x : world) :
    result (Guard * world) :=
  match fuel with
  | O => Throw WouldBlock
  | S n =>
      let b := bucket_of (pt_size x.2) pid in
      let x := interfere x in
      v ← ht_version x.2 b;
      if isLatched v then findFrame n method fn pid g x
      else
        '(w, x) ← walk (S (chain_fuel x.2)) b v pid (SBucket b) x;
        match w with
        | WRestart => findFrame n method fn pid g x
        | WFound tmp =>
            '(r, x) ← on_found method fn b v tmp g x;
            match r with FReturn g => Ok (g, x) | FRestart g => findFrame n method fn pid g x end
        | WEnd _ =>
            '(ok, x) ← validate b v x;
            if negb ok then findFrame n method fn pid g x else Ok (with_state NOT_FOUND g, x)
        end
  end.

(** The frame of a page that is read or requested next. *)
Definition init_find (pid : Z) (page : nat) s (f : BufferFrame) : result BufferFrame :=
  '(_, f) ← on_latch t HybridLatch.latchExclusive f;
  _ ← ensure (bf_pid f =? EMPTY_PID);
  let f := set_state (if getOwner pid =? bm_nodeId s then IO_SSD else IO_RDMA) f in
  _ ← assert_ (negb (upper_node (bm_nodeId s) && bool_decide (bf_state f = IO_SSD)));
  let f := set_page (Some page) f in
  let f := set_pid pid f in
  let f := set_epoch (globalEpoch s) f in
  Ok (setPossession NOBODY f).

(** The insertion under the exclusive bucket latch: [None] when no frame is
    free. *)
Definition insert_locked b (sl : slot) pid (page : nat) s : result (option nat * BM) :=
  fb ← get_frame s b;
  '(o, s) ← (if decide (bf_state fb ≠ FREE) then
               '(o, q) ← bag_try_pop (frameFreeList s);
               let s := with_frames q s in
               match o with
               | None => Ok (None, s)
               | Some x => s ← write_slot s sl x; Ok (Some x, s)
               end
             else Ok (Some b, s));
  match o with
  | None => '(_, s) ← on_bucket t ol_unlatchExclusive b s; Ok (None, s)
  | Some i =>
      f ← get_frame s i;
      f ← init_find pid page s f;
      let s := put_frame i f s in
      '(_, s) ← on_bucket t ol_unlatchExclusive b s;
      Ok (Some i, s)
  end.

Fixpoint findFrameOrInsert (fuel : nat) (method : CONTENTION_METHOD) (fn : Functor) pid (g : Guard) (x : world) :
    result (Guard * world) :=
  match fuel with
  | O => Throw WouldBlock
  | S n =>
      let b := bucket_of (pt_size x.2) pid in
      let x := interfere x in
      v ← ht_version x.2 b;
      if isLatched v then findFrameOrInsert n method fn pid g x
      else
        '(w, x) ← walk (S (chain_fuel x.2)) b v pid (SBucket b) x;
        match w with
        | WRestart => findFrameOrInsert n method fn pid g x
        | WFound tmp =>
            '(r, x) ← on_found method fn b v tmp g x;
            match r with FReturn g => Ok (g, x) | FRestart g => findFrameOrInsert n method fn pid g x end
        | WEnd sl =>
            '(ok, x) ← validate b v x;
            if negb ok then findFrameOrInsert n method fn pid g x
            else
              '(page, q) ← bag_pop fuel (pageFreeList x.2);
              let x := interfere (x.1, with_pages q x.2) in
              '(up, s) ← on_bucket t (upgradeToExclusiveLatch v) b x.2;
              if negb up.1 then
                q ← bag_push fuel page (pageFreeList s);
                findFrameOrInsert n method fn pid g (x.1, with_pages q s)
              else
                '(o, s) ← insert_locked b sl pid page s;
                match o with
                | None =>
                    q ← bag_push fuel page (pageFreeList s);
                    findFrameOrInsert n method fn pid g (x.1, with_pages q s)
                | Some i =>
                    f ← get_frame s i;
                    Ok (mkGuard (latch_version f) (Some i)
                          (if getOwner pid =? bm_nodeId s then SSD else REMOTE)
                          (g_method g) LS_EXCLUSIVE, (x.1, s))
                end
        end
  end.

End find.

(** ** Construction, write-back and statistics *)

Definition fresh_frames (size : Z) (bufferFrames : nat) : gmap nat BufferFrame :=
  list_to_map ((λ bf_i, (bf_i, set_isHtBucket (Z.of_nat bf_i <? size) bf_new)) <$> seq 0 bufferFrames).

Fixpoint push_all {Q A} `{!FreeBag Q A} (e : exn) (l : list A) (q : Q) : result Q :=
  match l with
  | [] => Ok q
  | x :: l => '(rc, q) ← bag_try_push x q; if negb rc then Throw e else push_all e l q
  end.

(** The elements of a vector at the indices the workers of a [parallelRange]
    visit. *)
Fixpoint at_indices {A} (l : list A) (idx : list nat) : result (list A) :=
  match idx with
  | [] => Ok []
  | i :: idx => x ← arr_get l i; xs ← at_indices l idx; Ok (x :: xs)
  end.

(** The loop of the workers over the vector [l] of [n] elements. *)
Definition range_elements {A} (threads n : Z) (l : list A) : result (list A) :=
  calls ← parallelRange threads n; at_indices l (Z.to_nat <$> concat (map range calls)).

(** The constructor.  [pages] are the pages of the pool in the order the shuffle
    left them, [shuffle] the order of the frames behind the buckets; the ten
    workers of a loop run one after the other. *)
Definition bm_new (t : nat) (nodeId dramPoolNumberPages ssdPages : Z) (pages : list nat)
    (shuffle : list nat → list nat) (qf : QF) (qp : QP) (qi : QI) : result BM :=
  let size := nextPowerTwo dramPoolNumberPages in
  let bufferFrames := size *₆₄ 4 in
  _ ← ensure (dramPoolNumberPages <? bufferFrames);
  let m := fresh_frames size (Z.to_nat bufferFrames) in
  l ← range_elements 10 dramPoolNumberPages pages;
  qp ← push_all LogicError l qp;
  let frames_in_free_list := bufferFrames -₆₄ size in
  l ← range_elements 10 frames_in_free_list (seq (Z.to_nat size) (Z.to_nat frames_in_free_list));
  frames ← range_elements 10 frames_in_free_list (shuffle l);
  _ ← ensure (forallb (λ i, match m !! i with Some f => negb (bf_isHtBucket f) | None => false end) frames);
  qf ← push_all LogicError frames qf;
  _ ← ensure (dramPoolNumberPages <? ssdPages);
  l ← range_elements 1 ssdPages ((λ i, mkPID nodeId (Z.of_nat i)) <$> seq 0 (Z.to_nat ssdPages));
  qi ← push_all EnsureFailed (filter (λ pid, pid ≠ CATALOG_PID) l) qi;
  let s := mkBM m size nodeId qf qp qi 0 in
  if nodeId =? CATALOG_OWNER then
    '(page, q) ← bag_pop 1 (pageFreeList s);
    '(i, s) ← insertFrame 1 t CATALOG_PID (init_newPage t nodeId CATALOG_PID page None) (with_pages q s);
    f ← get_frame s i;
    '(_, f) ← on_latch t HybridLatch.unlatchExclusive f;
    Ok (put_frame i f s)
  else Ok s.

(** [readPageSync]: the number of bytes each [pread] returns is an argument. *)
Definition PAGE_SIZE : Z := 512.
Fixpoint read_loop (reads : list Z) (plain bytes_left : Z) : result (list (Z * Z)) :=
  match reads with
  | [] => Throw WouldBlock
  | n :: reads =>
      let req := (plain * PAGE_SIZE + (PAGE_SIZE - bytes_left), bytes_left) in
      let bytes_left := bytes_left - n in
      if 0 <? bytes_left then rest ← read_loop reads plain bytes_left; Ok (req :: rest) else Ok [req]
  end.
Definition readPageSync (reads : list Z) (destination pid : Z) : result (list (Z * Z)) :=
  _ ← ensure (destination `mod` 512 =? 0);
  read_loop reads (plainPID pid) PAGE_SIZE.

(** One frame in the first pass of [writeAllPages]: whether it has to be
    retried, and the page id that is written. *)
Definition write_frame (t : nat) (nodeId : Z) (f : BufferFrame) : result (bool * option Z * BufferFrame) :=
  if (getOwner (bf_pid f) =? nodeId) && bool_decide (bf_state f = HOT) then
    '(ok, f) ← on_latch t HybridLatch.tryLatchExclusive f;
    if negb ok then Ok (true, None, f)
    else
      let '(w, f) := if bf_dirty f then (Some (bf_pid f), set_dirty false f) else (None, f) in
      '(_, f) ← on_latch t HybridLatch.unlatchExclusive f;
      Ok (false, w, f)
  else Ok (false, None, f).

(** One frame of the retry list. *)
Definition retry_frame (t : nat) (f : BufferFrame) : result (option Z * BufferFrame) :=
  '(ok, f) ← on_latch t HybridLatch.tryLatchExclusive f;
  if negb ok then Throw RuntimeError
  else
    let '(w, f) := if bf_dirty f then (Some (bf_pid f), set_dirty false f) else (None, f) in
    '(_, f) ← on_latch t HybridLatch.unlatchExclusive f;
    Ok (w, f).

Fixpoint write_pass (t : nat) (l : list nat) s : result (list nat * list Z * BM) :=
  match l with
  | [] => Ok ([], [], s)
  | i :: l =>
      f ← get_frame s i;
      '(again, w, f) ← write_frame t (bm_nodeId s) f;
      '(retry, ws, s) ← write_pass t l (put_frame i f s);
      Ok (if (again : bool) then i :: retry else retry, option_list w ++ ws, s)
  end.
Fixpoint retry_pass (t : nat) (l : list nat) s : result (list Z * BM) :=
  match l with
  | [] => Ok ([], s)
  | i :: l =>
      f ← get_frame s i;
      '(w, f) ← retry_frame t f;
      '(ws, s) ← retry_pass t l (put_frame i f s);
      Ok (option_list w ++ ws, s)
  end.

(** A worker of [writeAllPages] on the frames [bf_b .. bf_e - 1]: the page ids
    written, in order. *)
Definition writeAllPages (t : nat) (bf_b bf_e : nat) s : result (list Z * BM) :=
  '(retry, ws, s) ← write_pass t (seq bf_b (bf_e - bf_b)) s;
  '(ws', s) ← retry_pass t retry s;
  Ok (ws ++ ws', s).

(** [reportHashTableStats] up to its output. *)
Record HtStats := mkStats { bucket_count : Z; overflows : Z; bucket_empty_but_overflow : Z; chain_length : list Z }.

Fixpoint chain_count (fuel : nat) s i : result nat :=
  match fuel with
  | O => Throw OutOfFuel
  | S n =>
      f ← get_frame s i;
      match bf_next f with None => Ok O | Some j => k ← chain_count n s j; Ok (S k) end
  end.

Definition bucket_stats s (st : HtStats) b : result HtStats :=
  bucket ← get_frame s b;
  _ ← ensure (bf_isHtBucket bucket);
  let used := negb (bf_pid bucket =? EMPTY_PID) in
  over ← chain_count (chain_fuel s) s b;
  let length := ((if used then 1 else 0) + over)%nat in
  _ ← ensure (bool_decide (length < 100)%nat);
  n ← arr_get (chain_length st) length;
  cl ← arr_set (chain_length st) length (n +₆₄ 1);
  Ok (mkStats (bucket_count st +₆₄ (if used then 1 else 0)) (overflows st +₆₄ Z.of_nat over)
        (bucket_empty_but_overflow st +₆₄ (if negb used && bool_decide (1 < length)%nat then 1 else 0)) cl).

Fixpoint stats_loop s (l : list nat) (st : HtStats) : result HtStats :=
  match l with [] => Ok st | b :: l => st ← bucket_stats s st b; stats_loop s l st end.
Definition reportHashTableStats s : result HtStats :=
  stats_loop s (seq 0 (Z.to_nat (pt_size s))) (mkStats 0 0 0 (replicate 100 0)).

End buffermanager.
