(* ===== verification/PageTableInv.v ===== *)
(** * The invariant of the page table

    Chains as lists, the well-formedness of the table with its free frames, and
    how the four elementary changes of the table (a page enters or leaves a
    bucket or a chain) preserve it. *)

From S2P Require Import Prelude Defs Bitmap Latch BufferFrame Bag PageTable.
Local Open Scope Z_scope.
#[local] Opaque EMPTY_PID bucket_of FasterHash latch_ok.

(** The frames behind [i] are [l], in order. *)
Fixpoint linked (fs : gmap nat BufferFrame) (i : nat) (l : list nat) : Prop :=
  ∃ f, fs !! i = Some f ∧
    match l with [] => bf_next f = None | j :: l' => bf_next f = Some j ∧ linked fs j l' end.

Section linked.
Implicit Types (fs : gmap nat BufferFrame) (i j x : nat) (l : list nat).

Lemma linked_is_Some fs i l j : linked fs i l → j ∈ i :: l → is_Some (fs !! j).
Proof.
  revert i. induction l as [|k l IH]; intros i (f & Hf & Hl) [->|Hj]%elem_of_cons; try by eexists.
  - by apply elem_of_nil in Hj.
  - by eapply IH; [apply Hl|].
Qed.

Lemma linked_same_next fs fs' i l :
  linked fs i l →
  (∀ j f, j ∈ i :: l → fs !! j = Some f → ∃ f', fs' !! j = Some f' ∧ bf_next f' = bf_next f) → linked fs' i l.
Proof.
  revert i. induction l as [|k l IH]; intros i (f & Hf & Hl) Hs;
    (destruct (Hs i f) as (f' & Hf' & Hn); [left|done|]); exists f'; (split; [done|]); rewrite Hn.
  - done.
  - destruct Hl as [? Hl]. split; [done|]. apply IH; [done|]. intros j g Hj. apply Hs. by right.
Qed.

Lemma linked_insert_ne fs i l x f : x ∉ i :: l → linked fs i l → linked (<[x := f]> fs) i l.
Proof.
  intros Hx Hl. eapply linked_same_next; [done|]. intros j g Hj Hg. exists g. split; [|done].
  rewrite lookup_insert_ne by (intros ->; done). done.
Qed.

Lemma linked_app fs i l1 x l2 : linked fs i (l1 ++ x :: l2) → linked fs x l2.
Proof.
  revert i. induction l1 as [|k l1 IH]; intros i (f & Hf & Hn & Hl); [done|]. by eapply IH.
Qed.

(** The end of the first part of a chain. *)
Definition chain_last (i : nat) (l : list nat) : nat := default i (last l).
Lemma chain_last_cons i k l : chain_last i (k :: l) = chain_last k l.
Proof. unfold chain_last. rewrite last_cons. by destruct (last l). Qed.
Lemma chain_last_elem i l : chain_last i l ∈ i :: l.
Proof.
  revert i. induction l as [|k l IH]; intros i; [by left|]. rewrite chain_last_cons. right. apply IH.
Qed.

Lemma linked_snoc fs i l x fl f :
  linked fs i l → NoDup (i :: l) → x ∉ i :: l → fs !! chain_last i l = Some fl → bf_next f = None →
  linked (<[x := f]> (<[chain_last i l := BufferFrame.set_next (Some x) fl]> fs)) i (l ++ [x]).
Proof.
  revert i. induction l as [|k l IH]; intros i (g & Hg & Hl) Hnd Hx Hlast Hf.
  - apply not_elem_of_cons in Hx as [Hx _]. unfold chain_last in *. simpl in *. simplify_eq.
    exists (BufferFrame.set_next (Some x) g). rewrite lookup_insert_ne, lookup_insert_eq by done. split; [done|].
    split; [done|]. exists f. by rewrite lookup_insert_eq.
  - rewrite chain_last_cons in *. apply NoDup_cons in Hnd as [Hi Hnd].
    apply not_elem_of_cons in Hx as [Hx Hxl]. destruct Hl as [Hn Hl].
    exists g. rewrite !lookup_insert_ne; [|by intros E; apply Hi; rewrite <- E; apply chain_last_elem|done].
    split; [done|]. split; [done|]. by apply IH.
Qed.

Lemma linked_unlink fs i l1 x l2 fp fx :
  linked fs i (l1 ++ x :: l2) → NoDup (i :: l1 ++ x :: l2) →
  fs !! chain_last i l1 = Some fp → fs !! x = Some fx →
  bf_next fp = Some x ∧
  linked (<[chain_last i l1 := BufferFrame.set_next (bf_next fx) fp]> fs) i (l1 ++ l2).
Proof.
  revert i. induction l1 as [|k l1 IH]; intros i Hl Hnd Hp Hx.
  - unfold chain_last in *. simpl in *. apply NoDup_cons in Hnd as [Hi Hnd]. apply not_elem_of_cons in Hi as [Hix Hi].
    destruct l2 as [|y l2]; destruct Hl as (f & Hf & Hn & g & Hg & Hl);
      (assert (f = fp) as -> by congruence); (assert (g = fx) as -> by congruence); (split; [done|]).
    + exists (BufferFrame.set_next (bf_next fx) fp). by rewrite lookup_insert_eq.
    + destruct Hl as [Hny Hl]. exists (BufferFrame.set_next (bf_next fx) fp). rewrite lookup_insert_eq.
      split; [done|]. split; [done|]. by apply linked_insert_ne.
  - rewrite chain_last_cons in *. destruct Hl as (f & Hf & Hn & Hl). simpl in Hnd. apply NoDup_cons in Hnd as [Hi Hnd].
    destruct (IH k Hl Hnd Hp Hx) as [? Hl']. split; [done|]. exists f.
    assert (chain_last k l1 ≠ i).
    { intros E. apply Hi. pose proof (chain_last_elem k l1) as He. rewrite E in He. set_solver. }
    by rewrite lookup_insert_ne.
Qed.

Lemma linked_length fs i l : linked fs i l → NoDup (i :: l) → (length l < size fs)%nat.
Proof.
  intros Hl Hnd. change (length l) with (pred (length (i :: l))).
  assert (length (i :: l) ≤ size fs)%nat; [|simpl in *; lia].
  rewrite <- size_dom. rewrite <- (size_list_to_set (C:=gset nat)) by done. apply subseteq_size.
  intros j Hj. rewrite elem_of_list_to_set in Hj. apply elem_of_dom. by eapply linked_is_Some.
Qed.

End linked.

Section inv.
Context {QF QP QI : Type} `{!FreeBag QF nat, !FreeBag QP nat, !FreeBag QI Z}.
Notation BM := (@BM QF QP QI).
Implicit Types (s : BM) (i b : nat) (pid : Z) (ch : nat → list nat).

Definition is_bucket s b : Prop := Z.of_nat b < pt_size s.

(** The table with the chains [ch]. *)
Record wf s ch : Prop := {
  wf_size : ∃ k, 0 <= k < 64 ∧ pt_size s = 2 ^ k;
  wf_buckets b : is_bucket s b → is_Some (bfs s !! b);
  wf_isHt i f : bfs s !! i = Some f → bf_isHtBucket f = (Z.of_nat i <? pt_size s);
  wf_linked b : is_bucket s b → linked (bfs s) b (ch b);
  wf_nodup b : is_bucket s b → NoDup (ch b);
  wf_disj b b' i : is_bucket s b → is_bucket s b' → i ∈ ch b → i ∈ ch b' → b = b';
  wf_chained b i f : is_bucket s b → i ∈ ch b → bfs s !! i = Some f → ¬ is_bucket s i ∧ bf_state f ≠ FREE;
  wf_pid b i f : is_bucket s b → i ∈ b :: ch b → bfs s !! i = Some f → bf_state f ≠ FREE →
    bf_pid f ≠ EMPTY_PID ∧ bucket_of (pt_size s) (bf_pid f) = b;
  wf_uniq b i j f g : is_bucket s b → i ∈ b :: ch b → j ∈ b :: ch b → bfs s !! i = Some f → bfs s !! j = Some g →
    bf_state f ≠ FREE → bf_state g ≠ FREE → bf_pid f = bf_pid g → i = j;
  wf_free i f : bfs s !! i = Some f → bf_state f = FREE →
    bf_pid f = EMPTY_PID ∧ latch_ok (bf_latch f) ∧ sh_mutex (bf_latch f) = MFree;
  wf_bag : bag_ok (frameFreeList s);
  wf_bag_nodup : NoDup (bag_contents (frameFreeList s));
  wf_bag_frame i : i ∈ bag_contents (frameFreeList s) →
    ∃ f, bfs s !! i = Some f ∧ bf_state f = FREE ∧ bf_next f = None ∧ ¬ is_bucket s i;
}.

(** Page [pid] is in frame [i]. *)
Definition maps s ch pid i : Prop :=
  ∃ f, i ∈ bucket_of (pt_size s) pid :: ch (bucket_of (pt_size s) pid) ∧ bfs s !! i = Some f ∧
    bf_state f ≠ FREE ∧ bf_pid f = pid.

(** The table as a finite map. *)
Definition table s (M : gmap Z nat) : Prop :=
  ∃ ch, wf s ch ∧ ∀ pid i, M !! pid = Some i ↔ maps s ch pid i.

Lemma bucket_of_bucket s pid ch : wf s ch → is_bucket s (bucket_of (pt_size s) pid).
Proof.
  intros Hw. with_strategy transparent [bucket_of] unfold is_bucket, bucket_of. destruct (wf_size _ _ Hw) as (k & Hk & ->).
  assert (2 ^ k < 2 ^ 64) by (apply Z.pow_lt_mono_r; lia).
  assert (0 < 2 ^ k) by (apply Z.pow_pos_nonneg; lia).
  rewrite (u64_small (2 ^ k - 1)) by lia. rewrite land_ones_mod by lia.
  pose proof (Z.mod_pos_bound (FasterHash pid) (2 ^ k) ltac:(lia)) as Hm. rewrite Z2Nat.id by apply Hm. apply Hm.
Qed.

(** What the table depends on of a frame. *)
Definition same_core (f f' : BufferFrame) : Prop :=
  bf_next f' = bf_next f ∧ bf_pid f' = bf_pid f ∧ bf_state f' = bf_state f ∧ bf_isHtBucket f' = bf_isHtBucket f ∧
  (bf_state f = FREE → bf_latch f' = bf_latch f).
Definition core_eq (fs fs' : gmap nat BufferFrame) : Prop := ∀ i, option_Forall2 same_core (fs !! i) (fs' !! i).

Lemma same_core_refl f : same_core f f.
Proof. by split_and!. Qed.
Lemma core_eq_refl fs : core_eq fs fs.
Proof. intros i. destruct (fs !! i); constructor. apply same_core_refl. Qed.
Lemma core_eq_insert fs i f f' : fs !! i = Some f → same_core f f' → core_eq fs (<[i := f']> fs).
Proof.
  intros Hf Hc j. destruct (decide (i = j)) as [->|].
  - rewrite lookup_insert_eq, Hf. by constructor.
  - rewrite lookup_insert_ne by done. apply core_eq_refl.
Qed.
Lemma core_eq_lookup fs fs' i f' : core_eq fs fs' → fs' !! i = Some f' → ∃ f, fs !! i = Some f ∧ same_core f f'.
Proof. intros Hc Hf. specialize (Hc i). rewrite Hf in Hc. inversion Hc; eauto. Qed.
Lemma core_eq_lookup' fs fs' i f : core_eq fs fs' → fs !! i = Some f → ∃ f', fs' !! i = Some f' ∧ same_core f f'.
Proof. intros Hc Hf. specialize (Hc i). rewrite Hf in Hc. inversion Hc; eauto. Qed.

Lemma linked_core fs fs' i l : core_eq fs fs' → linked fs i l → linked fs' i l.
Proof.
  intros Hc Hl. eapply linked_same_next; [done|]. intros j f _ Hf.
  destruct (core_eq_lookup' _ _ _ _ Hc Hf) as (f' & Hf' & Hn & _). eauto.
Qed.

(** The invariant only sees the core of the frames. *)
Lemma wf_core s s' ch : wf s ch → core_eq (bfs s) (bfs s') → pt_size s' = pt_size s →
  frameFreeList s' = frameFreeList s → wf s' ch.
Proof.
  intros [] Hc Hsz Hq. unfold is_bucket in *. constructor; unfold is_bucket; rewrite ?Hsz, ?Hq; try done.
  - intros b Hbk. destruct (wf_buckets0 b Hbk) as [f Hf]. destruct (core_eq_lookup' _ _ _ _ Hc Hf) as (? & ? & _). eauto.
  - intros i f Hf. destruct (core_eq_lookup _ _ _ _ Hc Hf) as (g & Hg & _ & _ & _ & -> & _). eauto.
  - intros b Hbk. eapply linked_core; eauto.
  - intros b i f Hbk Hi Hf. destruct (core_eq_lookup _ _ _ _ Hc Hf) as (g & Hg & _ & _ & -> & _). eauto.
  - intros b i f Hbk Hi Hf. destruct (core_eq_lookup _ _ _ _ Hc Hf) as (g & Hg & _ & -> & -> & _). eauto.
  - intros b i j f g Hbk Hi Hj Hf Hg.
    destruct (core_eq_lookup _ _ _ _ Hc Hf) as (f0 & Hf0 & _ & -> & -> & _).
    destruct (core_eq_lookup _ _ _ _ Hc Hg) as (g0 & Hg0 & _ & -> & -> & _). eauto.
  - intros i f Hf Hst. destruct (core_eq_lookup _ _ _ _ Hc Hf) as (g & Hg & _ & Hp & Hs & _ & Hl).
    rewrite Hs in Hst. rewrite Hp, (Hl Hst). eauto.
  - intros i Hi. destruct (wf_bag_frame0 i Hi) as (f & Hf & Hs & Hn & ?).
    destruct (core_eq_lookup' _ _ _ _ Hc Hf) as (g & Hg & ? & _ & ? & _). exists g.
    split_and!; try done; congruence.
Qed.

Lemma maps_core s s' ch pid i : core_eq (bfs s) (bfs s') → pt_size s' = pt_size s → maps s' ch pid i ↔ maps s ch pid i.
Proof.
  unfold maps. intros Hc ->. split; intros (f & Hi & Hf & Hs & Hp).
  - destruct (core_eq_lookup _ _ _ _ Hc Hf) as (g & Hg & _ & ? & ? & _). exists g. split_and!; congruence.
  - destruct (core_eq_lookup' _ _ _ _ Hc Hf) as (g & Hg & _ & ? & ? & _). exists g. split_and!; congruence.
Qed.

Lemma table_core s s' M : core_eq (bfs s) (bfs s') → pt_size s' = pt_size s →
  frameFreeList s' = frameFreeList s → table s M → table s' M.
Proof.
  intros Hc Hsz Hq (ch & Hw & Hm). exists ch. split; [by eapply wf_core|].
  intros pid i. rewrite Hm. symmetry. by apply maps_core.
Qed.

Lemma wf_slot s ch b i f : wf s ch → is_bucket s b → i ∈ b :: ch b → bfs s !! i = Some f →
  i = b ∨ ¬ is_bucket s i ∧ bf_state f ≠ FREE ∧ i ∈ ch b.
Proof.
  intros Hw Hb [->|Hi]%elem_of_cons Hf; [by left|right]. destruct (wf_chained _ _ Hw b i f) as [? ?]; try done.
Qed.

Lemma wf_chain_nodup s ch b : wf s ch → is_bucket s b → NoDup (b :: ch b).
Proof.
  intros Hw Hb. apply NoDup_cons. split; [|by eapply wf_nodup]. intros Hin.
  destruct (wf_buckets _ _ Hw b Hb) as [f Hf]. by destruct (wf_chained _ _ Hw b b f Hb Hin Hf).
Qed.

Lemma lookup_put (fs : gmap nat BufferFrame) i f' j g :
  <[i := f']> fs !! j = Some g → i = j ∧ g = f' ∨ i ≠ j ∧ fs !! j = Some g.
Proof. rewrite lookup_insert_Some. naive_solver. Qed.

(** Change of the page in one frame of the table, the links left alone. *)
Section put.
Variables (s : BM) (ch : nat → list nat) (M : gmap Z nat) (b i : nat) (f f' : BufferFrame).
Hypotheses (Hw : wf s ch) (HM : ∀ pid j, M !! pid = Some j ↔ maps s ch pid j).
Hypotheses (Hb : is_bucket s b) (Hi : bfs s !! i = Some f).
Hypotheses (Hn : bf_next f' = bf_next f) (Hh : bf_isHtBucket f' = bf_isHtBucket f).

Lemma linked_put b' : is_bucket s b' → linked (<[i := f']> (bfs s)) b' (ch b').
Proof.
  intros Hb'. eapply linked_same_next; [by apply (wf_linked _ _ Hw)|]. intros j g _ Hg.
  destruct (decide (i = j)) as [->|]; [rewrite lookup_insert_eq|rewrite lookup_insert_ne by done].
  - exists f'. split; [done|]. congruence.
  - by exists g.
Qed.

(** A page enters the bucket. *)
Lemma table_put_bucket pid : i = b → bf_state f = FREE → bf_state f' ≠ FREE → bf_pid f' = pid → pid ≠ EMPTY_PID →
  bucket_of (pt_size s) pid = b → M !! pid = None → table (put_frame b f' s) (<[pid := b]> M).
Proof.
  intros E Hfr Hst Hp Hne Hbk HMp. pose proof linked_put as Hlk. rewrite E in Hi, Hlk. clear E.
  assert (∀ b' j g, is_bucket s b' → j ∈ b' :: ch b' → bfs s !! j = Some g → bf_state g ≠ FREE → bf_pid g ≠ pid) as Hnew.
  { intros b' j g Hb' Hj Hg Hs E. destruct (wf_pid _ _ Hw b' j g) as [_ Hbp]; try done.
    assert (M !! pid = Some j); [|congruence]. apply HM. exists g. rewrite E, Hbk in Hbp. subst b'. by rewrite Hbk. }
  assert (∀ b', is_bucket s b' → b ∈ b' :: ch b' → b' = b) as Hbb.
  { intros b' Hb' Hin. destruct (wf_slot s ch b' b f Hw Hb' Hin Hi) as [->|(? & _)]; done. }
  exists ch. split; [|].
  - destruct Hw. constructor; simpl.
    + exact wf_size0.
    + intros b' Hb'. apply lookup_insert_is_Some'. right. by apply wf_buckets0.
    + intros j g [[-> ->]|[? Hg]]%lookup_put; [rewrite Hh|]; by apply wf_isHt0.
    + exact Hlk.
    + exact wf_nodup0.
    + exact wf_disj0.
    + intros b' j g Hb' Hj [[<- ->]|[? Hg]]%lookup_put; [|by eapply wf_chained0].
      exfalso. by destruct (wf_chained0 b' b f Hb' Hj Hi).
    + intros b' j g Hb' Hj [[<- ->]|[? Hg]]%lookup_put; [|by eapply wf_pid0].
      intros _. rewrite Hp. split; [done|]. by rewrite (Hbb b').
    + intros b' j k g1 g2 Hb' Hj Hk [[<- ->]|[? Hg1]]%lookup_put [[<- ->]|[? Hg2]]%lookup_put Hs1 Hs2 E; [done|..].
      * exfalso. eapply (Hnew b' k g2); try done. congruence.
      * exfalso. eapply (Hnew b' j g1); try done. congruence.
      * by eapply wf_uniq0.
    + intros j g [[<- ->]|[? Hg]]%lookup_put; [done|by eapply wf_free0].
    + exact wf_bag0.
    + exact wf_bag_nodup0.
    + intros j Hj. destruct (wf_bag_frame0 j Hj) as (g & Hg & ? & ? & Hjb). exists g.
      rewrite lookup_insert_ne by (intros <-; by apply Hjb). by split_and!.
  - intros q j. rewrite lookup_insert_Some. unfold maps. simpl. split.
    + intros [[<- <-]|[Hq Hl]].
      * exists f'. rewrite lookup_insert_eq, Hbk. split; [by left|]. by split_and!.
      * apply HM in Hl as (g & Hj & Hg & Hs & E). exists g. split; [done|].
        rewrite lookup_insert_ne by (intros <-; congruence). by split_and!.
    + intros (g & Hj & [[<- ->]|[Hne' Hg]]%lookup_put & Hs & E); [left; by split; [congruence|]|right].
      split; [|apply HM; by exists g]. intros <-.
      eapply (Hnew (bucket_of (pt_size s) pid) j g); try done. by rewrite Hbk.
Qed.

(** The page of the bucket leaves. *)
Lemma table_clear_bucket : i = b → bf_state f ≠ FREE → bf_state f' = FREE → bf_pid f' = EMPTY_PID →
  latch_ok (bf_latch f') → sh_mutex (bf_latch f') = MFree →
  M !! bf_pid f = Some b ∧ table (put_frame b f' s) (delete (bf_pid f) M).
Proof.
  intros E Hst Hfr Hp Hl Hm. pose proof linked_put as Hlk. rewrite E in Hi, Hlk. clear E. destruct (wf_pid _ _ Hw b b f Hb) as [Hne Hbk]; [by left|done|done|].
  assert (M !! bf_pid f = Some b) as HMb by (apply HM; exists f; rewrite Hbk; (split; [by left|done])).
  split; [done|]. exists ch. split.
  - destruct Hw. constructor; simpl.
    + exact wf_size0.
    + intros b' Hb'. apply lookup_insert_is_Some'. right. by apply wf_buckets0.
    + intros j g [[-> ->]|[? Hg]]%lookup_put; [rewrite Hh|]; by apply wf_isHt0.
    + exact Hlk.
    + exact wf_nodup0.
    + exact wf_disj0.
    + intros b' j g Hb' Hj [[<- ->]|[? Hg]]%lookup_put; [|by eapply wf_chained0].
      exfalso. by destruct (wf_chained0 b' b f Hb' Hj Hi).
    + intros b' j g Hb' Hj [[<- ->]|[? Hg]]%lookup_put; [done|by eapply wf_pid0].
    + intros b' j k g1 g2 Hb' Hj Hk [[<- ->]|[? Hg1]]%lookup_put [[<- ->]|[? Hg2]]%lookup_put Hs1 Hs2 E; try done.
      by eapply wf_uniq0.
    + intros j g [[<- ->]|[? Hg]]%lookup_put; [done|by eapply wf_free0].
    + exact wf_bag0.
    + exact wf_bag_nodup0.
    + intros j Hj. destruct (wf_bag_frame0 j Hj) as (g & Hg & ? & ? & Hjb). exists g.
      rewrite lookup_insert_ne by (intros <-; by apply Hjb). by split_and!.
  - intros q j. rewrite lookup_delete_Some. unfold maps. simpl. split.
    + intros [Hq Hl']. apply HM in Hl' as (g & Hj & Hg & Hs & E). exists g.
      rewrite lookup_insert_ne by (intros <-; congruence). by split_and!.
    + intros (g & Hj & [[<- ->]|[Hne' Hg]]%lookup_put & Hs & E); [done|].
      split; [|apply HM; by exists g]. intros <-. rewrite Hbk in Hj.
      apply Hne'. eapply (wf_uniq _ _ Hw b b j f g); try done. by left.
Qed.

End put.

(** Changes of a chain. *)
Definition upd (b : nat) (l : list nat) ch : nat → list nat := λ b', if decide (b' = b) then l else ch b'.
Lemma upd_eq b l ch : upd b l ch b = l.
Proof. unfold upd. by rewrite decide_True. Qed.
Lemma upd_ne b b' l ch : b' ≠ b → upd b l ch b' = ch b'.
Proof. intros. unfold upd. by rewrite decide_False. Qed.

Lemma lookup_relink (fs : gmap nat BufferFrame) p n fp i f' j g : fs !! p = Some fp →
  <[i := f']> (<[p := BufferFrame.set_next n fp]> fs) !! j = Some g →
  j = i ∧ g = f' ∨ j ≠ i ∧ ∃ g0, fs !! j = Some g0 ∧ bf_pid g = bf_pid g0 ∧ bf_state g = bf_state g0 ∧
    bf_isHtBucket g = bf_isHtBucket g0 ∧ bf_latch g = bf_latch g0 ∧ (j ≠ p → g = g0).
Proof.
  intros Hp. rewrite !lookup_insert_Some. intros [[-> ->]|[Hji [[-> <-]|[? ?]]]]; [by left|right..]; (split; [done|]).
  - by exists fp.
  - by exists g.
Qed.
Lemma lookup_relink' (fs : gmap nat BufferFrame) p n fp i f' j g0 : fs !! p = Some fp → j ≠ i → fs !! j = Some g0 →
  ∃ g, <[i := f']> (<[p := BufferFrame.set_next n fp]> fs) !! j = Some g ∧ bf_pid g = bf_pid g0 ∧
    bf_state g = bf_state g0 ∧ bf_isHtBucket g = bf_isHtBucket g0 ∧ bf_latch g = bf_latch g0 ∧ (j ≠ p → g = g0).
Proof.
  intros Hp Hji Hg. rewrite lookup_insert_ne by done. destruct (decide (p = j)) as [->|].
  - rewrite lookup_insert_eq. eexists. split; [done|]. simplify_eq. by split_and!.
  - rewrite lookup_insert_ne by done. by exists g0.
Qed.

Section chain.
Variables (s : BM) (ch : nat → list nat) (M : gmap Z nat) (b : nat).
Hypotheses (Hw : wf s ch) (HM : ∀ pid j, M !! pid = Some j ↔ maps s ch pid j) (Hb : is_bucket s b).

Lemma free_unchained b' x f : is_bucket s b' → bfs s !! x = Some f → bf_state f = FREE → ¬ is_bucket s x → x ∉ b' :: ch b'.
Proof.
  intros Hb' Hf Hs Hx Hin. destruct (wf_slot s ch b' x f Hw Hb' Hin Hf) as [->|(_ & ? & _)]; done.
Qed.

(** A page enters at the end of the chain. *)
Lemma table_put_chain pid x q fl f' : bag_try_pop (frameFreeList s) = Ok (Some x, q) →
  bfs s !! chain_last b (ch b) = Some fl →
  bf_next f' = None → bf_isHtBucket f' = false → bf_state f' ≠ FREE → bf_pid f' = pid → pid ≠ EMPTY_PID →
  bucket_of (pt_size s) pid = b → M !! pid = None →
  table (put_frame x f' (put_frame (chain_last b (ch b)) (BufferFrame.set_next (Some x) fl) (with_frames q s)))
    (<[pid := x]> M).
Proof.
  intros Hpop Hfl Hn Hh Hst Hp Hne Hbk HMp.
  destruct (bag_pop_law _ (wf_bag _ _ Hw)) as (o & q' & Hpop' & Hq & HP). rewrite Hpop in Hpop'. simplify_eq Hpop'. intros <- <-.
  simpl in HP. pose proof (wf_bag_nodup _ _ Hw) as Hnd. rewrite HP in Hnd. apply NoDup_cons in Hnd as [Hxq Hnd].
  destruct (wf_bag_frame _ _ Hw x) as (fx & Hfx & Hsx & Hnx & Hxb); [rewrite HP; by left|].
  assert (∀ b', is_bucket s b' → x ∉ b' :: ch b') as Hxn by (intros; by eapply free_unchained).
  assert (∀ b' j g, is_bucket s b' → j ∈ b' :: ch b' → bfs s !! j = Some g → bf_state g ≠ FREE → bf_pid g ≠ pid) as Hnew.
  { intros b' j g Hb' Hj Hg Hs E. destruct (wf_pid _ _ Hw b' j g) as [_ Hbp]; try done.
    assert (M !! pid = Some j); [|congruence]. apply HM. exists g. rewrite E, Hbk in Hbp. subst b'. by rewrite Hbk. }
  set (p := chain_last b (ch b)) in *.
  assert (∀ b' j, is_bucket s b' → j ∈ upd b (ch b ++ [x]) ch b' → j ∈ ch b' ∨ j = x ∧ b' = b) as Hup.
  { intros b' j _. unfold upd. case_decide; [subst b'|by left]. rewrite elem_of_app, list_elem_of_singleton. naive_solver. }
  assert (∀ b' j, is_bucket s b' → j ∈ b' :: upd b (ch b ++ [x]) ch b' → j ∈ b' :: ch b' ∨ j = x ∧ b' = b) as Hup'.
  { intros b' j Hb' [->|Hj]%elem_of_cons; [left; by left|]. destruct (Hup b' j Hb' Hj); [left; by right|by right]. }
  exists (upd b (ch b ++ [x]) ch). split.
  - constructor; simpl.
    + apply (wf_size _ _ Hw).
    + intros b' Hb'. do 2 (apply lookup_insert_is_Some'; right). by apply (wf_buckets _ _ Hw).
    + intros j g [[-> ->]|(_ & g0 & Hg & _ & _ & -> & _)]%lookup_relink; [|by apply (wf_isHt _ _ Hw)|done].
      rewrite Hh. symmetry. apply Z.ltb_ge. unfold is_bucket in Hxb. lia.
    + intros b' Hb'. destruct (decide (b' = b)) as [->|Hne'].
      * rewrite upd_eq. apply linked_snoc; try done; [by apply (wf_linked _ _ Hw)|by eapply wf_chain_nodup|by apply Hxn].
      * rewrite upd_ne by done. apply linked_insert_ne; [by apply Hxn|].
        apply linked_insert_ne; [|by apply (wf_linked _ _ Hw)]. intros Hin.
        pose proof (chain_last_elem b (ch b)) as Hpe. fold p in Hpe.
        destruct (wf_slot s ch b' p fl Hw Hb' Hin Hfl) as [E|(Hpb & _ & Hpc)];
          destruct (wf_slot s ch b p fl Hw Hb Hpe Hfl) as [E'|(Hpb' & _ & Hpc')]; 
          [congruence|by apply Hpb'; rewrite E|by apply Hpb; rewrite E'|].
        apply Hne'. by eapply (wf_disj _ _ Hw b' b p).
    + intros b' Hb'. unfold upd. case_decide; [|by apply (wf_nodup _ _ Hw)].
      apply NoDup_app. split; [by apply (wf_nodup _ _ Hw)|]. split; [|apply NoDup_singleton].
      intros j Hj ->%list_elem_of_singleton. apply (Hxn b Hb). by right.
    + intros b1 b2 j Hb1 Hb2 Hj1 Hj2.
      destruct (Hup _ _ Hb1 Hj1) as [H1|[-> ->]]; destruct (Hup _ _ Hb2 Hj2) as [H2|[E2 ->]]; try done.
      * by eapply (wf_disj _ _ Hw).
      * subst j. exfalso. apply (Hxn b1 Hb1). by right.
      * exfalso. apply (Hxn b2 Hb2). by right.
    + intros b' j g Hb' Hj [[-> ->]|(Hjx & g0 & Hg & _ & -> & _)]%lookup_relink; [done| |done].
      destruct (Hup _ _ Hb' Hj) as [H1|[-> ->]]; [|done]. by eapply (wf_chained _ _ Hw b').
    + intros b' j g Hb' Hj [[-> ->]|(Hjx & g0 & Hg & -> & -> & _)]%lookup_relink; [| |done].
      * intros _. rewrite Hp. split; [done|]. destruct (Hup' _ _ Hb' Hj) as [H1|[_ ->]]; [|done].
        by destruct (Hxn b' Hb').
      * destruct (Hup' _ _ Hb' Hj) as [H1|[-> ->]]; [|done]. by eapply (wf_pid _ _ Hw).
    + intros b' j k g1 g2 Hb' Hj Hk [[-> ->]|(Hjx & h1 & Hg1 & -> & -> & _)]%lookup_relink
        [[-> ->]|(Hkx & h2 & Hg2 & -> & -> & _)]%lookup_relink Hs1 Hs2 E; try done.
      * destruct (Hup' _ _ Hb' Hk) as [H1|[-> ->]]; [|done]. exfalso. eapply (Hnew b' k h2); try done. congruence.
      * destruct (Hup' _ _ Hb' Hj) as [H1|[-> ->]]; [|done]. exfalso. eapply (Hnew b' j h1); try done. congruence.
      * destruct (Hup' _ _ Hb' Hj) as [H1|[-> ->]]; [|done]. destruct (Hup' _ _ Hb' Hk) as [H2|[-> ->]]; [|done].
        by eapply (wf_uniq _ _ Hw b').
    + intros j g [[-> ->]|(_ & g0 & Hg & -> & -> & _ & -> & _)]%lookup_relink; [done| |done]. by apply (wf_free _ _ Hw j).
    + done.
    + done.
    + intros j Hj. destruct (wf_bag_frame _ _ Hw j) as (g & Hg & Hs & Hnj & Hjb); [rewrite HP; by right|].
      assert (j ≠ x) as Hjx by (intros ->; done).
      destruct (lookup_relink' _ p (Some x) fl x f' j g Hfl Hjx Hg) as (g' & Hg' & _ & _ & _ & _ & Heq).
      rewrite Heq in Hg'; [by exists g|]. intros ->. pose proof (chain_last_elem b (ch b)) as Hpe. fold p in Hpe.
      by eapply (free_unchained b p g).
  - intros r j. rewrite lookup_insert_Some. unfold maps. simpl. split.
    + intros [[<- <-]|[Hr Hl]].
      * exists f'. rewrite lookup_insert_eq, Hbk, upd_eq. split_and!; try done. right. apply elem_of_app. right. by left.
      * apply HM in Hl as (g & Hj & Hg & Hs & E).
        assert (j ≠ x) as Hjx by (intros ->; congruence).
        destruct (lookup_relink' _ p (Some x) fl x f' j g Hfl Hjx Hg) as (g' & Hg' & ? & ? & _).
        exists g'. split_and!; try done; try congruence. apply elem_of_cons in Hj as [->|Hj]; [by left|right].
        unfold upd. case_decide as Hd; [|done]. rewrite <- Hd. apply elem_of_app. by left.
    + intros (g & Hj & [[-> ->]|(Hjx & g0 & Hg & Hgp & Hgs & _)]%lookup_relink & Hs & E); [left; by split; [congruence|]| |done].
      right. rewrite Hgs in Hs. assert (j ∈ bucket_of (pt_size s) r :: ch (bucket_of (pt_size s) r)) as Hj'.
      { apply elem_of_cons in Hj as [->|Hj]; [by left|]. destruct (Hup (bucket_of (pt_size s) r) j) as [H1|[-> _]]; try done; [by eapply bucket_of_bucket|by right]. }
      split; [|apply HM; exists g0; split_and!; try done; congruence]. intros <-.
      eapply (Hnew (bucket_of (pt_size s) pid) j g0); try done; [by eapply bucket_of_bucket|congruence].
Qed.

(** The page of a chained frame leaves; the frame goes back to the free list
    [q] or, when it refuses, is lost. *)
Lemma table_clear_chain i l1 l2 f fp f' q ok : ch b = l1 ++ i :: l2 → bfs s !! i = Some f →
  bfs s !! chain_last b l1 = Some fp →
  bf_next f' = None → bf_isHtBucket f' = bf_isHtBucket f → bf_state f' = FREE → bf_pid f' = EMPTY_PID →
  latch_ok (bf_latch f') → sh_mutex (bf_latch f') = MFree →
  bag_try_push i (frameFreeList s) = Ok (ok, q) →
  M !! bf_pid f = Some i ∧
  table (with_frames q (put_frame i f' (put_frame (chain_last b l1) (BufferFrame.set_next (bf_next f) fp) s)))
    (delete (bf_pid f) M).
Proof.
  intros Hch Hf Hfp Hn Hh Hst Hp Hl Hm Hpush.
  destruct (bag_push_law i _ (wf_bag _ _ Hw)) as (ok' & q' & Hpush' & Hq & HP). rewrite Hpush in Hpush'.
  simplify_eq Hpush'. intros <- <-. clear Hpush'.
  assert (i ∈ ch b) as Hib by (rewrite Hch; set_solver).
  assert (i ∈ b :: ch b) as Hib' by (by right).
  destruct (wf_chained _ _ Hw b i f Hb Hib Hf) as [Hni Hsi].
  destruct (wf_pid _ _ Hw b i f Hb Hib' Hf Hsi) as [Hne Hbk].
  pose proof (wf_chain_nodup s ch b Hw Hb) as Hnd. rewrite Hch in Hnd.
  set (p := chain_last b l1) in *.
  assert (p ∈ b :: l1) as Hpe by apply chain_last_elem.
  assert (p ∈ b :: ch b) as Hpe' by (rewrite Hch; set_solver).
  assert (p ≠ i) as Hpi.
  { intros E. rewrite E in Hpe. apply NoDup_cons in Hnd as [Hbn Hnd]. apply elem_of_cons in Hpe as [->|Hpe]; [set_solver|].
    apply NoDup_app in Hnd as (_ & Hnd & _). apply (Hnd i Hpe). by left. }
  assert (∀ b' j, j ∈ upd b (l1 ++ l2) ch b' → j ∈ ch b') as Hup.
  { intros b' j. unfold upd. case_decide; [subst b'; rewrite Hch, !elem_of_app, elem_of_cons; tauto|done]. }
  assert (∀ b' j, j ∈ b' :: upd b (l1 ++ l2) ch b' → j ∈ b' :: ch b') as Hup'.
  { intros b' j [->|Hj]%elem_of_cons; [by left|right; by apply Hup]. }
  assert (∀ b', is_bucket s b' → i ∉ b' :: upd b (l1 ++ l2) ch b') as Hiu.
  { intros b' Hb' Hin. destruct (decide (b' = b)) as [->|Hbb].
    - rewrite upd_eq in Hin. apply NoDup_cons in Hnd as [Hbn Hnd]. apply NoDup_app in Hnd as (_ & Hnd & Hnd2).
      apply NoDup_cons in Hnd2 as [Hi2 _]. apply elem_of_cons in Hin as [->|[Hin|Hin]%elem_of_app]; [set_solver| |done].
      apply (Hnd i Hin). by left.
    - rewrite upd_ne in Hin by done. destruct (wf_slot s ch b' i f Hw Hb' Hin Hf) as [->|(_ & _ & Hic)]; [done|].
      apply Hbb. by eapply (wf_disj _ _ Hw b' b i). }
  destruct (linked_unlink (bfs s) b l1 i l2 fp f) as [_ Hlk]; [rewrite <- Hch; by apply (wf_linked _ _ Hw)|done|done|done|].
  split; [apply HM; exists f; rewrite Hbk; by split_and!|].
  exists (upd b (l1 ++ l2) ch). split.
  - constructor; simpl.
    + apply (wf_size _ _ Hw).
    + intros b' Hb'. do 2 (apply lookup_insert_is_Some'; right). by apply (wf_buckets _ _ Hw).
    + intros j g [[-> ->]|(_ & g0 & Hg & _ & _ & -> & _)]%lookup_relink; [rewrite Hh|..];
        [by apply (wf_isHt _ _ Hw)..|done].
    + intros b' Hb'. apply linked_insert_ne; [by apply Hiu|]. destruct (decide (b' = b)) as [->|Hbb].
      * by rewrite upd_eq.
      * rewrite upd_ne by done. apply linked_insert_ne; [|by apply (wf_linked _ _ Hw)]. intros Hin.
        destruct (wf_slot s ch b' p fp Hw Hb' Hin Hfp) as [E|(Hpb & _ & Hpc)];
          destruct (wf_slot s ch b p fp Hw Hb Hpe' Hfp) as [E'|(Hpb' & _ & Hpc')];
          [congruence|by apply Hpb'; rewrite E|by apply Hpb; rewrite E'|].
        apply Hbb. by eapply (wf_disj _ _ Hw b' b p).
    + intros b' Hb'. unfold upd. case_decide; [|by apply (wf_nodup _ _ Hw)].
      apply NoDup_cons in Hnd as [_ Hnd]. rewrite NoDup_app, NoDup_cons in Hnd. apply NoDup_app.
      destruct Hnd as (? & Hd & ? & ?). split_and!; try done. intros j Hj Hj'. apply (Hd j Hj). by right.
    + intros b1 b2 j Hb1 Hb2 Hj1%Hup Hj2%Hup. by eapply (wf_disj _ _ Hw).
    + intros b' j g Hb' Hj [[-> ->]|(Hji & g0 & Hg & _ & -> & _)]%lookup_relink; [| |done].
      * exfalso. apply (Hiu b' Hb'). by right.
      * eapply (wf_chained _ _ Hw b'); [done|by apply Hup|done].
    + intros b' j g Hb' Hj [[-> ->]|(Hji & g0 & Hg & -> & -> & _)]%lookup_relink; [done| |done].
      eapply (wf_pid _ _ Hw b'); [done|by apply Hup'|done].
    + intros b' j k g1 g2 Hb' Hj Hk [[-> ->]|(Hji & h1 & Hg1 & -> & -> & _)]%lookup_relink
        [[-> ->]|(Hki & h2 & Hg2 & -> & -> & _)]%lookup_relink Hs1 Hs2 E; try done.
      eapply (wf_uniq _ _ Hw b'); eauto.
    + intros j g [[-> ->]|(_ & g0 & Hg & -> & -> & _ & -> & _)]%lookup_relink; [done| |done]. by apply (wf_free _ _ Hw j).
    + done.
    + rewrite HP. destruct ok; simpl; [|by apply (wf_bag_nodup _ _ Hw)]. apply NoDup_cons. split; [|by apply (wf_bag_nodup _ _ Hw)].
      intros Hin. destruct (wf_bag_frame _ _ Hw i Hin) as (g & Hg & Hs & _). congruence.
    + intros j Hj. rewrite HP in Hj. destruct (decide (j = i)) as [->|Hji].
      { exists f'. rewrite lookup_insert_eq. by split_and!. }
      assert (j ∈ bag_contents (frameFreeList s)) as Hj' by (destruct ok; set_solver).
      destruct (wf_bag_frame _ _ Hw j Hj') as (g & Hg & Hs & Hnj & Hjb).
      destruct (lookup_relink' _ p (bf_next f) fp i f' j g Hfp Hji Hg) as (g' & Hg' & _ & _ & _ & _ & Heq).
      rewrite Heq in Hg'; [by exists g|]. intros ->. by eapply (free_unchained b p g).
  - intros r j. rewrite lookup_delete_Some. unfold maps. simpl. split.
    + intros [Hr Hl']. apply HM in Hl' as (g & Hj & Hg & Hs & E).
      assert (j ≠ i) as Hji by (intros ->; congruence).
      destruct (lookup_relink' _ p (bf_next f) fp i f' j g Hfp Hji Hg) as (g' & Hg' & ? & ? & _).
      exists g'. split_and!; try done; try congruence. apply elem_of_cons in Hj as [->|Hj]; [by left|right].
      unfold upd. case_decide as Hd; [|done]. rewrite Hd, Hch in Hj.
      apply elem_of_app in Hj as [?|[->|?]%elem_of_cons]; [..|done|]; apply elem_of_app; auto.
    + intros (g & Hj & [[-> ->]|(Hji & g0 & Hg & Hgp & Hgs & _)]%lookup_relink & Hs & E); [done| |done].
      rewrite Hgs in Hs. split.
      * intros <-. apply Hji. symmetry. rewrite Hbk in Hj. eapply (wf_uniq _ _ Hw b i j f g0); try done; [by apply Hup'|congruence].
      * apply HM. exists g0. split_and!; [by apply Hup'|done|done|congruence].
Qed.

End chain.

End inv.
