(* ===== verification/PageTableSpec.v ===== *)
(** * The page table refines a finite map

    [insertFrame] and [removeFrame] against the map from page ids to frames,
    and the allocation and reclamation of pages built on them. *)

From S2P Require Import Prelude Defs Bitmap Latch BufferFrame Bag Memory PageTable PageTableInv.
Local Open Scope Z_scope.
Import OptimisticLatch.
#[local] Opaque EMPTY_PID bucket_of FasterHash latch_ok.
#[local] Arguments u64 : simpl never.
#[local] Arguments isLatched : simpl never.

Section ht.
Variable t : nat.
Implicit Types l : shared.

Lemma run_ol_try l : run t ol_tryLatchExclusive l =
  Ok (if isLatched (sh_version l) then (false, l) else (true, set_version (sh_version l +₆₄ 2) l)).
Proof.
  unfold ol_tryLatchExclusive, ol_optimisticLatchOrRestart, upgradeToExclusiveLatch, load. simpl.
  destruct (isLatched (sh_version l)) eqn:E; simpl; [done|]. rewrite E. simpl. by rewrite Z.eqb_refl.
Qed.

Lemma run_ol_un l : isLatched (sh_version l) = true →
  run t ol_unlatchExclusive l = Ok (tt, set_version (sh_version l +₆₄ 2) l).
Proof. intros E. unfold ol_unlatchExclusive, ol_isLatched_now, load, store, pensure. simpl. by rewrite E. Qed.

(** The latch of a bucket after it was taken and after it was released. *)
Definition ht_lock l : shared := set_version (sh_version l +₆₄ 2) l.
Lemma ht_lock_latched l : isLatched (sh_version (ht_lock l)) = negb (isLatched (sh_version l)).
Proof. apply isLatched_add2. Qed.

End ht.
#[local] Arguments ht_lock : simpl never.

Section spec.
Context `{!Build} {QF QP QI : Type} `{!FreeBag QF nat, !FreeBag QP nat, !FreeBag QI Z}.
Notation BM := (@BM QF QP QI).
Implicit Types (s : BM) (i b t n : nat) (pid : Z) (M : gmap Z nat).

(** No bucket latch is held, apart from those in [X]. *)
Definition quiet_except (X : nat → Prop) s : Prop :=
  ∀ i f, bfs s !! i = Some f → ¬ X i → isLatched (sh_version (bf_ht_latch f)) = false.
Definition quiet s : Prop := quiet_except (λ _, False) s.

Lemma quiet_put (X Y : nat → Prop) i f s : quiet_except X s → (∀ j, X j → Y j ∨ j = i) →
  (Y i ∨ isLatched (sh_version (bf_ht_latch f)) = false) → quiet_except Y (put_frame i f s).
Proof.
  intros Hq HXY Hf j g Hg HY. simpl in Hg. apply lookup_put in Hg as [[<- ->]|[Hne Hg]].
  - by destruct Hf.
  - apply (Hq j g Hg). intros HX. destruct (HXY j HX); [done|congruence].
Qed.

Lemma get_frame_eq s i f : bfs s !! i = Some f → get_frame s i = Ok f.
Proof. unfold get_frame. by intros ->. Qed.

Lemma latch_bucket_eq t b s f : bfs s !! b = Some f → isLatched (sh_version (bf_ht_latch f)) = false →
  on_bucket t ol_tryLatchExclusive b s = Ok (true, put_frame b (set_ht_latch (ht_lock (bf_ht_latch f)) f) s).
Proof. intros Hf Hl. unfold on_bucket, on_ht. rewrite (get_frame_eq _ _ _ Hf). cbn [mbind result_bind]. by rewrite run_ol_try, Hl. Qed.

Lemma on_ht_un t f : isLatched (sh_version (bf_ht_latch f)) = true →
  on_ht t ol_unlatchExclusive f = Ok (tt, set_ht_latch (ht_lock (bf_ht_latch f)) f).
Proof. intros Hl. unfold on_ht. by rewrite run_ol_un. Qed.

Lemma unlatch_bucket_eq t b s f : bfs s !! b = Some f → isLatched (sh_version (bf_ht_latch f)) = true →
  on_bucket t ol_unlatchExclusive b s = Ok (tt, put_frame b (set_ht_latch (ht_lock (bf_ht_latch f)) f) s).
Proof. intros Hf Hl. unfold on_bucket. rewrite (get_frame_eq _ _ _ Hf). cbn [mbind result_bind]. by rewrite on_ht_un. Qed.

Lemma tail_slot_spec fuel s pid i l : linked (bfs s) i l → (length l < fuel)%nat →
  (∀ j f, j ∈ l → bfs s !! j = Some f → bf_pid f ≠ pid) → tail_slot fuel s pid i = Ok (chain_last i l).
Proof.
  revert i fuel. induction l as [|k l IH]; intros i [|fuel] (f & Hf & Hl) Hlen Hp; simpl in Hlen; try lia; simpl;
    rewrite (get_frame_eq _ _ _ Hf); simpl.
  - by rewrite Hl.
  - destruct Hl as [-> Hl]. destruct (linked_is_Some _ _ _ k Hl) as [fk Hk]; [by left|].
    rewrite (get_frame_eq _ _ _ Hk). simpl. rewrite (proj2 (Z.eqb_neq _ _)) by (eapply Hp; [by left|done]).
    rewrite chain_last_cons. apply IH; [done|lia|]. intros j g Hj. apply Hp. by right.
Qed.

Lemma tail_slot_duplicate fuel s pid i l1 j l2 f : linked (bfs s) i (l1 ++ j :: l2) → (length (l1 ++ j :: l2) < fuel)%nat →
  bfs s !! j = Some f → bf_pid f = pid → tail_slot fuel s pid i = Throw RuntimeError.
Proof.
  revert i fuel. induction l1 as [|k l1 IH]; intros i [|fuel] (g & Hg & Hn & Hl) Hlen Hf Hp; simpl in Hlen; try lia; simpl;
    rewrite (get_frame_eq _ _ _ Hg); simpl; rewrite Hn.
  - rewrite (get_frame_eq _ _ _ Hf). simpl. by rewrite (proj2 (Z.eqb_eq _ _) Hp).
  - destruct (linked_is_Some _ _ _ k Hl) as [fk Hk]; [by left|]. rewrite (get_frame_eq _ _ _ Hk). simpl.
    destruct (bf_pid fk =? pid); [done|]. apply IH; try done. lia.
Qed.

Lemma pred_slot_spec fuel s pid i l1 j l2 f : linked (bfs s) i (l1 ++ j :: l2) → (length (l1 ++ j :: l2) < fuel)%nat →
  (∀ k g, k ∈ l1 → bfs s !! k = Some g → bf_pid g ≠ pid) → bfs s !! j = Some f → bf_pid f = pid →
  pred_slot fuel s pid i = Ok (chain_last i l1).
Proof.
  revert i fuel. induction l1 as [|k l1 IH]; intros i [|fuel] (g & Hg & Hn & Hl) Hlen Hp Hf Hpid; simpl in Hlen; try lia; simpl;
    rewrite (get_frame_eq _ _ _ Hg); simpl; rewrite Hn.
  - rewrite (get_frame_eq _ _ _ Hf). simpl. by rewrite (proj2 (Z.eqb_eq _ _) Hpid).
  - destruct (linked_is_Some _ _ _ k Hl) as [fk Hk]; [by left|]. rewrite (get_frame_eq _ _ _ Hk). simpl.
    rewrite (proj2 (Z.eqb_neq _ _)) by (eapply Hp; [by left|done]). rewrite chain_last_cons.
    apply IH; try done; [lia|]. intros m h Hm. apply Hp. by right.
Qed.

#[local] Arguments tail_slot : simpl never.
#[local] Arguments pred_slot : simpl never.

Lemma same_core_ht l f : same_core f (set_ht_latch l f).
Proof. by split_and!. Qed.

(** What an initialiser does to a free frame. *)
Definition init_ok (init : BufferFrame → result BufferFrame) pid : Prop :=
  ∀ f, latch_ok (bf_latch f) → sh_mutex (bf_latch f) = MFree → bf_pid f = EMPTY_PID → ∃ f', init f = Ok f' ∧
    bf_next f' = bf_next f ∧ bf_isHtBucket f' = bf_isHtBucket f ∧ bf_ht_latch f' = bf_ht_latch f ∧
    bf_state f' ≠ FREE ∧ bf_pid f' = pid ∧ frame_latched f' = true.

(** The frame [i] was free and is as the initialiser left it. *)
Definition initialised (init : BufferFrame → result BufferFrame) s i : Prop :=
  ∃ f0 f1 l, latch_ok (bf_latch f0) ∧ sh_mutex (bf_latch f0) = MFree ∧ init f0 = Ok f1 ∧
    bfs s !! i = Some (set_ht_latch l f1).

(** ** A bucket under its latch *)

(** The state after the latch of bucket [b] was taken. *)
Definition lock_frame (fb : BufferFrame) : BufferFrame := set_ht_latch (ht_lock (bf_ht_latch fb)) fb.
Record locked s (ch : nat → list nat) M b (fb : BufferFrame) : Prop := mkLocked {
  lk_wf : wf s ch;
  lk_maps q j : M !! q = Some j ↔ maps s ch q j;
  lk_bucket : is_bucket s b;
  lk_frame : bfs s !! b = Some fb;
  lk_latched : isLatched (sh_version (bf_ht_latch fb)) = true;
  lk_quiet : quiet_except (λ j, j = b) s;
}.

Lemma lock_bucket s ch M b : wf s ch → (∀ q j, M !! q = Some j ↔ maps s ch q j) → quiet s → is_bucket s b →
  ∃ fb, bfs s !! b = Some fb ∧ isLatched (sh_version (bf_ht_latch fb)) = false ∧ locked (put_frame b (lock_frame fb) s) ch M b (lock_frame fb).
Proof.
  intros Hw HM Hq Hb. destruct (wf_buckets _ _ Hw b Hb) as [fb Hfb].
  assert (isLatched (sh_version (bf_ht_latch fb)) = false) as Hhl by (by eapply Hq; [|tauto]). exists fb. split; [done|]. split; [done|].
  assert (core_eq (bfs s) (bfs (put_frame b (lock_frame fb) s))) as Hc by (eapply core_eq_insert; [done|apply same_core_ht]).
  constructor.
  - by eapply wf_core.
  - intros q j. rewrite HM. symmetry. by apply maps_core.
  - done.
  - simpl. by rewrite lookup_insert_eq.
  - change (isLatched (sh_version (ht_lock (bf_ht_latch fb))) = true). by rewrite ht_lock_latched, Hhl.
  - apply (quiet_put (λ _, False) (λ j, j = b)); [exact Hq|tauto|by left].
Qed.

(** The chain of a locked bucket is changed at [p], and frame [x] is given or
    taken: the bucket keeps its latch, and no other latch is taken. *)
Section chain_change.
Variables (s s3 : BM) (ch : nat → list nat) (M : gmap Z nat) (b p x : nat) (fb fp fx r : BufferFrame) (nx : option nat).
Hypotheses (Hlk : locked s ch M b fb) (Hfp : bfs s !! p = Some fp) (Hfx : bfs s !! x = Some fx) (Hbx : b ≠ x)
  (Hr : bf_ht_latch r = bf_ht_latch fx) (Hs3 : bfs s3 = <[x := r]> (<[p := BufferFrame.set_next nx fp]> (bfs s))).

Lemma change_bucket : ∃ fb3, bfs s3 !! b = Some fb3 ∧ bf_ht_latch fb3 = bf_ht_latch fb.
Proof.
  rewrite Hs3, lookup_insert_ne by done. pose proof (lk_frame _ _ _ _ _ Hlk) as Hfb. destruct (decide (p = b)) as [E|E].
  - rewrite E, lookup_insert_eq. eexists. split; [done|]. rewrite E, Hfb in Hfp. by injection Hfp as <-.
  - rewrite lookup_insert_ne by done. by exists fb.
Qed.
Lemma change_quiet : quiet_except (λ j, j = b) s3.
Proof.
  pose proof (lk_quiet _ _ _ _ _ Hlk) as Hq. intros j g Hg Hj. rewrite Hs3 in Hg.
  apply lookup_insert_Some in Hg as [[<- <-]|[_ Hg]]; [rewrite Hr; by apply (Hq x fx)|].
  apply lookup_insert_Some in Hg as [[<- <-]|[_ Hg]]; [by apply (Hq p fp)|by apply (Hq j g)].
Qed.
Lemma change_unlock fb3 : bfs s3 !! b = Some fb3 → bf_ht_latch fb3 = bf_ht_latch fb → quiet (put_frame b (lock_frame fb3) s3).
Proof.
  intros Hb3 Hht. apply (quiet_put (λ j, j = b)); [apply change_quiet|tauto|right].
  change (isLatched (sh_version (ht_lock (bf_ht_latch fb3))) = false). by rewrite ht_lock_latched, Hht, (lk_latched _ _ _ _ _ Hlk).
Qed.
End chain_change.

(** What an insertion promises. *)
Definition inserted n t pid init s M : Prop :=
  ∃ i s', insertFrame (S n) t pid init s = Ok (i, s') ∧ table s' (<[pid := i]> M) ∧ quiet s' ∧ initialised init s' i ∧
    pageFreeList s' = pageFreeList s ∧ pidFreeList s' = pidFreeList s ∧ pt_size s' = pt_size s ∧
    bm_nodeId s' = bm_nodeId s ∧
    (∀ f, bfs s !! bucket_of (pt_size s) pid = Some f → bf_state f = FREE → frameFreeList s' = frameFreeList s).

Section insertion.
Variables (n t : nat) (pid : Z) (init : BufferFrame → result BufferFrame) (s : BM) (M : gmap Z nat) (ch : nat → list nat) (fb : BufferFrame).
Notation b := (bucket_of (pt_size s) pid).
Notation fb1 := (lock_frame fb).
Notation s1 := (put_frame b fb1 s).
Hypotheses (HMp : M !! pid = None) (Hpe : pid ≠ EMPTY_PID) (Hinit : init_ok init pid)
  (Hfb : bfs s !! b = Some fb) (Hhl : isLatched (sh_version (bf_ht_latch fb)) = false) (Hlk : locked s1 ch M b fb1).

(** The frame of the bucket is free. *)
Lemma insert_bucket : bf_state fb = FREE → inserted n t pid init s M.
Proof.
  intros Hfr. destruct Hlk as [Hw1 HM1 Hb Hfb1 Hhl1 Hq1]. unfold inserted. simpl. rewrite (latch_bucket_eq t b s fb Hfb Hhl). simpl. fold fb1.
  rewrite (get_frame_eq _ _ _ Hfb1). simpl. destruct (decide (bf_state fb = FREE)); [|done].
  destruct (wf_free _ _ Hw1 b fb1 Hfb1 Hfr) as (Hpb & Hlo & Hmf).
  destruct (Hinit fb1 Hlo Hmf Hpb) as (f' & Hi & Hn & Hh & Hht & Hst & Hp & Hla). rewrite Hi. simpl.
  rewrite on_ht_un by (by rewrite Hht). simpl. change (frame_latched (set_ht_latch _ f')) with (frame_latched f').
  rewrite Hla. simpl. do 2 eexists. split; [done|]. split.
  - eapply (table_put_bucket s1 ch M b b fb1); try done.
  - split_and!; try done.
    + eapply quiet_put; [exact Hq1|tauto|right]. simpl. by rewrite isLatched_add2, Hht, Hhl1.
    + exists fb1, f', (ht_lock (bf_ht_latch f')). split_and!; try done. simpl. by rewrite lookup_insert_eq.
Qed.

(** It is not: a frame of the free list is appended to the chain. *)
Lemma insert_chain x q : bf_state fb ≠ FREE → bag_try_pop (frameFreeList s) = Ok (Some x, q) → inserted n t pid init s M.
Proof.
  intros Hnf Hpop. pose proof Hlk as [Hw1 HM1 Hb Hfb1 Hhl1 Hq1]. unfold inserted. simpl. rewrite (latch_bucket_eq t b s fb Hfb Hhl). simpl. fold fb1.
  rewrite (get_frame_eq _ _ _ Hfb1). simpl. destruct (decide (bf_state fb = FREE)); [done|].
  assert (linked (bfs s1) b (ch b)) as Hlkd by (by apply (wf_linked _ _ Hw1)).
  rewrite (tail_slot_spec _ s1 pid b (ch b)); [|done|..].
  2:{ pose proof (linked_length _ _ _ Hlkd) as Hlen. unfold chain_fuel. specialize (Hlen (wf_chain_nodup _ _ b Hw1 Hb)). lia. }
  2:{ intros j f Hj Hf E. destruct (wf_chained _ _ Hw1 b j f) as [_ Hs]; try done.
      assert (M !! pid = Some j); [|congruence]. apply HM1. exists f. split_and!; try done. by right. }
  simpl. rewrite Hpop. simpl.
  destruct (linked_is_Some _ _ _ (chain_last b (ch b)) Hlkd) as [fl Hfl]; [apply chain_last_elem|].
  set (p := chain_last b (ch b)) in *. rewrite (get_frame_eq (with_frames q s1) p fl Hfl). simpl.
  destruct (bag_pop_law _ (wf_bag _ _ Hw1)) as (o & q' & Hpop' & _ & HP). simpl in Hpop'. rewrite Hpop in Hpop'.
  simplify_eq Hpop'. intros <- <-. clear Hpop'.
  destruct (wf_bag_frame _ _ Hw1 x) as (fx & Hfx & Hsx & Hnx & Hxb); [rewrite HP; by left|].
  assert (p ≠ x) as Hpx.
  { intros E. pose proof (chain_last_elem b (ch b)) as Hin. fold p in Hin. rewrite E in Hin. by eapply (free_unchained s1 ch Hw1 b x fx). }
  assert (b ≠ x) as Hbx by (intros E; by rewrite <- E in Hxb).
  set (s2 := put_frame p (BufferFrame.set_next (Some x) fl) (with_frames q s1)).
  assert (bfs s2 !! x = Some fx) as Hfx2 by (simpl; by rewrite lookup_insert_ne).
  fold s2. rewrite (get_frame_eq _ _ _ Hfx2). simpl.
  destruct (wf_free _ _ Hw1 x fx Hfx Hsx) as (Hpx' & Hlo & Hmf).
  destruct (Hinit fx Hlo Hmf Hpx') as (f' & Hi & Hn & Hh & Hht & Hst & Hp & Hla). rewrite Hi. simpl.
  set (s3 := put_frame x f' s2).
  destruct (change_bucket s1 s3 ch M b p x fb1 fl f' (Some x) Hlk Hfl Hbx eq_refl) as (fb3 & Hfb3 & Hht3).
  rewrite (unlatch_bucket_eq t b s3 fb3 Hfb3) by (by rewrite Hht3). simpl.
  set (s4 := put_frame b (set_ht_latch (ht_lock (bf_ht_latch fb3)) fb3) s3).
  assert (bfs s4 !! x = Some f') as Hfx4 by (simpl; rewrite lookup_insert_ne, lookup_insert_eq; done).
  fold s4. rewrite (get_frame_eq _ _ _ Hfx4). simpl. rewrite Hla. simpl. do 2 eexists. split; [done|]. split.
  - apply (table_core s3); [eapply core_eq_insert; [done|apply same_core_ht]|done|done|].
    eapply (table_put_chain s1 ch M b); try done; [congruence|].
    rewrite Hh, (wf_isHt _ _ Hw1 _ _ Hfx). apply Z.ltb_ge. unfold is_bucket in Hxb. lia.
  - split_and!; try done.
    + by apply (change_unlock s1 s3 ch M b p x fb1 fl fx f' (Some x) Hlk Hfl Hfx Hht eq_refl).
    + exists fx, f', (bf_ht_latch f'). split_and!; try done. rewrite Hfx4. by destruct f'.
    + intros g Hg Hgs. congruence.
Qed.
End insertion.

Lemma insertFrame_table n t pid init s M : table s M → quiet s → M !! pid = None → pid ≠ EMPTY_PID → init_ok init pid →
  let b := bucket_of (pt_size s) pid in
  (∃ f, bfs s !! b = Some f ∧ bf_state f = FREE) ∨ (∃ x q, bag_try_pop (frameFreeList s) = Ok (Some x, q)) →
  ∃ i s', insertFrame (S n) t pid init s = Ok (i, s') ∧ table s' (<[pid := i]> M) ∧ quiet s' ∧ initialised init s' i ∧
    pageFreeList s' = pageFreeList s ∧ pidFreeList s' = pidFreeList s ∧ pt_size s' = pt_size s ∧
    bm_nodeId s' = bm_nodeId s ∧
    (∀ f, bfs s !! bucket_of (pt_size s) pid = Some f → bf_state f = FREE → frameFreeList s' = frameFreeList s).
Proof.
  intros (ch & Hw & HM) Hq HMp Hpe Hinit b Hav.
  destruct (lock_bucket s ch M b Hw HM Hq) as (fb & Hfb & Hhl & Hlk); [by eapply bucket_of_bucket|].
  destruct (decide (bf_state fb = FREE)) as [Hfr|Hnf]; [by eapply insert_bucket|].
  destruct Hav as [(f & Hf & ?)|(x & q & Hpop)]; [congruence|]. by eapply insert_chain.
Qed.

Lemma reset_core f : bf_next (bf_reset f) = (if bf_isHtBucket f then bf_next f else None) ∧
  bf_isHtBucket (bf_reset f) = bf_isHtBucket f ∧ bf_state (bf_reset f) = FREE ∧ bf_pid (bf_reset f) = EMPTY_PID ∧
  bf_latch (bf_reset f) = bf_latch f ∧ bf_ht_latch (bf_reset f) = bf_ht_latch f.
Proof. destruct f as [? ? ? ? ? ? ? ? ? ? ? [] ? ?]; by split_and!. Qed.

Lemma release_eq t f : latch_ok (bf_latch f) → mode t (bf_latch f) = LS_EXCLUSIVE →
  ∃ l, on_latch t HybridLatch.unlatchExclusive f = Ok (tt, set_latch l f) ∧ latch_ok l ∧ sh_mutex l = MFree.
Proof. intros Hl Hm. destruct (on_unX t f Hl Hm) as (-> & ? & _). by eexists. Qed.

(** The assertion [removeFrame] starts with fails. *)
Definition remove_aborts s (f : BufferFrame) : bool := asserts && upper_node (bm_nodeId s) && negb (bf_pid f =? 0).
Lemma remove_assert s f : assert_ (negb (upper_node (bm_nodeId s) && negb (bf_pid f =? 0))) =
  if remove_aborts s f then Throw AssertFailed else Ok tt.
Proof. unfold assert_, remove_aborts. by rewrite negb_involutive, andb_assoc. Qed.

(** What a removal promises. *)
Definition removed n t i (f : BufferFrame) handle qp qi s M : Prop :=
  ∃ s', removeFrame (S n) t i handle s = Ok s' ∧ table s' (delete (bf_pid f) M) ∧ quiet s' ∧
    pageFreeList s' = qp ∧ pidFreeList s' = qi ∧ pt_size s' = pt_size s ∧ bm_nodeId s' = bm_nodeId s ∧
    (if bf_isHtBucket f then frameFreeList s' = frameFreeList s
     else ∃ ok, bag_try_push i (frameFreeList s) = Ok (ok, frameFreeList s')).

Section removal.
Variables (n t i : nat) (f : BufferFrame) (handle : BufferFrame → BM → result BM) (qp : QP) (qi : QI)
  (s : BM) (M : gmap Z nat) (ch : nat → list nat) (fb : BufferFrame).
Notation b := (bucket_of (pt_size s) (bf_pid f)).
Notation fb1 := (lock_frame fb).
Notation s1 := (put_frame b fb1 s).
Hypotheses (Hab : remove_aborts s f = false) (Hf : bfs s !! i = Some f) (Hst : bf_state f ≠ FREE) (Hlo : latch_ok (bf_latch f)) (Hmo : mode t (bf_latch f) = LS_EXCLUSIVE)
  (Hha : ∀ f1 s2, bf_pid f1 = bf_pid f → bf_page f1 = bf_page f → pageFreeList s2 = pageFreeList s →
     pidFreeList s2 = pidFreeList s → handle f1 s2 = Ok (with_pids qi (with_pages qp s2)))
  (Hfb : bfs s !! b = Some fb) (Hhl : isLatched (sh_version (bf_ht_latch fb)) = false) (Hlk : locked s1 ch M b fb1).

Lemma remove_latch : latch_bucket (S n) t b s = Ok s1.
Proof. cbn [latch_bucket]. by rewrite (latch_bucket_eq t b s fb Hfb Hhl). Qed.

(** The page is in the frame of the bucket. *)
Lemma remove_bucket : i = b → bf_isHtBucket f = true → removed n t i f handle qp qi s M.
Proof.
  intros -> Eh. destruct Hlk as [Hw1 HM1 Hb Hfb1 Hhl1 Hq1]. assert (fb = f) as Efb by congruence.
  unfold removed, removeFrame. rewrite (get_frame_eq _ _ _ Hf). cbn [mbind result_bind]. rewrite remove_assert, Hab, bind_Ok, (modeX_latched t f Hlo Hmo). cbn [ensure mbind result_bind].
  rewrite Eh, remove_latch. cbn [mbind result_bind]. rewrite (get_frame_eq _ _ _ Hfb1).
  cbn [mbind result_bind]. rewrite bool_decide_eq_true_2 by (by rewrite Efb). cbn [ensure mbind result_bind].
  rewrite (Hha fb1 s1) by (by rewrite Efb). rewrite bind_Ok.
  pose proof (reset_core fb1) as HR. revert HR. generalize (bf_reset fb1). intros r (Rn & Rh & Rs & Rp & Rl & Rht). cbv zeta.
  rewrite on_ht_un by (by rewrite Rht). cbn [mbind result_bind].
  destruct (release_eq t (set_ht_latch (ht_lock (bf_ht_latch r)) r)) as (l & -> & Hll & Hlm);
    [change (latch_ok (bf_latch r)); rewrite Rl; by rewrite Efb
    |change (mode t (bf_latch r) = LS_EXCLUSIVE); rewrite Rl; by rewrite Efb|].
  cbn [mbind result_bind]. eexists. split; [done|].
  set (f2 := set_latch l (set_ht_latch (ht_lock (bf_ht_latch r)) r)). split_and!; try done.
  - apply (table_core (put_frame b f2 s1)); [apply core_eq_refl|done|done|].
    assert (bf_next f2 = bf_next fb1) as Hn2 by (change (bf_next r = bf_next fb1); rewrite Rn; simpl; by rewrite Efb, Eh).
    destruct (table_clear_bucket s1 ch M b b fb1 f2 Hw1 HM1 Hb Hfb1 Hn2) as [_ HT]; try done; [by rewrite Efb..|]. revert HT. simpl. by rewrite Efb.
  - apply (quiet_put (λ j, j = b)); [by intros j g Hg; apply (Hq1 j g)|tauto|right].
    change (isLatched (sh_version (ht_lock (bf_ht_latch r))) = false). by rewrite ht_lock_latched, Rht, Hhl1.
Qed.
(** It is in a frame of the chain: the predecessor is linked to the successor. *)
Lemma remove_found l1 l2 : ch b = l1 ++ i :: l2 → i ≠ b → pred_slot (chain_fuel s1) s1 (bf_pid f) b = Ok (chain_last b l1) ∧
  ∃ fp, bfs s1 !! chain_last b l1 = Some fp ∧ bf_next fp = Some i ∧ chain_last b l1 ≠ i.
Proof.
  intros Hch Hib. destruct Hlk as [Hw1 HM1 Hb Hfb1 Hhl1 Hq1].
  assert (bfs s1 !! i = Some f) as Hf1 by (simpl; by rewrite lookup_insert_ne).
  assert (linked (bfs s1) b (l1 ++ i :: l2)) as Hlkd by (rewrite <- Hch; by apply (wf_linked _ _ Hw1)).
  pose proof (wf_chain_nodup _ _ b Hw1 Hb) as Hnd. rewrite Hch in Hnd. split.
  - rewrite (pred_slot_spec _ s1 (bf_pid f) b l1 i l2 f); try done.
    + pose proof (linked_length _ _ _ Hlkd Hnd). unfold chain_fuel. lia.
    + intros k g Hk Hg E. assert (k = i) as ->.
      { assert (k ∈ ch b) as Hkc by (rewrite Hch; apply elem_of_app; by left).
        destruct (wf_chained _ _ Hw1 b k g Hb Hkc Hg) as [_ ?].
        assert (i ∈ ch b) by (rewrite Hch; apply elem_of_app; right; by left).
        by apply (wf_uniq _ _ Hw1 b k i g f); try done; right. }
      apply NoDup_cons in Hnd as [_ (_ & Hnd & _)%NoDup_app]. apply (Hnd i Hk). by left.
  - pose proof (chain_last_elem b l1) as Hpe. destruct (linked_is_Some _ _ _ (chain_last b l1) Hlkd) as [fp Hfp]; [clear -Hpe; set_solver|].
    exists fp. split; [done|]. destruct (linked_unlink (bfs s1) b l1 i l2 fp f Hlkd Hnd Hfp Hf1) as [Hnp _]. split; [done|].
    intros E. rewrite E in Hpe. apply NoDup_cons in Hnd as [_ (_ & Hnd & _)%NoDup_app].
    apply elem_of_cons in Hpe as [->|Hpe]; [done|]. apply (Hnd i Hpe). by left.
Qed.

Lemma remove_chain : i ∈ ch b → i ≠ b → bf_isHtBucket f = false → removed n t i f handle qp qi s M.
Proof.
  intros (l1 & l2 & Hch)%list_elem_of_split Hib Eh. pose proof Hlk as [Hw1 HM1 Hb Hfb1 Hhl1 Hq1].
  destruct (remove_found l1 l2 Hch Hib) as (Hps & fp & Hfp & Hnp & Hpi).
  assert (bfs s1 !! i = Some f) as Hf1 by (simpl; by rewrite lookup_insert_ne).
  unfold removed, removeFrame. rewrite (get_frame_eq _ _ _ Hf). cbn [mbind result_bind]. rewrite remove_assert, Hab, bind_Ok, (modeX_latched t f Hlo Hmo). cbn [ensure mbind result_bind].
  rewrite Eh, remove_latch. cbn [mbind result_bind]. rewrite Hps. cbn [mbind result_bind]. set (p := chain_last b l1) in *.
  rewrite (get_frame_eq _ _ _ Hfp). cbn [mbind result_bind]. rewrite Hnp. cbn [of_option mbind result_bind].
  rewrite (get_frame_eq _ _ _ Hf1). cbn [mbind result_bind].
  set (s2 := put_frame p (BufferFrame.set_next (bf_next f) fp) s1).
  assert (bfs s2 !! i = Some f) as Hf2 by (simpl; by rewrite lookup_insert_ne).
  rewrite (get_frame_eq _ _ _ Hf2). cbn [mbind result_bind]. rewrite bool_decide_eq_true_2 by done.
  cbn [ensure mbind result_bind]. rewrite (Hha f s2) by done. cbn [mbind result_bind].
  pose proof (reset_core f) as HR. revert HR. generalize (bf_reset f). intros r (Rn & Rh & Rs & Rp & Rl & Rht). rewrite Eh in Rn.
  set (s3 := put_frame i r (with_pids qi (with_pages qp s2))).
  destruct (change_bucket s1 s3 ch M b p i fb1 fp r (bf_next f) Hlk Hfp (not_eq_sym Hib) eq_refl) as (fb3 & Hfb3 & Hht3).
  rewrite (unlatch_bucket_eq t b s3 fb3 Hfb3) by (by rewrite Hht3). cbn [mbind result_bind].
  set (s4 := put_frame b (set_ht_latch (ht_lock (bf_ht_latch fb3)) fb3) s3).
  assert (bfs s4 !! i = Some r) as Hf4 by (simpl; by rewrite lookup_insert_ne, lookup_insert_eq).
  rewrite (get_frame_eq _ _ _ Hf4). cbn [mbind result_bind].
  destruct (release_eq t r) as (l & -> & Hll & Hlm); [by rewrite Rl|by rewrite Rl|]. cbn [mbind result_bind].
  change (frameFreeList (put_frame i (set_latch l r) s4)) with (frameFreeList s1).
  destruct (bag_push_law i _ (wf_bag _ _ Hw1)) as (ok & q & Hpush & _). rewrite Hpush. cbn [mbind result_bind].
  eexists. split; [done|]. split_and!; try done; [..|by exists ok].
  - destruct (table_clear_chain s1 ch M b Hw1 HM1 Hb i l1 l2 f fp (set_latch l r) q ok) as [_ Ht]; try done.
    revert Ht. apply table_core; [|done|done]. fold p s2.
    intros j. simpl. destruct (decide (j = i)) as [->|Hji].
    { rewrite !lookup_insert_eq. constructor. apply same_core_refl. }
    rewrite !(lookup_insert_ne _ i j) by done. destruct (decide (j = b)) as [->|Hjb].
    + rewrite lookup_insert_eq. simpl in Hfb3. rewrite lookup_insert_ne in Hfb3 by done. rewrite Hfb3.
      constructor. apply same_core_ht.
    + rewrite (lookup_insert_ne _ b j) by done. rewrite (lookup_insert_ne _ i j) by done. apply core_eq_refl.
  - assert (quiet s4) as Hq4 by (by apply (change_unlock s1 s3 ch M b p i fb1 fp f r (bf_next f) Hlk Hfp Hf1 Rht eq_refl)).
    assert (quiet (put_frame i (set_latch l r) s4)) as Hq5; [|done].
    apply (quiet_put (λ _, False)); [done|tauto|right]. simpl. rewrite Rht. by apply (Hq1 i f).
Qed.
End removal.

Lemma removeFrame_table n t i f handle qp qi s M : remove_aborts s f = false → table s M → quiet s → bfs s !! i = Some f → bf_state f ≠ FREE →
  M !! bf_pid f = Some i → latch_ok (bf_latch f) → mode t (bf_latch f) = LS_EXCLUSIVE →
  (∀ f1 s1, bf_pid f1 = bf_pid f → bf_page f1 = bf_page f → pageFreeList s1 = pageFreeList s →
     pidFreeList s1 = pidFreeList s → handle f1 s1 = Ok (with_pids qi (with_pages qp s1))) →
  ∃ s', removeFrame (S n) t i handle s = Ok s' ∧ table s' (delete (bf_pid f) M) ∧ quiet s' ∧
    pageFreeList s' = qp ∧ pidFreeList s' = qi ∧ pt_size s' = pt_size s ∧ bm_nodeId s' = bm_nodeId s ∧
    (if bf_isHtBucket f then frameFreeList s' = frameFreeList s
     else ∃ ok, bag_try_push i (frameFreeList s) = Ok (ok, frameFreeList s')).
Proof.
  intros Hab (ch & Hw & HM) Hq Hf Hst HMi Hlo Hmo Hha. set (b := bucket_of (pt_size s) (bf_pid f)).
  assert (is_bucket s b) as Hb by (by eapply bucket_of_bucket). destruct (lock_bucket s ch M b Hw HM Hq Hb) as (fb & Hfb & Hhl & Hlk).
  pose proof (proj1 (HM _ _) HMi) as (f' & Hin & Hf' & _ & _). assert (f' = f) as -> by congruence.
  pose proof (wf_isHt _ _ Hw i f Hf) as Hht. destruct (bf_isHtBucket f) eqn:Eh.
  - assert (i = b) as Eib.
    { destruct (wf_slot s ch b i f Hw Hb Hin Hf) as [?|(Hnb & _)]; [done|]. exfalso. apply Hnb. unfold is_bucket. lia. }
    pose proof (remove_bucket n t i f handle qp qi s M ch fb) as HR. unfold removed in HR. rewrite Eh in HR. by apply HR.
  - assert (i ∈ ch b) as Hic by (apply elem_of_cons in Hin as [->|?]; [|done]; unfold is_bucket in Hb; lia).
    assert (i ≠ b) as Hib by (intros ->; unfold is_bucket in Hb; lia).
    pose proof (remove_chain n t i f handle qp qi s M ch fb) as HR. unfold removed in HR. rewrite Eh in HR. by apply HR.
Qed.

Lemma latchX_eq t f : latch_ok (bf_latch f) → sh_mutex (bf_latch f) = MFree →
  on_latch t HybridLatch.latchExclusive f = Ok (tt, set_latch (lockX t (bf_latch f)) f) ∧
  latch_ok (lockX t (bf_latch f)) ∧ mode t (lockX t (bf_latch f)) = LS_EXCLUSIVE.
Proof.
  intros Hl Hm. destruct (lockX_ok t _ Hl Hm) as [Hl' Hm']. split; [|done]. apply on_latch_eq.
  unfold HybridLatch.latchExclusive, HybridLatch.isLatched_now, load, store, pensure. simpl. rewrite Hm. simpl.
  rewrite isLatched_add2. with_strategy transparent [latch_ok] unfold latch_ok in Hl. rewrite Hm in Hl.
  destruct Hl as [_ ->]. done.
Qed.

(** A frame as [newPage] hands it out: latched by [t], in exclusive possession of
    the node, with the page, and with version 0. *)
Definition new_frame t (nodeId pid : Z) (page : nat) (f : BufferFrame) : Prop :=
  latch_ok (bf_latch f) ∧ mode t (bf_latch f) = LS_EXCLUSIVE ∧ bf_pid f = pid ∧ bf_page f = Some page ∧
  bf_possession f = EXCLUSIVE ∧ bf_possessors f = nodeId ∧ bf_state f = HOT ∧ bf_pVersion f = 0.

Lemma init_newPage_eq t nodeId pid page epoch f : latch_ok (bf_latch f) → sh_mutex (bf_latch f) = MFree →
  ∃ f', init_newPage t nodeId pid page epoch f = Ok f' ∧ new_frame t nodeId pid page f' ∧
    bf_next f' = bf_next f ∧ bf_isHtBucket f' = bf_isHtBucket f ∧ bf_ht_latch f' = bf_ht_latch f.
Proof.
  intros Hl Hm. destruct (latchX_eq t f Hl Hm) as (Heq & ? & ?). unfold init_newPage. rewrite Heq, bind_Ok.
  eexists. split; [reflexivity|]. destruct epoch; by split_and!.
Qed.

Lemma init_newPage_ok t nodeId pid page epoch : init_ok (init_newPage t nodeId pid page epoch) pid.
Proof.
  intros f Hl Hm _. destruct (init_newPage_eq t nodeId pid page epoch f Hl Hm) as (f' & Hi & Hnew & ? & ? & ?).
  exists f'. destruct Hnew as (Hl' & Hm' & ? & _ & _ & _ & Hs & _). split_and!; try done; [congruence|by apply (modeX_latched t)].
Qed.

Lemma newPage_table n t s M pid page qi qp : table s M → quiet s →
  bag_pop (S n) (pidFreeList s) = Ok (pid, qi) → bag_pop (S n) (pageFreeList s) = Ok (page, qp) →
  M !! pid = None → pid ≠ EMPTY_PID →
  (∃ f, bfs s !! bucket_of (pt_size s) pid = Some f ∧ bf_state f = FREE) ∨
  (∃ x q, bag_try_pop (frameFreeList s) = Ok (Some x, q)) →
  ∃ i s' f, newPage (S n) t s = Ok (i, s') ∧ table s' (<[pid := i]> M) ∧ quiet s' ∧ bfs s' !! i = Some f ∧
    new_frame t (bm_nodeId s) pid page f ∧ pidFreeList s' = qi ∧ pageFreeList s' = qp ∧ bm_nodeId s' = bm_nodeId s.
Proof.
  intros HT Hq Hpi Hpp HMp Hpe Hav. unfold newPage. rewrite Hpi, bind_Ok. cbv zeta. simpl pageFreeList. rewrite Hpp, bind_Ok.
  set (s1 := with_pages qp (with_pids qi s)).
  assert (table s1 M) as HT1 by (apply (table_core s); [apply core_eq_refl|done|done|done]).
  destruct (insertFrame_table n t pid (init_newPage t (bm_nodeId s1) pid page (Some (globalEpoch s1))) s1 M)
    as (i & s' & Hr & HT' & Hq' & (f0 & f1 & l & Hl0 & Hm0 & Hi & Hf) & ? & ? & _ & ? & _); try done; [apply init_newPage_ok|].
  exists i, s', (set_ht_latch l f1). split_and!; try done.
  destruct (init_newPage_eq t (bm_nodeId s1) pid page (Some (globalEpoch s1)) f0 Hl0 Hm0) as (f' & Hi' & Hnew & _).
  rewrite Hi in Hi'. by simplify_eq.
Qed.

(** ** Construction *)

Lemma fresh_frames_lookup size N i : fresh_frames size N !! i =
  if decide (i < N)%nat then Some (set_isHtBucket (Z.of_nat i <? size) bf_new) else None.
Proof.
  unfold fresh_frames. case_decide as Hi.
  - apply elem_of_list_to_map_1.
    + rewrite <- list_fmap_compose. rewrite list_fmap_ext with (g := id); [|done]. rewrite list_fmap_id. apply NoDup_seq.
    + apply list_elem_of_fmap. exists i. split; [done|]. apply elem_of_seq. lia.
  - apply not_elem_of_list_to_map_1. rewrite <- list_fmap_compose. intros (j & -> & Hj%elem_of_seq)%list_elem_of_fmap.
    simpl in Hi. lia.
Qed.

Lemma fresh_table size N nodeId (qf : QF) (qp : QP) (qi : QI) e k :
  0 <= k < 64 → size = 2 ^ k → size <= Z.of_nat N → bag_ok qf → NoDup (bag_contents qf) →
  (∀ i, i ∈ bag_contents qf → size <= Z.of_nat i ∧ (i < N)%nat) →
  table (mkBM (fresh_frames size N) size nodeId qf qp qi e) ∅ ∧ quiet (mkBM (fresh_frames size N) size nodeId qf qp qi e).
Proof.
  intros Hk Hsz HN Hok Hnd Hfr.
  assert (∀ i f, fresh_frames size N !! i = Some f → (i < N)%nat ∧ f = set_isHtBucket (Z.of_nat i <? size) bf_new) as Hl.
  { intros i f. rewrite fresh_frames_lookup. case_decide; [|done]. by intros [= <-]. }
  assert (∀ i, (i < N)%nat → fresh_frames size N !! i = Some (set_isHtBucket (Z.of_nat i <? size) bf_new)) as Hl'.
  { intros i Hi. rewrite fresh_frames_lookup. by rewrite decide_True. }
  split; [|by intros i f [_ ->]%Hl]. exists (λ _, []). split.
  - constructor; unfold is_bucket; simpl.
    + by exists k.
    + intros b Hb. rewrite Hl' by lia. by eexists.
    + by intros i f [_ ->]%Hl.
    + intros b Hb. eexists. split; [apply Hl'; lia|done].
    + intros. apply NoDup_nil_2.
    + by intros b b' i _ _ []%elem_of_nil.
    + by intros b i f _ []%elem_of_nil.
    + by intros b i f _ _ [_ ->]%Hl.
    + by intros b i j f g _ _ _ [_ ->]%Hl.
    + intros i f [_ ->]%Hl _. by split_and!.
    + done.
    + done.
    + intros i Hi. destruct (Hfr i Hi) as [? ?]. eexists. split; [by apply Hl'|]. split_and!; try done. lia.
  - intros pid i. rewrite lookup_empty. split; [done|]. by intros (f & _ & [_ ->]%Hl & ? & _).
Qed.

Lemma push_all_inv {Q A} `{!FreeBag Q A} e (l : list A) (q q' : Q) : bag_ok q → push_all e l q = Ok q' →
  bag_ok q' ∧ bag_contents q' ≡ₚ l ++ bag_contents q.
Proof.
  revert q. induction l as [|x l IH]; intros q Hq Hr; simpl in Hr; [by simplify_eq|].
  destruct (bag_push_law x q Hq) as (rc & q1 & Hp & Hq1 & HP). rewrite Hp, bind_Ok in Hr. destruct rc; [|done].
  destruct (IH q1 Hq1 Hr) as [? ->]. split; [done|]. rewrite HP. simpl. by rewrite Permutation_middle.
Qed.

Lemma release_table t i f s M : table s M → quiet s → bfs s !! i = Some f → bf_state f ≠ FREE →
  latch_ok (bf_latch f) → mode t (bf_latch f) = LS_EXCLUSIVE →
  ∃ l, on_latch t HybridLatch.unlatchExclusive f = Ok (tt, set_latch l f) ∧ table (put_frame i (set_latch l f) s) M ∧
    quiet (put_frame i (set_latch l f) s) ∧ latch_ok l ∧ sh_mutex l = MFree.
Proof.
  intros HT Hq Hf Hs Hl Hm. destruct (release_eq t f Hl Hm) as (l & -> & ? & ?). exists l. split; [done|]. split_and!; try done.
  - apply (table_core s); [|done..]. eapply core_eq_insert; [done|]. by split_and!.
  - apply (quiet_put (λ _, False)); [done|tauto|right]. apply (Hq i f Hf). tauto.
Qed.

(** ** Claims *)

(** [C32] [insertFrame] of a page id that is not in the table, with its bucket
    empty or a frame left, returns a frame, and the table maps the page id to
    that frame and everything else as before; the frame is a free one as the
    initialiser left it, no bucket latch stays held and the other free lists are
    untouched.  A page id already chained behind a used bucket is refused with
    the runtime error. *)
Theorem insertFrame_refines n t pid init s M : table s M → quiet s → pid ≠ EMPTY_PID → init_ok init pid →
  let b := bucket_of (pt_size s) pid in
  (M !! pid = None →
   (∃ f, bfs s !! b = Some f ∧ bf_state f = FREE) ∨ (∃ x q, bag_try_pop (frameFreeList s) = Ok (Some x, q)) →
   ∃ i s', insertFrame (S n) t pid init s = Ok (i, s') ∧ table s' (<[pid := i]> M) ∧ quiet s' ∧ initialised init s' i ∧
     pageFreeList s' = pageFreeList s ∧ pidFreeList s' = pidFreeList s) ∧
  (∀ j f, M !! pid = Some j → j ≠ b → bfs s !! b = Some f → bf_state f ≠ FREE →
   insertFrame (S n) t pid init s = Throw RuntimeError).
Proof.
  intros HT Hq Hpe Hinit b. split.
  - intros HMp Hav. destruct (insertFrame_table n t pid init s M HT Hq HMp Hpe Hinit Hav)
      as (i & s' & ? & ? & ? & ? & ? & ? & _). by exists i, s'.
  - intros j f HMp Hjb Hfb Hst. destruct HT as (ch & Hw & HM).
    pose proof (proj1 (HM _ _) HMp) as (fj & Hin & Hfj & _ & Hpj). fold b in Hin.
    assert (is_bucket s b) as Hb by (by eapply bucket_of_bucket).
    assert (isLatched (sh_version (bf_ht_latch f)) = false) as Hhl by (by eapply Hq; [|tauto]).
    cbn [insertFrame]. fold b. rewrite (latch_bucket_eq t b s f Hfb Hhl), bind_Ok. cbn [negb].
    set (s1 := put_frame b _ s).
    assert (core_eq (bfs s) (bfs s1)) as Hc by (eapply core_eq_insert; [done|apply same_core_ht]).
    assert (wf s1 ch) as Hw1 by (by eapply wf_core).
    rewrite (get_frame_eq s1 b (set_ht_latch (ht_lock (bf_ht_latch f)) f)) by (simpl; by rewrite lookup_insert_eq).
    rewrite bind_Ok. rewrite decide_False by done. apply elem_of_cons in Hin as [->|Hin]; [done|].
    apply list_elem_of_split in Hin as (l1 & l2 & Hch).
    assert (linked (bfs s1) b (l1 ++ j :: l2)) as Hlk by (rewrite <- Hch; by apply (wf_linked _ _ Hw1)).
    pose proof (wf_chain_nodup _ _ b Hw1 Hb) as Hnd. rewrite Hch in Hnd.
    rewrite (tail_slot_duplicate _ s1 pid b l1 j l2 fj); try done; [|simpl; by rewrite lookup_insert_ne].
    pose proof (linked_length _ _ _ Hlk Hnd). unfold chain_fuel. lia.
Qed.

(** [C33] [removeFrame] of a frame that is in the table and latched exclusively by
    the caller, whatever its place (the bucket or any place in the chain).  If
    assertions are compiled in and the node is one of the upper half, it aborts
    for every page id but 0; otherwise it returns: the table loses exactly its
    page id, the page handler has run once, no bucket latch stays held, and a
    chained frame is offered to the free list. *)
Theorem removeFrame_refines n t i f handle qp qi s M : table s M → quiet s → bfs s !! i = Some f → bf_state f ≠ FREE →
  M !! bf_pid f = Some i → latch_ok (bf_latch f) → mode t (bf_latch f) = LS_EXCLUSIVE →
  (∀ f1 s1, bf_pid f1 = bf_pid f → bf_page f1 = bf_page f → pageFreeList s1 = pageFreeList s →
     pidFreeList s1 = pidFreeList s → handle f1 s1 = Ok (with_pids qi (with_pages qp s1))) →
  if asserts && upper_node (bm_nodeId s) && negb (bf_pid f =? 0) then
    removeFrame (S n) t i handle s = Throw AssertFailed
  else
    ∃ s', removeFrame (S n) t i handle s = Ok s' ∧ table s' (delete (bf_pid f) M) ∧ quiet s' ∧
      pageFreeList s' = qp ∧ pidFreeList s' = qi ∧
      (if bf_isHtBucket f then frameFreeList s' = frameFreeList s
       else ∃ ok, bag_try_push i (frameFreeList s) = Ok (ok, frameFreeList s')).
Proof.
  intros HT Hq Hf. fold (remove_aborts s f). destruct (remove_aborts s f) eqn:E.
  - intros. unfold removeFrame. by rewrite (get_frame_eq _ _ _ Hf), bind_Ok, remove_assert, E.
  - intros. destruct (removeFrame_table n t i f handle qp qi s M) as (s' & ? & ? & ? & ? & ? & _ & _ & ?); try done.
    by exists s'.
Qed.

(** [C34] [newPage] followed by [reclaimPage] of the frame it returned: the page
    is latched, in exclusive possession of the node and mapped in between, and
    afterwards the table is the one before, and the page and its id are back
    in the free lists.  Where assertions are compiled in and the node is one of
    the upper half, [newPage] succeeds all the same and [reclaimPage] aborts. *)
Theorem newPage_reclaimPage n t s M pid page qi qp qi' qp' : table s M → quiet s →
  bag_ok (pidFreeList s) → bag_ok (pageFreeList s) →
  bag_pop (S n) (pidFreeList s) = Ok (pid, qi) → bag_pop (S n) (pageFreeList s) = Ok (page, qp) →
  bag_push (S n) pid qi = Ok qi' → bag_push (S n) page qp = Ok qp' →
  M !! pid = None → pid ≠ EMPTY_PID → getOwner pid = bm_nodeId s →
  (∃ f, bfs s !! bucket_of (pt_size s) pid = Some f ∧ bf_state f = FREE) ∨
  (∃ x q, bag_try_pop (frameFreeList s) = Ok (Some x, q)) →
  ∃ i s1 f, newPage (S n) t s = Ok (i, s1) ∧ table s1 (<[pid := i]> M) ∧ bfs s1 !! i = Some f ∧
    new_frame t (bm_nodeId s) pid page f ∧
    if asserts && upper_node (bm_nodeId s) && negb (pid =? 0) then reclaimPage (S n) t i s1 = Throw AssertFailed
    else ∃ s2, reclaimPage (S n) t i s1 = Ok s2 ∧ table s2 M ∧ quiet s2 ∧
      bag_contents (pidFreeList s2) ≡ₚ bag_contents (pidFreeList s) ∧
      bag_contents (pageFreeList s2) ≡ₚ bag_contents (pageFreeList s).
Proof.
  intros HT Hq Hoi Hop Hpi Hpp Hui Hup HMp Hpe Hown Hav.
  destruct (newPage_table n t s M pid page qi qp) as (i & s1 & f & Hr & HT1 & Hq1 & Hf & Hnew & Hqi & Hqp & Hnode); try done.
  exists i, s1, f. pose proof Hnew as (Hl & Hm & Hp & Hpg & _ & _ & Hst & _). split_and!; try done.
  assert (reclaimPage (S n) t i s1 = removeFrame (S n) t i (λ frame s, q ← bag_push (S n) (bf_pid frame) (pidFreeList s);
      push_page (S n) (bf_page frame) (with_pids q s)) s1) as ->.
  { unfold reclaimPage. rewrite (get_frame_eq _ _ _ Hf), bind_Ok, (modeX_latched t f Hl Hm). cbn [ensure]. rewrite bind_Ok.
    by rewrite Hp, Hown, Hnode, Z.eqb_refl. }
  assert (remove_aborts s1 f = asserts && upper_node (bm_nodeId s) && negb (pid =? 0)) as Hab
    by (unfold remove_aborts; by rewrite Hnode, Hp).
  destruct (asserts && upper_node (bm_nodeId s) && negb (pid =? 0)).
  { unfold removeFrame. by rewrite (get_frame_eq _ _ _ Hf), bind_Ok, remove_assert, Hab. }
  destruct (removeFrame_table n t i f (λ frame s, q ← bag_push (S n) (bf_pid frame) (pidFreeList s);
      push_page (S n) (bf_page frame) (with_pids q s)) qp' qi' s1 (<[pid := i]> M))
    as (s2 & Hrem & HT2 & Hq2 & Hp2 & Hi2 & _); try done.
  { congruence. }
  { by rewrite Hp, lookup_insert_eq. }
  { intros g s3 Hgp Hgg H3p H3i. rewrite Hgp, Hp, H3i, Hqi, Hui, bind_Ok. unfold push_page.
    rewrite Hgg, Hpg. cbn [of_option]. rewrite bind_Ok. simpl pageFreeList. by rewrite H3p, Hqp, Hup. }
  exists s2. split_and!; try done.
  - rewrite Hp, delete_insert_id in HT2 by done. done.
  - rewrite Hi2. destruct (bag_pop_inv _ _ _ _ Hoi Hpi) as [Hok ->]. by destruct (bag_push_inv _ _ _ _ Hok Hui) as [_ ->].
  - rewrite Hp2. destruct (bag_pop_inv _ _ _ _ Hop Hpp) as [Hok ->]. by destruct (bag_push_inv _ _ _ _ Hok Hup) as [_ ->].
Qed.

Lemma table_size dram : 1 <= dram <= 2 ^ 32 →
  nextPowerTwo dram = 2 ^ Z.log2_up dram ∧ 0 <= Z.log2_up dram < 64 ∧ dram <= nextPowerTwo dram <= 2 ^ 32 ∧ nextPowerTwo dram *₆₄ 4 = nextPowerTwo dram * 4.
Proof.
  intros Hd. pose proof (nextPowerTwo_lem dram Hd) as Hsz. assert (0 <= Z.log2_up dram) by apply Z.log2_up_nonneg.
  assert (Z.log2_up dram <= 32) by (rewrite <- (Z.log2_up_pow2 32) by lia; apply Z.log2_up_le_mono; lia).
  assert (2 ^ Z.log2_up dram <= 2 ^ 32) by (apply Z.pow_le_mono_r; lia).
  assert (dram <= nextPowerTwo dram).
  { rewrite Hsz. destruct (decide (dram = 1)) as [->|]; [done|]. apply Z.log2_up_spec. lia. }
  split_and!; try done; try lia. apply u64_small. lia.
Qed.

(** The workers of a [parallelRange] visit a vector of the right length
    completely and in order; with fewer elements than workers a check fails. *)
Lemma at_indices_all {A} (l pre : list A) : at_indices (pre ++ l) (seq (length pre) (length l)) = Ok l.
Proof.
  revert pre. induction l as [|x l IH]; intros pre; [done|]. cbn [length seq at_indices].
  rewrite (arr_get_lookup _ _ x) by (rewrite lookup_app_r, Nat.sub_diag by lia; done).
  specialize (IH (pre ++ [x])). rewrite <- app_assoc, length_app in IH. simpl in IH. rewrite Nat.add_1_r in IH.
  by rewrite bind_Ok, IH.
Qed.
Lemma seqZ_0_nat (n : Z) : Z.to_nat <$> seqZ 0 n = seq 0 (Z.to_nat n).
Proof.
  unfold seqZ. rewrite <- list_fmap_compose. rewrite list_fmap_ext with (g := id); [apply list_fmap_id|].
  intros _ x _. simpl. lia.
Qed.

Lemma range_elements_eq {A} (threads n : Z) (l : list A) : 0 <= n < 2 ^ 64 → length l = Z.to_nat n →
  range_elements threads n l = if decide (0 < threads <= n) then Ok l else Throw EnsureFailed.
Proof.
  intros Hn Hl. unfold range_elements. pose proof (parallelRange_once threads n Hn) as HR. destruct (parallelRange threads n) as [calls|e].
  - destruct HR as (Ht & _ & _ & Hc). rewrite decide_True by done. rewrite bind_Ok, Hc, seqZ_0_nat, <- Hl. apply (at_indices_all l []).
  - destruct HR as [-> Ht]. by rewrite decide_False.
Qed.

(** The constructor behind its checks. *)
Section constructor.
Variables (t : nat) (nodeId dram ssd : Z) (pages : list nat) (shuffle : list nat → list nat) (qf qf' : QF) (qp qp' : QP) (qi qi' : QI).
Notation size := (nextPowerTwo dram).
Notation frames := (seq (Z.to_nat size) (3 * Z.to_nat size)).
Notation pids := (filter (λ pid, pid ≠ CATALOG_PID) ((λ i, mkPID nodeId (Z.of_nat i)) <$> seq 0 (Z.to_nat ssd))).
Notation s0 := (mkBM (fresh_frames size (Z.to_nat (size * 4))) size nodeId qf' qp' qi' 0).
Hypotheses (Hd : 1 <= dram <= 2 ^ 32) (Hss : dram < ssd < 2 ^ 64) (Hpg : length pages = Z.to_nat dram) (Hsh : ∀ l, shuffle l ≡ₚ l).

Lemma bm_new_small : dram < 10 → bm_new t nodeId dram ssd pages shuffle qf qp qi = Throw EnsureFailed.
Proof.
  intros Hlt. destruct (table_size dram Hd) as (_ & _ & Hle & Hbf).
  unfold bm_new. rewrite Hbf. rewrite (proj2 (Z.ltb_lt dram (size * 4))) by lia. cbn [ensure]. rewrite bind_Ok. cbv zeta.
  rewrite (range_elements_eq 10 dram pages) by lia. by rewrite decide_False by lia.
Qed.

Lemma bm_new_eq : 10 <= dram → push_all LogicError (shuffle frames) qf = Ok qf' → push_all LogicError pages qp = Ok qp' →
  push_all EnsureFailed pids qi = Ok qi' →
  bm_new t nodeId dram ssd pages shuffle qf qp qi =
    (if nodeId =? CATALOG_OWNER then
       '(page, q) ← bag_pop 1 (pageFreeList s0);
       '(i, s) ← insertFrame 1 t CATALOG_PID (init_newPage t nodeId CATALOG_PID page None) (with_pages q s0);
       f ← get_frame s i;
       '(_, f) ← on_latch t HybridLatch.unlatchExclusive f;
       Ok (put_frame i f s)
     else Ok s0).
Proof.
  intros Hge Hpf Hpp Hpi. destruct (table_size dram Hd) as (_ & _ & Hle & Hbf).
  assert (size * 4 -₆₄ size = 3 * size) as Hfl by (rewrite u64_small; lia).
  assert (Z.to_nat (3 * size) = (3 * Z.to_nat size)%nat) as Hfn by lia.
  unfold bm_new. rewrite Hbf. rewrite (proj2 (Z.ltb_lt dram (size * 4))) by lia. cbn [ensure]. rewrite bind_Ok. cbv zeta.
  rewrite (range_elements_eq 10 dram pages) by lia. rewrite decide_True by lia. rewrite bind_Ok, Hpp, bind_Ok, Hfl.
  rewrite (range_elements_eq 10 (3 * size) (seq _ _)) by (rewrite ?length_seq; lia). rewrite decide_True by lia. rewrite bind_Ok, Hfn.
  rewrite (range_elements_eq 10 (3 * size) (shuffle _)) by (rewrite ?Hsh, ?length_seq; lia). rewrite decide_True by lia. rewrite bind_Ok.
  replace (forallb _ (shuffle frames)) with true.
  2:{ symmetry. apply forallb_forall. intros i Hi%list_elem_of_In. rewrite Hsh in Hi. apply elem_of_seq in Hi.
      rewrite fresh_frames_lookup, decide_True by lia. simpl. rewrite (proj2 (Z.ltb_ge _ _)) by lia. done. }
  cbn [ensure]. rewrite bind_Ok, Hpf, bind_Ok, (proj2 (Z.ltb_lt dram ssd)) by lia. cbn [ensure]. rewrite bind_Ok.
  rewrite (range_elements_eq 1 ssd) by (rewrite ?length_fmap, ?length_seq; lia). rewrite decide_True by lia. by rewrite bind_Ok, Hpi, bind_Ok.
Qed.
End constructor.

(** The frame of the catalog page as the constructor leaves it: not latched, in
    exclusive possession of the node. *)
Definition catalog_frame (nodeId : Z) (page : nat) (f : BufferFrame) : Prop :=
  latch_ok (bf_latch f) ∧ sh_mutex (bf_latch f) = MFree ∧ bf_pid f = CATALOG_PID ∧ bf_page f = Some page ∧
  bf_possession f = EXCLUSIVE ∧ bf_possessors f = nodeId ∧ bf_state f = HOT ∧ bf_pVersion f = 0.

(** The catalog page in a table of fresh frames. *)
Lemma catalog_page t nodeId page size N s : table s ∅ → quiet s → bfs s = fresh_frames size N →
  ∃ s' i f, ('(i, s) ← insertFrame 1 t CATALOG_PID (init_newPage t nodeId CATALOG_PID page None) s;
      f ← get_frame s i; '(_, f) ← on_latch t HybridLatch.unlatchExclusive f; Ok (put_frame i f s)) = Ok s' ∧
    table s' {[CATALOG_PID := i]} ∧ quiet s' ∧ bfs s' !! i = Some f ∧ catalog_frame nodeId page f ∧
    pidFreeList s' = pidFreeList s ∧ pageFreeList s' = pageFreeList s ∧ frameFreeList s' = frameFreeList s.
Proof.
  intros HT Hq Hfr.
  assert (∃ f, bfs s !! bucket_of (pt_size s) CATALOG_PID = Some f ∧ bf_state f = FREE) as (fb & Hfb & Hfree).
  { pose proof HT as (ch & Hw & _). pose proof (bucket_of_bucket _ CATALOG_PID ch Hw) as Hb.
    destruct (wf_buckets _ _ Hw _ Hb) as [f Hfb]. exists f. split; [exact Hfb|].
    rewrite Hfr, fresh_frames_lookup in Hfb. case_decide; [|done]. by simplify_eq. }
  destruct (insertFrame_table 0 t CATALOG_PID (init_newPage t nodeId CATALOG_PID page None) s ∅ HT)
    as (i & s1 & -> & HT2 & Hq2 & (f0 & f1 & l & Hl0 & Hm0 & Hi & Hf) & Hpp2 & Hpi2 & _ & _ & Hff2); try done; [apply init_newPage_ok|by eauto|].
  rewrite bind_Ok, (get_frame_eq _ _ _ Hf), bind_Ok.
  destruct (init_newPage_eq t nodeId CATALOG_PID page None f0 Hl0 Hm0) as (f' & Hi' & (Hlf & Hmf & Hnew) & _).
  rewrite Hi in Hi'. simplify_eq Hi'. intros <-. pose proof Hnew as (_ & _ & _ & _ & Hsf & _).
  destruct (release_table t i _ s1 _ HT2 Hq2 Hf) as (l2 & -> & HT3 & Hq3 & Hl2 & Hm2); [simpl; congruence|done|done|].
  rewrite bind_Ok. eexists _, i, _. split; [reflexivity|]. split; [exact HT3|]. split; [done|]. split; [apply lookup_insert_eq|].
  split_and!; try done; try (simpl; apply Hnew). by apply (Hff2 fb).
Qed.

(** [C37] The constructor, given empty free lists that take all it pushes.  With
    fewer than ten pages of DRAM a check fails.  Otherwise it returns: the table
    is empty, or holds exactly the catalog page on the node that owns it, in a
    frame that is not latched and in exclusive possession of the node; no bucket
    latch is held; the free page ids are those of this node, each once and
    without the reserved one; the free frames are all frames behind the buckets;
    the free pages are all pages of the pool but the one of the catalog. *)
Theorem constructor_table t nodeId dram ssd pages shuffle (qf qf' : QF) (qp qp' : QP) (qi qi' : QI) :
  1 <= dram <= 2 ^ 32 → dram < ssd < 2 ^ 64 → length pages = Z.to_nat dram → (∀ l, shuffle l ≡ₚ l) →
  let frames := seq (Z.to_nat (nextPowerTwo dram)) (3 * Z.to_nat (nextPowerTwo dram)) in
  let pids := filter (λ pid, pid ≠ CATALOG_PID) ((λ i, mkPID nodeId (Z.of_nat i)) <$> seq 0 (Z.to_nat ssd)) in
  bag_ok qf ∧ bag_contents qf = [] ∧ push_all LogicError (shuffle frames) qf = Ok qf' →
  bag_ok qp ∧ bag_contents qp = [] ∧ push_all LogicError pages qp = Ok qp' →
  bag_ok qi ∧ bag_contents qi = [] ∧ push_all EnsureFailed pids qi = Ok qi' →
  (nodeId = CATALOG_OWNER → ∃ page q, bag_pop 1 qp' = Ok (page, q)) →
  if dram <? 10 then bm_new t nodeId dram ssd pages shuffle qf qp qi = Throw EnsureFailed
  else ∃ s M, bm_new t nodeId dram ssd pages shuffle qf qp qi = Ok s ∧ table s M ∧ quiet s ∧
    bag_contents (pidFreeList s) ≡ₚ pids ∧ CATALOG_PID ∉ bag_contents (pidFreeList s) ∧
    bag_contents (frameFreeList s) ≡ₚ frames ∧
    if nodeId =? CATALOG_OWNER then
      ∃ i f page, M = {[CATALOG_PID := i]} ∧ bfs s !! i = Some f ∧ catalog_frame nodeId page f ∧
        page :: bag_contents (pageFreeList s) ≡ₚ pages
    else M = ∅ ∧ bag_contents (pageFreeList s) ≡ₚ pages.
Proof.
  intros Hd Hss Hpg Hsh frames pids (Hof & Hef & Hpf) (Hop & Hep & Hpp) (Hoi & Hei & Hpi) Hcat.
  destruct (Z.ltb_spec dram 10); [by apply bm_new_small|].
  destruct (table_size dram Hd) as (Hsz & Hlg & Hle & _).
  rewrite (bm_new_eq t nodeId dram ssd pages shuffle qf qf' qp qp' qi qi' Hd Hss Hpg Hsh) by done.
  destruct (push_all_inv _ _ _ _ Hof Hpf) as [Hof' Hcf]. destruct (push_all_inv _ _ _ _ Hop Hpp) as [Hop' Hcp].
  destruct (push_all_inv _ _ _ _ Hoi Hpi) as [Hoi' Hci].
  rewrite Hef, app_nil_r, Hsh in Hcf. rewrite Hei, app_nil_r in Hci. rewrite Hep, app_nil_r in Hcp.
  set (size := nextPowerTwo dram) in *.
  destruct (fresh_table size (Z.to_nat (size * 4)) nodeId qf' qp' qi' 0 (Z.log2_up dram)) as [HT Hq]; try done; try lia.
  { rewrite Hcf. apply NoDup_seq. }
  { intros i Hi. rewrite Hcf in Hi. apply elem_of_seq in Hi. lia. }
  set (s0 := mkBM (fresh_frames size (Z.to_nat (size * 4))) size nodeId qf' qp' qi' 0) in *.
  assert (CATALOG_PID ∉ bag_contents qi') as Hnc.
  { rewrite Hci. intros Hin. apply list_elem_of_filter in Hin as [Hin _]. done. }
  destruct (Z.eqb_spec nodeId CATALOG_OWNER) as [Hn|Hn]; [|exists s0, ∅; by split_and!].
  destruct (Hcat Hn) as (page & q & Hpop). change (pageFreeList s0) with qp'. rewrite Hpop, bind_Ok.
  assert (table (with_pages q s0) ∅) as HT1 by (apply (table_core s0); [apply core_eq_refl|done|done|done]).
  destruct (catalog_page t nodeId page size (Z.to_nat (size * 4)) (with_pages q s0) HT1 Hq eq_refl)
    as (s' & i & f & Hs' & HT' & Hq' & Hf & Hcf' & Hpids & Hpgs & Hfrs).
  exists s', {[CATALOG_PID := i]}. rewrite Hpids, Hfrs. split_and!; try done. exists i, f, page. split_and!; try done.
  rewrite Hpgs. destruct (bag_pop_inv _ _ _ _ Hop' Hpop) as [_ HP]. by rewrite <- Hcp, HP.
Qed.

End spec.

(** ** A pool of eight frames, two of them buckets, on node 3 of 8, with assertions *)

Definition ex_build : Build := mkBuild true 8.
#[local] Existing Instance ex_build.

Definition ex_bm : @BM (list nat) (list nat) (list Z) :=
  mkBM (fresh_frames 2 8) 2 3 (seq 2 6) [10; 11]%nat [mkPID 3 5; mkPID 3 6] 0.

Lemma ex_bm_table : table ex_bm ∅ ∧ quiet ex_bm.
Proof.
  apply (fresh_table 2 8 3 (seq 2 6) [10; 11]%nat [mkPID 3 5; mkPID 3 6] 0 1); [lia|done|done|done|..].
  - apply NoDup_seq.
  - intros i Hi. apply elem_of_seq in Hi. lia.
Qed.

Lemma insertFrame_refines_witness :
  ∃ i s', insertFrame 1 1 (mkPID 3 5) (init_newPage 1 3 (mkPID 3 5) 10 None) ex_bm = Ok (i, s') ∧
    table s' {[mkPID 3 5 := i]} ∧ quiet s'.
Proof.
  destruct (insertFrame_refines 0 1 (mkPID 3 5) (init_newPage 1 3 (mkPID 3 5) 10 None) ex_bm ∅) as [H _].
  - apply ex_bm_table.
  - apply ex_bm_table.
  - by vm_compute.
  - apply init_newPage_ok.
  - destruct H as (i & s' & H1 & H2 & H3 & _); [done|right; by do 2 eexists|].
    exists i, s'. exact (conj H1 (conj H2 H3)).
Defined.

(** The same pool after page 5 was allocated by thread 1. *)
Definition ex_alloc : nat * @BM (list nat) (list nat) (list Z) :=
  match newPage 1 1 ex_bm with Ok r => r | Throw _ => (O, ex_bm) end.

Lemma ex_alloc_table : ∃ f, newPage 1 1 ex_bm = Ok ex_alloc ∧ table ex_alloc.2 {[mkPID 3 5 := ex_alloc.1]} ∧
  quiet ex_alloc.2 ∧ bfs ex_alloc.2 !! ex_alloc.1 = Some f ∧ new_frame 1 3 (mkPID 3 5) 10 f.
Proof.
  destruct ex_bm_table as [HT Hq].
  destruct (newPage_table 0 1 ex_bm ∅ (mkPID 3 5) 10 [mkPID 3 6] [11]%nat HT Hq) as (i & s' & f & Hr & ? & ? & ? & ? & _);
    [reflexivity|reflexivity|done|by vm_compute|right; by do 2 eexists|].
  exists f. unfold ex_alloc. rewrite Hr. by split_and!.
Qed.

Lemma removeFrame_refines_witness : ∃ s',
  removeFrame 1 1 ex_alloc.1 (λ _ s, Ok (with_pids [] (with_pages [] s))) ex_alloc.2 = Ok s' ∧ table s' ∅ ∧ quiet s'.
Proof.
  destruct ex_alloc_table as (f & _ & HT & Hq & Hf & (Hl & Hm & Hp & _ & _ & _ & Hs & _)).
  destruct (removeFrame_refines 0 1 ex_alloc.1 f (λ _ s, Ok (with_pids [] (with_pages [] s))) [] [] ex_alloc.2
    {[mkPID 3 5 := ex_alloc.1]} HT Hq Hf) as (s' & Hr & HT' & Hq' & _).
  - by rewrite Hs.
  - rewrite Hp. apply lookup_singleton_eq.
  - done.
  - done.
  - done.
  - rewrite Hp, delete_singleton_eq in HT'. exists s'. exact (conj Hr (conj HT' Hq')).
Defined.

Lemma newPage_reclaimPage_witness : ∃ i s1 s2, newPage 1 1 ex_bm = Ok (i, s1) ∧ reclaimPage 1 1 i s1 = Ok s2 ∧
  table s2 ∅ ∧ bag_contents (pidFreeList s2) ≡ₚ [mkPID 3 5; mkPID 3 6].
Proof.
  destruct ex_bm_table as [HT Hq].
  destruct (newPage_reclaimPage 0 1 ex_bm ∅ (mkPID 3 5) 10 [mkPID 3 6] [11]%nat [mkPID 3 5; mkPID 3 6] [10; 11]%nat HT Hq)
    as (i & s1 & f & H1 & _ & _ & _ & s2 & H2 & H3 & _ & H4 & _);
    [done|done|reflexivity..|done|by vm_compute|reflexivity|right; by do 2 eexists|].
  exists i, s1, s2. exact (conj H1 (conj H2 (conj H3 H4))).
Defined.

(** On node 3 of 4 the reclamation aborts. *)
Example reclaimPage_aborts :
  (let B := mkBuild true 4 in '(i, s) ← newPage 1 1 ex_bm; reclaimPage 1 1 i s) = Throw AssertFailed.
Proof. vm_compute. reflexivity. Qed.

Lemma constructor_table_witness : ∃ s M, bm_new 1 0 10 12 (seq 100 10) reverse [] [] [] = Ok s ∧ table s M ∧
  (∃ i, M = {[CATALOG_PID := i]}) ∧ bag_contents (pidFreeList s) ≡ₚ [1; 2; 3; 4; 5; 6; 7; 8; 9; 10; 11].
Proof.
  destruct (constructor_table 1 0 10 12 (seq 100 10) reverse [] (seq 16 48) [] (reverse (seq 100 10)) []
     (reverse [1; 2; 3; 4; 5; 6; 7; 8; 9; 10; 11]))
    as (s & M & H1 & H2 & _ & H3 & _ & _ & i & _ & _ & H4 & _).
  - lia.
  - lia.
  - reflexivity.
  - intros l. apply reverse_Permutation.
  - split_and!; [done|done|reflexivity].
  - split_and!; [done|done|reflexivity].
  - split_and!; [done|done|vm_compute; reflexivity].
  - intros _. by do 2 eexists.
  - exists s, M. refine (conj H1 (conj H2 (conj (ex_intro _ i H4) H3))).
Defined.
