(* ===== verification/PageTableFind.v ===== *)
(** * Lookups of the page table among other threads

    [findFrame] and [findFrameOrInsert] validate the bucket version around every
    read.  Under the discipline the exclusive bucket latch gives (a thread that
    changes a bucket changes its version), what they return is true of the table
    at the moment of the last validation. *)

From S2P Require Import Prelude Defs Bitmap Latch BufferFrame Bag PageTable PageTableInv PageTableSpec.
Local Open Scope Z_scope.
Import OptimisticLatch.
#[local] Opaque EMPTY_PID bucket_of FasterHash latch_ok.
#[local] Arguments u64 : simpl never.
#[local] Arguments isLatched : simpl never.

Section find_proofs.
Context `{!Build} {QF QP QI : Type} `{!FreeBag QF nat, !FreeBag QP nat, !FreeBag QI Z}.
Notation BM := (@BM QF QP QI).
Implicit Types (s : BM) (i b : nat) (pid v : Z) (ch : nat → list nat).

(** The version of a bucket. *)
Definition ver s b : Z := match bfs s !! b with Some f => sh_version (bf_ht_latch f) | None => 0 end.

(** The bucket [b] and its chain hold the same frames with the same page ids. *)
Definition same_bucket b s ch s' ch' : Prop :=
  ch' b = ch b ∧ ∀ i f, i ∈ b :: ch b → bfs s !! i = Some f → ∃ f', bfs s' !! i = Some f' ∧ bf_pid f' = bf_pid f.

(** From [s] to a later [s'] with respect to bucket [b]: well formed again, no
    frame gone, the version not smaller, and the bucket changed only with it.
    (Versions are compared as they are counted: a lookup is not overtaken by
    2^62 changes of one bucket.) *)
Record later b s ch s' ch' : Prop := {
  lt_wf : wf s' ch';
  lt_size : pt_size s' = pt_size s;
  lt_node : bm_nodeId s' = bm_nodeId s;
  lt_dom i : is_Some (bfs s !! i) → is_Some (bfs s' !! i);
  lt_ver : ver s b <= ver s' b;
  lt_same : ver s' b = ver s b → same_bucket b s ch s' ch';
}.

Lemma later_refl b s ch : wf s ch → later b s ch s ch.
Proof. intros Hw. constructor; try done. intros _. split; [done|]. eauto. Qed.

Lemma later_trans b s ch s1 ch1 s2 ch2 : later b s ch s1 ch1 → later b s1 ch1 s2 ch2 → later b s ch s2 ch2.
Proof.
  intros [? ? ? Hd1 Hv1 Hs1] [? ? ? Hd2 Hv2 Hs2]. constructor; try congruence; try lia.
  - intros i Hi. by apply Hd2, Hd1.
  - intros Hv. destruct (Hs1 ltac:(lia)) as [Hc1 Hp1]. destruct (Hs2 ltac:(lia)) as [Hc2 Hp2].
    split; [congruence|]. intros i f Hi Hf. destruct (Hp1 i f Hi Hf) as (f1 & Hf1 & E1).
    destruct (Hp2 i f1) as (f2 & Hf2 & E2); [by rewrite Hc1|done|]. exists f2. split; [done|congruence].
Qed.

(** What the other threads may do: whole operations on the table. *)
Definition env_table (env : nat → BM → BM) b : Prop :=
  ∀ n s ch, wf s ch → ∃ ch', later b s ch (env n s) ch'.

Section walk.
Variables (env : nat → BM → BM) (b : nat).
Hypothesis Henv : env_table env b.
Implicit Types x : world (QF:=QF) (QP:=QP) (QI:=QI).

Lemma interfere_later x ch : wf x.2 ch → ∃ ch', later b x.2 ch (interfere env x).2 ch'.
Proof. intros Hw. apply (Henv x.1 x.2 ch Hw). Qed.

Lemma ht_version_eq s ch : wf s ch → is_bucket s b → ht_version s b = Ok (ver s b).
Proof.
  intros Hw Hb. destruct (wf_buckets _ _ Hw b Hb) as [f Hf]. unfold ht_version, ver.
  by rewrite (get_frame_eq _ _ _ Hf), Hf.
Qed.

Lemma later_bucket s ch s' ch' : later b s ch s' ch' → is_bucket s b → is_bucket s' b.
Proof. intros Hl. unfold is_bucket. by rewrite (lt_size _ _ _ _ _ Hl). Qed.

Lemma validate_later x ch v : wf x.2 ch → is_bucket x.2 b → ∃ x' ch',
  validate env b v x = Ok (v =? ver x'.2 b, x') ∧ later b x.2 ch x'.2 ch'.
Proof.
  intros Hw Hb. destruct (interfere_later x ch Hw) as (ch' & Hl). exists (interfere env x), ch'. split; [|done].
  unfold validate. rewrite (ht_version_eq _ ch'); [done|apply Hl|by eapply later_bucket].
Qed.

(** Where in the chain a slot is; [r] frames are still to come, and the ones
    before have other page ids. *)
Definition at_slot pid s ch (sl : slot) (r : nat) : Prop :=
  match sl with
  | SBucket b' => b' = b ∧ r = S (length (ch b))
  | SNext i => ∃ l1 l2, b :: ch b = l1 ++ i :: l2 ∧ r = length l2 ∧
      ∀ j f, j ∈ l1 ++ [i] → bfs s !! j = Some f → bf_pid f ≠ pid
  end.

Lemma at_slot_later pid s ch s' ch' sl r : later b s ch s' ch' → ver s' b = ver s b → wf s ch → is_bucket s b →
  at_slot pid s ch sl r → at_slot pid s' ch' sl r.
Proof.
  intros Hl Hv Hw Hb. destruct (lt_same _ _ _ _ _ Hl Hv) as [Hc Hp]. destruct sl as [b'|i]; simpl; rewrite Hc; [done|].
  intros (l1 & l2 & Hch & Hr & Hne). exists l1, l2. split_and!; try done. intros j f' Hj Hf'.
  assert (j ∈ b :: ch b) as Hj' by (rewrite Hch; set_solver).
  destruct (linked_is_Some _ _ _ j (wf_linked _ _ Hw b Hb)) as [f Hf]; [done|].
  destruct (Hp j f Hj' Hf) as (f2 & Hf2 & E). simplify_eq. rewrite E. by eapply Hne.
Qed.

(** The frame behind a slot. *)
Lemma read_at_slot pid s ch sl r : wf s ch → is_bucket s b → at_slot pid s ch sl r →
  ∃ o, read_slot s sl = Ok o ∧
    match o with
    | None => r = O ∧ sl = SNext (chain_last b (ch b)) ∧ ∀ j f, j ∈ b :: ch b → bfs s !! j = Some f → bf_pid f ≠ pid
    | Some i => ∃ r', r = S r' ∧ i ∈ b :: ch b ∧
        ((∀ f, bfs s !! i = Some f → bf_pid f ≠ pid) → at_slot pid s ch (SNext i) r')
    end.
Proof.
  intros Hw Hb. destruct sl as [b'|i]; simpl.
  - intros [-> ->]. eexists. split; [done|]. exists (length (ch b)). split; [done|]. split; [by left|].
    intros Hne. exists [], (ch b). split_and!; try done. intros j f Hj. assert (j = b) as -> by set_solver. apply Hne.
  - intros (l1 & l2 & Hch & -> & Hne).
    assert (linked (bfs s) i l2) as Hlk.
    { pose proof (wf_linked _ _ Hw b Hb) as Hl. destruct l1 as [|b0 l1]; injection Hch as Hb0 Hcb; rewrite Hcb in Hl; [by rewrite <- Hb0|].
      by eapply linked_app. }
    destruct l2 as [|k l2]; destruct Hlk as (f & Hf & Hn); rewrite (get_frame_eq _ _ _ Hf); simpl.
    + rewrite Hn. eexists. split; [done|]. split; [done|]. split; [|by rewrite Hch].
      f_equal. unfold chain_last. destruct l1 as [|b0 l1]; injection Hch as Hb0 ->; [done|]. by rewrite last_snoc.
    + destruct Hn as [-> Hl]. eexists. split; [done|]. exists (length l2). split; [done|].
      split; [rewrite Hch; set_solver|]. intros Hk. exists (l1 ++ [i]), l2. rewrite Hch, <- app_assoc. split_and!; try done.
      intros j g [Hj|Hj]%elem_of_app; [by apply Hne|]. assert (j = k) as -> by set_solver. apply Hk.
Qed.

Definition slot_ok s (sl : slot) : Prop := match sl with SBucket _ => True | SNext i => is_Some (bfs s !! i) end.
Lemma slot_ok_later s ch s' ch' sl : later b s ch s' ch' → slot_ok s sl → slot_ok s' sl.
Proof. intros Hl. destruct sl; simpl; [done|apply (lt_dom _ _ _ _ _ Hl)]. Qed.
Lemma read_slot_ok s sl : slot_ok s sl → ∃ o, read_slot s sl = Ok o.
Proof. destruct sl as [|i]; simpl; [by eexists|]. intros [f Hf]. rewrite (get_frame_eq _ _ _ Hf). by eexists. Qed.

(** What the loop found out, of a state in which the version is the one it
    validated against. *)
Definition walk_post pid s ch (w : walked) : Prop :=
  match w with
  | WRestart => True
  | WFound i => i ∈ b :: ch b ∧ ∃ f, bfs s !! i = Some f ∧ bf_pid f = pid
  | WEnd sl => sl = SNext (chain_last b (ch b)) ∧ ∀ j f, j ∈ b :: ch b → bfs s !! j = Some f → bf_pid f ≠ pid
  end.

Lemma walk_spec fuel v pid sl x ch : wf x.2 ch → is_bucket x.2 b → slot_ok x.2 sl → v <= ver x.2 b →
  (ver x.2 b = v → ∃ r, at_slot pid x.2 ch sl r ∧ (r < S fuel)%nat) →
  ∃ w x' ch', walk env (S fuel) b v pid sl x = Ok (w, x') ∧ later b x.2 ch x'.2 ch' ∧
    (ver x'.2 b = v → walk_post pid x'.2 ch' w) ∧ (∀ i, w = WFound i → ver x'.2 b = v).
Proof.
  revert sl x ch. induction fuel as [fuel IH] using lt_wf_ind. intros sl x ch Hw Hb Hsl Hv Hat.
  cbn [walk]. destruct (read_slot_ok _ _ Hsl) as [cond Hcond]. rewrite Hcond, bind_Ok.
  destruct (decide (cond = None)) as [->|Hsome].
  { exists (WEnd sl), x, ch. split; [done|]. split; [by apply later_refl|]. split; [|done]. intros Hvv.
    destruct (Hat Hvv) as (r & Hr & _). destruct (read_at_slot pid _ _ _ _ Hw Hb Hr) as (o & Ho & Hpost).
    rewrite Hcond in Ho. simplify_eq. by destruct Hpost as (_ & ? & ?). }
  destruct (interfere_later x ch Hw) as (ch1 & Hl1). set (x1 := interfere env x) in *. cbv zeta.
  pose proof (later_bucket _ _ _ _ Hl1 Hb) as Hb1. pose proof (slot_ok_later _ _ _ _ _ Hl1 Hsl) as Hsl1.
  destruct (read_slot_ok _ _ Hsl1) as [tmp Htmp]. rewrite Htmp, bind_Ok.
  destruct (validate_later x1 ch1 v (lt_wf _ _ _ _ _ Hl1) Hb1) as (x2 & ch2 & -> & Hl2). rewrite bind_Ok.
  pose proof (later_trans _ _ _ _ _ _ _ Hl1 Hl2) as Hl02. pose proof (later_bucket _ _ _ _ Hl2 Hb1) as Hb2.
  destruct (Z.eqb_spec v (ver x2.2 b)) as [Hv2|Hv2]; cbn [negb].
  2:{ exists WRestart, x2, ch2. by split_and!. }
  pose proof (lt_ver _ _ _ _ _ Hl1) as Hm1. pose proof (lt_ver _ _ _ _ _ Hl2) as Hm2.
  destruct Hat as (r & Hat & Hr); [lia|].
  assert (at_slot pid x1.2 ch1 sl r) as Hat1 by (eapply at_slot_later; [exact Hl1|lia|done|done|done]).
  destruct (read_at_slot pid _ _ _ _ (lt_wf _ _ _ _ _ Hl1) Hb1 Hat1) as (o & Ho & Hpost).
  rewrite Htmp in Ho. simplify_eq Ho. intros <-. clear Ho. destruct tmp as [i|].
  2:{ destruct Hpost as (-> & Hsl' & _). exfalso. apply Hsome.
      destruct (read_at_slot pid _ _ _ _ Hw Hb Hat) as (o & Ho & Hpost0). rewrite Hcond in Ho. simplify_eq.
      destruct o as [j|]; [|done]. destruct Hpost0 as (r' & ? & _). lia. }
  cbn [of_option]. rewrite bind_Ok. destruct Hpost as (r' & -> & Hi & Hnext).
  destruct (lt_same _ _ _ _ _ Hl2 ltac:(lia)) as [Hc2 Hp2].
  destruct (linked_is_Some _ _ _ i (wf_linked _ _ (lt_wf _ _ _ _ _ Hl1) b Hb1) Hi) as [f1 Hf1].
  destruct (Hp2 i f1 Hi Hf1) as (f2 & Hf2 & E2).
  destruct (interfere_later x2 ch2 (lt_wf _ _ _ _ _ Hl2)) as (ch3 & Hl3). set (x3 := interfere env x2) in *.
  destruct (lt_dom _ _ _ _ _ Hl3 i) as [f3 Hf3]; [by eexists|]. rewrite (get_frame_eq _ _ _ Hf3), bind_Ok.
  pose proof (later_bucket _ _ _ _ Hl3 Hb2) as Hb3. pose proof (lt_ver _ _ _ _ _ Hl3) as Hm3.
  destruct (validate_later x3 ch3 v (lt_wf _ _ _ _ _ Hl3) Hb3) as (x4 & ch4 & Hval & Hl4).
  pose proof (later_trans _ _ _ _ _ _ _ Hl02 (later_trans _ _ _ _ _ _ _ Hl3 Hl4)) as Hl04.
  pose proof (later_bucket _ _ _ _ Hl4 Hb3) as Hb4. pose proof (lt_ver _ _ _ _ _ Hl4) as Hm4.
  assert (ver x4.2 b = v → i ∈ b :: ch4 b ∧ ∃ f4, bfs x4.2 !! i = Some f4 ∧ bf_pid f4 = bf_pid f3) as Hsame.
  { intros Hv4. destruct (lt_same _ _ _ _ _ Hl3 ltac:(lia)) as [Hc3 Hp3]. destruct (lt_same _ _ _ _ _ Hl4 ltac:(lia)) as [Hc4 Hp4].
    assert (i ∈ b :: ch3 b) as Hi3 by (by rewrite Hc3, Hc2). split; [by rewrite Hc4|].
    destruct (Hp4 i f3 Hi3 Hf3) as (f4 & ? & ?). by exists f4. }
  destruct (Z.eqb_spec (bf_pid f3) pid) as [Hp|Hp]; rewrite Hval, bind_Ok;
    (destruct (Z.eqb_spec v (ver x4.2 b)) as [Hv4|Hv4]; cbn [negb]; [|exists WRestart, x4, ch4; by split_and!]).
  - exists (WFound i), x4, ch4. split_and!; try done. intros _. destruct (Hsame (eq_sym Hv4)) as (? & f4 & ? & ?).
    split; [done|]. exists f4. split; [done|congruence].
  - destruct (Hsame (eq_sym Hv4)) as (Hi4 & f4 & Hf4 & E4). destruct fuel as [|fuel].
    { lia. }
    destruct (IH fuel ltac:(lia) (SNext i) x4 ch4) as (w & x' & ch' & Hwk & Hl5 & ? & ?).
    + apply Hl4.
    + done.
    + by eexists.
    + lia.
    + intros _. exists r'. split; [|lia].
      eapply (at_slot_later pid x1.2 ch1 x4.2 ch4); [|lia|apply Hl1|done|].
      * eapply later_trans; [exact Hl2|]. by eapply later_trans.
      * apply Hnext. intros f Hf. simplify_eq. destruct (lt_same _ _ _ _ _ Hl3 ltac:(lia)) as [_ Hp3].
        destruct (Hp3 i f2) as (f3' & ? & ?); [by rewrite Hc2|done|]. simplify_eq. congruence.
    + exists w, x', ch'. split_and!; try done. by eapply later_trans.
Qed.

End walk.
(** ** The functor and the result *)

Definition unchanged (f f' : BufferFrame) : Prop :=
  bf_next f' = bf_next f ∧ bf_pid f' = bf_pid f ∧ bf_state f' = bf_state f ∧ bf_isHtBucket f' = bf_isHtBucket f ∧
  bf_ht_latch f' = bf_ht_latch f.

(** Functors only act on the latch of the frame, and undo a latch they hold. *)
Record fn_ok (t : nat) (fn : Functor) : Prop := {
  fn_op_law g f g' f' : fn_op fn g f = Ok (g', f') → unchanged f f' ∧ g_frame g' = g_frame g ∧ g_state g' ≠ NOT_FOUND;
  fn_undo_law g f g' f' : fn_undo fn g f = Ok (g', f') →
    unchanged f f' ∧ g_frame g' = g_frame g ∧ g_state g' ≠ NOT_FOUND ∧
    (bf_latch f' = bf_latch f ∨ mode t (bf_latch f) ≠ UNLATCHED);
}.

(** The others respect the frame latches of thread [t]. *)
Definition env_frames (t : nat) (env : nat → BM → BM) : Prop :=
  ∀ n s i f f', bfs s !! i = Some f → bfs (env n s) !! i = Some f' →
    mode t (bf_latch f') = mode t (bf_latch f) ∧
    (mode t (bf_latch f) ≠ UNLATCHED → bf_state f ≠ FREE → bf_state f' ≠ FREE).

Lemma later_put b s ch i f f' : wf s ch → bfs s !! i = Some f → unchanged f f' →
  (bf_state f = FREE → bf_latch f' = bf_latch f) → later b s ch (put_frame i f' s) ch.
Proof.
  intros Hw Hf (Hn & Hp & Hs & Hh & Hht) Hl.
  assert (same_core f f') as Hc by (by split_and!).
  assert (ver (put_frame i f' s) b = ver s b) as Hv.
  { unfold ver. simpl. destruct (decide (i = b)) as [->|]; [rewrite lookup_insert_eq, Hf|by rewrite lookup_insert_ne]. by rewrite Hht. }
  constructor; try done.
  - eapply wf_core; [done|by eapply core_eq_insert|done|done].
  - intros j Hj. simpl. apply lookup_insert_is_Some'. by right.
  - by rewrite Hv.
  - intros _. split; [done|]. intros j g _ Hg.
    destruct (core_eq_lookup' (bfs s) (bfs (put_frame i f' s)) j g) as (g' & Hg' & _ & ? & _); [by eapply core_eq_insert|done|].
    by exists g'.
Qed.

Lemma maps_in_bucket s ch pid i f : wf s ch → pid ≠ EMPTY_PID →
  i ∈ bucket_of (pt_size s) pid :: ch (bucket_of (pt_size s) pid) → bfs s !! i = Some f → bf_pid f = pid →
  maps s ch pid i.
Proof.
  intros Hw Hpe Hi Hf Hp. exists f. split_and!; try done. intros Hst.
  destruct (wf_free _ _ Hw i f Hf Hst) as (E & _). congruence.
Qed.

Section safe.
Variables (env : nat → BM → BM) (t : nat) (fn : Functor) (pid : Z) (b : nat).
Hypotheses (Henv : env_table env b) (Hfr : env_frames t env) (Hfn : fn_ok t fn) (Hpe : pid ≠ EMPTY_PID).
Implicit Types x : world (QF:=QF) (QP:=QP) (QI:=QI).

(** A guard that the undo of the functor returned. *)
Definition undone (g : Guard) : Prop := ∃ g0 f f', fn_undo fn g0 f = Ok (g, f').

Definition found_post (m : CONTENTION_METHOD) s ch (g : Guard) : Prop :=
  (∃ i, g_frame g = Some i ∧ maps s ch pid i ∧ g_state g ≠ NOT_FOUND ∧ (m = BLOCKING → g_state g ≠ RETRY)) ∨
  (m = NON_BLOCKING ∧ undone g).

Lemma on_found_spec m v i g x ch r x' f : wf x.2 ch → b = bucket_of (pt_size x.2) pid → ver x.2 b = v →
  i ∈ b :: ch b → bfs x.2 !! i = Some f → bf_pid f = pid → on_found env m fn b v i g x = Ok (r, x') →
  ∃ ch', later b x.2 ch x'.2 ch' ∧ match r with FReturn g' => found_post m x'.2 ch' g' | FRestart _ => m = BLOCKING end.
Proof.
  intros Hw Hbk Hv Hi Hf Hp Hr. unfold on_found in Hr. rewrite (get_frame_eq _ _ _ Hf), bind_Ok in Hr.
  assert (is_bucket x.2 b) as Hb by (rewrite Hbk; by eapply bucket_of_bucket).
  apply bind_Ok_inv in Hr as ([g1 f1] & Hop & Hr). destruct (fn_op_law _ _ Hfn _ _ _ _ Hop) as (Hun & Hgf & Hgs).
  assert (bf_state f ≠ FREE) as Hst.
  { intros E. destruct (wf_free _ _ Hw i f Hf E) as (? & _). congruence. }
  pose proof (later_put b x.2 ch i f f1 Hw Hf Hun ltac:(done)) as Hl1. set (x1 := (x.1, put_frame i f1 x.2)) in *.
  pose proof (later_bucket b _ _ _ _ Hl1 Hb) as Hb1.
  assert (bfs x1.2 !! i = Some f1) as Hf1 by (simpl; by rewrite lookup_insert_eq).
  destruct (validate_later env b Henv x1 ch v (lt_wf _ _ _ _ _ Hl1) Hb1) as (x2 & ch2 & Hval & Hl2).
  assert (x2 = interfere env x1) as Hx2.
  { unfold validate in Hval. cbv zeta in Hval. destruct (ht_version (interfere env x1).2 b); [|done].
    rewrite bind_Ok in Hval. congruence. }
  pose proof (later_trans _ _ _ _ _ _ _ Hl1 Hl2) as Hl.
  assert (ver x1.2 b = v) as Hv1.
  { unfold ver in *. simpl. destruct (decide (i = b)) as [->|].
    - rewrite lookup_insert_eq. rewrite Hf in Hv. destruct Hun as (_ & _ & _ & _ & ->). done.
    - by rewrite lookup_insert_ne. }
  assert (v = ver x2.2 b → g_state g1 ≠ NOT_FOUND → maps x2.2 ch2 pid i) as Hmaps.
  { intros Hv2 _. destruct (lt_same _ _ _ _ _ Hl2 ltac:(lia)) as [Hc2 Hp2]. destruct (Hp2 i f1 Hi Hf1) as (f2 & Hf2 & E2).
    apply (maps_in_bucket _ _ _ _ f2 (lt_wf _ _ _ _ _ Hl2) Hpe); [|done|].
    - rewrite (lt_size _ _ _ _ _ Hl), <- Hbk. by rewrite Hc2.
    - rewrite E2. destruct Hun as (_ & -> & _). done. }
  assert (∀ g2 y, (f ← get_frame x2.2 i; '(g, f) ← fn_undo fn g1 f; Ok (g, (x2.1, put_frame i f x2.2))) = Ok (g2, y) →
    later b x.2 ch y.2 ch2 ∧ undone g2) as Hundo.
  { intros g2 y Hy. apply bind_Ok_inv in Hy as (f2 & Hf2 & Hy). apply bind_Ok_inv in Hy as ([g3 f3] & Hu & Hy). injection Hy as <- <-.
    unfold get_frame in Hf2. destruct (bfs x2.2 !! i) as [f2'|] eqn:Ef2; simplify_eq Hf2; intros ->.
    destruct (fn_undo_law _ _ Hfn _ _ _ _ Hu) as (Hun' & _ & _ & Hlat). split; [|by eexists _, _, _].
    eapply later_trans; [exact Hl|]. apply (later_put b _ _ i f2); [apply Hl2|done|done|].
    intros Hfree. destruct Hlat as [|Hmode]; [done|]. exfalso. rewrite Hx2 in Ef2.
    destruct (Hfr x1.1 x1.2 i f1 f2 Hf1 Ef2) as [Hm1 Hm2]. rewrite Hm1 in Hmode. apply Hm2; [done| |done].
    destruct Hun as (_ & _ & -> & _). done. }
  destruct m.
  - destruct (decide (g_state g1 = RETRY)) as [Hre|Hre].
    { injection Hr as <- <-. exists ch. by split. }
    rewrite Hval, bind_Ok in Hr. destruct (Z.eqb_spec v (ver x2.2 b)) as [Hv2|Hv2]; cbn [negb] in Hr.
    + injection Hr as <- <-. exists ch2. split; [done|]. left. exists i. rewrite Hgf. split_and!; try done. by apply Hmaps.
    + apply bind_Ok_inv in Hr as ([g2 y] & Hy & Hr). injection Hr as <- <-. destruct (Hundo _ _ Hy) as [? _]. by exists ch2.
  - rewrite Hval, bind_Ok in Hr. destruct (Z.eqb_spec v (ver x2.2 b)) as [Hv2|Hv2]; cbn [negb] in Hr.
    + injection Hr as <- <-. exists ch2. split; [done|]. left. exists i. rewrite Hgf. split_and!; try done. by apply Hmaps.
    + apply bind_Ok_inv in Hr as ([g2 y] & Hy & Hr). injection Hr as <- <-. destruct (Hundo _ _ Hy) as [? ?]. exists ch2. split; [done|]. by right.
Qed.

(** One round up to the end of the loop, for both lookups. *)
Lemma round_spec x ch v : wf x.2 ch → b = bucket_of (pt_size x.2) pid →
  ht_version (interfere env x).2 b = Ok v → ∃ w x' ch',
  walk env (S (chain_fuel (interfere env x).2)) b v pid (SBucket b) (interfere env x) = Ok (w, x') ∧
  later b x.2 ch x'.2 ch' ∧ is_bucket x'.2 b ∧ v <= ver x'.2 b ∧
  (ver x'.2 b = v → walk_post b pid x'.2 ch' w) ∧ (∀ i, w = WFound i → ver x'.2 b = v).
Proof.
  intros Hw Hbk Hver. assert (is_bucket x.2 b) as Hb by (rewrite Hbk; by eapply bucket_of_bucket).
  destruct (interfere_later env b Henv x ch Hw) as (ch1 & Hl1). set (x1 := interfere env x) in *.
  pose proof (later_bucket b _ _ _ _ Hl1 Hb) as Hb1. pose proof (lt_wf _ _ _ _ _ Hl1) as Hw1.
  rewrite (ht_version_eq b _ ch1) in Hver by done. injection Hver as Hver. change (ver x1.2 b = v) in Hver.
  destruct (walk_spec env b Henv (chain_fuel x1.2) v pid (SBucket b) x1 ch1 Hw1 Hb1) as (w & x' & ch' & Hwk & Hl & Hpost & Hfd).
  - done.
  - lia.
  - intros _. eexists. split; [by split|]. unfold chain_fuel.
    pose proof (linked_length _ _ _ (wf_linked _ _ Hw1 b Hb1) (wf_chain_nodup _ _ b Hw1 Hb1)). lia.
  - exists w, x', ch'. split_and!; try done; [by eapply later_trans|by eapply later_bucket|].
    pose proof (lt_ver _ _ _ _ _ Hl). lia.
Qed.

Lemma findFrame_safe fuel m g x ch g' x' : wf x.2 ch → b = bucket_of (pt_size x.2) pid →
  findFrame env fuel m fn pid g x = Ok (g', x') →
  ∃ ch', later b x.2 ch x'.2 ch' ∧
    (g_state g' = NOT_FOUND ∧ (∀ i, ¬ maps x'.2 ch' pid i) ∨ found_post m x'.2 ch' g').
Proof.
  revert g x ch. induction fuel as [|fuel IH]; intros g x ch Hw Hbk Hr; [done|]. cbn [findFrame] in Hr. rewrite <- Hbk in Hr.
  assert (∀ g1 x1 ch1, later b x.2 ch x1.2 ch1 → findFrame env fuel m fn pid g1 x1 = Ok (g', x') → ∃ ch', later b x.2 ch x'.2 ch' ∧
    (g_state g' = NOT_FOUND ∧ (∀ i, ¬ maps x'.2 ch' pid i) ∨ found_post m x'.2 ch' g')) as Hagain.
  { intros g1 x1 ch1 Hl1 Hr1. destruct (IH g1 x1 ch1) as (ch' & Hl' & ?); [apply Hl1|by rewrite (lt_size _ _ _ _ _ Hl1)|done|].
    exists ch'. split; [by eapply later_trans|done]. }
  apply bind_Ok_inv in Hr as (v & Hver & Hr). destruct (isLatched v).
  { destruct (interfere_later env b Henv x ch Hw) as (ch1 & Hl1). by eapply Hagain. }
  destruct (round_spec x ch v Hw Hbk Hver) as (w & x2 & ch2 & Hwk & Hl2 & Hb2 & Hv2 & Hpost & Hfd).
  rewrite Hwk, bind_Ok in Hr. destruct w as [|i|sl].
  - by eapply Hagain.
  - apply bind_Ok_inv in Hr as ([r x3] & Hof & Hr). destruct (Hpost (Hfd i eq_refl)) as (Hi & f & Hf & Hp).
    destruct (on_found_spec m v i g x2 ch2 r x3 f (lt_wf _ _ _ _ _ Hl2)) as (ch3 & Hl3 & Hres); try done;
      [by rewrite (lt_size _ _ _ _ _ Hl2)|by apply (Hfd i)|].
    pose proof (later_trans _ _ _ _ _ _ _ Hl2 Hl3) as Hl. destruct r as [g1|g1].
    + injection Hr as <- <-. exists ch3. split; [done|]. by right.
    + by eapply Hagain.
  - destruct (validate_later env b Henv x2 ch2 v (lt_wf _ _ _ _ _ Hl2) Hb2) as (x3 & ch3 & Hval & Hl3).
    rewrite Hval, bind_Ok in Hr. pose proof (later_trans _ _ _ _ _ _ _ Hl2 Hl3) as Hl.
    destruct (Z.eqb_spec v (ver x3.2 b)) as [Hv3|Hv3]; cbn [negb] in Hr; [|by eapply Hagain].
    injection Hr as <- <-. exists ch3. split; [done|]. left. split; [done|].
    pose proof (lt_ver _ _ _ _ _ Hl3). destruct Hpost as [_ Hnone]; [lia|].
    destruct (lt_same _ _ _ _ _ Hl3 ltac:(lia)) as [Hc3 Hp3]. 
    intros i (f & Hi & Hf & _ & Hp). rewrite (lt_size _ _ _ _ _ Hl), <- Hbk, Hc3 in Hi.
    destruct (linked_is_Some _ _ _ i (wf_linked _ _ (lt_wf _ _ _ _ _ Hl2) b Hb2) Hi) as [f2 Hf2].
    destruct (Hp3 i f2 Hi Hf2) as (f3 & Hf3 & E3). apply (Hnone i f2 Hi Hf2). congruence.
Qed.

(** ** Insertion *)

(** A frame [findFrameOrInsert] has just inserted: latched by [t], with the page
    to be filled, in nobody's possession. *)
Definition inserted_frame (nodeId : Z) (page : nat) (f : BufferFrame) : Prop :=
  latch_ok (bf_latch f) ∧ mode t (bf_latch f) = LS_EXCLUSIVE ∧ bf_pid f = pid ∧ bf_page f = Some page ∧
  bf_possession f = NOBODY ∧ bf_state f = if getOwner pid =? nodeId then IO_SSD else IO_RDMA.

Lemma init_find_eq page s f : latch_ok (bf_latch f) → sh_mutex (bf_latch f) = MFree → bf_pid f = EMPTY_PID →
  init_find t pid page s f = Throw AssertFailed ∨
  ∃ f', init_find t pid page s f = Ok f' ∧ inserted_frame (bm_nodeId s) page f' ∧
    bf_next f' = bf_next f ∧ bf_isHtBucket f' = bf_isHtBucket f ∧ bf_ht_latch f' = bf_ht_latch f.
Proof.
  intros Hl Hm Hp. destruct (latchX_eq t f Hl Hm) as (Heq & ? & ?). unfold init_find. rewrite Heq, bind_Ok.
  change (bf_pid (set_latch _ f)) with (bf_pid f). rewrite Hp, Z.eqb_refl. cbn [ensure]. rewrite bind_Ok. cbv zeta.
  rewrite assert_cases. destruct (_ && _); [by left|right]. rewrite bind_Ok.
  eexists. split; [reflexivity|]. by split_and!.
Qed.

(** The frame [i] of page [pid] is inserted in a table [M] that did not have it. *)
Definition inserts s ch s' (page i : nat) : Prop :=
  (∀ j, ¬ maps s ch pid j) ∧
  (∀ M, (∀ q j, M !! q = Some j ↔ maps s ch q j) → table s' (<[pid := i]> M)) ∧
  ∃ f, bfs s' !! i = Some f ∧ inserted_frame (bm_nodeId s) page f.

Lemma insert_locked_spec s ch fb page : wf s ch → b = bucket_of (pt_size s) pid → bfs s !! b = Some fb →
  isLatched (sh_version (bf_ht_latch fb)) = false →
  (∀ j f, j ∈ b :: ch b → bfs s !! j = Some f → bf_pid f ≠ pid) →
  let r := insert_locked t b (SNext (chain_last b (ch b))) pid page (put_frame b (set_ht_latch (ht_lock (bf_ht_latch fb)) fb) s) in
  r = Throw AssertFailed ∨ ∃ o s', r = Ok (o, s') ∧
    pt_size s' = pt_size s ∧ bm_nodeId s' = bm_nodeId s ∧
    match o with None => wf s' ch | Some i => inserts s ch s' page i end.
Proof.
  intros Hw Hbk Hfb Hhl Hnone. cbv zeta. assert (is_bucket s b) as Hb by (rewrite Hbk; by eapply bucket_of_bucket).
  set (fb1 := set_ht_latch (ht_lock (bf_ht_latch fb)) fb). set (s1 := put_frame b fb1 s).
  assert (core_eq (bfs s) (bfs s1)) as Hc by (eapply core_eq_insert; [done|apply same_core_ht]).
  assert (wf s1 ch) as Hw1 by (by eapply wf_core).
  assert (bfs s1 !! b = Some fb1) as Hfb1 by (simpl; by rewrite lookup_insert_eq).
  assert (isLatched (sh_version (bf_ht_latch fb1)) = true) as Hhl1
    by (change (bf_ht_latch fb1) with (ht_lock (bf_ht_latch fb)); by rewrite ht_lock_latched, Hhl).
  assert (∀ j, ¬ maps s ch pid j) as Hnm.
  { intros j (f & Hj & Hf & _ & Hp). rewrite <- Hbk in Hj. by eapply Hnone. }
  assert (∀ M : gmap Z nat, (∀ q j, M !! q = Some j ↔ maps s ch q j) →
    (∀ q j, M !! q = Some j ↔ maps s1 ch q j) ∧ M !! pid = None) as HMs.
  { intros M HM. split; [intros; rewrite HM; symmetry; by apply maps_core|].
    destruct (M !! pid) as [j|] eqn:E; [|done]. apply HM in E. by apply Hnm in E. }
  unfold insert_locked. rewrite (get_frame_eq _ _ _ Hfb1), bind_Ok.
  destruct (decide (bf_state fb1 ≠ FREE)) as [Hst|Hst].
  - change (frameFreeList s1) with (frameFreeList s).
    destruct (bag_pop_law _ (wf_bag _ _ Hw)) as (o & q & Hpop & Hq & HP). rewrite Hpop, bind_Ok. destruct o as [i|].
    + assert (linked (bfs s1) b (ch b)) as Hlk by (by apply (wf_linked _ _ Hw1)).
      destruct (linked_is_Some _ _ _ (chain_last b (ch b)) Hlk) as [fl Hfl]; [apply chain_last_elem|].
      set (p := chain_last b (ch b)) in *. cbv zeta. unfold write_slot.
      rewrite (get_frame_eq (with_frames q s1) p fl Hfl), !bind_Ok.
      destruct (wf_bag_frame _ _ Hw1 i) as (fx & Hfx & Hsx & Hnx & Hxb); [simpl; rewrite HP; by left|].
      assert (p ≠ i) as Hpx.
      { intros E. pose proof (chain_last_elem b (ch b)) as Hin. fold p in Hin. rewrite E in Hin.
        by eapply (free_unchained s1 ch Hw1 b i fx). }
      assert (b ≠ i) as Hbx by (by intros ->).
      set (s2 := put_frame p (BufferFrame.set_next (Some i) fl) (with_frames q s1)).
      assert (bfs s2 !! i = Some fx) as Hfx2 by (simpl; by rewrite lookup_insert_ne).
      rewrite (get_frame_eq _ _ _ Hfx2), bind_Ok.
      destruct (wf_free _ _ Hw1 i fx Hfx Hsx) as (Hpx' & Hlo & Hmf).
      destruct (init_find_eq page s2 fx Hlo Hmf Hpx') as [->|(f' & -> & Hins & Hn & Hh & Hht)]; [by left|]. rewrite bind_Ok.
      set (s3 := put_frame i f' s2).
      assert (∃ fb3, bfs s3 !! b = Some fb3 ∧ bf_ht_latch fb3 = bf_ht_latch fb1) as (fb3 & Hfb3 & Hht3).
      { simpl. rewrite lookup_insert_ne by done. destruct (decide (p = b)) as [E|E].
        - rewrite <- E, lookup_insert_eq. eexists. split; [done|]. rewrite E, Hfb1 in Hfl. by injection Hfl as <-.
        - rewrite lookup_insert_ne by done. by exists fb1. }
      rewrite (unlatch_bucket_eq t b s3 fb3 Hfb3) by (by rewrite Hht3). rewrite bind_Ok.
      right. eexists _, _. split; [done|]. split; [done|]. split; [done|]. split; [done|]. split.
      * intros M HM. destruct (HMs M HM) as [HM1 HMp]. destruct Hins as (_ & _ & Hip & _ & _ & His).
        apply (table_core s3); [eapply core_eq_insert; [done|apply same_core_ht]|done|done|].
        eapply (table_put_chain s1 ch M b); try done.
        -- congruence.
        -- rewrite Hh, (wf_isHt _ _ Hw1 _ _ Hfx). apply Z.ltb_ge. unfold is_bucket in Hxb. lia.
        -- rewrite His. by destruct (getOwner pid =? _).
      * exists f'. split; [|done]. simpl. by rewrite lookup_insert_ne, lookup_insert_eq.
    + cbv zeta. rewrite bind_Ok. rewrite (unlatch_bucket_eq t b (with_frames q s1) fb1 Hfb1 Hhl1), bind_Ok.
      right. eexists _, _. split; [done|]. split_and!; try done.
      assert (wf (with_frames q s1) ch) as Hwq.
      { destruct Hw1. simpl in HP. constructor; try done; simpl; setoid_rewrite <- HP; done. }
      apply (wf_core (with_frames q s1)); try done. eapply core_eq_insert; [done|apply same_core_ht].
  - apply dec_stable in Hst. rewrite bind_Ok, (get_frame_eq _ _ _ Hfb1), bind_Ok.
    destruct (wf_free _ _ Hw1 b fb1 Hfb1 Hst) as (Hpb & Hlo & Hmf).
    destruct (init_find_eq page s1 fb1 Hlo Hmf Hpb) as [->|(f' & -> & Hins & Hn & Hh & Hht)]; [by left|]. rewrite bind_Ok.
    assert (bfs (put_frame b f' s1) !! b = Some f') as Hf' by (simpl; by rewrite lookup_insert_eq).
    rewrite (unlatch_bucket_eq t b (put_frame b f' s1) f' Hf') by (by rewrite Hht). rewrite bind_Ok.
    right. eexists _, _. split; [done|]. split; [done|]. split; [done|]. split; [done|]. split.
    + intros M HM. destruct (HMs M HM) as [HM1 HMp]. destruct Hins as (_ & _ & Hip & _ & _ & His).
      apply (table_core (put_frame b f' s1)); [eapply core_eq_insert; [done|apply same_core_ht]|done|done|].
      eapply (table_put_bucket s1 ch M b b fb1); try done. rewrite His. by destruct (getOwner pid =? _).
    + eexists. split; [simpl; by rewrite lookup_insert_eq|]. done.
Qed.

(** What [findFrameOrInsert] returned when the page was not in the table. *)
Definition insert_post s' (g : Guard) : Prop :=
  ∃ s ch page i f, wf s ch ∧ inserts s ch s' page i ∧ bfs s' !! i = Some f ∧
    g_frame g = Some i ∧ latchState g = LS_EXCLUSIVE ∧ vAcquired g = latch_version f ∧
    g_state g = if getOwner pid =? bm_nodeId s then SSD else REMOTE.

Lemma upgrade_eq v s f : bfs s !! b = Some f → isLatched v = false →
  on_bucket t (upgradeToExclusiveLatch v) b s =
  Ok (if sh_version (bf_ht_latch f) =? v
      then ((true, v +₆₄ 2), put_frame b (set_ht_latch (ht_lock (bf_ht_latch f)) f) s)
      else ((false, sh_version (bf_ht_latch f)), s)).
Proof.
  intros Hf Hl. unfold on_bucket, on_ht, upgradeToExclusiveLatch. rewrite (get_frame_eq _ _ _ Hf), bind_Ok, Hl. cbn [run].
  destruct (Z.eqb_spec (sh_version (bf_ht_latch f)) v) as [<-|]; [done|].
  cbn [run]. rewrite !bind_Ok. do 2 f_equal. unfold put_frame, with_bfs. rewrite insert_id; [by destruct s|].
  rewrite Hf. f_equal. by destruct f.
Qed.

Lemma findFrameOrInsert_safe fuel m g x ch g' x' : wf x.2 ch → b = bucket_of (pt_size x.2) pid →
  findFrameOrInsert env t fuel m fn pid g x = Ok (g', x') →
  (∃ ch', wf x'.2 ch' ∧ found_post m x'.2 ch' g') ∨ insert_post x'.2 g'.
Proof.
  revert g x ch. induction fuel as [|fuel IH]; intros g x ch Hw Hbk Hr; [done|]. cbn [findFrameOrInsert] in Hr.
  rewrite <- Hbk in Hr. apply bind_Ok_inv in Hr as (v & Hver & Hr). destruct (isLatched v) eqn:Hvl.
  { destruct (interfere_later env b Henv x ch Hw) as (ch1 & Hl1).
    eapply IH; [apply Hl1|by rewrite (lt_size _ _ _ _ _ Hl1)|done]. }
  destruct (round_spec x ch v Hw Hbk Hver) as (w & x2 & ch2 & Hwk & Hl2 & Hb2 & Hv2 & Hpost & Hfd).
  rewrite Hwk, bind_Ok in Hr. pose proof (lt_wf _ _ _ _ _ Hl2) as Hw2. pose proof (lt_size _ _ _ _ _ Hl2) as Hz2.
  destruct w as [|i|sl].
  - eapply IH; [exact Hw2|by rewrite Hz2|done].
  - apply bind_Ok_inv in Hr as ([r x3] & Hof & Hr). destruct (Hpost (Hfd i eq_refl)) as (Hi & f & Hf & Hp).
    destruct (on_found_spec m v i g x2 ch2 r x3 f Hw2) as (ch3 & Hl3 & Hres); try done; [by rewrite Hz2|by apply (Hfd i)|].
    destruct r as [g1|g1].
    + injection Hr as <- <-. left. exists ch3. split; [apply Hl3|done].
    + eapply IH; [apply Hl3|by rewrite (lt_size _ _ _ _ _ Hl3), Hz2|done].
  - destruct (validate_later env b Henv x2 ch2 v Hw2 Hb2) as (x3 & ch3 & Hval & Hl3).
    pose proof (lt_wf _ _ _ _ _ Hl3) as Hw3. pose proof (lt_size _ _ _ _ _ Hl3) as Hz3. rewrite Hval, bind_Ok in Hr.
    destruct (Z.eqb_spec v (ver x3.2 b)) as [Hv3|Hv3]; cbn [negb] in Hr; [|eapply IH; [exact Hw3|by rewrite Hz3, Hz2|done]].
    apply bind_Ok_inv in Hr as ([page q] & _ & Hr). cbv zeta in Hr.
    set (x4 := (x3.1, with_pages q x3.2)) in *.
    assert (later b x3.2 ch3 x4.2 ch3) as Hl4.
    { constructor; try done; [eapply wf_core; [exact Hw3|apply core_eq_refl|done|done]|]. intros _. split; [done|]. eauto. }
    destruct (interfere_later env b Henv x4 ch3 (lt_wf _ _ _ _ _ Hl4)) as (ch5 & Hl5). set (x5 := interfere env x4) in *.
    pose proof (later_trans _ _ _ _ _ _ _ Hl3 (later_trans _ _ _ _ _ _ _ Hl4 Hl5)) as Hl25.
    pose proof (lt_wf _ _ _ _ _ Hl5) as Hw5. pose proof (lt_size _ _ _ _ _ Hl25) as Hz5.
    pose proof (later_bucket b _ _ _ _ Hl25 Hb2) as Hb5. destruct (wf_buckets _ _ Hw5 b Hb5) as [fb Hfb].
    rewrite (upgrade_eq v x5.2 fb Hfb Hvl), bind_Ok in Hr.
    assert (∀ s' ch', wf s' ch' → pt_size s' = pt_size x5.2 →
      (q ← bag_push (S fuel) page (pageFreeList s'); findFrameOrInsert env t fuel m fn pid g (x5.1, with_pages q s')) = Ok (g', x') →
      (∃ ch', wf x'.2 ch' ∧ found_post m x'.2 ch' g') ∨ insert_post x'.2 g') as Hagain.
    { intros s' ch' Hw' Hz' Hr'. apply bind_Ok_inv in Hr' as (q' & _ & Hr').
      eapply (IH g (x5.1, with_pages q' s') ch'); [eapply wf_core; [exact Hw'|apply core_eq_refl|done|done]| |done].
      simpl. by rewrite Hz', Hz5, Hz2. }
    assert (ver x5.2 b = sh_version (bf_ht_latch fb)) as Hver5 by (unfold ver; by rewrite Hfb).
    destruct (Z.eqb_spec (sh_version (bf_ht_latch fb)) v) as [Hv5|Hv5]; cbn [fst negb] in Hr; [|by eapply Hagain].
    pose proof (lt_ver _ _ _ _ _ Hl3). destruct Hpost as [-> Hnone]; [lia|].
    destruct (lt_same _ _ _ _ _ Hl25 ltac:(lia)) as [Hc5 Hp5]. rewrite <- Hc5 in Hr.
    destruct (insert_locked_spec x5.2 ch5 fb page Hw5) as [Hil|(o & s' & Hil & Hz' & Hn' & Hres)]; try done.
    { by rewrite Hz5, Hz2. }
    { by rewrite Hv5. }
    { intros j f Hj Hf E. rewrite Hc5 in Hj.
      destruct (linked_is_Some _ _ _ j (wf_linked _ _ Hw2 b Hb2) Hj) as [f2 Hf2].
      destruct (Hp5 j f2 Hj Hf2) as (f5 & Hf5 & E5). apply (Hnone j f2 Hj Hf2). congruence. }
    { by rewrite Hil in Hr. }
    rewrite Hil, bind_Ok in Hr. destruct o as [i|]; [|by eapply (Hagain s' ch5)].
    apply bind_Ok_inv in Hr as (f & Hf & Hr). apply Ok_inj, pair_eq in Hr as [<- <-]. right.
    exists x5.2, ch5, page, i, f. split; [exact Hw5|]. split; [exact Hres|]. split.
    { unfold get_frame in Hf. cbn [snd]. destruct (bfs s' !! i); [|discriminate Hf]. injection Hf as ->. reflexivity. }
    cbn [g_frame latchState vAcquired g_state]. rewrite Hn'. repeat split.
Qed.

End safe.

(** ** Alone, a lookup returns in one round *)

Definition still : nat → BM → BM := λ _ s, s.

Lemma still_table b : env_table still b.
Proof. intros n s ch Hw. exists ch. by apply later_refl. Qed.

Lemma walk_still fuel b v pid sl x w x' : ht_version x.2 b = Ok v → walk still fuel b v pid sl x = Ok (w, x') →
  x'.2 = x.2 ∧ w ≠ WRestart.
Proof.
  revert sl x. induction fuel as [|fuel IH]; intros sl x Hv Hr; [done|]. cbn [walk] in Hr.
  assert (∀ y, y.2 = x.2 → validate still b v y = Ok (true, interfere still y)) as Hval.
  { intros y Hy. unfold validate. cbv zeta. change ((interfere still y).2) with y.2.
    rewrite Hy, Hv, bind_Ok. by rewrite Z.eqb_refl. }
  apply bind_Ok_inv in Hr as (cond & _ & Hr). destruct (decide (cond = None)) as [|_]; [by simplify_eq|].
  cbv zeta in Hr. apply bind_Ok_inv in Hr as (tmp & _ & Hr). rewrite Hval in Hr by done. rewrite bind_Ok in Hr. cbn [negb] in Hr.
  apply bind_Ok_inv in Hr as (i & _ & Hr). apply bind_Ok_inv in Hr as (f & _ & Hr).
  destruct (bf_pid f =? pid); rewrite Hval in Hr by done; rewrite bind_Ok in Hr; cbn [negb] in Hr.
  - by simplify_eq.
  - destruct (IH (SNext i) (interfere still (interfere still (interfere still (interfere still x))))) as [-> ?]; done.
Qed.

Lemma findFrame_alone n m t fn pid g k s ch : wf s ch → pid ≠ EMPTY_PID → fn_ok t fn →
  let b := bucket_of (pt_size s) pid in isLatched (ver s b) = false →
  ((∀ i, ¬ maps s ch pid i) → ∃ k', findFrame still (S n) m fn pid g (k, s) = Ok (with_state NOT_FOUND g, (k', s))) ∧
  (∀ i f g1 f1, maps s ch pid i → bfs s !! i = Some f →
     fn_op fn (mkGuard (vAcquired g) (Some i) (g_state g) (g_method g) (latchState g)) f = Ok (g1, f1) →
     g_state g1 ≠ RETRY → ∃ k', findFrame still (S n) m fn pid g (k, s) = Ok (g1, (k', put_frame i f1 s))).
Proof.
  intros Hw Hpe Hfn b Hl. assert (is_bucket s b) as Hb by (by eapply bucket_of_bucket).
  pose proof (ht_version_eq b s ch Hw Hb) as Hver. cbn [findFrame]. change (pt_size (k, s).2) with (pt_size s). fold b.
  change ((interfere still (k, s)).2) with s. rewrite Hver, bind_Ok, Hl.
  destruct (round_spec still pid b (still_table b) (k, s) ch (ver s b) Hw eq_refl Hver) as (w & x' & ch' & Hwk & Hlt & _ & _ & Hpost & _).
  change ((interfere still (k, s)).2) with s in Hwk. rewrite Hwk, bind_Ok.
  destruct (walk_still _ _ _ _ _ (interfere still (k, s)) _ _ Hver Hwk) as [Hx Hnr]. destruct x' as [k' s']. change (s' = s) in Hx. rewrite Hx in *. clear Hx s'. cbn [snd] in *.
  specialize (Hpost eq_refl). destruct (lt_same _ _ _ _ _ Hlt eq_refl) as [Hc _].
  assert (∀ y, y.2 = s → validate still b (ver s b) y = Ok (true, interfere still y)) as Hval.
  { intros y Hy. unfold validate. cbv zeta. change ((interfere still y).2) with y.2.
    rewrite Hy, Hver, bind_Ok. by rewrite Z.eqb_refl. }
  destruct w as [|i|sl]; [done|..].
  - destruct Hpost as (Hi & f & Hf & Hp). rewrite Hc in Hi.
    assert (maps s ch pid i) as Hmi by (by eapply maps_in_bucket). split; [by intros Hno; apply Hno in Hmi|].
    intros j fj g1 f1 (fj' & Hj & Hfj' & Hsj & Hpj) Hfj Hop Hre. assert (fj' = fj) as -> by congruence.
    assert (j = i) as ->.
    { destruct Hmi as (f' & _ & Hf' & Hsf & _). assert (f' = f) as -> by congruence.
      apply (wf_uniq _ _ Hw b j i fj f); try done. congruence. }
    assert (fj = f) as -> by congruence. unfold on_found. rewrite (get_frame_eq (k', s).2 i _ Hf), bind_Ok. cbv zeta. rewrite Hop, bind_Ok.
    destruct (fn_op_law _ _ Hfn _ _ _ _ Hop) as ((_ & _ & _ & _ & Hht) & _).
    assert (validate still b (ver s b) (k', put_frame i f1 s) = Ok (true, interfere still (k', put_frame i f1 s))) as Hv1.
    { unfold validate. cbv zeta. change ((interfere still (k', put_frame i f1 s)).2) with (put_frame i f1 s).
      unfold ht_version, get_frame, ver. simpl. destruct (decide (i = b)) as [->|Hib].
      - rewrite lookup_insert_eq, Hf. simpl. by rewrite Hht, Z.eqb_refl.
      - rewrite lookup_insert_ne by done. destruct (wf_buckets _ _ Hw b Hb) as [fb ->]. simpl. by rewrite Z.eqb_refl. }
    cbn [fst snd]. destruct m.
    + rewrite decide_False by done. rewrite Hv1, !bind_Ok. cbn [negb]. by eexists.
    + rewrite Hv1, !bind_Ok. cbn [negb]. by eexists.
  - destruct Hpost as [_ Hnone]. rewrite Hval, bind_Ok by done. cbn [negb]. split; [intros _; by eexists|].
    intros i f g1 f1 (f' & Hi & Hf & _ & Hp) _ _ _. change (i ∈ b :: ch b) in Hi. rewrite <- Hc in Hi. by destruct (Hnone i f' Hi Hf).
Qed.

(** ** Claims *)

(** [C31] [findFrame] among threads that change buckets only under their latch:
    whenever it returns, the table at that moment agrees.  NOT_FOUND means that
    the page is in no frame; otherwise the guard names the frame of the page
    (a blocking lookup never returns a retry), or, for a non-blocking lookup, it
    was undone.  Alone, a lookup of an unlatched bucket returns in one round: the
    frame with the functor applied, or NOT_FOUND with nothing changed. *)
Theorem findFrame_linearizable env t fn m pid : fn_ok t fn → pid ≠ EMPTY_PID →
  (∀ fuel g x ch g' x', wf x.2 ch → env_table env (bucket_of (pt_size x.2) pid) → env_frames t env →
     findFrame env fuel m fn pid g x = Ok (g', x') →
     ∃ ch', wf x'.2 ch' ∧ (g_state g' = NOT_FOUND ∧ (∀ i, ¬ maps x'.2 ch' pid i) ∨ found_post fn pid m x'.2 ch' g')) ∧
  (∀ n g k s ch, wf s ch → isLatched (ver s (bucket_of (pt_size s) pid)) = false →
     ((∀ i, ¬ maps s ch pid i) → ∃ k', findFrame still (S n) m fn pid g (k, s) = Ok (with_state NOT_FOUND g, (k', s))) ∧
     (∀ i f g1 f1, maps s ch pid i → bfs s !! i = Some f →
        fn_op fn (mkGuard (vAcquired g) (Some i) (g_state g) (g_method g) (latchState g)) f = Ok (g1, f1) →
        g_state g1 ≠ RETRY → ∃ k', findFrame still (S n) m fn pid g (k, s) = Ok (g1, (k', put_frame i f1 s)))).
Proof.
  intros Hfn Hpe. split.
  - intros fuel g x ch g' x' Hw Henv Hfr Hr.
    destruct (findFrame_safe env t fn pid _ Henv Hfr Hfn Hpe fuel m g x ch g' x' Hw eq_refl Hr) as (ch' & Hl & ?).
    exists ch'. split; [apply Hl|done].
  - intros n g k s ch Hw Hl. by apply (findFrame_alone n m t fn pid g k s ch).
Qed.

(** [C30] [findFrameOrInsert] never duplicates a page: whenever it returns, either
    the guard names the frame the page is in, or there was a moment at which the
    page was in no frame and the call inserted it, the rest of the table
    unchanged, in a free frame that the caller holds exclusively and that is
    marked for the SSD or the owner's memory according to the page id. *)
Theorem findFrameOrInsert_linearizable env t fn m pid fuel g x ch g' x' : fn_ok t fn → pid ≠ EMPTY_PID → wf x.2 ch →
  env_table env (bucket_of (pt_size x.2) pid) → env_frames t env →
  findFrameOrInsert env t fuel m fn pid g x = Ok (g', x') →
  (∃ ch', wf x'.2 ch' ∧ found_post fn pid m x'.2 ch' g') ∨ insert_post t pid x'.2 g'.
Proof.
  intros Hfn Hpe Hw Henv Hfr Hr.
  exact (findFrameOrInsert_safe env t fn pid _ Henv Hfr Hfn Hpe fuel m g x ch g' x' Hw eq_refl Hr).
Qed.

(** The functor of an exclusive access, the frame undisturbed meanwhile. *)
Definition exclusive_fn (t : nat) (nodeId : Z) : Functor := mkFunctor (Exclusive_op t (λ f, f) nodeId) (Exclusive_undo t).

Lemma on_latch_inv {A} t (p : prog A) f a f' : on_latch t p f = Ok (a, f') → ∃ l, f' = set_latch l f ∧ run t p (bf_latch f) = Ok (a, l).
Proof. unfold on_latch. intros ([a' l] & Hr & [= -> <-])%bind_Ok_inv. by exists l. Qed.

Lemma exclusive_fn_ok t nodeId : fn_ok t (exclusive_fn t nodeId).
Proof.
  constructor; simpl.
  - intros g f g' f' Hr. unfold Exclusive_op in Hr. apply bind_Ok_inv in Hr as ([o f1] & H1 & Hr).
    apply on_latch_inv in H1 as (l1 & -> & _). destruct o as [v|]; [|by simplify_eq].
    destruct (bf_mhWaiting _); [by simplify_eq|]. cbv zeta in Hr. apply bind_Ok_inv in Hr as ([ok f2] & H2 & Hr).
    apply on_latch_inv in H2 as (l2 & -> & _). destruct ok; cbn [negb] in Hr; apply Ok_inj, pair_eq in Hr as [<- <-]; [|done].
    split; [done|]. split; [done|]. cbn [g_state with_latch with_version with_state]. unfold possession_state.
    by repeat case_match.
  - intros g f g' f' Hr. unfold Exclusive_undo in Hr. inv_bind. destruct r1 as [[] f1]. simplify_eq.
    apply on_latch_inv in E1 as (l & -> & Hrun). split_and!; try done. right. unfold mode.
    unfold HybridLatch.unlatchExclusive, HybridLatch.isLatched_now, load, store, pensure in Hrun. simpl in Hrun.
    destruct (isLatched _); [|done]. simpl in Hrun. destruct (isLatched _); [done|]. simpl in Hrun.
    case_decide as Hd; [|done]. rewrite Hd. by rewrite decide_True.
Qed.

End find_proofs.


#[local] Existing Instance ex_build.

(** A lookup of an absent page in the pool of eight frames. *)
(** A table with one page whose frame nobody has latched. *)
Definition ex_found : @BM (list nat) (list nat) (list Z) :=
  match bfs ex_alloc.2 !! ex_alloc.1 with
  | Some f => put_frame ex_alloc.1 (set_latch (sh_init ∅) f) ex_alloc.2
  | None => ex_alloc.2
  end.
Lemma ex_found_table : table ex_found {[mkPID 3 5 := ex_alloc.1]}.
Proof.
  destruct ex_alloc_table as (f & _ & HT & _ & Hf & (_ & _ & _ & _ & _ & _ & Hs & _)). unfold ex_found. rewrite Hf.
  apply (table_core ex_alloc.2); [|reflexivity|reflexivity|exact HT]. eapply core_eq_insert; [exact Hf|]. split_and!; try done.
  intros E. rewrite Hs in E. discriminate E.
Qed.

(** The page is absent; it is there and can be latched. *)
Lemma findFrame_linearizable_witness :
  (∃ k, findFrame still 1 BLOCKING (exclusive_fn 1 3) (mkPID 3 5) guard_new (O, ex_bm) = Ok (with_state NOT_FOUND guard_new, (k, ex_bm))) ∧
  (∃ g x, findFrame still 1 BLOCKING (exclusive_fn 1 3) (mkPID 3 5) guard_new (O, ex_found) = Ok (g, x) ∧
     g_frame g = Some ex_alloc.1 ∧ g_state g = INITIALIZED ∧ latchState g = LS_EXCLUSIVE).
Proof.
  destruct (findFrame_linearizable (QF:=list nat) (QP:=list nat) (QI:=list Z) still 1 (exclusive_fn 1 3) BLOCKING (mkPID 3 5)
    (exclusive_fn_ok 1 3)) as [_ H]; [by vm_compute|]. split.
  - destruct ex_bm_table as [(ch & Hw & HM) _].
    destruct (H O guard_new O ex_bm ch Hw) as [H1 _]; [by vm_compute|].
    apply H1. intros i Hi. apply HM in Hi. discriminate Hi.
  - destruct ex_found_table as (ch & Hw & HM).
    destruct (H O guard_new O ex_found ch Hw) as [_ H2]; [by vm_compute|].
    edestruct (H2 ex_alloc.1) as [k' Hk'].
    + apply HM, lookup_singleton_eq.
    + vm_compute. reflexivity.
    + vm_compute. reflexivity.
    + done.
    + eexists _, _. split; [exact Hk'|]. split; [reflexivity|]. split; reflexivity.
Defined.

(** Its insertion. *)
Definition ex_insert : result (Guard * world (QF:=list nat) (QP:=list nat) (QI:=list Z)) :=
  findFrameOrInsert still 1 2 BLOCKING (exclusive_fn 1 3) (mkPID 3 5) guard_new (O, ex_bm).

Lemma still_frames {QF QP QI} `{!FreeBag QF nat, !FreeBag QP nat, !FreeBag QI Z} t :
  env_frames t (still (QF:=QF) (QP:=QP) (QI:=QI)).
Proof. intros n s i f f' Hf Hf'. unfold still in Hf'. assert (f' = f) as -> by congruence. by split. Qed.

Lemma findFrameOrInsert_linearizable_witness :
  match ex_insert with
  | Ok (g, x) => (∃ ch, wf x.2 ch ∧ found_post (exclusive_fn 1 3) (mkPID 3 5) BLOCKING x.2 ch g) ∨
                 insert_post 1 (mkPID 3 5) x.2 g
  | Throw _ => False
  end.
Proof.
  destruct ex_insert as [[g x]|] eqn:E; [|vm_compute in E; discriminate E].
  destruct ex_bm_table as [(ch & Hw & HM) _].
  apply (findFrameOrInsert_linearizable still 1 (exclusive_fn 1 3) BLOCKING (mkPID 3 5) 2 guard_new (O, ex_bm) ch g x).
  - apply exclusive_fn_ok.
  - by vm_compute.
  - exact Hw.
  - apply still_table.
  - apply still_frames.
  - exact E.
Defined.
