(* ===== verification/Eviction.v ===== *)
(** * storage/buffermanager/PageProvider: what eviction does to the frames

    A page provider evicts pages of its own node and asks the owners of other
    pages for permission to drop its copy.  The owner of a page answers such
    requests in batches: it takes the requester out of the directory entry, and
    reads the page back over RDMA when no other node would keep it.

    Frames are latched exclusively by the provider while these functions run;
    as in Protocol.v the latch calls are left out and the outcome says what
    happens to the latch. *)

From S2P Require Import Prelude Defs Bitmap Latch BufferFrame RingBuffer.
Local Open Scope Z_scope.

Implicit Types (f : BufferFrame) (nodeId bmId pid : Z) (buf : ring nat).

(** ** Messages between providers *)

Definition batchSize : Z := 32.

Record EvictionEntry := mkEntry { ee_pid : Z; ee_offset : option nat; ee_pVersion : Z }.
Record EvictionRequest := mkRequest {
  er_bmId : Z; er_pId : Z; er_failedSend : Z; er_elements : Z; er_entries : list (option EvictionEntry) }.

Definition er_reset (r : EvictionRequest) : EvictionRequest := mkRequest (er_bmId r) (er_pId r) 0 0 (er_entries r).
Definition er_empty (r : EvictionRequest) : bool := er_elements r =? 0.
Definition er_full (r : EvictionRequest) : bool := er_elements r =? batchSize.
Definition er_add (e : EvictionEntry) (r : EvictionRequest) : result EvictionRequest :=
  _ ← ensure (er_elements r <? batchSize);
  entries ← arr_setZ (er_entries r) (er_elements r) (Some e);
  Ok (mkRequest (er_bmId r) (er_pId r) (er_failedSend r) (er_elements r + 1) entries).

Record EvictionResponse := mkResponse { es_pids : list Z; es_elements : Z; es_bmId : Z; es_pId : Z }.

Definition es_reset (r : EvictionResponse) : EvictionResponse := mkResponse (es_pids r) 0 (es_bmId r) (es_pId r).
Definition es_empty (r : EvictionResponse) : bool := es_elements r =? 0.
Definition es_full (r : EvictionResponse) : bool := es_elements r =? batchSize.
Definition es_add (pid : Z) (r : EvictionResponse) : result EvictionResponse :=
  _ ← ensure (es_elements r <? batchSize);
  pids ← arr_setZ (es_pids r) (es_elements r) pid;
  Ok (mkResponse pids (es_elements r + 1) (es_bmId r) (es_pId r)).

(** The RDMA reads that are posted together: page and remote offset. *)
Record RdmaReadBuffer := mkReads { rd_wr : list (option (nat * option nat)); rd_elements : Z }.
Definition rd_new : RdmaReadBuffer := mkReads (replicate (Z.to_nat batchSize) None) 0.
Definition rd_add (page : nat) (offset : option nat) (b : RdmaReadBuffer) : result RdmaReadBuffer :=
  wr ← arr_setZ (rd_wr b) (rd_elements b) (Some (page, offset));
  Ok (mkReads wr (rd_elements b + 1)).

(** ** Pages of the own node *)

(** What happened to a frame: there is no room to write it, it is being
    written (with the latch downgraded) or could not be downgraded, it is
    removed with its page, its page is given back and the frame stays, or
    nothing.  The latch is kept only while the page is written. *)
Inductive evicted :=
| EvNoRoom
| EvWriting
| EvLostLatch
| EvRemove
| EvPage (page : option nat) (f : BufferFrame)
| EvNothing.

(** The test for pages that nobody else possesses. *)
Definition sole_sharer nodeId f : bool := isPossessor nodeId f && (sb64_count (bf_possessors f) =? 1).

(** [full] is the state of the write buffer, [downgraded] the outcome of
    [tryDowngradeExclusiveToShared], [rand] the drawn number.  A page that is
    handed to the write buffer meets the assertion of [AsyncWriteBuffer::add]. *)
Definition evict_owner_page `{!Build} (evict_to_ssd : bool) (prob_SSD nodeId : Z) (full downgraded : bool) (rand : Z) f : result evicted :=
  _ ← assert_ (negb (upper_node nodeId));
  if evict_to_ssd && bf_dirty f then
    if full then Ok EvNoRoom
    else if negb downgraded then Ok EvLostLatch
    else _ ← assert_ false; Ok EvWriting
  else if evict_to_ssd && bool_decide (bf_state f = HOT) && bool_decide (bf_possession f = EXCLUSIVE) && isPossessor nodeId f then
    Ok EvRemove
  else if bool_decide (bf_state f = HOT) && bool_decide (bf_possession f = SHARED) && sole_sharer nodeId f then
    Ok (if evict_to_ssd && (rand <=? prob_SSD) then EvRemove else EvNothing)
  else if bool_decide (bf_state f = HOT) && bool_decide (bf_possession f = SHARED) then
    _ ← ensure (0 <? sb64_count (bf_possessors f));
    if sole_sharer nodeId f then Throw RuntimeError
    else
      let page := bf_page f in
      let f := set_possessors (sb64_reset (bf_possessors f) nodeId) f in
      _ ← ensure (1 <=? sb64_count (bf_possessors f));
      let f := set_state EVICTED (set_page None f) in
      Ok (EvPage page f)
  else Ok EvNothing.

(** The pages a provider evicts when it does not write to the SSD. *)
Definition remote_condition nodeId f : bool :=
  if (getOwner (bf_pid f) =? nodeId) && bool_decide (bf_state f = HOT) && bool_decide (bf_possession f = SHARED) && negb (frame_latched f) &&
     ((isPossessor nodeId f && (1 <? sb64_count (bf_possessors f))) ||
      (negb (isPossessor nodeId f) && (1 <=? sb64_count (bf_possessors f))))
  then true
  else negb (getOwner (bf_pid f) =? nodeId) && bool_decide (bf_state f = HOT) && negb (frame_latched f).

(** A page goes to the provider's private buffer, or else to the free list;
    [free] are the pages pushed there. *)
Definition give_page (page : nat) (buf : ring nat) (free : list nat) : result (ring nat * list nat) :=
  if negb (rb_full buf) then '(_, buf) ← rb_add page buf; Ok (buf, free)
  else Ok (buf, page :: free).

(** ** Requests of other nodes *)

(** The change of the directory entry, and whether the page has to be read. *)
Definition entry_possession (evict_to_ssd : bool) nodeId bmId f : result (bool * BufferFrame) :=
  if evict_to_ssd then
    if bf_dirty f then
      match bf_possession f with
      | EXCLUSIVE => Ok (true, set_possessors nodeId f)
      | SHARED => Ok (true, set_possessors (sb64_set (sb64_reset (bf_possessors f) bmId) nodeId) f)
      | NOBODY => Throw RuntimeError
      end
    else Ok (false, f)
  else
    match bf_possession f with
    | SHARED =>
        _ ← ensure (sb64_test (bf_possessors f) bmId);
        let f := set_possessors (sb64_reset (bf_possessors f) bmId) f in
        if sb64_none (bf_possessors f) then Ok (true, set_possessors (sb64_set (bf_possessors f) nodeId) f)
        else Ok (false, f)
    | EXCLUSIVE =>
        _ ← ensure (bf_possessors f =? bmId);
        Ok (true, set_possessors nodeId f)
    | NOBODY => Ok (false, f)
    end.

(** The requester may drop its copy: the frame is unlatched, it is removed, or
    it stays latched until the page was read into [page]. *)
Inductive entry_outcome :=
| EAck (f : BufferFrame)
| EAckRemove (f : BufferFrame)
| ERead (page : nat) (f : BufferFrame).

(** The removal of the frame, with the assertions in front of it, is the caller's
    ([handle_guard] of EvictionBatch.v, [handle_evict] of Coherence.v). *)
Definition evict_entry (evict_to_ssd : bool) nodeId bmId buf f : result (entry_outcome * ring nat) :=
  '(needRead, f) ← entry_possession evict_to_ssd nodeId bmId f;
  if negb needRead then
    _ ← ensure (bool_decide (bf_possession f = SHARED));
    let f := set_possessors (sb64_reset (bf_possessors f) bmId) f in
    if sb64_none (bf_possessors f) then
      _ ← ensure (bool_decide (bf_state f = EVICTED));
      _ ← ensure (bool_decide (bf_page f = None));
      Ok (EAckRemove f, buf)
    else
      _ ← ensure (0 <? sb64_count (bf_possessors f));
      Ok (EAck f, buf)
  else
    '(page, buf) ←
      (if decide (bf_state f = EVICTED) then
         _ ← ensure (bool_decide (bf_page f = None));
         if rb_empty buf then Throw RuntimeError
         else let '(page, buf) := rb_remove buf in page ← page; Ok (page, buf)
       else page ← of_option UndefinedBehaviour (bf_page f); Ok (page, buf));
    let f := set_dirty true (set_state HOT (set_page (Some page) f)) in
    Ok (ERead page f, buf).

(** ** Candidates *)

Definition is_candidate (evict_to_ssd : bool) (nodeId eviction_window : Z) (f : BufferFrame) : bool :=
  if decide (bf_state f = FREE ∨ bf_state f = EVICTED) then false
  else if negb (bf_pid f =? EMPTY_PID) && negb (frame_latched f) then
    if evict_to_ssd then bf_epoch f <=? eviction_window else remote_condition nodeId f
  else false.

(** What is done about a candidate: nothing, stop this level, an own page is
    evicted, or its owner is asked. *)
Inductive decision := DSkip | DStop | DOwn (v : evicted) | DAsk (e : EvictionEntry).

(** [epoch] was read when the frame was chosen; [latched] tells that it could
    be latched exclusively since; [f] is the frame then, and [outgoing] the
    request to its owner. *)
Definition candidate_step `{!Build} (evict_to_ssd : bool) (prob_SSD nodeId epoch : Z) (latched full downgraded : bool) (rand : Z)
    (outgoing : EvictionRequest) (f : BufferFrame) : result decision :=
  if negb (epoch =? bf_epoch f) then Ok DSkip
  else if bool_decide (bf_pid f = EMPTY_PID ∨ bf_state f = FREE ∨ bf_state f = EVICTED) then Ok DSkip
  else if negb latched then Ok DSkip
  else if getOwner (bf_pid f) =? nodeId then
    v ← evict_owner_page evict_to_ssd prob_SSD nodeId full downgraded rand f;
    Ok (match v with EvNoRoom => DStop | _ => DOwn v end)
  else if er_full outgoing then Ok DStop
  else
    _ ← ensure (bool_decide (bf_state f = HOT));
    Ok (DAsk (mkEntry (bf_pid f) (bf_page f) (bf_pVersion f))).

(** What becomes of a page whose write to the SSD completed: it is clean, and
    evicted like a candidate if nobody used it since.  [upgraded] is the outcome
    of latching it again. *)
Definition written_page `{!Build} (evict_to_ssd : bool) (prob_SSD nodeId epoch_added : Z) (upgraded : bool) (rand : Z) (f : BufferFrame) :
    result (option evicted * BufferFrame) :=
  _ ← ensure (bf_dirty f);
  let f := set_dirty false f in
  if negb (epoch_added =? bf_epoch f) then Ok (None, f)
  else if bool_decide (bf_pid f = EMPTY_PID ∨ bf_state f = FREE ∨ bf_state f = EVICTED) then Ok (None, f)
  else if negb upgraded then Ok (None, f)
  else
    _ ← ensure (getOwner (bf_pid f) =? nodeId);
    v ← evict_owner_page evict_to_ssd prob_SSD nodeId false false rand f;
    Ok (Some v, f).

(** ** The directory entry of a frame *)

(** The nodes that hold a page, as the owner's frame says. *)
Definition holders f : gset Z :=
  match bf_possession f with
  | EXCLUSIVE => {[bf_possessors f]}
  | SHARED => bset (bf_possessors f)
  | NOBODY => ∅
  end.

(** A frame of the owner [nodeId] outside of a transition: someone holds the
    page, the owner has the page iff it is among them, and a page that another
    node holds exclusively counts as dirty. *)
Record entry_ok nodeId f : Prop := mkEntryOk {
  eo_word : is_u64 (bf_possessors f);
  eo_possession : bf_possession f = EXCLUSIVE ∧ 0 <= bf_possessors f < 64 ∨ bf_possession f = SHARED;
  eo_holders : holders f ≠ ∅;
  eo_state : bf_state f = HOT ∧ nodeId ∈ holders f ∧ is_Some (bf_page f) ∨
             bf_state f = EVICTED ∧ nodeId ∉ holders f ∧ bf_page f = None;
  eo_dirty : bf_possession f = EXCLUSIVE → bf_possessors f ≠ nodeId → bf_dirty f = true;
}.

Lemma count_size w : is_u64 w → sb64_count w = Z.of_nat (size (bset w)).
Proof.
  intros Hw. unfold sb64_count. rewrite popcountll_bits by done. unfold bset. rewrite size_list_to_set; [done|].
  unfold bits. apply NoDup_filter, NoDup_seqZ.
Qed.

Lemma none_bset w : is_u64 w → sb64_none w = bool_decide (bset w = ∅).
Proof.
  intros Hw. pose proof (bset_any w Hw) as H. unfold sb64_any in H. destruct (sb64_none w); cbn in H; symmetry in H.
  - apply bool_decide_eq_false in H. symmetry. apply bool_decide_eq_true. by destruct (decide (bset w = ∅)).
  - apply bool_decide_eq_true in H. symmetry. by apply bool_decide_eq_false.
Qed.

Lemma count_pos w : is_u64 w → bset w ≠ ∅ → (0 <? sb64_count w) = true ∧ (1 <=? sb64_count w) = true.
Proof.
  intros Hw Hne. rewrite count_size by done. assert (size (bset w) ≠ 0%nat) by (by intros ?%size_empty_inv%leibniz_equiv).
  rewrite Z.ltb_lt, Z.leb_le. lia.
Qed.

Lemma only_elem (X : gset Z) n : n ∈ X → X ∖ {[n]} = ∅ → X = {[n]}.
Proof.
  intros Hin He. apply set_eq. intros y. rewrite elem_of_singleton. split; [|by intros ->]. intros Hy.
  destruct (decide (y = n)); [done|]. assert (y ∈ X ∖ {[n]}) as Hf by (apply elem_of_difference; by rewrite elem_of_singleton).
  rewrite He in Hf. by apply not_elem_of_empty in Hf.
Qed.

Lemma isPossessor_holders nodeId f : 0 <= nodeId < 64 → isPossessor nodeId f = bool_decide (nodeId ∈ holders f).
Proof.
  intros Hn. unfold isPossessor, holders. destruct (bf_possession f).
  - symmetry. by apply bool_decide_eq_false.
  - destruct (Z.eqb_spec (bf_possessors f) nodeId) as [->|]; symmetry; [apply bool_decide_eq_true|apply bool_decide_eq_false]; set_solver.
  - destruct (sb64_test _ _) eqn:E; symmetry; [apply bool_decide_eq_true|apply bool_decide_eq_false]; rewrite elem_of_bset by done; congruence.
Qed.

Lemma sole_sharer_ok nodeId f : 0 <= nodeId < 64 → is_u64 (bf_possessors f) → bf_possession f = SHARED →
  sole_sharer nodeId f = bool_decide (holders f = {[nodeId]}).
Proof.
  intros Hn Hw Hs. unfold sole_sharer. rewrite isPossessor_holders by done. unfold holders. rewrite Hs, count_size by done.
  destruct (decide (bset (bf_possessors f) = {[nodeId]})) as [E|E].
  - rewrite E, size_singleton, !bool_decide_eq_true_2 by set_solver. done.
  - rewrite (bool_decide_eq_false_2 _ E). apply andb_false_iff.
    destruct (decide (nodeId ∈ bset (bf_possessors f))) as [Hin|]; [right|left; by apply bool_decide_eq_false].
    apply Z.eqb_neq. intros Hc. apply E. assert (size (bset (bf_possessors f)) = 1%nat) as H1 by lia.
    apply size_1_elem_of in H1 as [x Hx]. apply leibniz_equiv in Hx. rewrite Hx in *. set_solver.
Qed.

(** ** Own pages *)

(** An assertion of [evict_owner_page] fails. *)
Definition evict_aborts `{!Build} (ssd : bool) nodeId (full downgraded : bool) f : bool :=
  asserts && (upper_node nodeId || (ssd && bf_dirty f && negb full && downgraded)).

Lemma evict_owner_page_aborts `{!Build} nodeId ssd prob full downgraded rand f : evict_aborts ssd nodeId full downgraded f = true →
  evict_owner_page ssd prob nodeId full downgraded rand f = Throw AssertFailed.
Proof.
  unfold evict_aborts, evict_owner_page, assert_. destruct asserts; [|done]. cbn. destruct (upper_node nodeId); [done|]. cbn.
  destruct (ssd && bf_dirty f); [|done]. by destruct full, downgraded.
Qed.

Lemma evict_owner_page_ok `{!Build} nodeId ssd prob full downgraded rand f :
  evict_aborts ssd nodeId full downgraded f = false → 0 <= nodeId < 64 → entry_ok nodeId f → bf_state f = HOT →
  ∃ v, evict_owner_page ssd prob nodeId full downgraded rand f = Ok v ∧
  match v with
  | EvRemove => ssd = true ∧ bf_dirty f = false ∧ holders f = {[nodeId]}
  | EvPage page f' => page = bf_page f ∧ entry_ok nodeId f' ∧ holders f' = holders f ∖ {[nodeId]} ∧ bf_state f' = EVICTED ∧
      f' = set_state EVICTED (set_page None (set_possessors (sb64_reset (bf_possessors f) nodeId) f)) ∧ bf_possession f = SHARED
  | EvNoRoom | EvWriting | EvLostLatch => ssd = true ∧ bf_dirty f = true
  | EvNothing => True
  end.
Proof.
  intros Hab Hn [Hw Hp Hh Hst Hd] Hhot. destruct Hst as [(_ & Hin & Hpage)|(Hev & _)]; [|congruence].
  unfold evict_aborts in Hab. unfold evict_owner_page. rewrite !assert_cases, negb_involutive. rewrite andb_orb_distrib_r in Hab.
  apply orb_false_iff in Hab as [-> Hab]. rewrite bind_Ok, (bool_decide_eq_true_2 _ Hhot). destruct (ssd && bf_dirty f) eqn:E1.
  { apply andb_true_iff in E1. cbn [negb andb] in *. rewrite andb_true_r. destruct full, downgraded; cbn in *; rewrite ?andb_true_r in Hab; rewrite ?Hab; eexists; (split; [done|done]). }
  destruct Hp as [[He Hr]|Hs].
  - rewrite He. destruct ssd; cbn [andb]; [|by exists EvNothing].
    rewrite isPossessor_holders, (bool_decide_eq_true_2 (nodeId ∈ _)) by done. exists EvRemove. split; [done|].
    split_and!; [done|done|]. revert Hin. unfold holders. rewrite He. intros Hin. apply elem_of_singleton in Hin. by subst.
  - rewrite Hs, (bool_decide_eq_true_2 (SHARED = SHARED)), (bool_decide_eq_false_2 (SHARED = EXCLUSIVE)) by done.
    rewrite (sole_sharer_ok nodeId f Hn Hw Hs), andb_false_r. cbn [andb].
    destruct (decide (holders f = {[nodeId]})) as [E|E]; [rewrite (bool_decide_eq_true_2 _ E)|rewrite (bool_decide_eq_false_2 _ E)].
    + destruct (ssd && (rand <=? prob)) eqn:E2; eexists; (split; [done|]); [|done].
      apply andb_true_iff in E2 as [-> _]. cbn in E1. done.
    + assert (bset (bf_possessors f) ∖ {[nodeId]} ≠ ∅) as Hne.
      { unfold holders in E, Hin. rewrite Hs in E, Hin. intros Hem. by apply E, only_elem. }
      assert (bset (bf_possessors f) ≠ ∅) as Hne' by set_solver.
      rewrite (proj1 (count_pos _ Hw Hne')). cbn [ensure mbind result_bind].
      assert (bset (sb64_reset (bf_possessors f) nodeId) ≠ ∅) as Hr by (by rewrite bset_reset).
      pose proof (sb64_reset_u64 _ nodeId Hw) as Hw'. cbn [bf_possessors BufferFrame.set_possessors].
      rewrite (proj2 (count_pos _ Hw' Hr)). cbn [ensure mbind result_bind]. eexists. split; [done|].
      split; [done|]. unfold holders. cbn. rewrite Hs, bset_reset by done. split; [|by split_and!].
      constructor; unfold holders; cbn; rewrite ?Hs; try done; [by right|].
      right. rewrite bset_reset by done. split_and!; [done|set_solver|done].
Qed.

(** [C8] Evicting an own page never loses it.  Of a well-formed frame that holds
    its page, the page is only given up when another node keeps a copy, which
    the directory entry then names, or when the SSD holds it (the page is clean,
    eviction to the SSD is on) and no other node possesses it; a dirty page is
    written first; otherwise the frame stays as it is.  No check fails but the
    assertions, where they are compiled in: on the nodes of the upper half
    always, and on the others exactly when a dirty page is handed to the write
    buffer. *)
Theorem evict_owner_page_keeps `{!Build} nodeId ssd prob full downgraded rand f :
  0 <= nodeId < 64 → entry_ok nodeId f → bf_state f = HOT →
  if asserts && (upper_node nodeId || (ssd && bf_dirty f && negb full && downgraded)) then
    evict_owner_page ssd prob nodeId full downgraded rand f = Throw AssertFailed
  else ∃ v, evict_owner_page ssd prob nodeId full downgraded rand f = Ok v ∧
    match v with
    | EvRemove => ssd = true ∧ bf_dirty f = false ∧ holders f = {[nodeId]}
    | EvPage page f' => page = bf_page f ∧ entry_ok nodeId f' ∧ holders f' = holders f ∖ {[nodeId]} ∧ bf_state f' = EVICTED
    | EvNoRoom => ssd = true ∧ bf_dirty f = true ∧ full = true
    | EvWriting => ssd = true ∧ bf_dirty f = true ∧ full = false ∧ downgraded = true
    | EvLostLatch => ssd = true ∧ bf_dirty f = true ∧ downgraded = false
    | EvNothing => True
    end.
Proof.
  intros Hn Hf Hhot. fold (evict_aborts ssd nodeId full downgraded f). destruct (evict_aborts _ _ _ _ _) eqn:Hab.
  { by apply evict_owner_page_aborts. }
  destruct (evict_owner_page_ok nodeId ssd prob full downgraded rand f Hab Hn Hf Hhot) as (v & Hv & Hk).
  exists v. split; [done|]. revert Hv. unfold evict_owner_page. intros (_ & _ & Hv)%bind_Ok_inv.
  destruct v; try (destruct Hk as [-> Hd]; rewrite Hd in Hv; destruct full, downgraded; cbn in Hv; inv_bind; by split_and!); naive_solver.
Qed.

(** Node 0 of two; a clean page that node 2 has as well. *)
Lemma evict_owner_page_keeps_witness :
  let f := mkBF 7 None (Some 3%nat) 2 0 (sh_init ∅) 5 HOT false false true false SHARED (sh_init ∅) in
  entry_ok 0 f ∧ ∃ f', evict_owner_page (H:=mkBuild true 2) false 1000 0 false false 0 f = Ok (EvPage (Some 3%nat) f') ∧ holders f' = {[2]}.
Proof.
  intros f.
  assert (entry_ok 0 f) as Hf.
  { constructor; [split; cbn; lia|by right|apply (elem_nonempty _ 0); vm_compute; reflexivity|left; split_and!; [done|vm_compute; reflexivity|by eexists]|done]. }
  split; [exact Hf|].
  destruct (evict_owner_page_keeps (H:=mkBuild true 2) 0 false 1000 false false 0 f ltac:(lia) Hf eq_refl) as (v & Hv & Hk).
  vm_compute in Hv. injection Hv as <-. eexists. split; [vm_compute; reflexivity|]. destruct Hk as (_ & _ & Hh & _).
  etransitivity; [exact Hh|]. vm_compute. reflexivity.
Defined.

(** ** Requests *)

(** A requester that holds the page. *)
Definition requester nodeId bmId f : Prop := 0 <= bmId < 64 ∧ bmId ≠ nodeId ∧ bmId ∈ holders f.

(** What the owner may do to the directory entry of a page that [bmId] gives
    back. *)
Definition entry_done (ssd : bool) nodeId bmId f (o : entry_outcome) : Prop :=
  match o with
  | EAck f' => entry_ok nodeId f' ∧ holders f' = holders f ∖ {[bmId]} ∧ bf_page f' = bf_page f ∧ bf_dirty f' = bf_dirty f
  | EAckRemove f' => ssd = true ∧ bf_dirty f = false ∧ holders f = {[bmId]}
  | ERead page f' => entry_ok nodeId f' ∧ holders f' = {[nodeId]} ∪ holders f ∖ {[bmId]} ∧ bf_page f' = Some page ∧
      bf_state f' = HOT ∧ bf_dirty f' = true
  end ∧ match o with EAck f' | EAckRemove f' | ERead _ f' =>
          bf_pid f' = bf_pid f ∧ bf_pVersion f' = bf_pVersion f ∧ bf_possession f' = bf_possession f end.

Lemma entry_possession_ok ssd nodeId bmId f : 0 <= nodeId < 64 → entry_ok nodeId f → requester nodeId bmId f →
  ∃ needRead f', entry_possession ssd nodeId bmId f = Ok (needRead, f') ∧ bf_possession f' = bf_possession f ∧
    f' = set_possessors (bf_possessors f') f ∧ is_u64 (bf_possessors f') ∧
    if needRead then holders f' = {[nodeId]} ∪ holders f ∖ {[bmId]} ∧ (bf_possession f = EXCLUSIVE → bf_possessors f' = nodeId)
    else bf_possession f = SHARED ∧ bset (sb64_reset (bf_possessors f') bmId) = holders f ∖ {[bmId]} ∧
         (ssd = false → holders f ∖ {[bmId]} ≠ ∅) ∧ (ssd = true → bf_dirty f = false).
Proof.
  intros Hn [Hw Hp Hh _ Hd] (Hb & Hbn & Hin). unfold entry_possession.
  pose proof (sb64_reset_u64 _ bmId Hw) as Hw'. pose proof (sb64_set_u64 _ nodeId Hw') as Hw2.
  assert (f = set_possessors (bf_possessors f) f) as Hid by by destruct f.
  assert (is_u64 nodeId) as Hnu by (unfold is_u64; lia).
  destruct Hp as [[He Hr]|Hs].
  - assert (bf_possessors f = bmId) as <- by (revert Hin; unfold holders; rewrite He; set_solver).
    assert (holders (set_possessors nodeId f) = {[nodeId]} ∪ holders f ∖ {[bf_possessors f]}) as HX.
    { unfold holders. cbn. rewrite He. set_solver. }
    rewrite He, (Hd He Hbn), Z.eqb_refl. destruct ssd; cbn [ensure mbind result_bind]; eexists true, _; (split; [done|]); cbn; by split_and!.
  - rewrite Hs. unfold holders. rewrite Hs. unfold holders in Hin. rewrite Hs in Hin. destruct ssd.
    + destruct (bf_dirty f) eqn:Ed.
      * eexists true, _. split; [done|]. cbn. rewrite Hs, bset_set, bset_reset by done. by split_and!.
      * eexists false, f. split; [done|]. rewrite bset_reset by done. by split_and!.
    + rewrite (proj1 (elem_of_bset _ _ Hb) Hin). cbn [ensure mbind result_bind bf_possessors BufferFrame.set_possessors].
      rewrite none_bset, bset_reset by done.
      destruct (decide (bset (bf_possessors f) ∖ {[bmId]} = ∅)) as [E|E];
        [rewrite (bool_decide_eq_true_2 _ E)|rewrite (bool_decide_eq_false_2 _ E)].
      * eexists true, _. split; [done|]. cbn. rewrite Hs, bset_set, bset_reset by done. by split_and!.
      * eexists false, _. split; [done|]. cbn. rewrite !bset_reset by done. split_and!; try done. set_solver.
Qed.

Lemma private_page buf : rb_inv buf → 0 < rb_getSize buf → ∃ page buf', rb_remove buf = (Ok page, buf') ∧
  rb_empty buf = false ∧ rb_inv buf' ∧ rb_getSize buf' = rb_getSize buf - 1 ∧ rb_abs buf = page :: rb_abs buf'.
Proof.
  intros Hb Hs. unfold rb_getSize, rb_empty in *. destruct (rb_abs buf) as [|page l] eqn:E.
  { unfold rb_abs in E. apply (f_equal length) in E. rewrite length_window in E. cbn in E. lia. }
  destruct (rb_pop_ok buf page l Hb E) as (buf' & -> & Hb' & Hsz & Ha). exists page, buf'. split; [done|].
  split; [apply Z.eqb_neq; lia|]. split; [done|]. split; [|by rewrite Ha].
  assert (length (rb_abs buf) = Datatypes.S (length (rb_abs buf'))) as Hl by (by rewrite E, Ha).
  unfold rb_abs in Hl. rewrite !length_window in Hl. destruct Hb' as (_ & _ & _ & Hc'). lia.
Qed.

Lemma evict_entry_ok ssd nodeId bmId buf f : 0 <= nodeId < 64 → entry_ok nodeId f → requester nodeId bmId f →
  rb_inv buf → 0 < rb_getSize buf →
  ∃ o buf', evict_entry ssd nodeId bmId buf f = Ok (o, buf') ∧ entry_done ssd nodeId bmId f o ∧
    rb_inv buf' ∧ rb_getSize buf - 1 <= rb_getSize buf'.
Proof.
  intros Hn Hf Hr Hbuf Hsize. unfold evict_entry.
  destruct (entry_possession_ok ssd nodeId bmId f Hn Hf Hr) as (needRead & f' & -> & Hp & Hf' & Hw & Hpost).
  cbn [mbind result_bind]. destruct Hf as [_ Hpos Hh Hst Hd]. destruct Hr as (Hb & Hbn & Hin).
  destruct needRead; cbn [negb].
  - destruct Hpost as [HX Hexcl].
    assert (∃ page buf', (if decide (bf_state f' = EVICTED) then
         _ ← ensure (bool_decide (bf_page f' = None));
         if rb_empty buf then Throw RuntimeError else let '(page, buf) := rb_remove buf in page ← page; Ok (page, buf)
       else page ← of_option UndefinedBehaviour (bf_page f'); Ok (page, buf)) = Ok (page, buf') ∧ rb_inv buf' ∧
       rb_getSize buf - 1 <= rb_getSize buf') as (page & buf' & -> & Hbuf' & Hs').
    { rewrite Hf'. cbn. destruct Hst as [(Hs & _ & [page Hpg])|(Hs & _ & Hpg)]; rewrite Hs, Hpg.
      - rewrite decide_False by done. exists page, buf. split_and!; [done|done|lia].
      - rewrite decide_True by done. cbn. destruct (private_page buf Hbuf Hsize) as (page & buf' & -> & -> & ? & ? & _).
        exists page, buf'. split_and!; [done|done|lia]. }
    cbn [mbind result_bind]. eexists _, buf'. split; [done|]. split; [|done].
    assert (∀ st, holders (set_dirty true (set_state st (set_page (Some page) f'))) = {[nodeId]} ∪ holders f ∖ {[bmId]}) as HX'.
    { intros st. rewrite <- HX. done. }
    unfold entry_done. rewrite HX'. split; [|by rewrite Hf']. split; [|by split_and!].
    constructor; cbn -[holders]; rewrite ?HX'; try done.
    + rewrite Hp. destruct Hpos as [[He _]|Hs]; [left|by right]. split; [done|]. by rewrite Hexcl.
    + set_solver.
    + left. split_and!; [done|set_solver|by eexists].
  - destruct Hpost as (Hs & HX & Hkeep & Hclean). rewrite Hp, Hs. cbn [ensure mbind result_bind bool_decide decide_rel POSSESSION_eq_dec].
    pose proof (sb64_reset_u64 _ bmId Hw) as Hw'. cbn [bf_possessors BufferFrame.set_possessors].
    rewrite none_bset, HX by done.
    destruct (decide (holders f ∖ {[bmId]} = ∅)) as [E|E];
      [rewrite (bool_decide_eq_true_2 _ E)|rewrite (bool_decide_eq_false_2 _ E)].
    + apply only_elem in E; [|done]. destruct ssd; [|exfalso; apply Hkeep; [done|]; rewrite E; set_solver].
      assert (bf_state f = EVICTED ∧ bf_page f = None) as [Hev Hnp].
      { destruct Hst as [(_ & H & _)|(? & _ & ?)]; [|done]. rewrite E in H. set_solver. }
      rewrite Hf'. cbn. rewrite Hev, Hnp. cbn. eexists _, buf. split; [done|]. unfold entry_done. cbn.
      split_and!; [done|by apply Hclean|done|done|done|done|done|lia].
    + assert (bset (sb64_reset (bf_possessors f') bmId) ≠ ∅) as HX' by (by rewrite HX).
      rewrite (proj1 (count_pos _ Hw' HX')). cbn [ensure mbind result_bind].
      assert (holders (set_possessors (sb64_reset (bf_possessors f') bmId) f') = holders f ∖ {[bmId]}) as HX2
        by (rewrite <- HX; unfold holders; cbn; by rewrite Hp, Hs).
      eexists _, buf. split; [done|]. unfold entry_done. rewrite HX2, Hf'. cbn -[holders].
      split_and!; [|done|done|done|done|done|done|done|lia].
      constructor; rewrite <- Hf'; rewrite ?HX2; cbn; rewrite ?Hp; try done; [by right| |by rewrite Hs].
      rewrite Hf'. cbn. destruct Hst as [(? & ? & ?)|(? & ? & ?)]; [left|right]; split_and!; try done; set_solver.
Qed.

