(* ===== verification/Messages.v ===== *)
(** * rdma/messages/Messages.hpp

    The messages of the coherence protocol.  A request is written into the
    mailbox of the receiving message handler, a response into the buffer the
    requesting worker polls.  Fields a C++ constructor leaves uninitialised are
    [None]; reading one is undefined. *)

From S2P Require Import Prelude Defs.
Local Open Scope Z_scope.

Inductive MESSAGE_TYPE :=
| MT_Empty | MT_Finish
| PRX | PRS | PRRX | PRRS
| PMR | PMRR
| PCR | PCRR
| PUR | PURR
| RAR | RARR
| PRFR | PRFRR
| DPMR | DR | DRR
| MT_Init | MT_Test.

Definition message_type_code (m : MESSAGE_TYPE) : Z :=
  match m with
  | MT_Empty => 0 | MT_Finish => 1
  | PRX => 2 | PRS => 3 | PRRX => 4 | PRRS => 5
  | PMR => 6 | PMRR => 7
  | PCR => 8 | PCRR => 9
  | PUR => 10 | PURR => 11
  | RAR => 12 | RARR => 13
  | PRFR => 14 | PRFRR => 15
  | DPMR => 96 | DR => 97 | DRR => 98
  | MT_Init => 99 | MT_Test => 100
  end.

Inductive RESULT :=
| WithPage
| NoPage
| NoPageSharedConflict
| NoPageExclusiveConflict
| WithPageSharedConflict
| NoPageEvicted
| UpdateFailed
| UpdateSucceed
| UpdateSucceedWithSharedConflict
| CopyFailedWithRestart
| CopyFailedWithInvalidation.
#[export] Instance RESULT_eq_dec : EqDecision RESULT.
Proof. solve_decision. Defined.

Definition result_code (r : RESULT) : Z :=
  match r with
  | WithPage => 1 | NoPage => 2 | NoPageSharedConflict => 3 | NoPageExclusiveConflict => 4
  | WithPageSharedConflict => 5 | NoPageEvicted => 6 | UpdateFailed => 7 | UpdateSucceed => 8
  | UpdateSucceedWithSharedConflict => 9 | CopyFailedWithRestart => 10 | CopyFailedWithInvalidation => 11
  end.

(** ** Requests.  A page offset is the page of the requester. *)

Record PossessionRequest := mkPR { pr_type : MESSAGE_TYPE; pr_pid : Z; pr_pageOffset : nat }.
Record PossessionMoveRequest := mkPMR { pmr_needPage : bool; pmr_pid : Z; pmr_pageOffset : nat; pmr_pVersion : Z }.
Record PossessionCopyRequest := mkPCR { pcr_pid : Z; pcr_pageOffset : nat; pcr_pVersion : Z }.
Record PossessionUpdateRequest := mkPUR { pur_pid : Z; pur_pVersion : Z }.
Record DelegationRequest := mkDR { dr_mbOffset : Z; dr_mbPayload : Z; dr_bmId : Z }.

(** ** Responses *)

Record PossessionResponse := mkPRR {
  prr_type : MESSAGE_TYPE;
  prr_result : RESULT;
  prr_conflict : option Z;
  prr_pVersion : option Z;
  prr_delegated : bool;
  prr_receiveFlag : Z;
}.
Definition PossessionResponse_new (result : RESULT) : PossessionResponse := mkPRR PRRS result None None false 1.

Record PossessionMoveResponse := mkPMRR { pmrr_result : RESULT; pmrr_receiveFlag : Z }.
Definition PossessionMoveResponse_new (result : RESULT) : PossessionMoveResponse := mkPMRR result 1.
Record PossessionCopyResponse := mkPCRR { pcrr_result : RESULT; pcrr_receiveFlag : Z }.
Definition PossessionCopyResponse_new (result : RESULT) : PossessionCopyResponse := mkPCRR result 1.

Record PossessionUpdateResponse := mkPURR {
  purr_result : RESULT;
  purr_conflict : option Z;
  purr_pVersion : option Z;
  purr_receiveFlag : Z;
}.
Definition PossessionUpdateResponse_new (result : RESULT) : PossessionUpdateResponse := mkPURR result None None 1.

Record RemoteAllocationResponse := mkRARR { rarr_pid : Z; rarr_receiveFlag : Z }.
Definition RemoteAllocationResponse_new (pid : Z) : RemoteAllocationResponse := mkRARR pid 1.

(** The payload of a mailbox: the class hierarchy below [Message]. *)
Inductive Message :=
| MFinish
| MPossession (m : PossessionRequest)
| MMove (m : PossessionMoveRequest)
| MCopy (m : PossessionCopyRequest)
| MUpdate (m : PossessionUpdateRequest)
| MAllocation
| MDelegation (m : DelegationRequest)
| MOther (t : MESSAGE_TYPE).

Inductive Response :=
| RPossession (m : PossessionResponse)
| RMove (m : PossessionMoveResponse)
| RCopy (m : PossessionCopyResponse)
| RUpdate (m : PossessionUpdateResponse)
| RAllocation (m : RemoteAllocationResponse)
| RDelegation.

(** ** Layout

    [sizeof] of a struct from the sizes of its members, in order, each aligned
    to its size unless the struct is packed. *)

Definition align_up (a x : Z) : Z := (x + a - 1) / a * a.
Definition struct_size (packed : bool) (members : list Z) : Z :=
  let end_ := foldl (λ off m, (if packed then off else align_up m off) + m) 0 members in
  if packed then end_ else align_up (foldr Z.max 1 members) end_.

(** [union ALLDERIVED], in its order. *)
Definition message_sizes : list Z :=
  [ struct_size false [1];
    struct_size true [1; 1; 8; 8; 1; 1];
    struct_size false [1; 8; 8];
    struct_size false [1; 1; 1];
    struct_size true [1; 1; 8; 8; 8];
    struct_size false [1; 1; 1];
    struct_size true [1; 8; 8; 8];
    struct_size false [1];
    struct_size false [1; 8; 1];
    struct_size false [1; 8; 8; 8];
    struct_size false [1; 1] ].
Definition LARGEST_MESSAGE : Z := foldr Z.max 0 message_sizes.

(** The [static_assert] on the payload buffer. *)
Lemma messages_fit : LARGEST_MESSAGE <= 32 ∧ Forall (λ s, s <= LARGEST_MESSAGE) message_sizes.
Proof. split; [by vm_compute|]. apply (bool_decide_unpack _). by vm_compute. Qed.
