(* ===== verification/Protocol.v ===== *)
(** * The coherence protocol on one buffer frame

    What a message handler ([rdma/MessageHandler.{hpp,cpp}]) and a worker in
    [Buffermanager::fix] ([Buffermanager.tpp]) do to the frame of a page while
    they hold its latch: the replies to the four kinds of request, and the
    segments of [fix] between two messages.  The actions of the
    multi-node system of Coherence.v are composed of these functions. *)

From S2P Require Import Prelude Defs Bitmap Latch BufferFrame Messages.
Local Open Scope Z_scope.

Implicit Types (f : BufferFrame) (nodeId bmId : Z).

Definition bump_pVersion f : BufferFrame := set_pVersion (bf_pVersion f +₆₄ 1) f.

(** ** The owner's reply to a possession request *)

(** What the handler sends and does after it changed the frame: the response,
    whether the page goes with it, the page to park until the write completed,
    and whether a copy by the client is registered as in flight. *)
Record Reply := mkReply {
  rp_msg : PossessionResponse;
  rp_page : bool;
  rp_park : option nat;
  rp_register : bool;
  rp_frame : BufferFrame;
}.

Definition answer (r : RESULT) (conflict : option Z) f (msg : PossessionResponse) : PossessionResponse :=
  mkPRR (prr_type msg) r conflict (Some (bf_pVersion f)) (prr_delegated msg) (prr_receiveFlag msg).

(** The end of [handlePossessionRequest]: the page goes to the client. *)
Definition reply_with_page (bmId : Z) (r : RESULT) (conflict : option Z) (msg : PossessionResponse) f : result Reply :=
  let msg := answer r conflict f msg in
  f ← setPossessor bmId f;
  _ ← ensure (isPossessor bmId f);
  _ ← ensure (bool_decide (is_Some (bf_page f)));
  _ ← ensure (bool_decide (r = WithPageSharedConflict ∨ r = WithPage));
  if decide (bf_state f = EVICTED) then Ok (mkReply msg true (bf_page f) false (set_page None f))
  else Ok (mkReply msg true None false f).

Definition reply_shared (nodeId bmId : Z) (msg : PossessionResponse) f : result Reply :=
  if decide (bf_possession f = EXCLUSIVE) then
    let f := bump_pVersion f in
    if bf_possessors f =? nodeId then
      _ ← ensure (bool_decide (bf_state f = HOT));
      let f := set_possessors 0 f in
      let f := set_possession SHARED f in
      f ← setPossessor nodeId f;
      _ ← ensure (bool_decide (bf_state f = HOT));
      reply_with_page bmId WithPage (prr_conflict msg) msg f
    else
      _ ← ensure (bool_decide (bf_state f = EVICTED));
      _ ← ensure (negb (isPossessor nodeId f));
      let msg := answer NoPageExclusiveConflict (Some (bf_possessors f)) f msg in
      let f := set_possessors 0 f in
      let f := set_possession SHARED f in
      f ← setPossessor bmId f;
      Ok (mkReply msg false None false f)
  else if decide (bf_state f = EVICTED) then
    _ ← ensure (negb (isPossessor nodeId f));
    let msg := answer NoPageEvicted (Some (bf_possessors f)) f msg in
    f ← setPossessor bmId f;
    Ok (mkReply msg false None true f)
  else reply_with_page bmId WithPage (prr_conflict msg) msg f.

Definition reply_exclusive (nodeId bmId : Z) (msg : PossessionResponse) f : result Reply :=
  let f := bump_pVersion f in
  let f := set_dirty true f in
  if decide (bf_possession f = SHARED) then
    let f := set_possessors (sb64_reset (bf_possessors f) nodeId) f in
    if sb64_any (bf_possessors f) then
      if decide (bf_state f = EVICTED) then
        let msg := answer NoPageSharedConflict (Some (bf_possessors f)) f msg in
        let f := set_possession EXCLUSIVE f in
        f ← setPossessor bmId f;
        Ok (mkReply msg false None false f)
      else
        let conflict := bf_possessors f in
        let f := set_possession EXCLUSIVE f in
        _ ← ensure (bool_decide (bf_state f = HOT));
        reply_with_page bmId WithPageSharedConflict (Some conflict) msg (set_state EVICTED f)
    else
      let f := set_possession EXCLUSIVE f in
      _ ← ensure (bool_decide (bf_state f = HOT));
      reply_with_page bmId WithPage (prr_conflict msg) msg (set_state EVICTED f)
  else if negb (bf_possessors f =? nodeId) then
    _ ← ensure (bool_decide (bf_state f = EVICTED));
    _ ← ensure (negb (isPossessor nodeId f));
    let msg := answer NoPageExclusiveConflict (Some (bf_possessors f)) f msg in
    f ← setPossessor bmId f;
    Ok (mkReply msg false None false f)
  else
    _ ← ensure (bool_decide (bf_state f = HOT));
    reply_with_page bmId WithPage (prr_conflict msg) msg (set_state EVICTED f).

(** [handlePossessionRequest] from the test of the frame's state on, the latch
    calls aside; [state] is the state of the guard. *)
Definition possession_reply (DESIRED_MODE : POSSESSION) (state : STATE) (nodeId bmId : Z) f : result Reply :=
  _ ← ensure (bool_decide (bf_state f = HOT ∨ bf_state f = EVICTED));
  let msg := PossessionResponse_new WithPage in
  let msg := mkPRR (if decide (DESIRED_MODE = SHARED) then PRRS else PRRX)
               (prr_result msg) (prr_conflict msg) (prr_pVersion msg) (prr_delegated msg) (prr_receiveFlag msg) in
  _ ← ensure (bool_decide (state = LOCAL_POSSESSION_CHANGE));
  match DESIRED_MODE with
  | SHARED => reply_shared nodeId bmId msg f
  | EXCLUSIVE => reply_exclusive nodeId bmId msg f
  | NOBODY => reply_with_page bmId WithPage (prr_conflict msg) msg f
  end.

(** The state [Protocol<DESIRED_MODE>] gives the guard. *)
Definition protocol_state (DESIRED_MODE : POSSESSION) (bmId : Z) f : STATE :=
  if bool_decide (bf_possession f ≠ DESIRED_MODE) || negb (isPossessor bmId f)
  then LOCAL_POSSESSION_CHANGE else INITIALIZED.

(** The branch of the handler for a page it just installed: it is read from the
    SSD asynchronously and the request is handled again afterwards. *)
Definition ssd_frame (nodeId epoch : Z) f : result BufferFrame :=
  let f := set_state HOT f in
  let f := set_epoch epoch f in
  let f := set_possession SHARED f in
  f ← setPossessor nodeId f;
  Ok (set_dirty false f).

(** ** Move, copy and update requests *)

(** A move: the checks before the frame is removed, and the result. *)
Definition move_reply (pid : Z) (needPage : bool) f : result PossessionMoveResponse :=
  _ ← ensure (pid =? bf_pid f);
  _ ← ensure (bool_decide (is_Some (bf_page f)));
  Ok (PossessionMoveResponse_new (if needPage then WithPage else NoPage)).

(** A copy of a frame that is latched in shared mode. *)
Definition copy_reply (pid pVersion : Z) f : result PossessionCopyResponse :=
  if bf_mhWaiting f && negb (bool_decide (bf_state f = HOT)) then
    _ ← ensure (bool_decide (bf_state f = IO_RDMA ∨ bf_state f = FREE));
    Ok (PossessionCopyResponse_new CopyFailedWithRestart)
  else
    _ ← ensure (bool_decide (bf_possession f = SHARED));
    _ ← ensure (pid =? bf_pid f);
    _ ← ensure (bf_pVersion f =? pVersion);
    _ ← ensure (bool_decide (is_Some (bf_page f)));
    Ok (PossessionCopyResponse_new WithPage).

(** An update that is not refused: response, parked page and frame. *)
Definition update_reply (nodeId bmId pid pVersion : Z) f : result (PossessionUpdateResponse * option nat * BufferFrame) :=
  _ ← ensure (pid =? bf_pid f);
  _ ← ensure (bf_pVersion f =? pVersion);
  _ ← ensure (sb64_test (bf_possessors f) bmId);
  let f := bump_pVersion f in
  let version := bf_pVersion f in
  let f := set_possessors (sb64_reset (bf_possessors f) nodeId) f in
  let '(res, conflict) :=
    if sb64_any (bf_possessors f) then (UpdateSucceedWithSharedConflict, Some (bf_possessors f))
    else (UpdateSucceed, None) in
  '(park, f) ← (if negb (bool_decide (bf_state f = EVICTED)) then
                  _ ← ensure (bool_decide (is_Some (bf_page f)));
                  Ok (bf_page f, set_state EVICTED (set_page None f))
                else Ok (None, f));
  let f := set_possession EXCLUSIVE f in
  f ← setPossessor bmId f;
  let f := set_dirty true f in
  _ ← ensure (isPossessor bmId f);
  Ok (mkPURR res conflict (Some version) 1, park, set_mhWaiting false f).

(** ** The segments of [fix] *)

(** The frame [findFrameOrInsert] installs for a page that was not found, after
    it latched it. *)
Definition install_frame `{!Build} (nodeId pid : Z) (page : nat) (epoch : Z) f : result BufferFrame :=
  _ ← ensure (bf_pid f =? EMPTY_PID);
  let f := set_state (if getOwner pid =? nodeId then IO_SSD else IO_RDMA) f in
  _ ← assert_ (negb (upper_node nodeId && bool_decide (bf_state f = IO_SSD)));
  let f := set_page (Some page) f in
  let f := set_pid pid f in
  let f := set_epoch epoch f in
  Ok (setPossession NOBODY f).

(** What a worker still has to do before it possesses the page: move it from
    one node, move it from one of the nodes and invalidate the others,
    invalidate the nodes, or copy it from one of the nodes. *)
Inductive todo :=
| TDone
| TMove (id : Z)
| TMoveRnd (shared : Z)
| TInvalidate (shared : Z)
| TCopy (shared : Z).

Definition request_type (type : LATCH_STATE) : MESSAGE_TYPE :=
  if decide (type = LS_EXCLUSIVE) then PRX else PRS.
Definition desired (type : LATCH_STATE) : POSSESSION :=
  if decide (type = LS_EXCLUSIVE) then EXCLUSIVE else SHARED.

(** The case [STATE::REMOTE] up to its request, and its response. *)
Definition remote_request (type : LATCH_STATE) (pid : Z) f : result (PossessionRequest * BufferFrame) :=
  _ ← ensure (bool_decide (bf_state f = IO_RDMA));
  let f := set_state IO_RDMA f in
  page ← of_option UndefinedBehaviour (bf_page f);
  Ok (mkPR (request_type type) pid page, f).

Definition remote_response (msg : PossessionResponse) f : result (todo * BufferFrame) :=
  version ← of_option UndefinedBehaviour (prr_pVersion msg);
  let f := set_pVersion version f in
  match prr_result msg with
  | NoPageExclusiveConflict =>
      id ← of_option UndefinedBehaviour (prr_conflict msg); Ok (TMove id, f)
  | NoPageSharedConflict =>
      shared ← of_option UndefinedBehaviour (prr_conflict msg);
      _ ← ensure (sb64_any shared); Ok (TMoveRnd shared, f)
  | WithPageSharedConflict =>
      shared ← of_option UndefinedBehaviour (prr_conflict msg);
      _ ← ensure (sb64_any shared); Ok (TInvalidate shared, f)
  | NoPageEvicted =>
      shared ← of_option UndefinedBehaviour (prr_conflict msg);
      _ ← ensure (sb64_any shared); Ok (TCopy shared, f)
  | _ => Ok (TDone, f)
  end.

(** The possession is taken: the ends of all four cases. *)
Definition take_possession (type : LATCH_STATE) (nodeId : Z) f : result BufferFrame :=
  let f := set_possession (desired type) f in
  f ← setPossessor nodeId f;
  Ok (set_state HOT f).

(** The case [STATE::LOCAL_POSSESSION_CHANGE] up to its first message; [page]
    is the page popped for an evicted frame. *)
Definition local_start (type : LATCH_STATE) (nodeId pid : Z) (page : nat) f : result (todo * BufferFrame) :=
  _ ← ensure (getOwner pid =? nodeId);
  _ ← ensure (bool_decide (bf_possession f ≠ NOBODY));
  let f := if decide (bf_state f = EVICTED) then set_page (Some page) f else f in
  match bf_possession f with
  | EXCLUSIVE => let f := bump_pVersion f in Ok (TMove (bf_possessors f), f)
  | SHARED =>
      if decide (type = LS_EXCLUSIVE) then
        let f := bump_pVersion f in
        let f := set_possessors (sb64_reset (bf_possessors f) nodeId) f in
        if decide (bf_state f = EVICTED) then Ok (TMoveRnd (bf_possessors f), f)
        else Ok (TInvalidate (bf_possessors f), f)
      else
        _ ← ensure (bool_decide (bf_state f = EVICTED));
        _ ← ensure (sb64_any (bf_possessors f));
        Ok (TCopy (bf_possessors f), f)
  | NOBODY => Throw RuntimeError
  end.

(** Once the conflicts are resolved the word of the possessors is empty, except
    after a copy. *)
Definition local_resolved (t : todo) f : BufferFrame :=
  match t with TCopy _ => f | _ => set_possessors 0 f end.
Definition local_finish (type : LATCH_STATE) (nodeId : Z) f : result BufferFrame :=
  f ← take_possession type nodeId f;
  _ ← ensure (isPossessor nodeId f);
  _ ← ensure (negb (bf_pid f =? EMPTY_PID));
  Ok f.

(** A failed copy of the owner gives its page back. *)
Definition local_copy_failed f : result (option nat * BufferFrame) :=
  _ ← ensure (bool_decide (bf_state f = EVICTED));
  Ok (bf_page f, set_page None f).

(** The case [STATE::REMOTE_POSSESSION_CHANGE]: the version before it is part
    of the request. *)
Definition update_start (pid : Z) f : result (PossessionUpdateRequest * BufferFrame) :=
  _ ← ensure (bool_decide (bf_possession f = SHARED));
  _ ← ensure (bool_decide (bf_state f = HOT));
  let pVersionOld := bf_pVersion f in
  let f := bump_pVersion f in
  Ok (mkPUR pid pVersionOld, f).

(** [None]: the update failed, the version is the old one again and the worker
    restarts. *)
Definition update_response (nodeId pVersionOld : Z) (msg : PossessionUpdateResponse) f :
    result (option todo * BufferFrame) :=
  if decide (purr_result msg = UpdateFailed) then Ok (None, set_pVersion pVersionOld f)
  else
    version ← of_option UndefinedBehaviour (purr_pVersion msg);
    _ ← ensure (bf_pVersion f =? version);
    let f := set_pVersion version f in
    if decide (purr_result msg = UpdateSucceedWithSharedConflict) then
      shared ← of_option UndefinedBehaviour (purr_conflict msg);
      Ok (Some (TInvalidate (sb64_reset shared nodeId)), f)
    else Ok (Some TDone, f).

(** ** New pages *)

(** The frame of a page its owner creates, of one a node created on a remote
    owner, and of a page the owner allocated for node [bmId]. *)
Definition new_frame (nodeId pid : Z) (page : nat) (epoch : Z) f : result BufferFrame :=
  let f := set_page (Some page) f in
  let f := set_pid pid f in
  let f := setPossession EXCLUSIVE f in
  f ← setPossessor nodeId f;
  let f := set_state HOT f in
  let f := set_pVersion 0 f in
  Ok (set_epoch epoch f).
Definition new_remote_frame (nodeId pid : Z) (page : nat) f : result BufferFrame :=
  let f := set_page (Some page) f in
  let f := set_pid pid f in
  let f := setPossession EXCLUSIVE f in
  f ← setPossessor nodeId f;
  let f := set_state HOT f in
  let f := set_epoch 0 f in
  Ok (set_pVersion 0 f).
Definition allocated_frame (bmId pid epoch : Z) f : result BufferFrame :=
  let f := setPossession EXCLUSIVE f in
  f ← setPossessor bmId f;
  let f := set_state EVICTED f in
  let f := set_pid pid f in
  let f := set_pVersion 0 f in
  let f := set_dirty true f in
  Ok (set_epoch epoch f).
