(* ===== verification/Directory.v ===== *)
(** * The coherence protocol: abstract specification

    One page, its owner and the nodes that cache it.  The owner keeps a
    directory: the current version, the mode and the nodes the page was granted
    to under this version.  A grant to a node carries the version it was made
    with, the nodes that still have to give the page up first, and the contents
    of the page once they have arrived.

    The specification is a step relation.  Its invariant yields the two
    properties a cache has to have: at most one node can write while nobody
    else reads, and what is read is what was written last.  Coherence.v
    composes the code of the message handlers and of [fix] into a system of
    nodes and CoherenceSim.v proves that the system implements this
    specification. *)

From S2P Require Import Prelude Defs BufferFrame.
Local Open Scope Z_scope.

Section directory.
Context {V : Type} (o : Z).

Record grant := mkGrant {
  g_v : Z;
  g_m : POSSESSION;
  g_need : gset Z;
  g_page : option V;
}.

Record dstate := mkD {
  d_gr : gmap Z grant;
  d_v : Z;
  d_m : POSSESSION;
  d_h : gset Z;
  d_ssd : V;
  d_last : V;
}.
Implicit Types (A : dstate) (g : grant) (n k j c : Z).

(** The node has the page and nobody has to give it up any more. *)
Definition complete g : Prop := g_need g = ∅ ∧ is_Some (g_page g).
Definition complete_at A k g : Prop := d_gr A !! k = Some g ∧ complete g.

(** The page a node is granted with exclusive possession: its own, or the one
    of the owner, if either is there. *)
Definition grant_page A n : option V :=
  match d_gr A !! n with
  | Some g => g_page g
  | None => d_gr A !! o ≫= g_page
  end.

(** Every holder has the page. *)
Definition all_pages A : Prop := ∀ k g, k ∈ d_h A → d_gr A !! k = Some g → is_Some (g_page g).

Inductive dstep : dstate → dstate → Prop :=
(** The owner reads the page from its SSD. *)
| d_load A m :
    d_h A = ∅ → m ≠ NOBODY →
    dstep A (mkD {[o := mkGrant (d_v A) m ∅ (Some (d_ssd A))]} (d_v A) m {[o]} (d_ssd A) (d_last A))
(** A node gets exclusive possession, as a newcomer or as a holder in shared
    mode; every other holder has to give the page up, the owner at once. *)
| d_grant_x A n :
    d_h A ≠ ∅ →
    (∀ g, d_gr A !! n = Some g → n ∈ d_h A ∧ g_m g = SHARED ∧ complete g) →
    (∀ g, d_gr A !! o = Some g → complete g) →
    dstep A (mkD (<[n := mkGrant (d_v A + 1) EXCLUSIVE (d_h A ∖ {[n]} ∖ {[o]}) (grant_page A n)]>
                    (delete o (d_gr A)))
                 (d_v A + 1) EXCLUSIVE {[n]} (d_ssd A) (d_last A))
(** A newcomer gets shared possession from the exclusive holder. *)
| d_grant_s A n c :
    d_m A = EXCLUSIVE → d_h A = {[c]} → c ≠ o → d_gr A !! n = None →
    dstep A (mkD (<[n := mkGrant (d_v A + 1) SHARED {[c]} None]> (d_gr A))
                 (d_v A + 1) SHARED {[n]} (d_ssd A) (d_last A))
(** The owner downgrades its exclusive possession for a newcomer. *)
| d_downgrade A n g :
    d_m A = EXCLUSIVE → d_h A = {[o]} → complete_at A o g → n ≠ o → d_gr A !! n = None →
    dstep A (mkD (<[n := mkGrant (d_v A + 1) SHARED ∅ (g_page g)]>
                    (<[o := mkGrant (d_v A + 1) SHARED ∅ (g_page g)]> (d_gr A)))
                 (d_v A + 1) SHARED {[o; n]} (d_ssd A) (d_last A))
(** A newcomer joins the shared holders, with the page of one of them or
    without a page. *)
| d_join A n p :
    d_m A = SHARED → d_h A ≠ ∅ → d_gr A !! n = None →
    (p = None ∧ o ∉ d_h A ∨ ∃ j g, j ∈ d_h A ∧ complete_at A j g ∧ p = g_page g) → (n = o → p ≠ None) →
    dstep A (mkD (<[n := mkGrant (d_v A) SHARED ∅ p]> (d_gr A))
                 (d_v A) SHARED ({[n]} ∪ d_h A) (d_ssd A) (d_last A))
(** A joined node copies the page from another holder. *)
| d_copy A n j v g :
    d_gr A !! n = Some (mkGrant v SHARED ∅ None) → complete_at A j g → g_v g = v →
    dstep A (mkD (<[n := mkGrant v SHARED ∅ (g_page g)]> (d_gr A))
                 (d_v A) (d_m A) (d_h A) (d_ssd A) (d_last A))
(** Node [k] gives the page up for node [n], which gets its contents when it
    does not have them yet. *)
| d_move A n k g gk (take : bool) :
    d_gr A !! n = Some g → d_gr A !! k = Some gk → k ∈ g_need g → g_need gk = ∅ →
    (if take then is_Some (g_page gk) else is_Some (g_page g)) →
    dstep A (mkD (<[n := mkGrant (g_v g) (g_m g) (g_need g ∖ {[k]}) (if take then g_page gk else g_page g)]>
                    (delete k (d_gr A)))
                 (d_v A) (d_m A) (d_h A) (d_ssd A) (d_last A))
(** A node in exclusive possession writes. *)
| d_write A n g x :
    complete_at A n g → g_m g = EXCLUSIVE →
    dstep A (mkD (<[n := mkGrant (g_v g) (g_m g) (g_need g) (Some x)]> (d_gr A))
                 (d_v A) (d_m A) (d_h A) (d_ssd A) x)
(** A holder drops the page while another one holds it and no copy is under
    way. *)
| d_drop A n g :
    complete_at A n g → n ∈ d_h A → n ≠ o → d_h A ∖ {[n]} ≠ ∅ → all_pages A →
    dstep A (mkD (delete n (d_gr A)) (d_v A) (d_m A) (d_h A ∖ {[n]}) (d_ssd A) (d_last A))
(** The owner drops the page while another node holds it. *)
| d_drop_owner A g :
    complete_at A o g → d_h A ∖ {[o]} ≠ ∅ →
    dstep A (mkD (delete o (d_gr A)) (d_v A) (d_m A) (d_h A ∖ {[o]}) (d_ssd A) (d_last A))
(** The owner takes the page over from a holder while no copy is under way. *)
| d_take A n g :
    complete_at A n g → n ∈ d_h A → n ≠ o → all_pages A →
    dstep A (mkD (<[o := mkGrant (d_v A) (d_m A) ∅ (g_page g)]> (delete n (d_gr A)))
                 (d_v A) (d_m A) ({[o]} ∪ d_h A ∖ {[n]}) (d_ssd A) (d_last A))
(** The last holder drops a page that the SSD has; its versions start anew. *)
| d_forget A n g :
    complete_at A n g → d_h A = {[n]} → d_ssd A = d_last A →
    dstep A (mkD ∅ 0 (d_m A) ∅ (d_ssd A) (d_last A))
(** The owner writes the page to its SSD. *)
| d_flush A g :
    complete_at A o g →
    dstep A (mkD (d_gr A) (d_v A) (d_m A) (d_h A) (d_last A) (d_last A)).

(** ** The invariant *)

Record dinv A : Prop := mkDinv {
  di_dir k g : d_gr A !! k = Some g → g_v g <= d_v A ∧ (g_v g = d_v A → k ∈ d_h A ∧ g_m g = d_m A);
  di_holder k : k ∈ d_h A → ∃ g, d_gr A !! k = Some g ∧ g_v g = d_v A;
  di_older k g : d_gr A !! k = Some g → g_v g < d_v A →
    ∃ n g', d_gr A !! n = Some g' ∧ g_v g' = g_v g + 1 ∧ k ∈ g_need g';
  di_need n g k : d_gr A !! n = Some g → k ∈ g_need g →
    ∃ gk, d_gr A !! k = Some gk ∧ g_v gk + 1 = g_v g;
  di_single n g k gk : d_gr A !! n = Some g → d_gr A !! k = Some gk →
    g_v g = g_v gk → g_m g = EXCLUSIVE → n = k;
  di_one n g k gk : d_gr A !! n = Some g → d_gr A !! k = Some gk →
    g_v g = g_v gk → g_need g ≠ ∅ → g_need gk ≠ ∅ → n = k;
  di_complete n g k gk : complete_at A n g → d_gr A !! k = Some gk → g_v g <= g_v gk;
  di_page n g k gk : d_gr A !! n = Some g → is_Some (g_page g) →
    d_gr A !! k = Some gk → g_m gk = EXCLUSIVE → g_v g <= g_v gk;
  di_last n g x : d_gr A !! n = Some g → g_page g = Some x → x = d_last A;
  di_empty : d_h A = ∅ → d_gr A = ∅ ∧ d_ssd A = d_last A;
  di_owner g : d_gr A !! o = Some g → o ∈ d_h A;
  di_wait n g : d_gr A !! n = Some g → g_m g = EXCLUSIVE → g_need g = ∅ → is_Some (g_page g);
  di_mode n g : d_gr A !! n = Some g → g_m g ≠ NOBODY;
}.

(** Case analysis on the grants of an updated state. *)
Ltac gr_cases :=
  repeat match goal with H : complete_at _ _ _ |- _ => destruct H as [H [? ?]]; cbn [d_gr] in * end;
  map_cases; cbn [g_v g_m g_need g_page] in *.

(** Marks a hypothesis a tactic has dealt with. *)
Definition marked {P : Prop} (_ : P) : Prop := True.

Section invariant.
Variable A : dstate.
Hypothesis HA : dinv A.

(** Between a grant and a newer version there is a node at every version that
    still waits. *)
Lemma older_chain k g w : d_gr A !! k = Some g → g_v g < w <= d_v A →
  ∃ n gn, d_gr A !! n = Some gn ∧ g_v gn = w ∧ g_need gn ≠ ∅.
Proof.
  intros Hk Hw. remember (Z.to_nat (w - g_v g)) as d eqn:Hd.
  revert k g Hk Hw Hd. induction d as [|d IH]; intros k g Hk Hw Hd; [lia|].
  destruct (di_older _ HA k g Hk) as (n & g' & Hn & Hv & Hin); [lia|].
  destruct (decide (w = g_v g')) as [->|].
  - exists n, g'. split; [done|]. split; [done|]. sset.
  - apply (IH n g' Hn); lia.
Qed.

Lemma no_older w : w <= d_v A → (∀ n gn, d_gr A !! n = Some gn → g_v gn = w → g_need gn = ∅) →
  ∀ k g, d_gr A !! k = Some g → w <= g_v g.
Proof.
  intros Hw Hall k g Hk. destruct (decide (w <= g_v g)) as [|Hlt]; [done|].
  destruct (older_chain k g w Hk) as (n & gn & Hn & Hv & Hne); [lia|]. destruct Hne. by eapply Hall.
Qed.

(** Nobody is at the version after the current one. *)
Lemma below_next k g : d_gr A !! k = Some g → g_v g < d_v A + 1.
Proof. intros Hk. destruct (di_dir _ HA k g Hk). lia. Qed.

(** A grant older than the one that needs it is not the owner's. *)
Lemma need_not_holder n g k : d_gr A !! n = Some g → k ∈ g_need g → k ∉ d_h A ∧ k ≠ o.
Proof.
  intros Hn Hk. destruct (di_need _ HA n g k Hn Hk) as (gk & Hgk & Hv).
  destruct (di_dir _ HA n g Hn) as [Hle _].
  assert (k ∉ d_h A) as Hd.
  { intros Hin. destruct (di_holder _ HA k Hin) as (g2 & Hg2 & Hv2).
    assert (g2 = gk) as -> by congruence. lia. }
  split; [done|]. intros ->. by apply Hd, (di_owner _ HA gk).
Qed.

(** The nodes older than [n] that are one version behind are those [n] needs,
    once [n] needs anybody. *)
Lemma need_all n g k gk : d_gr A !! n = Some g → g_need g ≠ ∅ → d_gr A !! k = Some gk →
  g_v gk + 1 = g_v g → k ∈ g_need g.
Proof.
  intros Hn Hne Hk Hv. destruct (di_dir _ HA n g Hn) as [Hle _].
  destruct (di_older _ HA k gk Hk) as (n' & g' & Hn' & Hv' & Hin); [lia|].
  assert (n' = n) as ->.
  { apply (di_one _ HA n' g' n g Hn' Hn); [lia| |done]. sset. }
  by assert (g' = g) as -> by congruence.
Qed.

(** Two nodes that need the same one are the same. *)
Lemma need_unique n g n' g' k : d_gr A !! n = Some g → d_gr A !! n' = Some g' →
  k ∈ g_need g → k ∈ g_need g' → n = n'.
Proof.
  intros Hn Hn' Hk Hk'. destruct (di_need _ HA n g k Hn Hk) as (gk & Hgk & Hv).
  destruct (di_need _ HA n' g' k Hn' Hk') as (gk' & Hgk' & Hv').
  assert (gk' = gk) as -> by congruence.
  apply (di_one _ HA n g n' g' Hn Hn'); [lia|sset|sset].
Qed.

Ltac dopen := cbn [d_gr d_v d_m d_h d_ssd d_last].

(** The versions of old grants are at most the current one. *)
Ltac bound_versions :=
  repeat match goal with
  | H : d_gr A !! _ = Some _ |- _ =>
      lazymatch goal with
      | _ : marked H |- _ => fail
      | _ => pose proof (below_next _ _ H); assert (marked H) by done
      end
  end;
  repeat match goal with H : marked _ |- _ => clear H end.
(** A fact about old grants only. *)
Ltac old_fact :=
  first [ by eapply (di_single _ HA) | by eapply (di_one _ HA) | by eapply (di_complete _ HA)
        | by eapply (di_page _ HA) | by eapply (di_last _ HA) | by eapply (di_wait _ HA) | by eapply (di_mode _ HA)
        | by eapply (di_owner _ HA)].

Lemma holder_insert (m : gmap Z grant) n k g : k ∈ ({[n]} : gset Z) →
  ∃ g', <[n := g]> m !! k = Some g' ∧ g_v g' = g_v g.
Proof. intros ->%elem_of_singleton. exists g. by rewrite lookup_insert_eq. Qed.

Lemma keep_insert (m : gmap Z grant) n k g g' : m !! n = None → m !! k = Some g → <[n := g']> m !! k = Some g.
Proof. intros ??. rewrite lookup_insert_ne; congruence. Qed.

Lemma dinv_load m : d_h A = ∅ → m ≠ NOBODY →
  dinv (mkD {[o := mkGrant (d_v A) m ∅ (Some (d_ssd A))]} (d_v A) m {[o]} (d_ssd A) (d_last A)).
Proof.
  intros Hh Hm. destruct (di_empty _ HA Hh) as [_ Hl].
  constructor; dopen; intros; gr_cases; try done; try sset.
  - assert (k = o) as -> by sset. eexists. rewrite lookup_singleton_eq. by split.
  - lia.
  - congruence.
Qed.

(** The grant of [n] replaces the holders' by a newer one. *)
Lemma dinv_grant_x n :
  d_h A ≠ ∅ →
  (∀ g, d_gr A !! n = Some g → n ∈ d_h A ∧ g_m g = SHARED ∧ complete g) →
  (∀ g, d_gr A !! o = Some g → complete g) →
  dinv (mkD (<[n := mkGrant (d_v A + 1) EXCLUSIVE (d_h A ∖ {[n]} ∖ {[o]}) (grant_page A n)]>
               (delete o (d_gr A)))
            (d_v A + 1) EXCLUSIVE {[n]} (d_ssd A) (d_last A)).
Proof.
  intros Hh Hn Ho.
  assert (∀ k g, d_gr A !! k = Some g → k ≠ n → o ≠ k → g_v g = d_v A → k ∈ d_h A ∖ {[n]} ∖ {[o]}) as Hin.
  { intros k g Hk ?? Hv. destruct (di_dir _ HA k g Hk) as [_ Hd]. destruct (Hd Hv). sset. }
  (* a page that is there comes from a complete holder *)
  assert (∀ x, grant_page A n = Some x → x = d_last A ∧ ∃ j g, complete_at A j g ∧ g_v g = d_v A ∧ (j = n ∧ g_m g = SHARED ∨ j = o)) as Hp.
  { intros x. unfold grant_page. destruct (d_gr A !! n) as [g|] eqn:E; intros Hx.
    - destruct (Hn g eq_refl) as (Hin' & Hs & Hc). split; [by eapply (di_last _ HA)|].
      exists n, g. split; [done|]. destruct (di_holder _ HA n Hin') as (g2 & Hg2 & <-).
      split; [congruence|]. by left.
    - destruct (d_gr A !! o) as [g|] eqn:E2; [|done]. simpl in Hx. split; [by eapply (di_last _ HA)|].
      exists o, g. split; [split; [done|by apply Ho]|].
      destruct (di_holder _ HA o (di_owner _ HA g E2)) as (g2 & Hg2 & <-).
      split; [congruence|]. by right. }
  (* when nobody is left to give the page up, no older grant is left *)
  assert (d_h A ∖ {[n]} ∖ {[o]} = ∅ → ∀ k g, d_gr A !! k = Some g → k ≠ n → o ≠ k → False) as Hnone.
  { intros He k g Hk ??. destruct (set_choose_L _ Hh) as [j Hj].
    destruct (di_holder _ HA j Hj) as (gj & Hgj & Hvj).
    assert (complete gj) as Hc.
    { destruct (decide (j = n)) as [->|]; [by apply Hn|]. destruct (decide (j = o)) as [->|]; [by apply Ho|]. sset. }
    pose proof (di_complete _ HA j gj k g (conj Hgj Hc) Hk) as Hle.
    destruct (di_dir _ HA k g Hk) as [Hle2 _].
    pose proof (Hin k g Hk) as Hi. rewrite He in Hi. destruct (not_elem_of_empty (C:=gset Z) k). apply Hi; [done..|lia]. }
  (* targets of other nodes stay *)
  assert (∀ n' g' k, d_gr A !! n' = Some g' → k ∈ g_need g' → k ≠ n ∧ k ≠ o) as Hkeep.
  { intros n' g' k Hn' Hk. destruct (need_not_holder n' g' k Hn' Hk) as [Hd ?]. split; [|done].
    intros ->. destruct (di_need _ HA n' g' n Hn' Hk) as (gk & Hgk & _). by apply Hd, (Hn gk). }
  constructor; dopen; intros; gr_cases; bound_versions; try (done || lia); try old_fact.
  - split; [lia|]. intros _. split; [sset|done].
  - by apply holder_insert.
  - match goal with H : d_gr A !! k = Some g |- _ => rename H into Hk end.
    destruct (decide (g_v g = d_v A)) as [Hv|Hv].
    + exists n. eexists. rewrite lookup_insert_eq. split; [done|]. cbn [g_v g_need]. split; [lia|]. by eapply Hin.
    + destruct (di_older _ HA k g Hk) as (n' & g' & Hn' & Hv' & Hin'); [lia|].
      exists n', g'. split; [|done]. apply lookup_insert_Some. right. split.
      * intros ->. destruct (Hn g' Hn') as (_ & _ & He & _). rewrite He in Hin'. sset.
      * apply lookup_delete_Some. split; [|done]. intros ->.
        destruct (Ho g' Hn') as (He & _). rewrite He in Hin'. sset.
  - destruct (di_holder _ HA k) as (g & Hg & Hv); [sset|]. exists g. split; [|lia].
    rewrite lookup_insert_ne, lookup_delete_ne by sset. done.
  - destruct (di_need _ HA n0 g k) as (gk & Hg & Hv); [done..|]. exists gk. split; [|done].
    destruct (Hkeep n0 g k) as [??]; [done..|]. by rewrite lookup_insert_ne, lookup_delete_ne by done.
  - exfalso. by eapply Hnone.
  - match goal with H : is_Some (grant_page A n0) |- _ => destruct H as [x Hx] end.
    destruct (Hp x Hx) as (_ & j & gj & Hj & Hv & Hcase).
    pose proof (di_complete _ HA j gj k gk Hj ltac:(done)).
    assert (k = j) as -> by (destruct Hj; eapply (di_single _ HA); [done..| |done]; lia). naive_solver.
  - by apply Hp.
  - sset.
  - match goal with H : _ ∖ _ = ∅ |- _ => rename H into He end.
    destruct (set_choose_L _ Hh) as [j Hj]. destruct (di_holder _ HA j Hj) as (gj & Hgj & _).
    unfold grant_page. destruct (d_gr A !! n0) as [g|] eqn:E; [by apply Hn|].
    destruct (decide (j = o)) as [->|]; [|assert (j ≠ n0) by congruence; sset]. rewrite Hgj. by apply Ho.
Qed.

Lemma dinv_grant_s n c :
  d_m A = EXCLUSIVE → d_h A = {[c]} → c ≠ o → d_gr A !! n = None →
  dinv (mkD (<[n := mkGrant (d_v A + 1) SHARED {[c]} None]> (d_gr A))
            (d_v A + 1) SHARED {[n]} (d_ssd A) (d_last A)).
Proof.
  intros Hm Hh Hc Hn.
  destruct (di_holder _ HA c) as (gc & Hgc & Hvc); [sset|].
  constructor; dopen; intros; gr_cases; bound_versions; try (done || lia); try old_fact.
  - split; [lia|]. intros _. split; [sset|done].
  - by apply holder_insert.
  - match goal with H : d_gr A !! k = Some g |- _ => rename H into Hk end.
    destruct (decide (g_v g = d_v A)) as [Hv|Hv].
    + exists n. eexists. rewrite lookup_insert_eq. split; [done|]. cbn [g_v g_need]. split; [lia|].
      destruct (di_dir _ HA k g Hk) as [_ Hd]. destruct (Hd Hv). sset.
    + destruct (di_older _ HA k g Hk) as (n' & g' & Hn' & Hv' & Hin'); [lia|].
      exists n', g'. split; [|done]. rewrite lookup_insert_ne; congruence.
  - match goal with H : k ∈ _ |- _ => apply elem_of_singleton in H as -> end.
    exists gc. split; [|lia]. rewrite lookup_insert_ne; congruence.
  - destruct (di_need _ HA n0 g k) as (gk & Hg & Hv); [done..|]. exists gk. split; [|done].
    rewrite lookup_insert_ne; congruence.
  - sset.
  - match goal with H : d_gr A !! o = Some _ |- _ => apply (di_owner _ HA) in H end. set_solver.
Qed.

Lemma dinv_downgrade n g :
  d_m A = EXCLUSIVE → d_h A = {[o]} → complete_at A o g → n ≠ o → d_gr A !! n = None →
  dinv (mkD (<[n := mkGrant (d_v A + 1) SHARED ∅ (g_page g)]>
               (<[o := mkGrant (d_v A + 1) SHARED ∅ (g_page g)]> (d_gr A)))
            (d_v A + 1) SHARED {[o; n]} (d_ssd A) (d_last A)).
Proof.
  intros Hm Hh Hc Hno Hn.
  destruct (di_holder _ HA o) as (g' & Hgo & Hvo); [sset|].
  assert (g' = g) as -> by (destruct Hc; congruence).
  assert (∀ k gk, d_gr A !! k = Some gk → o ≠ k → False) as Honly.
  { intros k gk Hk Hne. pose proof (di_complete _ HA o g k gk Hc Hk) as Hle.
    destruct (di_dir _ HA k gk Hk) as [Hle2 Hd]. destruct Hd as [Hin _]; [lia|]. sset. }
  constructor; dopen; intros; gr_cases; bound_versions; try (done || lia); try old_fact;
    try (exfalso; by eapply Honly); try sset.
  destruct (decide (k = n)) as [->|]; [eexists; rewrite lookup_insert_eq; by split|].
  assert (k = o) as -> by sset. eexists. by rewrite lookup_insert_ne, lookup_insert_eq by done.
Qed.

Lemma dinv_join n p :
  d_m A = SHARED → d_h A ≠ ∅ → d_gr A !! n = None →
  (p = None ∧ o ∉ d_h A ∨ ∃ j g, j ∈ d_h A ∧ complete_at A j g ∧ p = g_page g) → (n = o → p ≠ None) →
  dinv (mkD (<[n := mkGrant (d_v A) SHARED ∅ p]> (d_gr A))
            (d_v A) SHARED ({[n]} ∪ d_h A) (d_ssd A) (d_last A)).
Proof.
  intros Hm Hh Hn Hp Hno.
  assert (∀ k gk, d_gr A !! k = Some gk → is_Some p → d_v A <= g_v gk) as Hall.
  { intros k gk Hk [x Hx]. destruct Hp as [[-> _]|(j & g & Hj & Hc & ->)]; [done|].
    destruct (di_holder _ HA j Hj) as (g2 & Hg2 & <-).
    assert (g2 = g) as -> by (destruct Hc; congruence). by eapply (di_complete _ HA). }
  constructor; dopen; intros; gr_cases; bound_versions; try (done || lia); try old_fact; try sset.
  - destruct (di_dir _ HA k g) as [? Hd]; [done|]. split; [done|]. intros Hv. destruct (Hd Hv). split; [sset|congruence].
  - destruct (decide (k = n)) as [->|]; [eexists; rewrite lookup_insert_eq; by split|].
    destruct (di_holder _ HA k) as (g & ? & ?); [sset|]. exists g. split; [by apply keep_insert|done].
  - destruct (di_older _ HA k g) as (n' & g' & ? & ?); [done..|]. exists n', g'. split; [by apply keep_insert|done].
  - destruct (di_need _ HA n0 g k) as (gk & ? & ?); [done..|]. exists gk. split; [by apply keep_insert|done].
  - destruct (di_dir _ HA n0 g) as [_ Hd]; [done|]. destruct Hd; [done|congruence].
  - by eapply Hall.
  - by eapply Hall.
  - destruct Hp as [[? _]|(j & g & _ & [Hj _] & ?)]; [congruence|]. eapply (di_last _ HA); [done|congruence].
  - assert (o ∈ d_h A) by old_fact. sset.
Qed.

(** Only the page of a grant changes, and with it what was written last. *)
Lemma dinv_repage n g p last' : d_gr A !! n = Some g →
  (is_Some p → g_need g = ∅ → ∀ k gk, d_gr A !! k = Some gk → g_v g <= g_v gk) →
  (is_Some p → ∀ k gk, d_gr A !! k = Some gk → g_m gk = EXCLUSIVE → g_v g <= g_v gk) →
  (∀ x, p = Some x → x = last') →
  (∀ k gk x, k ≠ n → d_gr A !! k = Some gk → g_page gk = Some x → x = last') →
  (g_m g = EXCLUSIVE → g_need g = ∅ → is_Some p) →
  dinv (mkD (<[n := mkGrant (g_v g) (g_m g) (g_need g) p]> (d_gr A)) (d_v A) (d_m A) (d_h A) (d_ssd A) last').
Proof.
  intros Hn Hc Hx Hl Hol Hw.
  assert (∀ k gk, d_gr A !! k = Some gk → ∃ gk', <[n := mkGrant (g_v g) (g_m g) (g_need g) p]> (d_gr A) !! k = Some gk' ∧
            g_v gk' = g_v gk ∧ g_need gk' = g_need gk) as Hfw.
  { intros k gk Hk. destruct (decide (k = n)) as [->|].
    - eexists. rewrite lookup_insert_eq. split; [done|]. assert (g = gk) as -> by congruence. done.
    - exists gk. by rewrite lookup_insert_ne. }
  constructor; dopen; intros; gr_cases; try (done || lia); try old_fact; try (by eapply (di_dir _ HA)).
  - destruct (di_holder _ HA k) as (gk & Hk & Hv); [done|]. destruct (Hfw k gk Hk) as (gk' & ? & ? & ?).
    exists gk'. split; [done|congruence].
  - destruct (di_older _ HA k g) as (n' & g' & Hn' & ? & ?); [done..|].
    destruct (Hfw n' g' Hn') as (gk' & ? & ? & ?). exists n', gk'. split; [done|]. split; congruence.
  - destruct (di_older _ HA k g0) as (n' & g' & Hn' & ? & ?); [done..|].
    destruct (Hfw n' g' Hn') as (gk' & ? & ? & ?). exists n', gk'. split; [done|]. split; congruence.
  - destruct (di_need _ HA n0 g k) as (gk & Hk & ?); [done..|].
    destruct (Hfw k gk Hk) as (gk' & ? & ? & ?). exists gk'. split; [done|congruence].
  - destruct (di_need _ HA n0 g0 k) as (gk & Hk & ?); [done..|].
    destruct (Hfw k gk Hk) as (gk' & ? & ? & ?). exists gk'. split; [done|congruence].
  - by eapply Hc.
  - by eapply Hx.
  - by apply Hl.
  - by eapply Hol.
  - destruct (di_empty _ HA) as [He _]; [done|]. rewrite He in Hn. done.
  - by apply Hw.
Qed.

Lemma dinv_copy n j v g :
  d_gr A !! n = Some (mkGrant v SHARED ∅ None) → complete_at A j g → g_v g = v →
  dinv (mkD (<[n := mkGrant v SHARED ∅ (g_page g)]> (d_gr A))
            (d_v A) (d_m A) (d_h A) (d_ssd A) (d_last A)).
Proof.
  intros Hn Hj <-. apply (dinv_repage n _ (g_page g) (d_last A) Hn); cbn; intros; try done; try old_fact.
  destruct Hj. old_fact.
Qed.

(** Nobody but the writer has a page. *)
Lemma dinv_write n g x : complete_at A n g → g_m g = EXCLUSIVE →
  dinv (mkD (<[n := mkGrant (g_v g) (g_m g) (g_need g) (Some x)]> (d_gr A))
            (d_v A) (d_m A) (d_h A) (d_ssd A) x).
Proof.
  intros Hc Hm. pose proof Hc as [Hn _]. apply (dinv_repage n _ (Some x) x Hn); intros; try done; try congruence; try old_fact.
  - pose proof (di_complete _ HA n g k gk Hc ltac:(done)).
    pose proof (di_page _ HA k gk n g ltac:(done) ltac:(by eexists) Hn Hm).
    assert (n = k) by (eapply (di_single _ HA); [done..|lia|done]). congruence.
Qed.

Lemma dinv_move n k g gk (take : bool) :
  d_gr A !! n = Some g → d_gr A !! k = Some gk → k ∈ g_need g → g_need gk = ∅ →
  (if take then is_Some (g_page gk) else is_Some (g_page g)) →
  dinv (mkD (<[n := mkGrant (g_v g) (g_m g) (g_need g ∖ {[k]}) (if take then g_page gk else g_page g)]>
               (delete k (d_gr A)))
            (d_v A) (d_m A) (d_h A) (d_ssd A) (d_last A)).
Proof.
  intros Hn Hk Hin He Ht.
  destruct (di_need _ HA n g k Hn Hin) as (g2 & Hg2 & Hv). assert (g2 = gk) as -> by congruence.
  destruct (need_not_holder n g k Hn Hin) as [Hkh Hko].
  assert (n ≠ k) as Hnk by (intros ->; assert (g = gk) as -> by congruence; lia).
  (* once [k] was the last one needed, nothing older is left *)
  assert (g_need g ∖ {[k]} = ∅ → ∀ m gm, d_gr A !! m = Some gm → m ≠ k → g_v g <= g_v gm) as Hold.
  { intros Hlast m gm Hm Hmk.
    assert (∀ m' gm', d_gr A !! m' = Some gm' → g_v gm' = g_v gk → m' = k) as Hall.
    { intros m' gm' Hm' Hv'. destruct (decide (m' = k)) as [|Hne]; [done|].
      assert (m' ∈ g_need g) by (eapply need_all; [done|sset|done|lia]). sset. }
    assert (g_v gk <= g_v gm) as Hle.
    { eapply no_older; [destruct (di_dir _ HA k gk Hk); lia| |done].
      intros m' gm' Hm' Hv'. assert (m' = k) as -> by eauto. congruence. }
    destruct (decide (g_v gm = g_v gk)) as [Heq|]; [|lia]. destruct Hmk. eauto. }
  (* the other grants stay, and they need what they needed *)
  assert (∀ m gm, d_gr A !! m = Some gm → m ≠ k → ∃ gm',
            <[n := mkGrant (g_v g) (g_m g) (g_need g ∖ {[k]}) (if take then g_page gk else g_page g)]>
              (delete k (d_gr A)) !! m = Some gm' ∧ g_v gm' = g_v gm ∧
            (∀ j, j ∈ g_need gm → j ≠ k → j ∈ g_need gm')) as Hfw.
  { intros m gm Hm Hmk. destruct (decide (m = n)) as [->|].
    - eexists. rewrite lookup_insert_eq. split; [done|]. assert (g = gm) as -> by congruence. cbn. split; [done|sset].
    - exists gm. by rewrite lookup_insert_ne, lookup_delete_ne by done. }
  assert (∀ k0 g0, d_gr A !! k0 = Some g0 → k0 ≠ k → g_v g0 < d_v A → ∃ n0 g',
            <[n := mkGrant (g_v g) (g_m g) (g_need g ∖ {[k]}) (if take then g_page gk else g_page g)]>
              (delete k (d_gr A)) !! n0 = Some g' ∧ g_v g' = g_v g0 + 1 ∧ k0 ∈ g_need g') as Holder'.
  { intros k0 g0 Hk0 Hne Hlt. destruct (di_older _ HA k0 g0 Hk0 Hlt) as (n' & g' & Hn' & Hv' & Hin').
    destruct (Hfw n' g' Hn') as (gm & ? & ? & ?); [intros ->; assert (g' = gk) as -> by congruence; sset|].
    exists n', gm. split; [done|]. split; [congruence|eauto]. }
  assert (∀ n0 g0 j, d_gr A !! n0 = Some g0 → j ∈ g_need g0 → j ≠ k → ∃ gj,
            <[n := mkGrant (g_v g) (g_m g) (g_need g ∖ {[k]}) (if take then g_page gk else g_page g)]>
              (delete k (d_gr A)) !! j = Some gj ∧ g_v gj + 1 = g_v g0) as Hneed'.
  { intros n0 g0 j Hn0 Hj Hne. destruct (di_need _ HA n0 g0 j Hn0 Hj) as (gj & Hgj & ?).
    destruct (Hfw j gj Hgj Hne) as (gm & ? & ? & _). exists gm. split; [done|congruence]. }
  constructor; dopen; intros; gr_cases; try (done || lia); try old_fact; try (by eapply (di_dir _ HA));
    try (by eapply Holder').
  - destruct (di_holder _ HA k0) as (g0 & Hg0 & ?); [done|].
    destruct (Hfw k0 g0 Hg0) as (gm & ? & ? & _); [congruence|]. exists gm. split; [done|congruence].
  - apply (Hneed' n0 g); [done|sset|sset].
  - apply (Hneed' n0 g0); [done..|]. intros ->. assert (n = n0) by (by eapply need_unique). congruence.
  - eapply (di_one _ HA); try done; sset.
  - eapply (di_one _ HA); try done; sset.
  - by eapply Hold.
  - destruct take; [|old_fact].
    pose proof (di_complete _ HA k gk k0 gk0 (conj Hk (conj He Ht)) ltac:(done)).
    destruct (decide (g_v gk0 = g_v gk)); [|lia]. assert (k0 = k) by old_fact. congruence.
  - destruct take; [by eapply (di_last _ HA k)|by eapply (di_last _ HA n0)].
  - destruct (di_empty _ HA) as [He' _]; [done|]. rewrite He' in Hn. done.
  - by destruct take.
Qed.

(** A complete holder has nobody behind it. *)
Lemma holder_complete n g : complete_at A n g → n ∈ d_h A → g_v g = d_v A ∧ (∀ k gk, d_gr A !! k = Some gk → g_v gk = d_v A ∧ k ∈ d_h A).
Proof.
  intros Hc Hin. pose proof Hc as [Hn _]. destruct (di_holder _ HA n Hin) as (g' & Hg' & Hv). assert (g' = g) as -> by congruence.
  split; [done|]. intros k gk Hk. pose proof (di_complete _ HA n g k gk Hc Hk). destruct (di_dir _ HA k gk Hk) as [Hle Hd].
  assert (g_v gk = d_v A) as Hvk by lia. split; [done|]. by apply Hd.
Qed.

(** Then nobody waits for anybody. *)
Lemma holder_needs n g k gk : complete_at A n g → n ∈ d_h A → d_gr A !! k = Some gk → g_need gk = ∅.
Proof.
  intros Hc Hin Hk. destruct (holder_complete n g Hc Hin) as [_ Hall]. destruct (decide (g_need gk = ∅)) as [|[j Hj]%set_choose_L]; [done|].
  destruct (di_need _ HA k gk j Hk Hj) as (gj & Hgj & Hv). destruct (Hall k gk Hk). destruct (Hall j gj Hgj). lia.
Qed.

Lemma dinv_drop n g : complete_at A n g → n ∈ d_h A → d_h A ∖ {[n]} ≠ ∅ →
  dinv (mkD (delete n (d_gr A)) (d_v A) (d_m A) (d_h A ∖ {[n]}) (d_ssd A) (d_last A)).
Proof.
  intros Hc Hin Hne. pose proof (holder_complete n g Hc Hin) as [Hv Hall]. pose proof (λ k gk, holder_needs n g k gk Hc Hin) as Hneeds.
  constructor; dopen; intros; gr_cases; try (done || lia); try old_fact.
  - destruct (di_dir _ HA k g0) as [? Hd]; [done|]. split; [done|]. intros E. destruct (Hd E). split; [sset|done].
  - destruct (di_holder _ HA k) as (gk & Hk & ?); [sset|]. exists gk. split; [|done]. rewrite lookup_delete_ne; [done|sset].
  - destruct (Hall k g0); [done|lia].
  - rewrite (Hneeds n0 g0) in * by done. sset.
  - assert (o ∈ d_h A) by old_fact. sset.
Qed.

Lemma dinv_take n g : complete_at A n g → n ∈ d_h A → n ≠ o →
  dinv (mkD (<[o := mkGrant (d_v A) (d_m A) ∅ (g_page g)]> (delete n (d_gr A)))
            (d_v A) (d_m A) ({[o]} ∪ d_h A ∖ {[n]}) (d_ssd A) (d_last A)).
Proof.
  intros Hc Hin Hno. pose proof (holder_complete n g Hc Hin) as [Hv Hall]. pose proof (λ k gk, holder_needs n g k gk Hc Hin) as Hneeds.
  pose proof Hc as [Hn [_ [x Hx]]]. destruct (di_dir _ HA n g Hn) as [_ Hd]. destruct (Hd Hv) as [_ Hm].
  assert (∀ k gk, d_gr A !! k = Some gk → g_m gk = EXCLUSIVE → k = n) as Hex.
  { intros k gk Hk Hmk. eapply (di_single _ HA); [done|exact Hn|destruct (Hall k gk Hk); congruence|done]. }
  assert (∀ k gk, d_gr A !! k = Some gk → d_m A = EXCLUSIVE → k = n) as Hex'.
  { intros k gk Hk Hmk. symmetry. eapply (di_single _ HA); [exact Hn|done|destruct (Hall k gk Hk); congruence|congruence]. }
  constructor; dopen; intros; gr_cases; try (done || lia); try old_fact.
  - split; [lia|]. intros _. split; [sset|done].
  - destruct (di_dir _ HA k g0) as [? Hdk]; [done|]. split; [done|]. intros E. destruct (Hdk E). split; [sset|done].
  - destruct (decide (k = o)) as [->|Hko]; [eexists; by rewrite lookup_insert_eq|].
    destruct (di_holder _ HA k) as (gk & Hk & ?); [sset|]. exists gk. split; [|done]. rewrite lookup_insert_ne, lookup_delete_ne by sset. done.
  - destruct (Hall k g0); [done|lia].
  - rewrite (Hneeds n0 g0) in * by done. sset.
  - exfalso. assert (n0 = n) by (by eapply Hex). congruence.
  - exfalso. assert (k = n) by (by eapply Hex'). congruence.
  - destruct (Hall n0 g0); [done|lia].
  - destruct (Hall k gk); [done|lia].
  - destruct (Hall n0 g0); [done|lia].
  - destruct (Hall k gk); [done|lia].
  - sset.
  - sset.
  - rewrite <- Hm. by eapply (di_mode _ HA n).
Qed.

End invariant.

(** Every step of the specification keeps the invariant. *)
Lemma dinv_step A A' : dinv A → dstep A A' → dinv A'.
Proof.
  intros HA Hs. destruct Hs.
  - by apply dinv_load.
  - by apply dinv_grant_x.
  - by apply dinv_grant_s.
  - by apply dinv_downgrade.
  - by apply dinv_join.
  - by eapply dinv_copy.
  - by eapply dinv_move.
  - by apply dinv_write.
  - by eapply dinv_drop.
  - match goal with H : complete_at _ _ _ |- _ => pose proof H as [Hg _] end. eapply dinv_drop; [done|done|by eapply (di_owner _ HA)|done].
  - by apply dinv_take.
  - constructor; cbn; intros; try done; sset.
  - match goal with H : complete_at _ _ _ |- _ => pose proof H as [Hg _] end.
    destruct HA. constructor; cbn; try done. intros Hh. split; [|done]. by apply di_empty0.
Qed.

(** ** The page is somewhere

    Among the holders besides the owner there is one that has the page or gets
    it from the nodes before it: nodes that wait for a copy do not wait for
    each other. *)
Definition sourced A : Prop := d_h A ∖ {[o]} ≠ ∅ →
  ∃ j g, j ∈ d_h A ∧ j ≠ o ∧ d_gr A !! j = Some g ∧ (g_need g ≠ ∅ ∨ is_Some (g_page g)).

Lemma sourced_step A A' : dinv A → sourced A → dstep A A' → sourced A'.
Proof.
  intros HA Hs Hst. pose proof (dinv_step A A' HA Hst) as HA'. unfold sourced.
  assert (∀ n g, d_gr A' !! n = Some g → g_m g = EXCLUSIVE → g_need g ≠ ∅ ∨ is_Some (g_page g)) as Hx.
  { intros n g Hg Hm. destruct (decide (g_need g = ∅)); [right; by eapply (di_wait _ HA')|by left]. }
  destruct Hst as [A m Hh ?|A n Hh Hn Ho|A n c ? Hh Hc Hn|A n g ? Hh Hc Hn ?|A n p Hm Hh Hn Hp Hno|A n j v g Hn Hc Hv
    |A n k g gk take Hn Hk Hin He Ht|A n g x Hc Hm|A n g Hc Hin Hno Hne Hall|A g Hc Hne|A n g Hc Hin Hno Hall|A n g Hc Hh Hl|A g Hc];
    cbn [d_gr d_v d_m d_h d_ssd d_last] in *; intros Hne'; clear HA'; pose proof (set_choose_L _ Hne') as [j0 Hj0].
  - exfalso. sset.
  - exists n. eexists. rewrite lookup_insert_eq. split; [sset|]. split; [sset|]. split; [done|]. eapply Hx; [apply lookup_insert_eq|done].
  - exists n. eexists. rewrite lookup_insert_eq. split; [sset|]. split; [sset|]. split; [done|]. left. cbn. sset.
  - exists n. eexists. rewrite lookup_insert_eq. split; [sset|]. split; [done|]. split; [done|]. right. apply Hc.
  - destruct (decide (d_h A ∖ {[o]} = ∅)) as [E|E].
    + exists n. eexists. rewrite lookup_insert_eq. split; [sset|]. split; [sset|]. split; [done|]. right. cbn.
      destruct Hp as [[-> Hoh]|(j & g & _ & [_ [_ Hc]] & ->)]; [|done]. apply set_choose_L in Hh as [i Hi]. exfalso. sset.
    + destruct (Hs E) as (j & g & Hj & Hjo & Hg & Hcase). exists j, g. split; [sset|]. split; [done|]. split; [|done].
      rewrite lookup_insert_ne; congruence.
  - destruct (Hs Hne') as (j' & g' & Hj & Hjo & Hg & Hcase). destruct (decide (j' = n)) as [->|].
    + exists n. eexists. rewrite lookup_insert_eq. split; [done|]. split; [done|]. split; [done|]. right. apply Hc.
    + exists j', g'. by rewrite lookup_insert_ne.
  - destruct (Hs Hne') as (j' & g' & Hj & Hjo & Hg & Hcase). destruct (need_not_holder A HA n g k Hn Hin) as [Hkh _].
    destruct (decide (j' = n)) as [->|].
    + assert (g' = g) as -> by congruence. exists n. eexists. rewrite lookup_insert_eq. split; [done|]. split; [done|]. split; [done|].
      right. cbn. by destruct take.
    + exists j', g'. rewrite lookup_insert_ne, lookup_delete_ne by congruence. done.
  - destruct (Hs Hne') as (j' & g' & Hj & Hjo & Hg & Hcase). destruct (decide (j' = n)) as [->|].
    + exists n. eexists. rewrite lookup_insert_eq. split; [done|]. split; [done|]. split; [done|]. right. by eexists.
    + exists j', g'. by rewrite lookup_insert_ne.
  - destruct (di_holder _ HA j0) as (gj & Hg & _); [sset|].
    exists j0, gj. rewrite lookup_delete_ne by sset. split; [sset|]. split; [sset|]. split; [done|]. right. apply (Hall j0); [sset|done].
  - destruct (Hs Hne) as (j' & g' & Hj & Hjo & Hg & Hcase). exists j', g'. rewrite lookup_delete_ne by done. split; [sset|done].
  - destruct (di_holder _ HA j0) as (gj & Hg & _); [sset|].
    exists j0, gj. rewrite lookup_insert_ne, lookup_delete_ne by sset. split; [sset|]. split; [sset|]. split; [done|]. right. apply (Hall j0); [sset|done].
  - exfalso. sset.
  - by apply Hs.
Qed.

Lemma sourced_stored x : sourced (mkD ∅ 0 NOBODY ∅ x x).
Proof. intros [j Hj]%set_choose_L. cbn in Hj. exfalso. sset. Qed.
Lemma sourced_created n ssd x : sourced (mkD {[n := mkGrant 0 EXCLUSIVE ∅ (Some x)]} 0 EXCLUSIVE {[n]} ssd x).
Proof. intros [j Hj]%set_choose_L. cbn in *. exists n. eexists. rewrite lookup_singleton_eq. split; [sset|]. split; [sset|]. split; [done|]. right. by eexists. Qed.

(** A page nobody holds is on the SSD; otherwise some node has it. *)
Definition kept A : Prop := d_h A = ∅ ∨ ∃ n g, d_gr A !! n = Some g ∧ is_Some (g_page g).

Lemma kept_step A A' : dinv A → sourced A → kept A → dstep A A' → kept A'.
Proof.
  intros HA Hs Hk Hst. unfold kept.
  assert (d_h A ≠ ∅ → ∃ n g, d_gr A !! n = Some g ∧ is_Some (g_page g)) as Hsome by (intros ?; by destruct Hk).
  assert (∀ n (g : grant) (gr : gmap Z grant), is_Some (g_page g) → ∃ n' g', <[n := g]> gr !! n' = Some g' ∧ is_Some (g_page g')) as Hins
    by (intros n g gr ?; exists n, g; by rewrite lookup_insert_eq).
  destruct Hst as [A m Hh ?|A n Hh Hn Ho|A n c ? Hh Hc Hn|A n g ? Hh Hc Hn ?|A n p Hm Hh Hn Hp Hno|A n j v g Hn Hc Hv
    |A n k g gk take Hn Hk' Hin He Ht|A n g x Hc Hm|A n g Hc Hin Hno Hne Hall|A g Hc Hne|A n g Hc Hin Hno Hall|A n g Hc Hh Hl|A g Hc];
    cbn [d_gr d_v d_m d_h d_ssd d_last] in *.
  - right. apply Hins. by eexists.
  - right. destruct (grant_page A n) as [x|] eqn:Egp; [apply Hins; by eexists|]. destruct (Hsome Hh) as (j & gj & Hgj & Hpj).
    unfold grant_page in Egp. destruct (d_gr A !! n) as [g|] eqn:Hgn.
    { destruct (Hn g eq_refl) as (_ & _ & _ & [? ?]). congruence. }
    exists j, gj. rewrite lookup_insert_ne by congruence. rewrite lookup_delete_ne; [done|]. intros ->. rewrite Hgj in Egp. cbn in Egp.
    rewrite Egp in Hpj. by destruct Hpj.
  - right. destruct Hsome as (j & gj & Hgj & Hpj); [sset|]. exists j, gj. by rewrite lookup_insert_ne by congruence.
  - right. apply Hins. apply Hc.
  - right. destruct (Hsome Hh) as (j & gj & Hgj & Hpj). exists j, gj. by rewrite lookup_insert_ne by congruence.
  - right. apply Hins. apply Hc.
  - right. apply Hins. by destruct take.
  - right. apply Hins. by eexists.
  - right. destruct (set_choose_L _ Hne) as [j Hj]. destruct (di_holder _ HA j) as (gj & Hgj & _); [sset|].
    exists j, gj. rewrite lookup_delete_ne by sset. split; [done|]. apply (Hall j); [sset|done].
  - right. destruct (Hs Hne) as (j & gj & Hj & Hjo & Hgj & [Hneed|Hp]); [|exists j, gj; by rewrite lookup_delete_ne by done].
    destruct Hneed. apply (holder_needs A HA o g j gj Hc); [|done]. apply (di_owner _ HA g). apply Hc.
  - right. apply Hins. apply Hc.
  - by left.
  - done.
Qed.

(** ** Initial states: the page is on the SSD of its owner, or was just created
    and is in exclusive possession of the owner or of a remote node. *)

Definition d_stored (x : V) : dstate := mkD ∅ 0 NOBODY ∅ x x.
Definition d_created (n : Z) (ssd x : V) : dstate :=
  mkD {[n := mkGrant 0 EXCLUSIVE ∅ (Some x)]} 0 EXCLUSIVE {[n]} ssd x.

Lemma dinv_stored x : dinv (d_stored x).
Proof. constructor; cbn; intros; try done; sset. Qed.

Lemma dinv_created n ssd x : dinv (d_created n ssd x).
Proof.
  constructor; cbn; intros; gr_cases; try (done || lia || congruence); try sset.
  - assert (k = n) as -> by sset. eexists. by rewrite lookup_singleton_eq.
  - cbn in *. by gr_cases.
Qed.

(** ** Consequences *)

(** A node that may read, and one that may write. *)
Definition readable A n : Prop := ∃ g, complete_at A n g.
Definition writable A n : Prop := ∃ g, complete_at A n g ∧ g_m g = EXCLUSIVE.

Lemma dinv_exclusive A n k : dinv A → writable A n → readable A k → k = n.
Proof.
  intros HA (g & Hc & Hm) (gk & Hck). pose proof Hc as [Hn _]. pose proof Hck as [Hk _].
  pose proof (di_complete _ HA n g k gk Hc Hk). pose proof (di_complete _ HA k gk n g Hck Hn).
  symmetry. eapply (di_single _ HA); [done..|lia|done].
Qed.

End directory.
Arguments grant : clear implicits.
Arguments dstate : clear implicits.
