(* ===== verification/Coherence.v ===== *)
(** * The coherence protocol as a system of nodes

    One page, cached by the nodes of the cluster.  Each node has at most one
    frame for the page (PageTable.v); the latch of the frame is free, shared by
    readers, or held by one worker.  A worker that holds it and is not using the
    page yet is in the middle of [Buffermanager::fix]: it has sent a message
    and waits for the answer.  An answer is written by RDMA into the memory of
    the requester, the page before the message that announces it.

    [exec] performs one atomic action: a worker enters or resumes [fix], a
    message handler handles one message, a page is written or released, a page
    provider evicts the page or answers another provider.  The frame is changed
    by the functions of Protocol.v and Eviction.v only.  Messages that cannot be
    handled yet stay in their mailbox: the action is not enabled and [exec]
    answers [WouldBlock].

    [y_cr] are the nodes with a copy request in flight, in the tables of the
    owner's message handlers.  A handler withdraws a registration when it
    handles a message of some worker, not necessarily of the one that is
    registered.

    Two actions do what the code does but the protocol should not do
    ([deviates]): a provider drops a page because of an entry left from an
    earlier response, and a handler withdraws the copy request of a worker that
    is still copying.  A [step] is an action that does not deviate; [exec] and
    [run] perform the others too, and CoherenceFaults.v shows what they lead
    to. *)

From S2P Require Import Prelude Defs Bitmap RingBuffer BufferFrame Eviction Messages Protocol.
Local Open Scope Z_scope.

Section system.
Context `{!Build} {V : Type} (pid : Z).

(** A page provider that asked the owner to let its node drop the page: the
    request is under way, the owner reads the page, or it has answered. *)
Inductive evict_pc := EvAsked | EvReading | EvAnswered (ack : bool).

(** Where a worker that holds the latch exclusively is. *)
Inductive wpc :=
(** it has a guard and uses the page *)
| Using
(** the page is read from the SSD, for a worker or for a message handler *)
| ReadSSD (type : option LATCH_STATE)
(** it asked the owner for possession *)
| WaitPR (type : LATCH_STATE) (r : option PossessionResponse)
(** the page is moved from node [id] *)
| WMove (type : LATCH_STATE) (id : Z) (answered : bool)
(** the page is moved from node [id], the nodes of [rest] are invalidated next *)
| WMoveRnd (id rest : Z) (answered : bool)
(** the nodes of [out] have not confirmed their invalidation yet *)
| WInval (out : gset Z)
(** the page is copied from node [id], one of the nodes of [shared] *)
| WCopy (type : LATCH_STATE) (shared id : Z) (r : option RESULT)
(** it asked the owner for an upgrade of its shared possession *)
| WUpdate (pVersionOld : Z) (r : option PossessionUpdateResponse)
(** the page provider holds the latch while it asks the owner *)
| WEvict (e : evict_pc)
(** the page provider of the owner holds the latch while it reads the page of
    node [n] *)
| WTake (n : Z).

(** [Writing k]: the page is written to the SSD, under a shared latch, while
    [k] workers read it. *)
Inductive hold := Readers (k : nat) | Writing (k : nat) | Holder (pc : wpc).

Record sys := mkSys {
  y_frames : gmap Z BufferFrame;
  y_data : gmap Z V;
  y_latch : gmap Z hold;
  y_ssd : V;
  y_last : V;
  y_cr : gset Z;
}.
Implicit Types (s : sys) (n k : Z) (f : BufferFrame) (type : LATCH_STATE).

Definition owner : Z := getOwner pid.

Definition put_f n f s : sys := mkSys (<[n := f]> (y_frames s)) (y_data s) (y_latch s) (y_ssd s) (y_last s) (y_cr s).
Definition put_d n (x : V) s : sys := mkSys (y_frames s) (<[n := x]> (y_data s)) (y_latch s) (y_ssd s) (y_last s) (y_cr s).
Definition drop_d n s : sys := mkSys (y_frames s) (delete n (y_data s)) (y_latch s) (y_ssd s) (y_last s) (y_cr s).
Definition put_l n (h : hold) s : sys := mkSys (y_frames s) (y_data s) (<[n := h]> (y_latch s)) (y_ssd s) (y_last s) (y_cr s).
Definition drop_l n s : sys := mkSys (y_frames s) (y_data s) (delete n (y_latch s)) (y_ssd s) (y_last s) (y_cr s).
Definition remove n s : sys :=
  mkSys (delete n (y_frames s)) (delete n (y_data s)) (y_latch s) (y_ssd s) (y_last s) (y_cr s).

(** [Buffermanager::removeFrame] with its assertion. *)
Definition remove_frame n s : result sys :=
  _ ← assert_ (negb (upper_node n && negb (pid =? 0))); Ok (remove n s).

Definition put_cr n s : sys := mkSys (y_frames s) (y_data s) (y_latch s) (y_ssd s) (y_last s) ({[n]} ∪ y_cr s).
Definition drop_cr n s : sys := mkSys (y_frames s) (y_data s) (y_latch s) (y_ssd s) (y_last s) (y_cr s ∖ {[n]}).

Definition frame_of s n : result BufferFrame := of_option UndefinedBehaviour (y_frames s !! n).
Definition data_of s n : result V := of_option UndefinedBehaviour (y_data s !! n).
Definition when (b : bool) : result unit := if b then Ok tt else Throw WouldBlock.
Definition wait {A} : result A := Throw WouldBlock.

(** An RDMA write of the page of node [k] to the page of node [n]. *)
Definition send_page k n s : result sys := x ← data_of s k; Ok (put_d n x s).

(** [applyToOneRnd] and [applyForAll] on a set of nodes. *)
Definition pick (raw shared : Z) : result Z :=
  id ← sb64_applyToOneRnd raw (λ id _, Some id) shared None; of_option UndefinedBehaviour id.
Definition sharers (shared : Z) : result (gset Z) := sb64_applyForAll (λ id X, {[id]} ∪ X) shared ∅.

(** ** The worker: [fix] *)

(** An exclusive guard on a frame that is latched: it marks the page dirty. *)
Definition exclusive_guard n f s : sys := put_l n (Holder Using) (put_f n (set_dirty true f) s).

(** The end of [fix]: the worker keeps its latch, or releases it to take it in
    the weaker mode. *)
Definition finish n type (t : todo) s : result sys :=
  f ← frame_of s n;
  f ← (if n =? owner then local_finish type n (local_resolved t f) else take_possession type n f);
  Ok (if decide (type = LS_EXCLUSIVE) then exclusive_guard n f s else drop_l n (put_f n f s)).

Definition resolve n type (raw : Z) (t : todo) s : result sys :=
  match t with
  | TDone => finish n type TDone s
  | TMove id => Ok (put_l n (Holder (WMove type id false)) s)
  | TMoveRnd shared =>
      id ← pick raw shared; Ok (put_l n (Holder (WMoveRnd id (sb64_reset shared id) false)) s)
  | TInvalidate shared => X ← sharers shared; Ok (put_l n (Holder (WInval X)) s)
  | TCopy shared => id ← pick raw shared; Ok (put_l n (Holder (WCopy type shared id None)) s)
  end.

(** [fix] on a page without a frame. *)
Definition fix_miss n type (page : nat) s : result sys :=
  f ← install_frame n pid page 0 bf_new;
  if n =? owner then Ok (drop_d n (put_l n (Holder (ReadSSD (Some type))) (put_f n f s)))
  else
    '(_, f) ← remote_request type pid f;
    Ok (drop_d n (put_l n (Holder (WaitPR type None)) (put_f n f s))).

Definition access_ok type n f : bool :=
  if decide (type = LS_EXCLUSIVE) then bool_decide (bf_possession f = EXCLUSIVE) && isPossessor n f
  else isPossessor n f.

(** [fix] on a frame: the access functor, and the case its state selects. *)
Definition fix_frame n type (page : nat) (raw : Z) f s : result sys :=
  if bf_mhWaiting f then wait
  else
    match possession_state (access_ok type n f) n f with
    | INITIALIZED =>
        match type, y_latch s !! n with
        | LS_EXCLUSIVE, None => Ok (exclusive_guard n f s)
        | LS_EXCLUSIVE, Some _ => wait
        | LS_SHARED, None => Ok (put_l n (Readers 1) s)
        | LS_SHARED, Some (Readers k) => Ok (put_l n (Readers (S k)) s)
        | LS_SHARED, Some (Writing k) => Ok (put_l n (Writing (S k)) s)
        | _, Some (Holder _) => wait
        | _, _ => Ok s
        end
    | LOCAL_POSSESSION_CHANGE =>
        _ ← when (bool_decide (y_latch s !! n = None));
        let s := if decide (bf_state f = EVICTED) then drop_d n s else s in
        '(t, f) ← local_start type n pid page f;
        resolve n type raw t (put_f n f s)
    | _ =>
        _ ← when (bool_decide (y_latch s !! n = None));
        '(req, f) ← update_start pid f;
        Ok (put_l n (Holder (WUpdate (pur_pVersion req) None)) (put_f n f s))
    end.

Definition do_fix n type (page : nat) (raw : Z) s : result sys :=
  match y_frames s !! n with
  | None => fix_miss n type page s
  | Some f => fix_frame n type page raw f s
  end.

(** The page has arrived from the SSD. *)
Definition read_done s : result sys :=
  match y_latch s !! owner with
  | Some (Holder (ReadSSD t)) =>
      let s := put_d owner (y_ssd s) s in
      match t with
      | None => Ok (drop_l owner s)
      | Some type =>
          f ← frame_of s owner;
          f ← take_possession type owner f;
          Ok (if decide (type = LS_EXCLUSIVE) then exclusive_guard owner f s else drop_l owner (put_f owner f s))
      end
  | _ => wait
  end.

Definition resume_pr n (raw : Z) s : result sys :=
  match y_latch s !! n with
  | Some (Holder (WaitPR type (Some msg))) =>
      f ← frame_of s n;
      '(t, f) ← remote_response msg f;
      resolve n type raw t (put_f n f s)
  | _ => wait
  end.

Definition resume_move n s : result sys :=
  match y_latch s !! n with
  | Some (Holder (WMove type id true)) => finish n type (TMove id) s
  | Some (Holder (WMoveRnd _ rest true)) => X ← sharers rest; Ok (put_l n (Holder (WInval X)) s)
  | _ => wait
  end.

Definition resume_inval n s : result sys :=
  match y_latch s !! n with
  | Some (Holder (WInval out)) =>
      _ ← when (bool_decide (out = ∅));
      finish n LS_EXCLUSIVE (TInvalidate 0) s
  | _ => wait
  end.

Definition resume_copy n (raw : Z) s : result sys :=
  match y_latch s !! n with
  | Some (Holder (WCopy type shared id (Some r))) =>
      if decide (r = WithPage) then finish n type (TCopy shared) s
      else
        f ← frame_of s n;
        if n =? owner then
          '(_, f) ← local_copy_failed f;
          Ok (drop_d n (drop_l n (put_f n f s)))
        else if bf_mhWaiting f then Ok (drop_l n s)
        else id ← pick raw shared; Ok (put_l n (Holder (WCopy type shared id None)) s)
  | _ => wait
  end.

Definition resume_update n (raw : Z) s : result sys :=
  match y_latch s !! n with
  | Some (Holder (WUpdate old (Some msg))) =>
      f ← frame_of s n;
      '(t, f) ← update_response n old msg f;
      let s := put_f n f s in
      match t with None => Ok (drop_l n s) | Some t => resolve n LS_EXCLUSIVE raw t s end
  | _ => wait
  end.

(** ** The message handlers *)

(** The owner handles the possession request of node [n]. *)
Definition handle_pr n (page : nat) s : result sys :=
  match y_latch s !! n with
  | Some (Holder (WaitPR type None)) =>
      match y_frames s !! owner with
      | None =>
          f ← install_frame owner pid page 0 bf_new;
          _ ← assert_ false;
          f ← ssd_frame owner 0 f;
          Ok (drop_d owner (put_l owner (Holder (ReadSSD None)) (put_f owner f s)))
      | Some f =>
          _ ← when (bool_decide (y_latch s !! owner = None));
          _ ← when (negb (bool_decide (bf_state f = INVALIDATION_EXPECTED)));
          r ← possession_reply (desired type) (protocol_state (desired type) n f) owner n f;
          s ← (if rp_page r then send_page owner n s else Ok s);
          let s := if decide (rp_park r = None) then s else drop_d owner s in
          let s := if rp_register r then put_cr n s else s in
          Ok (put_l n (Holder (WaitPR type (Some (rp_msg r)))) (put_f owner (rp_frame r) s))
      end
  | _ => wait
  end.

(** Node [k] handles a move request; [need] says whether the page is sent. *)
Definition surrender n k (need : bool) (pc : wpc) s : result sys :=
  match y_frames s !! k with
  | None => Throw EnsureFailed
  | Some f =>
      if bool_decide (y_latch s !! k = None) then
        _ ← move_reply pid need f;
        s ← (if need then send_page k n s else Ok s);
        s ← remove_frame k s;
        Ok (put_l n (Holder pc) s)
      else if need then wait
      else Ok (put_f k (set_mhWaiting true f) s)
  end.

Definition handle_pmr n k s : result sys :=
  match y_latch s !! n with
  | Some (Holder (WMove type id false)) =>
      _ ← when (id =? k); surrender n k true (WMove type id true) s
  | Some (Holder (WMoveRnd id rest false)) =>
      _ ← when (id =? k); surrender n k true (WMoveRnd id rest true) s
  | Some (Holder (WInval out)) =>
      _ ← when (bool_decide (k ∈ out)); surrender n k false (WInval (out ∖ {[k]})) s
  | _ => wait
  end.

(** The copy request of node [n]; [giveup] tells that the retries of the client
    are used up. *)
Definition handle_pcr n (giveup : bool) s : result sys :=
  match y_latch s !! n with
  | Some (Holder (WCopy type shared id None)) =>
      let answer r s := put_l n (Holder (WCopy type shared id (Some r))) s in
      fn ← frame_of s n;
      match y_frames s !! id with
      | None => Ok (answer CopyFailedWithInvalidation s)
      | Some f =>
          match y_latch s !! id with
          | Some (Holder _) =>
              if (bf_pVersion f =? bf_pVersion fn) && negb giveup then wait
              else Ok (answer CopyFailedWithRestart s)
          | _ =>
              msg ← copy_reply pid (bf_pVersion fn) f;
              s ← (if decide (pcrr_result msg = WithPage) then send_page id n s else Ok s);
              Ok (answer (pcrr_result msg) s)
          end
      end
  | _ => wait
  end.

(** The owner handles the upgrade request of node [n]. *)
Definition handle_pur n s : result sys :=
  match y_latch s !! n with
  | Some (Holder (WUpdate old None)) =>
      f ← frame_of s owner;
      let latched := negb (bool_decide (y_latch s !! owner = None)) in
      if latched && (bf_pVersion f =? old) then Ok (put_f owner (set_mhWaiting true f) s)
      else if old <? bf_pVersion f then
        Ok (put_l n (Holder (WUpdate old (Some (PossessionUpdateResponse_new UpdateFailed))))
              (put_f owner (set_mhWaiting false f) s))
      else
        _ ← ensure (negb latched);
        '(msg, park, f) ← update_reply owner n pid old f;
        let s := if decide (park = None) then s else drop_d owner s in
        Ok (put_l n (Holder (WUpdate old (Some msg))) (put_f owner f s))
  | _ => wait
  end.

(** ** Use of the page *)

Definition write n (x : V) s : result sys :=
  match y_latch s !! n with
  | Some (Holder Using) => Ok (mkSys (y_frames s) (<[n := x]> (y_data s)) (y_latch s) (y_ssd s) x (y_cr s))
  | _ => wait
  end.
Definition release n s : result sys :=
  match y_latch s !! n with
  | Some (Holder Using) => Ok (drop_l n s)
  | Some (Readers (S (S k))) => Ok (put_l n (Readers (S k)) s)
  | Some (Readers _) => Ok (drop_l n s)
  | Some (Writing (S k)) => Ok (put_l n (Writing k) s)
  | _ => wait
  end.

(** ** The page providers

    [ssd] is [FLAGS_evict_to_ssd]; the theorems hold for every choice of it. *)

(** The provider of node [n] looks at the frame: [epoch] is the one with which
    it became a candidate, [r] the request to the owner it collects, [full],
    [downgraded] and [rand] are as in [evict_owner_page]. *)
Definition evict n (ssd : bool) (prob : Z) (full downgraded : bool) (rand epoch : Z) (r : EvictionRequest) s : result sys :=
  match y_frames s !! n with
  | None => wait
  | Some f =>
      _ ← assert_ (negb (upper_node n));
      d ← candidate_step ssd prob n epoch (bool_decide (y_latch s !! n = None)) full downgraded rand r f;
      match d with
      | DOwn EvWriting => Ok (put_l n (Writing 0) s)
      | DOwn EvRemove => remove_frame n s
      | DOwn (EvPage _ f) => Ok (drop_d n (put_f n f s))
      | DAsk _ => Ok (put_l n (Holder (WEvict EvAsked)) s)
      | _ => Ok s
      end
  end.

(** The write to the SSD completed.  What the provider does to the clean page
    next is another [evict]. *)
Definition written s : result sys :=
  match y_latch s !! owner with
  | Some (Writing k) =>
      f ← frame_of s owner;
      x ← data_of s owner;
      _ ← ensure (bf_dirty f);
      let s := mkSys (y_frames s) (y_data s) (y_latch s) x (y_last s) (y_cr s) in
      let s := put_f owner (set_dirty false f) s in
      Ok (if decide (k = O) then drop_l owner s else put_l owner (Readers k) s)
  | _ => wait
  end.

(** The provider of the owner handles the request of node [n].  Its lookup does
    not block: the functor gives up on a latched frame, and [refuse] tells that
    it did so on a free one; [moved] tells that the bucket has changed meanwhile,
    so that the lookup is undone, and [Exclusive::undo] checks that the functor
    did not give up.  [buf] are the provider's private pages. *)
Definition handle_evict n (ssd refuse moved : bool) (buf : ring nat) s : result sys :=
  match y_latch s !! n with
  | Some (Holder (WEvict EvAsked)) =>
      let answer b s := put_l n (Holder (WEvict (EvAnswered b))) s in
      fn ← frame_of s n;
      match y_frames s !! owner with
      | None => Throw EnsureFailed
      | Some f =>
          let retry := refuse || negb (bool_decide (y_latch s !! owner = None)) in
          _ ← ensure (negb (moved && retry));
          if retry || moved then Ok (answer false s)
          else if negb (bf_pVersion f =? bf_pVersion fn) then Ok (answer false s)
          else if negb (bool_decide (y_cr s = ∅)) then Ok (answer false s)
          else
            '(out, _) ← evict_entry ssd owner n buf f;
            match out with
            | EAck f' => Ok (answer true (put_f owner f' s))
            | EAckRemove _ =>
                _ ← assert_ (negb (upper_node owner));
                s ← remove_frame owner s;
                Ok (answer true s)
            | ERead _ f' =>
                let s := if decide (bf_state f = EVICTED) then drop_d owner s else s in
                Ok (put_l n (Holder (WEvict EvReading)) (put_l owner (Holder (WTake n)) (put_f owner f' s)))
            end
      end
  | _ => wait
  end.

(** The page was read, the frame is unlatched and the response is sent. *)
Definition taken s : result sys :=
  match y_latch s !! owner with
  | Some (Holder (WTake n)) =>
      match y_latch s !! n with
      | Some (Holder (WEvict EvReading)) =>
          s ← send_page n owner s;
          Ok (put_l n (Holder (WEvict (EvAnswered true))) (drop_l owner s))
      | _ => wait
      end
  | _ => wait
  end.

(** The provider of node [n] got its response.  [stale] tells that the entry
    behind the acknowledged ones, which is left from an earlier response, names
    the page. *)
Definition resume_evict n (stale : bool) s : result sys :=
  match y_latch s !! n with
  | Some (Holder (WEvict (EvAnswered b))) =>
      if b || stale then
        _ ← assert_ (negb (upper_node n));
        s ← remove_frame n s;
        Ok (drop_l n s)
      else Ok (drop_l n s)
  | _ => wait
  end.

(** A handler withdraws the copy request of node [n]. *)
Definition clear_cr n s : result sys := Ok (drop_cr n s).

Inductive action :=
| AFix (n : Z) (type : LATCH_STATE) (page : nat) (raw : Z)
| AReadDone
| AHandlePR (n : Z) (page : nat)
| AResumePR (n raw : Z)
| AHandlePMR (n k : Z)
| AResumeMove (n : Z)
| AResumeInval (n : Z)
| AHandlePCR (n : Z) (giveup : bool)
| AResumeCopy (n raw : Z)
| AHandlePUR (n : Z)
| AResumeUpdate (n raw : Z)
| AWrite (n : Z) (x : V)
| ARelease (n : Z)
| AEvict (n : Z) (ssd : bool) (prob : Z) (full downgraded : bool) (rand epoch : Z) (r : EvictionRequest)
| AWritten
| AHandleEvict (n : Z) (ssd refuse moved : bool) (buf : ring nat)
| ATaken
| AResumeEvict (n : Z) (stale : bool)
| AClearCR (n : Z).

Definition exec (a : action) s : result sys :=
  match a with
  | AFix n type page raw => do_fix n type page raw s
  | AReadDone => read_done s
  | AHandlePR n page => handle_pr n page s
  | AResumePR n raw => resume_pr n raw s
  | AHandlePMR n k => handle_pmr n k s
  | AResumeMove n => resume_move n s
  | AResumeInval n => resume_inval n s
  | AHandlePCR n giveup => handle_pcr n giveup s
  | AResumeCopy n raw => resume_copy n raw s
  | AHandlePUR n => handle_pur n s
  | AResumeUpdate n raw => resume_update n raw s
  | AWrite n x => write n x s
  | ARelease n => release n s
  | AEvict n ssd prob full downgraded rand epoch r => evict n ssd prob full downgraded rand epoch r s
  | AWritten => written s
  | AHandleEvict n ssd refuse moved buf => handle_evict n ssd refuse moved buf s
  | ATaken => taken s
  | AResumeEvict n stale => resume_evict n stale s
  | AClearCR n => clear_cr n s
  end.

(** Node ids fit the possessor bitmap and random draws are 64-bit words; [fix]
    is called with one of the three access functors; a provider handles requests
    only when it has private pages. *)
Definition is_node n : Prop := 0 <= n < 64.
Definition action_ok (a : action) : Prop :=
  match a with
  | AFix n type _ raw => is_node n ∧ type ≠ UNLATCHED ∧ is_u64 raw
  | AResumePR n raw | AResumeCopy n raw | AResumeUpdate n raw => is_u64 raw
  | AHandleEvict _ _ _ _ buf => rb_inv buf ∧ 0 < rb_getSize buf
  | _ => True
  end.

(** The version of the owner's frame has not reached the end of its range. *)
Definition version_left s : Prop := ∀ f, y_frames s !! owner = Some f → bf_pVersion f + 1 < 2 ^ 64.

(** The action drops a page the owner did not agree to, or withdraws the copy
    request of a worker that was told to copy the page. *)
Definition deviates (a : action) s : bool :=
  match a with
  | AResumeEvict n true =>
      match y_latch s !! n with Some (Holder (WEvict (EvAnswered false))) => true | _ => false end
  | AClearCR n =>
      match y_latch s !! n with
      | Some (Holder (WaitPR _ (Some _))) | Some (Holder (WCopy _ _ _ _)) => true
      | _ => false
      end
  | _ => false
  end.

Definition step s s' : Prop := ∃ a, action_ok a ∧ version_left s ∧ deviates a s = false ∧ exec a s = Ok s'.

(** ** The states the system starts in

    The page is on the SSD of its owner and no node has a frame for it; or it
    was just created, by a worker of the owner ([newPage]) or of another node
    ([newRemotePage] and the owner's answer), which has it latched. *)
Definition stored (x : V) : sys := mkSys ∅ ∅ ∅ x x ∅.
Definition newPage (page : nat) (epoch : Z) (ssd x : V) : result sys :=
  f ← new_frame owner pid page epoch bf_new;
  Ok (mkSys {[owner := set_dirty true f]} {[owner := x]} {[owner := Holder Using]} ssd x ∅).
Definition newRemotePage n (page : nat) (epoch : Z) (ssd x : V) : result sys :=
  fo ← allocated_frame n pid epoch bf_new;
  f ← new_remote_frame n pid page bf_new;
  Ok (mkSys {[owner := fo; n := set_dirty true f]} {[n := x]} {[n := Holder Using]} ssd x ∅).

Inductive initial : sys → Prop :=
| i_stored x : initial (stored x)
| i_new page epoch ssd x s : newPage page epoch ssd x = Ok s → initial s
| i_new_remote n page epoch ssd x s :
    is_node n → n ≠ owner → newRemotePage n page epoch ssd x = Ok s → initial s.

Definition reachable s : Prop := ∃ s0, initial s0 ∧ rtc step s0 s.
End system.
