(* ===== verification/CoherenceInv.v ===== *)
(** * The system of nodes and the abstract directory

    The relation [sim] between a state of the system of Coherence.v and a state
    of the specification in Directory.v.  It says for every node, from its
    frame, the worker that holds the frame's latch and the page, which grant
    the node has; and for the owner that its frame is the directory. *)

From S2P Require Import Prelude Defs Bitmap RingBuffer BufferFrame Eviction Messages Protocol Directory Coherence.
Local Open Scope Z_scope.

Section relation.
Context {V : Type} (pid : Z).
Let o : Z := owner pid.
Implicit Types (A : dstate V) (s : @sys V) (f : BufferFrame) (n k : Z).

(** ** Frames of nodes that do not own the page *)

Definition base_ok f : Prop :=
  bf_pid f = pid ∧ is_Some (bf_page f) ∧ is_u64 (bf_possessors f) ∧ 0 <= bf_pVersion f.
(** The node has the page, in possession. *)
Definition hot_ok n f : Prop := base_ok f ∧ bf_state f = HOT ∧ isPossessor n f = true.
(** The node has requested the page. *)
Definition io_ok f : Prop :=
  base_ok f ∧ bf_state f = IO_RDMA ∧ bf_possession f = NOBODY ∧ bf_possessors f = 0.

(** What the answer to a possession request leaves to do. *)
Definition response_ok (type : LATCH_STATE) (msg : PossessionResponse) (d : option V)
    (need : gset Z) (p : option V) : Prop :=
  match prr_result msg with
  | WithPage => need = ∅ ∧ p = d ∧ is_Some d
  | NoPageExclusiveConflict => ∃ c, prr_conflict msg = Some c ∧ need = {[c]} ∧ p = None
  | NoPageSharedConflict => ∃ w, prr_conflict msg = Some w ∧ is_u64 w ∧ need = bset w ∧ bset w ≠ ∅ ∧
      p = None ∧ type = LS_EXCLUSIVE
  | WithPageSharedConflict => ∃ w, prr_conflict msg = Some w ∧ is_u64 w ∧ need = bset w ∧ bset w ≠ ∅ ∧
      p = d ∧ is_Some d ∧ type = LS_EXCLUSIVE
  | NoPageEvicted => ∃ w, prr_conflict msg = Some w ∧ is_u64 w ∧ bset w ≠ ∅ ∧ o ∉ bset w ∧
      need = ∅ ∧ p = None ∧ type ≠ LS_EXCLUSIVE
  | _ => False
  end.

Inductive remote_rel n : option BufferFrame → option hold → option V → option (grant V) → Prop :=
| rr_absent d : remote_rel n None None d None
| rr_rest f l x :
    hot_ok n f → (l = None ∨ ∃ k : nat, l = Some (Readers k)) →
    remote_rel n (Some f) l (Some x) (Some (mkGrant (bf_pVersion f) (bf_possession f) ∅ (Some x)))
| rr_stuck f d :
    io_ok f → bf_mhWaiting f = true →
    remote_rel n (Some f) None d (Some (mkGrant (bf_pVersion f) SHARED ∅ None))
| rr_using f x :
    hot_ok n f → bf_possession f = EXCLUSIVE →
    remote_rel n (Some f) (Some (Holder Using)) (Some x) (Some (mkGrant (bf_pVersion f) EXCLUSIVE ∅ (Some x)))
| rr_request f type d :
    io_ok f → remote_rel n (Some f) (Some (Holder (WaitPR type None))) d None
| rr_response f type msg d v need p :
    io_ok f → prr_pVersion msg = Some v → 0 <= v → response_ok type msg d need p →
    remote_rel n (Some f) (Some (Holder (WaitPR type (Some msg)))) d (Some (mkGrant v (desired type) need p))
| rr_move f type id (b : bool) d :
    io_ok f → (b = true → is_Some d) →
    remote_rel n (Some f) (Some (Holder (WMove type id b))) d
      (Some (mkGrant (bf_pVersion f) (desired type) (if b then ∅ else {[id]}) (if b then d else None)))
| rr_move_rnd f id rest (b : bool) d :
    io_ok f → (b = true → is_Some d) → is_u64 rest → id ∉ bset rest →
    remote_rel n (Some f) (Some (Holder (WMoveRnd id rest b))) d
      (Some (mkGrant (bf_pVersion f) EXCLUSIVE ((if b then ∅ else {[id]}) ∪ bset rest) (if b then d else None)))
| rr_inval f out x :
    io_ok f ∨ hot_ok n f →
    remote_rel n (Some f) (Some (Holder (WInval out))) (Some x)
      (Some (mkGrant (bf_pVersion f) EXCLUSIVE out (Some x)))
| rr_copy f type w id r d p :
    io_ok f → type ≠ LS_EXCLUSIVE → is_u64 w → id ∈ bset w → o ∉ bset w →
    (if decide (r = Some WithPage) then p = d ∧ is_Some d else p = None) →
    remote_rel n (Some f) (Some (Holder (WCopy type w id r))) d
      (Some (mkGrant (bf_pVersion f) SHARED ∅ p))
| rr_update f old r x :
    hot_ok n f → bf_possession f = SHARED → bf_pVersion f = old + 1 → 0 <= old →
    (r = None ∨ ∃ msg, r = Some msg ∧ purr_result msg = UpdateFailed) →
    remote_rel n (Some f) (Some (Holder (WUpdate old r))) (Some x)
      (Some (mkGrant old SHARED ∅ (Some x)))
| rr_updated f old msg w x :
    hot_ok n f → bf_possession f = SHARED → bf_pVersion f = old + 1 → 0 <= old →
    purr_result msg = UpdateSucceedWithSharedConflict → purr_conflict msg = Some w →
    purr_pVersion msg = Some (old + 1) → is_u64 w →
    remote_rel n (Some f) (Some (Holder (WUpdate old (Some msg)))) (Some x)
      (Some (mkGrant (old + 1) EXCLUSIVE (bset w ∖ {[n]}) (Some x)))
| rr_evict f e x :
    hot_ok n f → e ≠ EvAnswered true →
    remote_rel n (Some f) (Some (Holder (WEvict e))) (Some x) (Some (mkGrant (bf_pVersion f) (bf_possession f) ∅ (Some x)))
| rr_evicted f d :
    remote_rel n (Some f) (Some (Holder (WEvict (EvAnswered true)))) d None.

(** ** The frame of the owner *)

Definition obase_ok f : Prop := bf_pid f = pid ∧ is_u64 (bf_possessors f) ∧ 0 <= bf_pVersion f.

(** The frame is the directory [v], [m], [h]; [g] is the grant of the owner
    itself. *)
Definition dir_ok (v : Z) (m : POSSESSION) (h : gset Z) (g : option (grant V)) f (d : option V) : Prop :=
  obase_ok f ∧ bf_pVersion f = v ∧ bf_possession f = m ∧ m ≠ NOBODY ∧ holders f = h ∧ h ≠ ∅ ∧
  ((bf_state f = HOT ∧ o ∈ h ∧ is_Some (bf_page f) ∧ is_Some d ∧ g = Some (mkGrant v m ∅ d)) ∨
   (bf_state f = EVICTED ∧ o ∉ h ∧ g = None ∧ bf_page f = None)).

(** The owner changes its own possession: in the directory of the specification
    it is the only holder already. *)
Definition self_ok (v : Z) (h : gset Z) f : Prop :=
  obase_ok f ∧ bf_pVersion f = v ∧ h = {[o]} ∧ is_Some (bf_page f).

Inductive owner_rel (v : Z) (m : POSSESSION) (h : gset Z) :
    option (grant V) → option BufferFrame → option hold → option V → Prop :=
| or_absent d : v = 0 → h = ∅ → owner_rel v m h None None None d
| or_read f type d :
    obase_ok f → bf_pVersion f = v → h = ∅ → is_Some (bf_page f) →
    (if type is Some _ then bf_possession f = NOBODY ∧ bf_possessors f = 0
     else bf_possession f = SHARED ∧ bf_possessors f = sb64_set 0 o ∧ bf_state f = HOT) →
    owner_rel v m h None (Some f) (Some (Holder (ReadSSD type))) d
| or_rest f g l d :
    dir_ok v m h g f d → (l = None ∨ ∃ k : nat, l = Some (Readers k)) →
    owner_rel v m h g (Some f) l d
| or_using f g d :
    dir_ok v m h g f d → bf_possession f = EXCLUSIVE → bf_state f = HOT →
    owner_rel v m h g (Some f) (Some (Holder Using)) d
| or_move f type id (b : bool) d :
    self_ok v h f → m = desired type → (b = true → is_Some d) →
    owner_rel v m h (Some (mkGrant v m (if b then ∅ else {[id]}) (if b then d else None)))
      (Some f) (Some (Holder (WMove type id b))) d
| or_move_rnd f id rest (b : bool) d :
    self_ok v h f → m = EXCLUSIVE → (b = true → is_Some d) → is_u64 rest → id ∉ bset rest →
    owner_rel v m h (Some (mkGrant v m ((if b then ∅ else {[id]}) ∪ bset rest) (if b then d else None)))
      (Some f) (Some (Holder (WMoveRnd id rest b))) d
| or_inval f out x :
    self_ok v h f → m = EXCLUSIVE →
    owner_rel v m h (Some (mkGrant v m out (Some x))) (Some f) (Some (Holder (WInval out))) (Some x)
| or_copy f type id r d g :
    obase_ok f → bf_pVersion f = v → bf_possession f = SHARED → bf_state f = EVICTED → is_Some (bf_page f) →
    m = SHARED → type ≠ LS_EXCLUSIVE → id ∈ bset (bf_possessors f) → o ∉ bset (bf_possessors f) →
    (if decide (r = Some WithPage) then h = {[o]} ∪ bset (bf_possessors f) ∧ g = Some (mkGrant v SHARED ∅ d) ∧ is_Some d
     else h = bset (bf_possessors f) ∧ g = None) →
    owner_rel v m h g (Some f) (Some (Holder (WCopy type (bf_possessors f) id r))) d
| or_writing f g (k : nat) d :
    dir_ok v m h g f d → bf_state f = HOT → bf_dirty f = true →
    owner_rel v m h g (Some f) (Some (Writing k)) d
| or_take f n g d :
    obase_ok f → bf_pVersion f = v → bf_possession f = m → bf_state f = HOT → is_Some (bf_page f) → m ≠ NOBODY →
    n ∈ h → n ≠ o → holders f = {[o]} ∪ h ∖ {[n]} →
    (o ∉ h ∧ g = None ∨ o ∈ h ∧ is_Some d ∧ g = Some (mkGrant v m ∅ d)) →
    owner_rel v m h g (Some f) (Some (Holder (WTake n))) d.

(** ** The whole system *)

(** The nodes [w] that node [n] may copy the page of version [v] from. *)
Definition copy_source s n (w v : Z) : Prop :=
  n ≠ o ∧
  ((∃ type msg, y_latch s !! n = Some (Holder (WaitPR type (Some msg))) ∧ prr_result msg = NoPageEvicted ∧
      prr_conflict msg = Some w ∧ prr_pVersion msg = Some v) ∨
   (∃ type id r f, y_latch s !! n = Some (Holder (WCopy type w id r)) ∧ y_frames s !! n = Some f ∧ bf_pVersion f = v)).

Definition old_sources s A : Prop :=
  ∀ n w v, copy_source s n w v → v <= d_v A ∧ ∀ j g, j ∈ bset w → d_gr A !! j = Some g → v <= g_v g.

(** A worker is told to give way only by one that invalidates its page. *)
Definition waits_ok s : Prop :=
  ∀ k f, k ≠ o → y_frames s !! k = Some f → bf_mhWaiting f = true →
    ∃ n out, y_latch s !! n = Some (Holder (WInval out)) ∧ k ∈ out.

Record sim s A : Prop := mkSim {
  si_last : y_last s = d_last A;
  si_ssd : y_ssd s = d_ssd A;
  si_owner : owner_rel (d_v A) (d_m A) (d_h A) (d_gr A !! o) (y_frames s !! o) (y_latch s !! o) (y_data s !! o);
  si_remote n : n ≠ o → remote_rel n (y_frames s !! n) (y_latch s !! n) (y_data s !! n) (d_gr A !! n);
  si_nodes n : is_Some (y_frames s !! n) → is_node n;
  si_sources : old_sources s A;
  si_waits : waits_ok s;
}.

(** An action that is not enabled, or one that the specification allows. *)
Definition allowed (r : result (@sys V)) A : Prop :=
  r = Throw WouldBlock ∨ ∃ s' A', r = Ok s' ∧ (A' = A ∨ dstep o A A') ∧ sim s' A'.

End relation.
