(* ===== verification/CoherenceSim.v ===== *)
(** * The system of nodes implements the directory specification

    One lemma per action of Coherence.v: in a state related to a state of the
    specification the action is not enabled or it succeeds (no [ensure] of the
    code fails, no unset field is read) and the new state is related to a state
    the specification allows. *)

From S2P Require Import Prelude Defs Bitmap RingBuffer BufferFrame Eviction Messages Protocol Directory Coherence CoherenceInv.
Local Open Scope Z_scope.

(** ** Sets of nodes *)

Lemma pick_ok raw w : is_u64 w → is_u64 raw → bset w ≠ ∅ → ∃ id, pick raw w = Ok id ∧ id ∈ bset w.
Proof.
  intros Hw Hraw Hne. unfold pick.
  destruct (applyToOneRnd_picks raw (λ id _, Some id) w None Hw (bset_nonzero w Hne) Hraw) as (r & -> & Hr & Ht & _).
  exists r. split; [done|]. by apply elem_of_bset.
Qed.

Lemma sharers_ok w : is_u64 w → sharers w = Ok (bset w).
Proof.
  intros Hw. unfold sharers, sb64_applyForAll. rewrite while_bits_full by done. f_equal.
  apply set_eq. intros i. unfold bset. rewrite elem_of_list_to_set.
  assert (∀ l (X : gset Z), i ∈ foldl (λ X id, {[0 + id]} ∪ X) X l ↔ i ∈ l ∨ i ∈ X) as Hfold.
  { induction l as [|y l IH]; intros X; simpl; [set_solver|]. rewrite IH, elem_of_union, elem_of_singleton, elem_of_cons. tauto. }
  rewrite Hfold. set_solver.
Qed.

(** Node [m] is the same in both states. *)
Definition same_at {V} (s s' : @sys V) (m : Z) : Prop :=
  y_frames s' !! m = y_frames s !! m ∧ y_latch s' !! m = y_latch s !! m ∧ y_data s' !! m = y_data s !! m.

(** ** Tactics

    [at_node] evaluates lookups in an updated state, [others] closes the side
    condition of [sim_update] for the nodes that did not change. *)
Ltac at_node :=
  cbn [y_frames y_data y_latch y_ssd y_last y_cr put_f put_d put_l drop_d drop_l put_cr drop_cr exclusive_guard remove d_gr d_v d_m d_h d_ssd d_last];
  repeat first
    [ rewrite lookup_insert_eq | rewrite lookup_delete_eq
    | rewrite lookup_insert_ne by (done || congruence || sset)
    | rewrite lookup_delete_ne by (done || congruence || sset) ].
Ltac others := let m := fresh "m" in let Hm := fresh "Hm" in intros m Hm; unfold same_at; at_node; done.
(** Node [n] copies from nobody. *)
Ltac no_source :=
  let H := fresh "H" in
  intros ? ? H; exfalso; unfold copy_source in H; revert H; at_node;
  intros [_ [(? & ? & H & _)|(? & ? & ? & ? & H & _)]]; first [discriminate H | congruence].
Section simulation.
Context {V : Type} (pid : Z).
Notation o := (owner pid).
Hypothesis Ho : is_node o.
Implicit Types (A : dstate V) (s : @sys V) (f : BufferFrame) (n k : Z).

Lemma node_u64 n : is_node n → is_u64 n.
Proof. unfold is_node, is_u64. lia. Qed.

(** ** The specification between two states *)

Lemma dstep_frame A A' : dinv o A → dstep o A A' → d_gr A' ≠ ∅ →
  d_v A <= d_v A' ∧
  ∀ j g', d_gr A' !! j = Some g' → d_v A <= g_v g' ∨ ∃ g, d_gr A !! j = Some g ∧ g_v g = g_v g'.
Proof.
  intros HA Hs. destruct Hs; cbn; intros Hne; try done; (split; [lia|]); intros k' g' Hg;
    map_cases; cbn in *; try (left; lia); try (right; by eexists);
    match goal with Hc : complete_at _ _ _ |- _ => destruct Hc; right; by eexists end.
Qed.

(** ** Changing the state of a few nodes *)

Lemma sim_update s s' A A' (X : gset Z) :
  dinv o A → sim pid s A → (A' = A ∨ dstep o A A') →
  y_ssd s' = d_ssd A' → y_last s' = d_last A' →
  (∀ m, m ∉ X → same_at s s' m ∧ d_gr A' !! m = d_gr A !! m) →
  owner_rel pid (d_v A') (d_m A') (d_h A') (d_gr A' !! o) (y_frames s' !! o) (y_latch s' !! o) (y_data s' !! o) →
  (∀ n, n ∈ X → n ≠ o → remote_rel pid n (y_frames s' !! n) (y_latch s' !! n) (y_data s' !! n) (d_gr A' !! n)) →
  (∀ n, n ∈ X → is_Some (y_frames s' !! n) → is_node n) →
  (∀ n w v, n ∈ X → copy_source pid s' n w v →
     v <= d_v A' ∧ ∀ j g, j ∈ bset w → d_gr A' !! j = Some g → v <= g_v g) →
  waits_ok pid s' →
  sim pid s' A'.
Proof.
  intros HA Hsim Hstep Hssd Hlast Hsame Howner Hrem Hnode Hsrc Hwait.
  assert (∀ n, n ≠ o → remote_rel pid n (y_frames s' !! n) (y_latch s' !! n) (y_data s' !! n) (d_gr A' !! n)) as Hrel.
  { intros n Hn. destruct (decide (n ∈ X)) as [|HX]; [by apply Hrem|].
    destruct (Hsame n HX) as [(-> & -> & ->) ->]. by apply (si_remote _ _ _ Hsim). }
  constructor; try done.
  - intros n Hn. destruct (decide (n ∈ X)) as [|HX]; [by apply Hnode|].
    destruct (Hsame n HX) as [(Hf & _) _]. rewrite Hf in Hn. by apply (si_nodes _ _ _ Hsim).
  - intros n w v Hc. destruct (decide (n ∈ X)) as [|HX]; [by apply (Hsrc n)|].
    assert (copy_source pid s n w v) as Hc'.
    { destruct (Hsame n HX) as [(Hf & Hl & _) _]. unfold copy_source in *. by rewrite Hf, Hl in Hc. }
    destruct (si_sources _ _ _ Hsim n w v Hc') as [Hle Hall].
    destruct Hstep as [->|Hs]; [done|]. destruct (dstep_frame A A' HA Hs) as (Hv & Hgr).
    { intros E. pose proof Hc as [Hn _]. pose proof (Hrel n Hn) as Hr. rewrite E, lookup_empty in Hr.
      destruct Hc as [_ [(ty & msg & El & _)|(ty & id & r & f & El & _)]]; rewrite El in Hr; inversion Hr. }
    split; [lia|]. intros j g Hj Hg. destruct (Hgr j g Hg) as [|(g0 & Hg0 & <-)]; [lia|]. by eapply Hall.
Qed.

Lemma owner_same s s' A A' (X : gset Z) :
  sim pid s A → o ∉ X → (∀ m, m ∉ X → same_at s s' m ∧ d_gr A' !! m = d_gr A !! m) →
  d_v A' = d_v A → d_m A' = d_m A → d_h A' = d_h A →
  owner_rel pid (d_v A') (d_m A') (d_h A') (d_gr A' !! o) (y_frames s' !! o) (y_latch s' !! o) (y_data s' !! o).
Proof.
  intros Hsim HX Hsame -> -> ->. destruct (Hsame o HX) as [(-> & -> & ->) ->]. apply (si_owner _ _ _ Hsim).
Qed.

(** Only node [n], not the owner, changes. *)
Lemma sim_remote s s' A A' n :
  dinv o A → sim pid s A → (A' = A ∨ dstep o A A') → n ≠ o →
  (∀ m, m ≠ n → same_at s s' m ∧ d_gr A' !! m = d_gr A !! m) →
  y_ssd s' = y_ssd s → d_ssd A' = d_ssd A → y_last s' = d_last A' →
  d_v A' = d_v A → d_m A' = d_m A → d_h A' = d_h A → is_node n →
  remote_rel pid n (y_frames s' !! n) (y_latch s' !! n) (y_data s' !! n) (d_gr A' !! n) →
  (∀ w v, copy_source pid s' n w v → v <= d_v A' ∧ ∀ j g, j ∈ bset w → d_gr A' !! j = Some g → v <= g_v g) →
  waits_ok pid s' →
  sim pid s' A'.
Proof.
  intros HA Hs Hstep Hn Hsame Hssd Hssd' Hlast Hv Hm Hh Hnode Hrel Hsrc Hw.
  assert (∀ m, m ∉ ({[n]} : gset Z) → same_at s s' m ∧ d_gr A' !! m = d_gr A !! m) as Hsame'
    by (intros m HX; apply Hsame; by apply not_elem_of_singleton in HX).
  apply (sim_update s s' A A' {[n]}); try done.
  - rewrite Hssd, Hssd'. apply (si_ssd _ _ _ Hs).
  - apply (owner_same s s' A A' {[n]}); try done. by apply not_elem_of_singleton.
  - by intros m ->%elem_of_singleton.
  - by intros m ->%elem_of_singleton.
  - intros m w v ->%elem_of_singleton. apply Hsrc.
Qed.

(** Node [n] changes; it was not invalidating anybody and is not made to wait. *)
Lemma waits_at s s' n : waits_ok pid s → (∀ m, m ≠ n → same_at s s' m) →
  (∀ f', n ≠ o → y_frames s' !! n = Some f' → bf_mhWaiting f' = true →
     ∃ f, y_frames s !! n = Some f ∧ bf_mhWaiting f = true) →
  (∀ out, y_latch s !! n = Some (Holder (WInval out)) → out = ∅) →
  waits_ok pid s'.
Proof.
  intros Hw Hsame Hf Hl k f' Hk Hfk Hm.
  assert (∃ f, y_frames s !! k = Some f ∧ bf_mhWaiting f = true) as (f & Hfk' & Hm').
  { destruct (decide (k = n)) as [->|Hne]; [by eauto|]. destruct (Hsame k Hne) as (E & _). rewrite E in Hfk. by eauto. }
  destruct (Hw k f Hk Hfk' Hm') as (m & out & Hn & Hin). exists m, out. split; [|done].
  destruct (decide (m = n)) as [->|Hne]; [rewrite (Hl out Hn) in Hin; set_solver|].
  destruct (Hsame m Hne) as (_ & -> & _). done.
Qed.

(** A worker of node [n] makes progress. *)
Lemma sim_worker s s' A n :
  dinv o A → sim pid s A → n ≠ o → is_node n →
  (∀ m, m ≠ n → same_at s s' m) → y_ssd s' = y_ssd s → y_last s' = y_last s →
  remote_rel pid n (y_frames s' !! n) (y_latch s' !! n) (y_data s' !! n) (d_gr A !! n) →
  (∀ w v, copy_source pid s' n w v → v <= d_v A ∧ ∀ j g, j ∈ bset w → d_gr A !! j = Some g → v <= g_v g) →
  (∀ f', n ≠ o → y_frames s' !! n = Some f' → bf_mhWaiting f' = true →
     ∃ f, y_frames s !! n = Some f ∧ bf_mhWaiting f = true) →
  (∀ out, y_latch s !! n = Some (Holder (WInval out)) → out = ∅) →
  sim pid s' A.
Proof.
  intros HA Hs Hn Hnode Hsame Hssd Hlast Hrel Hsrc Hw1 Hw2.
  apply (sim_remote s s' A A n); try done.
  - by left.
  - intros m Hm. split; [by apply Hsame|done].
  - rewrite Hlast. apply (si_last _ _ _ Hs).
  - apply (waits_at s s' n); try done. apply (si_waits _ _ _ Hs).
Qed.

(** Only the owner changes. *)
Lemma sim_owner s s' A A' :
  dinv o A → sim pid s A → (A' = A ∨ dstep o A A') →
  (∀ m, m ≠ o → same_at s s' m ∧ d_gr A' !! m = d_gr A !! m) →
  y_ssd s' = y_ssd s → d_ssd A' = d_ssd A → y_last s' = d_last A' →
  owner_rel pid (d_v A') (d_m A') (d_h A') (d_gr A' !! o) (y_frames s' !! o) (y_latch s' !! o) (y_data s' !! o) →
  (∀ out, y_latch s !! o = Some (Holder (WInval out)) → out = ∅) →
  sim pid s' A'.
Proof.
  intros HA Hs Hstep Hsame Hssd Hssd' Hlast Hrel Hi.
  apply (sim_update s s' A A' {[o]}); try done.
  - rewrite Hssd, Hssd'. apply (si_ssd _ _ _ Hs).
  - intros m Hm. apply Hsame. by apply not_elem_of_singleton in Hm.
  - by intros m ->%elem_of_singleton.
  - by intros m ->%elem_of_singleton.
  - intros m w v ->%elem_of_singleton [? _]. done.
  - apply (waits_at s s' o); try done; [apply (si_waits _ _ _ Hs)|]. intros m Hm. by apply Hsame.
Qed.

(** ** The frame of a node that takes possession *)

Lemma take_possession_ok type n f : is_node n → base_ok pid f →
  (type = LS_EXCLUSIVE ∨ bf_possessors f = 0) →
  ∃ f', take_possession type n f = Ok f' ∧ hot_ok pid n f' ∧ bf_possession f' = desired type ∧
        bf_pVersion f' = bf_pVersion f ∧ bf_mhWaiting f' = bf_mhWaiting f.
Proof.
  intros Hn (Hp & Hpg & Hu & Hv) Hw. unfold take_possession, desired.
  destruct (decide (type = LS_EXCLUSIVE)) as [->|Hne]; cbn.
  - eexists. split; [done|]. unfold hot_ok, base_ok, isPossessor; cbn.
    rewrite Z.eqb_refl. pose proof (node_u64 n Hn). done.
  - destruct Hw as [|Hw]; [done|]. eexists. split; [done|]. unfold hot_ok, base_ok, isPossessor; cbn.
    rewrite Hw. assert (is_u64 (sb64_set 0 n)) by (apply sb64_set_u64; unfold is_u64; lia).
    assert (sb64_test (sb64_set 0 n) n = true) by (rewrite sb64_test_set; by rewrite bool_decide_eq_true_2).
    done.
Qed.

(** The worker of a node that is not the owner ends [fix]. *)
Lemma finish_remote s A n type t f x pc :
  dinv o A → sim pid s A → n ≠ o → y_frames s !! n = Some f → y_latch s !! n = Some (Holder pc) →
  (∀ out, pc = WInval out → out = ∅) → y_data s !! n = Some x → base_ok pid f →
  (type = LS_EXCLUSIVE ∨ bf_possessors f = 0) →
  d_gr A !! n = Some (mkGrant (bf_pVersion f) (desired type) ∅ (Some x)) →
  allowed pid (finish pid n type t s) A.
Proof.
  intros HA Hs Hn Hf Hl Hpc Hd Hb Ht Hg. assert (is_node n) as Hnode by (apply (si_nodes _ _ _ Hs); by rewrite Hf).
  unfold finish, frame_of. rewrite Hf. cbn [of_option mbind result_bind].
  rewrite (proj2 (Z.eqb_neq n o)) by done.
  destruct (take_possession_ok type n f Hnode Hb Ht) as (f' & -> & Hhot & Hpos & Hv & Hm).
  cbn [mbind result_bind]. right. eexists _, A. split; [done|]. split; [by left|].
  assert (∀ f0, bf_mhWaiting f0 = bf_mhWaiting f' → bf_mhWaiting f0 = true → ∃ f, y_frames s !! n = Some f ∧ bf_mhWaiting f = true) as Hw.
  { intros f0 ? E. exists f. split; [done|congruence]. }
  assert (∀ out, y_latch s !! n = Some (Holder (WInval out)) → out = ∅) as Hi by (intros; apply Hpc; congruence).
  unfold desired in *. destruct (decide (type = LS_EXCLUSIVE)) as [->|Hne];
    (apply (sim_worker s _ A n); try done; [others| |no_source|at_node; intros f0 _ [= <-]; by apply Hw]);
    at_node; rewrite Hd, Hg, <- Hv, <- ?Hpos.
  - rewrite Hpos. by apply (rr_using pid n (set_dirty true f')).
  - apply rr_rest; [done|by left].
Qed.

Lemma pid_not_empty : pid =? EMPTY_PID = false.
Proof. apply Z.eqb_neq. intros E. pose proof Ho as Ho'. unfold is_node, owner in Ho'. rewrite E in Ho'. vm_compute in Ho'. naive_solver. Qed.

(** The frame of the owner after its worker resolved all conflicts. *)
Lemma local_finish_ok type v f (d : option V) : obase_ok pid f → bf_pVersion f = v → is_Some (bf_page f) → is_Some d →
  ∃ f', local_finish type o (set_possessors 0 f) = Ok f' ∧ bf_state f' = HOT ∧
        dir_ok pid v (desired type) {[o]} (Some (mkGrant v (desired type) ∅ d)) f' d.
Proof.
  intros (Hp & Hu & Hv0) Hv Hpg Hd. unfold local_finish, take_possession, desired, dir_ok, obase_ok, holders, isPossessor.
  pose proof (node_u64 o Ho) as Hou. pose proof pid_not_empty as Hpe.
  destruct (decide (type = LS_EXCLUSIVE)); cbn -[sb64_set sb64_test].
  - rewrite Z.eqb_refl. cbn. rewrite Hp, Hpe. cbn. eexists. split; [done|]. cbn. split_and!; try done.
    left. split_and!; try done; set_solver.
  - rewrite sb64_test_set, bool_decide_eq_true_2 by done. cbn. rewrite Hp, Hpe. cbn.
    eexists. split; [done|]. cbn -[sb64_set]. split_and!; try done.
    + apply sb64_set_u64. unfold is_u64. lia.
    + rewrite bset_set by done. rewrite bset_0. set_solver.
    + left. split_and!; try done; set_solver.
Qed.

Lemma finish_owner s A type t f x pc :
  dinv o A → sim pid s A → y_frames s !! o = Some f → y_latch s !! o = Some (Holder pc) →
  (∀ out, pc = WInval out → out = ∅) → (∀ w, t ≠ TCopy w) → y_data s !! o = Some x →
  self_ok pid (d_v A) (d_h A) f → d_m A = desired type →
  d_gr A !! o = Some (mkGrant (d_v A) (desired type) ∅ (Some x)) →
  allowed pid (finish pid o type t s) A.
Proof.
  intros HA Hs Hf Hl Hpc Ht Hd (Hb & Hv & Hh & Hpg) Hm Hg.
  unfold finish, frame_of. rewrite Hf. cbn [of_option mbind result_bind]. rewrite Z.eqb_refl.
  assert (local_resolved t f = set_possessors 0 f) as -> by (destruct t; [done..|by destruct (Ht shared)]).
  destruct (local_finish_ok type (d_v A) f (Some x) Hb Hv Hpg) as (f' & -> & Hhot & Hdir); [by eexists|].
  cbn [mbind result_bind]. right. eexists _, A. split; [done|]. split; [by left|].
  rewrite <- Hg, <- Hh, <- Hm in Hdir.
  assert (∀ out, y_latch s !! o = Some (Holder (WInval out)) → out = ∅) as Hi by (intros; apply Hpc; congruence).
  destruct (decide (type = LS_EXCLUSIVE)) as [->|Hne];
    (apply (sim_owner s _ A A); try done; [by left|others|by apply (si_last _ _ _ Hs)|]); at_node; rewrite Hd.
  - apply (or_using pid _ _ _ (set_dirty true f')); try done. destruct Hdir as (_ & _ & E & _). by rewrite <- E in Hm.
  - apply or_rest; [done|by left].
Qed.

(** The owner joins the nodes in shared possession. *)
Lemma finish_owner_copy s A type w f x pc :
  dinv o A → sim pid s A → y_frames s !! o = Some f → y_latch s !! o = Some (Holder pc) →
  (∀ out, pc ≠ WInval out) → type ≠ LS_EXCLUSIVE → y_data s !! o = Some x →
  obase_ok pid f → bf_pVersion f = d_v A → is_Some (bf_page f) → d_m A = SHARED →
  d_h A = {[o]} ∪ bset (bf_possessors f) →
  d_gr A !! o = Some (mkGrant (d_v A) SHARED ∅ (Some x)) →
  allowed pid (finish pid o type (TCopy w) s) A.
Proof.
  intros HA Hs Hf Hl Hpc Ht Hd Hb Hv Hpg Hm Hh Hg.
  pose proof Hb as (Hp & Hu & Hv0). pose proof pid_not_empty as Hpe.
  unfold finish, frame_of. rewrite Hf. cbn [of_option mbind result_bind]. rewrite Z.eqb_refl.
  unfold local_resolved, local_finish, take_possession, desired. rewrite decide_False by done.
  cbn -[sb64_set sb64_test finish]. unfold isPossessor. cbn -[sb64_set sb64_test].
  rewrite sb64_test_set, bool_decide_eq_true_2 by done. cbn -[sb64_set]. rewrite Hp, Hpe. cbn -[sb64_set].
  rewrite decide_False by done.
  right. eexists _, A. split; [done|]. split; [by left|].
  apply (sim_owner s _ A A); try done; [by left|others|by apply (si_last _ _ _ Hs)| |].
  - at_node. rewrite Hd. apply or_rest; [|by left].
    unfold dir_ok, obase_ok, holders. cbn -[sb64_set]. rewrite bset_set by done.
    rewrite Hh. split_and!; try done; [by apply sb64_set_u64|congruence|set_solver-|].
    left. split_and!; try done; [set_solver-|congruence].
  - intros out E. destruct (Hpc out). congruence.
Qed.

End simulation.
