(* ===== verification/CoherenceView.v ===== *)
(** * What the simulation relation says about a node, by the state of its latch *)

From S2P Require Import Prelude Defs Bitmap RingBuffer BufferFrame Eviction Messages Protocol Directory Coherence CoherenceInv CoherenceSim.
Local Open Scope Z_scope.

Section views.
Context {V : Type} (pid : Z).
Notation o := (owner pid).
Variables (s : @sys V) (A : dstate V).
Hypothesis Hs : sim pid s A.
Implicit Types (f : BufferFrame) (n k : Z).

(** ** Nodes that do not own the page *)

Ltac view Hr Hl n :=
  rewrite Hl in Hr;
  let Eg := fresh "Eg" in let Ef := fresh "Ef" in let Ed := fresh "Ed" in let El := fresh "El" in
  remember (d_gr A !! n) as g eqn:Eg; remember (y_frames s !! n) as fo eqn:Ef;
  remember (y_data s !! n) as d eqn:Ed;
  match type of Hl with _ = ?l => remember l as l' eqn:El end;
  destruct Hr; try discriminate El;
  try match goal with H : _ = None ∨ _ |- _ => by destruct H as [?|[? ?]]; congruence end;
  try (injection El; clear El; intros; subst).
Ltac view_remote n Hn Hl :=
  let Hr := fresh "Hr" in pose proof (si_remote _ _ _ Hs n Hn) as Hr; view Hr Hl n.
Ltac view_owner Hl :=
  let Hr := fresh "Hr" in pose proof (si_owner _ _ _ Hs) as Hr; view Hr Hl (owner pid).

Lemma remote_using n : n ≠ o → y_latch s !! n = Some (Holder Using) → ∃ f x,
  y_frames s !! n = Some f ∧ y_data s !! n = Some x ∧ hot_ok pid n f ∧ bf_possession f = EXCLUSIVE ∧
  d_gr A !! n = Some (mkGrant (bf_pVersion f) EXCLUSIVE ∅ (Some x)).
Proof. intros Hn Hl. view_remote n Hn Hl. eauto 10. Qed.

Lemma remote_readers n (k : nat) : n ≠ o → y_latch s !! n = Some (Readers k) → ∃ f x,
  y_frames s !! n = Some f ∧ y_data s !! n = Some x ∧ hot_ok pid n f ∧
  d_gr A !! n = Some (mkGrant (bf_pVersion f) (bf_possession f) ∅ (Some x)).
Proof. intros Hn Hl. view_remote n Hn Hl. eauto 10. Qed.

Lemma remote_waits n type : n ≠ o → y_latch s !! n = Some (Holder (WaitPR type None)) → ∃ f,
  y_frames s !! n = Some f ∧ io_ok pid f ∧ d_gr A !! n = None.
Proof. intros Hn Hl. view_remote n Hn Hl. eauto 10. Qed.

Lemma remote_answered n type msg : n ≠ o → y_latch s !! n = Some (Holder (WaitPR type (Some msg))) →
  ∃ f v need p, y_frames s !! n = Some f ∧ io_ok pid f ∧ prr_pVersion msg = Some v ∧ 0 <= v ∧
    response_ok pid type msg (y_data s !! n) need p ∧ d_gr A !! n = Some (mkGrant v (desired type) need p).
Proof. intros Hn Hl. view_remote n Hn Hl. eauto 15. Qed.

Lemma remote_move n type id b : n ≠ o → y_latch s !! n = Some (Holder (WMove type id b)) → ∃ f,
  y_frames s !! n = Some f ∧ io_ok pid f ∧ (b = true → is_Some (y_data s !! n)) ∧
  d_gr A !! n = Some (mkGrant (bf_pVersion f) (desired type) (if b then ∅ else {[id]}) (if b then y_data s !! n else None)).
Proof. intros Hn Hl. view_remote n Hn Hl. eauto 10. Qed.

Lemma remote_move_rnd n id rest b : n ≠ o → y_latch s !! n = Some (Holder (WMoveRnd id rest b)) → ∃ f,
  y_frames s !! n = Some f ∧ io_ok pid f ∧ (b = true → is_Some (y_data s !! n)) ∧ is_u64 rest ∧ id ∉ bset rest ∧
  d_gr A !! n = Some (mkGrant (bf_pVersion f) EXCLUSIVE ((if b then ∅ else {[id]}) ∪ bset rest) (if b then y_data s !! n else None)).
Proof. intros Hn Hl. view_remote n Hn Hl. eauto 15. Qed.

Lemma remote_inval n out : n ≠ o → y_latch s !! n = Some (Holder (WInval out)) → ∃ f x,
  y_frames s !! n = Some f ∧ y_data s !! n = Some x ∧ (io_ok pid f ∨ hot_ok pid n f) ∧
  d_gr A !! n = Some (mkGrant (bf_pVersion f) EXCLUSIVE out (Some x)).
Proof. intros Hn Hl. view_remote n Hn Hl. eauto 10. Qed.

Lemma remote_copy n type w id r : n ≠ o → y_latch s !! n = Some (Holder (WCopy type w id r)) → ∃ f p,
  y_frames s !! n = Some f ∧ io_ok pid f ∧ type ≠ LS_EXCLUSIVE ∧ is_u64 w ∧ id ∈ bset w ∧ o ∉ bset w ∧
  (if decide (r = Some WithPage) then p = y_data s !! n ∧ is_Some (y_data s !! n) else p = None) ∧
  d_gr A !! n = Some (mkGrant (bf_pVersion f) SHARED ∅ p).
Proof. intros Hn Hl. view_remote n Hn Hl. eauto 15. Qed.

Lemma remote_update n old r : n ≠ o → y_latch s !! n = Some (Holder (WUpdate old r)) → ∃ f x,
  y_frames s !! n = Some f ∧ y_data s !! n = Some x ∧ hot_ok pid n f ∧ bf_possession f = SHARED ∧
  bf_pVersion f = old + 1 ∧ 0 <= old ∧
  (((r = None ∨ ∃ msg, r = Some msg ∧ purr_result msg = UpdateFailed) ∧
     d_gr A !! n = Some (mkGrant old SHARED ∅ (Some x))) ∨
   (∃ msg w, r = Some msg ∧ purr_result msg = UpdateSucceedWithSharedConflict ∧ purr_conflict msg = Some w ∧
     purr_pVersion msg = Some (old + 1) ∧ is_u64 w ∧
     d_gr A !! n = Some (mkGrant (old + 1) EXCLUSIVE (bset w ∖ {[n]}) (Some x)))).
Proof.
  intros Hn Hl. view_remote n Hn Hl.
  - exists f, x. split_and!; try done. by left.
  - exists f, x. split_and!; try done. right. by eauto 10.
Qed.

Lemma remote_not_read n t : n ≠ o → y_latch s !! n ≠ Some (Holder (ReadSSD t)).
Proof. intros Hn Hl. view_remote n Hn Hl. Qed.

Lemma remote_evict n e : n ≠ o → y_latch s !! n = Some (Holder (WEvict e)) → e ≠ EvAnswered true → ∃ f x,
  y_frames s !! n = Some f ∧ y_data s !! n = Some x ∧ hot_ok pid n f ∧
  d_gr A !! n = Some (mkGrant (bf_pVersion f) (bf_possession f) ∅ (Some x)).
Proof. intros Hn Hl He. view_remote n Hn Hl; [|done]. eauto 10. Qed.

Lemma remote_evicted n : n ≠ o → y_latch s !! n = Some (Holder (WEvict (EvAnswered true))) → d_gr A !! n = None.
Proof. intros Hn Hl. by view_remote n Hn Hl. Qed.

Lemma remote_not_taken n k : n ≠ o → y_latch s !! n ≠ Some (Holder (WTake k)).
Proof. intros Hn Hl. view_remote n Hn Hl. Qed.

Lemma remote_not_written n (k : nat) : n ≠ o → y_latch s !! n ≠ Some (Writing k).
Proof. intros Hn Hl. view_remote n Hn Hl. Qed.

(** A remote node whose frame is not latched exclusively. *)
Lemma remote_free n f : n ≠ o → y_frames s !! n = Some f → (∀ pc, y_latch s !! n ≠ Some (Holder pc)) →
  (∃ x, y_data s !! n = Some x ∧ hot_ok pid n f ∧
     d_gr A !! n = Some (mkGrant (bf_pVersion f) (bf_possession f) ∅ (Some x))) ∨
  (y_latch s !! n = None ∧ io_ok pid f ∧ bf_mhWaiting f = true ∧
     d_gr A !! n = Some (mkGrant (bf_pVersion f) SHARED ∅ None)).
Proof.
  intros Hn Hf Hl. pose proof (si_remote _ _ _ Hs n Hn) as Hr. rewrite Hf in Hr.
  remember (y_latch s !! n) as l eqn:El. remember (d_gr A !! n) as g eqn:Eg. remember (y_data s !! n) as d eqn:Ed.
  remember (Some f) as fo eqn:Ef.
  destruct Hr; simplify_eq; try (by destruct (Hl _ eq_refl)).
  - left. eauto.
  - right. eauto.
Qed.

Lemma remote_absent n : n ≠ o → y_frames s !! n = None → y_latch s !! n = None ∧ d_gr A !! n = None.
Proof.
  intros Hn Hf. pose proof (si_remote _ _ _ Hs n Hn) as Hr. rewrite Hf in Hr.
  remember (y_latch s !! n) as l eqn:El. remember (d_gr A !! n) as g eqn:Eg.
  remember (None : option BufferFrame) as fo eqn:Ef. destruct Hr; done.
Qed.

(** ** The owner, by the state of its latch *)

Lemma owner_free f : y_frames s !! o = Some f → (∀ pc, y_latch s !! o ≠ Some (Holder pc)) →
  dir_ok pid (d_v A) (d_m A) (d_h A) (d_gr A !! o) f (y_data s !! o).
Proof.
  intros Hf Hl. pose proof (si_owner _ _ _ Hs) as Hr. rewrite Hf in Hr.
  remember (y_latch s !! o) as l eqn:El. remember (d_gr A !! o) as g eqn:Eg. remember (y_data s !! o) as d eqn:Ed.
  remember (Some f) as fo eqn:Ef.
  destruct Hr; simplify_eq; try (by destruct (Hl _ eq_refl)); done.
Qed.

Lemma owner_using : y_latch s !! o = Some (Holder Using) → ∃ f, y_frames s !! o = Some f ∧
  dir_ok pid (d_v A) (d_m A) (d_h A) (d_gr A !! o) f (y_data s !! o) ∧ bf_possession f = EXCLUSIVE ∧ bf_state f = HOT.
Proof. intros Hl. view_owner Hl. eauto. Qed.

Lemma owner_readers (k : nat) : y_latch s !! o = Some (Readers k) → ∃ f, y_frames s !! o = Some f ∧
  dir_ok pid (d_v A) (d_m A) (d_h A) (d_gr A !! o) f (y_data s !! o).
Proof. intros Hl. view_owner Hl. eauto. Qed.

Lemma owner_absent : y_frames s !! o = None → y_latch s !! o = None ∧ d_v A = 0 ∧ d_h A = ∅ ∧ d_gr A !! o = None.
Proof.
  intros Hf. pose proof (si_owner _ _ _ Hs) as Hr. rewrite Hf in Hr.
  remember (y_latch s !! o) as l eqn:El. remember (d_gr A !! o) as g eqn:Eg.
  remember (None : option BufferFrame) as fo eqn:Ef. destruct Hr; done.
Qed.

Lemma owner_read type : y_latch s !! o = Some (Holder (ReadSSD type)) → ∃ f, y_frames s !! o = Some f ∧
  obase_ok pid f ∧ bf_pVersion f = d_v A ∧ d_h A = ∅ ∧ is_Some (bf_page f) ∧ d_gr A !! o = None ∧
  (if type is Some _ then bf_possession f = NOBODY ∧ bf_possessors f = 0
   else bf_possession f = SHARED ∧ bf_possessors f = sb64_set 0 o ∧ bf_state f = HOT).
Proof. intros Hl. view_owner Hl. eauto 15. Qed.

Lemma owner_move type id b : y_latch s !! o = Some (Holder (WMove type id b)) → ∃ f, y_frames s !! o = Some f ∧
  self_ok pid (d_v A) (d_h A) f ∧ d_m A = desired type ∧ (b = true → is_Some (y_data s !! o)) ∧
  d_gr A !! o = Some (mkGrant (d_v A) (d_m A) (if b then ∅ else {[id]}) (if b then y_data s !! o else None)).
Proof. intros Hl. view_owner Hl. eauto 15. Qed.

Lemma owner_move_rnd id rest b : y_latch s !! o = Some (Holder (WMoveRnd id rest b)) → ∃ f, y_frames s !! o = Some f ∧
  self_ok pid (d_v A) (d_h A) f ∧ d_m A = EXCLUSIVE ∧ (b = true → is_Some (y_data s !! o)) ∧ is_u64 rest ∧ id ∉ bset rest ∧
  d_gr A !! o = Some (mkGrant (d_v A) (d_m A) ((if b then ∅ else {[id]}) ∪ bset rest) (if b then y_data s !! o else None)).
Proof. intros Hl. view_owner Hl. eauto 15. Qed.

Lemma owner_inval out : y_latch s !! o = Some (Holder (WInval out)) → ∃ f x, y_frames s !! o = Some f ∧
  y_data s !! o = Some x ∧ self_ok pid (d_v A) (d_h A) f ∧ d_m A = EXCLUSIVE ∧
  d_gr A !! o = Some (mkGrant (d_v A) (d_m A) out (Some x)).
Proof. intros Hl. view_owner Hl. eauto 15. Qed.

Lemma owner_copy type w id r : y_latch s !! o = Some (Holder (WCopy type w id r)) → ∃ f, y_frames s !! o = Some f ∧
  obase_ok pid f ∧ bf_pVersion f = d_v A ∧ bf_possession f = SHARED ∧ bf_state f = EVICTED ∧ is_Some (bf_page f) ∧
  d_m A = SHARED ∧ type ≠ LS_EXCLUSIVE ∧ w = bf_possessors f ∧ id ∈ bset w ∧ o ∉ bset w ∧
  (if decide (r = Some WithPage) then d_h A = {[o]} ∪ bset w ∧ d_gr A !! o = Some (mkGrant (d_v A) SHARED ∅ (y_data s !! o)) ∧ is_Some (y_data s !! o)
   else d_h A = bset w ∧ d_gr A !! o = None).
Proof. intros Hl. view_owner Hl. exists f. split_and!; done. Qed.

Lemma owner_writing (k : nat) : y_latch s !! o = Some (Writing k) → ∃ f, y_frames s !! o = Some f ∧
  dir_ok pid (d_v A) (d_m A) (d_h A) (d_gr A !! o) f (y_data s !! o) ∧ bf_state f = HOT ∧ bf_dirty f = true.
Proof. intros Hl. view_owner Hl. eauto. Qed.

Lemma owner_take n : y_latch s !! o = Some (Holder (WTake n)) → ∃ f, y_frames s !! o = Some f ∧
  obase_ok pid f ∧ bf_pVersion f = d_v A ∧ bf_possession f = d_m A ∧ bf_state f = HOT ∧ is_Some (bf_page f) ∧ d_m A ≠ NOBODY ∧
  n ∈ d_h A ∧ n ≠ o ∧ holders f = {[o]} ∪ d_h A ∖ {[n]} ∧
  (o ∉ d_h A ∧ d_gr A !! o = None ∨
   o ∈ d_h A ∧ is_Some (y_data s !! o) ∧ d_gr A !! o = Some (mkGrant (d_v A) (d_m A) ∅ (y_data s !! o))).
Proof. intros Hl. view_owner Hl. eauto 20. Qed.

(** The owner does not wait for an answer of itself. *)
Lemma owner_not_remote pc : y_latch s !! o = Some (Holder pc) →
  match pc with WaitPR _ _ | WUpdate _ _ | WEvict _ => False | _ => True end.
Proof. intros Hl. destruct pc; try done; view_owner Hl. Qed.

(** The version of the owner's frame is the version of the directory. *)
Lemma owner_version f : y_frames s !! o = Some f → bf_pVersion f = d_v A ∧ 0 <= d_v A.
Proof.
  intros Hf. pose proof (si_owner _ _ _ Hs) as Hr. rewrite Hf in Hr.
  remember (d_gr A !! o) as g eqn:Eg. remember (Some f) as fo eqn:Ef.
  destruct Hr as [| f' ? ? (?&?&?) ?| f' ? ? ? Hd| f' ? ? Hd| f' ? ? ? ? Hd| f' ? ? ? ? Hd| f' ? ? Hd| f' ? ? ? ? ? (?&?&?) ?| f' ? ? ? Hd| f' ? ? ? (?&?&?) ?]; simplify_eq;
    try (destruct Hd as ((?&?&?)&?&?)); (split; [done|lia]).
Qed.

Lemma next_version n g : version_left pid s → dinv o A → d_gr A !! n = Some g → 0 <= d_v A ∧ d_v A + 1 < 2 ^ 64.
Proof.
  intros Hver HA Hg. destruct (y_frames s !! o) as [f|] eqn:Hf.
  - destruct (owner_version f Hf) as [<- ?]. split; [done|]. by apply Hver.
  - destruct (owner_absent Hf) as (_ & _ & Hh & _). destruct (di_empty _ _ HA Hh) as [Hgr _]. by rewrite Hgr in Hg.
Qed.

End views.
