(* ===== verification/CoherenceSteps.v ===== *)
(** * The actions of the workers and the use of the page *)

From S2P Require Import Prelude Defs Bitmap RingBuffer BufferFrame Eviction Messages Protocol Directory Coherence CoherenceInv CoherenceSim CoherenceView.
Local Open Scope Z_scope.

Section workers.
Context {V : Type} (pid : Z).
Notation o := (owner pid).
Hypothesis Ho : is_node o.
Variables (s : @sys V) (A : dstate V).
Hypotheses (HA : dinv o A) (Hs : sim pid s A).
Implicit Types (f : BufferFrame) (n k : Z).

Lemma known_node n f : y_frames s !! n = Some f → is_node n.
Proof. intros Hf. apply (si_nodes _ _ _ Hs). by rewrite Hf. Qed.

(** ** Use of the page *)

Lemma write_ok n x : allowed pid (write n x s) A.
Proof.
  unfold write. destruct (y_latch s !! n) as [[| |[]]|] eqn:Hl; try (by left).
  right. destruct (decide (n = o)) as [->|Hn].
  - destruct (owner_using _ _ _ Hs Hl) as (f & Hf & Hdir & Hx & Hhot).
    pose proof Hdir as (Hb & Hv & Hm & Hne & Hh & Hh' & [(_ & Hin & Hpg & Hd & Hg)|(? & _)]); [|congruence].
    assert (d_m A = EXCLUSIVE) as Hmx by congruence. rewrite Hmx in *.
    eexists _, _. split; [done|]. split; [right; by apply (d_write o A o _ x (conj Hg (conj eq_refl Hd)))|].
    apply (sim_owner pid Ho s _ A); try done; [right; by apply (d_write o A o _ x (conj Hg (conj eq_refl Hd)))|others| |congruence].
    at_node. rewrite Hf, Hl, Hmx. apply or_using; [|done..].
    unfold dir_ok. split_and!; try done. left. by split_and!.
  - destruct (remote_using _ _ _ Hs n Hn Hl) as (f & y & Hf & Hd & Hhot & Hx & Hg).
    eexists _, _. split; [done|].
    assert (dstep o A (mkD (<[n := mkGrant (bf_pVersion f) EXCLUSIVE ∅ (Some x)]> (d_gr A)) (d_v A) (d_m A) (d_h A) (d_ssd A) x)) as Hst.
    { apply (d_write o A n (mkGrant (bf_pVersion f) EXCLUSIVE ∅ (Some y)) x); [split; [exact Hg|split; [done|by eexists]]|done]. }
    split; [by right|].
    apply (sim_remote pid s _ A _ n); try done; [by right|others|by eapply known_node| |no_source|].
    + at_node. rewrite Hf, Hl. by apply rr_using.
    + apply (waits_at pid s _ n); [apply (si_waits _ _ _ Hs)|others| |congruence].
      at_node. intros f' _ Hf' Hm. by eauto.
Qed.

(** The latch is released: the node is at rest. *)
Lemma release_ok n : allowed pid (release n s) A.
Proof.
  unfold release. destruct (y_latch s !! n) as [[k|k|[]]|] eqn:Hl; try (by left).
  - assert (∀ l, (l = None ∨ ∃ k : nat, l = Some (Readers k)) → ∀ s', (∀ m, m ≠ n → same_at s s' m) →
      y_frames s' = y_frames s → y_data s' = y_data s → y_ssd s' = y_ssd s → y_last s' = y_last s →
      y_latch s' !! n = l → allowed pid (Ok s') A) as Hrest.
    { intros l Hk s' Hsame Hf' Hd' Hssd Hlast Hl'. right. exists s', A. split; [done|]. split; [by left|].
      destruct (decide (n = o)) as [->|Hn].
      - destruct (owner_readers _ _ _ Hs _ Hl) as (f & Hf & Hdir).
        apply (sim_owner pid Ho s _ A); try done; [by left| |by rewrite Hlast; apply (si_last _ _ _ Hs)| |congruence].
        + intros m Hm. split; [by apply Hsame|done].
        + rewrite Hf', Hd', Hl', Hf. by apply or_rest.
      - destruct (remote_readers _ _ _ Hs n _ Hn Hl) as (f & x & Hf & Hd & Hhot & Hg).
        apply (sim_worker pid s _ A n); try done; rewrite ?Hf', ?Hl', ?Hd', ?Hf, ?Hd, ?Hg.
        + by eapply known_node.
        + by apply rr_rest.
        + intros w v [_ Hc]. rewrite Hl' in Hc. naive_solver.
        + by eauto.
        + congruence. }
    destruct k as [|[|k]]; [eapply (Hrest None); [by left|..]|eapply (Hrest None); [by left|..]|
      eapply (Hrest (Some (Readers (S k)))); [right; by eauto|..]]; try done; try others; by at_node.
  - destruct k as [|k]; [by left|]. right. eexists _, A. split; [done|]. split; [by left|].
    destruct (decide (n = o)) as [->|Hn]; [|by apply (remote_not_written _ _ _ Hs n _ Hn) in Hl].
    destruct (owner_writing _ _ _ Hs _ Hl) as (f & Hf & Hdir & Hhot & Hdirty).
    apply (sim_owner pid Ho s _ A); try done; [by left|others|apply (si_last _ _ _ Hs)| |congruence].
    at_node. rewrite Hf. by apply or_writing.
  - right. eexists _, A. split; [done|]. split; [by left|].
    destruct (decide (n = o)) as [->|Hn].
    + destruct (owner_using _ _ _ Hs Hl) as (f & Hf & Hdir & Hx & Hhot).
      apply (sim_owner pid Ho s _ A); try done; [by left|others|apply (si_last _ _ _ Hs)| |congruence].
      at_node. rewrite Hf. apply or_rest; [done|by left].
    + destruct (remote_using _ _ _ Hs n Hn Hl) as (f & y & Hf & Hd & Hhot & Hx & Hg).
      apply (sim_worker pid s _ A n); try done; [by eapply known_node|others| |no_source| |congruence].
      * at_node. rewrite Hf, Hd, Hg, <- Hx. apply rr_rest; [done|by left].
      * at_node. by eauto.
Qed.

(** ** The next step of a worker *)

(** What is left to do fits the grant the node has. *)
Definition todo_ok n type (t : todo) f (m : POSSESSION) (need : gset Z) (p : option V) : Prop :=
  match t with
  | TDone => need = ∅ ∧ p = y_data s !! n ∧ is_Some p ∧ m = desired type ∧ base_ok pid f ∧ (type = LS_EXCLUSIVE ∨ bf_possessors f = 0)
  | TMove id => need = {[id]} ∧ p = None ∧ m = desired type ∧ io_ok pid f
  | TMoveRnd w => need = bset w ∧ bset w ≠ ∅ ∧ p = None ∧ type = LS_EXCLUSIVE ∧ m = EXCLUSIVE ∧ io_ok pid f ∧ is_u64 w
  | TInvalidate w => need = bset w ∧ p = y_data s !! n ∧ is_Some p ∧ m = EXCLUSIVE ∧ (io_ok pid f ∨ hot_ok pid n f) ∧ is_u64 w
  | TCopy w => need = ∅ ∧ p = None ∧ type ≠ LS_EXCLUSIVE ∧ m = SHARED ∧ io_ok pid f ∧ is_u64 w ∧ bset w ≠ ∅ ∧ o ∉ bset w ∧
      bf_pVersion f <= d_v A ∧ ∀ j g, j ∈ bset w → d_gr A !! j = Some g → bf_pVersion f <= g_v g
  end.

Lemma resolve_remote n type raw t f m need p pc :
  n ≠ o → is_u64 raw → y_frames s !! n = Some f → y_latch s !! n = Some (Holder pc) → (∀ out, pc ≠ WInval out) →
  d_gr A !! n = Some (mkGrant (bf_pVersion f) m need p) → todo_ok n type t f m need p →
  allowed pid (resolve pid n type raw t s) A.
Proof.
  intros Hn Hraw Hf Hl Hpc Hg Ht.
  assert (∀ pc', (∀ out', y_latch s !! n = Some (Holder (WInval out')) → out' = ∅) →
     remote_rel pid n (Some f) (Some (Holder pc')) (y_data s !! n) (d_gr A !! n) →
     (∀ w v, copy_source pid (put_l n (Holder pc') s) n w v → v <= d_v A ∧ ∀ j g, j ∈ bset w → d_gr A !! j = Some g → v <= g_v g) →
     allowed pid (Ok (put_l n (Holder pc') s)) A) as Hput.
  { intros pc' Hi Hrel Hsrc. right. eexists _, A. split; [done|]. split; [by left|].
    apply (sim_worker pid s _ A n); try done; [by eapply known_node|others| |].
    - at_node. by rewrite Hf.
    - at_node. by eauto. }
  assert (∀ out', y_latch s !! n = Some (Holder (WInval out')) → out' = ∅) as Hi
    by (intros out E; destruct (Hpc out); congruence).
  destruct t; cbn [resolve todo_ok] in *.
  - destruct Ht as (-> & Hp & [x ->] & -> & Hb & Hw).
    apply (finish_remote pid s A n type TDone f x pc); try done. intros out ->. by destruct (Hpc out).
  - destruct Ht as (-> & -> & -> & Hio). apply Hput; [done| |no_source].
    rewrite Hg. by apply (rr_move pid n f type id false).
  - destruct Ht as (-> & Hne & -> & -> & -> & Hio & Hw).
    destruct (pick_ok raw shared Hw Hraw Hne) as (id & -> & Hid). cbn [mbind result_bind].
    pose proof (bset_range _ _ Hid) as Hidr. apply Hput; [done| |no_source].
    rewrite Hg. replace (bset shared) with ({[id]} ∪ bset (sb64_reset shared id))
      by (rewrite bset_reset by done; rewrite <- union_difference_L; [done|set_solver]).
    apply (rr_move_rnd pid n f id _ false); try done; [by apply sb64_reset_u64|]. rewrite bset_reset by done. set_solver.
  - destruct Ht as (-> & Hp & [x ->] & -> & Hb & Hw). rewrite sharers_ok by done. cbn [mbind result_bind].
    apply Hput; [done| |no_source]. rewrite Hg, <- Hp. by apply rr_inval.
  - destruct Ht as (-> & -> & Hne & -> & Hio & Hw & Hsh & How & Hle & Hsrc).
    destruct (pick_ok raw shared Hw Hraw Hsh) as (id & -> & Hid). cbn [mbind result_bind].
    apply Hput; [done| |].
    + rewrite Hg. by apply rr_copy.
    + intros w v [_ [(? & ? & E & _)|(ty & i & r & f' & E & Ef & <-)]]; revert E; at_node; [done|].
      intros [= <- <- <- <-]. cbn in Ef. rewrite Hf in Ef. injection Ef as <-. done.
Qed.

End workers.

Section resume.
Context {V : Type} (pid : Z).
Notation o := (owner pid).
Hypothesis Ho : is_node o.
Variables (s : @sys V) (A : dstate V).
Hypotheses (HA : dinv o A) (Hs : sim pid s A).
Implicit Types (f : BufferFrame) (n k : Z).

(** A worker that holds its latch changes its frame. *)
Lemma sim_put_frame n f f' pc :
  n ≠ o → y_frames s !! n = Some f → y_latch s !! n = Some (Holder pc) → (∀ out, pc ≠ WInval out) →
  (∀ type w id r, pc ≠ WCopy type w id r) → bf_mhWaiting f' = bf_mhWaiting f →
  remote_rel pid n (Some f') (Some (Holder pc)) (y_data s !! n) (d_gr A !! n) →
  sim pid (put_f n f' s) A.
Proof.
  intros Hn Hf Hl Hpc Hcp Hm Hrel.
  apply (sim_worker pid s _ A n); try done.
  - by eapply known_node.
  - others.
  - at_node. by rewrite Hl.
  - intros w v [_ Hc]. apply (si_sources _ _ _ Hs n). split; [done|].
    destruct Hc as [Hc|(ty & i & r & f0 & E & _)]; [by left|]. cbn in E. rewrite Hl in E. injection E as ->. by destruct (Hcp ty w i r).
  - at_node. intros f0 _ [= <-] E. exists f. split; [done|congruence].
  - intros out E. destruct (Hpc out). congruence.
Qed.

Lemma resume_pr_ok n raw : is_u64 raw → allowed pid (resume_pr pid n raw s) A.
Proof.
  intros Hraw. unfold resume_pr. destruct (y_latch s !! n) as [[| |[]]|] eqn:Hl; try (by left).
  destruct r as [msg|]; [|by left].
  destruct (decide (n = o)) as [->|Hn]; [by apply (owner_not_remote _ _ _ Hs) in Hl|].
  destruct (remote_answered _ _ _ Hs n type msg Hn Hl) as (f & v & need & p & Hf & Hio & Hv & Hv0 & Hresp & Hg).
  unfold frame_of. rewrite Hf. cbn [of_option mbind result_bind].
  assert (io_ok pid (set_pVersion v f)) as Hio' by (destruct Hio as ((?&?&?&?)&?&?&?); by split_and!).
  assert (sim pid (put_f n (set_pVersion v f) s) A) as Hs'.
  { eapply sim_put_frame; try done. rewrite Hg. by apply (rr_response pid n _ type msg _ v need p). }
  assert (∀ t, todo_ok pid (put_f n (set_pVersion v f) s) A n type t (set_pVersion v f) (desired type) need p →
     allowed pid (resolve pid n type raw t (put_f n (set_pVersion v f) s)) A) as Hres.
  { intros t Ht. eapply (resolve_remote pid Ho _ A HA Hs' n type raw t (set_pVersion v f)); try done; at_node; done. }
  assert (type = LS_EXCLUSIVE → desired type = EXCLUSIVE) as Hdx by (by intros ->).
  assert (type ≠ LS_EXCLUSIVE → desired type = SHARED) as Hds by (by unfold desired; case_decide).
  unfold remote_response. rewrite Hv. cbn [of_option mbind result_bind]. unfold response_ok in Hresp.
  pose proof Hio' as (Hb' & _ & _ & Hw0).
  destruct (prr_result msg) eqn:Er; try done; cbn [mbind result_bind].
  - destruct Hresp as (-> & -> & Hd). apply Hres. split_and!; try done. by right.
  - destruct Hresp as (w & -> & Hw & -> & Hne & -> & ->). cbn [of_option mbind result_bind].
    rewrite bset_any by done. rewrite bool_decide_eq_true_2 by done. cbn [ensure mbind result_bind]. apply Hres. by split_and!.
  - destruct Hresp as (c & -> & -> & ->). cbn [of_option mbind result_bind]. apply Hres. by split_and!.
  - destruct Hresp as (w & -> & Hw & -> & Hne & -> & Hd & ->). cbn [of_option mbind result_bind].
    rewrite bset_any by done. rewrite bool_decide_eq_true_2 by done. cbn [ensure mbind result_bind]. apply Hres. split_and!; try done. by left.
  - destruct Hresp as (w & Hc & Hw & Hne & How & -> & -> & Hty). rewrite Hc. cbn [of_option mbind result_bind].
    rewrite bset_any by done. rewrite bool_decide_eq_true_2 by done. cbn [ensure mbind result_bind].
    destruct (si_sources _ _ _ Hs n w v) as [Hle Hsrc]; [split; [done|]; left; by eauto 10|].
    apply Hres. split_and!; try done. by apply Hds.
Qed.

Lemma resume_move_ok n : allowed pid (resume_move pid n s) A.
Proof.
  unfold resume_move. destruct (y_latch s !! n) as [[| |[]]|] eqn:Hl; try (by left).
  - destruct answered; [|by left]. destruct (decide (n = o)) as [->|Hn].
    + destruct (owner_move _ _ _ Hs _ _ _ Hl) as (f & Hf & Hself & Hm & [x Hd] & Hg); [done|].
      rewrite Hd, Hm in Hg. by eapply (finish_owner pid Ho s A type (TMove id)).
    + destruct (remote_move _ _ _ Hs n _ _ _ Hn Hl) as (f & Hf & Hio & [x Hd] & Hg); [done|].
      rewrite Hd in Hg. destruct Hio as (Hb & _ & _ & Hw).
      eapply (finish_remote pid s A n type (TMove id)); try done. by right.
  - destruct answered; [|by left]. destruct (decide (n = o)) as [->|Hn].
    + destruct (owner_move_rnd _ _ _ Hs _ _ _ Hl) as (f & Hf & Hself & Hm & [x Hd] & Hw & Hid & Hg); [done|].
      rewrite sharers_ok by done. cbn [mbind result_bind]. right. eexists _, A. split; [done|]. split; [by left|].
      apply (sim_owner pid Ho s _ A); try done; [by left|others|by apply (si_last _ _ _ Hs)| |congruence].
      at_node. rewrite Hf, Hd, Hg, Hd, union_empty_l_L. by apply or_inval.
    + destruct (remote_move_rnd _ _ _ Hs n _ _ _ Hn Hl) as (f & Hf & Hio & [x Hd] & Hw & Hid & Hg); [done|].
      rewrite sharers_ok by done. cbn [mbind result_bind]. right. eexists _, A. split; [done|]. split; [by left|].
      apply (sim_worker pid s _ A n); try done; [by eapply known_node|others| |no_source| |congruence].
      * at_node. rewrite Hf, Hd, Hg, Hd, union_empty_l_L. apply rr_inval. by left.
      * at_node. by eauto.
Qed.

Lemma resume_inval_ok n : allowed pid (resume_inval pid n s) A.
Proof.
  unfold resume_inval. destruct (y_latch s !! n) as [[| |[]]|] eqn:Hl; try (by left).
  case_bool_decide as Hout; [|by left]. subst out. cbn [when mbind result_bind].
  destruct (decide (n = o)) as [->|Hn].
  - destruct (owner_inval _ _ _ Hs _ Hl) as (f & x & Hf & Hd & Hself & Hm & Hg). rewrite Hm in Hg.
    eapply (finish_owner pid Ho s A LS_EXCLUSIVE); try done. by intros out [= <-].
  - destruct (remote_inval _ _ _ Hs n _ Hn Hl) as (f & x & Hf & Hd & Hb & Hg).
    eapply (finish_remote pid s A n LS_EXCLUSIVE); try done; [by intros out [= <-]| |by left].
    by destruct Hb as [(?&?)|(?&?)].
Qed.

Lemma resume_copy_ok n raw : is_u64 raw → allowed pid (resume_copy pid n raw s) A.
Proof.
  intros Hraw. unfold resume_copy. destruct (y_latch s !! n) as [[| |[]]|] eqn:Hl; try (by left).
  destruct r as [r|]; [|by left]. destruct (decide (n = o)) as [->|Hn].
  - destruct (owner_copy _ _ _ Hs _ _ _ _ Hl) as (f & Hf & Hb & Hv & Hp & Hst & Hpg & Hm & Hty & -> & Hid & Ho' & Hr).
    destruct (decide (r = WithPage)) as [->|Hne].
    + rewrite decide_True in Hr by done. destruct Hr as (Hh & Hg & [x Hd]). rewrite Hd in Hg.
      by eapply (finish_owner_copy pid Ho s A type _ f x).
    + rewrite decide_False in Hr by congruence. destruct Hr as (Hh & Hg).
      unfold frame_of. rewrite Hf. cbn [of_option mbind result_bind]. rewrite Z.eqb_refl.
      unfold local_copy_failed. rewrite bool_decide_eq_true_2 by done. cbn [ensure mbind result_bind].
      right. eexists _, A. split; [done|]. split; [by left|].
      apply (sim_owner pid Ho s _ A); try done; [by left|others|by apply (si_last _ _ _ Hs)| |congruence].
      at_node. apply or_rest; [|by left]. unfold dir_ok, obase_ok, holders. cbn. rewrite Hp, Hh.
      destruct Hb as (? & ? & ?). split_and!; try done; [congruence|by eapply elem_nonempty|]. by right.
  - destruct (remote_copy _ _ _ Hs n _ _ _ _ Hn Hl) as (f & p & Hf & Hio & Hty & Hw & Hid & How & Hp & Hg).
    destruct (decide (r = WithPage)) as [->|Hne].
    + rewrite decide_True in Hp by done. destruct Hp as (-> & [x Hd]). rewrite Hd in Hg.
      destruct Hio as (Hb & _ & _ & Hw0).
      eapply (finish_remote pid s A n type); try done; [by right|]. rewrite Hg. unfold desired. by rewrite decide_False.
    + rewrite decide_False in Hp by congruence. subst p.
      unfold frame_of. rewrite Hf. cbn [of_option mbind result_bind]. rewrite (proj2 (Z.eqb_neq n o)) by done.
      destruct (bf_mhWaiting f) eqn:Hmh.
      * right. eexists _, A. split; [done|]. split; [by left|].
        apply (sim_worker pid s _ A n); try done; [by eapply known_node|others| |no_source| |congruence].
        -- at_node. rewrite Hf, Hg. by apply rr_stuck.
        -- at_node. by eauto.
      * destruct (pick_ok raw shared Hw Hraw) as (id' & -> & Hid'); [by eapply elem_nonempty|].
        cbn [mbind result_bind]. right. eexists _, A. split; [done|]. split; [by left|].
        apply (sim_worker pid s _ A n); try done; [by eapply known_node|others| | | |congruence].
        -- at_node. rewrite Hf, Hg. by apply rr_copy.
        -- intros w v [_ [(? & ? & E & _)|(ty & i & r' & f' & E & Ef & <-)]]; revert E; at_node; [done|].
           intros [= <- <- <- <-]. cbn in Ef. apply (si_sources _ _ _ Hs n). split; [done|]. right. by eauto 10.
        -- at_node. by eauto.
Qed.

Lemma resume_update_ok n raw : is_u64 raw → allowed pid (resume_update pid n raw s) A.
Proof.
  intros Hraw. unfold resume_update. destruct (y_latch s !! n) as [[| |[]]|] eqn:Hl; try (by left).
  destruct r as [msg|]; [|by left].
  destruct (decide (n = o)) as [->|Hn]; [by apply (owner_not_remote _ _ _ Hs) in Hl|].
  destruct (remote_update _ _ _ Hs n _ _ Hn Hl) as (f & x & Hf & Hd & Hhot & Hp & Hv & Hv0 & Hr).
  unfold frame_of. rewrite Hf. cbn [of_option mbind result_bind]. unfold update_response.
  assert (∀ v, 0 <= v → hot_ok pid n (set_pVersion v f)) as Hhot' by (intros v ?; destruct Hhot as ((?&?&?&?)&?&?); by split_and!).
  destruct Hr as [([|(msg' & [= <-] & Hres)] & Hg)|(msg' & w & [= <-] & Hres & Hc & Hmv & Hw & Hg)]; [done| |].
  - rewrite decide_True by done. cbn [mbind result_bind]. right. eexists _, A. split; [done|]. split; [by left|].
    apply (sim_worker pid s _ A n); try done; [by eapply known_node|others| |no_source| |congruence].
    + at_node. rewrite Hd, Hg. rewrite <- Hp. apply (rr_rest pid n (set_pVersion pVersionOld f) None x); [by apply Hhot'|by left].
    + at_node. intros f' _ [= <-] Hm. by eauto.
  - rewrite decide_False by congruence. rewrite Hmv. cbn [of_option mbind result_bind].
    rewrite Hv, Z.eqb_refl. cbn [ensure mbind result_bind]. rewrite decide_True by done. rewrite Hc. cbn [of_option mbind result_bind].
    assert (sim pid (put_f n (set_pVersion (pVersionOld + 1) f) s) A) as Hs'.
    { eapply sim_put_frame; try done. rewrite Hg, Hd. apply rr_updated; try done. apply Hhot'. lia. }
    eapply (resolve_remote pid Ho _ A HA Hs' n _ raw _ (set_pVersion (pVersionOld + 1) f) EXCLUSIVE _ (Some x)); try done; at_node; try done.
    pose proof (known_node _ _ _ Hs n f Hf). rewrite <- bset_reset by done.
    split_and!; try done; [right; apply Hhot'; lia|by apply sb64_reset_u64].
Qed.

Lemma set_possessors_id f : bf_possessors f = 0 → set_possessors 0 f = f.
Proof. destruct f. unfold set_possessors. cbn. by intros ->. Qed.

(** The owner loads the page. *)
Lemma read_done_ok : allowed pid (read_done pid s) A.
Proof.
  unfold read_done. destruct (y_latch s !! o) as [[| |[]]|] eqn:Hl; try (by left).
  destruct (owner_read _ _ _ Hs _ Hl) as (f & Hf & (Hp & Hu & Hv0) & Hv & Hh & Hpg & Hg & Ht).
  destruct (di_empty _ _ HA Hh) as [Hgr Hssd].
  assert (∀ m s', m ≠ NOBODY → (∀ m, m ≠ o → same_at s s' m) → y_ssd s' = y_ssd s → y_last s' = y_last s →
     owner_rel pid (d_v A) m {[o]} (Some (mkGrant (d_v A) m ∅ (Some (y_ssd s)))) (y_frames s' !! o) (y_latch s' !! o) (y_data s' !! o) →
     allowed pid (Ok s') A) as Hload.
  { intros m s' Hm Hsame Hssd' Hlast Hrel. right. eexists s', _. split; [done|].
    pose proof (d_load o A m Hh Hm) as Hst. split; [by right|].
    apply (sim_owner pid Ho s _ A); try done; [by right| |by rewrite Hlast; apply (si_last _ _ _ Hs)| |congruence].
    - intros k Hk. split; [by apply Hsame|]. at_node. rewrite lookup_singleton_ne by done. by rewrite Hgr.
    - at_node. rewrite lookup_singleton_eq, <- (si_ssd _ _ _ Hs). done. }
  destruct type as [type|].
  - unfold frame_of. at_node. rewrite Hf. cbn [of_option mbind result_bind]. destruct Ht as (Hnb & Hw0).
    destruct (local_finish_ok pid Ho type (d_v A) f (Some (y_ssd s))) as (f' & Hfin & Hhot & Hdir); [by split_and!|done..|].
    assert (take_possession type o f = Ok f') as ->.
    { unfold local_finish in Hfin. rewrite (set_possessors_id f Hw0) in Hfin.
      apply bind_Ok_inv in Hfin as (f1 & -> & Hfin). apply bind_Ok_inv in Hfin as (? & _ & Hfin).
      by apply bind_Ok_inv in Hfin as (? & _ & ?). }
    cbn [mbind result_bind]. apply (Hload (desired type)); [by unfold desired; case_decide|case_decide; others|by case_decide|by case_decide|].
    case_decide; at_node; [|apply or_rest; [done|by left]].
    apply (or_using pid _ _ _ (set_dirty true f')); try done. destruct Hdir as (_ & _ & E & _). subst type. exact E.
  - destruct Ht as (Hsh & Hw & Hhot). apply (Hload SHARED); try done; [others|].
    at_node. rewrite Hf. apply or_rest; [|by left]. unfold dir_ok, obase_ok, holders. rewrite Hsh, Hw, bset_set, bset_0, union_empty_r_L by done.
    split_and!; try done; [congruence|].
    left. split_and!; try done. by apply elem_of_singleton.
Qed.

End resume.
