(* ===== verification/CoherenceFix.v ===== *)
(** * [Buffermanager::fix] enters the protocol *)

From S2P Require Import Prelude Defs Bitmap RingBuffer BufferFrame Eviction Messages Protocol Directory Coherence CoherenceInv CoherenceSim CoherenceView CoherenceSteps.
Local Open Scope Z_scope.
#[local] Existing Instance release_build.

Section fix_actions.
Context {V : Type} (pid : Z).
Notation o := (owner pid).
Hypothesis Ho : is_node o.
Variables (s : @sys V) (A : dstate V).
Hypotheses (HA : dinv o A) (Hs : sim pid s A) (Hver : version_left pid s).
Implicit Types (f : BufferFrame) (n k : Z) (type : LATCH_STATE).

(** Decides every test of a frame's state. *)
Ltac state_tests :=
  repeat match goal with
  | |- context [@decide (bf_state _ = EVICTED) ?i] =>
      destruct (@decide _ i); [try (cbn in *; congruence)|try (cbn in *; congruence)]
  end.

(** ** The page has no frame *)

Lemma fix_miss_ok n type page : is_node n → y_frames s !! n = None → allowed pid (fix_miss pid n type page s) A.
Proof.
  intros Hnode Hf. unfold fix_miss, install_frame. cbn [bf_pid bf_new].
  rewrite Z.eqb_refl. cbn [ensure mbind result_bind].
  destruct (Z.eqb_spec n o) as [->|Hn].
  - destruct (owner_absent _ _ _ Hs Hf) as (Hl & Hv & Hh & Hg).
    right. eexists _, A. split; [done|]. split; [by left|].
    apply (sim_owner pid Ho s _ A); try done; [by left|others|by apply (si_last _ _ _ Hs)| |congruence].
    at_node. rewrite Hg. by apply or_read.
  - destruct (remote_absent _ _ _ Hs n Hn Hf) as (Hl & Hg).
    unfold remote_request. cbn -[Z.eqb owner getOwner]. rewrite (proj2 (Z.eqb_neq (getOwner pid) n)) by (by intros E; apply Hn).
    rewrite bool_decide_eq_true_2 by done. cbn [ensure mbind result_bind of_option].
    right. eexists _, A. split; [done|]. split; [by left|].
    apply (sim_worker pid s _ A n); try done; [others| |no_source| |congruence].
    + at_node. rewrite Hg. by apply rr_request.
    + at_node. by intros f' _ [= <-].
Qed.

(** ** A latched frame *)

Lemma latch_cases n : (∀ pc, y_latch s !! n ≠ Some (Holder pc)) ∨ ∃ pc, y_latch s !! n = Some (Holder pc).
Proof. destruct (y_latch s !! n) as [[k|k|pc]|]; [by left|by left|right; by eexists|by left]. Qed.

Lemma fix_frame_latched n type page raw f pc : y_latch s !! n = Some (Holder pc) →
  fix_frame pid n type page raw f s = Throw WouldBlock ∨ bf_mhWaiting f = true.
Proof.
  intros Hl. unfold fix_frame. destruct (bf_mhWaiting f); [by right|]. left. rewrite Hl.
  by destruct (possession_state _ n f); [..|by destruct type| |].
Qed.

(** ** A node that does not own the page *)

Lemma fix_frame_remote n type page raw f : n ≠ o → y_frames s !! n = Some f →
  allowed pid (fix_frame pid n type page raw f s) A.
Proof.
  intros Hn Hf. destruct (bf_mhWaiting f) eqn:Hmh; [left; unfold fix_frame; by rewrite Hmh|].
  destruct (latch_cases n) as [Hfree|[pc Hl]].
  2: { left. destruct (fix_frame_latched n type page raw f pc Hl); [done|congruence]. }
  destruct (remote_free _ _ _ Hs n f Hn Hf Hfree) as [(x & Hd & Hhot & Hg)|(_ & _ & ? & _)]; [|congruence].
  pose proof Hhot as ((Hp & Hpg & Hu & Hv) & Hst & Hpos).
  assert (∀ h f', remote_rel pid n (Some f') (Some h) (Some x) (d_gr A !! n) → bf_mhWaiting f' = false →
    (∀ w v, copy_source pid (put_l n h (put_f n f' s)) n w v → False) →
    allowed pid (Ok (put_l n h (put_f n f' s))) A) as Hput.
  { intros h f' Hrel Hm Hc. right. eexists _, A. split; [done|]. split; [by left|].
    apply (sim_worker pid s _ A n); try done; [by eapply known_node|others| | | |].
    - at_node. by rewrite Hd.
    - intros w v Hcs. by destruct (Hc w v).
    - at_node. intros f0 _ [= <-]. congruence.
    - intros out E. by destruct (Hfree (WInval out)). }
  assert (∀ h, put_l n h s = put_l n h (put_f n f s)) as Hid
    by (intros h; unfold put_l, put_f; cbn; by rewrite (insert_id _ _ _ Hf)).
  assert (allowed pid (Ok s) A) as Hstay by (right; exists s, A; split; [done|split; [by left|done]]).
  assert (getOwner (bf_pid f) =? n = false) as Hown by (rewrite Hp; apply Z.eqb_neq; by intros E; apply Hn).
  unfold fix_frame, possession_state, access_ok. rewrite Hmh, Hown, Hpos, andb_true_r.
  destruct (decide (type = LS_EXCLUSIVE)) as [->|Hty].
  - case_bool_decide as Hx.
    + destruct (y_latch s !! n) as [h|] eqn:Hl; [by left|].
      apply (Hput (Holder Using) (set_dirty true f)); [|done|no_source]. rewrite Hg, Hx. by apply (rr_using pid n (set_dirty true f)).
    + case_bool_decide as Hl; cbn [when mbind result_bind]; [|by left].
      assert (bf_possession f = SHARED) as Hsh by (unfold isPossessor in Hpos; by destruct (bf_possession f)).
      unfold update_start. rewrite !bool_decide_eq_true_2 by done. cbn [ensure mbind result_bind pur_pVersion].
      apply Hput; [|done|no_source]. rewrite Hg, Hsh.
      assert (bf_pVersion (bump_pVersion f) = bf_pVersion f + 1) as Hb.
      { unfold bump_pVersion. cbn. apply u64_small.
        pose proof (next_version _ _ _ Hs n _ Hver HA Hg). destruct (di_dir _ _ HA n _ Hg) as [Hle _]. cbn in Hle. lia. }
      apply rr_update; try done; [|by left].
      destruct Hhot as ((?&?&?&?)&?&?). split_and!; try done. unfold base_ok. rewrite Hb. split_and!; try done. lia.
  - destruct type; try done; cbn [negb];
      (destruct (y_latch s !! n) as [[k|k|pc]|] eqn:Hl; [|by apply (remote_not_written _ _ _ Hs n _ Hn) in Hl|by destruct (Hfree pc)|]); try done.
    + rewrite Hid. apply Hput; [|done|no_source]. rewrite Hg. apply rr_rest; [done|]. right. by eauto.
    + rewrite Hid. apply Hput; [|done|no_source]. rewrite Hg. apply rr_rest; [done|]. right. by eauto.
Qed.
(** ** The owner *)

Lemma bump_ok f : 0 <= bf_pVersion f → bf_pVersion f + 1 < 2 ^ 64 → bf_pVersion (bump_pVersion f) = bf_pVersion f + 1.
Proof. intros. unfold bump_pVersion. cbn. apply u64_small. lia. Qed.

Lemma holders_possessor f : obase_ok pid f → o ∈ holders f ↔ isPossessor o f = true.
Proof.
  intros _. unfold holders, isPossessor. destruct (bf_possession f).
  - split; [set_solver-Hs HA|done].
  - rewrite elem_of_singleton, Z.eqb_eq. split; congruence.
  - by apply elem_of_bset.
Qed.

(** The owner asks for exclusive possession: the directory of the specification
    names it at once. *)
Definition claim (A : dstate V) : dstate V :=
  mkD (<[o := mkGrant (d_v A + 1) EXCLUSIVE (d_h A ∖ {[o]}) (d_gr A !! o ≫= g_page)]> (d_gr A))
      (d_v A + 1) EXCLUSIVE {[o]} (d_ssd A) (d_last A).

Lemma claim_step : d_h A ≠ ∅ →
  (∀ g, d_gr A !! o = Some g → g_m g = SHARED ∧ complete g) → dstep o A (claim A).
Proof.
  intros Hh Hg. assert (claim A = mkD (<[o := mkGrant (d_v A + 1) EXCLUSIVE (d_h A ∖ {[o]} ∖ {[o]}) (grant_page o A o)]>
                    (delete o (d_gr A))) (d_v A + 1) EXCLUSIVE {[o]} (d_ssd A) (d_last A)) as ->.
  { unfold claim, grant_page. rewrite insert_delete_eq. replace (d_h A ∖ {[o]} ∖ {[o]}) with (d_h A ∖ {[o]}) by sset.
    by destruct (d_gr A !! o). }
  apply (d_grant_x o A o Hh).
  - intros g Ho'. split; [by eapply (di_owner _ _ HA)|by apply Hg].
  - intros g Ho'. by apply Hg.
Qed.

(** The owner asks for shared possession of a page another node has
    exclusively. *)
Definition demand (c : Z) (A : dstate V) : dstate V :=
  mkD (<[o := mkGrant (d_v A + 1) SHARED {[c]} None]> (d_gr A)) (d_v A + 1) SHARED {[o]} (d_ssd A) (d_last A).

Lemma sim_local A' s' :
  dstep o A A' → (∀ m, m ≠ o → same_at s s' m ∧ d_gr A' !! m = d_gr A !! m) →
  y_ssd s' = y_ssd s → d_ssd A' = d_ssd A → y_last s' = y_last s → d_last A' = d_last A →
  (∀ pc, y_latch s !! o ≠ Some (Holder pc)) →
  owner_rel pid (d_v A') (d_m A') (d_h A') (d_gr A' !! o) (y_frames s' !! o) (y_latch s' !! o) (y_data s' !! o) →
  allowed pid (Ok s') A.
Proof.
  intros Hst Hsame Hssd Hssd' Hlast Hlast' Hfree Hrel. right. exists s', A'. split; [done|]. split; [by right|].
  apply (sim_owner pid Ho s _ A); try done; [by right| |].
  - rewrite Hlast, Hlast'. apply (si_last _ _ _ Hs).
  - intros out E. by destruct (Hfree (WInval out)).
Qed.

Lemma self_next f v : bf_pid f = pid → is_u64 (bf_possessors f) → is_Some (bf_page f) → bf_pVersion f = v + 1 → 0 <= v →
  self_ok pid (v + 1) {[o]} f.
Proof. intros ??? Hv ?. unfold self_ok, obase_ok. rewrite Hv. split_and!; try done. lia. Qed.

(** *** The four ways the owner starts to change its possession *)

Section local.
Variables (f : BufferFrame) (page : nat).
Hypotheses (Hf : y_frames s !! o = Some f) (Hl : y_latch s !! o = None).

Lemma local_dir : dir_ok pid (d_v A) (d_m A) (d_h A) (d_gr A !! o) f (y_data s !! o) ∧
  0 <= bf_pVersion f ∧ bf_pVersion f + 1 < 2 ^ 64 ∧ (∀ pc, y_latch s !! o ≠ Some (Holder pc)).
Proof.
  assert (∀ pc, y_latch s !! o ≠ Some (Holder pc)) as Hfree by (intros; congruence).
  pose proof (owner_free _ _ _ Hs f Hf Hfree) as Hdir. pose proof Hdir as ((_ & _ & ?) & _).
  split_and!; try done. by apply Hver.
Qed.

(** It has the page and invalidates the others. *)
Lemma local_upgrade w : bf_state f = HOT → bf_possession f = SHARED → w = sb64_reset (bf_possessors f) o →
  allowed pid (Ok (put_l o (Holder (WInval (bset w))) (put_f o (set_possessors w (bump_pVersion f)) s))) A.
Proof.
  intros Hhot Hpos ->. destruct local_dir as (((Hp & Hu & _) & Hv & Hm & Hne & Hh & Hh' & Hst) & Hv0 & Hlt & Hfree).
  destruct Hst as [(_ & Hin & Hpg & [x Hd] & Hg)|(? & _)]; [|congruence].
  apply (sim_local (claim A)); try done; [|unfold claim; others|].
  - apply claim_step; [done|]. rewrite Hg. intros g E. apply (inj Some) in E as <-.
    split; [cbn; congruence|]. split; [done|]. cbn. by rewrite Hd.
  - unfold claim. at_node. rewrite Hg, Hd. cbn [mbind option_bind g_page]. rewrite <- Hh, <- Hv.
    unfold holders. rewrite Hpos, <- bset_reset by done. apply or_inval; [|done].
    apply self_next; [exact Hp|by apply sb64_reset_u64|exact Hpg|by apply bump_ok|exact Hv0].
Qed.

(** It moves the page from the node in exclusive possession. *)
Lemma local_move type : bf_state f = EVICTED → bf_possession f = EXCLUSIVE →
  allowed pid (Ok (put_l o (Holder (WMove type (bf_possessors f) false))
                     (put_f o (bump_pVersion (set_page (Some page) f)) (drop_d o s)))) A.
Proof.
  intros Hev Hpos. destruct local_dir as (((Hp & Hu & _) & Hv & Hm & Hne & Hh & Hh' & Hst) & Hv0 & Hlt & Hfree).
  destruct Hst as [(? & _)|(_ & Hnin & Hg & Hpn)]; [congruence|].
  assert (self_ok pid (d_v A + 1) {[o]} (bump_pVersion (set_page (Some page) f))) as Hself.
  { rewrite <- Hv. apply self_next; [exact Hp|exact Hu|by eexists| |exact Hv0]. by apply (bump_ok (set_page (Some page) f)). }
  unfold holders in Hh. rewrite Hpos in Hh.
  assert (bf_possessors f ≠ o) as Hco by (intros E; apply Hnin; by rewrite <- Hh, E, elem_of_singleton).
  destruct (decide (type = LS_EXCLUSIVE)) as [->|Hty].
  - apply (sim_local (claim A)); try done; [|unfold claim; others|].
    + apply claim_step; [done|]. by rewrite Hg.
    + unfold claim. at_node. rewrite Hg, <- Hh.
      replace ({[bf_possessors f]} ∖ {[o]}) with ({[bf_possessors f]} : gset Z) by (clear -Hco; set_solver).
      by apply (or_move pid _ _ _ _ LS_EXCLUSIVE _ false).
  - apply (sim_local (demand (bf_possessors f) A)); try done; [|unfold demand; others|].
    + apply d_grant_s; [congruence|done..].
    + unfold demand. at_node.
      apply (or_move pid _ _ _ _ type _ false); try done. unfold desired. by rewrite decide_False.
Qed.

(** It moves the page from one of the nodes that share it. *)
Lemma local_move_rnd w id : bf_state f = EVICTED → bf_possession f = SHARED → w = sb64_reset (bf_possessors f) o → id ∈ bset w →
  allowed pid (Ok (put_l o (Holder (WMoveRnd id (sb64_reset w id) false))
                     (put_f o (set_possessors w (bump_pVersion (set_page (Some page) f))) (drop_d o s)))) A.
Proof.
  intros Hev Hpos -> Hid. destruct local_dir as (((Hp & Hu & _) & Hv & Hm & Hne & Hh & Hh' & Hst) & Hv0 & Hlt & Hfree).
  destruct Hst as [(? & _)|(_ & Hnin & Hg & Hpn)]; [congruence|].
  pose proof (bset_range _ _ Hid) as Hidr. unfold holders in Hh. rewrite Hpos in Hh.
  assert (is_u64 (sb64_reset (bf_possessors f) o)) as Hu' by (by apply sb64_reset_u64).
  apply (sim_local (claim A)); try done; [|unfold claim; others|].
  - apply claim_step; [done|]. by rewrite Hg.
  - unfold claim. at_node. rewrite Hg, <- Hh, <- bset_reset by done.
    replace (bset (sb64_reset (bf_possessors f) o)) with ({[id]} ∪ bset (sb64_reset (sb64_reset (bf_possessors f) o) id))
      by (rewrite (bset_reset _ id) by done; rewrite <- union_difference_singleton_L; done).
    apply (or_move_rnd pid _ _ _ _ id _ false); try done.
    + rewrite <- Hv. apply self_next; [exact Hp|exact Hu'|by eexists| |exact Hv0]. by apply (bump_ok (set_page (Some page) f)).
    + by apply sb64_reset_u64.
    + rewrite bset_reset by done. clear. set_solver.
Qed.

(** It copies the page from one of the nodes that share it. *)
Lemma local_copy type id : bf_state f = EVICTED → bf_possession f = SHARED → type ≠ LS_EXCLUSIVE → id ∈ bset (bf_possessors f) →
  allowed pid (Ok (put_l o (Holder (WCopy type (bf_possessors f) id None))
                     (put_f o (set_page (Some page) f) (drop_d o s)))) A.
Proof.
  intros Hev Hpos Hty Hid. destruct local_dir as (((Hp & Hu & _) & Hv & Hm & Hne & Hh & Hh' & Hst) & Hv0 & Hlt & Hfree).
  destruct Hst as [(? & _)|(_ & Hnin & Hg & Hpn)]; [congruence|]. unfold holders in Hh. rewrite Hpos in Hh.
  right. eexists _, A. split; [done|]. split; [by left|].
  apply (sim_owner pid Ho s _ A); try done; [by left|others|by apply (si_last _ _ _ Hs)| |congruence].
  at_node. rewrite Hg. apply (or_copy pid _ _ _ (set_page (Some page) f)); try done; [congruence|by cbn; rewrite Hh].
Qed.

End local.

(** *** The result of [local_start] *)

Lemma owner_eqb : (getOwner pid =? o) = true.
Proof. apply Z.eqb_refl. Qed.

Lemma local_start_upgrade page f w : bf_state f = HOT → bf_possession f = SHARED → w = sb64_reset (bf_possessors f) o →
  local_start LS_EXCLUSIVE o pid page f = Ok (TInvalidate w, set_possessors w (bump_pVersion f)).
Proof. intros Hst Hpos ->. destruct f; cbn in Hst, Hpos; subst. unfold local_start. by rewrite owner_eqb. Qed.

Lemma local_start_move type page f : bf_state f = EVICTED → bf_possession f = EXCLUSIVE →
  local_start type o pid page f = Ok (TMove (bf_possessors f), bump_pVersion (set_page (Some page) f)).
Proof. intros Hst Hpos. destruct f; cbn in Hst, Hpos; subst. unfold local_start. by rewrite owner_eqb. Qed.

Lemma local_start_move_rnd page f w : bf_state f = EVICTED → bf_possession f = SHARED → w = sb64_reset (bf_possessors f) o →
  local_start LS_EXCLUSIVE o pid page f = Ok (TMoveRnd w, set_possessors w (bump_pVersion (set_page (Some page) f))).
Proof. intros Hst Hpos ->. destruct f; cbn in Hst, Hpos; subst. unfold local_start. by rewrite owner_eqb. Qed.

Lemma local_start_copy type page f : bf_state f = EVICTED → bf_possession f = SHARED → type ≠ LS_EXCLUSIVE →
  is_u64 (bf_possessors f) → bset (bf_possessors f) ≠ ∅ →
  local_start type o pid page f = Ok (TCopy (bf_possessors f), set_page (Some page) f).
Proof.
  intros Hst Hpos Hty Hu Hn0. pose proof (bset_any _ Hu) as Hany. rewrite bool_decide_eq_true_2 in Hany by done.
  unfold local_start. rewrite owner_eqb. destruct (decide (type = LS_EXCLUSIVE)); [done|].
  transitivity (_ ← ensure (sb64_any (bf_possessors f)); Ok (TCopy (bf_possessors f), set_page (Some page) f)).
  - clear Hany Hn0 Hu. by destruct f; cbn in Hst, Hpos; subst.
  - by rewrite Hany.
Qed.

Lemma fix_local_ok type page raw f : is_u64 raw → y_frames s !! o = Some f → y_latch s !! o = None →
  access_ok type o f = false →
  allowed pid (let s := if decide (bf_state f = EVICTED) then drop_d o s else s in
               '(t, f) ← local_start type o pid page f; resolve pid o type raw t (put_f o f s)) A.
Proof.
  intros Hraw Hf Hl Hacc.
  destruct (local_dir f Hf Hl) as (((Hp & Hu & _) & Hv & Hm & Hne & Hh & Hh' & Hst) & Hv0 & Hlt & Hfree).
  assert (is_u64 (sb64_reset (bf_possessors f) o)) as Hu' by (by apply sb64_reset_u64).
  destruct Hst as [(Hhot & Hin & Hpg & Hd & Hg)|(Hev & Hnin & Hg & Hpn)].
  - rewrite decide_False by congruence. rewrite <- Hh in Hin. apply holders_possessor in Hin; [|by split_and!].
    unfold access_ok in Hacc. rewrite Hin, andb_true_r in Hacc. destruct (decide (type = LS_EXCLUSIVE)) as [->|]; [|done].
    apply bool_decide_eq_false in Hacc. assert (bf_possession f = SHARED) as Hpos by (destruct (bf_possession f); congruence).
    rewrite (local_start_upgrade page f _ Hhot Hpos eq_refl).  rewrite bind_Ok. cbv beta iota. unfold resolve.
    rewrite sharers_ok by done. rewrite bind_Ok. by apply (local_upgrade f).
  - rewrite decide_True by done. unfold holders in Hh. destruct (bf_possession f) eqn:Hpos; [congruence| |].
    + rewrite (local_start_move type page f Hev Hpos).  rewrite bind_Ok. cbv beta iota. unfold resolve. by apply (local_move f page).
    + destruct (decide (type = LS_EXCLUSIVE)) as [->|Hty].
      * rewrite (local_start_move_rnd page f _ Hev Hpos eq_refl).  rewrite bind_Ok. cbv beta iota. unfold resolve.
        destruct (pick_ok raw (sb64_reset (bf_possessors f) o) Hu' Hraw) as (id & -> & Hid).
        { rewrite bset_reset, Hh by done. clear -Hh' Hnin. set_solver. }
        rewrite bind_Ok. by apply (local_move_rnd f page).
      * assert (bset (bf_possessors f) ≠ ∅) as Hn0 by congruence.
        rewrite (local_start_copy type page f Hev Hpos Hty Hu Hn0).  rewrite bind_Ok. cbv beta iota. unfold resolve.
        destruct (pick_ok raw (bf_possessors f) Hu Hraw Hn0) as (id & -> & Hid).
        rewrite bind_Ok. by apply (local_copy f page).
Qed.

Lemma fix_frame_owner type page raw f : is_u64 raw → y_frames s !! o = Some f →
  allowed pid (fix_frame pid o type page raw f s) A.
Proof.
  intros Hraw Hf. destruct (bf_mhWaiting f) eqn:Hmh; [left; unfold fix_frame; by rewrite Hmh|].
  destruct (latch_cases o) as [Hfree|[pc Hl]].
  2: { left. destruct (fix_frame_latched o type page raw f pc Hl); [done|congruence]. }
  pose proof (owner_free _ _ _ Hs f Hf Hfree) as Hdir.
  pose proof Hdir as ((Hp & Hu & Hv0) & Hv & Hm & Hne & Hh & Hh' & Hst).
  assert (∀ h f', owner_rel pid (d_v A) (d_m A) (d_h A) (d_gr A !! o) (Some f') (Some h) (y_data s !! o) →
    allowed pid (Ok (put_l o h (put_f o f' s))) A) as Hput.
  { intros h f' Hrel. right. eexists _, A. split; [done|]. split; [by left|].
    apply (sim_owner pid Ho s _ A); try done; [by left|others|by apply (si_last _ _ _ Hs)|by at_node|].
    intros out E. by destruct (Hfree (WInval out)). }
  assert (∀ h, put_l o h s = put_l o h (put_f o f s)) as Hid
    by (intros h; unfold put_l, put_f; cbn; by rewrite (insert_id _ _ _ Hf)).
  assert (allowed pid (Ok s) A) as Hstay by (right; exists s, A; split; [done|split; [by left|done]]).
  assert (getOwner (bf_pid f) =? o = true) as Hown by (rewrite Hp; apply Z.eqb_refl).
  unfold fix_frame, possession_state. rewrite Hmh, Hown.
  destruct (access_ok type o f) eqn:Hacc.
  - destruct (decide (type = LS_EXCLUSIVE)) as [->|Hty].
    + unfold access_ok in Hacc. rewrite decide_True in Hacc by done. apply andb_true_iff in Hacc as [Hx Hpo].
      apply bool_decide_eq_true in Hx. destruct (y_latch s !! o) as [h|] eqn:Hl; [by left|].
      apply (Hput (Holder Using) (set_dirty true f)). apply (or_using pid _ _ _ (set_dirty true f)); [done..|]. apply holders_possessor in Hpo; [|by split_and!].
      destruct Hst as [(? & _)|(_ & Hno & _)]; [done|]. rewrite Hh in Hpo. done.
    + destruct type; try done; (destruct (y_latch s !! o) as [[k|k|pc]|] eqn:Hl; [| |by destruct (Hfree pc)|]); try done;
        rewrite Hid; apply Hput; [apply or_rest; try done; right; by eauto| |apply or_rest; try done; right; by eauto].
      destruct (owner_writing _ _ _ Hs _ Hl) as (f0 & Hf0 & _ & Hhot & Hdirty). assert (f0 = f) as -> by congruence. by apply or_writing.
  - destruct (y_latch s !! o) as [h|] eqn:Hl; [by left|].
    rewrite bool_decide_eq_true_2 by done. cbn [when mbind result_bind]. by apply fix_local_ok.
Qed.

Lemma do_fix_ok n type page raw : is_node n → is_u64 raw → allowed pid (do_fix pid n type page raw s) A.
Proof.
  intros Hn Hraw. unfold do_fix. destruct (y_frames s !! n) as [f|] eqn:Hf; [|by apply fix_miss_ok].
  destruct (decide (n = o)) as [->|]; [by apply fix_frame_owner|by apply fix_frame_remote].
Qed.

End fix_actions.
