(* ===== verification/CoherenceHandlers.v ===== *)
(** * The message handlers *)

From S2P Require Import Prelude Defs Bitmap RingBuffer BufferFrame Eviction Messages Protocol Directory Coherence CoherenceInv CoherenceSim CoherenceView CoherenceSteps.
Local Open Scope Z_scope.
#[local] Existing Instance release_build.

(** ** The replies of the owner, case by case *)

Section replies.
Implicit Types (o n v w : Z) (f : BufferFrame).

Definition msg_to (type : LATCH_STATE) (r : RESULT) (conflict : option Z) (v : Z) : PossessionResponse :=
  mkPRR (if decide (type = LS_EXCLUSIVE) then PRRX else PRRS) r conflict (Some v) false 1.

(** The frame of a page that was handed over in exclusive possession. *)
Definition handed_over n f : BufferFrame :=
  set_possessors n (set_state EVICTED (set_possession EXCLUSIVE (set_dirty true (bump_pVersion f)))).
Definition shared_with n f w : BufferFrame := set_possessors (sb64_set w n) (set_possession SHARED f).

Ltac open_frame f :=
  destruct f as [fpid fnext fpage fver fep fht fw fstate fmh fcool fdirty fbucket fposs flatch];
  cbn [bf_state bf_possession bf_page bf_possessors bf_pVersion] in *; subst.

Lemma possessor_set n w : sb64_test (sb64_set w n) n = true.
Proof. rewrite sb64_test_set. by rewrite bool_decide_eq_true_2. Qed.

Lemma desired_shared type : type ≠ LS_EXCLUSIVE → desired type = SHARED.
Proof. intros. unfold desired. by rewrite decide_False. Qed.
Lemma msg_to_shared type r c v : type ≠ LS_EXCLUSIVE → msg_to type r c v = mkPRR PRRS r c (Some v) false 1.
Proof. intros. unfold msg_to. by rewrite decide_False. Qed.

(** Evaluates a reply on a frame whose state and possession are known; [tests]
    decide what is left. *)
Ltac reply_by tests := lazy -[sb64_set sb64_reset sb64_test sb64_any u64 Z.eqb Z.add]; tests; reflexivity.

(** Shared possession of a page the owner shares, has exclusively, or does not
    have. *)
Lemma reply_share o n f type : type ≠ LS_EXCLUSIVE → bf_state f = HOT → bf_possession f = SHARED → is_Some (bf_page f) →
  possession_reply (desired type) LOCAL_POSSESSION_CHANGE o n f =
    Ok (mkReply (msg_to type WithPage None (bf_pVersion f)) true None false (shared_with n f (bf_possessors f))).
Proof.
  intros Hty Hst Hpos [pg Hpg]. rewrite desired_shared, msg_to_shared by done.
  pose proof (possessor_set n (bf_possessors f)) as Ht. open_frame f.
  reply_by ltac:(rewrite Ht).
Qed.

Lemma reply_downgrade o n f type : type ≠ LS_EXCLUSIVE → bf_state f = HOT → bf_possession f = EXCLUSIVE → bf_possessors f = o →
  is_Some (bf_page f) →
  possession_reply (desired type) LOCAL_POSSESSION_CHANGE o n f =
    Ok (mkReply (msg_to type WithPage None (bf_pVersion (bump_pVersion f))) true None false
          (set_pVersion (bf_pVersion (bump_pVersion f)) (shared_with n f (sb64_set 0 o)))).
Proof.
  intros Hty Hst Hpos Ho [pg Hpg]. rewrite desired_shared, msg_to_shared by done.
  pose proof (possessor_set n (sb64_set 0 o)) as Ht. pose proof (Z.eqb_refl o) as He. open_frame f.
  reply_by ltac:(rewrite He; rewrite Ht).
Qed.

Lemma reply_demand o n f type : type ≠ LS_EXCLUSIVE → bf_state f = EVICTED → bf_possession f = EXCLUSIVE → bf_possessors f ≠ o →
  possession_reply (desired type) LOCAL_POSSESSION_CHANGE o n f =
    Ok (mkReply (msg_to type NoPageExclusiveConflict (Some (bf_possessors f)) (bf_pVersion (bump_pVersion f))) false None false
          (set_pVersion (bf_pVersion (bump_pVersion f)) (shared_with n f 0))).
Proof.
  intros Hty Hst Hpos Ho. rewrite desired_shared, msg_to_shared by done.
  pose proof (proj2 (Z.eqb_neq _ _) Ho) as He. open_frame f. reply_by ltac:(rewrite !He).
Qed.

Lemma reply_evicted o n f type : type ≠ LS_EXCLUSIVE → bf_state f = EVICTED → bf_possession f = SHARED →
  sb64_test (bf_possessors f) o = false →
  possession_reply (desired type) LOCAL_POSSESSION_CHANGE o n f =
    Ok (mkReply (msg_to type NoPageEvicted (Some (bf_possessors f)) (bf_pVersion f)) false None true (shared_with n f (bf_possessors f))).
Proof.
  intros Hty Hst Hpos He. rewrite desired_shared, msg_to_shared by done. open_frame f. reply_by ltac:(rewrite He).
Qed.

(** Exclusive possession of a page other nodes share, that the owner shares with
    them or has alone, or that another node has exclusively. *)
Lemma reply_x_conflict o n f : bf_state f = EVICTED → bf_possession f = SHARED → sb64_any (sb64_reset (bf_possessors f) o) = true →
  possession_reply (desired LS_EXCLUSIVE) LOCAL_POSSESSION_CHANGE o n f =
    Ok (mkReply (msg_to LS_EXCLUSIVE NoPageSharedConflict (Some (sb64_reset (bf_possessors f) o)) (bf_pVersion (bump_pVersion f)))
          false None false (handed_over n f)).
Proof. intros Hst Hpos Ha. open_frame f. reply_by ltac:(rewrite Ha). Qed.

Lemma reply_x_shared o n f : bf_state f = HOT → bf_possession f = SHARED → is_Some (bf_page f) →
  possession_reply (desired LS_EXCLUSIVE) LOCAL_POSSESSION_CHANGE o n f =
    Ok (mkReply (if sb64_any (sb64_reset (bf_possessors f) o)
                 then msg_to LS_EXCLUSIVE WithPageSharedConflict (Some (sb64_reset (bf_possessors f) o)) (bf_pVersion (bump_pVersion f))
                 else msg_to LS_EXCLUSIVE WithPage None (bf_pVersion (bump_pVersion f)))
          true (bf_page f) false (set_page None (handed_over n f))).
Proof.
  intros Hst Hpos [pg Hpg]. pose proof (Z.eqb_refl n) as He. open_frame f.
  reply_by ltac:(destruct (sb64_any (sb64_reset fw o)); rewrite He).
Qed.

Lemma reply_x_own o n f : bf_state f = HOT → bf_possession f = EXCLUSIVE → bf_possessors f = o → is_Some (bf_page f) →
  possession_reply (desired LS_EXCLUSIVE) LOCAL_POSSESSION_CHANGE o n f =
    Ok (mkReply (msg_to LS_EXCLUSIVE WithPage None (bf_pVersion (bump_pVersion f))) true (bf_page f) false (set_page None (handed_over n f))).
Proof.
  intros Hst Hpos Ho [pg Hpg]. pose proof (Z.eqb_refl n) as He. pose proof (Z.eqb_refl o) as He'. open_frame f.
  reply_by ltac:(rewrite He'; rewrite He).
Qed.

Lemma reply_x_other o n f : bf_state f = EVICTED → bf_possession f = EXCLUSIVE → bf_possessors f ≠ o →
  possession_reply (desired LS_EXCLUSIVE) LOCAL_POSSESSION_CHANGE o n f =
    Ok (mkReply (msg_to LS_EXCLUSIVE NoPageExclusiveConflict (Some (bf_possessors f)) (bf_pVersion (bump_pVersion f)))
          false None false (handed_over n f)).
Proof.
  intros Hst Hpos Ho. pose proof (proj2 (Z.eqb_neq _ _) Ho) as He. open_frame f. reply_by ltac:(rewrite !He).
Qed.

End replies.

Section handlers.
Context {V : Type} (pid : Z).
Notation o := (owner pid).
Hypothesis Ho : is_node o.
Variables (s : @sys V) (A : dstate V).
Hypotheses (HA : dinv o A) (Hs : sim pid s A) (Hver : version_left pid s).
Implicit Types (f : BufferFrame) (n k : Z) (type : LATCH_STATE).

(** ** Possession requests *)

(** The directory names [n] exactly when the frame does. *)
Lemma holders_test n f : is_node n → n ∈ holders f ↔ isPossessor n f = true.
Proof.
  intros Hn. unfold holders, isPossessor. destruct (bf_possession f).
  - rewrite elem_of_empty. done.
  - rewrite elem_of_singleton, Z.eqb_eq. split; congruence.
  - by apply elem_of_bset.
Qed.

(** A node that waits is not in the directory, so its request changes the
    possession. *)
Lemma newcomer n f m : is_node n → d_gr A !! n = None → holders f = d_h A →
  n ∉ d_h A ∧ protocol_state m n f = LOCAL_POSSESSION_CHANGE.
Proof.
  intros Hn Hg Hh. assert (n ∉ d_h A) as Hno.
  { intros Hin. destruct (di_holder _ _ HA n Hin) as (g & ? & _). congruence. }
  split; [done|]. unfold protocol_state.
  destruct (isPossessor n f) eqn:E; [|by rewrite orb_true_r].
  apply (holders_test n f Hn) in E. congruence.
Qed.

(** The owner answered: the requester has its grant, the owner its new
    directory entry. *)
Lemma answered n type msg f' s2 A' v need p :
  n ≠ o → y_latch s !! n = Some (Holder (WaitPR type None)) → y_latch s !! o = None →
  y_frames s2 = y_frames s → y_latch s2 = y_latch s → y_ssd s2 = y_ssd s → y_last s2 = y_last s →
  (∀ m, m ≠ n → m ≠ o → y_data s2 !! m = y_data s !! m) →
  dstep o A A' → (∀ m, m ≠ n → m ≠ o → d_gr A' !! m = d_gr A !! m) → d_ssd A' = d_ssd A → d_last A' = d_last A →
  d_gr A' !! n = Some (mkGrant v (desired type) need p) → prr_pVersion msg = Some v → 0 <= v →
  response_ok pid type msg (y_data s2 !! n) need p →
  dir_ok pid (d_v A') (d_m A') (d_h A') (d_gr A' !! o) f' (y_data s2 !! o) →
  (∀ w, prr_result msg = NoPageEvicted → prr_conflict msg = Some w →
     v <= d_v A' ∧ ∀ j g, j ∈ bset w → d_gr A' !! j = Some g → v <= g_v g) →
  allowed pid (Ok (put_l n (Holder (WaitPR type (Some msg))) (put_f o f' s2))) A.
Proof.
  intros Hn Hl Hlo Hf2 Hl2 Hssd Hlast Hd2 Hst Hgr Hss Hla Hgn Hv Hv0 Hresp Hdir Hsrc.
  destruct (remote_waits _ _ _ Hs n type Hn Hl) as (fn & Hfn & Hio & _).
  right. eexists _, A'. split; [done|]. split; [by right|].
  assert (o ≠ n) as Hn' by done.
  apply (sim_update pid s _ A A' {[n; o]}); try done.
  - by right.
  - cbn. rewrite Hssd, Hss. apply (si_ssd _ _ _ Hs).
  - cbn. rewrite Hlast, Hla. apply (si_last _ _ _ Hs).
  - intros m Hm. assert (m ≠ n ∧ m ≠ o) as [? ?] by (clear -Hm; set_solver). split; [|by apply Hgr].
    unfold same_at. cbn. rewrite Hf2, Hl2. rewrite !lookup_insert_ne by done. split_and!; try done. by apply Hd2.
  - cbn. rewrite lookup_insert_eq, lookup_insert_ne, Hl2, Hlo by done. apply or_rest; [done|by left].
  - intros m Hm Hmo. assert (m = n) as -> by (clear -Hm Hmo; set_solver).
    cbn. rewrite lookup_insert_ne, lookup_insert_eq, Hf2, Hfn, Hgn by done.
    by apply (rr_response pid n fn type msg _ v need p).
  - intros m Hm _. destruct (decide (m = o)) as [->|]; [done|].
    assert (m = n) as -> by (clear -Hm n0; set_solver). apply (si_nodes _ _ _ Hs). by rewrite Hfn.
  - intros m w v' Hm [Hmo Hc]. assert (m = n) as -> by (clear -Hm Hmo; set_solver). revert Hc. cbn.
    rewrite lookup_insert_eq. intros [(ty & msg' & E & Hr & Hcf & Hpv)|(? & ? & ? & ? & E & _)]; [|discriminate E].
    injection E as <- <-. rewrite Hv in Hpv. injection Hpv as <-. by apply Hsrc.
  - intros k fk Hk. cbn. rewrite lookup_insert_ne, Hf2 by done. intros Hfk Hmh.
    destruct (si_waits _ _ _ Hs k fk Hk Hfk Hmh) as (m & out & Hm & Hin). exists m, out. split; [|done].
    rewrite lookup_insert_ne, Hl2; [done|]. congruence.
Qed.

(** *** Exclusive possession *)

Definition granted_x n : dstate V :=
  mkD (<[n := mkGrant (d_v A + 1) EXCLUSIVE (d_h A ∖ {[n]} ∖ {[o]}) (grant_page o A n)]> (delete o (d_gr A)))
      (d_v A + 1) EXCLUSIVE {[n]} (d_ssd A) (d_last A).

Lemma bump_next f : y_frames s !! o = Some f → bf_pVersion f = d_v A → 0 <= d_v A → bf_pVersion (bump_pVersion f) = d_v A + 1.
Proof.
  intros Hf Hv ?. specialize (Hver f Hf). unfold bump_pVersion. cbn. rewrite Hv in *. apply u64_small. lia.
Qed.

Lemma dir_handed_over n f (d : option V) : n ≠ o → is_node n → obase_ok pid f → bf_pVersion (bump_pVersion f) = d_v A + 1 → 0 <= d_v A →
  dir_ok pid (d_v A + 1) EXCLUSIVE {[n]} None (set_page None (handed_over n f)) d.
Proof.
  intros Hn Hnode (Hp & Hu & _) Hv Hv0. unfold dir_ok, obase_ok, holders.
  change (bf_pVersion (set_page None (handed_over n f))) with (bf_pVersion (bump_pVersion f)). rewrite Hv. cbn.
  split_and!; try done; [by apply node_u64|lia|]. right. split_and!; try done. by rewrite elem_of_singleton.
Qed.

Lemma set_page_id f : set_page (bf_page f) f = f.
Proof. by destruct f. Qed.

(** The request is answered with [msg]; the page goes along when the owner has
    it. *)
Lemma pr_exclusive n f msg s2 :
  n ≠ o → y_latch s !! n = Some (Holder (WaitPR LS_EXCLUSIVE None)) → y_latch s !! o = None → y_frames s !! o = Some f →
  y_frames s2 = y_frames s → y_latch s2 = y_latch s → y_ssd s2 = y_ssd s → y_last s2 = y_last s →
  (∀ m, m ≠ n → m ≠ o → y_data s2 !! m = y_data s !! m) →
  prr_pVersion msg = Some (d_v A + 1) → prr_result msg ≠ NoPageEvicted →
  response_ok pid LS_EXCLUSIVE msg (y_data s2 !! n) (d_h A ∖ {[n]} ∖ {[o]}) (grant_page o A n) →
  allowed pid (Ok (put_l n (Holder (WaitPR LS_EXCLUSIVE (Some msg))) (put_f o (set_page None (handed_over n f)) s2))) A.
Proof.
  intros Hn Hl Hlo Hf Hf2 Hl2 Hssd Hlast Hd2 Hv Hr Hresp.
  destruct (remote_waits _ _ _ Hs n _ Hn Hl) as (fn & Hfn & Hio & Hgn).
  assert (is_node n) as Hnode by (apply (si_nodes _ _ _ Hs); by rewrite Hfn).
  assert (∀ pc, y_latch s !! o ≠ Some (Holder pc)) as Hfree by (intros; congruence).
  pose proof (owner_free _ _ _ Hs f Hf Hfree) as (Hb & Hvf & Hm & Hne & Hh & Hh' & Hst).
  assert (0 <= d_v A) as Hv0 by (rewrite <- Hvf; apply Hb).
  assert (dstep o A (granted_x n)) as Hstep.
  { apply d_grant_x; [done| |].
    - intros g E. congruence.
    - intros g E. destruct Hst as [(_ & _ & _ & Hd & Hg)|(_ & _ & Hg & _)]; [|congruence].
      rewrite Hg in E. apply (inj Some) in E as <-. by split. }
  apply (answered n LS_EXCLUSIVE msg _ s2 (granted_x n) (d_v A + 1) (d_h A ∖ {[n]} ∖ {[o]}) (grant_page o A n)); try done.
  - intros m ? ?. unfold granted_x. cbn. by rewrite lookup_insert_ne, lookup_delete_ne by done.
  - unfold granted_x. cbn. by rewrite lookup_insert_eq.
  - lia.
  - unfold granted_x. cbn. rewrite lookup_insert_ne, lookup_delete_eq by done.
    apply dir_handed_over; try done. by apply bump_next.
Qed.

Lemma pr_x_ok n f : n ≠ o → y_latch s !! n = Some (Holder (WaitPR LS_EXCLUSIVE None)) → y_latch s !! o = None →
  y_frames s !! o = Some f →
  allowed pid (r ← possession_reply (desired LS_EXCLUSIVE) LOCAL_POSSESSION_CHANGE o n f;
    s ← (if rp_page r then send_page o n s else Ok s);
    let s := if decide (rp_park r = None) then s else drop_d o s in
    let s := if rp_register r then put_cr n s else s in
    Ok (put_l n (Holder (WaitPR LS_EXCLUSIVE (Some (rp_msg r)))) (put_f o (rp_frame r) s))) A.
Proof.
  intros Hn Hl Hlo Hf. assert (o ≠ n) as Hn' by done.
  destruct (remote_waits _ _ _ Hs n _ Hn Hl) as (fn & Hfn & Hio & Hgn).
  assert (is_node n) as Hnode by (apply (si_nodes _ _ _ Hs); by rewrite Hfn).
  assert (∀ pc, y_latch s !! o ≠ Some (Holder pc)) as Hfree by (intros; congruence).
  pose proof (owner_free _ _ _ Hs f Hf Hfree) as ((Hp & Hu & Hv0) & Hvf & Hm & Hne & Hh & Hh' & Hst).
  rewrite Hvf in Hv0. pose proof (bump_next f Hf Hvf Hv0) as Hb.
  destruct (newcomer n f EXCLUSIVE Hnode Hgn Hh) as [Hno _].
  assert (d_h A ∖ {[n]} ∖ {[o]} = d_h A ∖ {[o]}) as Hneed by (clear -Hno; set_solver).
  assert (is_u64 (sb64_reset (bf_possessors f) o)) as Hu' by (by apply sb64_reset_u64).
  unfold holders in Hh.
  destruct Hst as [(Hhot & Hin & [pg Hpg] & [x Hd] & Hg)|(Hev & Hnin & Hg & Hpn)].
  - assert (grant_page o A n = Some x) as Hgp by (unfold grant_page; rewrite Hgn, Hg; cbn; congruence).
    destruct (bf_possession f) eqn:Hpos; [congruence| |].
    + assert (bf_possessors f = o) as How by (rewrite <- Hh in Hin; by apply elem_of_singleton in Hin).
      rewrite (reply_x_own o n f Hhot Hpos How) by (by eexists).
      rewrite bind_Ok. cbn [rp_page rp_park rp_msg rp_frame rp_register]. unfold send_page, data_of. rewrite Hd. cbn [of_option]. rewrite !bind_Ok.
      rewrite Hpg, decide_False by done. rewrite Hb.
      apply pr_exclusive; try done.
      * intros m ? ?. at_node. done.
      * unfold response_ok, msg_to. cbn [prr_result]. rewrite Hneed, Hgp, <- Hh, How. at_node.
        split_and!; [clear; set_solver|done|by eexists].
    + rewrite (reply_x_shared o n f Hhot Hpos) by (by eexists).
      rewrite bind_Ok. cbn [rp_page rp_park rp_msg rp_frame rp_register]. unfold send_page, data_of. rewrite Hd. cbn [of_option]. rewrite !bind_Ok.
      rewrite Hpg, decide_False by done. rewrite Hb.
      assert (d_h A ∖ {[n]} ∖ {[o]} = bset (sb64_reset (bf_possessors f) o)) as Hneed' by (rewrite Hneed, <- Hh, bset_reset; done).
      rewrite bset_any by done.
      apply pr_exclusive; try done.
      * intros m ? ?. at_node. done.
      * by destruct (bool_decide _).
      * by destruct (bool_decide _).
      * rewrite Hneed', Hgp. at_node. case_bool_decide as Hb0; unfold response_ok; cbn [prr_result msg_to prr_conflict].
        -- eexists. by split_and!.
        -- split_and!; [done|done|by eexists].
  - assert (grant_page o A n = None) as Hgp by (unfold grant_page; by rewrite Hgn, Hg).
    assert (∀ r c, r ≠ NoPageEvicted → response_ok pid LS_EXCLUSIVE (msg_to LS_EXCLUSIVE r c (d_v A + 1)) (y_data s !! n) (d_h A ∖ {[n]} ∖ {[o]}) None →
       allowed pid (Ok (put_l n (Holder (WaitPR LS_EXCLUSIVE (Some (msg_to LS_EXCLUSIVE r c (d_v A + 1))))) (put_f o (handed_over n f) s))) A) as Hput.
    { intros r c Hr Hresp. rewrite <- (set_page_id (handed_over n f)).
      change (bf_page (handed_over n f)) with (bf_page f). rewrite Hpn. apply pr_exclusive; try done. by rewrite Hgp. }
    destruct (bf_possession f) eqn:Hpos; [congruence| |].
    + assert (bf_possessors f ≠ o) as How by (intros E; apply Hnin; by rewrite <- Hh, E, elem_of_singleton).
      rewrite (reply_x_other o n f Hev Hpos How). rewrite bind_Ok. cbn [rp_page rp_park rp_msg rp_frame rp_register]. rewrite bind_Ok, decide_True, Hb by done.
      apply Hput; [done|]. unfold response_ok. cbn [prr_result msg_to prr_conflict]. eexists. split_and!; [done| |done].
      rewrite Hneed, <- Hh. clear -How. set_solver.
    + assert (d_h A ∖ {[n]} ∖ {[o]} = bset (sb64_reset (bf_possessors f) o)) as Hneed' by (rewrite Hneed, <- Hh, bset_reset; done).
      assert (bset (sb64_reset (bf_possessors f) o) ≠ ∅) as Hne0.
      { rewrite <- Hneed', Hneed. clear -Hh' Hnin. set_solver. }
      rewrite (reply_x_conflict o n f Hev Hpos) by (rewrite bset_any by done; by apply bool_decide_eq_true_2).
      rewrite bind_Ok. cbn [rp_page rp_park rp_msg rp_frame rp_register]. rewrite bind_Ok, decide_True, Hb by done.
      apply Hput; [done|]. unfold response_ok. cbn [prr_result msg_to prr_conflict]. eexists. by split_and!.
Qed.

(** *** Shared possession *)

Lemma pr_s_ok n type f : n ≠ o → type ≠ LS_EXCLUSIVE → y_latch s !! n = Some (Holder (WaitPR type None)) → y_latch s !! o = None →
  y_frames s !! o = Some f →
  allowed pid (r ← possession_reply (desired type) LOCAL_POSSESSION_CHANGE o n f;
    s ← (if rp_page r then send_page o n s else Ok s);
    let s := if decide (rp_park r = None) then s else drop_d o s in
    let s := if rp_register r then put_cr n s else s in
    Ok (put_l n (Holder (WaitPR type (Some (rp_msg r)))) (put_f o (rp_frame r) s))) A.
Proof.
  intros Hn Hty Hl Hlo Hf. assert (o ≠ n) as Hn' by done.
  destruct (remote_waits _ _ _ Hs n _ Hn Hl) as (fn & Hfn & Hio & Hgn).
  assert (is_node n) as Hnode by (apply (si_nodes _ _ _ Hs); by rewrite Hfn).
  assert (∀ pc, y_latch s !! o ≠ Some (Holder pc)) as Hfree by (intros; congruence).
  pose proof (owner_free _ _ _ Hs f Hf Hfree) as ((Hp & Hu & Hv0) & Hvf & Hm & Hne & Hh & Hh' & Hst).
  rewrite Hvf in Hv0. pose proof (bump_next f Hf Hvf Hv0) as Hb.
  destruct (newcomer n f SHARED Hnode Hgn Hh) as [Hno _].
  unfold holders in Hh.
  assert (is_u64 0) as Hu0 by (unfold is_u64; lia).
  destruct Hst as [(Hhot & Hin & Hpg & [x Hd] & Hg)|(Hev & Hnin & Hg & Hpn)]; destruct (bf_possession f) eqn:Hpos; try congruence.
  - assert (bf_possessors f = o) as How by (rewrite <- Hh in Hin; by apply elem_of_singleton in Hin).
    rewrite (reply_downgrade o n f type Hty Hhot Hpos How Hpg).
    rewrite bind_Ok. cbn [rp_page rp_park rp_msg rp_frame rp_register]. unfold send_page, data_of. rewrite Hd. cbn [of_option]. rewrite !bind_Ok.
    rewrite decide_True, Hb by done.
    apply (answered n type _ _ (put_d n x s)
      (mkD (<[n := mkGrant (d_v A + 1) SHARED ∅ (Some x)]> (<[o := mkGrant (d_v A + 1) SHARED ∅ (Some x)]> (d_gr A)))
           (d_v A + 1) SHARED {[o; n]} (d_ssd A) (d_last A)) (d_v A + 1) ∅ (Some x)); try done.
    + intros m ? ?. at_node. done.
    + apply (d_downgrade o A n (mkGrant (d_v A) (d_m A) ∅ (Some x))); try done; [congruence..|].
      split; [congruence|]. split; [done|by eexists].
    + intros m ? ?. at_node. done.
    + at_node. by rewrite desired_shared.
    + lia.
    + unfold response_ok. cbn [prr_result msg_to]. at_node. split_and!; [done..|by eexists].
    + at_node. unfold dir_ok, obase_ok, holders. cbn -[sb64_set]. rewrite !bset_set, bset_0 by done.
      split_and!; try done; [by do 2 apply sb64_set_u64|lia|clear; set_solver|clear; set_solver|].
      left. split_and!; try done; [clear; set_solver|by rewrite Hd].
  - rewrite (reply_share o n f type Hty Hhot Hpos Hpg).
    rewrite bind_Ok. cbn [rp_page rp_park rp_msg rp_frame rp_register]. unfold send_page, data_of. rewrite Hd. cbn [of_option]. rewrite !bind_Ok.
    rewrite decide_True, Hvf by done.
    apply (answered n type _ _ (put_d n x s)
      (mkD (<[n := mkGrant (d_v A) SHARED ∅ (Some x)]> (d_gr A)) (d_v A) SHARED ({[n]} ∪ d_h A) (d_ssd A) (d_last A))
      (d_v A) ∅ (Some x)); try done.
    + intros m ? ?. at_node. done.
    + apply (d_join o A n (Some x)); try done. right.
      exists o, (mkGrant (d_v A) (d_m A) ∅ (Some x)). split; [done|]. split; [|done].
      split; [congruence|]. split; [done|by eexists].
    + intros m ? ?. at_node. done.
    + at_node. by rewrite desired_shared by done.
    + unfold response_ok. cbn [prr_result msg_to]. at_node. split_and!; [done..|by eexists].
    + at_node. unfold dir_ok, obase_ok, holders. cbn -[sb64_set]. rewrite !bset_set, Hh by done.
      split_and!; try done; [by apply sb64_set_u64|lia|clear -Hh'; set_solver|].
      left. split_and!; try done; [clear -Hin; set_solver|by rewrite Hg, <- Hm].
  - assert (bf_possessors f ≠ o) as How by (intros E; apply Hnin; by rewrite <- Hh, E, elem_of_singleton).
    rewrite (reply_demand o n f type Hty Hev Hpos How). rewrite bind_Ok. cbn [rp_page rp_park rp_msg rp_frame rp_register].
    rewrite bind_Ok, decide_True, Hb by done.
    apply (answered n type _ _ s
      (mkD (<[n := mkGrant (d_v A + 1) SHARED {[bf_possessors f]} None]> (d_gr A)) (d_v A + 1) SHARED {[n]} (d_ssd A) (d_last A))
      (d_v A + 1) {[bf_possessors f]} None); try done.
    + apply (d_grant_s o A n (bf_possessors f)); try done; congruence.
    + intros m ? ?. at_node. done.
    + at_node. by rewrite desired_shared.
    + lia.
    + unfold response_ok. cbn [prr_result msg_to prr_conflict]. by eexists.
    + at_node. unfold dir_ok, obase_ok, holders. cbn -[sb64_set]. rewrite bset_set, bset_0, (right_id_L ∅ (∪)) by done.
      split; [split_and!; [done|by apply sb64_set_u64|lia]|]. do 4 (split; [done|]). split; [clear; set_solver|].
      right. split_and!; try done. clear -Hn'. set_solver.
  - rewrite (reply_evicted o n f type Hty Hev Hpos).
    2: { destruct (sb64_test (bf_possessors f) o) eqn:E; [|done]. apply elem_of_bset in E; [|done]. congruence. }
    rewrite bind_Ok. cbn [rp_page rp_park rp_msg rp_frame rp_register]. rewrite bind_Ok, decide_True, Hvf by done.
    apply (answered n type _ _ (put_cr n s)
      (mkD (<[n := mkGrant (d_v A) SHARED ∅ None]> (d_gr A)) (d_v A) SHARED ({[n]} ∪ d_h A) (d_ssd A) (d_last A))
      (d_v A) ∅ None); try done.
    + apply (d_join o A n None); try done. by left.
    + intros m ? ?. at_node. done.
    + at_node. by rewrite desired_shared.
    + unfold response_ok. cbn [prr_result msg_to prr_conflict]. eexists. split_and!; try done; congruence.
    + at_node. unfold dir_ok, obase_ok, holders. cbn -[sb64_set]. rewrite !bset_set, Hh by done.
      split_and!; try done; [by apply sb64_set_u64|lia|clear -Hh'; set_solver|].
      right. split_and!; try done. clear -Hn' Hnin. set_solver.
    + intros w _. cbn [prr_conflict msg_to]. intros Hw. apply (inj Some) in Hw as <-. at_node. split; [lia|].
      intros j g Hj Hgj. rewrite Hh in Hj. rewrite lookup_insert_ne in Hgj by congruence.
      destruct (di_holder _ _ HA j Hj) as (g' & Hg' & Hv'). assert (g' = g) as -> by congruence. lia.
Qed.

(** The frame of a page that is read for a message handler. *)
Lemma ssd_installed page : ∃ f0 f, install_frame o pid page 0 bf_new = Ok f0 ∧ ssd_frame o 0 f0 = Ok f ∧
  obase_ok pid f ∧ bf_pVersion f = 0 ∧ is_Some (bf_page f) ∧
  bf_possession f = SHARED ∧ bf_possessors f = sb64_set 0 o ∧ bf_state f = HOT.
Proof.
  assert (is_u64 (sb64_set 0 o)) as Hu by (apply sb64_set_u64; unfold is_u64; lia).
  eexists _, _. split; [reflexivity|]. split; [reflexivity|]. unfold obase_ok. cbn -[sb64_set]. by split_and!.
Qed.

Lemma handle_pr_ok n page : allowed pid (handle_pr pid n page s) A.
Proof.
  unfold handle_pr. destruct (y_latch s !! n) as [[| |[]]|] eqn:Hl; try (by left).
  destruct r as [msg|]; [by left|].
  destruct (decide (n = o)) as [->|Hn]; [by apply (owner_not_remote _ _ _ Hs) in Hl|].
  destruct (y_frames s !! o) as [f|] eqn:Hf.
  - destruct (decide (y_latch s !! o = None)) as [Hlo|Hlo];
      [rewrite (bool_decide_eq_true_2 (y_latch s !! o = None)) by done|rewrite (bool_decide_eq_false_2 (y_latch s !! o = None)) by done; by left].
    unfold when. rewrite bind_Ok.
    assert (∀ pc, y_latch s !! o ≠ Some (Holder pc)) as Hfree by (intros; congruence).
    pose proof (owner_free _ _ _ Hs f Hf Hfree) as (Hb & Hvf & Hm & Hne & Hh & Hh' & Hst).
    rewrite bool_decide_eq_false_2 by (destruct Hst as [(? & _)|(? & _)]; congruence). cbn [negb]. rewrite bind_Ok.
    destruct (remote_waits _ _ _ Hs n _ Hn Hl) as (fn & Hfn & _ & Hgn).
    destruct (newcomer n f (desired type)) as [_ ->]; [apply (si_nodes _ _ _ Hs); by rewrite Hfn|done..|].
    destruct (decide (type = LS_EXCLUSIVE)) as [->|Hty]; [by apply pr_x_ok|by apply pr_s_ok].
  - destruct (owner_absent _ _ _ Hs Hf) as (Hlo & Hv & Hh & Hg).
    destruct (ssd_installed page) as (f0 & f & -> & Hssd & Hb & Hvf & Hpg & Hst). rewrite bind_Ok, assert_release, bind_Ok, Hssd, bind_Ok.
    right. eexists _, A. split; [done|]. split; [by left|].
    apply (sim_owner pid Ho s _ A); try done; [by left|others|by apply (si_last _ _ _ Hs)| |congruence].
    at_node. rewrite Hg. by apply or_read; rewrite ?Hvf.
Qed.

End handlers.
