(* ===== verification/CoherenceRequests.v ===== *)
(** * The handlers of move, copy and update requests *)

From S2P Require Import Prelude Defs Bitmap RingBuffer BufferFrame Eviction Messages Protocol Directory Coherence CoherenceInv CoherenceSim CoherenceView CoherenceSteps.
Local Open Scope Z_scope.
#[local] Existing Instance release_build.

Section requests.
Context {V : Type} (pid : Z).
Notation o := (owner pid).
Hypothesis Ho : is_node o.
Variables (s : @sys V) (A : dstate V).
Hypotheses (HA : dinv o A) (Hs : sim pid s A) (Hver : version_left pid s).
Implicit Types (f : BufferFrame) (n k : Z) (type : LATCH_STATE).

(** ** Move requests *)

(** A frame that a message handler waits for has the same grant. *)
Lemma remote_waiting n f l d g : remote_rel (V:=V) pid n (Some f) l d g → remote_rel pid n (Some (set_mhWaiting true f)) l d g.
Proof.
  intros Hr. remember (Some f) as fo eqn:Ef.
  destruct Hr; [discriminate Ef|..]; apply (inj Some) in Ef as ->.
  - by apply (rr_rest pid n (set_mhWaiting true f)).
  - by apply (rr_stuck pid n (set_mhWaiting true f)).
  - by apply (rr_using pid n (set_mhWaiting true f)).
  - by apply (rr_request pid n (set_mhWaiting true f)).
  - by apply (rr_response pid n (set_mhWaiting true f)).
  - by apply (rr_move pid n (set_mhWaiting true f)).
  - by apply (rr_move_rnd pid n (set_mhWaiting true f)).
  - by apply (rr_inval pid n (set_mhWaiting true f)).
  - by apply (rr_copy pid n (set_mhWaiting true f)).
  - by apply (rr_update pid n (set_mhWaiting true f)).
  - by apply (rr_updated pid n (set_mhWaiting true f)).
  - by apply (rr_evict pid n (set_mhWaiting true f)).
  - by apply (rr_evicted pid n (set_mhWaiting true f)).
Qed.

(** The handler of node [k] leaves a mark for the worker that uses the page. *)
Lemma mark_waiting n k f out : k ≠ o → y_frames s !! k = Some f → y_latch s !! n = Some (Holder (WInval out)) → k ∈ out →
  allowed pid (Ok (put_f k (set_mhWaiting true f) s)) A.
Proof.
  intros Hk Hf Hl Hin. right. eexists _, A. split; [done|]. split; [by left|].
  apply (sim_remote pid s _ A A k); try done; [by left|others|apply (si_last _ _ _ Hs)|by eapply known_node| | |].
  - at_node. apply remote_waiting. rewrite <- Hf. by apply (si_remote _ _ _ Hs).
  - intros w v [_ Hc]. apply (si_sources _ _ _ Hs k). split; [done|]. revert Hc. cbn. rewrite lookup_insert_eq.
    intros [Hc|(ty & i & r & f' & E & Ef & <-)]; [by left|right]. apply (inj Some) in Ef as <-. by eauto 10.
  - intros k' f' Hk'. cbn. intros Hf' Hm. destruct (decide (k' = k)) as [->|Hne]; [by exists n, out|].
    rewrite lookup_insert_ne in Hf' by done. by apply (si_waits _ _ _ Hs k' f').
Qed.

(** Worker [pc] of node [n] moves the page from node [k], or invalidates it;
    [pc'] is the worker after the answer. *)
Record moves n k (take : bool) (pc pc' : wpc) (v : Z) (m : POSSESSION) (need : gset Z) (p : option V) : Prop := mkMoves {
  mo_latch : y_latch s !! n = Some (Holder pc);
  mo_grant : d_gr A !! n = Some (mkGrant v m need p);
  mo_need : k ∈ need;
  mo_page : take = false → is_Some p;
  mo_rel d : (take = true → is_Some d) → (take = false → d = y_data s !! n) →
    (n ≠ o → remote_rel pid n (y_frames s !! n) (Some (Holder pc')) d
               (Some (mkGrant v m (need ∖ {[k]}) (if take then d else p)))) ∧
    (n = o → owner_rel pid (d_v A) (d_m A) (d_h A) (Some (mkGrant v m (need ∖ {[k]}) (if take then d else p)))
               (y_frames s !! n) (Some (Holder pc')) d);
  mo_inval : if take then ∀ out, pc ≠ WInval out else ∃ out, pc = WInval out ∧ pc' = WInval (out ∖ {[k]}) ∧ k ∈ out;
  mo_copy : match pc' with WaitPR _ _ | WCopy _ _ _ _ => False | _ => True end;
}.

(** The frame of a node the page is moved from. *)
Lemma moved_from n k take pc pc' v m need p : moves n k take pc pc' v m need p →
  k ≠ o ∧ k ≠ n ∧ ∃ f gk, y_frames s !! k = Some f ∧ d_gr A !! k = Some gk ∧
    (y_latch s !! k = None → g_need gk = ∅ ∧ base_ok pid f ∧
       if take then ∃ x, g_page gk = Some x ∧ y_data s !! k = Some x else True).
Proof.
  intros Hm. destruct (need_not_holder o A HA n _ k (mo_grant _ _ _ _ _ _ _ _ _ Hm) (mo_need _ _ _ _ _ _ _ _ _ Hm)) as [_ Hk].
  destruct (di_need _ _ HA n _ k (mo_grant _ _ _ _ _ _ _ _ _ Hm) (mo_need _ _ _ _ _ _ _ _ _ Hm)) as (gk & Hgk & Hv). cbn in Hv.
  split; [done|]. split.
  { intros ->. pose proof (mo_grant _ _ _ _ _ _ _ _ _ Hm) as E. rewrite Hgk in E. apply (inj Some) in E. rewrite E in Hv. cbn in Hv. lia. }
  destruct (y_frames s !! k) as [f|] eqn:Hf.
  2: { destruct (remote_absent _ _ _ Hs k Hk Hf). congruence. }
  exists f, gk. split; [done|]. split; [done|]. intros Hl.
  destruct (remote_free _ _ _ Hs k f Hk Hf) as [(x & Hd & (Hb & _) & Hg)|(_ & (Hb & _) & Hmh & Hg)]; [congruence|..];
    rewrite Hgk in Hg; apply (inj Some) in Hg as ->.
  - split_and!; [done|done|]. destruct take; [by exists x|done].
  - split_and!; [done|done|]. destruct take; [|done].
    (* a node that waits to be invalidated is not asked for its page *)
    destruct (si_waits _ _ _ Hs k f Hk Hf Hmh) as (n' & out & Hl' & Hin).
    assert (∃ g', d_gr A !! n' = Some g' ∧ k ∈ g_need g') as (g' & Hg' & Hin').
    { destruct (decide (n' = o)) as [->|Hn'].
      - destruct (owner_inval _ _ _ Hs _ Hl') as (? & ? & _ & _ & _ & _ & Hg'). by eexists.
      - destruct (remote_inval _ _ _ Hs _ _ Hn' Hl') as (? & ? & _ & _ & _ & Hg'). by eexists. }
    pose proof (need_unique o A HA n' g' n _ k Hg' (mo_grant _ _ _ _ _ _ _ _ _ Hm) Hin' (mo_need _ _ _ _ _ _ _ _ _ Hm)) as ->.
    rewrite (mo_latch _ _ _ _ _ _ _ _ _ Hm) in Hl'. apply (inj Some) in Hl'.
    destruct (mo_inval _ _ _ _ _ _ _ _ _ Hm out). by injection Hl'.
Qed.

Lemma surrender_ok n k take pc pc' v m need p : moves n k take pc pc' v m need p →
  allowed pid (surrender pid n k take pc' s) A.
Proof.
  intros Hm. destruct (moved_from _ _ _ _ _ _ _ _ _ Hm) as (Hk & Hkn & f & gk & Hf & Hgk & Hfree).
  destruct Hm as [Hl Hg Hin Hp Hrel Hinv Hcp]. unfold surrender. rewrite Hf.
  destruct (decide (y_latch s !! k = None)) as [Hlk|Hlk].
  2: { rewrite bool_decide_eq_false_2 by done. destruct take; [by left|].
       destruct Hinv as (out & -> & _ & Hout). by eapply mark_waiting. }
  rewrite bool_decide_eq_true_2 by done. destruct (Hfree Hlk) as (Hneed & (Hpid & Hpg & _) & Htake).
  unfold move_reply. rewrite Hpid, Z.eqb_refl, bool_decide_eq_true_2 by done. unfold ensure. rewrite !bind_Ok.
  assert (∃ d s2, (if take then send_page k n s else Ok s) = Ok s2 ∧ (take = true → is_Some d ∧ d = g_page gk) ∧
    (take = false → d = y_data s !! n) ∧ y_frames s2 = y_frames s ∧ y_latch s2 = y_latch s ∧ y_ssd s2 = y_ssd s ∧
    y_last s2 = y_last s ∧ y_data s2 !! n = d ∧ ∀ j, j ≠ n → y_data s2 !! j = y_data s !! j)
    as (d & s2 & -> & Hd1 & Hd2 & Ef & El & Es & Ela & Ed & Eo).
  { destruct take.
    - destruct Htake as (x & Hx & Hd). unfold send_page, data_of. rewrite Hd. cbn [of_option]. rewrite bind_Ok.
      exists (Some x). eexists. split; [done|]. rewrite Hx. split_and!; try done; by intros; at_node.
    - exists (y_data s !! n), s. by split_and!. }
  rewrite bind_Ok.
  set (A' := mkD (<[n := mkGrant v m (need ∖ {[k]}) (if take then g_page gk else p)]> (delete k (d_gr A)))
                 (d_v A) (d_m A) (d_h A) (d_ssd A) (d_last A)).
  assert (dstep o A A') as Hstep.
  { apply (d_move o A n k (mkGrant v m need p) gk take); try done. destruct take; [destruct (Hd1 eq_refl) as [? <-]; done|by apply Hp]. }
  assert ((if take then g_page gk else p) = (if take then d else p)) as Hpage by (destruct take; [symmetry; by apply Hd1|done]).
  destruct (Hrel d) as [Hrem Hown]; [intros E; by apply Hd1|done|].
  right. eexists _, A'. split; [done|]. split; [by right|].
  apply (sim_update pid s _ A A' {[n; k]}); try done.
  - by right.
  - cbn. rewrite Es. apply (si_ssd _ _ _ Hs).
  - cbn. rewrite Ela. apply (si_last _ _ _ Hs).
  - intros j Hj. assert (j ≠ n ∧ j ≠ k) as [? ?] by (clear -Hj; set_solver).
    unfold same_at. cbn. rewrite Ef, El. rewrite !lookup_insert_ne, !lookup_delete_ne by done. split_and!; try done. by apply Eo.
  - cbn. destruct (decide (n = o)) as [->|Hn].
    + rewrite !lookup_insert_eq, !lookup_delete_ne, Ef, Ed, Hpage by done. by apply Hown.
    + rewrite !lookup_insert_ne, !lookup_delete_ne, Ef, El, Eo by done. apply (si_owner _ _ _ Hs).
  - intros j Hj Hjo. cbn. destruct (decide (j = n)) as [->|Hjn].
    + rewrite !lookup_insert_eq, !lookup_delete_ne, Ef, Ed, Hpage by done. by apply Hrem.
    + assert (j = k) as -> by (clear -Hj Hjn; set_solver).
      rewrite !lookup_insert_ne, !lookup_delete_eq, El, Hlk by done. apply rr_absent.
  - intros j Hj. cbn. rewrite Ef. intros [f' Hf']. apply lookup_delete_Some in Hf' as [_ Hf']. by eapply known_node.
  - intros j w v' Hj [Hjo Hc]. exfalso. revert Hc. cbn. destruct (decide (j = n)) as [->|Hjn].
    + rewrite lookup_insert_eq. intros [(? & ? & E & _)|(? & ? & ? & ? & E & _)]; apply (inj Some) in E; injection E as ->; done.
    + assert (j = k) as -> by (clear -Hj Hjn; set_solver). rewrite lookup_insert_ne, El, Hlk by done.
      intros [(? & ? & E & _)|(? & ? & ? & ? & E & _)]; discriminate E.
  - intros j fj Hj. cbn. rewrite Ef, El. intros [Hjk Hfj]%lookup_delete_Some Hmh.
    destruct (si_waits _ _ _ Hs j fj Hj Hfj Hmh) as (n' & out & Hl' & Hin').
    destruct (decide (n' = n)) as [->|Hn'].
    + rewrite Hl in Hl'. apply (inj Some) in Hl'. injection Hl' as ->. destruct take; [by destruct (Hinv out)|].
      destruct Hinv as (out' & E & -> & _). injection E as <-. exists n, (out ∖ {[k]}). rewrite lookup_insert_eq.
      split; [done|]. clear -Hin' Hjk. set_solver.
    + exists n', out. by rewrite lookup_insert_ne by done.
Qed.

Lemma moved_last k (X : gset Z) : k ∉ X → ({[k]} ∪ X) ∖ {[k]} = ∅ ∪ X.
Proof. set_solver. Qed.

Lemma handle_pmr_ok n k : allowed pid (handle_pmr pid n k s) A.
Proof.
  unfold handle_pmr. destruct (y_latch s !! n) as [[| |[]]|] eqn:Hl; try (by left).
  - destruct answered; [by left|]. destruct (Z.eqb_spec id k) as [->|]; [|by left]. unfold when. rewrite bind_Ok.
    destruct (decide (n = o)) as [->|Hn].
    + destruct (owner_move _ _ _ Hs _ _ _ Hl) as (f & Hf & Hself & Hm & _ & Hg). eapply surrender_ok. constructor; try done.
      * by apply elem_of_singleton.
      * intros d Hd _. split; [done|]. intros _. rewrite Hf, difference_diag_L. by apply (or_move pid _ _ _ f type k true d).
    + destruct (remote_move _ _ _ Hs n _ _ _ Hn Hl) as (f & Hf & Hio & _ & Hg). eapply surrender_ok. constructor; try done.
      * by apply elem_of_singleton.
      * intros d Hd _. split; [|done]. intros _. rewrite Hf, difference_diag_L. by apply (rr_move pid n f type k true d).
  - destruct answered; [by left|]. destruct (Z.eqb_spec id k) as [->|]; [|by left]. unfold when. rewrite bind_Ok.
    destruct (decide (n = o)) as [->|Hn].
    + destruct (owner_move_rnd _ _ _ Hs _ _ _ Hl) as (f & Hf & Hself & Hm & _ & Hu & Hid & Hg). eapply surrender_ok. constructor; try done.
      * apply elem_of_union_l. by apply elem_of_singleton.
      * intros d Hd _. split; [done|]. intros _. rewrite Hf, moved_last by done. by apply (or_move_rnd pid _ _ _ f k rest true d).
    + destruct (remote_move_rnd _ _ _ Hs n _ _ _ Hn Hl) as (f & Hf & Hio & _ & Hu & Hid & Hg). eapply surrender_ok. constructor; try done.
      * apply elem_of_union_l. by apply elem_of_singleton.
      * intros d Hd _. split; [|done]. intros _. rewrite Hf, moved_last by done. by apply (rr_move_rnd pid n f k rest true d).
  - destruct (decide (k ∈ out)) as [Hin|Hin];
      [rewrite bool_decide_eq_true_2 by done|rewrite bool_decide_eq_false_2 by done; by left]. unfold when. rewrite bind_Ok.
    destruct (decide (n = o)) as [->|Hn].
    + destruct (owner_inval _ _ _ Hs _ Hl) as (f & x & Hf & Hx & Hself & Hm & Hg). eapply (surrender_ok _ _ false). constructor; try done.
      * intros d _ Hd. rewrite (Hd eq_refl). split; [done|]. intros _. rewrite Hf, Hx. by apply (or_inval pid).
      * by exists out.
    + destruct (remote_inval _ _ _ Hs n _ Hn Hl) as (f & x & Hf & Hx & Hio & Hg). eapply (surrender_ok _ _ false). constructor; try done.
      * intros d _ Hd. rewrite (Hd eq_refl). split; [|done]. intros _. rewrite Hf, Hx. by apply (rr_inval pid).
      * by exists out.
Qed.

(** ** Copy requests *)

(** The copy failed. *)
Lemma copy_refused n type w id r : y_latch s !! n = Some (Holder (WCopy type w id None)) → r ≠ WithPage →
  allowed pid (Ok (put_l n (Holder (WCopy type w id (Some r))) s)) A.
Proof.
  intros Hl Hr. right. eexists _, A. split; [done|]. split; [by left|]. destruct (decide (n = o)) as [->|Hn].
  - destruct (owner_copy _ _ _ Hs _ _ _ _ Hl) as (f & Hf & Hb & Hv & Hp & Hst & Hpg & Hm & Hty & -> & Hid & How & Hh & Hg).
    apply (sim_owner pid Ho s _ A); try done; [by left|others|by apply (si_last _ _ _ Hs)| |congruence].
    at_node. rewrite Hf. apply or_copy; try done. by rewrite decide_False by congruence.
  - destruct (remote_copy _ _ _ Hs n _ _ _ _ Hn Hl) as (f & p & Hf & Hio & Hty & Hw & Hid & How & -> & Hg).
    apply (sim_worker pid s _ A n); try done; [by eapply known_node|others| | | |congruence].
    + at_node. rewrite Hf, Hg. apply rr_copy; try done. by rewrite decide_False by congruence.
    + intros w' v [_ [(? & ? & E & _)|(ty & i & r' & f' & E & Ef & <-)]]; revert E; at_node; [done|].
      intros [= <- <- <- <-]. cbn in Ef. apply (si_sources _ _ _ Hs n). split; [done|]. right. by eauto 10.
    + at_node. by eauto.
Qed.

(** A node the page is copied from has the version of the copy, in shared
    mode. *)
Lemma copied_version n type w id fn f x :
  y_latch s !! n = Some (Holder (WCopy type w id None)) → y_frames s !! n = Some fn → hot_ok pid id f →
  d_gr A !! id = Some (mkGrant (bf_pVersion f) (bf_possession f) ∅ (Some x)) →
  bf_pVersion f = bf_pVersion fn ∧ bf_possession f = SHARED.
Proof.
  intros Hl Hfn Hhot Hg. destruct (decide (n = o)) as [->|Hn].
  - destruct (owner_copy _ _ _ Hs _ _ _ _ Hl) as (fo & Hfo & _ & Hv & _ & _ & _ & Hm & _ & _ & Hid & _ & Hh & _).
    assert (fo = fn) as -> by congruence. rewrite <- Hh in Hid.
    destruct (di_holder _ _ HA id Hid) as (g & Hg' & Hvg). rewrite Hg in Hg'. apply (inj Some) in Hg' as <-. cbn in Hvg.
    destruct (di_dir _ _ HA id _ Hg) as [_ Hdir]. destruct (Hdir Hvg) as [_ Hmode]. cbn in Hmode. split; congruence.
  - destruct (remote_copy _ _ _ Hs n _ _ _ _ Hn Hl) as (fo & p & Hfo & _ & _ & _ & Hid & _ & -> & Hgn).
    assert (fo = fn) as -> by congruence.
    destruct (si_sources _ _ _ Hs n w (bf_pVersion fn)) as [_ Hle]; [split; [done|]; right; by eauto 10|].
    specialize (Hle id _ Hid Hg). cbn in Hle.
    pose proof (di_complete _ _ HA id _ n _ (conj Hg (conj eq_refl (ex_intro _ x eq_refl))) Hgn) as Hge. cbn in Hge.
    assert (bf_pVersion f = bf_pVersion fn) as Hv by lia. split; [done|].
    destruct (bf_possession f) eqn:Hp; [|exfalso|done].
    + by destruct (di_mode _ _ HA id _ Hg).
    + pose proof (di_single _ _ HA id _ n _ Hg Hgn Hv eq_refl) as ->. rewrite Hg in Hgn. congruence.
Qed.

(** The page is copied. *)
Lemma copy_sent n type w id f fn x :
  y_latch s !! n = Some (Holder (WCopy type w id None)) → y_frames s !! n = Some fn → hot_ok pid id f → y_data s !! id = Some x →
  d_gr A !! id = Some (mkGrant (bf_pVersion f) (bf_possession f) ∅ (Some x)) →
  allowed pid (Ok (put_l n (Holder (WCopy type w id (Some WithPage))) (put_d n x s))) A.
Proof.
  intros Hl Hfn Hhot Hd Hg. destruct (copied_version n type w id fn f x Hl Hfn Hhot Hg) as [Hv Hp].
  assert (complete_at A id (mkGrant (bf_pVersion f) (bf_possession f) ∅ (Some x))) as Hc by (split; [done|split; [done|by eexists]]).
  destruct (decide (n = o)) as [->|Hn].
  - destruct (owner_copy _ _ _ Hs _ _ _ _ Hl) as (fo & Hfo & Hb & Hvo & Hpo & Hst & Hpg & Hm & Hty & -> & Hid & How & Hh & Hgo).
    assert (fo = fn) as -> by congruence.
    assert (dstep o A (mkD (<[o := mkGrant (d_v A) SHARED ∅ (Some x)]> (d_gr A)) (d_v A) SHARED ({[o]} ∪ d_h A) (d_ssd A) (d_last A))) as Hstep.
    { apply (d_join o A o (Some x)); try done; [rewrite Hh; by eapply elem_nonempty|]. right. eexists id, _. by rewrite Hh. }
    right. eexists _, _. split; [done|]. split; [by right|].
    apply (sim_owner pid Ho s _ A); try done; [by right|others|by apply (si_last _ _ _ Hs)| |congruence].
    at_node. rewrite Hfo. apply or_copy; try done. rewrite decide_True, Hh by done. by split_and!.
  - destruct (remote_copy _ _ _ Hs n _ _ _ _ Hn Hl) as (fo & p & Hfo & Hio & Hty & Hw & Hid & How & -> & Hgn).
    assert (fo = fn) as -> by congruence.
    assert (dstep o A (mkD (<[n := mkGrant (bf_pVersion fn) SHARED ∅ (Some x)]> (d_gr A)) (d_v A) (d_m A) (d_h A) (d_ssd A) (d_last A))) as Hstep
      by (by apply (d_copy o A n id (bf_pVersion fn) _ Hgn Hc)).
    right. eexists _, _. split; [done|]. split; [by right|].
    apply (sim_remote pid s _ A _ n); try done; [by right|others|by apply (si_last _ _ _ Hs)|by eapply known_node| | |].
    + at_node. rewrite Hfo. apply rr_copy; try done.
    + intros w' v [_ [(? & ? & E & _)|(ty & i & r' & f' & E & Ef & <-)]]; revert E; at_node; [done|].
      intros [= <- <- <- <-]. cbn in Ef. assert (f' = fn) as -> by congruence.
      destruct (si_sources _ _ _ Hs n w (bf_pVersion fn)) as [Hle Hsrc]; [split; [done|]; right; by eauto 10|].
      split; [done|]. intros j g Hj. rewrite lookup_insert_Some. intros [[<- <-]|[_ Hgj]]; [done|by apply (Hsrc j)].
    + apply (waits_at pid s _ n); [apply (si_waits _ _ _ Hs)|others| |congruence]. at_node. by eauto.
Qed.

Lemma copy_reply_stuck v f : bf_state f = IO_RDMA → bf_mhWaiting f = true →
  copy_reply pid v f = Ok (PossessionCopyResponse_new CopyFailedWithRestart).
Proof.
  intros Hst Hmh. unfold copy_reply. rewrite Hst, Hmh. cbn [andb negb].
  rewrite (bool_decide_eq_false_2 (IO_RDMA = HOT)), bool_decide_eq_true_2 by (by left || done). done.
Qed.

(** The reply of a node that is at rest. *)
Lemma copy_from_rest n type w id f fn x :
  y_latch s !! n = Some (Holder (WCopy type w id None)) → y_frames s !! n = Some fn → hot_ok pid id f → y_data s !! id = Some x →
  d_gr A !! id = Some (mkGrant (bf_pVersion f) (bf_possession f) ∅ (Some x)) →
  allowed pid (msg ← copy_reply pid (bf_pVersion fn) f;
    s ← (if decide (pcrr_result msg = WithPage) then send_page id n s else Ok s);
    Ok (put_l n (Holder (WCopy type w id (Some (pcrr_result msg)))) s)) A.
Proof.
  intros Hl Hfn Hhot Hd Hg. destruct (copied_version n type w id fn f x Hl Hfn Hhot Hg) as [Hv Hp].
  assert (copy_reply pid (bf_pVersion fn) f = Ok (PossessionCopyResponse_new WithPage)) as ->.
  { destruct Hhot as ((Hpid & Hpg & _) & Hst & _). unfold copy_reply.
    rewrite Hst, (bool_decide_eq_true_2 (HOT = HOT)), andb_false_r, Hv, Hp, Hpid, !Z.eqb_refl, !bool_decide_eq_true_2 by done. done. }
  rewrite bind_Ok. cbn [pcrr_result PossessionCopyResponse_new]. rewrite decide_True by done.
  unfold send_page, data_of. rewrite Hd. cbn [of_option]. rewrite !bind_Ok. by eapply copy_sent.
Qed.

Lemma handle_pcr_ok n giveup : allowed pid (handle_pcr pid n giveup s) A.
Proof.
  unfold handle_pcr. destruct (y_latch s !! n) as [[| |[]]|] eqn:Hl; try (by left).
  destruct r as [r|]; [by left|].
  assert (∃ fn, y_frames s !! n = Some fn ∧ id ≠ o) as (fn & Hfn & Hid).
  { destruct (decide (n = o)) as [->|Hn].
    - destruct (owner_copy _ _ _ Hs _ _ _ _ Hl) as (fo & Hfo & _ & _ & _ & _ & _ & _ & _ & _ & Hid & How & _).
      exists fo. split; [done|]. congruence.
    - destruct (remote_copy _ _ _ Hs n _ _ _ _ Hn Hl) as (fo & p & Hfo & _ & _ & _ & Hid & How & _).
      exists fo. split; [done|]. congruence. }
  unfold frame_of. rewrite Hfn. cbn [of_option]. rewrite bind_Ok.
  destruct (y_frames s !! id) as [f|] eqn:Hf; [|by apply copy_refused].
  destruct (y_latch s !! id) as [[r|r|pc]|] eqn:Hlid.
  3: { destruct ((bf_pVersion f =? bf_pVersion fn) && negb giveup); [by left|by apply copy_refused]. }
  all: destruct (remote_free _ _ _ Hs id f Hid Hf) as [(x & Hd & Hhot & Hg)|(_ & (_ & Hst & _) & Hmh & _)]; [congruence|..].
  - by eapply copy_from_rest.
  - rewrite copy_reply_stuck by done. rewrite !bind_Ok. by apply copy_refused.
  - by eapply copy_from_rest.
  - rewrite copy_reply_stuck by done. rewrite !bind_Ok. by apply copy_refused.
  - by eapply copy_from_rest.
  - rewrite copy_reply_stuck by done. rewrite !bind_Ok. by apply copy_refused.
Qed.

(** ** Update requests *)

(** The mark of a waiting message handler is not part of the directory. *)
Lemma owner_waiting v m h g f l d b : owner_rel (V:=V) pid v m h g (Some f) l d → owner_rel pid v m h g (Some (set_mhWaiting b f)) l d.
Proof.
  intros Hr. remember (Some f) as fo eqn:Ef.
  destruct Hr; [discriminate Ef|..]; apply (inj Some) in Ef as ->.
  - by apply (or_read pid v m h (set_mhWaiting b f)).
  - by apply (or_rest pid v m h (set_mhWaiting b f)).
  - by apply (or_using pid v m h (set_mhWaiting b f)).
  - by apply (or_move pid v m h (set_mhWaiting b f)).
  - by apply (or_move_rnd pid v m h (set_mhWaiting b f)).
  - by apply (or_inval pid v m h (set_mhWaiting b f)).
  - by apply (or_copy pid v m h (set_mhWaiting b f)).
  - by apply (or_writing pid v m h (set_mhWaiting b f)).
  - by apply (or_take pid v m h (set_mhWaiting b f)).
Qed.

(** The frame of the owner of a page that node [n] may write. *)
Lemma update_reply_ok n f : n ≠ o → is_node n → dir_ok pid (d_v A) SHARED (d_h A) (d_gr A !! o) f (y_data s !! o) →
  n ∈ d_h A → y_frames s !! o = Some f →
  ∃ w park f', update_reply o n pid (d_v A) f = Ok (mkPURR UpdateSucceedWithSharedConflict (Some w) (Some (d_v A + 1)) 1, park, f') ∧
    is_u64 w ∧ bset w = d_h A ∖ {[o]} ∧ ∀ d : option V, dir_ok pid (d_v A + 1) EXCLUSIVE {[n]} None f' d.
Proof.
  intros Hn Hnode ((Hp & Hu & Hv0) & Hv & Hm & _ & Hh & _ & Hst) Hin Hf. specialize (Hver f Hf). unfold holders in Hh. rewrite Hm in Hh.
  assert (bf_pVersion (bump_pVersion f) = d_v A + 1) as Hb.
  { unfold bump_pVersion. cbn. rewrite Hv in *. apply u64_small. lia. }
  assert (is_u64 (sb64_reset (bf_possessors f) o)) as Hu' by (by apply sb64_reset_u64).
  assert (bset (sb64_reset (bf_possessors f) o) = d_h A ∖ {[o]}) as Hw by (by rewrite bset_reset, Hh).
  assert (sb64_any (sb64_reset (bf_possessors f) o) = true) as Hany.
  { rewrite bset_any by done. apply bool_decide_eq_true_2. rewrite Hw. clear -Hin Hn. set_solver. }
  assert (sb64_test (bf_possessors f) n = true) as Ht by (apply elem_of_bset; [done|congruence]).
  pose proof (node_u64 n Hnode) as Hnu. pose proof (Z.eqb_refl n) as En.
  exists (sb64_reset (bf_possessors f) o), (if decide (bf_state f = EVICTED) then None else bf_page f).
  assert (∃ f', update_reply o n pid (d_v A) f =
      Ok (mkPURR UpdateSucceedWithSharedConflict (Some (sb64_reset (bf_possessors f) o)) (Some (d_v A + 1)) 1,
          if decide (bf_state f = EVICTED) then None else bf_page f, f') ∧
      bf_pid f' = bf_pid f ∧ bf_possessors f' = n ∧ bf_pVersion f' = bf_pVersion (bump_pVersion f) ∧
      bf_possession f' = EXCLUSIVE ∧ bf_state f' = EVICTED ∧ bf_page f' = None) as (f' & Hr & E1 & E2 & E3 & E4 & E5 & E6).
  { unfold update_reply. rewrite Hp, Hv, !Z.eqb_refl, Ht. unfold ensure. rewrite !bind_Ok.
    change (bf_possessors (bump_pVersion f)) with (bf_possessors f).
    change (bf_possessors (set_possessors (sb64_reset (bf_possessors f) o) (bump_pVersion f))) with (sb64_reset (bf_possessors f) o).
    rewrite Hany, Hb. cbv iota beta.
    change (bf_state (set_possessors (sb64_reset (bf_possessors f) o) (bump_pVersion f))) with (bf_state f).
    change (bf_page (set_possessors (sb64_reset (bf_possessors f) o) (bump_pVersion f))) with (bf_page f).
    destruct Hst as [(Hst & _ & Hpg & _)|(Hst & _ & _ & Hpn)]; rewrite Hst.
    - rewrite (bool_decide_eq_false_2 (HOT = EVICTED)), (bool_decide_eq_true_2 (is_Some (bf_page f))), decide_False by done.
      cbn [negb]. rewrite !bind_Ok. unfold isPossessor. cbn -[sb64_reset]. rewrite En. by eexists.
    - rewrite (bool_decide_eq_true_2 (EVICTED = EVICTED)), decide_True by done.
      cbn [negb]. rewrite !bind_Ok. unfold isPossessor. cbn -[sb64_reset]. rewrite En. by eexists. }
  exists f'. split_and!; try done. intros d. unfold dir_ok, obase_ok, holders. rewrite E1, E2, E3, E4, E5, Hb.
  split_and!; try done; [lia|]. right. split_and!; try done. by rewrite elem_of_singleton.
Qed.

(** The worker of node [n] got an answer [msg] and the frame of the owner
    changed. *)
Lemma updated n old msg f' s2 A' :
  n ≠ o → y_latch s !! n = Some (Holder (WUpdate old None)) →
  y_frames s2 = y_frames s → y_latch s2 = y_latch s → y_ssd s2 = y_ssd s → y_last s2 = y_last s →
  (∀ m, m ≠ o → y_data s2 !! m = y_data s !! m) → A' = A ∨ dstep o A A' → d_ssd A' = d_ssd A → d_last A' = d_last A →
  (∀ m, m ≠ n → m ≠ o → d_gr A' !! m = d_gr A !! m) →
  remote_rel pid n (y_frames s !! n) (Some (Holder (WUpdate old (Some msg)))) (y_data s !! n) (d_gr A' !! n) →
  owner_rel pid (d_v A') (d_m A') (d_h A') (d_gr A' !! o) (Some f') (y_latch s !! o) (y_data s2 !! o) →
  allowed pid (Ok (put_l n (Holder (WUpdate old (Some msg))) (put_f o f' s2))) A.
Proof.
  intros Hn Hl Ef El Es Ela Ed Hstep Hss Hla Hgr Hrem Hown. assert (o ≠ n) as Hn' by done.
  right. eexists _, A'. split; [done|]. split; [done|].
  apply (sim_update pid s _ A A' {[n; o]}); try done.
  - cbn. rewrite Es, Hss. apply (si_ssd _ _ _ Hs).
  - cbn. rewrite Ela, Hla. apply (si_last _ _ _ Hs).
  - intros m Hm. assert (m ≠ n ∧ m ≠ o) as [? ?] by (clear -Hm; set_solver). split; [|by apply Hgr].
    unfold same_at. cbn. rewrite Ef, El. rewrite !lookup_insert_ne by done. split_and!; try done. by apply Ed.
  - cbn. rewrite lookup_insert_eq, lookup_insert_ne, El by done. done.
  - intros m Hm Hmo. assert (m = n) as -> by (clear -Hm Hmo; set_solver).
    cbn. rewrite lookup_insert_ne, lookup_insert_eq, Ef, Ed by done. done.
  - intros m Hm _. destruct (decide (m = o)) as [->|Hmo]; [done|].
    assert (m = n) as -> by (clear -Hm Hmo; set_solver).
    destruct (remote_update _ _ _ Hs n _ _ Hn Hl) as (f & x & Hf & _). by eapply known_node.
  - intros m w v Hm [Hmo Hc]. assert (m = n) as -> by (clear -Hm Hmo; set_solver). exfalso. revert Hc. cbn.
    rewrite lookup_insert_eq. intros [(? & ? & E & _)|(? & ? & ? & ? & E & _)]; discriminate E.
  - intros k fk Hk. cbn. rewrite lookup_insert_ne, Ef by done. intros Hfk Hmh.
    destruct (si_waits _ _ _ Hs k fk Hk Hfk Hmh) as (m & out & Hm & Hin). exists m, out. split; [|done].
    rewrite lookup_insert_ne, El; [done|]. congruence.
Qed.

(** The handler of the owner leaves a mark for the worker that uses the page. *)
Lemma owner_marked f : y_frames s !! o = Some f → allowed pid (Ok (put_f o (set_mhWaiting true f) s)) A.
Proof.
  intros Hf. right. eexists _, A. split; [done|]. split; [by left|].
  apply (sim_update pid s _ A A {[o]}); try done.
  - by left.
  - apply (si_ssd _ _ _ Hs).
  - apply (si_last _ _ _ Hs).
  - intros m Hm%not_elem_of_singleton. split; [|done]. unfold same_at. by at_node.
  - at_node. apply owner_waiting. rewrite <- Hf. apply (si_owner _ _ _ Hs).
  - by intros m ->%elem_of_singleton.
  - by intros m ->%elem_of_singleton.
  - intros m w v ->%elem_of_singleton [? _]. done.
  - intros k fk Hk. cbn. rewrite lookup_insert_ne by done. by apply (si_waits _ _ _ Hs).
Qed.

Lemma handle_pur_ok n : allowed pid (handle_pur pid n s) A.
Proof.
  unfold handle_pur. destruct (y_latch s !! n) as [[| |[]]|] eqn:Hl; try (by left).
  destruct r as [r|]; [by left|]. rename pVersionOld into old.
  destruct (decide (n = o)) as [->|Hn]; [by apply (owner_not_remote _ _ _ Hs) in Hl|].
  destruct (remote_update _ _ _ Hs n _ _ Hn Hl) as (f & x & Hf & Hd & Hhot & Hp & Hv & Hv0 & [[_ Hg]|(? & ? & ? & _)]); [|done].
  destruct (y_frames s !! o) as [fo|] eqn:Hfo.
  2: { destruct (owner_absent _ _ _ Hs Hfo) as (_ & _ & Hh & _). destruct (di_empty _ _ HA Hh) as [E _]. by rewrite E in Hg. }
  unfold frame_of. rewrite Hfo. cbn [of_option]. rewrite bind_Ok. cbv zeta.
  destruct (owner_version _ _ _ Hs fo Hfo) as [Hvo _]. rewrite Hvo.
  destruct (di_dir _ _ HA n _ Hg) as [Hle Hdir]. cbn in Hle, Hdir.
  destruct (Z.eqb_spec (d_v A) old) as [Heq|Hne].
  2: { rewrite andb_false_r, (proj2 (Z.ltb_lt old (d_v A))) by lia.
       apply (updated n old _ _ s A); try done; [by left|..].
       - rewrite Hf, Hd, Hg. apply rr_update; try done. right. by eexists.
       - apply owner_waiting. rewrite <- Hfo. apply (si_owner _ _ _ Hs). }
  destruct (decide (y_latch s !! o = None)) as [Hlo|Hlo].
  2: { rewrite bool_decide_eq_false_2 by done. cbn [negb andb]. by apply owner_marked. }
  rewrite bool_decide_eq_true_2 by done. cbn [negb andb]. rewrite (proj2 (Z.ltb_ge old (d_v A))) by lia.
  unfold ensure. rewrite bind_Ok. destruct (Hdir (eq_sym Heq)) as [Hin Hm].
  assert (∀ pc, y_latch s !! o ≠ Some (Holder pc)) as Hfree by (intros; congruence).
  pose proof (owner_free _ _ _ Hs fo Hfo Hfree) as Hok. rewrite <- Hm in Hok.
  destruct (update_reply_ok n fo Hn (known_node _ _ _ Hs n f Hf) Hok Hin Hfo) as (w & park & f' & Hr & Hu & Hw & Hdir').
  rewrite <- Heq. rewrite Hr. rewrite bind_Ok. cbv beta iota.
  set (A' := mkD (<[n := mkGrant (d_v A + 1) EXCLUSIVE (d_h A ∖ {[n]} ∖ {[o]}) (grant_page o A n)]> (delete o (d_gr A)))
                 (d_v A + 1) EXCLUSIVE {[n]} (d_ssd A) (d_last A)).
  assert (dstep o A A') as Hstep.
  { apply d_grant_x.
    - by eapply elem_nonempty.
    - intros g E. rewrite Hg in E. apply (inj Some) in E as <-. split; [done|]. split; [done|]. split; [done|by eexists].
    - intros g E. destruct Hok as (_ & _ & _ & _ & _ & _ & [(_ & _ & _ & Hdo & Hgo)|(_ & _ & Hgo & _)]); [|congruence].
      rewrite Hgo in E. apply (inj Some) in E as <-. by split. }
  apply (updated n _ _ f' _ A'); try done.
  - congruence.
  - by case_decide.
  - by case_decide.
  - by case_decide.
  - by case_decide.
  - intros m Hm'. case_decide; [done|]. at_node. done.
  - by right.
  - intros m ? ?. unfold A'. at_node. done.
  - unfold A'. at_node. rewrite Hf, Hd. unfold grant_page. rewrite Hg. cbn [g_page].
    replace (d_h A ∖ {[n]} ∖ {[o]}) with (bset w ∖ {[n]}) by (rewrite Hw; clear; set_solver).
    apply rr_updated; try done; lia.
  - unfold A'. cbn. rewrite lookup_insert_ne, lookup_delete_eq, Hlo by done. apply or_rest; [|by left]. by apply Hdir'.
Qed.
End requests.
