(* ===== verification/CoherenceEvict.v ===== *)
(** * The page providers in the coherence protocol

    The actions of the page providers: a node drops the page with the consent of
    its owner, the owner takes the page over, drops its own copy, writes it to
    the SSD or forgets it.  They rely on two things the rest of the protocol
    maintains: the dirty flag of the owner's frame ([clean]) and the table of
    copy requests in flight ([cinv]). *)

From S2P Require Import Prelude Defs Bitmap RingBuffer BufferFrame Eviction Messages Protocol Directory Coherence CoherenceInv CoherenceSim CoherenceView CoherenceSteps.
Local Open Scope Z_scope.
#[local] Existing Instance release_build.

Section invariants.
Context {V : Type} (pid : Z).
Notation o := (owner pid).
Implicit Types (A : dstate V) (s : @sys V) (f : BufferFrame) (n k : Z) (l : option hold).

(** A worker that may copy the page from another node. *)
Definition copying l : Prop :=
  match l with
  | Some (Holder (WaitPR _ (Some msg))) => prr_result msg = NoPageEvicted
  | Some (Holder (WCopy _ _ _ _)) => True
  | _ => False
  end.

(** The page may be written under the latch: it is used exclusively, or read
    back from another node. *)
Definition writable_under l : Prop :=
  match l with Some (Holder Using) | Some (Holder (WTake _)) => True | _ => False end.

(** A page that another node may write is dirty at the owner, and so is one the
    owner writes; copies are registered; a page is read back from a node whose
    provider waits for it, while no copy is registered. *)
Record cinv s : Prop := mkCinv {
  ci_remote f : y_frames s !! o = Some f → bf_possession f = EXCLUSIVE → bf_possessors f ≠ o → bf_dirty f = true;
  ci_using f : writable_under (y_latch s !! o) → y_frames s !! o = Some f → bf_dirty f = true;
  ci_copy n : n ≠ o → copying (y_latch s !! n) → n ∈ y_cr s;
  ci_take n : n ≠ o → y_latch s !! o = Some (Holder (WTake n)) ↔ y_latch s !! n = Some (Holder (WEvict EvReading));
  ci_none n : y_latch s !! o = Some (Holder (WTake n)) → y_cr s = ∅;
}.

(** A page that is not dirty is on the SSD, and no other node may write it. *)
Definition clean s A : Prop :=
  ∀ f, y_frames s !! o = Some f → bf_dirty f = false →
  y_ssd s = y_last s ∧ ∀ n g, n ≠ o → d_gr A !! n = Some g → g_m g ≠ EXCLUSIVE.

(** In a build without assertions [removeFrame] succeeds. *)
Lemma remove_frame_release n s : remove_frame pid n s = Ok (remove n s).
Proof. done. Qed.

(** A provider asks for a page whose worker gave up a copy: the frame is not
    latched, and its state is not yet that of a cached page. *)
Definition unfinished (a : @action V) s : Prop :=
  match a with
  | AEvict n _ _ _ _ _ _ _ => ∃ f, y_frames s !! n = Some f ∧ y_latch s !! n = None ∧ bf_state f = IO_RDMA
  | _ => False
  end.
End invariants.

Section providers.
Context {V : Type} (pid : Z).
Notation o := (owner pid).
Hypothesis Ho : is_node o.
Variables (s : @sys V) (A : dstate V).
Hypotheses (HA : dinv o A) (Hs : sim pid s A) (Hsrc : sourced o A) (Hc : cinv pid s) (Hcl : clean pid s A).
Implicit Types (f : BufferFrame) (n k : Z).

Lemma stays : allowed pid (Ok s) A.
Proof. right. exists s, A. split; [done|]. split; [by left|done]. Qed.

Lemma granted_node n g : d_gr A !! n = Some g → is_node n.
Proof.
  intros Hg. destruct (decide (n = o)) as [->|Hn]; [done|]. destruct (y_frames s !! n) as [f|] eqn:Hf; [by eapply known_node|].
  destruct (remote_absent _ _ _ Hs n Hn Hf). congruence.
Qed.

(** The owner's frame at rest is a directory entry in the sense of Eviction.v. *)
Lemma dir_entry f d : y_frames s !! o = Some f → dir_ok pid (d_v A) (d_m A) (d_h A) (d_gr A !! o) f d → entry_ok o f.
Proof.
  intros Hf ((Hp & Hu & Hv0) & Hv & Hm & Hne & Hh & Hh' & Hst). constructor; try done.
  - destruct (bf_possession f) eqn:Hpos; [congruence|left|by right]. split; [done|].
    assert (bf_possessors f ∈ d_h A) as Hin by (rewrite <- Hh; unfold holders; rewrite Hpos; by apply elem_of_singleton).
    destruct (di_holder _ _ HA _ Hin) as (g & Hg & _). by apply (granted_node _ g).
  - congruence.
  - rewrite Hh. destruct Hst as [(? & ? & ? & _)|(? & ? & _ & ?)]; [by left|by right].
  - by apply (ci_remote _ _ Hc).
Qed.

(** ** The owner's own page *)

(** Only the owner is left: the page is forgotten. *)
Lemma forget_ok n s' : d_h A = {[n]} → (∃ g, complete_at A n g) → y_ssd s = y_last s →
  y_ssd s' = y_ssd s → y_last s' = y_last s → y_frames s' !! o = None → y_latch s' !! o = None →
  (∀ m, m ≠ n → m ≠ o → same_at s s' m) →
  (n ≠ o → remote_rel pid n (y_frames s' !! n) (y_latch s' !! n) (y_data s' !! n) None) →
  (is_Some (y_frames s' !! n) → is_node n) → ¬ copying (y_latch s' !! n) →
  (∀ out, y_latch s !! n ≠ Some (Holder (WInval out))) → (∀ out, y_latch s !! o ≠ Some (Holder (WInval out))) →
  (∀ f', n ≠ o → y_frames s' !! n = Some f' → y_frames s !! n = Some f') →
  allowed pid (Ok s') A.
Proof.
  intros Hh [g Hg] Hssd Es El Hf Hl Hsame Hrel Hnode Hcp Hi Hio Hfr.
  assert (n ∈ d_h A) as Hin by (rewrite Hh; by apply elem_of_singleton).
  pose proof (holder_complete o A HA n g Hg Hin) as [_ Hall].
  assert (∀ m, m ≠ n → d_gr A !! m = None) as Hnone.
  { intros m Hm. destruct (d_gr A !! m) as [gm|] eqn:E; [|done]. destruct (Hall m gm E) as [_ Hmh]. rewrite Hh in Hmh.
    by apply elem_of_singleton in Hmh. }
  assert (d_ssd A = d_last A) as Hd by (rewrite <- (si_ssd _ _ _ Hs), <- (si_last _ _ _ Hs); done).
  pose proof (d_forget o A n g Hg Hh Hd) as Hst. right. eexists s', _. split; [done|]. split; [by right|].
  apply (sim_update pid s s' A _ {[n; o]}); cbn [d_gr d_v d_m d_h d_ssd d_last]; try done.
  - by right.
  - rewrite Es. apply (si_ssd _ _ _ Hs).
  - rewrite El. apply (si_last _ _ _ Hs).
  - intros m Hm. assert (m ≠ n ∧ m ≠ o) as [? ?] by (clear -Hm; set_solver). split; [by apply Hsame|]. by rewrite Hnone.
  - rewrite Hf, Hl, lookup_empty. by apply or_absent.
  - intros m Hm Hmo. assert (m = n) as -> by (clear -Hm Hmo; set_solver). rewrite lookup_empty. by apply Hrel.
  - intros m Hm Hfm. destruct (decide (m = o)) as [->|Hmo]; [done|]. assert (m = n) as -> by (clear -Hm Hmo; set_solver). by apply Hnode.
  - intros m w v Hm Hcs. exfalso. destruct Hcs as [Hmo Hcs]. assert (m = n) as -> by (clear -Hm Hmo; set_solver). apply Hcp.
    destruct Hcs as [(ty & msg & E & Er & _)|(ty & id & r & f & E & _)]; rewrite E; done.
  - intros k f' Hk Hf' Hm. assert (y_frames s !! k = Some f') as Hfk.
    { destruct (decide (k = n)) as [->|]; [by apply Hfr|]. destruct (Hsame k) as (E & _); [done..|]. congruence. }
    destruct (si_waits _ _ _ Hs k f' Hk Hfk Hm) as (m & out & Hlm & Hout). exists m, out. split; [|done].
    destruct (Hsame m) as (_ & -> & _); [|intros ->; by destruct (Hio out)|done]. intros ->. by destruct (Hi out).
Qed.

Lemma evict_own_ok ssd prob full downgraded rand epoch r f : y_frames s !! o = Some f → y_latch s !! o = None →
  allowed pid (evict pid o ssd prob full downgraded rand epoch r s) A.
Proof.
  intros Hf Hl. unfold evict. rewrite Hf, (bool_decide_eq_true_2 (_ = None)), assert_release, bind_Ok by done.
  assert (∀ pc, y_latch s !! o ≠ Some (Holder pc)) as Hfree by congruence.
  pose proof (owner_free _ _ _ Hs f Hf Hfree) as Hdir. pose proof (dir_entry f _ Hf Hdir) as Hentry.
  pose proof Hdir as ((Hp & Hu & Hv0) & Hv & Hm & Hne & Hh & Hh' & Hst).
  unfold candidate_step. destruct (negb (epoch =? bf_epoch f)); [rewrite bind_Ok; apply stays|].
  case_bool_decide as Hskip; [rewrite bind_Ok; apply stays|]. cbn [negb].
  assert (getOwner (bf_pid f) =? o = true) as -> by (rewrite Hp; apply Z.eqb_refl).
  destruct Hst as [(Hhot & Hin & Hpg & [x Hd] & Hg)|(Hev & _)]; [|by destruct Hskip; auto].
  destruct (evict_owner_page_ok (H:=release_build) o ssd prob full downgraded rand f eq_refl Ho Hentry Hhot) as (v & -> & Hkeep). rewrite !bind_Ok.
  assert (complete_at A o (mkGrant (d_v A) (d_m A) ∅ (Some x))) as Hco by (split; [congruence|split; [done|by eexists]]).
  assert (∀ out, y_latch s !! o ≠ Some (Holder (WInval out))) as Hi by congruence.
  destruct v as [| | | |pg f'|]; try apply stays.
  - destruct Hkeep as [_ Hdirty]. right. eexists _, A. split; [done|]. split; [by left|].
    apply (sim_owner pid Ho s _ A); try done; [by left|others|apply (si_last _ _ _ Hs)| |congruence].
    at_node. rewrite Hf. by apply or_writing.
  - destruct Hkeep as (_ & Hdirty & Hho). destruct (Hcl f Hf Hdirty) as [Hssd _].
    apply (forget_ok o); try done; try (by at_node); [congruence|by eexists| |].
    + intros m _ Hmo. unfold same_at. by at_node.
    + at_node. rewrite Hl. by intros [].
  - destruct Hkeep as (_ & Hentry' & Hho & Hev' & -> & Hsh). rewrite Hh in Hho.
    assert (d_h A ∖ {[o]} ≠ ∅) as Hrest by (rewrite <- Hho; apply Hentry').
    pose proof (d_drop_owner o A _ Hco Hrest) as Hst. right. eexists _, _. split; [done|]. split; [by right|].
    apply (sim_owner pid Ho s _ A); try done; [by right|others|apply (si_last _ _ _ Hs)| |congruence].
    at_node. rewrite Hl. apply or_rest; [|by left]. unfold dir_ok. rewrite Hho.
    destruct Hentry' as [Hu' _ _ _ _]. split; [by split_and!|]. split; [done|]. split; [done|]. split; [done|]. split; [done|]. split; [done|].
    right. split_and!; try done. clear. set_solver.
Qed.

Lemma written_ok : allowed pid (written pid s) A.
Proof.
  unfold written. destruct (y_latch s !! o) as [[|k|]|] eqn:Hl; try (by left).
  destruct (owner_writing _ _ _ Hs _ Hl) as (f & Hf & Hdir & Hhot & Hdirty).
  pose proof Hdir as (Hb & Hv & Hm & Hne & Hh & Hh' & [(_ & Hin & Hpg & [x Hd] & Hg)|(? & _)]); [|congruence].
  unfold frame_of, data_of. rewrite Hf, Hd. cbn [of_option]. rewrite !bind_Ok, Hdirty. cbn [ensure]. rewrite bind_Ok.
  rewrite Hd in Hg. assert (complete_at A o (mkGrant (d_v A) (d_m A) ∅ (Some x))) as Hco by (split; [done|split; [done|by eexists]]).
  assert (x = d_last A) as -> by (by eapply (di_last _ _ HA)).
  pose proof (d_flush o A _ Hco) as Hst. right. eexists _, _. split; [done|]. split; [by right|].
  apply (sim_update pid s _ A _ {[o]}); cbn [d_gr d_v d_m d_h d_ssd d_last]; try done.
  - by right.
  - by case_decide.
  - case_decide; apply (si_last _ _ _ Hs).
  - intros m Hm'%not_elem_of_singleton. split; [|done]. case_decide; unfold same_at; by at_node.
  - rewrite Hg, <- Hd. assert (dir_ok pid (d_v A) (d_m A) (d_h A) (Some (mkGrant (d_v A) (d_m A) ∅ (y_data s !! o))) (set_dirty false f) (y_data s !! o)) as Hdir'
      by (rewrite Hd, <- Hg, <- Hd; exact Hdir).
    case_decide; at_node; apply or_rest; try done; [by left|right; by eexists].
  - by intros m ->%elem_of_singleton.
  - by intros m ->%elem_of_singleton.
  - intros m w v ->%elem_of_singleton [? _]. done.
  - apply (waits_at pid s _ o); [apply (si_waits _ _ _ Hs)| |done|congruence].
    intros m Hm'. case_decide; unfold same_at; by at_node.
Qed.

(** ** Pages of other nodes *)

Lemma evict_remote_ok n ssd prob full downgraded rand epoch r f : n ≠ o → y_frames s !! n = Some f → y_latch s !! n = None →
  bf_state f ≠ IO_RDMA → allowed pid (evict pid n ssd prob full downgraded rand epoch r s) A.
Proof.
  intros Hn Hf Hl Hio. unfold evict. rewrite Hf, (bool_decide_eq_true_2 (_ = None)), assert_release, bind_Ok by done.
  destruct (remote_free _ _ _ Hs n f Hn Hf) as [(x & Hd & Hhot & Hg)|(_ & (_ & ? & _) & _)]; [congruence| |done].
  pose proof Hhot as ((Hp & _) & Hst & _).
  unfold candidate_step. destruct (negb (epoch =? bf_epoch f)); [rewrite bind_Ok; apply stays|].
  case_bool_decide; [rewrite bind_Ok; apply stays|]. cbn [negb].
  assert (getOwner (bf_pid f) =? n = false) as -> by (rewrite Hp; apply Z.eqb_neq; by intros E; apply Hn).
  destruct (er_full r); [rewrite bind_Ok; apply stays|]. rewrite (bool_decide_eq_true_2 _ Hst). cbn [ensure]. rewrite !bind_Ok.
  right. eexists _, A. split; [done|]. split; [by left|].
  apply (sim_worker pid s _ A n); try done; [by eapply known_node|others| |no_source|at_node; by eauto|congruence].
  at_node. rewrite Hf, Hd, Hg. by apply rr_evict.
Qed.

(** The check of the provider fails on a frame whose worker gave up. *)
Lemma evict_unfinished n ssd prob full downgraded rand epoch r f : n ≠ o → y_frames s !! n = Some f → y_latch s !! n = None →
  bf_state f = IO_RDMA →
  evict pid n ssd prob full downgraded rand epoch r s = Ok s ∨ evict pid n ssd prob full downgraded rand epoch r s = Throw EnsureFailed.
Proof.
  intros Hn Hf Hl Hio. unfold evict. rewrite Hf, (bool_decide_eq_true_2 (y_latch s !! n = None)), assert_release, bind_Ok by done.
  assert (bf_pid f = pid) as Hp.
  { destruct (remote_free _ _ _ Hs n f Hn Hf) as [(x & _ & ((? & _) & _) & _)|(_ & ((? & _) & _) & _)]; [congruence|done..]. }
  unfold candidate_step. destruct (negb (epoch =? bf_epoch f)); [by left|]. case_bool_decide; [by left|]. cbn [negb].
  assert (getOwner (bf_pid f) =? n = false) as -> by (rewrite Hp; apply Z.eqb_neq; by intros E; apply Hn).
  destruct (er_full r); [by left|]. rewrite bool_decide_eq_false_2 by congruence. by right.
Qed.

Lemma evict_ok n ssd prob full downgraded rand epoch r :
  let a := AEvict n ssd prob full downgraded rand epoch r in
  allowed pid (exec pid a s) A ∨ unfinished a s ∧ exec pid a s = Throw EnsureFailed.
Proof.
  cbn [exec]. destruct (y_frames s !! n) as [f|] eqn:Hf; [|left; left; unfold evict; by rewrite Hf].
  destruct (decide (y_latch s !! n = None)) as [Hl|Hl].
  - destruct (decide (n = o)) as [->|Hn]; [left; by eapply evict_own_ok|].
    destruct (decide (bf_state f = IO_RDMA)) as [Hio|]; [|left; by eapply evict_remote_ok].
    destruct (evict_unfinished n ssd prob full downgraded rand epoch r f Hn Hf Hl Hio) as [->| ->]; [left; apply stays|right].
    split; [by exists f|done].
  - left. unfold evict, candidate_step. rewrite Hf, (bool_decide_eq_false_2 (_ = None)), assert_release, bind_Ok by done.
    destruct (negb (epoch =? bf_epoch f)); [rewrite bind_Ok; apply stays|].
    case_bool_decide; cbn [negb]; rewrite bind_Ok; apply stays.
Qed.

(** Without a registered copy every holder has the page. *)
Lemma all_have_pages n g : complete_at A n g → n ∈ d_h A → y_cr s = ∅ →
  (∀ g, d_gr A !! o = Some g → is_Some (g_page g)) → all_pages A.
Proof.
  intros Hg Hin Hcr Hgo k gk Hk Hgk. pose proof (holder_needs o A HA n g k gk Hg Hin Hgk) as Hneed.
  destruct (decide (k = o)) as [->|Hko]; [by apply Hgo|].
  assert (¬ copying (y_latch s !! k)) as Hcp by (intros E; pose proof (ci_copy _ _ Hc k Hko E) as Hk'; rewrite Hcr in Hk'; by apply not_elem_of_empty in Hk').
  pose proof (si_remote _ _ _ Hs k Hko) as Hr. rewrite Hgk in Hr. remember (Some gk) as go eqn:Eg.
  remember (y_frames s !! k) as fo eqn:Ef. remember (y_latch s !! k) as l eqn:El. remember (y_data s !! k) as d eqn:Ed.
  destruct Hr as [|f l x Hh Hl|f d Hi Hm|f x Hh Hx|f type d Hi|f type msg d v need p Hi Hv Hv0 Hresp|f type id b d Hi Hb
    |f id rest b d Hi Hb Hu Hid|f out x Hi|f type w id r d p Hi Hty Hw Hid How Hp|f old r x Hh Hp Hv Hv0 Hr|f old msg w x Hh Hp Hv Hv0 Hr Hcf Hpv Hw|f e x Hh He|f d];
    try discriminate Eg; apply (inj Some) in Eg as <-; cbn [g_need g_page] in *; try (eexists; reflexivity).
  - exfalso. destruct (si_waits _ _ _ Hs k f Hko (eq_sym Ef) Hm) as (m & out & Hl & Hout).
    assert (∃ gm, d_gr A !! m = Some gm ∧ g_need gm = out) as (gm & Hgm & Em).
    { destruct (decide (m = o)) as [->|Hmo].
      - destruct (owner_inval _ _ _ Hs _ Hl) as (? & ? & _ & _ & _ & _ & Hgm). by eexists.
      - destruct (remote_inval _ _ _ Hs _ _ Hmo Hl) as (? & ? & _ & _ & _ & Hgm). by eexists. }
    rewrite (holder_needs o A HA n g m gm Hg Hin Hgm) in Em. subst out. by apply not_elem_of_empty in Hout.
  - unfold response_ok in Hresp. destruct (prr_result msg) eqn:E; try done.
    + destruct Hresp as (_ & -> & ?). done.
    + destruct Hresp as (w & _ & _ & -> & Hne & _). done.
    + destruct Hresp as (c & _ & -> & _). exfalso. clear -Hneed. set_solver.
    + destruct Hresp as (w & _ & _ & -> & Hne & _). done.
  - destruct b; [by apply Hb|]. exfalso. clear -Hneed. set_solver.
  - destruct b; [by apply Hb|]. exfalso. clear -Hneed. set_solver.
  - by destruct Hcp.
Qed.

(** The owner answers node [n]; [A'] is what became of the grants. *)
Lemma evict_answered n e f x fo' lo do s2 A' :
  n ≠ o → y_latch s !! n = Some (Holder (WEvict EvAsked)) → y_frames s !! n = Some f → y_data s !! n = Some x →
  A' = A ∨ dstep o A A' → d_ssd A' = d_ssd A → d_last A' = d_last A → (∀ m, m ≠ n → m ≠ o → d_gr A' !! m = d_gr A !! m) →
  y_ssd s2 = y_ssd s → y_last s2 = y_last s → y_frames s2 !! o = fo' → y_latch s2 !! o = lo → y_data s2 !! o = do →
  (∀ m, m ≠ o → same_at s s2 m) → (∀ out, y_latch s !! o ≠ Some (Holder (WInval out))) →
  owner_rel pid (d_v A') (d_m A') (d_h A') (d_gr A' !! o) fo' lo do →
  remote_rel pid n (Some f) (Some (Holder (WEvict e))) (Some x) (d_gr A' !! n) →
  allowed pid (Ok (put_l n (Holder (WEvict e)) s2)) A.
Proof.
  intros Hn Hl Hf Hx Hst Hssd Hlast Hgr Es El <- <- <- Hsame Hi Hown Hrem. right. eexists _, A'. split; [done|]. split; [done|].
  assert (o ≠ n) as Hn' by done. destruct (Hsame n Hn) as (Efn & _ & Edn).
  apply (sim_update pid s _ A A' {[n; o]}); try done.
  - cbn. rewrite Es, Hssd. apply (si_ssd _ _ _ Hs).
  - cbn. rewrite El, Hlast. apply (si_last _ _ _ Hs).
  - intros m Hm. assert (m ≠ n ∧ m ≠ o) as [? ?] by (clear -Hm; set_solver). split; [|by apply Hgr].
    unfold same_at. at_node. by apply Hsame.
  - at_node. done.
  - intros m Hm Hmo. assert (m = n) as -> by (clear -Hm Hmo; set_solver). at_node. by rewrite Efn, Edn, Hf, Hx.
  - intros m Hm Hfm. destruct (decide (m = o)) as [->|Hmo]; [done|]. assert (m = n) as -> by (clear -Hm Hmo; set_solver).
    by eapply known_node.
  - intros m w v Hm [Hmo Hcs]. assert (m = n) as -> by (clear -Hm Hmo; set_solver). exfalso. revert Hcs. at_node.
    intros [(? & ? & E & _)|(? & ? & ? & ? & E & _)]; discriminate E.
  - intros k fk Hk. at_node. destruct (Hsame k Hk) as (-> & _). intros Hfk Hm.
    destruct (si_waits _ _ _ Hs k fk Hk Hfk Hm) as (m & out & Hlm & Hout). exists m, out. split; [|done].
    assert (m ≠ o) as Hmo by (intros ->; by destruct (Hi out)). destruct (Hsame m Hmo) as (_ & E & _).
    assert (m ≠ n) by congruence. at_node. congruence.
Qed.

(** The provider of the owner refuses. *)
Lemma evict_refused n : n ≠ o → y_latch s !! n = Some (Holder (WEvict EvAsked)) →
  allowed pid (Ok (put_l n (Holder (WEvict (EvAnswered false))) s)) A.
Proof.
  intros Hn Hl. destruct (remote_evict _ _ _ Hs n _ Hn Hl) as (f & x & Hf & Hd & Hhot & Hg); [done|].
  right. eexists _, A. split; [done|]. split; [by left|].
  apply (sim_worker pid s _ A n); try done; [by eapply known_node|others| |no_source|at_node; by eauto|congruence].
  at_node. rewrite Hf, Hd, Hg. by apply rr_evict.
Qed.

(** The owner lets node [n] drop the page, or takes it over. *)
Lemma evict_accepted n ssd buf f fn x : n ≠ o → y_latch s !! n = Some (Holder (WEvict EvAsked)) → y_latch s !! o = None →
  y_frames s !! o = Some f → y_frames s !! n = Some fn → y_data s !! n = Some x → hot_ok pid n fn →
  d_gr A !! n = Some (mkGrant (bf_pVersion fn) (bf_possession fn) ∅ (Some x)) → bf_pVersion f = bf_pVersion fn → y_cr s = ∅ →
  rb_inv buf → 0 < rb_getSize buf →
  allowed pid ('(out, _) ← evict_entry ssd o n buf f;
    match out with
    | EAck f' => Ok (put_l n (Holder (WEvict (EvAnswered true))) (put_f o f' s))
    | EAckRemove _ =>
        _ ← assert_ (negb (upper_node o)); s ← remove_frame pid o s;
        Ok (put_l n (Holder (WEvict (EvAnswered true))) s)
    | ERead _ f' =>
        let s := if decide (bf_state f = EVICTED) then drop_d o s else s in
        Ok (put_l n (Holder (WEvict EvReading)) (put_l o (Holder (WTake n)) (put_f o f' s)))
    end) A.
Proof.
  intros Hn Hl Hlo Hf Hfn Hx Hhot Hg Hver Hcr Hbuf Hsize.
  assert (∀ pc, y_latch s !! o ≠ Some (Holder pc)) as Hfree by congruence.
  pose proof (owner_free _ _ _ Hs f Hf Hfree) as Hdir. pose proof (dir_entry f _ Hf Hdir) as Hentry.
  pose proof Hdir as ((Hp & Hu & Hv0) & Hv & Hm & Hne & Hh & Hh' & Hst).
  assert (complete_at A n (mkGrant (bf_pVersion fn) (bf_possession fn) ∅ (Some x))) as Hco by (split; [done|split; [done|by eexists]]).
  assert (n ∈ d_h A ∧ bf_possession fn = d_m A) as [Hin Hmn].
  { destruct (di_dir _ _ HA n _ Hg) as [_ Hd]. apply Hd. cbn. congruence. }
  assert (requester o n f) as Hreq by (split; [by eapply known_node|]; split; [done|]; by rewrite Hh).
  assert (all_pages A) as Hall.
  { eapply all_have_pages; try done. intros g E. destruct Hst as [(_ & _ & _ & Hd & Hgo)|(_ & _ & Hgo & _)]; [|congruence].
    rewrite Hgo in E. by apply (inj Some) in E as <-. }
  destruct (evict_entry_ok ssd o n buf f Ho Hentry Hreq Hbuf Hsize) as (out & buf' & -> & [Hdone Hsame] & _). rewrite bind_Ok.
  assert (∀ out, y_latch s !! o ≠ Some (Holder (WInval out))) as Hi by congruence.
  destruct out as [f'|f'|pg f']; destruct Hsame as (Ep & Ev & Epos).
  - destruct Hdone as (Hentry' & Hho & Epg & _). rewrite Hh in Hho. pose proof (eo_holders _ _ Hentry') as Hrest. rewrite Hho in Hrest.
    pose proof (d_drop o A n _ Hco Hin Hn Hrest Hall) as Hstep.
    eapply (evict_answered n _ fn x _ _ _ _ _ Hn Hl Hfn Hx (or_intror Hstep)); try done.
    + intros m ? ?. at_node. done.
    + intros m ?. unfold same_at. by at_node.
    + at_node. rewrite ?Hlo. apply or_rest; [|by left]. unfold dir_ok, obase_ok. rewrite Ep, Ev, Epos, Hho.
      split; [split_and!; [done|apply Hentry'|done]|]. do 5 (split; [done|]).
      destruct Hst as [(Est & Hoh & Hpg & Hd & Hgo)|(Est & Hoh & Hgo & Hpn)]; destruct (eo_state _ _ Hentry') as [(E1 & E2 & E3)|(E1 & E2 & E3)];
        rewrite Hho in E2.
      * left. split_and!; try done.
      * exfalso. clear -E2 Hoh Hn. set_solver.
      * exfalso. clear -E2 Hoh. set_solver.
      * right. split_and!; try done.
    + at_node. apply rr_evicted.
  - destruct Hdone as (_ & Hdirty & Hho). destruct (Hcl f Hf Hdirty) as [Hssd _]. assert (o ≠ n) as Hn' by done.
    rewrite assert_release, bind_Ok, remove_frame_release, bind_Ok.
    apply (forget_ok n); try done; try (by at_node); [congruence|by eexists| | | | |congruence].
    + intros m ? ?. unfold same_at. by at_node.
    + intros _. at_node. rewrite Hfn. apply rr_evicted.
    + intros _. by eapply known_node.
    + at_node. by intros [].
  - destruct Hdone as (Hentry' & Hho & Epg & Est & Hdirty). rewrite Hh in Hho. cbv zeta.
    eapply (evict_answered n _ fn x _ _ _ _ A Hn Hl Hfn Hx (or_introl eq_refl)); try done.
    + by case_decide.
    + by case_decide.
    + intros m ?. case_decide; unfold same_at; by at_node.
    + at_node. apply or_take; try done; [split_and!; [congruence|apply Hentry'|by rewrite Ev]|congruence|congruence|].
      destruct Hst as [(E & Hoh & _ & Hd & Hgo)|(E & Hoh & Hgo & _)]; [right|by left].
      rewrite decide_False by congruence. by split_and!.
    + rewrite Hg. by apply rr_evict.
Qed.

Lemma owner_never_asks n e : y_latch s !! n = Some (Holder (WEvict e)) → n ≠ o.
Proof. intros Hl ->. by apply (owner_not_remote _ _ _ Hs) in Hl. Qed.

(** The lookup of the owner's provider gave up and is undone. *)
Definition undo_fails (a : @action V) : Prop :=
  match a with
  | AHandleEvict n _ refuse true _ =>
      y_latch s !! n = Some (Holder (WEvict EvAsked)) ∧ (refuse = true ∨ y_latch s !! o ≠ None)
  | _ => False
  end.

Lemma handle_evict_ok n ssd refuse moved buf : rb_inv buf → 0 < rb_getSize buf →
  let a := AHandleEvict n ssd refuse moved buf in
  allowed pid (exec pid a s) A ∨ undo_fails a ∧ exec pid a s = Throw EnsureFailed.
Proof.
  intros Hbuf Hsize. cbn [exec]. unfold handle_evict. destruct (y_latch s !! n) as [[| |[]]|] eqn:Hl; try (left; by left).
  destruct e; try (left; by left). pose proof (owner_never_asks n _ Hl) as Hn.
  destruct (remote_evict _ _ _ Hs n _ Hn Hl) as (fn & x & Hfn & Hd & Hhot & Hg); [done|].
  unfold frame_of. rewrite Hfn. cbn [of_option]. rewrite bind_Ok.
  destruct (y_frames s !! o) as [f|] eqn:Hf.
  2: { destruct (owner_absent _ _ _ Hs Hf) as (_ & _ & Hh & _). destruct (di_empty _ _ HA Hh) as [E _]. by rewrite E in Hg. }
  destruct (refuse || negb (bool_decide (y_latch s !! o = None))) eqn:Hretry.
  { destruct moved; cbn [andb negb ensure orb]; [right|left; rewrite bind_Ok; by apply evict_refused].
    split; [|done]. split; [done|]. apply orb_true_iff in Hretry as [?|Hlo]; [by left|right].
    apply negb_true_iff, bool_decide_eq_false in Hlo. done. }
  left. rewrite andb_false_r. cbn [andb negb ensure orb]. rewrite bind_Ok. destruct moved; [by apply evict_refused|].
  apply orb_false_iff in Hretry as [_ Hlo]. apply negb_false_iff, bool_decide_eq_true in Hlo.
  destruct (Z.eqb_spec (bf_pVersion f) (bf_pVersion fn)) as [Hv|Hv]; [|by apply evict_refused]. cbn [negb].
  destruct (decide (y_cr s = ∅)) as [Hcr|Hcr];
    [rewrite bool_decide_eq_true_2 by done|rewrite bool_decide_eq_false_2 by done; by apply evict_refused]. cbn [negb].
  by eapply evict_accepted.
Qed.

Lemma taken_ok : allowed pid (taken pid s) A.
Proof.
  unfold taken. destruct (y_latch s !! o) as [[| |[]]|] eqn:Hlo; try (by left).
  destruct (y_latch s !! n) as [[| |[]]|] eqn:Hl; try (by left). destruct e; try (by left).
  destruct (owner_take _ _ _ Hs n Hlo) as (f & Hf & Hb & Hv & Hm & Hst & Hpg & Hne & Hin & Hn & Hho & Hg).
  destruct (remote_evict _ _ _ Hs n _ Hn Hl) as (fn & x & Hfn & Hd & Hhot & Hgn); [done|].
  unfold send_page, data_of. rewrite Hd. cbn [of_option]. rewrite !bind_Ok.
  assert (complete_at A n (mkGrant (bf_pVersion fn) (bf_possession fn) ∅ (Some x))) as Hco by (split; [done|split; [done|by eexists]]).
  assert (all_pages A) as Hall.
  { eapply all_have_pages; [done..|by eapply (ci_none _ _ Hc)|]. intros g E. destruct Hg as [[_ Hg]|(_ & Hdo & Hg)]; [congruence|].
    rewrite Hg in E. by apply (inj Some) in E as <-. }
  pose proof (d_take o A n _ Hco Hin Hn Hall) as Hstep. assert (o ≠ n) as Hn' by done.
  right. eexists _, _. split; [done|]. split; [by right|].
  apply (sim_update pid s _ A _ {[n; o]}); cbn [d_gr d_v d_m d_h d_ssd d_last]; try done.
  - by right.
  - apply (si_ssd _ _ _ Hs).
  - apply (si_last _ _ _ Hs).
  - intros m Hm'. assert (m ≠ n ∧ m ≠ o) as [? ?] by (clear -Hm'; set_solver). unfold same_at. by at_node.
  - at_node. rewrite Hf. apply or_rest; [|by left]. unfold dir_ok. rewrite Hho. split; [done|]. do 4 (split; [done|]). split; [clear; set_solver|].
    left. split_and!; try done. clear. set_solver.
  - intros m Hm' Hmo. assert (m = n) as -> by (clear -Hm' Hmo; set_solver). at_node. rewrite Hfn. apply rr_evicted.
  - intros m Hm' Hfm. destruct (decide (m = o)) as [->|Hmo]; [done|]. assert (m = n) as -> by (clear -Hm' Hmo; set_solver). by eapply known_node.
  - intros m w v Hm' [Hmo Hcs]. assert (m = n) as -> by (clear -Hm' Hmo; set_solver). exfalso. revert Hcs. at_node.
    intros [(? & ? & E & _)|(? & ? & ? & ? & E & _)]; discriminate E.
  - intros k fk Hk. at_node. intros Hfk Hm'.
    destruct (si_waits _ _ _ Hs k fk Hk Hfk Hm') as (m & out & Hlm & Hout). exists m, out. split; [|done].
    assert (m ≠ o) by congruence. assert (m ≠ n) by congruence. by at_node.
Qed.

Lemma resume_evict_ok n stale : deviates (@AResumeEvict V n stale) s = false → allowed pid (resume_evict pid n stale s) A.
Proof.
  intros Hdev. unfold resume_evict. destruct (y_latch s !! n) as [[| |[]]|] eqn:Hl; try (by left). destruct e as [| |[]]; try (by left);
    pose proof (owner_never_asks n _ Hl) as Hn.
  - cbn [orb]. rewrite assert_release, bind_Ok, remove_frame_release, bind_Ok. right; eexists _, A; (split; [done|]); (split; [by left|]).
    pose proof (remote_evicted _ _ _ Hs n Hn Hl) as Hg. destruct (y_frames s !! n) as [f|] eqn:Hf.
    2: { destruct (remote_absent _ _ _ Hs n Hn Hf). congruence. }
    apply (sim_worker pid s _ A n); try done; [by eapply known_node|others| |no_source|at_node; done|congruence].
    at_node. rewrite Hg. apply rr_absent.
  - assert (stale = false) as -> by (destruct stale; [|done]; cbn in Hdev; by rewrite Hl in Hdev). cbn [orb].
    right; eexists _, A; (split; [done|]); (split; [by left|]).
    destruct (remote_evict _ _ _ Hs n _ Hn Hl) as (f & x & Hf & Hd & Hhot & Hg); [done|].
    apply (sim_worker pid s _ A n); try done; [by eapply known_node|others| |no_source|at_node; by eauto|congruence].
    at_node. rewrite Hf, Hd, Hg. apply rr_rest; [done|by left].
Qed.

Lemma clear_cr_ok n : allowed pid (clear_cr n s) A.
Proof. right. exists (drop_cr n s), A. split; [done|]. split; [by left|]. destruct Hs. by constructor. Qed.
End providers.
