(* ===== verification/CoherenceTable.v ===== *)
(** * The dirty flag and the table of copy requests

    What the actions of workers and message handlers do to the flag of the
    owner's frame, to the registered copies and to the latches the page providers
    hold: the invariants CoherenceEvict.v relies on are kept by every action. *)

From S2P Require Import Prelude Defs Bitmap RingBuffer BufferFrame Eviction Messages Protocol Directory Coherence CoherenceInv CoherenceSim CoherenceView CoherenceSteps CoherenceEvict.
Local Open Scope Z_scope.
#[local] Existing Instance release_build.

(** Inverts a successful computation. *)
Ltac crunch H :=
  repeat lazymatch type of H with
  | mbind _ _ = Ok _ => apply bind_Ok_inv in H as (? & ? & H)
  | Throw _ = Ok _ => discriminate H
  | wait = Ok _ => discriminate H
  | Ok _ = Ok _ => apply Ok_inj in H
  | (let _ := _ in _) = Ok _ => progress cbv zeta in H
  | (match ?x with _ => _ end) = Ok _ => destruct x eqn:?
  | context [let _ := _ in _] => progress cbv zeta in H
  end.

(** Inverts every computation that is known to succeed. *)
Ltac crunch_all :=
  repeat match goal with
  | H : mbind _ _ = Ok _ |- _ => apply bind_Ok_inv in H as (? & ? & H)
  | H : Throw _ = Ok _ |- _ => discriminate H
  | H : Ok _ = Ok _ |- _ => apply Ok_inj in H
  | H : (let _ := _ in _) = Ok _ |- _ => progress cbv zeta in H
  | H : (match ?x with _ => _ end) = Ok _ |- _ => destruct x eqn:?
  end; simplify_eq.

(** ** Frames *)

Section frames.
Context (o : Z).
Implicit Types (f : BufferFrame) (n : Z).

(** Nobody but [o] has exclusive possession. *)
Definition nobody_else f : Prop := bf_possession f = EXCLUSIVE → bf_possessors f = o.

(** The flag stays, and nobody but [o] gets exclusive possession. *)
Definition keeps f f' : Prop :=
  bf_dirty f' = bf_dirty f ∧
  (nobody_else f' ∨ bf_possession f' = bf_possession f ∧ bf_possessors f' = bf_possessors f).

Lemma keeps_refl f : keeps f f.
Proof. split; auto. Qed.
Lemma keeps_trans f f' f'' : keeps f f' → keeps f' f'' → keeps f f''.
Proof. unfold keeps, nobody_else. intros [-> [?|[-> ->]]] [-> [?|[-> ->]]]; auto. Qed.
Lemma keeps_waiting f b : keeps f (set_mhWaiting b f).
Proof. split; auto. Qed.

Lemma remote_response_keeps msg f t f' : remote_response msg f = Ok (t, f') → keeps f f'.
Proof. intros H. unfold remote_response in H. crunch H; simplify_eq; split; auto. Qed.
Lemma update_start_keeps pid f r f' : update_start pid f = Ok (r, f') → keeps f f'.
Proof. intros H. unfold update_start in H. crunch H. simplify_eq. split; auto. Qed.
Lemma update_response_keeps n old msg f t f' : update_response n old msg f = Ok (t, f') → keeps f f'.
Proof. intros H. unfold update_response in H. crunch H; simplify_eq; split; auto. Qed.
Lemma local_start_keeps type n pid page f t f' : local_start type n pid page f = Ok (t, f') → keeps f f'.
Proof.
  intros H. unfold local_start in H. crunch H; simplify_eq; split; repeat case_decide; cbn in *; auto; left; intros ?; cbn in *; congruence.
Qed.

(** The possession is taken by [o]. *)
Definition taken_by f f' : Prop := bf_dirty f' = bf_dirty f ∧ nobody_else f'.
Lemma take_possession_by type f f' : take_possession type o f = Ok f' → taken_by f f'.
Proof.
  intros H. unfold take_possession, setPossessor in H. cbn in H. destruct (desired type); apply Ok_inj in H as <- || discriminate H;
    (split; [done|]); intros ?; by cbn in *.
Qed.
Lemma local_finish_by type t f f' : local_finish type o (local_resolved t f) = Ok f' → taken_by f f'.
Proof.
  intros H. unfold local_finish in H. crunch H; simplify_eq. destruct (take_possession_by type _ _ ltac:(done)) as [E ?].
  split; [|done]. rewrite E. by destruct t.
Qed.

(** ** Replies *)

(** A page that another node gets to write is marked. *)
Definition marks f f' : Prop := bf_dirty f' = true ∨ keeps f f'.

Lemma setPossessor_shared n f f' : bf_possession f ≠ EXCLUSIVE → setPossessor n f = Ok f' → bf_dirty f' = bf_dirty f ∧ bf_possession f' ≠ EXCLUSIVE.
Proof. unfold setPossessor. intros E H. crunch_all. split; [done|]. cbn. congruence. Qed.
Lemma setPossessor_dirty n f f' : setPossessor n f = Ok f' → bf_dirty f' = bf_dirty f.
Proof. unfold setPossessor. intros H. by crunch_all. Qed.
Lemma reply_with_page_spec n res c msg f r : reply_with_page n res c msg f = Ok r →
  ∃ f', setPossessor n f = Ok f' ∧ bf_dirty (rp_frame r) = bf_dirty f' ∧ bf_possession (rp_frame r) = bf_possession f' ∧
    prr_result (rp_msg r) = res ∧ res ≠ NoPageEvicted.
Proof.
  unfold reply_with_page. intros H. crunch_all; eexists; (split; [done|]); split_and!; try done;
    match goal with E : ensure (bool_decide (_ = WithPageSharedConflict ∨ _)) = _ |- _ => revert E end;
    case_bool_decide as E; cbn [ensure]; intros [=] ->; by destruct E.
Qed.
Lemma shared_marks f f' : bf_dirty f' = bf_dirty f → bf_possession f' ≠ EXCLUSIVE → marks f f'.
Proof. intros ? E. right. split; [done|]. left. intros ?. congruence. Qed.

Lemma reply_shared_marks n msg f r : reply_shared o n msg f = Ok r →
  marks f (rp_frame r) ∧ (prr_result (rp_msg r) = NoPageEvicted → rp_register r = true).
Proof.
  unfold reply_shared. intros H. crunch_all.
  - apply reply_with_page_spec in H as (f' & Hf' & Hd & Hp & Hr & Hne). split; [|congruence].
    apply setPossessor_shared in H1 as [Hd1 ?]; [|done]. apply setPossessor_shared in Hf' as [Hd2 ?]; [|done].
    apply shared_marks; [by rewrite Hd, Hd2, Hd1|congruence].
  - split; [|done]. match goal with E : setPossessor _ _ = _ |- _ => apply setPossessor_shared in E as [? ?]; [|done] end. by apply shared_marks.
  - split; [|done]. match goal with E : setPossessor _ _ = _ |- _ => apply setPossessor_shared in E as [? ?]; [|done] end. by apply shared_marks.
  - apply reply_with_page_spec in H as (f' & Hf' & Hd & Hp & Hr & Hne). split; [|congruence].
    apply setPossessor_shared in Hf' as [? ?]; [|done]. apply shared_marks; congruence.
Qed.
Lemma reply_exclusive_marks n msg f r : reply_exclusive o n msg f = Ok r →
  marks f (rp_frame r) ∧ prr_result (rp_msg r) ≠ NoPageEvicted.
Proof.
  unfold reply_exclusive. intros H. crunch_all; unfold marks;
    [| | |match goal with E : setPossessor _ _ = Ok ?x |- _ => split; [left; exact (setPossessor_dirty _ _ _ E)|done] end|];
    try (apply reply_with_page_spec in H as (f' & Hf' & Hd & _ & Hr & Hne); split; [left; rewrite Hd; exact (setPossessor_dirty _ _ _ Hf')|congruence]).
  split; [left; exact (setPossessor_dirty _ _ _ H0)|done].
Qed.
Lemma possession_reply_marks type st n f r : possession_reply (desired type) st o n f = Ok r →
  marks f (rp_frame r) ∧ (prr_result (rp_msg r) = NoPageEvicted → rp_register r = true).
Proof.
  unfold possession_reply, desired. destruct (decide (type = LS_EXCLUSIVE)); intros H; crunch_all.
  - destruct (reply_exclusive_marks _ _ _ _ H) as [? ?]. done.
  - by eapply reply_shared_marks.
Qed.
Lemma update_reply_marks n pid v f msg park f' : update_reply o n pid v f = Ok (msg, park, f') → bf_dirty f' = true.
Proof. unfold update_reply. intros H. by crunch_all. Qed.
End frames.

(** ** Steps of workers and message handlers *)

Section steps.
Context {V : Type} (pid : Z).
Notation o := (owner pid).
Implicit Types (s : @sys V) (f : BufferFrame) (n k : Z) (l : option hold).

(** What became of the owner's frame. *)
Definition flag_kept s s' : Prop := ∀ f', y_frames s' !! o = Some f' →
  bf_dirty f' = true ∨ (∃ f, y_frames s !! o = Some f ∧ keeps o f f') ∨ (y_frames s !! o = None ∧ nobody_else o f').

(** Frames and pages were changed, latches were not yet. *)
Record framed s s1 : Prop := mkFramed {
  fr_flag : flag_kept s s1;
  fr_latch : y_latch s1 = y_latch s;
  fr_cr : y_cr s1 = y_cr s;
  fr_ssd : y_ssd s1 = y_ssd s;
  fr_last : y_last s1 = y_last s;
}.

Lemma frame_of_Ok s n f : frame_of s n = Ok f → y_frames s !! n = Some f.
Proof. unfold frame_of. destruct (y_frames s !! n); cbn; [|done]. by intros ->%Ok_inj. Qed.

Lemma framed_refl s : framed s s.
Proof. constructor; try done. intros f Hf. right; left. exists f. split; [done|apply keeps_refl]. Qed.
Lemma framed_put_d s s1 n x : framed s s1 → framed s (put_d n x s1).
Proof. by intros []. Qed.
Lemma framed_drop_d s s1 n : framed s s1 → framed s (drop_d n s1).
Proof. by intros []. Qed.
Lemma framed_send s s1 s2 k n : framed s s1 → send_page k n s1 = Ok s2 → framed s s2.
Proof. intros Hs H. unfold send_page in H. crunch H. subst. by apply framed_put_d. Qed.
Lemma framed_put_f s s1 n f : framed s s1 →
  (n = o → bf_dirty f = true ∨ (∃ f0, y_frames s1 !! o = Some f0 ∧ keeps o f0 f) ∨ (y_frames s !! o = None ∧ nobody_else o f)) →
  framed s (put_f n f s1).
Proof.
  intros [Hf ? ? ? ?] Hn. constructor; try done. intros f' Hf'. cbn in Hf'.
  apply lookup_insert_Some in Hf' as [[E <-]|[_ Hf']]; [|by apply Hf].
  destruct (Hn E) as [?|[(f0 & Hf0 & Hk)|?]]; [by left| |by right; right].
  destruct (Hf f0 Hf0) as [Hd|[(f1 & Hf1 & Hk1)|[? Hnob]]].
  - left. destruct Hk as [-> _]. done.
  - right; left. exists f1. split; [done|]. by eapply keeps_trans.
  - destruct Hk as [_ [?|[E1 E2]]]; right; right; split; try done. unfold nobody_else in *. by rewrite E1, E2.
Qed.
Lemma framed_remove s s1 n : framed s s1 → framed s (remove n s1).
Proof. intros [Hf ? ? ? ?]. constructor; try done. intros f' Hf'. cbn in Hf'. apply lookup_delete_Some in Hf' as [_ ?]. by apply Hf. Qed.

(** The latch is not one the page provider holds for a page that is read back. *)
Definition no_reading l : Prop := match l with Some (Holder (WTake _)) | Some (Holder (WEvict EvReading)) => False | _ => True end.

(** A step of a worker or a message handler. *)
Record quiet s s' : Prop := mkQuiet {
  qu_flag : flag_kept s s';
  qu_using f : y_latch s' !! o = Some (Holder Using) → y_frames s' !! o = Some f →
    bf_dirty f = true ∨ y_latch s !! o = Some (Holder Using);
  qu_reading n : y_latch s' !! n = y_latch s !! n ∨ no_reading (y_latch s !! n) ∧ no_reading (y_latch s' !! n);
  qu_copy n : n ≠ o → copying (y_latch s' !! n) → n ∈ y_cr s' ∨ copying (y_latch s !! n) ∧ (n ∈ y_cr s → n ∈ y_cr s');
  qu_registered : y_cr s' ⊆ y_cr s ∨ y_latch s !! o = None;
  qu_ssd : y_ssd s' = y_ssd s;
  qu_last : y_last s' = y_last s ∨ y_frames s' = y_frames s ∧ ∃ n, y_latch s !! n = Some (Holder Using);
}.

(** The latch of [n] becomes [l]. *)
Lemma quiet_latch s s1 s' n l : framed s s1 →
  y_frames s' = y_frames s1 → y_cr s' = y_cr s1 → y_ssd s' = y_ssd s1 → y_last s' = y_last s1 →
  y_latch s' !! n = l → (∀ m, m ≠ n → y_latch s' !! m = y_latch s1 !! m) →
  no_reading (y_latch s !! n) → no_reading l →
  (n ≠ o → copying l → copying (y_latch s !! n)) →
  (n = o → l = Some (Holder Using) → ∀ f, y_frames s1 !! o = Some f → bf_dirty f = true ∨ y_latch s !! o = Some (Holder Using)) →
  quiet s s'.
Proof.
  intros [Hf Hlat Hcr Hssd Hlast] Ef Ec Es El El' Hsame Hnr Hnr' Hcp Hus.
  assert (∀ m, m ≠ n → y_latch s' !! m = y_latch s !! m) as Hm by (intros m ?; rewrite Hsame, Hlat; done).
  constructor.
  - intros f'. rewrite Ef. apply Hf.
  - intros f E. rewrite Ef. destruct (decide (n = o)) as [->|]; [apply Hus; congruence|]. right. by rewrite <- (Hm o).
  - intros m. destruct (decide (m = n)) as [->|]; [right; by rewrite El'|left; by apply Hm].
  - intros m Hmo Hc. right. rewrite Ec, Hcr. split; [|done].
    destruct (decide (m = n)) as [->|Hne]; [rewrite El' in Hc; by apply Hcp|]. by rewrite <- (Hm m).
  - left. by rewrite Ec, Hcr.
  - congruence.
  - left. congruence.
Qed.

Lemma quiet_framed s s' : framed s s' → quiet s s'.
Proof.
  intros [Hf Hl Hcr ? ?]. constructor; try done; rewrite ?Hl, ?Hcr; auto.
Qed.

Lemma quiet_put_l s s1 n h : framed s s1 → no_reading (y_latch s !! n) → no_reading (Some h) →
  (n ≠ o → copying (Some h) → copying (y_latch s !! n)) → h ≠ Holder Using → quiet s (put_l n h s1).
Proof. intros ? ? ? ? Hu. apply (quiet_latch s s1 _ n (Some h)); try done; try (intros; by at_node). by intros _ [=]. Qed.
Lemma quiet_drop_l s s1 n : framed s s1 → no_reading (y_latch s !! n) → quiet s (drop_l n s1).
Proof. intros ? ?. apply (quiet_latch s s1 _ n None); try done; intros; by at_node. Qed.
Lemma quiet_guard s s1 n f : framed s s1 → no_reading (y_latch s !! n) → quiet s (exclusive_guard n f s1).
Proof.
  intros ? ?. apply (quiet_latch s (put_f n (set_dirty true f) s1) _ n (Some (Holder Using))); try done; try (intros; by at_node).
  - apply framed_put_f; [done|]. by left.
  - intros -> _ f'. at_node. intros [= <-]. by left.
Qed.

(** ** [fix] *)

Lemma finish_quiet s s1 s' n type t : framed s s1 → no_reading (y_latch s !! n) → finish pid n type t s1 = Ok s' → quiet s s'.
Proof.
  intros Hfr Hn H. unfold finish in H. apply bind_Ok_inv in H as (f & Hf%frame_of_Ok & H). apply bind_Ok_inv in H as (f' & Hf' & H).
  apply Ok_inj in H as <-. case_decide; [by apply quiet_guard|].
  apply quiet_drop_l; [|done]. apply framed_put_f; [done|]. intros ->. right; left. rewrite Z.eqb_refl in Hf'.
  exists f. split; [done|]. destruct (local_finish_by o type t _ _ Hf'). split; auto.
Qed.

Lemma resolve_quiet s s1 s' n type raw t : framed s s1 → no_reading (y_latch s !! n) →
  (n ≠ o → ∀ w, t = TCopy w → copying (y_latch s !! n)) → resolve pid n type raw t s1 = Ok s' → quiet s s'.
Proof.
  intros Hfr Hn Hc H. unfold resolve in H. destruct t; [by eapply finish_quiet|..].
  - apply Ok_inj in H as <-. by apply quiet_put_l.
  - apply bind_Ok_inv in H as (? & _ & <-%Ok_inj). by apply quiet_put_l.
  - apply bind_Ok_inv in H as (? & _ & <-%Ok_inj). by apply quiet_put_l.
  - apply bind_Ok_inv in H as (? & _ & <-%Ok_inj). apply quiet_put_l; try done. intros Ho _. by eapply Hc.
Qed.

(** A node without a frame has no latch. *)
Definition no_latch s n : Prop := y_frames s !! n = None → y_latch s !! n = None.

Lemma install_nobody n page f : install_frame n pid page 0 bf_new = Ok f → nobody_else o f.
Proof. unfold install_frame. intros (? & _ & <-%Ok_inj)%bind_Ok_inv. done. Qed.

Lemma fix_miss_quiet s s' n type page : no_latch s n → y_frames s !! n = None → fix_miss pid n type page s = Ok s' → quiet s s'.
Proof.
  intros Hl Hf H. specialize (Hl Hf). unfold fix_miss in H. apply bind_Ok_inv in H as (f & Hi%install_nobody & H).
  destruct (Z.eqb_spec n o) as [->|Ho].
  - apply Ok_inj in H as <-. apply (quiet_put_l s (drop_d o (put_f o f s))); try done; [|by rewrite Hl].
    apply framed_drop_d, framed_put_f; [apply framed_refl|]. by right; right.
  - apply bind_Ok_inv in H as ([? f'] & _ & <-%Ok_inj). apply (quiet_put_l s (drop_d n (put_f n f' s))); try done; [|by rewrite Hl].
    apply framed_drop_d, framed_put_f; [apply framed_refl|done].
Qed.

Lemma when_Ok b x : when b = Ok x → b = true.
Proof. by destruct b. Qed.

(** The frame of a node changes; the flag of the owner's is kept. *)
Lemma framed_keep s n f f' : y_frames s !! n = Some f → keeps o f f' → framed s (put_f n f' s).
Proof. intros Hf Hk. apply framed_put_f; [apply framed_refl|]. intros ->. right; left. by exists f. Qed.

Lemma fix_frame_quiet s s' n type page raw f : y_frames s !! n = Some f → fix_frame pid n type page raw f s = Ok s' → quiet s s'.
Proof.
  intros Hf H. unfold fix_frame in H. destruct (bf_mhWaiting f); [done|].
  assert (∀ u, when (bool_decide (y_latch s !! n = None)) = Ok u → no_reading (y_latch s !! n)) as Hw
    by (intros u ->%when_Ok%bool_decide_eq_true; done).
  assert (∀ f', keeps o f f' → framed s (put_f n f' s)) as Hk by (intros f'; by apply framed_keep).
  assert (∀ u, mbind (λ _, '(req, f) ← update_start pid f; Ok (put_l n (Holder (WUpdate (pur_pVersion req) None)) (put_f n f s))) u = Ok s' →
     u = when (bool_decide (y_latch s !! n = None)) → quiet s s') as Hup.
  { intros u Hu ->. apply bind_Ok_inv in Hu as (u & Hu%Hw & Hup). apply bind_Ok_inv in Hup as ([req f'] & Hst & <-%Ok_inj).
    apply quiet_put_l; try done. apply Hk. by eapply update_start_keeps. }
  destruct (possession_state _ n f); try (by eapply Hup); clear Hup.
  - apply bind_Ok_inv in H as (u & Hu%Hw & H). apply bind_Ok_inv in H as ([t f'] & Hst & H).
    refine (resolve_quiet _ _ _ _ _ _ _ _ _ _ H); try done.
    + case_decide; [apply (framed_drop_d s (put_f n f' s))|]; apply Hk; by eapply local_start_keeps.
    + intros Hn. unfold local_start in Hst. apply bind_Ok_inv in Hst as (? & Hst & _). destruct (Z.eqb_spec (getOwner pid) n); [|done].
      by destruct Hn.
  - destruct type, (y_latch s !! n) as [[]|] eqn:Hl; try discriminate H; apply Ok_inj in H as <-;
      first [by apply quiet_framed, framed_refl | apply quiet_guard | apply quiet_put_l]; rewrite ?Hl; try done; apply framed_refl.
Qed.

Lemma do_fix_quiet s s' n type page raw : no_latch s n → do_fix pid n type page raw s = Ok s' → quiet s s'.
Proof.
  intros Hl. unfold do_fix. destruct (y_frames s !! n) eqn:Hf; [by apply fix_frame_quiet|by apply fix_miss_quiet].
Qed.

(** ** Resumption *)

Lemma read_done_quiet s s' : read_done pid s = Ok s' → quiet s s'.
Proof.
  unfold read_done. intros H. destruct (y_latch s !! o) as [[| |[]]|] eqn:Hl; try discriminate H.
  assert (no_reading (y_latch s !! o)) as Hn by by rewrite Hl.
  destruct type as [type|].
  - apply bind_Ok_inv in H as (f & Hf%frame_of_Ok & H). apply bind_Ok_inv in H as (f' & Ht & <-%Ok_inj).
    case_decide; [by apply quiet_guard, Hn; apply framed_put_d, framed_refl|].
    apply quiet_drop_l; [|done]. apply (framed_put_d s (put_f o f' s)). apply (framed_keep s o f); [done|].
    apply take_possession_by in Ht as [? ?]. split; auto.
  - apply Ok_inj in H as <-. apply quiet_drop_l; [|done]. apply framed_put_d, framed_refl.
Qed.

Lemma resume_pr_quiet s s' n raw : resume_pr pid n raw s = Ok s' → quiet s s'.
Proof.
  unfold resume_pr. intros H. destruct (y_latch s !! n) as [[| |[]]|] eqn:Hl; try discriminate H.
  destruct r as [msg|]; [|discriminate H].
  apply bind_Ok_inv in H as (f & Hf%frame_of_Ok & H). apply bind_Ok_inv in H as ([t f'] & Hr & H).
  refine (resolve_quiet _ _ _ _ _ _ _ _ _ _ H); rewrite ?Hl; try done.
  - apply (framed_keep s n f); [done|]. by eapply remote_response_keeps.
  - intros _ w ->. cbn. unfold remote_response in Hr. crunch Hr; congruence.
Qed.

Lemma resume_move_quiet s s' n : resume_move pid n s = Ok s' → quiet s s'.
Proof.
  unfold resume_move. intros H. destruct (y_latch s !! n) as [[| |[]]|] eqn:Hl; try discriminate H; destruct answered; try discriminate H.
  - eapply finish_quiet; [apply framed_refl|by rewrite Hl|done].
  - apply bind_Ok_inv in H as (X & _ & <-%Ok_inj). apply quiet_put_l; rewrite ?Hl; try done. apply framed_refl.
Qed.

Lemma resume_inval_quiet s s' n : resume_inval pid n s = Ok s' → quiet s s'.
Proof.
  unfold resume_inval. intros H. destruct (y_latch s !! n) as [[| |[]]|] eqn:Hl; try discriminate H.
  apply bind_Ok_inv in H as (u & _ & H). eapply finish_quiet; [apply framed_refl|by rewrite Hl|done].
Qed.

Lemma resume_copy_quiet s s' n raw : resume_copy pid n raw s = Ok s' → quiet s s'.
Proof.
  unfold resume_copy. intros H. destruct (y_latch s !! n) as [[| |[]]|] eqn:Hl; try discriminate H.
  destruct r as [r|]; [|discriminate H]. assert (no_reading (y_latch s !! n)) as Hn by by rewrite Hl.
  case_decide; [eapply finish_quiet; [apply framed_refl|done|done]|].
  apply bind_Ok_inv in H as (f & Hf%frame_of_Ok & H). destruct (n =? o); [|destruct (bf_mhWaiting f)].
  - apply bind_Ok_inv in H as ([pg f'] & Hc & <-%Ok_inj). apply (quiet_drop_l s (drop_d n (put_f n f' s))); [|done].
    apply framed_drop_d, (framed_keep s n f); [done|]. unfold local_copy_failed in Hc.
    apply bind_Ok_inv in Hc as (? & _ & Hc%Ok_inj). simplify_eq. split; auto.
  - apply Ok_inj in H as <-. apply quiet_drop_l; [apply framed_refl|done].
  - apply bind_Ok_inv in H as (id' & _ & <-%Ok_inj). apply quiet_put_l; rewrite ?Hl; try done. apply framed_refl.
Qed.

Lemma resume_update_quiet s s' n raw : resume_update pid n raw s = Ok s' → quiet s s'.
Proof.
  unfold resume_update. intros H. destruct (y_latch s !! n) as [[| |[]]|] eqn:Hl; try discriminate H.
  destruct r as [msg|]; [|discriminate H]. assert (no_reading (y_latch s !! n)) as Hn by by rewrite Hl.
  apply bind_Ok_inv in H as (f & Hf%frame_of_Ok & H). apply bind_Ok_inv in H as ([t f'] & Hr & H).
  assert (framed s (put_f n f' s)) as Hfr by (apply (framed_keep s n f); [done|by eapply update_response_keeps]).
  destruct t as [t|]; [|apply Ok_inj in H as <-; by apply quiet_drop_l].
  refine (resolve_quiet _ _ _ _ _ _ _ _ _ _ H); try done. intros _ w ->. unfold update_response in Hr. crunch Hr; congruence.
Qed.

(** ** Handlers *)

(** A copy is registered. *)
Lemma quiet_register s s1 n h : framed s s1 → y_latch s !! o = None → no_reading (y_latch s !! n) → no_reading (Some h) → h ≠ Holder Using →
  quiet s (put_l n h (put_cr n s1)).
Proof.
  intros [Hf Hlat Hcr Hssd Hlast] Hlo Hn Hn' Hu. constructor; cbn [y_frames y_latch y_cr y_ssd y_last put_l put_cr]; rewrite ?Hlat, ?Hcr; auto.
  - intros f Hlf. apply lookup_insert_Some in Hlf as [[_ [= ?]]|[_ ?]]; [done|]. by right.
  - intros m. destruct (decide (m = n)) as [->|]; [right; by rewrite lookup_insert_eq|left; by rewrite lookup_insert_ne].
  - intros m _. destruct (decide (m = n)) as [->|]; [left; set_solver-|]. rewrite lookup_insert_ne by done. right. split; [done|set_solver-].
Qed.

Lemma handle_pr_quiet s s' n page : no_latch s o → handle_pr pid n page s = Ok s' → quiet s s'.
Proof.
  intros Hno. unfold handle_pr. intros H. destruct (y_latch s !! n) as [[| |[]]|] eqn:Hl; try discriminate H.
  destruct r as [msg|]; [discriminate H|]. destruct (y_frames s !! o) as [f|] eqn:Hf.
  - apply bind_Ok_inv in H as (u & Hu%when_Ok%bool_decide_eq_true & H). apply bind_Ok_inv in H as (u' & _ & H).
    apply bind_Ok_inv in H as (r & Hr & H). apply bind_Ok_inv in H as (s1 & Hs1 & H).
    destruct (possession_reply_marks _ _ _ _ _ _ Hr) as [Hm Hreg]. clear Hr. cbv zeta in H.
    set (s2 := if decide (rp_park r = None) then s1 else drop_d o s1) in H.
    assert (framed s s1) as Hs1' by (destruct (rp_page r); [eapply framed_send; [apply framed_refl|done]|apply Ok_inj in Hs1 as <-; apply framed_refl]).
    assert (y_frames s2 !! o = Some f) as Hf2.
    { assert (y_frames s1 = y_frames s) as E.
      { destruct (rp_page r); [|by apply Ok_inj in Hs1 as <-]. unfold send_page in Hs1. by apply bind_Ok_inv in Hs1 as (? & _ & <-%Ok_inj). }
      unfold s2. case_decide; cbn; by rewrite E. }
    assert (framed s (put_f o (rp_frame r) s2)) as Hfr.
    { apply framed_put_f; [unfold s2; case_decide; [|apply framed_drop_d]; done|]. intros _. destruct Hm; [by left|right; left]. by exists f. }
    clearbody s2. apply Ok_inj in H as <-. destruct (rp_register r) eqn:Er.
    + apply (quiet_register s (put_f o (rp_frame r) s2)); try done. by rewrite Hl.
    + apply quiet_put_l; rewrite ?Hl; try done. cbn. intros _ E. by apply Hreg in E.
  - apply bind_Ok_inv in H as (f0 & _ & H). rewrite assert_release, bind_Ok in H. apply bind_Ok_inv in H as (f & Hi & <-%Ok_inj).
    apply (quiet_put_l s (drop_d o (put_f o f s))); try done; [|by rewrite (Hno Hf)].
    apply framed_drop_d, framed_put_f; [apply framed_refl|]. intros _. right; right. split; [done|].
    unfold ssd_frame in Hi. apply bind_Ok_inv in Hi as (f1 & Hi & <-%Ok_inj).
    apply setPossessor_shared in Hi as [_ ?]; [|done]. intros E. by cbn in E.
Qed.

Lemma surrender_quiet s s' n k need pc pc' : y_latch s !! n = Some (Holder pc) → surrender pid n k need pc' s = Ok s' →
  match pc with WMove _ _ _ | WMoveRnd _ _ _ | WInval _ => True | _ => False end →
  match pc' with WMove _ _ _ | WMoveRnd _ _ _ | WInval _ => True | _ => False end → quiet s s'.
Proof.
  intros Hl H Hpc Hpc'. assert (no_reading (y_latch s !! n)) as Hn by (rewrite Hl; by destruct pc).
  unfold surrender in H. destruct (y_frames s !! k) as [f|] eqn:Hf; [|discriminate H].
  case_bool_decide.
  - apply bind_Ok_inv in H as (? & _ & H). apply bind_Ok_inv in H as (s1 & Hs1 & H). rewrite remove_frame_release, bind_Ok in H. apply Ok_inj in H as <-.
    apply quiet_put_l; try done; try by destruct pc'. apply framed_remove.
    destruct need; [eapply framed_send; [apply framed_refl|done]|apply Ok_inj in Hs1 as <-; apply framed_refl].
  - destruct need; [discriminate H|]. apply Ok_inj in H as <-. apply quiet_framed, (framed_keep s k f); [done|apply keeps_waiting].
Qed.

Lemma handle_pmr_quiet s s' n k : handle_pmr pid n k s = Ok s' → quiet s s'.
Proof.
  unfold handle_pmr. intros H. destruct (y_latch s !! n) as [[| |[]]|] eqn:Hl; try discriminate H; try destruct answered; try discriminate H;
    apply bind_Ok_inv in H as (? & _ & H); by eapply surrender_quiet.
Qed.

Lemma handle_pcr_quiet s s' n giveup : handle_pcr pid n giveup s = Ok s' → quiet s s'.
Proof.
  unfold handle_pcr. intros H. destruct (y_latch s !! n) as [[| |[]]|] eqn:Hl; try discriminate H.
  destruct r as [r|]; [discriminate H|].
  assert (∀ s1 res, framed s s1 → quiet s (put_l n (Holder (WCopy type shared id (Some res))) s1)) as Hput
    by (intros s1 res Hfr; apply quiet_put_l; rewrite ?Hl; done).
  pose proof (framed_refl s) as Hrefl.
  apply bind_Ok_inv in H as (fn & _ & H). destruct (y_frames s !! id) as [f|]; [|apply Ok_inj in H as <-; by apply Hput].
  assert ((msg ← copy_reply pid (bf_pVersion fn) f; s1 ← (if decide (pcrr_result msg = WithPage) then send_page id n s else Ok s);
     Ok (put_l n (Holder (WCopy type shared id (Some (pcrr_result msg)))) s1)) = Ok s' → quiet s s') as Hcopy.
  { intros (msg & _ & (s1 & Hs1 & <-%Ok_inj)%bind_Ok_inv)%bind_Ok_inv. apply Hput.
    case_decide; [by eapply framed_send|by apply Ok_inj in Hs1 as <-]. }
  destruct (y_latch s !! id) as [[| |]|]; try (by apply Hcopy).
  destruct (_ && _); [discriminate H|]. apply Ok_inj in H as <-. by apply Hput.
Qed.

Lemma handle_pur_quiet s s' n : handle_pur pid n s = Ok s' → quiet s s'.
Proof.
  unfold handle_pur. intros H. destruct (y_latch s !! n) as [[| |[]]|] eqn:Hl; try discriminate H.
  destruct r as [msg|]; [discriminate H|]. apply bind_Ok_inv in H as (f & Hf%frame_of_Ok & H).
  assert (∀ b, framed s (put_f o (set_mhWaiting b f) s)) as Hk by (intros b; apply (framed_keep s o f); [done|apply keeps_waiting]).
  destruct (_ && _); [apply Ok_inj in H as <-; by apply quiet_framed|].
  destruct (_ <? _); [apply Ok_inj in H as <-; apply quiet_put_l; by rewrite ?Hl|].
  apply bind_Ok_inv in H as (? & _ & H). apply bind_Ok_inv in H as ([[msg park] f'] & Hr & <-%Ok_inj).
  apply update_reply_marks in Hr. apply quiet_put_l; rewrite ?Hl; try done. apply framed_put_f; [|by left].
  case_decide; [|apply framed_drop_d]; apply framed_refl.
Qed.

(** ** Use of the page *)

Lemma write_quiet s s' n x : write n x s = Ok s' → quiet s s'.
Proof.
  unfold write. intros H. destruct (y_latch s !! n) as [[| |[]]|] eqn:Hl; try discriminate H. apply Ok_inj in H as <-.
  destruct (quiet_framed s s (framed_refl s)). constructor; try done. right. split; [done|]. by exists n.
Qed.
Lemma release_quiet s s' n : release n s = Ok s' → quiet s s'.
Proof.
  unfold release. intros H. pose proof (framed_refl s) as Hrefl.
  destruct (y_latch s !! n) as [[k|[|k]|[]]|] eqn:Hl; try discriminate H; [destruct k as [|[]]| |]; apply Ok_inj in H as <-;
    first [apply quiet_drop_l|apply quiet_put_l]; by rewrite ?Hl.
Qed.

(** ** The page providers *)

Lemma evict_page_keeps ssd prob n full downgraded rand f pg f' : evict_owner_page ssd prob n full downgraded rand f = Ok (EvPage pg f') → keeps o f f'.
Proof.
  unfold evict_owner_page. intros H. crunch_all; repeat case_match; try done. split; [done|]. left. intros E. cbn in E.
  match goal with E' : _ && bool_decide (bf_possession f = SHARED) = true |- _ => apply andb_true_iff in E' as [_ E'%bool_decide_eq_true] end.
  congruence.
Qed.
Lemma candidate_page_keeps ssd prob n epoch b full downgraded rand r f pg f' :
  candidate_step ssd prob n epoch b full downgraded rand r f = Ok (DOwn (EvPage pg f')) → keeps o f f'.
Proof.
  unfold candidate_step. destruct (negb (epoch =? _)); [done|]. destruct (bool_decide _); [done|]. destruct (negb b); [done|].
  destruct (_ =? n); [|destruct (er_full r); [done|by intros (? & _ & ?)%bind_Ok_inv]].
  intros (v & Hv & H%Ok_inj)%bind_Ok_inv. destruct v; try discriminate H. injection H as -> ->. by eapply evict_page_keeps.
Qed.
Lemma candidate_latched ssd prob n epoch full downgraded rand r f d :
  candidate_step ssd prob n epoch false full downgraded rand r f = Ok d → d = DSkip.
Proof. unfold candidate_step. cbn. intros H. by crunch_all. Qed.

Lemma evict_quiet s s' n ssd prob full downgraded rand epoch r : evict pid n ssd prob full downgraded rand epoch r s = Ok s' → quiet s s'.
Proof.
  unfold evict. intros H. destruct (y_frames s !! n) as [f|] eqn:Hf; [|discriminate H]. rewrite assert_release, bind_Ok in H. apply bind_Ok_inv in H as (d & Hd & H).
  pose proof (framed_refl s) as Hrefl. destruct (decide (y_latch s !! n = None)) as [Hl|Hl].
  - assert (no_reading (y_latch s !! n)) as Hn by by rewrite Hl.
    destruct d as [| |[]|]; rewrite ?remove_frame_release in H; apply Ok_inj in H as <-; try (by apply quiet_framed); try (by apply quiet_put_l); [by apply quiet_framed, framed_remove|].
    apply quiet_framed, framed_drop_d, (framed_keep s n f); [done|]. by eapply candidate_page_keeps.
  - rewrite bool_decide_eq_false_2 in Hd by done. rewrite (candidate_latched _ _ _ _ _ _ _ _ _ _ Hd) in H. apply Ok_inj in H as <-. by apply quiet_framed.
Qed.

Lemma resume_evict_quiet s s' n stale : resume_evict pid n stale s = Ok s' → quiet s s'.
Proof.
  unfold resume_evict. intros H. destruct (y_latch s !! n) as [[| |[]]|] eqn:Hl; try discriminate H. destruct e as [| |b]; try discriminate H.
  destruct (b || stale); [rewrite assert_release, bind_Ok, remove_frame_release, bind_Ok in H|];
    apply Ok_inj in H as <-; (apply quiet_drop_l; [|by rewrite Hl]); [apply framed_remove|]; apply framed_refl.
Qed.

Lemma clear_cr_quiet s s' n : deviates (@AClearCR V n) s = false → clear_cr n s = Ok s' → quiet s s'.
Proof.
  intros Hdev <-%Ok_inj. assert (¬ copying (y_latch s !! n)) as Hn.
  { cbn in Hdev. destruct (y_latch s !! n) as [[| |[]]|]; try destruct r; try discriminate Hdev; cbn; tauto. }
  destruct (quiet_framed s s (framed_refl s)). constructor; try done.
  - intros m Hm Hc. cbn. right. split; [done|]. intros ?. assert (m ≠ n) by (intros ->; done).
    apply elem_of_difference. split; [done|]. by apply not_elem_of_singleton.
  - left. cbn. apply subseteq_difference_l. done.
Qed.

(** The owner's provider answers, or it starts to read the page. *)
Definition starts_reading n s s' : Prop :=
  n ≠ o ∧ y_latch s !! o = None ∧ y_cr s = ∅ ∧ y_cr s' = ∅ ∧
  y_latch s' = <[n := Holder (WEvict EvReading)]> (<[o := Holder (WTake n)]> (y_latch s)) ∧
  ∀ f, y_frames s' !! o = Some f → bf_dirty f = true.

Lemma evict_entry_flag ssd n buf f out buf' : evict_entry ssd o n buf f = Ok (out, buf') →
  match out with EAck f' => keeps o f f' | EAckRemove _ => True | ERead _ f' => bf_dirty f' = true end.
Proof.
  unfold evict_entry. intros ([needRead f1] & Hp & H)%bind_Ok_inv.
  assert (bf_dirty f1 = bf_dirty f) as Hd by (unfold entry_possession in Hp; by crunch_all).
  destruct needRead; cbn [negb] in H.
  - apply bind_Ok_inv in H as ([pg b] & _ & H%Ok_inj). by simplify_eq.
  - apply bind_Ok_inv in H as (? & He & H). destruct (bool_decide_reflect (bf_possession f1 = SHARED)) as [Hs|Hs]; [|discriminate He]. cbv zeta in H.
    destruct (sb64_none _); [by crunch_all|]. apply bind_Ok_inv in H as (? & _ & H%Ok_inj). simplify_eq.
    split; [done|]. left. intros E. cbn in E. congruence.
Qed.

Lemma handle_evict_quiet s s' n ssd refuse moved buf : n ≠ o → handle_evict pid n ssd refuse moved buf s = Ok s' →
  quiet s s' ∨ starts_reading n s s'.
Proof.
  intros Hn. unfold handle_evict. intros H. destruct (y_latch s !! n) as [[| |[]]|] eqn:Hl; try discriminate H. destruct e; try discriminate H.
  apply bind_Ok_inv in H as (fn & _ & H). destruct (y_frames s !! o) as [f|] eqn:Hf; [|discriminate H].
  assert (∀ b s1, framed s s1 → quiet s (put_l n (Holder (WEvict (EvAnswered b))) s1)) as Hans
    by (intros b s1 ?; apply quiet_put_l; by rewrite ?Hl).
  pose proof (Hans false s (framed_refl s)) as Hno. cbv zeta in H. apply bind_Ok_inv in H as (u & _ & H).
  destruct (refuse || _ || moved) eqn:Hr; [apply Ok_inj in H as <-; by left|].
  apply orb_false_iff in Hr as [Hr _]. apply orb_false_iff in Hr as [_ Hlo%negb_false_iff%bool_decide_eq_true].
  destruct (_ =? _); cbn [negb] in H; [|apply Ok_inj in H as <-; by left].
  case_bool_decide as Hcr; cbn [negb] in H; [|apply Ok_inj in H as <-; by left].
  apply bind_Ok_inv in H as ([out buf'] & He%evict_entry_flag & H).
  destruct out; [|rewrite assert_release, bind_Ok, remove_frame_release, bind_Ok in H|]; apply Ok_inj in H as <-.
  - left. apply Hans, (framed_keep s o f); done.
  - left. apply Hans, framed_remove, framed_refl.
  - right. unfold starts_reading. case_decide; split_and!; try done; intros f'; cbn; rewrite lookup_insert_eq; by intros [= <-].
Qed.
End steps.
