(* ===== verification/CoherenceWhole.v ===== *)
(** * The invariant of the whole system

    The relation to the directory specification together with what the page
    providers rely on, kept by every action. *)

From S2P Require Import Prelude Defs Bitmap RingBuffer BufferFrame Eviction Messages Protocol Directory Coherence CoherenceInv CoherenceSim CoherenceView CoherenceSteps CoherenceFix CoherenceHandlers CoherenceRequests CoherenceEvict CoherenceTable.
Local Open Scope Z_scope.
#[local] Existing Instance release_build.

Section whole.
Context {V : Type} (pid : Z).
Notation o := (owner pid).
Hypothesis Ho : is_node o.
Implicit Types (A : dstate V) (s : @sys V) (f : BufferFrame) (n k : Z) (a : @action V).

Record whole s A : Prop := mkWhole {
  wh_dinv : dinv o A;
  wh_sim : sim pid s A;
  wh_sourced : sourced o A;
  wh_cinv : cinv pid s;
  wh_clean : clean pid s A;
}.

(** ** The table and the flag *)

Section quiet_step.
Variables (s s' : @sys V) (A : dstate V).
Hypotheses (Hs : sim pid s A) (Hc : cinv pid s) (Hq : quiet pid s s').

Lemma reading_same n h : ¬ no_reading (Some h) → y_latch s' !! n = Some h ↔ y_latch s !! n = Some h.
Proof. intros Hh. destruct (qu_reading _ _ _ Hq n) as [->|[H1 H2]]; [done|]. split; intros E; rewrite E in *; done. Qed.

(** A page that is written under the latch stays marked. *)
Lemma written_marked f' : writable_under (y_latch s !! o) → y_frames s' !! o = Some f' → bf_dirty f' = true.
Proof.
  intros Hw Hf'. destruct (qu_flag _ _ _ Hq f' Hf') as [?|[(f & Hf & [-> _])|[Hf _]]]; [done|by apply (ci_using _ _ Hc)|].
  destruct (owner_absent _ _ _ Hs Hf) as (E & _). by rewrite E in Hw.
Qed.

Lemma cinv_quiet : cinv pid s'.
Proof.
  constructor.
  - intros f' Hf' Hx Hne. destruct (qu_flag _ _ _ Hq f' Hf') as [?|[(f & Hf & [-> [Hnob|[E1 E2]]])|[_ Hnob]]]; try done; try (by destruct Hne; apply Hnob).
    apply (ci_remote _ _ Hc f); congruence.
  - intros f' Hw Hf'. destruct (y_latch s' !! o) as [[| |[]]|] eqn:Hl; try done.
    + destruct (qu_using _ _ _ Hq f' Hl Hf') as [?|E]; [done|]. apply written_marked; [by rewrite E|done].
    + apply reading_same in Hl; [|by intros ?]. apply written_marked; [by rewrite Hl|done].
  - intros n Hn Hcp. destruct (qu_copy _ _ _ Hq n Hn Hcp) as [?|[Hcp' Himp]]; [done|]. by apply Himp, (ci_copy _ _ Hc).
  - intros n Hn. rewrite !reading_same by by intros ?. by apply (ci_take _ _ Hc).
  - intros n Hl. apply reading_same in Hl; [|by intros ?]. pose proof (ci_none _ _ Hc n Hl) as E.
    destruct (qu_registered _ _ _ Hq) as [Hsub|?]; [|congruence]. rewrite E in Hsub. clear -Hsub. set_solver.
Qed.
End quiet_step.

(** A node other than the owner gets exclusive possession at the current
    version only. *)
Lemma dstep_exclusive A A' n g : dstep o A A' → n ≠ o → d_gr A' !! n = Some g → g_m g = EXCLUSIVE →
  (∃ g0, d_gr A !! n = Some g0 ∧ g_m g0 = EXCLUSIVE) ∨ g_v g = d_v A'.
Proof.
  intros Hst Hn Hg Hm. destruct Hst; cbn [d_gr d_v] in *; map_cases; cbn in *; try done; try (by right); try (left; by eauto);
    match goal with Hc : complete_at _ _ _ |- _ => destruct Hc; left; by eauto end.
Qed.

(** The owner's frame of a page that another node has exclusively is marked. *)
Lemma remote_marked s A n f : sim pid s A → cinv pid s → y_frames s !! o = Some f → n ∈ d_h A → n ≠ o → d_m A = EXCLUSIVE → bf_dirty f = true.
Proof.
  intros Hs Hc Hf Hin Hn Hm.
  assert (holders f = d_h A → bf_possession f = d_m A → bf_dirty f = true) as Hdir.
  { intros Hh Hp. apply (ci_remote _ _ Hc f Hf); [congruence|]. rewrite <- Hh in Hin. unfold holders in Hin. rewrite Hp, Hm in Hin.
    apply elem_of_singleton in Hin as <-. done. }
  assert (d_h A = {[o]} → bf_dirty f = true) as Hself by (intros E; rewrite E in Hin; by apply elem_of_singleton in Hin).
  pose proof (si_owner _ _ _ Hs) as Hr. rewrite Hf in Hr. remember (y_latch s !! o) as l eqn:El. remember (Some f) as fo eqn:Ef.
  destruct Hr as [|f' ? ? ? ? Hh|f' ? ? ? Hd|f' ? ? Hd|f' ? ? ? ? Hd|f' ? ? ? ? Hd|f' ? ? Hd|f' ? ? ? ? ? (?&?&?) ?|f' ? ? ? Hd|f' ? ? ? (?&?&?) ?];
    try discriminate Ef; apply (inj Some) in Ef as ->.
  - rewrite Hh in Hin. by apply not_elem_of_empty in Hin.
  - apply Hdir; apply Hd.
  - apply Hdir; apply Hd.
  - apply Hself; apply Hd.
  - apply Hself; apply Hd.
  - apply Hself; apply Hd.
  - congruence.
  - apply Hdir; apply Hd.
  - apply (ci_using _ _ Hc f); [by rewrite <- El|done].
Qed.

(** Grants between two states: [clean] needs to be shown for the SSD only. *)
Lemma clean_step s s' A A' : sim pid s' A' → dinv o A' → cinv pid s' → A' = A ∨ dstep o A A' →
  (∀ f', y_frames s' !! o = Some f' → bf_dirty f' = false →
     y_ssd s' = y_last s' ∧ ∀ n g, n ≠ o → d_gr A !! n = Some g → g_m g ≠ EXCLUSIVE) →
  clean pid s' A'.
Proof.
  intros Hs' HA' Hc' Hst Hold f' Hf' Hd. destruct (Hold f' Hf' Hd) as [Hssd Hno]. split; [done|]. intros n g Hn Hg Hm.
  destruct Hst as [->|Hst]; [by eapply Hno|].
  destruct (dstep_exclusive A A' n g Hst Hn Hg Hm) as [(g0 & Hg0 & Hm0)|Hv]; [by eapply Hno|].
  destruct (di_dir _ _ HA' n g Hg) as [_ Hdir]. destruct (Hdir Hv) as [Hin Hmm].
  assert (bf_dirty f' = true) as E by (eapply (remote_marked s' A' n); congruence). congruence.
Qed.

Lemma clean_quiet s s' A A' : whole s A → quiet pid s s' → sim pid s' A' → dinv o A' → A' = A ∨ dstep o A A' → clean pid s' A'.
Proof.
  intros [HA Hs _ Hc Hcl] Hq Hs' HA' Hst. apply (clean_step s s' A A'); try done; [exact (cinv_quiet s s' A Hs Hc Hq)|].
  intros f' Hf' Hd.
  assert (y_ssd s = y_last s ∧ ∀ n g, n ≠ o → d_gr A !! n = Some g → g_m g ≠ EXCLUSIVE) as [Hssd Hno].
  { destruct (qu_flag _ _ _ Hq f' Hf') as [?|[(f & Hf & [E _])|[Hf _]]]; [congruence|apply (Hcl f); congruence|].
    destruct (owner_absent _ _ _ Hs Hf) as (_ & _ & Hh & _). destruct (di_empty _ _ HA Hh) as [E El].
    split; [|intros n g _; by rewrite E]. rewrite (si_ssd _ _ _ Hs), (si_last _ _ _ Hs). done. }
  split; [|done]. rewrite (qu_ssd _ _ _ Hq). destruct (qu_last _ _ _ Hq) as [->|[Ef [n Hl]]]; [done|]. exfalso.
  destruct (decide (n = o)) as [->|Hn].
  - rewrite Ef in Hf'. rewrite (ci_using _ _ Hc f') in Hd; [done|by rewrite Hl|done].
  - destruct (remote_using _ _ _ Hs n Hn Hl) as (? & ? & _ & _ & _ & _ & Hg). by eapply Hno.
Qed.

(** ** Pages that are written to the SSD and read back *)

Section special.
Variables (s s' : @sys V) (A A' : dstate V).
Hypotheses (Hw : whole s A) (Hs' : sim pid s' A') (HA' : dinv o A') (Hst : A' = A ∨ dstep o A A').

(** Nobody reads a page back: no provider waits for that. *)
Lemma nobody_reads n : n ≠ o → (∀ k, y_latch s !! o ≠ Some (Holder (WTake k))) → y_latch s !! n ≠ Some (Holder (WEvict EvReading)).
Proof. intros Hn Hno Hl. apply (ci_take _ _ (wh_cinv _ _ Hw) n Hn) in Hl. by apply Hno in Hl. Qed.

Lemma written_effect (s1 s2 : @sys V) : written pid s1 = Ok s2 → ∃ (k : nat) f x,
  y_latch s1 !! o = Some (Writing k) ∧ y_frames s1 !! o = Some f ∧ y_data s1 !! o = Some x ∧
  y_frames s2 = <[o := set_dirty false f]> (y_frames s1) ∧ y_ssd s2 = x ∧ y_last s2 = y_last s1 ∧ y_cr s2 = y_cr s1 ∧
  (∀ m, m ≠ o → y_latch s2 !! m = y_latch s1 !! m) ∧ (∀ pc, y_latch s2 !! o ≠ Some (Holder pc)).
Proof.
  unfold written. intros H. destruct (y_latch s1 !! o) as [[|k|]|] eqn:Hl; try discriminate H.
  apply bind_Ok_inv in H as (f & Hf%frame_of_Ok & H). apply bind_Ok_inv in H as (x & Hx & H).
  apply bind_Ok_inv in H as (? & _ & <-%Ok_inj). unfold data_of in Hx.
  destruct (y_data s1 !! o) as [x'|] eqn:Hd; [|discriminate Hx]. apply Ok_inj in Hx as ->.
  exists k, f, x. case_decide; split_and!; try done; intros; by at_node.
Qed.

Lemma written_whole : written pid s = Ok s' → cinv pid s' ∧ clean pid s' A'.
Proof.
  destruct Hw as [HA Hs _ Hc Hcl]. intros (k & f & x & Hl & Hf & Hx & Ef & Es & El & Ec & Hsame & Hfree)%written_effect.
  destruct (owner_writing _ _ _ Hs _ Hl) as (f1 & Hf1 & Hdir & Hhot & _). assert (f1 = f) as -> by congruence.
  destruct Hdir as (_ & Hv & Hm & _ & Hh & _ & [(_ & Hin & _ & _ & Hg)|(? & _)]); [|congruence]. rewrite Hx in Hg.
  assert (complete_at A o (mkGrant (d_v A) (d_m A) ∅ (Some x))) as Hco by (split; [done|split; [done|by eexists]]).
  assert (cinv pid s') as Hc'.
  { constructor.
    - intros f' Hf' Hp Hne. rewrite Ef, lookup_insert_eq in Hf'. injection Hf' as <-. destruct Hne. cbn in *. rewrite <- Hh in Hin.
      unfold holders in Hin. rewrite Hp in Hin. by apply elem_of_singleton in Hin.
    - intros f' Hwu. destruct (y_latch s' !! o) as [[| |pc]|]; try done. by destruct (Hfree pc).
    - intros n Hn. rewrite Hsame, Ec by done. by apply (ci_copy _ _ Hc).
    - intros n Hn. rewrite (Hsame n Hn). split; intros E; [by apply Hfree in E|]. apply nobody_reads in E; [done..|]. congruence.
    - intros n E. by apply Hfree in E. }
  split; [done|]. apply (clean_step s s' A A'); try done. intros _ _ _. split.
  - rewrite Es, El, (si_last _ _ _ Hs). by eapply (di_last _ _ HA).
  - intros n g Hn Hgn Hmx. destruct (holder_complete o A HA o _ Hco Hin) as [_ Hall]. destruct (Hall n g Hgn) as [Hvn _].
    apply Hn. eapply (di_single _ _ HA n g o); [done|done|cbn; lia|done].
Qed.

Lemma reading_whole n : starts_reading pid n s s' → cinv pid s' ∧ clean pid s' A'.
Proof.
  intros (Hn & Hlo & Hcr & Hcr' & El & Hd). assert (o ≠ n) as Hn' by done. pose proof (wh_cinv _ _ Hw) as Hc. split.
  2: { intros f Hf Hdf. by rewrite (Hd f Hf) in Hdf. }
  constructor; try (by intros f Hf; auto); rewrite ?Hcr'; try done.
  - intros m Hm. rewrite El. destruct (decide (m = n)) as [->|]; [by rewrite lookup_insert_eq|]. rewrite !lookup_insert_ne by done.
    intros Hcp. rewrite <- Hcr. by apply (ci_copy _ _ Hc).
  - intros m Hm. rewrite El. rewrite (lookup_insert_ne _ n o), lookup_insert_eq by done. destruct (decide (m = n)) as [->|Hmn].
    + by rewrite lookup_insert_eq.
    + rewrite !lookup_insert_ne by done. split; [by intros [= ?]|]. intros E. apply nobody_reads in E; [done..|]. congruence.
Qed.

Lemma taken_whole : taken pid s = Ok s' → cinv pid s' ∧ clean pid s' A'.
Proof.
  destruct Hw as [HA Hs _ Hc Hcl]. unfold taken. intros H. destruct (y_latch s !! o) as [[| |[]]|] eqn:Hlo; try discriminate H.
  destruct (y_latch s !! n) as [[| |[]]|] eqn:Hl; try discriminate H. destruct e; try discriminate H.
  assert (n ≠ o) as Hn by congruence. assert (o ≠ n) as Hn' by done.
  apply bind_Ok_inv in H as (s1 & Hs1 & <-%Ok_inj). unfold send_page in Hs1. apply bind_Ok_inv in Hs1 as (x & _ & <-%Ok_inj).
  assert (∀ f, y_frames s !! o = Some f → bf_dirty f = true) as Hd by (intros f; apply (ci_using _ _ Hc); by rewrite Hlo).
  split; [|intros f Hf Hdf; by rewrite (Hd f Hf) in Hdf]. constructor; cbn [y_frames y_cr put_l drop_l put_d].
  - by apply (ci_remote _ _ Hc).
  - intros f _. by apply Hd.
  - intros m Hm. destruct (decide (m = n)) as [->|]; at_node; [done|]. by apply (ci_copy _ _ Hc).
  - intros m Hm. destruct (decide (m = n)) as [->|Hmn]; at_node; [by split|]. split; [done|]. intros E.
    apply (ci_take _ _ Hc m Hm) in E. congruence.
  - intros m. at_node. done.
Qed.
End special.

(** ** Every action *)

Lemma no_latch_sim s A n : sim pid s A → no_latch s n.
Proof.
  intros Hs Hf. destruct (decide (n = o)) as [->|Hn]; [by destruct (owner_absent _ _ _ Hs Hf)|by destruct (remote_absent _ _ _ Hs n Hn Hf)].
Qed.

(** The table and the flag after any action. *)
Lemma exec_keeps a s s' A A' : whole s A → sim pid s' A' → dinv o A' → A' = A ∨ dstep o A A' → deviates a s = false → exec pid a s = Ok s' →
  cinv pid s' ∧ clean pid s' A'.
Proof.
  intros Hw Hs' HA' Hst Hdev H. pose proof Hw as [HA Hs _ Hc _].
  assert (quiet pid s s' → cinv pid s' ∧ clean pid s' A') as Hq
    by (intros Hq; split; [exact (cinv_quiet s s' A Hs Hc Hq)|exact (clean_quiet s s' A A' Hw Hq Hs' HA' Hst)]).
  destruct a; cbn [exec] in H.
  - apply Hq. by eapply do_fix_quiet, H; eapply no_latch_sim.
  - apply Hq. by apply read_done_quiet.
  - apply Hq. by eapply handle_pr_quiet, H; eapply no_latch_sim.
  - apply Hq. by eapply resume_pr_quiet.
  - apply Hq. by eapply handle_pmr_quiet.
  - apply Hq. by eapply resume_move_quiet.
  - apply Hq. by eapply resume_inval_quiet.
  - apply Hq. by eapply handle_pcr_quiet.
  - apply Hq. by eapply resume_copy_quiet.
  - apply Hq. by eapply handle_pur_quiet.
  - apply Hq. by eapply resume_update_quiet.
  - apply Hq. by eapply write_quiet.
  - apply Hq. by eapply release_quiet.
  - apply Hq. by eapply evict_quiet.
  - by eapply written_whole.
  - destruct (decide (n = o)) as [->|Hn].
    { exfalso. unfold handle_evict in H. destruct (y_latch s !! o) as [[| |[]]|] eqn:Hl; try discriminate H.
      by apply (owner_not_remote _ _ _ Hs) in Hl. }
    destruct (handle_evict_quiet pid s s' n _ _ _ _ Hn H) as [|Hr]; [by apply Hq|by eapply reading_whole].
  - by eapply taken_whole.
  - apply Hq. by eapply resume_evict_quiet.
  - apply Hq. by eapply clear_cr_quiet.
Qed.

(** The two checks that may fail: of a provider that meets the frame of a worker
    that gave up, and of a lookup that gave up and is undone. *)
Definition check_fails a s : Prop := unfinished a s ∨ undo_fails pid s a.

Lemma exec_allowed a s A : whole s A → version_left pid s → action_ok a → deviates a s = false →
  allowed pid (exec pid a s) A ∨ check_fails a s ∧ exec pid a s = Throw EnsureFailed.
Proof.
  intros [HA Hs Hsrc Hc Hcl] Hver Ha Hdev. unfold check_fails.
  destruct a; try (destruct (evict_ok pid Ho s A HA Hs Hc Hcl n ssd prob full downgraded rand epoch r); tauto);
    try (destruct Ha as [? ?]; destruct (handle_evict_ok pid Ho s A HA Hs Hc Hcl n ssd refuse moved buf); tauto); left; cbn [exec action_ok] in *.
  - destruct Ha as (? & ? & ?). by apply do_fix_ok.
  - by apply read_done_ok.
  - by apply handle_pr_ok.
  - by apply resume_pr_ok.
  - by apply handle_pmr_ok.
  - by apply resume_move_ok.
  - by apply resume_inval_ok.
  - by apply handle_pcr_ok.
  - by apply resume_copy_ok.
  - by apply handle_pur_ok.
  - by apply resume_update_ok.
  - by apply write_ok.
  - by apply release_ok.
  - by apply written_ok.
  - by apply taken_ok.
  - by apply resume_evict_ok.
  - by apply clear_cr_ok.
Qed.

(** What an action does to a state of the invariant. *)
Inductive outcome s A : result (@sys V) → Prop :=
| oc_waits : outcome s A (Throw WouldBlock)
| oc_steps s' A' : A' = A ∨ dstep o A A' → whole s' A' → outcome s A (Ok s').

Lemma exec_ok a s A : whole s A → version_left pid s → action_ok a → deviates a s = false →
  outcome s A (exec pid a s) ∨ check_fails a s ∧ exec pid a s = Throw EnsureFailed.
Proof.
  intros Hw Hver Ha Hdev. destruct (exec_allowed a s A Hw Hver Ha Hdev) as [[E|(s' & A' & E & Hst & Hs')]|?]; [left..|by right].
  - rewrite E. apply oc_waits.
  - rewrite E. pose proof Hw as [HA _ Hsrc _ _].
    assert (dinv o A') as HA' by (destruct Hst as [->|Hst]; [done|by eapply dinv_step]).
    destruct (exec_keeps a s s' A A' Hw Hs' HA' Hst Hdev E). apply (oc_steps s A s' A'); [done|]. constructor; try done.
    destruct Hst as [->|Hst]; [done|by apply (sourced_step o A A')].
Qed.
End whole.
