(* ===== verification/CoherenceReach.v ===== *)
(** * Reachable states of the coherence protocol

    Every state the nodes can reach is related to a state of the directory
    specification.  The invariant is shown for a build without assertions; a
    build with assertions does the same or aborts. *)

From S2P Require Import Prelude Defs Bitmap RingBuffer BufferFrame Eviction Messages Protocol Directory Coherence CoherenceInv CoherenceSim CoherenceView CoherenceSteps CoherenceFix CoherenceHandlers CoherenceRequests CoherenceEvict CoherenceTable CoherenceWhole.
Local Open Scope Z_scope.
#[local] Existing Instance release_build.

Section correctness.
Context {V : Type} (pid : Z).
Notation o := (owner pid).
Hypothesis Ho : is_node o.
Implicit Types (A : dstate V) (s : @sys V) (f : BufferFrame) (n k : Z).

(** ** Initial states *)

(** A page that was created. *)
Definition d_initial A : Prop := (∃ x, A = d_stored x) ∨ ∃ n ssd x, A = d_created n ssd x.

Lemma dinv_initial A : d_initial A → dinv o A.
Proof. intros [[x ->]|(n & ssd & x & ->)]; [apply dinv_stored|apply dinv_created]. Qed.

Lemma sim_stored (x : V) : sim pid (stored x) (d_stored x).
Proof.
  constructor; cbn; try done.
  - by apply or_absent.
  - intros n _. apply rr_absent.
  - by intros n [? ?].
  - intros n w v [_ [(? & ? & E & _)|(? & ? & ? & ? & E & _)]]; discriminate E.
Qed.

Lemma sim_new page epoch (ssd x : V) s : newPage pid page epoch ssd x = Ok s → sim pid s (d_created o ssd x).
Proof.
  intros [= <-]. constructor; cbn [d_created y_frames y_data y_latch y_ssd y_last d_gr d_v d_m d_h d_ssd d_last]; try done.
  - rewrite !lookup_singleton_eq. apply or_using; try done. unfold dir_ok, obase_ok, holders. cbn.
    pose proof (node_u64 o Ho). split_and!; try done. left. split_and!; try done. by apply elem_of_singleton.
  - intros n Hn. rewrite !lookup_singleton_ne by done. apply rr_absent.
  - intros n [f Hf]. apply lookup_singleton_Some in Hf as [<- _]. done.
  - intros n w v [Hn [(? & ? & E & _)|(? & ? & ? & ? & E & _)]]; cbn in E; by rewrite lookup_singleton_ne in E.
  - intros k f Hk. cbn. by rewrite lookup_singleton_ne by done.
Qed.

(** The frames of a page that node [n] created on its owner. *)
Lemma allocated_frame_ok n epoch : is_node n → n ≠ o →
  ∃ f, allocated_frame n pid epoch bf_new = Ok f ∧ ∀ d : option V, dir_ok pid 0 EXCLUSIVE {[n]} None f d.
Proof.
  intros Hnode Hn. pose proof (node_u64 n Hnode). eexists. split; [reflexivity|]. intros d.
  unfold dir_ok, obase_ok, holders. cbn. split_and!; try done. right. split_and!; try done. by rewrite elem_of_singleton.
Qed.
Lemma new_remote_frame_ok n page : is_node n →
  ∃ f, new_remote_frame n pid page bf_new = Ok f ∧ hot_ok pid n f ∧ bf_possession f = EXCLUSIVE ∧ bf_pVersion f = 0 ∧ bf_mhWaiting f = false.
Proof.
  intros Hnode. pose proof (node_u64 n Hnode). eexists. split; [reflexivity|].
  unfold hot_ok, base_ok, isPossessor. cbn. rewrite Z.eqb_refl. by split_and!.
Qed.

Lemma sim_new_remote n page epoch (ssd x : V) s : is_node n → n ≠ o →
  newRemotePage pid n page epoch ssd x = Ok s → sim pid s (d_created n ssd x).
Proof.
  intros Hnode Hn E. assert (o ≠ n) as Hn' by done. pose proof (node_u64 n Hnode).
  destruct (allocated_frame_ok n epoch Hnode Hn) as (fo & Efo & Hfo). destruct (new_remote_frame_ok n page Hnode) as (fn & Efn & Hfn & Hx & Hv & Hw).
  unfold newRemotePage in E. rewrite Efo, bind_Ok, Efn, bind_Ok in E. apply Ok_inj in E as <-.
  constructor; cbn [d_created y_frames y_data y_latch y_ssd y_last d_gr d_v d_m d_h d_ssd d_last]; try done.
  - rewrite lookup_insert_eq, !lookup_singleton_ne by done. apply or_rest; [|by left]. apply Hfo.
  - intros m Hm. rewrite lookup_insert_ne by done. destruct (decide (m = n)) as [->|Hmn].
    + rewrite !lookup_singleton_eq, <- Hv. by apply (rr_using pid n (set_dirty true fn)).
    + rewrite !lookup_singleton_ne by done. apply rr_absent.
  - intros m [f Hf]. apply lookup_insert_Some in Hf as [[<- _]|[_ [<- _]%lookup_singleton_Some]]; done.
  - intros m w v [Hm Hc]. cbn in Hc. destruct (decide (m = n)) as [->|Hmn].
    + rewrite lookup_singleton_eq in Hc. destruct Hc as [(? & ? & E & _)|(? & ? & ? & ? & E & _)]; discriminate E.
    + rewrite lookup_singleton_ne in Hc by done. destruct Hc as [(? & ? & E & _)|(? & ? & ? & ? & E & _)]; discriminate E.
  - intros k f Hk. cbn. rewrite lookup_insert_ne by done. intros [<- <-]%lookup_singleton_Some. cbn. rewrite Hw. done.
Qed.

(** Only one node has the page, and the owner's frame is dirty. *)
Lemma cinv_initial s n : (∀ f, y_frames s !! o = Some f → bf_dirty f = true) → (∀ m h, y_latch s !! m = Some h → m = n ∧ h = Holder Using) → cinv pid s.
Proof.
  intros Hd Hl. constructor; intros; try (by apply Hd).
  - destruct (y_latch s !! n0) as [h|] eqn:E; [|done]. by destruct (Hl n0 h E) as [_ ->].
  - split; intros E; by destruct (Hl _ _ E).
  - match goal with E : _ = Some (Holder (WTake _)) |- _ => by destruct (Hl _ _ E) end.
Qed.

Lemma new_remote_state n page epoch (ssd x : V) s : newRemotePage pid n page epoch ssd x = Ok s →
  (∀ f, y_frames s !! o = Some f → bf_dirty f = true) ∧ y_latch s = {[n := Holder Using]}.
Proof.
  unfold newRemotePage. intros (fo & Hfo & (f & _ & <-%Ok_inj)%bind_Ok_inv)%bind_Ok_inv. split; [|done].
  intros f'. cbn. rewrite lookup_insert_eq. intros [= <-]. unfold allocated_frame in Hfo.
  by apply bind_Ok_inv in Hfo as (? & _ & <-%Ok_inj).
Qed.

Lemma initial_whole s : initial pid s → ∃ A, d_initial A ∧ whole pid s A.
Proof.
  intros [x|page epoch ssd x s0 E|n page epoch ssd x s0 Hn Hno E].
  - exists (d_stored x). split; [left; by exists x|]. constructor; [apply dinv_stored|apply sim_stored|apply sourced_stored| |done].
    apply (cinv_initial _ 0); [done|]. by intros m h.
  - exists (d_created o ssd x). split; [right; by eauto|]. pose proof (sim_new _ _ _ _ _ E) as Hs.
    assert (∀ f, y_frames s0 !! o = Some f → bf_dirty f = true) as Hd.
    { injection E as <-. intros f. cbn. rewrite lookup_singleton_eq. by intros [= <-]. }
    constructor; [apply dinv_created|done|apply sourced_created| |intros f Hf Hd'; by rewrite (Hd f Hf) in Hd'].
    apply (cinv_initial _ o); [done|]. injection E as <-. intros m h. cbn. by intros [<- <-]%lookup_singleton_Some.
  - exists (d_created n ssd x). split; [right; by eauto|]. pose proof (sim_new_remote _ _ _ _ _ _ Hn Hno E) as Hs.
    destruct (new_remote_state _ _ _ _ _ _ E) as [Hd El].
    constructor; [apply dinv_created|done|apply sourced_created| |intros f Hf Hd'; by rewrite (Hd f Hf) in Hd'].
    apply (cinv_initial _ n); [done|]. rewrite El. by intros m h [<- <-]%lookup_singleton_Some.
Qed.

(** ** The system implements the specification *)

Lemma reachable_refines s : reachable pid s → ∃ A0 A, d_initial A0 ∧ rtc (dstep o) A0 A ∧ whole pid s A.
Proof.
  intros (s0 & Hi & Hr). destruct (initial_whole s0 Hi) as (A0 & Hi' & Hw0). exists A0. clear Hi.
  assert (∀ A1, rtc (dstep o) A0 A1 → whole pid s0 A1 → ∃ A, d_initial A0 ∧ rtc (dstep o) A0 A ∧ whole pid s A) as Hall; [|by apply (Hall A0)].
  clear Hw0. induction Hr as [s|s1 s2 s3 (a & Ha & Hver & Hdev & Hex) _ IH]; intros A1 Hst Hw; [by exists A1|].
  destruct (exec_ok pid Ho a s1 A1 Hw Hver Ha Hdev) as [Hoc|Hun].
  - rewrite Hex in Hoc. inversion Hoc as [|s' A' Hstep Hw' E]; subst.
    destruct Hstep as [->|Hstep]; [by apply (IH A1)|]. apply (IH A'); [by eapply rtc_r|done].
  - destruct Hun as [_ Hun]. congruence.
Qed.

(** ** What a node may do without a message *)

(** No worker of the node is inside [fix]. *)
Definition at_rest s n : bool :=
  match y_latch s !! n with Some (Holder Using) | Some (Readers _) | Some (Writing _) | None => true | _ => false end.
(** [fix] on the frame grants the access at once, or has granted it. *)
Definition may_access s (type : LATCH_STATE) n : bool :=
  match y_frames s !! n with Some f => at_rest s n && access_ok type n f | None => false end.

Lemma at_rest_cases s n : at_rest s n = true → y_latch s !! n = Some (Holder Using) ∨ ∀ pc, y_latch s !! n ≠ Some (Holder pc).
Proof. unfold at_rest. destruct (y_latch s !! n) as [[| |[]]|]; intros; try done; first [by left|by right]. Qed.

(** A node that may access the page has a complete grant with the page of the
    node. *)
Lemma access_complete s A type n : sim pid s A → may_access s type n = true →
  ∃ g x, complete_at A n g ∧ y_data s !! n = Some x ∧ g_page g = Some x ∧ (type = LS_EXCLUSIVE → g_m g = EXCLUSIVE).
Proof.
  intros Hs. unfold may_access. destruct (y_frames s !! n) as [f|] eqn:Hf; [|done].
  intros [Hrest Hacc]%andb_true_iff.
  assert (isPossessor n f = true ∧ (type = LS_EXCLUSIVE → bf_possession f = EXCLUSIVE)) as [Hp Hx].
  { revert Hacc. unfold access_ok. case_decide; [|done]. intros [Hm%bool_decide_eq_true Hi]%andb_true_iff. done. }
  assert (∀ v m d x, d = Some x → bf_possession f = m → d_gr A !! n = Some (mkGrant v m ∅ d) → y_data s !! n = Some x →
     ∃ g x, complete_at A n g ∧ y_data s !! n = Some x ∧ g_page g = Some x ∧ (type = LS_EXCLUSIVE → g_m g = EXCLUSIVE)) as Hgoal.
  { intros v m d x -> Hm Hg Hd. eexists _, x. split; [split; [exact Hg|split; [done|by eexists]]|]. split; [done|]. split; [done|].
    intros Ht. cbn. rewrite <- Hm. by apply Hx. }
  destruct (decide (n = o)) as [->|Hn].
  - assert (dir_ok pid (d_v A) (d_m A) (d_h A) (d_gr A !! o) f (y_data s !! o)) as Hdir.
    { destruct (at_rest_cases _ _ Hrest) as [Hl|Hl]; [|by apply (owner_free _ _ _ Hs)].
      destruct (owner_using _ _ _ Hs Hl) as (f' & Hf' & Hdir & _). by assert (f' = f) as -> by congruence. }
    destruct Hdir as (_ & _ & Hm & _ & Hh & _ & [(_ & _ & _ & [x Hd] & Hg)|(_ & Hno & _)]).
    + exact (Hgoal _ _ _ x Hd Hm Hg Hd).
    + apply (holders_test o f Ho) in Hp. congruence.
  - destruct (at_rest_cases _ _ Hrest) as [Hl|Hl].
    + destruct (remote_using _ _ _ Hs n Hn Hl) as (f' & x & Hf' & Hd & _ & Hm & Hg).
      assert (f' = f) as -> by congruence. exact (Hgoal _ _ _ x eq_refl Hm Hg Hd).
    + destruct (remote_free _ _ _ Hs n f Hn Hf Hl) as [(x & Hd & _ & Hg)|(_ & (_ & _ & Hnob & _) & _)]; [exact (Hgoal _ _ _ x eq_refl eq_refl Hg Hd)|].
      unfold isPossessor in Hp. by rewrite Hnob in Hp.
Qed.

(** ** The page is not lost *)

Lemma kept_initial A0 A : d_initial A0 → rtc (dstep o) A0 A → kept A.
Proof.
  intros Hi Hr. assert (dinv o A0 ∧ sourced o A0 ∧ kept A0) as (HA & Hsrc & Hk).
  { split; [by apply dinv_initial|]. destruct Hi as [[x ->]|(n & ssd & x & ->)].
    - split; [apply sourced_stored|by left].
    - split; [apply sourced_created|]. right. exists n. eexists. cbn. rewrite lookup_singleton_eq. split; [done|by eexists]. }
  clear Hi. induction Hr as [|A1 A2 A3 Hst _ IH]; [done|].
  apply IH; [by eapply dinv_step|by eapply sourced_step|by eapply kept_step].
Qed.

(** The page of a grant is the page of the node, and the node has a frame. *)
Lemma granted_page s A n g x : sim pid s A → d_gr A !! n = Some g → g_page g = Some x → y_data s !! n = Some x ∧ is_Some (y_frames s !! n).
Proof.
  intros Hs Hg Hx. destruct (decide (n = o)) as [->|Hn].
  - assert (∀ v m h f d, dir_ok pid v m h (Some g) f d → d = Some x) as Hdir.
    { intros v m h f d (_ & _ & _ & _ & _ & _ & [(_ & _ & _ & _ & E)|(_ & _ & E & _)]); [|done]. apply (inj Some) in E as ->. done. }
    pose proof (si_owner _ _ _ Hs) as Hr. rewrite Hg in Hr. remember (Some g) as go eqn:Eg.
    remember (y_data s !! o) as d eqn:Ed. remember (y_frames s !! o) as fo eqn:Ef. remember (y_latch s !! o) as l eqn:El.
    destruct Hr as [|? ? ? ? ? ? ? ?|? ? ? ? Hd|? ? ? Hd|f type id b d' Hok|f id rest b d' Hok|f out x'|f type id r d' g' ? ? ? ? ? ? ? ? ? Hcase|? ? ? ? Hd|f k g' d' ? ? ? ? ? ? ? ? ? Hcase];
      try discriminate Eg; (split; [|by eexists]); try (subst; by eapply Hdir).
    + apply (inj Some) in Eg as <-. by destruct b.
    + apply (inj Some) in Eg as <-. by destruct b.
    + by apply (inj Some) in Eg as <-.
    + case_decide; [destruct Hcase as (_ & E & _)|destruct Hcase as [_ E]]; rewrite Eg in E; [by apply (inj Some) in E as ->|discriminate E].
    + destruct Hcase as [[_ E]|(_ & _ & E)]; rewrite Eg in E; [discriminate E|by apply (inj Some) in E as ->].
  - pose proof (si_remote _ _ _ Hs n Hn) as Hr. rewrite Hg in Hr. remember (Some g) as go eqn:Eg.
    remember (y_data s !! n) as d eqn:Ed. remember (y_frames s !! n) as fo eqn:Ef. remember (y_latch s !! n) as l eqn:El.
    destruct Hr as [| | | | |f type msg d' v need p ? ? ? Hresp|f type id b|f id rest b| |f type w id r d' p ? ? ? ? ? Hcase| | | |];
      try discriminate Eg; (split; [|by eexists]); apply (inj Some) in Eg as <-; cbn in Hx; try done; try (by destruct b).
    + unfold response_ok in Hresp. destruct (prr_result msg); try done.
      * by destruct Hresp as (_ & -> & _).
      * destruct Hresp as (w & _ & _ & _ & _ & -> & _). done.
      * destruct Hresp as (c & _ & _ & ->). done.
      * destruct Hresp as (w & _ & _ & _ & _ & -> & _). done.
      * destruct Hresp as (w & _ & _ & _ & _ & _ & -> & _). done.
    + case_decide; [by destruct Hcase as [-> _]|by rewrite Hcase in Hx].
Qed.
End correctness.

(** ** Builds with assertions *)

(** The result is the same, or an assertion failed. *)
Definition same_or_aborts {S} (B : Build) (r r' : result S) : Prop :=
  r = r' ∨ r = Throw AssertFailed ∧ asserts = true.

Section aborts.
Context {V : Type} (B : Build) (pid : Z).
Implicit Types (s : @sys V) (n : Z).
Notation "r ≲ r'" := (same_or_aborts B r r') (at level 70).

Lemma sa_refl {S} (r : result S) : r ≲ r.
Proof. by left. Qed.
Lemma sa_bind {S T} (m m' : result S) (f f' : S → result T) : m ≲ m' → (∀ x, f x ≲ f' x) → (m ≫= f) ≲ (m' ≫= f').
Proof. intros [->|[-> ?]] Hf; [|by right]. destruct m'; [apply Hf|by left]. Qed.
Lemma sa_assert b b' : assert_ (H:=B) b ≲ assert_ (H:=release_build) b'.
Proof. unfold assert_ at 1. destruct (@asserts B) eqn:E; cbn; [|by left]. destruct b; [by left|]. right. by split. Qed.

(** Walks through two copies of a function. *)
Ltac walk :=
  repeat first
    [ apply sa_refl
    | progress cbv zeta
    | apply sa_assert
    | apply sa_bind; [|intros ?]
    | match goal with
      | |- (match ?x with _ => _ end) ≲ _ => destruct x
      end ].

Lemma sa_install n page : install_frame (H:=B) n pid page 0 bf_new ≲ install_frame (H:=release_build) n pid page 0 bf_new.
Proof. unfold install_frame. walk. Qed.
Lemma sa_remove n s : remove_frame (H:=B) pid n s ≲ remove_frame (H:=release_build) pid n s.
Proof. unfold remove_frame. walk. Qed.
Lemma sa_candidate ssd prob n epoch l full downgraded rand r f :
  candidate_step (H:=B) ssd prob n epoch l full downgraded rand r f ≲ candidate_step (H:=release_build) ssd prob n epoch l full downgraded rand r f.
Proof. unfold candidate_step, evict_owner_page. walk. Qed.

Lemma exec_release (a : @action V) s : exec (H:=B) pid a s ≲ exec (H:=release_build) pid a s.
Proof.
  destruct a; cbn [exec]; try apply sa_refl.
  - unfold do_fix, fix_miss. destruct (y_frames s !! n); [apply sa_refl|]. apply sa_bind; [apply sa_install|intros f; walk].
  - unfold handle_pr. destruct (y_latch s !! n) as [[| |[]]|]; try apply sa_refl. destruct r; [apply sa_refl|].
    destruct (y_frames s !! owner pid); [apply sa_refl|]. apply sa_bind; [apply sa_install|intros f; walk].
  - unfold handle_pmr, surrender. walk; apply sa_remove.
  - unfold evict. walk; first [apply sa_candidate|apply sa_remove].
  - unfold handle_evict. walk; apply sa_remove.
  - unfold resume_evict. walk; apply sa_remove.
Qed.

Lemma reachable_release s : reachable (H:=B) pid s → reachable (H:=release_build) pid s.
Proof.
  intros (s0 & Hi & Hr). exists s0. split; [done|]. clear Hi. induction Hr as [|s1 s2 s3 (a & Ha & Hver & Hdev & Hex) _ IH]; [done|].
  eapply rtc_l; [|exact IH]. exists a. split_and!; try done. destruct (exec_release a s1) as [<-|[E _]]; [done|congruence].
Qed.
End aborts.
