(* ===== verification/CoherenceSpec.v ===== *)
(** * The coherence protocol is correct

    The actions of the system of Coherence.v implement the directory
    specification; from its invariant follow which checks of the code can fail,
    that a node that may write is alone, that a node that may read has the page
    that was written last, and that the page is not lost, in builds with and
    without assertions. *)

From S2P Require Import Prelude Defs Bitmap RingBuffer BufferFrame Eviction Messages Protocol Directory Coherence CoherenceInv CoherenceSim CoherenceView CoherenceSteps CoherenceFix CoherenceHandlers CoherenceRequests CoherenceEvict CoherenceTable CoherenceWhole CoherenceReach.
Local Open Scope Z_scope.


(** ** Runs

    The theorems about failures and about lost pages speak of runs of the code,
    in which the two deviating actions may occur. *)

Definition version_left_b {V} (pid : Z) (s : @sys V) : bool :=
  match y_frames s !! owner pid with Some f => bf_pVersion f + 1 <? 2 ^ 64 | None => true end.
Fixpoint run `{!Build} {V} (pid : Z) (l : list action) (s : @sys V) : result sys :=
  match l with
  | [] => Ok s
  | a :: l => _ ← ensure (version_left_b pid s); s ← exec pid a s; run pid l s
  end.
(** Some action of the run deviates. *)
Fixpoint deviated `{!Build} {V} (pid : Z) (l : list action) (s : @sys V) : bool :=
  match l with
  | [] => false
  | a :: l => deviates a s || match exec pid a s with Ok s => deviated pid l s | Throw _ => false end
  end.

Lemma version_left_spec {V} pid (s : @sys V) : version_left_b pid s = true → version_left pid s.
Proof. unfold version_left_b. intros Hb f Hf. rewrite Hf in Hb. by apply Z.ltb_lt. Qed.

Lemma run_reachable `{!Build} {V} pid l (s s' : @sys V) : reachable pid s → Forall action_ok l → deviated pid l s = false →
  run pid l s = Ok s' → reachable pid s'.
Proof.
  revert s. induction l as [|a l IH]; intros s Hr Ha Hdev Hrun; [injection Hrun as <-; done|].
  apply bind_Ok_inv in Hrun as (u & Hv & Hrun). apply bind_Ok_inv in Hrun as (s1 & Hex & Hrun). cbn in Hdev. rewrite Hex in Hdev.
  apply orb_false_iff in Hdev as [Hdev Hdevs].
  apply Forall_cons in Ha as [Ha Hl]. apply (IH s1); try done.
  destruct Hr as (s0 & Hi & Hst). exists s0. split; [done|]. eapply rtc_r; [done|].
  exists a. split; [done|]. split; [|done]. apply version_left_spec. by destruct (version_left_b pid s).
Qed.

(** ** Theorems *)

Section theorems.
Context `{B : !Build} {V : Type} (pid : Z).
Hypothesis Ho : is_node (owner pid).
Implicit Types (s : @sys V).

Lemma reachable_whole s : reachable pid s → ∃ A0 A, d_initial A0 ∧ rtc (dstep (owner pid)) A0 A ∧ whole pid s A.
Proof. intros Hr%reachable_release. by apply reachable_refines. Qed.



(** [C2] Single writer: while a node has the page in exclusive possession, no
    other node can read its own copy of it, in every state reached without a
    deviating action. *)
Theorem coherence_single_writer s n k : reachable pid s →
  may_access s LS_EXCLUSIVE n = true → may_access s LS_SHARED k = true → k = n.
Proof.
  intros Hr Hn Hk. destruct (reachable_whole s Hr) as (A0 & A & _ & _ & [HA Hs _ _ _]).
  destruct (access_complete pid Ho s A _ n Hs Hn) as (g & x & Hc & _ & _ & Hm).
  destruct (access_complete pid Ho s A _ k Hs Hk) as (gk & y & Hck & _).
  apply (dinv_exclusive (owner pid) A n k HA); [exists g; by auto|by exists gk].
Qed.

(** [C1] Reads return the last write: the copy of the page a node may access
    is the one that was written last, by any node, however often the page was
    evicted, written to the SSD and read again in between; in every state reached
    without a deviating action ([deviates]: a page dropped without the owner's
    consent, or a copy request withdrawn too early). *)
Theorem coherence_reads_last s type n : reachable pid s → may_access s type n = true → y_data s !! n = Some (y_last s).
Proof.
  intros Hr Hn. destruct (reachable_whole s Hr) as (A0 & A & _ & _ & [HA Hs _ _ _]).
  destruct (access_complete pid Ho s A _ n Hs Hn) as (g & x & [Hg _] & -> & Hp & _).
  by rewrite (si_last _ _ _ Hs), (di_last _ _ HA n g x Hg Hp).
Qed.

(** [C5] Refinement: every state the nodes can reach without a deviating action
    corresponds to a state the abstract directory can reach, in which the nodes that may read and write
    are readers and writers and the last write is the same. *)
Theorem coherence_refines_directory s : reachable pid s → ∃ A0 A, d_initial A0 ∧ rtc (dstep (owner pid)) A0 A ∧
  y_last s = d_last A ∧
  (∀ n, may_access s LS_SHARED n = true → readable A n) ∧
  (∀ n, may_access s LS_EXCLUSIVE n = true → writable A n).
Proof.
  intros Hr. destruct (reachable_whole s Hr) as (A0 & A & Hi & Hst & [HA Hs _ _ _]).
  exists A0, A. split; [done|]. split; [done|]. split; [apply (si_last _ _ _ Hs)|]. split; intros n Hn.
  - destruct (access_complete pid Ho s A _ n Hs Hn) as (g & x & Hc & _). by exists g.
  - destruct (access_complete pid Ho s A _ n Hs Hn) as (g & x & Hc & _ & _ & Hm). exists g. by auto.
Qed.

(** A node with a frame for the page that has what was written last in memory. *)
Definition holds_last s n : Prop := is_Some (y_frames s !! n) ∧ y_data s !! n = Some (y_last s).

(** [C6] No page is lost, unless an action deviated: after a run of workers,
    message handlers and page providers, the page that was written last is on
    the SSD of its owner, or some node with a frame for it has it in memory, or
    the run contains an action that dropped a page because of an entry left in a
    response, or one that withdrew the copy request of a worker that was told to
    copy the page. *)
Theorem coherence_keeps_page s0 l s : initial pid s0 → Forall action_ok l → run pid l s0 = Ok s →
  y_ssd s = y_last s ∨ (∃ n, holds_last s n) ∨ deviated pid l s0 = true.
Proof.
  intros Hi0 Hl Hrun. destruct (deviated pid l s0) eqn:Hdev; [by auto|].
  assert (reachable pid s) as Hr by (eapply run_reachable; [by exists s0|done..]).
  destruct (reachable_whole s Hr) as (A0 & A & Hi & Hst & [HA Hs _ _ _]).
  destruct (kept_initial pid A0 A Hi Hst) as [Hh|(n & g & Hg & [x Hx])].
  - left. destruct (di_empty _ _ HA Hh). rewrite (si_ssd _ _ _ Hs), (si_last _ _ _ Hs). done.
  - right; left. exists n. unfold holds_last. destruct (granted_page pid s A n g x Hs Hg Hx) as [-> ?]. split; [done|].
    by rewrite (si_last _ _ _ Hs), (di_last _ _ HA n g x Hg Hx).
Qed.
End theorems.

(** ** A run

    A page of node 0 with contents 5: node 1 writes 6, node 2 reads it. *)

#[local] Existing Instance release_build.
Definition demo_pid : Z := mkPID 0 7.
Definition demo : list (@action nat) :=
  [AFix 1 LS_EXCLUSIVE 3 0; AHandlePR 1 4; AReadDone; AHandlePR 1 4; AResumePR 1 0; AWrite 1 6%nat; ARelease 1;
   AFix 2 LS_SHARED 5 0; AHandlePR 2 4; AResumePR 2 0; AHandlePMR 2 1; AResumeMove 2; AFix 2 LS_SHARED 5 0].
Definition demo_after (l : nat) : sys :=
  match run demo_pid (take l demo) (stored 5%nat) with Ok s => s | Throw _ => stored 5%nat end.
(** The states after node 1 wrote and after node 2 read. *)
Definition demo_written : sys := demo_after 6.
Definition demo_read : sys := demo_after 13.

Lemma demo_ok l : Forall (@action_ok nat) (take l demo).
Proof. apply Forall_take. repeat constructor; done. Qed.

Lemma demo_owner : is_node (owner demo_pid).
Proof. by vm_compute. Qed.

Lemma deviated_take `{!Build} {V} pid k l (s : @sys V) : deviated pid l s = false → deviated pid (take k l) s = false.
Proof.
  revert k s. induction l as [|a l IH]; intros [|k] s; try done. cbn. intros [-> Hr]%orb_false_iff. cbn.
  destruct (exec pid a s); [by apply IH|done].
Qed.

Lemma demo_reachable (l : nat) s : run demo_pid (take l demo) (stored 5%nat) = Ok s → reachable demo_pid s.
Proof.
  apply run_reachable; [|apply demo_ok|apply deviated_take; by vm_compute]. exists (stored 5%nat). split; [apply i_stored|done].
Qed.


Lemma coherence_single_writer_witness : may_access demo_written LS_EXCLUSIVE 1 = true ∧ may_access demo_written LS_SHARED 1 = true ∧
  (∀ k, may_access demo_written LS_SHARED k = true → k = 1).
Proof.
  split; [by vm_compute|]. split; [by vm_compute|]. intros k Hk.
  apply (coherence_single_writer demo_pid demo_owner demo_written 1 k); [|by vm_compute|done].
  apply (demo_reachable 6). by vm_compute.
Defined.

Lemma coherence_reads_last_witness : may_access demo_read LS_SHARED 2 = true ∧ y_data demo_read !! 2 = Some 6%nat.
Proof.
  split; [by vm_compute|].
  transitivity (Some (y_last demo_read)); [|by vm_compute].
  apply (coherence_reads_last demo_pid demo_owner demo_read LS_SHARED 2); [|by vm_compute].
  apply (demo_reachable 13). by vm_compute.
Defined.

Lemma coherence_refines_directory_witness : ∃ A0 A, d_initial A0 ∧ rtc (dstep (owner demo_pid)) A0 A ∧
  d_last A = 6%nat ∧ readable A 2.
Proof.
  destruct (coherence_refines_directory demo_pid demo_owner demo_read) as (A0 & A & Hi & Hst & Hl & Hr & _).
  - apply (demo_reachable 13). by vm_compute.
  - exists A0, A. split; [exact Hi|]. split; [exact Hst|]. split; [rewrite <- Hl; by vm_compute|].
    apply Hr. by vm_compute.
Defined.

(** ** Evictions

    Node 1 gives the page it wrote back to its owner, the owner writes it to the
    SSD and forgets it, and node 2 reads it again. *)
Definition no_entries : EvictionRequest := mkRequest 0 0 0 0 [].
Definition demo_pages : ring nat := mkRing 2 [8; 9]%nat 0 1.
Definition demo_evict : list (@action nat) :=
  take 7 demo ++
  [AEvict 1 true 0 false true 0 0 no_entries; AHandleEvict 1 true false false demo_pages; ATaken; AResumeEvict 1 true;
   AEvict 0 true 0 false true 0 0 no_entries; AWritten; AEvict 0 true 0 false true 0 0 no_entries] ++
  [AFix 2 LS_SHARED 5 0; AHandlePR 2 4; AReadDone; AHandlePR 2 4; AResumePR 2 0; AFix 2 LS_SHARED 5 0].
Definition evict_after (l : nat) : sys :=
  match run demo_pid (take l demo_evict) (stored 5%nat) with Ok s => s | Throw _ => stored 5%nat end.

Lemma demo_pages_ok : rb_inv demo_pages ∧ 0 < rb_getSize demo_pages.
Proof. split; [|done]. split; [exists 1; split; [lia|done]|]. cbn. lia. Qed.

Lemma demo_evict_ok l : Forall (@action_ok nat) (take l demo_evict).
Proof.
  apply Forall_take, Forall_app. split; [apply demo_ok|]. repeat (apply Forall_cons; split; [first [exact demo_pages_ok|done]|]). by apply Forall_nil.
Qed.

(** The page is on the SSD only, after all frames are gone. *)
Lemma coherence_keeps_page_witness : y_frames (evict_after 14) = ∅ ∧ y_ssd (evict_after 14) = 6%nat.
Proof.
  split; [by vm_compute|].
  destruct (coherence_keeps_page demo_pid demo_owner (stored 5%nat) (take 14 demo_evict) (evict_after 14)) as [E|[(n & [f Hf] & _)|E]].
  - apply i_stored.
  - apply demo_evict_ok.
  - by vm_compute.
  - etransitivity; [exact E|]. by vm_compute.
  - exfalso. assert (y_frames (evict_after 14) = ∅) as E by (by vm_compute). rewrite E, lookup_empty in Hf. discriminate Hf.
  - exfalso. by vm_compute in E.
Defined.
