(* ===== verification/CoherenceLive.v ===== *)
(** * The coherence protocol does not deadlock

    A worker that waits inside [fix] waits for an older grant, and the oldest
    waits for nobody: as long as nobody keeps the page latched, some worker or
    message handler can go on. *)

From S2P Require Import Prelude Defs Random Bitmap RingBuffer BufferFrame Eviction Messages Protocol Directory Coherence CoherenceInv CoherenceSim CoherenceView CoherenceSteps CoherenceRequests CoherenceEvict CoherenceTable CoherenceWhole CoherenceReach CoherenceSpec.
Local Open Scope Z_scope.
#[local] Existing Instance release_build.

(** The result does not block, and [P] holds of a state it yields. *)
Definition good {S} (P : S → Prop) (r : result S) : Prop :=
  match r with Ok s => P s | Throw e => e ≠ WouldBlock end.
Notation unblocked := (good (λ _, True)).

Lemma good_bind {S T} (P : T → Prop) (m : result S) (f : S → result T) :
  unblocked m → (∀ x, good P (f x)) → good P (m ≫= f).
Proof. destruct m; cbn; auto. Qed.
Lemma good_ensure b : unblocked (ensure b).
Proof. by destruct b. Qed.
Lemma good_of_option {S} e (x : option S) : e ≠ WouldBlock → unblocked (of_option e x).
Proof. by destruct x. Qed.
Lemma good_Ok {S} (P : S → Prop) s : P s → good P (Ok s).
Proof. done. Qed.

Lemma good_weaken {S} (P Q : S → Prop) r : good P r → (∀ s, P s → Q s) → good Q r.
Proof. destruct r; cbn; auto. Qed.

Create HintDb unblocked.
(** Runs through a function: everything it calls is known not to block. *)
Ltac unblock :=
  repeat match goal with
  | |- good _ (_ ≫= _) => apply good_bind; [|intros ?]
  | |- good _ (ensure _) => apply good_ensure
  | |- good _ (of_option _ _) => by apply good_of_option
  | |- good _ (let '_ := ?p in _) => destruct p
  | |- good _ (Ok _) => apply good_Ok
  | |- good _ (Throw _) => discriminate
  | |- good _ (if ?b then _ else _) => destruct b
  | |- good _ (match ?x with _ => _ end) => destruct x
  end; auto with unblocked.

(** ** The functions of the protocol do not block *)

Lemma assert_unblocked (B : Build) b : unblocked (assert_ b).
Proof. unfold assert_. unblock. Qed.
#[export] Hint Resolve assert_unblocked : unblocked.
Lemma setPossessor_unblocked n f : unblocked (setPossessor n f).
Proof. unfold setPossessor. unblock. Qed.
#[export] Hint Resolve setPossessor_unblocked : unblocked.
Lemma take_possession_unblocked type n f : unblocked (take_possession type n f).
Proof. unfold take_possession. unblock. Qed.
#[export] Hint Resolve take_possession_unblocked : unblocked.
Lemma local_finish_unblocked type n f : unblocked (local_finish type n f).
Proof. unfold local_finish. unblock. Qed.
Lemma reply_with_page_unblocked n r c msg f : unblocked (reply_with_page n r c msg f).
Proof. unfold reply_with_page. unblock. Qed.
#[export] Hint Resolve local_finish_unblocked reply_with_page_unblocked : unblocked.
Lemma possession_reply_unblocked m st n k f : unblocked (possession_reply m st n k f).
Proof. unfold possession_reply, reply_shared, reply_exclusive. unblock. Qed.
Lemma update_reply_unblocked n k p v f : unblocked (update_reply n k p v f).
Proof. unfold update_reply. unblock. Qed.
Lemma copy_reply_unblocked p v f : unblocked (copy_reply p v f).
Proof. unfold copy_reply. unblock. Qed.
Lemma move_reply_unblocked p b f : unblocked (move_reply p b f).
Proof. unfold move_reply. unblock. Qed.
Lemma remote_response_unblocked msg f : unblocked (remote_response msg f).
Proof. unfold remote_response. unblock. Qed.
Lemma local_copy_failed_unblocked f : unblocked (local_copy_failed f).
Proof. unfold local_copy_failed. unblock. Qed.
Lemma install_frame_unblocked n p pg e f : unblocked (install_frame n p pg e f).
Proof. unfold install_frame. unblock. Qed.
Lemma ssd_frame_unblocked n e f : unblocked (ssd_frame n e f).
Proof. unfold ssd_frame. unblock. Qed.
#[export] Hint Resolve local_copy_failed_unblocked install_frame_unblocked ssd_frame_unblocked : unblocked.
Lemma update_response_unblocked n v msg f : unblocked (update_response n v msg f).
Proof. unfold update_response. unblock. Qed.
Lemma while_bits_unblocked {S} fuel base (g : Z → S → S) w s : unblocked (while_bits fuel base g w s).
Proof. revert w s. induction fuel as [|fuel IH]; intros w s; cbn; unblock. Qed.
Lemma rnd_pick_unblocked {S} fuel (g : Z → S → S) p i w s : unblocked (rnd_pick_loop fuel g p i w s).
Proof. revert i w s. induction fuel as [|fuel IH]; intros i w s; cbn; unblock. Qed.
#[export] Hint Resolve possession_reply_unblocked update_reply_unblocked copy_reply_unblocked move_reply_unblocked
  remote_response_unblocked update_response_unblocked while_bits_unblocked rnd_pick_unblocked : unblocked.
Lemma getRandU64_unblocked raw a b : unblocked (getRandU64 raw a b).
Proof. unfold getRandU64. unblock. Qed.
#[export] Hint Resolve getRandU64_unblocked : unblocked.
Lemma pick_unblocked raw w : unblocked (pick raw w).
Proof. unfold pick, sb64_applyToOneRnd. unblock. Qed.
Lemma sharers_unblocked w : unblocked (sharers w).
Proof. unfold sharers, sb64_applyForAll. unblock. Qed.
Lemma frame_of_unblocked {V} (s : @sys V) n : unblocked (frame_of s n).
Proof. unfold frame_of. unblock. Qed.
Lemma send_page_unblocked {V} (s : @sys V) n k : unblocked (send_page k n s).
Proof. unfold send_page, data_of. unblock. Qed.
Lemma remove_frame_unblocked (B : Build) {V} pid (s : @sys V) n : unblocked (remove_frame pid n s).
Proof. unfold remove_frame. unblock. Qed.
#[export] Hint Resolve remove_frame_unblocked : unblocked.
#[export] Hint Resolve pick_unblocked sharers_unblocked frame_of_unblocked send_page_unblocked : unblocked.
Lemma rb_remove_unblocked (r : ring nat) : unblocked (rb_remove r).1.
Proof.
  assert (∀ i, unblocked (arr_getZ (rb_data r) i)) as Hget by (intros i; unfold arr_getZ, arr_get; unblock).
  unfold rb_remove. specialize (Hget (rb_front r)). destruct (arr_getZ _ _) as [t|e]; [|done]. by destruct (0 <? rb_count r).
Qed.
Lemma entry_possession_unblocked ssd n k f : unblocked (entry_possession ssd n k f).
Proof. unfold entry_possession. unblock. Qed.
#[export] Hint Resolve rb_remove_unblocked entry_possession_unblocked : unblocked.
Lemma evict_entry_unblocked ssd n k (buf : ring nat) f : unblocked (evict_entry ssd n k buf f).
Proof.
  unfold evict_entry. pose proof (rb_remove_unblocked buf) as Hr. destruct (rb_remove buf) as [pg buf']. cbn [fst] in Hr. unblock.
Qed.
#[export] Hint Resolve evict_entry_unblocked : unblocked.

(** ** Enabled actions *)

(** Actions the protocol takes by itself; the others are calls of [fix] and
    uses of the page by workers, and what a provider starts. *)
Definition internal {V} (a : @action V) : bool :=
  match a with AFix _ _ _ _ | AWrite _ _ | ARelease _ | AEvict _ _ _ _ _ _ _ _ | AClearCR _ => false | _ => true end.

(** Some worker or message handler can go on, as the protocol intends: the latch
    of a node changes hands, or its holder takes the next step. *)
Definition moves_on `{!Build} {V} (pid : Z) (s : @sys V) : Prop :=
  ∃ a s' n, internal a = true ∧ action_ok a ∧ deviates a s = false ∧ exec pid a s = Ok s' ∧ y_latch s' !! n ≠ y_latch s !! n.

(** A worker waits inside [fix], or a page provider for another node. *)
Definition waiting {V} (s : @sys V) (n : Z) : Prop := ∃ pc, y_latch s !! n = Some (Holder pc) ∧ pc ≠ Using.
(** No worker has the page latched outside [fix]. *)
Definition idle {V} (s : @sys V) : Prop :=
  ∀ n, y_latch s !! n ≠ Some (Holder Using) ∧ ∀ k, y_latch s !! n ≠ Some (Readers k).

Section progress.
Context {V : Type} (pid : Z).
Notation o := (owner pid).
Hypothesis Ho : is_node o.
Variables (s : @sys V) (A : dstate V).
Hypotheses (Hw : whole pid s A) (Hver : version_left pid s) (Hidle : idle s).
Implicit Types (f : BufferFrame) (n k : Z) (type : LATCH_STATE).
Let HA : dinv o A := wh_dinv _ _ _ Hw.
Let Hs : sim pid s A := wh_sim _ _ _ Hw.
Let Hc : cinv pid s := wh_cinv _ _ _ Hw.

(** The bucket did not change under the lookup, no entry of another response is
    taken for an answer. *)
Definition plain (a : @action V) : bool :=
  match a with AHandleEvict _ _ _ moved _ => negb moved | AResumeEvict _ stale => negb stale | _ => true end.

Lemma enabled a n : internal a = true → plain a = true → action_ok a →
  good (λ s', y_latch s' !! n ≠ y_latch s !! n) (exec pid a s) → moves_on pid s.
Proof.
  intros Hi Hp Ha Hg. assert (deviates a s = false) as Hdev by (destruct a; try done; by destruct stale).
  destruct (exec_ok pid Ho a s A Hw Hver Ha Hdev) as [Hoc|[[Hun|Hun] _]]; [|by destruct a|by destruct a; try done; destruct moved].
  remember (exec pid a s) as r eqn:E. destruct Hoc as [|s']; [done|]. by exists a, s', n.
Qed.

(** The latch of [n] after the last step of [fix]. *)
Lemma finish_good n type t (s1 : @sys V) (P : sys → Prop) :
  (∀ s', y_latch s' !! n = None ∨ y_latch s' !! n = Some (Holder Using) → P s') → good P (finish pid n type t s1).
Proof.
  intros HP. unfold finish. unblock. apply HP. case_decide; at_node; auto.
Qed.

(** The worker of [n] after the answer of the owner. *)
Lemma resolve_good n type raw t (s1 : @sys V) (P : sys → Prop) :
  (∀ s', match y_latch s' !! n with
         | Some (Holder (WaitPR _ _)) | Some (Holder (WUpdate _ _)) => False | _ => True end → P s') →
  good P (resolve pid n type raw t s1).
Proof.
  intros HP. destruct t; cbn [resolve]; [|unblock; apply HP; at_node; done..].
  apply finish_good. intros s' Hl. apply HP. by destruct Hl as [-> | ->].
Qed.

Ltac go a n := apply (enabled a n); [done|done|done|cbn [exec]].

Lemma read_moves t : y_latch s !! o = Some (Holder (ReadSSD t)) → moves_on pid s.
Proof. intros Hl. go (@AReadDone V) (owner pid). unfold read_done. rewrite Hl. unblock; [case_decide|]; at_node; done. Qed.

Lemma answer_moves n type msg : y_latch s !! n = Some (Holder (WaitPR type (Some msg))) → moves_on pid s.
Proof.
  intros Hl. go (@AResumePR V n 0) n. unfold resume_pr. rewrite Hl. unblock. apply resolve_good.
  intros s' Hm E. by rewrite E in Hm.
Qed.

Lemma moved_moves n pc : y_latch s !! n = Some (Holder pc) →
  match pc with WMove _ _ b | WMoveRnd _ _ b => b = true | _ => False end → moves_on pid s.
Proof.
  intros Hl Hb. go (@AResumeMove V n) n. unfold resume_move. rewrite Hl. destruct pc; try done; subst; unblock.
  - apply finish_good. intros s' [E|E]; rewrite E; congruence.
  - at_node. congruence.
Qed.

Lemma upgraded_moves n old msg : y_latch s !! n = Some (Holder (WUpdate old (Some msg))) → moves_on pid s.
Proof.
  intros Hl. go (@AResumeUpdate V n 0) n. unfold resume_update. rewrite Hl. unblock; [|at_node; congruence].
  apply resolve_good. intros s' Hm E. by rewrite E in Hm.
Qed.

Lemma invalidated_moves n : y_latch s !! n = Some (Holder (WInval ∅)) → moves_on pid s.
Proof.
  intros Hl. go (@AResumeInval V n) n. unfold resume_inval. rewrite Hl, bool_decide_eq_true_2 by done.
  unfold when. rewrite bind_Ok. apply finish_good. intros s' [E|E]; rewrite E; congruence.
Qed.

Lemma copy_moves n type w id r : y_latch s !! n = Some (Holder (WCopy type w id r)) → moves_on pid s.
Proof.
  intros Hl. destruct r as [r|].
  - go (@AResumeCopy V n 0) n. unfold resume_copy. rewrite Hl. unblock; try (at_node; congruence).
    apply finish_good. intros s' [E|E]; rewrite E; congruence.
  - go (@AHandlePCR V n true) n. unfold handle_pcr. rewrite Hl. apply good_bind; [auto with unblocked|intros fn].
    destruct (y_frames s !! id) as [f|]; [|cbn; at_node; congruence].
    destruct (y_latch s !! id) as [[| |]|]; cbn [negb]; rewrite ?andb_false_r; unblock; at_node; congruence.
Qed.

(** The worker of [n] moves the page from [k], or invalidates it there. *)
Lemma target_moves n k pc : y_latch s !! n = Some (Holder pc) → y_latch s !! k = None → n ≠ k →
  match pc with
  | WMove _ id b | WMoveRnd id _ b => b = false ∧ id = k
  | WInval out => k ∈ out
  | _ => False
  end → moves_on pid s.
Proof.
  intros Hl Hk Hne Hpc. go (@AHandlePMR V n k) n. unfold handle_pmr. rewrite Hl.
  assert (∀ b pc', pc' ≠ pc → good (λ s', y_latch s' !! n ≠ y_latch s !! n) (surrender pid n k b pc' s)) as Hsur.
  { intros b pc' Hne'. unfold surrender. destruct (y_frames s !! k); [|done].
    rewrite bool_decide_eq_true_2 by done. unblock; at_node; congruence. }
  destruct pc; try done.
  - destruct Hpc as [-> ->]. rewrite Z.eqb_refl. unfold when. rewrite bind_Ok. rewrite <- Hl. by apply Hsur.
  - destruct Hpc as [-> ->]. rewrite Z.eqb_refl. unfold when. rewrite bind_Ok. rewrite <- Hl. by apply Hsur.
  - rewrite bool_decide_eq_true_2 by done. unfold when. rewrite bind_Ok. rewrite <- Hl. apply Hsur.
    intros [= E]. clear -E Hpc. set_solver.
Qed.

(** The owner can answer the worker of [n]. *)
Lemma request_moves n type : y_latch s !! n = Some (Holder (WaitPR type None)) → y_latch s !! o = None → moves_on pid s.
Proof.
  intros Hl Hlo. destruct (decide (n = o)) as [->|Hn]; [congruence|].
  destruct (y_frames s !! o) as [f|] eqn:Hf.
  - go (@AHandlePR V n 0%nat) n. unfold handle_pr. rewrite Hl, Hf.
    pose proof (owner_free _ _ _ Hs f Hf ltac:(congruence)) as (_ & _ & _ & _ & _ & _ & Hst).
    rewrite (bool_decide_eq_true_2 (y_latch s !! o = None)) by done.
    rewrite (bool_decide_eq_false_2 (bf_state f = INVALIDATION_EXPECTED)) by (destruct Hst as [(? & _)|(? & _)]; congruence).
    unfold when. cbn [negb]. rewrite !bind_Ok. unblock; at_node; congruence.
  - go (@AHandlePR V n 0%nat) (owner pid). unfold handle_pr. rewrite Hl, Hf. unblock. at_node. congruence.
Qed.

Lemma update_moves n old g : y_latch s !! n = Some (Holder (WUpdate old None)) → d_gr A !! n = Some g → g_v g = old →
  y_latch s !! o = None ∨ old < d_v A → moves_on pid s.
Proof.
  intros Hl Hg Hv Hlo. go (@AHandlePUR V n) n. unfold handle_pur. rewrite Hl.
  unfold frame_of. destruct (y_frames s !! o) as [f|] eqn:Hf; [|done]. cbn [of_option]. rewrite bind_Ok. cbv zeta.
  destruct (owner_version _ _ _ Hs f Hf) as [Hvf _]. rewrite Hvf.
  destruct Hlo as [Hlo|Hlt].
  - rewrite bool_decide_eq_true_2 by done. cbn [negb andb]. unblock; at_node; congruence.
  - rewrite (proj2 (Z.eqb_neq (d_v A) old)), andb_false_r, (proj2 (Z.ltb_lt old (d_v A))) by lia. cbn. at_node. congruence.
Qed.

Lemma grant_version n g : n ≠ o → d_gr A !! n = Some g → 0 <= g_v g.
Proof.
  intros Hn Hg. pose proof (si_remote _ _ _ Hs n Hn) as Hr. rewrite Hg in Hr. remember (Some g) as go eqn:Eg.
  assert (∀ f, io_ok pid f → 0 <= bf_pVersion f) as Hio by (intros f ((_ & _ & _ & ?) & _); done).
  assert (∀ f, hot_ok pid n f → 0 <= bf_pVersion f) as Hhot by (intros f ((_ & _ & _ & ?) & _); done).
  destruct Hr; try discriminate Eg; apply (inj Some) in Eg as <-; cbn [g_v]; try done; try (by apply Hio); try (by apply Hhot).
  - naive_solver.
  - lia.
Qed.

(** ** The page providers *)

Lemma written_moves (k : nat) : y_latch s !! o = Some (Writing k) → moves_on pid s.
Proof.
  intros Hl. go (@AWritten V) (owner pid). unfold written. rewrite Hl. unfold data_of. unblock. case_decide; at_node; congruence.
Qed.

Lemma taken_moves n : y_latch s !! o = Some (Holder (WTake n)) → moves_on pid s.
Proof.
  intros Hl. destruct (owner_take _ _ _ Hs n Hl) as (_ & _ & _ & _ & _ & _ & _ & _ & _ & Hn & _).
  pose proof (proj1 (ci_take _ _ Hc n Hn) Hl) as Hln. assert (o ≠ n) by done.
  go (@ATaken V) (owner pid). unfold taken. rewrite Hl, Hln. unblock. at_node. congruence.
Qed.

(** A provider that is asked has private pages. *)
Definition private : ring nat := mkRing 2 [3; 4]%nat 0 1.
Lemma private_ok : rb_inv private ∧ 0 < rb_getSize private.
Proof. split; [|done]. split; [exists 1; split; [lia|done]|]. cbn. lia. Qed.

Lemma evict_moves n e : n ≠ o → y_latch s !! n = Some (Holder (WEvict e)) → moves_on pid s.
Proof.
  intros Hn Hl. destruct e.
  - apply (enabled (@AHandleEvict V n false false false private) n); [done|done|apply private_ok|cbn [exec]]. unfold handle_evict. rewrite Hl.
    apply good_bind; [auto with unblocked|intros fn]. assert (n ≠ o) by done. assert (o ≠ n) by done.
    destruct (y_frames s !! o) as [f|]; [|done]. unblock; try case_decide; at_node; congruence.
  - apply (taken_moves n). by apply (ci_take _ _ Hc n Hn).
  - go (@AResumeEvict V n false) n. unfold resume_evict. rewrite Hl. destruct ack; cbn; at_node; congruence.
Qed.

(** The latch of a node that somebody waits for. *)
Lemma latch_or_waits n : y_latch s !! n = None ∨ waiting s n ∨ moves_on pid s.
Proof.
  destruct (y_latch s !! n) as [[k|k|pc]|] eqn:Hl; [by destruct (proj2 (Hidle n) k)| | |by left].
  - right; right. destruct (decide (n = o)) as [->|Hn]; [by eapply written_moves|]. by apply (remote_not_written _ _ _ Hs n _ Hn) in Hl.
  - right; left. exists pc. split; [done|]. intros ->. by destruct (Hidle n).
Qed.

(** A worker that waits for older grants: the oldest of them can go on. *)
Lemma granted_moves n g pc : d_gr A !! n = Some g → y_latch s !! n = Some (Holder pc) → pc ≠ Using →
  (∀ old, pc = WUpdate old None → n ≠ o → g_v g < d_v A) → moves_on pid s.
Proof.
  remember (Z.to_nat (g_v g)) as m eqn:Hm. revert n g pc Hm.
  induction (lt_wf m) as [m _ IH]. intros n g pc -> Hg Hl Hu Hup.
  (* node [k] has to give the page up *)
  assert (∀ k, k ∈ g_need g →
     match pc with WMove _ id b | WMoveRnd id _ b => b = false ∧ id = k | WInval out => k ∈ out | _ => False end →
     moves_on pid s) as Htarget.
  { intros k Hk Hpc. destruct (need_not_holder o A HA n g k Hg Hk) as [_ Hko].
    destruct (di_need _ _ HA n g k Hg Hk) as (gk & Hgk & Hvk).
    assert (n ≠ k) as Hnk by (intros ->; assert (gk = g) as -> by congruence; lia).
    destruct (latch_or_waits k) as [Hlk|[(pck & Hlk & Huk)|?]]; [by eapply target_moves| |done].
    pose proof (grant_version k gk Hko Hgk). destruct (di_dir _ _ HA n g Hg) as [Hle _].
    eapply (IH (Z.to_nat (g_v gk)) ltac:(lia) k gk pck); try done. intros; lia. }
  destruct pc; try done.
  - destruct (decide (n = o)) as [->|Hn]; [by eapply read_moves|]. by apply (remote_not_read _ _ _ Hs n _ Hn) in Hl.
  - destruct r as [msg|]; [by eapply answer_moves|].
    destruct (decide (n = o)) as [->|Hn]; [by apply (owner_not_remote _ _ _ Hs) in Hl|].
    destruct (remote_waits _ _ _ Hs n _ Hn Hl) as (? & _ & _ & ?). congruence.
  - destruct answered; [by eapply moved_moves|]. apply (Htarget id); [|done].
    destruct (decide (n = o)) as [->|Hn].
    + destruct (owner_move _ _ _ Hs _ _ _ Hl) as (? & _ & _ & _ & _ & Hg'). rewrite Hg in Hg'. apply (inj Some) in Hg' as ->. set_solver-.
    + destruct (remote_move _ _ _ Hs n _ _ _ Hn Hl) as (? & _ & _ & _ & Hg'). rewrite Hg in Hg'. apply (inj Some) in Hg' as ->. set_solver-.
  - destruct answered; [by eapply moved_moves|]. apply (Htarget id); [|done].
    destruct (decide (n = o)) as [->|Hn].
    + destruct (owner_move_rnd _ _ _ Hs _ _ _ Hl) as (? & _ & _ & _ & _ & _ & _ & Hg'). rewrite Hg in Hg'. apply (inj Some) in Hg' as ->. set_solver-.
    + destruct (remote_move_rnd _ _ _ Hs n _ _ _ Hn Hl) as (? & _ & _ & _ & _ & _ & Hg'). rewrite Hg in Hg'. apply (inj Some) in Hg' as ->. set_solver-.
  - destruct (decide (out = ∅)) as [->|Hne]; [by eapply invalidated_moves|]. destruct (set_choose_L _ Hne) as [k Hk].
    apply (Htarget k); [|done]. destruct (decide (n = o)) as [->|Hn].
    + destruct (owner_inval _ _ _ Hs _ Hl) as (? & ? & _ & _ & _ & _ & Hg'). rewrite Hg in Hg'. by apply (inj Some) in Hg' as ->.
    + destruct (remote_inval _ _ _ Hs n _ Hn Hl) as (? & ? & _ & _ & _ & Hg'). rewrite Hg in Hg'. by apply (inj Some) in Hg' as ->.
  - by eapply copy_moves.
  - destruct (decide (n = o)) as [->|Hn]; [by apply (owner_not_remote _ _ _ Hs) in Hl|].
    destruct r as [msg|]; [by eapply upgraded_moves|]. specialize (Hup _ eq_refl Hn).
    destruct (remote_update _ _ _ Hs n _ _ Hn Hl) as (? & ? & _ & _ & _ & _ & _ & _ & [[_ Hg']|(? & ? & ? & _)]); [|done].
    rewrite Hg in Hg'. apply (inj Some) in Hg' as ->. eapply update_moves; try done. by right.
  - destruct (decide (n = o)) as [->|Hn]; [by apply (owner_not_remote _ _ _ Hs) in Hl|by eapply evict_moves].
  - destruct (decide (n = o)) as [->|Hn]; [by eapply taken_moves|by apply (remote_not_taken _ _ _ Hs n _ Hn) in Hl].
Qed.

(** The worker of the owner. *)
Lemma owner_moves : waiting s o → moves_on pid s.
Proof.
  intros (pc & Hl & Hu). destruct (d_gr A !! o) as [g|] eqn:Hg; [by eapply granted_moves|].
  pose proof (owner_not_remote _ _ _ Hs pc Hl) as Hpc. destruct pc; try done.
  - by eapply read_moves.
  - destruct (owner_move _ _ _ Hs _ _ _ Hl) as (? & _ & _ & _ & _ & Hg'). congruence.
  - destruct (owner_move_rnd _ _ _ Hs _ _ _ Hl) as (? & _ & _ & _ & _ & _ & _ & Hg'). congruence.
  - destruct (owner_inval _ _ _ Hs _ Hl) as (? & ? & _ & _ & _ & _ & Hg'). congruence.
  - by eapply copy_moves.
  - by eapply taken_moves.
Qed.

Lemma waiting_moves n : waiting s n → moves_on pid s.
Proof.
  intros (pc & Hl & Hu). destruct (decide (n = o)) as [->|Hn]; [apply owner_moves; by exists pc|].
  destruct (latch_or_waits o) as [Hlo|[Hwo|?]]; [|by apply owner_moves|done].
  destruct (d_gr A !! n) as [g|] eqn:Hg.
  - destruct pc as [| | | | | | |old [msg|]| |]; try by eapply granted_moves.
    destruct (remote_update _ _ _ Hs n _ _ Hn Hl) as (? & ? & _ & _ & _ & _ & _ & _ & [[_ Hg']|(? & ? & ? & _)]); [|done].
    rewrite Hg in Hg'. apply (inj Some) in Hg' as ->. eapply update_moves; try done. by left.
  - destruct pc as [| |type [msg|]| | | | | | |]; try done.
    + by apply (remote_not_read _ _ _ Hs n _ Hn) in Hl.
    + by eapply answer_moves.
    + by eapply request_moves.
    + destruct (remote_move _ _ _ Hs n _ _ _ Hn Hl) as (? & _ & _ & _ & Hg'). congruence.
    + destruct (remote_move_rnd _ _ _ Hs n _ _ _ Hn Hl) as (? & _ & _ & _ & _ & _ & Hg'). congruence.
    + destruct (remote_inval _ _ _ Hs n _ Hn Hl) as (? & ? & _ & _ & _ & Hg'). congruence.
    + by eapply copy_moves.
    + destruct (remote_update _ _ _ Hs n _ _ Hn Hl) as (? & ? & _ & _ & _ & _ & _ & _ & [[_ Hg']|(? & ? & _ & _ & _ & _ & _ & Hg')]); congruence.
    + by eapply evict_moves.
    + by apply (remote_not_taken _ _ _ Hs n _ Hn) in Hl.
Qed.
End progress.

(** [C4] Deadlock freedom, in a build without assertions (with them the step
    may abort): in every state the nodes can reach without a deviating action, if
    a worker waits inside [fix] or a page provider waits for another node, and no
    worker keeps the page latched for its own use, then some worker, message
    handler or page provider can take a step that lets one of them advance: the
    protocol never waits for itself. *)
Theorem coherence_deadlock_free `{B : !Build} {V} pid (s : @sys V) n : asserts = false → is_node (owner pid) → reachable pid s → version_left pid s →
  idle s → waiting s n → moves_on pid s.
Proof.
  intros Hrel Ho Hr%reachable_release Hver Hidle Hwait. destruct (reachable_refines pid Ho s Hr) as (A0 & A & _ & _ & Hw).
  destruct (waiting_moves pid Ho s A Hw Hver Hidle n Hwait) as (a & s' & k & ? & ? & ? & Hex & ?). exists a, s', k. split_and!; try done.
  destruct (exec_release B pid a s) as [->|[_ ?]]; [done|congruence].
Qed.

Lemma coherence_deadlock_free_witness : waiting (demo_after 10) 2 ∧ moves_on demo_pid (demo_after 10).
Proof.
  assert (y_latch (demo_after 10) = {[2 := Holder (WMove LS_SHARED 1 false)]}) as El by (vm_compute; reflexivity).
  assert (waiting (demo_after 10) 2) as Hw by (eexists; rewrite El; split; [reflexivity|discriminate]).
  split; [exact Hw|]. apply (coherence_deadlock_free demo_pid (demo_after 10) 2).
  - done.
  - apply demo_owner.
  - apply (demo_reachable 10). by vm_compute.
  - apply version_left_spec. by vm_compute.
  - intros n. rewrite El. split; [|intros k]; intros [_ E]%lookup_singleton_Some; discriminate E.
  - exact Hw.
Defined.
