(* ===== verification/CoherenceFaults.v ===== *)
(** * Where the code fails

    Runs of the system of Coherence.v that end in a failed check or lose the
    page: one for each exception that the theorems of CoherenceSpec.v make. *)

From S2P Require Import Prelude Defs Bitmap RingBuffer BufferFrame Eviction Messages Protocol Coherence CoherenceEvict CoherenceSpec.
Local Open Scope Z_scope.
#[local] Existing Instance release_build.

(** The page that was written last is nowhere. *)
Definition lost_b (s : @sys nat) (nodes : list Z) : bool :=
  negb (Nat.eqb (y_ssd s) (y_last s)) &&
  forallb (λ n, match y_frames s !! n, y_data s !! n with Some _, Some x => negb (Nat.eqb x (y_last s)) | _, _ => true end) nodes.

(** ** An entry left from an earlier response

    Node 1 wrote the page and asks the owner to take it back.  The owner
    refuses, but the response of another round still names the page behind its
    last entry: node 1 drops the page, and it is lost.  A node that wants the
    page is sent to node 1, whose message handler does not find the frame. *)
Definition stale_run : list (@action nat) :=
  take 7 demo ++ [AEvict 1 true 0 false true 0 0 no_entries; AHandleEvict 1 true true false demo_pages; AResumeEvict 1 true].
Definition stale_state : @sys nat := match run demo_pid stale_run (stored 5%nat) with Ok s => s | Throw _ => stored 5%nat end.

Lemma stale_entry_loses_page : run demo_pid stale_run (stored 5%nat) = Ok stale_state ∧ deviated demo_pid stale_run (stored 5%nat) = true ∧
  dom (y_frames stale_state) = {[0]} ∧ lost_b stale_state [0; 1; 2] = true ∧
  run demo_pid [AFix 2 LS_SHARED 5 0; AHandlePR 2 4; AResumePR 2 0; AHandlePMR 2 1] stale_state = Throw EnsureFailed.
Proof. by vm_compute. Qed.

(** ** The copy request of another worker

    Node 1 wrote the page, the owner took a copy and evicted it again, and node
    2 is told to copy it from node 1.  A handler withdraws the registration of
    node 2, so the owner lets node 1 drop the page: node 2 does not find it any
    more, and the page is lost. *)
Definition withdrawn_run : list (@action nat) :=
  take 7 demo ++
  [AFix 0 LS_SHARED 8 0; AHandlePMR 0 1; AResumeMove 0; AFix 1 LS_SHARED 3 0; AHandlePR 1 4; AResumePR 1 0;
   AEvict 0 false 0 false true 0 0 no_entries;
   AFix 2 LS_SHARED 5 0; AHandlePR 2 4; AClearCR 2;
   AEvict 1 false 0 false true 0 0 no_entries; AHandleEvict 1 false false false demo_pages; AResumeEvict 1 false;
   AResumePR 2 0; AHandlePCR 2 false].
Definition withdrawn_state : @sys nat := match run demo_pid withdrawn_run (stored 5%nat) with Ok s => s | Throw _ => stored 5%nat end.

Lemma withdrawn_copy_loses_page : run demo_pid withdrawn_run (stored 5%nat) = Ok withdrawn_state ∧
  deviated demo_pid withdrawn_run (stored 5%nat) = true ∧ lost_b withdrawn_state [0; 1; 2] = true.
Proof. by vm_compute. Qed.

(** ** The frame of a worker that gave up

    Node 2 copies the page from node 1 while node 3 takes it from there: the
    copy fails, the worker of node 2 gives way and leaves its frame unlatched,
    in the state of a page that is being read.  A page provider that meets the
    frame fails its check that the page is there. *)
Definition stuck_run : list (@action nat) :=
  [AFix 1 LS_SHARED 3 0; AHandlePR 1 4; AReadDone; AHandlePR 1 4; AResumePR 1 0;
   AEvict 0 false 0 false true 0 0 no_entries;
   AFix 2 LS_SHARED 5 0; AHandlePR 2 4; AResumePR 2 0;
   AFix 3 LS_EXCLUSIVE 6 0; AHandlePR 3 4; AResumePR 3 0; AHandlePMR 3 1; AResumeMove 3; AHandlePMR 3 2;
   AHandlePCR 2 false; AResumeCopy 2 0].
Definition stuck : sys := match run demo_pid stuck_run (stored 5%nat) with Ok s => s | Throw _ => stored 5%nat end.

Lemma stuck_reachable : run demo_pid stuck_run (stored 5%nat) = Ok stuck → reachable demo_pid stuck.
Proof.
  apply (run_reachable demo_pid stuck_run (stored 5%nat)).
  - exists (stored 5%nat). split; [apply i_stored|done].
  - repeat constructor; done.
  - by vm_compute.
Qed.

Lemma unfinished_reachable : reachable demo_pid stuck ∧
  exec demo_pid (AEvict 2 true 0 false true 0 0 no_entries) stuck = Throw EnsureFailed.
Proof. split; [apply stuck_reachable; by vm_compute|by vm_compute]. Qed.

(** ** A lookup that is undone

    Node 1 asks the owner to take the page back while a worker of the owner has
    its frame latched, and the bucket changes under the lookup. *)
Definition undone_run : list (@action nat) :=
  take 5 stuck_run ++ [AFix 0 LS_SHARED 8 0; ARelease 0; AFix 0 LS_EXCLUSIVE 8 0; AEvict 1 true 0 false true 0 0 no_entries].

Lemma undo_throws : ∃ s, run demo_pid undone_run (stored 5%nat) = Ok s ∧ deviated demo_pid undone_run (stored 5%nat) = false ∧
  exec demo_pid (AHandleEvict 1 true false true demo_pages) s = Throw EnsureFailed ∧
  ∃ s', exec demo_pid (AHandleEvict 1 true false false demo_pages) s = Ok s'.
Proof. eexists. split; [vm_compute; reflexivity|]. split; [by vm_compute|]. split; [by vm_compute|]. eexists. vm_compute. reflexivity. Qed.

(** ** Assertions

    In a build with assertions, on two nodes: the owner's handler aborts when it
    has to read the page from the SSD for node 1, and node 1 when it has to give
    the page up. *)
Definition debug2 : Build := mkBuild true 2.
Lemma ssd_branch_aborts : run (H:=debug2) demo_pid [AFix 1 LS_EXCLUSIVE 3 0; AHandlePR 1 4] (stored 5%nat) = Throw AssertFailed.
Proof. by vm_compute. Qed.
Lemma surrender_aborts :
  run (H:=debug2) demo_pid [AFix 0 LS_SHARED 8 0; AReadDone; AFix 1 LS_EXCLUSIVE 3 0; AHandlePR 1 4; AResumePR 1 0; ARelease 1;
    AFix 0 LS_SHARED 8 0; AHandlePMR 0 1] (stored 5%nat) = Throw AssertFailed.
Proof. by vm_compute. Qed.
