(* ===== verification/AsyncIO.v ===== *)
(** * storage/buffermanager/AsyncReadBuffer and AsyncWriteBuffer

    Two buffers of asynchronous page accesses over libaio.  They differ in the
    command a slot carries, in the signedness of their counters and in the
    assertion at the start of [AsyncWriteBuffer::add]; both are the record
    [aio] here, [write] tells which one it is.  A command is given a free slot, queued, submitted,
    and when the kernel reports its completion the slot is freed and the
    command goes to a callback.

    [io_setup], [io_submit] and [io_getevents] are not part of the sources:
    the return code of a submission, the completions of a poll and their results
    are arguments.  Theorems let the kernel report any of the accesses in flight,
    in any order, each once.  The number written into the page for debugging is
    left out. *)

From S2P Require Import Prelude Defs RingBuffer.
Local Open Scope Z_scope.

Section aio.
Context `{!Build} {C : Type} (write : bool).

(** [a_queue] is [iocbs_ptr] with the slot of each control block, [a_kernel]
    the slots of the accesses the kernel works on. *)
Record aio := mkAio {
  a_max : Z;
  a_ready : Z;
  a_outstanding : Z;
  a_commands : list (option C);
  a_queue : list Z;
  a_events : list Z;
  a_slots : ring Z;
  a_kernel : list Z;
}.

(** [slots] are added in ascending order. *)
Fixpoint add_slots (l : list Z) (r : ring Z) : result (ring Z) :=
  match l with [] => Ok r | i :: l => '(_, r) ← rb_add i r; add_slots l r end.

Definition aio_new (batch_max_size : Z) (ret : Z) : result aio :=
  r ← rb_new batch_max_size;
  if negb (ret =? 0) then Throw RuntimeError
  else
    r ← add_slots (seqZ 0 batch_max_size) r;
    Ok (mkAio batch_max_size 0 0 (replicate (Z.to_nat batch_max_size) None) (replicate (Z.to_nat batch_max_size) 0) [] r []).

Definition aio_full (a : aio) : bool :=
  let limit := if write then a_max a - 2 else a_max a -₆₄ 2 in
  limit <=? a_outstanding a + a_ready a.

(** [aligned] is the outcome of the test of the page's address. *)
Definition aio_add (c : C) (aligned : bool) (a : aio) : result aio :=
  _ ← (if write then assert_ false else Ok tt);
  _ ← ensure (negb (aio_full a));
  _ ← ensure aligned;
  _ ← ensure (a_outstanding a + a_ready a <=? a_max a);
  let '(slot, slots) := rb_remove (a_slots a) in
  slot ← slot;
  let slot_ptr := a_ready a in
  commands ← arr_setZ (a_commands a) slot (Some c);
  queue ← arr_setZ (a_queue a) slot_ptr slot;
  Ok (mkAio (a_max a) (a_ready a + 1) (a_outstanding a) commands queue (a_events a) slots (a_kernel a)).

(** [ret_code] is what [io_submit] returns. *)
Definition aio_submit (ret_code : Z) (a : aio) : result (Z * aio) :=
  if 0 <? a_ready a then
    _ ← ensure (ret_code =? s32 (a_ready a));
    Ok (ret_code, mkAio (a_max a) 0 (a_outstanding a + a_ready a) (a_commands a) (a_queue a) (a_events a) (a_slots a)
                    (a_kernel a ++ take (Z.to_nat (a_ready a)) (a_queue a)))
  else Ok (0, a).

(** [done] are the slots of the completions [io_getevents] reports; [None] is
    a negative return code. *)
Definition aio_poll (done : option (list Z)) (a : aio) : result (Z * aio) :=
  if 0 <? a_outstanding a then
    done ← of_option RuntimeError done;
    let n := Z.of_nat (length done) in
    _ ← ensure (n <=? a_outstanding a);
    Ok (n, mkAio (a_max a) (a_ready a) (a_outstanding a - n) (a_commands a) (a_queue a) done (a_slots a)
             (list_difference (a_kernel a) done))
  else Ok (0, a).

(** The loop over the events; [res] tells that an access transferred a whole
    page. *)
Fixpoint get_events {S} (callback : C → S → result S) (res : Z → bool) (events : list Z) (a : aio) (st : S) : result (S * aio) :=
  match events with
  | [] => Ok (st, a)
  | slot :: events =>
      '(_, slots) ← rb_add slot (a_slots a);
      let a := mkAio (a_max a) (a_ready a) (a_outstanding a) (a_commands a) (a_queue a) (a_events a) slots (a_kernel a) in
      _ ← ensure (res slot);
      c ← arr_getZ (a_commands a) slot;
      c ← of_option UndefinedBehaviour c;
      st ← callback c st;
      get_events callback res events a st
  end.
Definition aio_get {S} (callback : C → S → result S) (res : Z → bool) (n_events : Z) (a : aio) (st : S) : result (S * aio) :=
  get_events callback res (take (Z.to_nat n_events) (a_events a)) a st.

(** ** The invariant *)

Definition queued (a : aio) : list Z := take (Z.to_nat (a_ready a)) (a_queue a).
(** The commands of a list of slots. *)
Definition commands_at (a : aio) (l : list Z) : list C :=
  omap (λ i, a_commands a !!! Z.to_nat i) l.
Definition pending (a : aio) : list C := commands_at a (queued a ++ a_kernel a).

Record aio_ok (a : aio) : Prop := mkAioOk {
  ao_max : 2 < a_max a <= 2 ^ 31;
  ao_ring : rb_inv (a_slots a) ∧ a_max a <= rb_size (a_slots a);
  ao_commands : Z.of_nat (length (a_commands a)) = a_max a;
  ao_queue : Z.of_nat (length (a_queue a)) = a_max a;
  ao_ready : 0 <= a_ready a;
  ao_outstanding : a_outstanding a = Z.of_nat (length (a_kernel a));
  ao_slots : rb_abs (a_slots a) ++ queued a ++ a_kernel a ≡ₚ seqZ 0 (a_max a);
  ao_set : Forall (λ i, is_Some (a_commands a !!! Z.to_nat i)) (queued a ++ a_kernel a);
}.

(** ** The operations keep the invariant *)

Lemma rb_abs_length (r : ring Z) : rb_inv r → Z.of_nat (length (rb_abs r)) = rb_count r.
Proof. intros (_ & _ & _ & ?). unfold rb_abs. rewrite length_window. lia. Qed.

Lemma add_slots_ok l (r : ring Z) : rb_inv r → Z.of_nat (length (rb_abs r ++ l)) <= rb_size r →
  ∃ r', add_slots l r = Ok r' ∧ rb_inv r' ∧ rb_size r' = rb_size r ∧ rb_abs r' = rb_abs r ++ l.
Proof.
  revert r. induction l as [|i l IH]; intros r Hr Hl; simpl.
  - exists r. by rewrite app_nil_r.
  - rewrite length_app in Hl. cbn [length] in Hl. pose proof (rb_abs_length r Hr).
    destruct (rb_push_ok r i Hr) as (r1 & -> & Hr1 & Hs1 & Ha1); [lia|]. cbn [mbind result_bind].
    destruct (IH r1 Hr1) as (r2 & -> & Hr2 & Hs2 & Ha2); [rewrite Ha1, Hs1, !length_app; cbn [length]; lia|].
    exists r2. rewrite Ha2, Ha1, Hs2, Hs1, <- app_assoc. done.
Qed.

Lemma seqZ_length n : 0 <= n → Z.of_nat (length (seqZ 0 n)) = n.
Proof. intros. rewrite length_seqZ. lia. Qed.

Lemma aio_new_ok n : 2 < n <= 2 ^ 31 → ∃ a, aio_new n 0 = Ok a ∧ aio_ok a ∧ pending a = [] ∧ a_max a = n ∧ a_outstanding a + a_ready a = 0.
Proof.
  intros Hn. unfold aio_new. destruct (rb_new_inv (T:=Z) n) as (r & -> & Hr & Ha & Hs); [lia|]. cbn [mbind result_bind].
  cbn [Z.eqb negb]. destruct (add_slots_ok (seqZ 0 n) r Hr) as (r' & -> & Hr' & Hs' & Ha'); [rewrite Ha; simpl; rewrite seqZ_length; lia|].
  cbn [mbind result_bind]. eexists. split; [done|]. split; [|done].
  constructor; cbn; rewrite ?length_replicate; try lia; try done.
  - split; [done|]. by rewrite Hs'.
  - unfold queued. cbn. by rewrite Ha', Ha, app_nil_r.
Qed.

Section ok.
Variable a : aio.
Hypothesis Ha : aio_ok a.

Lemma queued_length : a_ready a <= a_max a → Z.of_nat (length (queued a)) = a_ready a.
Proof. pose proof (ao_queue a Ha). pose proof (ao_ready a Ha). intros. unfold queued. rewrite length_take. lia. Qed.

(** Free, queued and submitted slots are all there are. *)
Lemma slots_total : Z.of_nat (length (rb_abs (a_slots a))) + Z.of_nat (length (queued a)) + a_outstanding a = a_max a.
Proof.
  pose proof (ao_max a Ha). pose proof (Permutation_length (ao_slots a Ha)) as Hl. rewrite !length_app in Hl.
  rewrite length_seqZ in Hl. rewrite (ao_outstanding a Ha). lia.
Qed.

Lemma full_false : aio_full a = false → a_outstanding a + a_ready a < a_max a - 2.
Proof.
  pose proof (ao_max a Ha). unfold aio_full. destruct write; intros E%Z.leb_gt; [done|].
  rewrite u64_small in E by lia. done.
Qed.

Lemma slot_bound i : i ∈ rb_abs (a_slots a) ++ queued a ++ a_kernel a → 0 <= i < a_max a.
Proof. rewrite (ao_slots a Ha), elem_of_seqZ. lia. Qed.

Lemma slots_NoDup : NoDup (rb_abs (a_slots a) ++ queued a ++ a_kernel a).
Proof. rewrite (ao_slots a Ha). apply NoDup_seqZ. Qed.
End ok.

(** A command in another slot is not touched. *)
Lemma commands_at_insert l i c (a : aio) q r s rdy : i ∉ l → Forall (λ j, 0 <= j) (i :: l) →
  commands_at (mkAio (a_max a) rdy (a_outstanding a) (<[Z.to_nat i := Some c]> (a_commands a)) q r s (a_kernel a)) l = commands_at a l.
Proof.
  intros Hi Hl. apply Forall_cons in Hl as [Hi0 Hl]. unfold commands_at. cbn.
  induction l as [|j l IH]; [done|]. cbn. apply Forall_cons in Hl as [Hj0 Hl]. apply not_elem_of_cons in Hi as [Hij Hi].
  rewrite list_lookup_total_insert_ne by lia. destruct (a_commands a !!! Z.to_nat j); rewrite IH; done.
Qed.

Lemma aio_add_ok c a : asserts && write = false → aio_ok a → aio_full a = false →
  ∃ a', aio_add c true a = Ok a' ∧ aio_ok a' ∧ a_max a' = a_max a ∧
    a_outstanding a' + a_ready a' = a_outstanding a + a_ready a + 1 ∧ pending a' ≡ₚ c :: pending a.
Proof.
  intros Hw Ha Hf. pose proof (full_false a Ha Hf) as Hlt. pose proof (ao_max a Ha) as Hm. pose proof (ao_ready a Ha) as Hr0.
  pose proof (ao_outstanding a Ha) as Ho. pose proof (slots_total a Ha) as Ht. rewrite queued_length in Ht by (done || lia).
  unfold aio_add. assert ((if write then assert_ false else Ok tt) = Ok tt) as ->
    by (unfold assert_; destruct write; [|done]; rewrite andb_true_r in Hw |- *; by rewrite Hw).
  rewrite bind_Ok, Hf. cbn [negb ensure mbind result_bind]. rewrite (proj2 (Z.leb_le _ _)) by lia. cbn [ensure mbind result_bind].
  destruct (ao_ring a Ha) as [Hring Hsize]. destruct (rb_abs (a_slots a)) as [|i fr] eqn:Habs; [simpl in Ht; lia|].
  destruct (rb_pop_ok (a_slots a) i fr Hring Habs) as (r' & -> & Hring' & Hsize' & Habs'). cbn [mbind result_bind].
  assert (0 <= i < a_max a) as Hi by (apply (slot_bound a Ha); rewrite Habs; by left).
  rewrite (arr_setZ_lt (a_commands a)) by (pose proof (ao_commands a Ha); lia). cbn [mbind result_bind].
  rewrite (arr_setZ_lt (a_queue a)) by (pose proof (ao_queue a Ha); lia). cbn [mbind result_bind].
  eexists. split; [done|].
  set (a' := mkAio _ _ _ _ _ _ _ _).
  assert (queued a' = queued a ++ [i]) as Hq.
  { unfold queued, a'. cbn. pose proof (ao_queue a Ha). replace (Z.to_nat (a_ready a + 1)) with (S (Z.to_nat (a_ready a))) by lia.
    rewrite (take_S_r _ _ i) by (apply list_lookup_insert_eq; lia). by rewrite take_insert_ge by lia. }
  pose proof (slots_NoDup a Ha) as Hnd. rewrite Habs in Hnd. cbn [app] in Hnd. apply NoDup_cons in Hnd as [Hin _].
  assert (i ∉ queued a ++ a_kernel a) as Hnew by set_solver.
  assert (Forall (λ j, 0 <= j) (i :: queued a ++ a_kernel a)) as Hpos.
  { apply Forall_forall. intros j Hj. apply (slot_bound a Ha). rewrite Habs. set_solver. }
  assert (commands_at a' (queued a ++ a_kernel a) = pending a) as Hsame by (by apply commands_at_insert).
  assert (a_commands a' !!! Z.to_nat i = Some c) as Hc.
  { cbn. apply list_lookup_total_insert_eq. pose proof (ao_commands a Ha). lia. }
  split; [|split; [done|split; [cbn; lia|]]].
  - constructor; try (cbn; rewrite ?length_insert; by apply Ha).
    + cbn. split; [done|lia].
    + cbn. lia.
    + rewrite Hq. cbn [a_slots a_kernel a_max a']. rewrite Habs', <- (ao_slots a Ha), Habs. solve_Permutation.
    + rewrite Hq. apply Forall_forall. intros j Hj.
      destruct (decide (j = i)) as [->|Hji]; [by rewrite Hc|].
      assert (j ∈ queued a ++ a_kernel a) as Hj' by (cbn [a_kernel a'] in Hj; set_solver).
      cbn. rewrite list_lookup_total_insert_ne; [by apply (proj1 (Forall_forall _ _) (ao_set a Ha))|].
      assert (0 <= j) by (apply (proj1 (Forall_forall _ _) Hpos); by right). lia.
  - unfold pending at 1. rewrite Hq. cbn [a_kernel a'].
    rewrite <- Hsame. unfold commands_at. rewrite !omap_app. cbn [omap list_omap]. rewrite Hc. solve_Permutation.
Qed.

Lemma aio_submit_ok a : aio_ok a → a_ready a <= a_max a →
  ∃ n a', aio_submit (s32 (a_ready a)) a = Ok (n, a') ∧ aio_ok a' ∧ a_max a' = a_max a ∧
    a_outstanding a' + a_ready a' = a_outstanding a + a_ready a ∧ pending a' ≡ₚ pending a.
Proof.
  intros Ha Hle. unfold aio_submit. destruct (Z.ltb_spec 0 (a_ready a)) as [Hlt|Hge].
  - rewrite Z.eqb_refl. cbn [ensure mbind result_bind]. eexists _, _. split; [done|]. split; [|split; [done|split; [cbn; lia|]]].
    + constructor; cbn; try (by apply Ha); try done.
      * rewrite length_app, Nat2Z.inj_add, (ao_outstanding a Ha). pose proof (queued_length a Ha Hle) as E. unfold queued in E. lia.
      * unfold queued at 1. cbn. rewrite <- (ao_slots a Ha). unfold queued. solve_Permutation.
      * unfold queued at 1. cbn. apply Forall_forall. intros j Hj. apply (proj1 (Forall_forall _ _) (ao_set a Ha)). unfold queued. set_solver.
    + unfold pending, queued, commands_at. cbn. rewrite !omap_app. solve_Permutation.
  - by eexists _, _.
Qed.

(** The events of a poll: slots the kernel works on, each once. *)
Definition events_ok (done : list Z) (a : aio) : Prop := NoDup done ∧ done ⊆ a_kernel a.

Lemma difference_split (done l : list Z) : NoDup l → NoDup done → done ⊆ l → done ++ list_difference l done ≡ₚ l.
Proof.
  intros Hl Hd Hsub. apply NoDup_Permutation; [|done|].
  - apply NoDup_app. split; [done|]. split; [|by apply NoDup_list_difference]. intros x Hx. rewrite list_elem_of_difference. tauto.
  - intros x. rewrite elem_of_app, list_elem_of_difference. destruct (decide (x ∈ done)); [|tauto]. split; [by auto|by auto].
Qed.

(** The callbacks of a list of commands. *)
Fixpoint callbacks {S} (callback : C → S → result S) (cs : list C) (st : S) : result S :=
  match cs with [] => Ok st | c :: cs => st ← callback c st; callbacks callback cs st end.

(** The slots of the events become free and their commands go to the
    callback. *)
Lemma get_events_ok {S} (callback : C → S → result S) events a st r' :
  add_slots events (a_slots a) = Ok r' →
  Forall (λ i, 0 <= i < Z.of_nat (length (a_commands a)) ∧ is_Some (a_commands a !!! Z.to_nat i)) events →
  get_events callback (λ _, true) events a st =
    (st ← callbacks callback (commands_at a events) st;
     Ok (st, mkAio (a_max a) (a_ready a) (a_outstanding a) (a_commands a) (a_queue a) (a_events a) r' (a_kernel a))).
Proof.
  revert a st. induction events as [|i events IH]; intros a st Hr Hall.
  - injection Hr as <-. by destruct a.
  - apply Forall_cons in Hall as [[Hi [c Hc]] Hall]. cbn [add_slots] in Hr. apply bind_Ok_inv in Hr as ([b r1] & Hadd & Hr).
    cbn [get_events]. rewrite Hadd. cbn [mbind result_bind ensure a_commands].
    rewrite arr_getZ_lookup by lia. rewrite Hc. cbn [of_option mbind result_bind]. unfold commands_at. cbn [omap list_omap].
    rewrite Hc. cbn [callbacks]. destruct (callback c st) as [st'|e]; [|done]. cbn [mbind result_bind].
    by rewrite IH.
Qed.

(** A poll followed by the callbacks of its events. *)
Definition poll_and_get {S} (callback : C → S → result S) (res : Z → bool) (done : option (list Z)) (a : aio) (st : S) : result (S * aio) :=
  '(n, a) ← aio_poll done a; aio_get callback res n a st.

(** If every access of the events transferred its page, the results do not
    matter; otherwise a check fails. *)
Lemma get_events_res {S} (callback : C → S → result S) res events a st :
  forallb res events = true → get_events callback res events a st = get_events callback (λ _, true) events a st.
Proof.
  revert a st. induction events as [|i events IH]; intros a st Hr; [done|]. cbn in Hr. apply andb_true_iff in Hr as [Hi Hr]. cbn.
  destruct (rb_add i (a_slots a)) as [[u r]|]; [|done]. cbn. rewrite Hi. cbn. destruct (arr_getZ _ _) as [[c|]|]; [|done..]. cbn.
  destruct (callback c st); [|done]. cbn. by apply IH.
Qed.

Lemma poll_ok {S} (callback : C → S → result S) done a st : aio_ok a → events_ok done a →
  ∃ a', aio_ok a' ∧ a_max a' = a_max a ∧ a_outstanding a' + a_ready a' <= a_outstanding a + a_ready a ∧ commands_at a done ++ pending a' ≡ₚ pending a ∧
    poll_and_get callback (λ _, true) (Some done) a st = (st ← callbacks callback (commands_at a done) st; Ok (st, a')).
Proof.
  intros Ha [Hnd Hsub]. pose proof (slots_NoDup a Ha) as Hall. apply NoDup_app in Hall as (_ & _ & Hall).
  apply NoDup_app in Hall as (_ & _ & Hk). pose proof (difference_split done (a_kernel a) Hk Hnd Hsub) as Hsplit.
  pose proof (Permutation_length Hsplit) as Hlen. rewrite length_app in Hlen.
  unfold poll_and_get, aio_poll. destruct (Z.ltb_spec 0 (a_outstanding a)) as [Hlt|Hge].
  - rewrite (ao_outstanding a Ha) in *. cbn [of_option]. rewrite bind_Ok. rewrite (proj2 (Z.leb_le _ _)) by lia. cbn [ensure mbind result_bind].
    unfold aio_get. cbn [a_events]. rewrite Nat2Z.id, firstn_all.
    destruct (ao_ring a Ha) as [Hr Hsz]. pose proof (slots_total a Ha) as Ht. rewrite (ao_outstanding a Ha) in Ht.
    destruct (add_slots_ok done (a_slots a) Hr) as (r' & Hr' & Hri & Hrs & Hra); [rewrite length_app; lia|].
    assert (Forall (λ i, 0 <= i < Z.of_nat (length (a_commands a)) ∧ is_Some (a_commands a !!! Z.to_nat i)) done) as Hf.
    { apply Forall_forall. intros i Hi%Hsub. rewrite (ao_commands a Ha). split.
      - apply (slot_bound a Ha). set_solver.
      - apply (proj1 (Forall_forall _ _) (ao_set a Ha)). set_solver. }
    exists (mkAio (a_max a) (a_ready a) (Z.of_nat (length (a_kernel a)) - Z.of_nat (length done)) (a_commands a) (a_queue a) done r'
      (list_difference (a_kernel a) done)).
    split; [|split; [done|split; [cbn; pose proof (ao_outstanding a Ha); lia|split]]]; [..|by etransitivity; [apply (get_events_ok callback done _ st r'); [exact Hr'|exact Hf]|]].
    + constructor; cbn; try (by apply Ha).
      * split; [done|lia].
      * lia.
      * rewrite Hra. change (queued _) with (queued a).
        transitivity (rb_abs (a_slots a) ++ queued a ++ (done ++ list_difference (a_kernel a) done)); [solve_Permutation|].
        by rewrite Hsplit, (ao_slots a Ha).
      * unfold queued at 1. cbn. apply Forall_forall. intros j Hj. apply (proj1 (Forall_forall _ _) (ao_set a Ha)).
        rewrite elem_of_app in Hj |- *. destruct Hj as [|Hj%list_elem_of_difference]; [by left|right; by apply Hj].
    + transitivity (commands_at a (queued a ++ (done ++ list_difference (a_kernel a) done))); [|by unfold commands_at; rewrite Hsplit].
      unfold pending, queued, commands_at. cbn. rewrite !omap_app. solve_Permutation.
  - pose proof (ao_outstanding a Ha) as Ho. assert (length (a_kernel a) = 0%nat) as Hz by lia.
    assert (done = []) as -> by (destruct done; [done|simpl in *; lia]).
    exists a. cbn. split_and!; done.
Qed.

(** ** Runs of a buffer

    What its users do: they add a command when the buffer is not full, submit,
    and poll.  [aligned] tells that the page is aligned; [ret] is what
    [io_submit] returns, [None] that it takes all; [reap] is the kernel's choice
    among the accesses in flight, [None] that [io_getevents] fails, and [res]
    tells which accesses transferred a whole page. *)
Inductive aio_op :=
| OAdd (c : C) (aligned : bool)
| OSubmit (ret : option Z)
| OPoll (reap : option (list Z)) (res : Z → bool).

(** The page is aligned, and the kernel does what it is asked to. *)
Definition op_good (op : aio_op) : Prop :=
  match op with
  | OAdd _ aligned => aligned = true
  | OSubmit ret => ret = None
  | OPoll reap res => ∃ l, reap = Some l ∧ ∀ i, i ∈ l → res i = true
  end.

Definition completions (reap : list Z) (a : aio) : list Z := filter (λ i, i ∈ a_kernel a) (remove_dups reap).
Definition deliver (c : C) (out : list C) : result (list C) := Ok (out ++ [c]).

(** The commands that were accepted, those that were delivered, and the
    buffer. *)
Fixpoint aio_run (ops : list aio_op) (acc out : list C) (a : aio) : result (list C * list C * aio) :=
  match ops with
  | [] => Ok (acc, out, a)
  | OAdd c aligned :: ops =>
      if aio_full a then aio_run ops acc out a
      else a ← aio_add c aligned a; aio_run ops (acc ++ [c]) out a
  | OSubmit ret :: ops => '(_, a) ← aio_submit (default (s32 (a_ready a)) ret) a; aio_run ops acc out a
  | OPoll reap res :: ops =>
      '(out, a) ← poll_and_get deliver res ((λ l, completions l a) <$> reap) a out; aio_run ops acc out a
  end.

Lemma deliver_all cs out : callbacks deliver cs out = Ok (out ++ cs).
Proof.
  revert out. induction cs as [|c cs IH]; intros out; cbn; [by rewrite app_nil_r|]. by rewrite IH, <- app_assoc.
Qed.

Lemma completions_ok reap a : events_ok (completions reap a) a.
Proof.
  split; [apply NoDup_filter, NoDup_remove_dups|]. intros i. unfold completions. rewrite list_elem_of_filter. tauto.
Qed.
Lemma completions_in reap a i : i ∈ completions reap a → i ∈ reap.
Proof. unfold completions. rewrite list_elem_of_filter, elem_of_remove_dups. tauto. Qed.

(** What a run leaves, and why it may fail. *)
Definition run_post (n : Z) (ops : list aio_op) (r : result (list C * list C * aio)) : Prop :=
  match r with
  | Ok (acc, out, a) => acc ≡ₚ out ++ pending a ∧ a_outstanding a + a_ready a <= n - 2 ∧
      rb_abs (a_slots a) ++ queued a ++ a_kernel a ≡ₚ seqZ 0 n
  | Throw AssertFailed => asserts = true ∧ write = true
  | Throw e => (e = EnsureFailed ∨ e = RuntimeError) ∧ ¬ Forall op_good ops
  end.

Lemma run_post_cons n op ops r : run_post n ops r → run_post n (op :: ops) r.
Proof. destruct r as [[[? ?] ?]|[]]; cbn; try done; intros [? Hn]; (split; [done|]); intros Hf; apply Hn; by apply Forall_cons in Hf as [_ ?]. Qed.

(** One operation: the buffer afterwards, or the reason of a failure. *)
Lemma aio_add_cases c aligned a : aio_ok a → aio_full a = false →
  (∃ a', aio_add c aligned a = Ok a' ∧ aio_ok a' ∧ a_max a' = a_max a ∧
    a_outstanding a' + a_ready a' = a_outstanding a + a_ready a + 1 ∧ pending a' ≡ₚ c :: pending a) ∨
  aio_add c aligned a = Throw AssertFailed ∧ asserts = true ∧ write = true ∨
  aio_add c aligned a = Throw EnsureFailed ∧ aligned = false.
Proof.
  intros Ha Hf. destruct (asserts && write) eqn:E.
  - right; left. apply andb_true_iff in E as [E1 E2]. unfold aio_add, assert_. by rewrite E1, E2.
  - destruct aligned; [left; by apply aio_add_ok|right; right]. split; [|done]. unfold aio_add, assert_. rewrite Hf.
    destruct write; [|done]. cbn. rewrite andb_true_r in E |- *. by rewrite E.
Qed.

Lemma aio_poll_cases reap res a out : aio_ok a →
  (∃ cs a', poll_and_get deliver res ((λ l, completions l a) <$> reap) a out = Ok (out ++ cs, a') ∧ aio_ok a' ∧ a_max a' = a_max a ∧
     a_outstanding a' + a_ready a' <= a_outstanding a + a_ready a ∧ cs ++ pending a' ≡ₚ pending a) ∨
  (∃ e, poll_and_get deliver res ((λ l, completions l a) <$> reap) a out = Throw e ∧ (e = EnsureFailed ∨ e = RuntimeError)) ∧ ¬ op_good (OPoll reap res).
Proof.
  intros Ha. destruct reap as [l|].
  2: { unfold poll_and_get, aio_poll. destruct (Z.ltb_spec 0 (a_outstanding a)).
       - right. split; [eexists; split; [done|by right]|]. by intros (? & ? & _).
       - left. exists [], a. rewrite app_nil_r. cbn. by split_and!. }
  cbn [fmap option_fmap option_map]. set (d := completions l a).
  destruct (poll_ok deliver d a out Ha (completions_ok l a)) as (a' & Ha' & Hm & Hs & Hp & Hrun). rewrite deliver_all, bind_Ok in Hrun.
  destruct (forallb res d) eqn:Hres.
  - left. exists (commands_at a d), a'. split_and!; try done. rewrite <- Hrun. unfold poll_and_get, aio_poll.
    destruct (0 <? a_outstanding a); [|done]. cbn [of_option]. rewrite bind_Ok. destruct (_ <=? _); [|done]. cbn. unfold aio_get. cbn.
    apply get_events_res. by rewrite Nat2Z.id, firstn_all.
  - right. split.
    + revert Hrun. unfold poll_and_get, aio_poll. destruct (0 <? a_outstanding a) eqn:E0; cbn [of_option].
      * rewrite !bind_Ok. destruct (_ <=? _); [|done]. cbn. unfold aio_get. cbn. rewrite Nat2Z.id, firstn_all. intros Hrun. clear -Hres Hrun.
        revert Hrun. generalize (mkAio (a_max a) (a_ready a) (a_outstanding a - Z.of_nat (length d)) (a_commands a) (a_queue a) d
          (a_slots a) (list_difference (a_kernel a) d)).
        generalize (out ++ commands_at a d). revert out Hres. induction d as [|i d IH]; intros out Hres out' b Hrun; [done|]. cbn in Hres, Hrun |- *.
        destruct (rb_add i (a_slots b)) as [[u r]|]; [|done]. cbn in Hrun |- *. destruct (res i); cbn in *; [|eexists; split; [done|by left]].
        destruct (arr_getZ _ _) as [[c|]|]; [|done..]. cbn in *. by eapply IH.
      * intros Hrun. exfalso. unfold d, completions in Hres. pose proof (ao_outstanding a Ha). apply Z.ltb_ge in E0.
        assert (a_kernel a = []) as Ek by (destruct (a_kernel a); [done|simpl in *; lia]). rewrite Ek in Hres.
        assert (filter (λ i : Z, i ∈ []) (remove_dups l) = []) as E by (clear; induction (remove_dups l); [done|]; rewrite filter_cons, decide_False; [done|by apply not_elem_of_nil]).
        by rewrite E in Hres.
    + intros (l' & [= <-] & Hall). rewrite <- not_true_iff_false in Hres. apply Hres. apply forallb_forall. intros i Hi%list_elem_of_In.
      by eapply Hall, completions_in.
Qed.

Lemma aio_run_ok ops acc out a : aio_ok a → a_outstanding a + a_ready a <= a_max a - 2 → acc ≡ₚ out ++ pending a →
  run_post (a_max a) ops (aio_run ops acc out a).
Proof.
  revert acc out a. induction ops as [|[c al|ret|reap res] ops IH]; intros acc out a Ha Hle Hacc; cbn [aio_run].
  - split_and!; [done|done|apply Ha].
  - destruct (aio_full a) eqn:Hf; [by apply run_post_cons, IH|]. pose proof (full_false a Ha Hf) as Hlt.
    destruct (aio_add_cases c al a Ha Hf) as [(a' & -> & Ha' & Hm & Hs & Hp)|[[-> ?]|[-> ->]]]; cbn [mbind result_bind]; [|done|].
    + rewrite <- Hm. apply run_post_cons, IH; [done|lia|rewrite Hacc, Hp; solve_Permutation].
    + split; [by left|]. by intros [? _]%Forall_cons.
  - destruct (aio_submit_ok a Ha) as (n & a' & Hsub & Ha' & Hm & Hs & Hp); [pose proof (ao_outstanding a Ha); pose proof (ao_max a Ha); lia|].
    assert (aio_submit (default (s32 (a_ready a)) ret) a = Ok (n, a') ∨ aio_submit (default (s32 (a_ready a)) ret) a = Throw EnsureFailed ∧ is_Some ret) as [->|[-> Hr]].
    { destruct ret as [ret|]; [|by left]. unfold default, id. revert Hsub. unfold aio_submit. destruct (0 <? a_ready a); [|by left]. rewrite Z.eqb_refl.
      destruct (Z.eqb_spec ret (s32 (a_ready a))) as [->|]; cbn [ensure]; [by left|]. right. split; [done|by eexists]. }
    + rewrite bind_Ok, <- Hm. apply run_post_cons, IH; [done|lia|by rewrite Hacc, Hp].
    + split; [by left|]. intros [E _]%Forall_cons. cbn in E. subst ret. by destruct Hr.
  - destruct (aio_poll_cases reap res a out Ha) as [(cs & a' & -> & Ha' & Hm & Hs & Hp)|[(e & -> & He) Hbad]].
    + rewrite bind_Ok, <- Hm. apply run_post_cons, IH; [done|lia|by rewrite Hacc, <- Hp, app_assoc].
    + assert (¬ Forall op_good (OPoll reap res :: ops)) as Hn by (intros [Hg _]%Forall_cons; by apply Hbad). destruct He as [-> | ->]; (split; [|done]); [by left|by right].
Qed.
End aio.
Arguments aio : clear implicits.
Arguments aio_op : clear implicits.

(** [C19] Asynchronous page accesses, reads and writes, whatever the users of a
    buffer do and whatever the kernel completes in whatever order.  A run fails
    only by the assertion of the write buffer, where assertions are compiled in,
    or, with a check or an exception, if a page is not aligned, the kernel takes
    only part of a submission, fails to report, or reports an incomplete
    transfer.  Otherwise the commands that were accepted are exactly those
    delivered to the callback, each once, and those still pending, of which
    there are at most [batch_max_size - 2]; and every slot is in one place only:
    free, queued, or with the kernel. *)
Theorem aio_exactly_once `{!Build} {C} write n (ops : list (aio_op C)) : 2 < n <= 2 ^ 31 →
  ∃ a, aio_new n 0 = Ok a ∧
  match aio_run write ops [] [] a with
  | Ok (acc, out, a') => acc ≡ₚ out ++ pending a' ∧ a_outstanding a' + a_ready a' <= n - 2 ∧
      rb_abs (a_slots a') ++ queued a' ++ a_kernel a' ≡ₚ seqZ 0 n
  | Throw AssertFailed => asserts = true ∧ write = true
  | Throw e => (e = EnsureFailed ∨ e = RuntimeError) ∧ ¬ Forall op_good ops
  end.
Proof.
  intros Hn. destruct (aio_new_ok (C:=C) n Hn) as (a & Hnew & Ha & Hp & Hm & Hz). exists a. split; [done|].
  rewrite <- Hm. apply (aio_run_ok write ops [] [] a Ha); [lia|]. by rewrite Hp.
Qed.

(** Two reads in a buffer of four slots, in a build with assertions. *)
Definition ex_ops : list (aio_op Z) :=
  let all := λ _, true in
  [OAdd 10 true; OSubmit None; OAdd 11 true; OAdd 12 true; OPoll (Some [0]) all; OSubmit (Some 1); OPoll (Some [7; 1]) all].
Lemma aio_exactly_once_witness : 2 < 4 <= 2 ^ 31 ∧ ∃ a a', aio_new 4 0 = Ok a ∧
  aio_run (H:=mkBuild true 2) false ex_ops [] [] a = Ok ([10; 11], [10; 11], a') ∧
  rb_abs (a_slots a') ++ queued a' ++ a_kernel a' ≡ₚ seqZ 0 4.
Proof.
  split; [lia|].
  destruct (aio_exactly_once (H:=mkBuild true 2) false 4 ex_ops) as (a & Ha & Hrun); [lia|].
  vm_compute in Ha. injection Ha as <-. vm_compute in Hrun. destruct Hrun as (_ & _ & Hslots).
  eexists _, _. split; [vm_compute; reflexivity|]. split; [vm_compute; reflexivity|]. vm_compute. exact Hslots.
Defined.

(** The first write in such a build, and a transfer that was cut short. *)
Example write_aborts : (a ← aio_new 4 0; aio_run (H:=mkBuild true 2) true ex_ops [] [] a) = Throw AssertFailed.
Proof. vm_compute. reflexivity. Qed.
Example short_transfer : (a ← aio_new 4 0;
  aio_run (H:=mkBuild true 2) false [OAdd 10 true; OSubmit None; OPoll (Some [0]) (λ _, false)] [] [] a) = Throw EnsureFailed.
Proof. vm_compute. reflexivity. Qed.
