(* ===== verification/MessageHandler.v ===== *)
(** * rdma/MessageHandler: connections, mailboxes and the polling loop

    The parts of the message handler around the handlers of the messages
    (Protocol.v, Coherence.v): the responses written to a client with the pages
    parked until the writes completed, the partition of the mailboxes among the
    threads, the assignment of the connections to the mailboxes, and the loop
    that polls them.

    The verbs library is not part of the sources.  A connection processes its
    work requests in order, and a completion of a signalled request is reported
    after the request and all before it are done: [n_signals] are the signalled
    requests whose completions were not polled yet, [n_done] is the last one
    that was. *)

From S2P Require Import Prelude Defs RingBuffer.
Local Open Scope Z_scope.

(** ** Invalidation batches *)

Section connection.
Context {Page : Type} (pollingInterval : Z).

Record InvalidationBatch := mkBatch { ib_batch : list (option Page); ib_elements : Z }.

Definition ib_new : InvalidationBatch := mkBatch (replicate (Z.to_nat (pollingInterval + 1)) None) 0.
Definition ib_empty (b : InvalidationBatch) : bool := ib_elements b =? 0.
Definition ib_add (page : Page) (b : InvalidationBatch) : result InvalidationBatch :=
  _ ← ensure (ib_elements b <=? pollingInterval);
  batch ← arr_setZ (ib_batch b) (ib_elements b) (Some page);
  Ok (mkBatch batch (ib_elements b + 1)).
Definition ib_reset (b : InvalidationBatch) : InvalidationBatch := mkBatch (ib_batch b) 0.

(** ** Connections *)

Record ConnectionContext := mkCtx {
  wqe : Z;
  activeInvalidationBatch : InvalidationBatch;
  passiveInvalidationBatch : InvalidationBatch;
  n_posted : Z;
  n_signals : list Z;
  n_done : Z;
}.

Definition ctx_new : ConnectionContext := mkCtx 0 ib_new ib_new 0 [] (-1).

(** The pages that go back to the free list. *)
Fixpoint collect (l : list (option Page)) : result (list Page) :=
  match l with
  | [] => Ok []
  | p :: l => p ← of_option UndefinedBehaviour p; l ← collect l; Ok (p :: l)
  end.
Definition reclaimInvalidations (ctx : ConnectionContext) : result (list Page * ConnectionContext) :=
  let b := passiveInvalidationBatch ctx in
  if ib_empty b then Ok ([], ctx)
  else
    pages ← collect (take (Z.to_nat (ib_elements b)) (ib_batch b));
    Ok (pages, mkCtx (wqe ctx) (activeInvalidationBatch ctx) (ib_reset b) (n_posted ctx) (n_signals ctx) (n_done ctx)).

(** A write request on the connection. *)
Definition post (signal : bool) (ctx : ConnectionContext) : ConnectionContext :=
  mkCtx (wqe ctx) (activeInvalidationBatch ctx) (passiveInvalidationBatch ctx) (n_posted ctx + 1)
    (if signal then n_signals ctx ++ [n_posted ctx] else n_signals ctx) (n_done ctx).
(** Spins until a completion is there. *)
Definition pollCompletion (ctx : ConnectionContext) : result ConnectionContext :=
  match n_signals ctx with
  | [] => Throw WouldBlock
  | k :: rest => Ok (mkCtx (wqe ctx) (activeInvalidationBatch ctx) (passiveInvalidationBatch ctx) (n_posted ctx) rest k)
  end.

(** [writeMsg] and [writePageAndMsg], which differ in what they post; [ok] is
    the status of the completion.  The result holds the pages that were
    reclaimed. *)
Definition writeMsg (ok : bool) (ctx : ConnectionContext) : result (list Page * ConnectionContext) :=
  let SIGNAL_ := pollingInterval -₆₄ 1 in
  let signal := Z.land (wqe ctx) SIGNAL_ =? 0 in
  let ctx := post signal ctx in
  '(freed, ctx) ←
    (if Z.land (wqe ctx) SIGNAL_ =? SIGNAL_ then
       ctx ← pollCompletion ctx;
       if negb ok then Throw RuntimeError
       else
         '(freed, ctx) ← reclaimInvalidations ctx;
         Ok (freed, mkCtx (wqe ctx) (passiveInvalidationBatch ctx) (activeInvalidationBatch ctx) (n_posted ctx) (n_signals ctx) (n_done ctx))
     else Ok ([], ctx));
  Ok (freed, mkCtx (wqe ctx +₆₄ 1) (activeInvalidationBatch ctx) (passiveInvalidationBatch ctx) (n_posted ctx) (n_signals ctx) (n_done ctx)).

Definition park (page : Page) (ctx : ConnectionContext) : result ConnectionContext :=
  b ← ib_add page (activeInvalidationBatch ctx);
  Ok (mkCtx (wqe ctx) b (passiveInvalidationBatch ctx) (n_posted ctx) (n_signals ctx) (n_done ctx)).
End connection.
Arguments InvalidationBatch : clear implicits.
Arguments ConnectionContext : clear implicits.

(** ** The pages a connection parks

    What the handlers do to a connection: a response, a response followed by
    parking the page that was sent or invalidated, or the other way round (in
    the handler of updates).  A page is parked with the number of requests
    posted before; it is reclaimed with the last request known to be done. *)
Inductive reply_op (P : Type) := ReplyOnly | ReplyThenPark (p : P) | ParkThenReply (p : P).
Arguments ReplyOnly {P}.
Arguments ReplyThenPark {P} _.
Arguments ParkThenReply {P} _.

Section safety.
Context {P : Type} (k : Z).
Let pollingInterval : Z := 2 ^ k.
Hypothesis Hk : 0 <= k <= 31.
Notation ctx := (ConnectionContext (P * Z)).
Implicit Types (c : ctx).

Definition reply c : result (list (P * Z * Z) * ctx) :=
  '(freed, c) ← writeMsg pollingInterval true c;
  Ok (map (λ x, (x, n_done c)) freed, c).
Definition reply_step (op : reply_op P) c : result (list (P * Z * Z) * ctx) :=
  match op with
  | ReplyOnly => reply c
  | ReplyThenPark p => '(freed, c) ← reply c; c ← park pollingInterval (p, n_posted c) c; Ok (freed, c)
  | ParkThenReply p => c ← park pollingInterval (p, n_posted c) c; reply c
  end.
Definition parks (op : reply_op P) : list P :=
  match op with ReplyOnly => [] | ReplyThenPark p | ParkThenReply p => [p] end.
Fixpoint reply_run (ops : list (reply_op P)) c : result (list (P * Z * Z) * ctx) :=
  match ops with
  | [] => Ok ([], c)
  | op :: ops => '(freed, c) ← reply_step op c; '(freed', c) ← reply_run ops c; Ok (freed ++ freed', c)
  end.

(** The pages in a batch. *)
Definition held (b : InvalidationBatch (P * Z)) : list (P * Z) := omap id (take (Z.to_nat (ib_elements b)) (ib_batch b)).
Definition batch_ok (b : InvalidationBatch (P * Z)) : Prop :=
  Z.of_nat (length (ib_batch b)) = pollingInterval + 1 ∧ 0 <= ib_elements b <= pollingInterval + 1 ∧
  collect (take (Z.to_nat (ib_elements b)) (ib_batch b)) = Ok (held b).

(** [j] bounds the pages parked beyond one per request since the last poll.
    The batch of the interval before that poll is passive. *)
Record conn_ok (j : Z) c : Prop := mkConnOk {
  co_wqe : wqe c = u64 (n_posted c);
  co_posted : 0 <= n_posted c;
  co_signals : n_signals c = if decide (n_posted c `mod` pollingInterval = 0) then [] else [n_posted c / pollingInterval * pollingInterval];
  co_active : batch_ok (activeInvalidationBatch c);
  co_passive : batch_ok (passiveInvalidationBatch c);
  co_count : ib_elements (activeInvalidationBatch c) <= n_posted c `mod` pollingInterval + j;
  co_stamps : Forall (λ x, x.2 < n_posted c / pollingInterval * pollingInterval) (held (passiveInvalidationBatch c));
  co_now : Forall (λ x, x.2 <= n_posted c) (held (activeInvalidationBatch c));
}.

Lemma interval_pos : 0 < pollingInterval <= 2 ^ 31.
Proof. unfold pollingInterval. split; [lia|]. apply Z.pow_le_mono_r; lia. Qed.

Lemma collect_app l p : ∀ ps : list (P * Z), collect l = Ok ps → collect (l ++ [Some p]) = Ok (ps ++ [p]).
Proof.
  induction l as [|[q|] l IH]; intros ps; cbn; [by intros [= <-]| |done].
  intros E. apply bind_Ok_inv in E as (ps' & E & [= <-]). by rewrite (IH ps' E).
Qed.

Lemma batch_new : batch_ok (ib_new pollingInterval) ∧ held (ib_new pollingInterval) = [].
Proof. pose proof interval_pos. unfold batch_ok, held. cbn. rewrite length_replicate. split; [|done]. split; [lia|]. split; [lia|done]. Qed.

Lemma batch_reset b : batch_ok b → batch_ok (ib_reset b) ∧ held (ib_reset b) = [].
Proof. pose proof interval_pos. intros (? & ? & ?). unfold batch_ok, held. cbn. split; [|done]. split; [done|]. split; [lia|done]. Qed.

Lemma batch_add b x : batch_ok b → ib_elements b <= pollingInterval →
  ∃ b', ib_add pollingInterval x b = Ok b' ∧ batch_ok b' ∧ held b' = held b ++ [x] ∧ ib_elements b' = ib_elements b + 1.
Proof.
  intros (Hl & He & Hc) Hle. unfold ib_add. rewrite (proj2 (Z.leb_le _ _)) by done. cbn [ensure mbind result_bind].
  rewrite arr_setZ_lt by lia. cbn [mbind result_bind]. eexists. split; [done|].
  assert (take (Z.to_nat (ib_elements b + 1)) (<[Z.to_nat (ib_elements b) := Some x]> (ib_batch b)) =
          take (Z.to_nat (ib_elements b)) (ib_batch b) ++ [Some x]) as Htake.
  { replace (Z.to_nat (ib_elements b + 1)) with (S (Z.to_nat (ib_elements b))) by lia.
    rewrite (take_S_r _ _ (Some x)) by (apply list_lookup_insert_eq; lia). by rewrite take_insert_ge by lia. }
  assert (held (mkBatch (<[Z.to_nat (ib_elements b) := Some x]> (ib_batch b)) (ib_elements b + 1)) = held b ++ [x]) as Hh.
  { unfold held. cbn. rewrite Htake, omap_app. done. }
  split; [|done]. split; [cbn; by rewrite length_insert|]. split; [cbn; lia|]. rewrite Hh. cbn. rewrite Htake. by apply collect_app.
Qed.

Lemma park_ok j c p : conn_ok j c → j <= 1 →
  ∃ c', park pollingInterval (p, n_posted c) c = Ok c' ∧ conn_ok (j + 1) c' ∧ n_posted c' = n_posted c ∧
    held (activeInvalidationBatch c') = held (activeInvalidationBatch c) ++ [(p, n_posted c)] ∧
    passiveInvalidationBatch c' = passiveInvalidationBatch c.
Proof.
  intros [Hw Hp Hs Ha Hpa Hc Hst Hn] Hj. pose proof interval_pos as HN. unfold park.
  pose proof (Z.mod_pos_bound (n_posted c) pollingInterval ltac:(lia)).
  destruct (batch_add _ (p, n_posted c) Ha) as (b' & -> & Hb & Hh & He); [lia|].
  cbn [mbind result_bind]. eexists. split; [done|]. split; [|done].
  constructor; cbn; try done; [lia|]. rewrite Hh. apply Forall_app. split; [done|]. by apply Forall_singleton.
Qed.

(** The low bits of the counter. *)
Lemma wqe_low n : 0 <= n → Z.land (u64 n) (pollingInterval -₆₄ 1) = n `mod` pollingInterval ∧ pollingInterval -₆₄ 1 = pollingInterval - 1.
Proof.
  intros Hn. pose proof interval_pos. split; [|apply u64_small; lia].
  unfold pollingInterval. rewrite mask_mod by lia. apply u64_mod_pow2. lia.
Qed.

Lemma reclaim_ok act pas w n sig d : batch_ok pas →
  ∃ r, reclaimInvalidations (mkCtx w act pas n sig d) = Ok (held pas, mkCtx w act r n sig d) ∧ batch_ok r ∧ held r = [] ∧ ib_elements r = 0.
Proof.
  intros Hpa. unfold reclaimInvalidations, ib_empty. cbn [passiveInvalidationBatch].
  destruct (Z.eqb_spec (ib_elements pas) 0) as [E|].
  - exists pas. assert (held pas = []) as Eh by (unfold held; by rewrite E). by rewrite Eh.
  - pose proof Hpa as (_ & _ & ->). cbn [mbind result_bind]. eexists. split; [done|].
    destruct (batch_reset pas Hpa). by split_and!.
Qed.

Lemma reply_ok j c : conn_ok j c → 1 <= j <= 2 →
  ∃ freed c', reply c = Ok (freed, c') ∧ conn_ok (j - 1) c' ∧ Forall (λ x, x.1.2 <= x.2) freed ∧
    held (passiveInvalidationBatch c) ++ held (activeInvalidationBatch c) ≡ₚ
    map fst freed ++ held (passiveInvalidationBatch c') ++ held (activeInvalidationBatch c').
Proof.
  destruct c as [w act pas n sig done]. intros [Hw Hp Hs Ha Hpa Hc Hst Hn] Hj. cbn -[Z.pow] in *. subst w.
  pose proof interval_pos as HN. destruct (wqe_low n Hp) as [Hlow Hsig]. set (N := pollingInterval) in *.
  pose proof (Z.mod_pos_bound n N ltac:(lia)) as Hm. pose proof (Z.div_mod n N ltac:(lia)) as Hdm.
  unfold reply, writeMsg. fold N. cbn [post wqe]. rewrite Hlow, Hsig. unfold post.
  cbn [wqe activeInvalidationBatch passiveInvalidationBatch n_posted n_signals n_done].
  assert ((if n `mod` N =? 0 then sig ++ [n] else sig) = [n / N * N]) as ->.
  { rewrite Hs. destruct (Z.eqb_spec (n `mod` N) 0); [rewrite decide_True by done|by rewrite decide_False by done].
    cbn. f_equal. lia. }
  assert (u64 n +₆₄ 1 = u64 (n + 1)) as Hnext by (unfold u64; by rewrite Zplus_mod_idemp_l).
  destruct (Z.eqb_spec (n `mod` N) (N - 1)) as [Hpoll|Hno].
  - assert ((n + 1) `mod` N = 0 ∧ (n + 1) / N = n / N + 1) as [Hm' Hd'].
    { replace (n + 1) with ((n / N + 1) * N) by lia. split; [apply Z.mod_mul; lia|apply Z.div_mul; lia]. }
    unfold pollCompletion. cbn [n_signals mbind result_bind negb wqe activeInvalidationBatch passiveInvalidationBatch n_posted].
    destruct (reclaim_ok act pas (u64 n) (n + 1) [] (n / N * N) Hpa) as (r & -> & Hrok & Hrh & Hre).
    cbn [mbind result_bind wqe activeInvalidationBatch passiveInvalidationBatch n_posted n_signals n_done].
    rewrite Hnext. eexists _, _. split; [done|]. split; [|split].
    + constructor; cbn; fold N; rewrite ?Hm', ?Hd', ?Hrh; try done; try lia.
      eapply Forall_impl; [exact Hn|]. cbn. intros x. lia.
    + apply Forall_fmap. eapply Forall_impl; [exact Hst|]. cbn. intros x. lia.
    + cbn. rewrite map_map, map_id, Hrh, app_nil_r. done.
  - assert ((n + 1) `mod` N = n `mod` N + 1 ∧ (n + 1) / N = n / N) as [Hm' Hd'].
    { assert (n + 1 = n / N * N + (n `mod` N + 1)) as -> by lia.
      rewrite Z.add_comm, Z.mod_add, Z.div_add, Z.mod_small, Z.div_small by lia. lia. }
    cbn [mbind result_bind wqe activeInvalidationBatch passiveInvalidationBatch n_posted n_signals n_done].
    rewrite Hnext. eexists [], _. split; [done|]. split; [|done].
    constructor; cbn; fold N; rewrite ?Hm', ?Hd'; try done; try lia.
    + by rewrite decide_False by lia.
    + eapply Forall_impl; [exact Hn|]. cbn. intros x. lia.
Qed.

Lemma conn_weaken j c : conn_ok j c → conn_ok (j + 1) c.
Proof. intros []. constructor; try done. lia. Qed.

Lemma reply_step_ok op c : conn_ok 1 c →
  ∃ freed c', reply_step op c = Ok (freed, c') ∧ conn_ok 1 c' ∧ Forall (λ x, x.1.2 <= x.2) freed ∧
    parks op ++ map fst (held (passiveInvalidationBatch c) ++ held (activeInvalidationBatch c)) ≡ₚ
    map (fst ∘ fst) freed ++ map fst (held (passiveInvalidationBatch c') ++ held (activeInvalidationBatch c')).
Proof.
  intros Hc. destruct op as [|p|p]; cbn [reply_step parks].
  - destruct (reply_ok 1 c Hc) as (freed & c' & -> & Hc' & Hf & Hp); [lia|]. exists freed, c'. split; [done|].
    split; [by apply (conn_weaken 0)|]. split; [done|]. rewrite Hp, !map_app, map_map. done.
  - destruct (reply_ok 1 c Hc) as (freed & c' & -> & Hc' & Hf & Hp); [lia|]. cbn [mbind result_bind].
    destruct (park_ok 0 c' p Hc') as (c2 & -> & Hc2 & Hn & Hh & Hpas); [lia|]. cbn [mbind result_bind].
    exists freed, c2. split; [done|]. split; [done|]. split; [done|].
    rewrite Hh, Hpas, Hp, !map_app, map_map. cbn. solve_Permutation.
  - destruct (park_ok 1 c p Hc) as (c1 & -> & Hc1 & Hn & Hh & Hpas); [lia|]. cbn [mbind result_bind].
    destruct (reply_ok 2 c1 Hc1) as (freed & c' & -> & Hc' & Hf & Hp); [lia|].
    exists freed, c'. split; [done|]. split; [done|]. split; [done|].
    rewrite Hh, Hpas in Hp. transitivity (map fst (held (passiveInvalidationBatch c) ++ held (activeInvalidationBatch c) ++ [(p, n_posted c)])).
    + rewrite !map_app. cbn. solve_Permutation.
    + rewrite Hp, !map_app, map_map. done.
Qed.

Lemma reply_run_ok ops c : conn_ok 1 c →
  ∃ freed c', reply_run ops c = Ok (freed, c') ∧ conn_ok 1 c' ∧ Forall (λ x, x.1.2 <= x.2) freed ∧
    concat (map parks ops) ++ map fst (held (passiveInvalidationBatch c) ++ held (activeInvalidationBatch c)) ≡ₚ
    map (fst ∘ fst) freed ++ map fst (held (passiveInvalidationBatch c') ++ held (activeInvalidationBatch c')).
Proof.
  revert c. induction ops as [|op ops IH]; intros c Hc; cbn [reply_run].
  - exists [], c. by split_and!.
  - destruct (reply_step_ok op c Hc) as (f1 & c1 & -> & Hc1 & Hf1 & Hp1). cbn [mbind result_bind].
    destruct (IH c1 Hc1) as (f2 & c2 & -> & Hc2 & Hf2 & Hp2). cbn [mbind result_bind].
    exists (f1 ++ f2), c2. split; [done|]. split; [done|]. split; [by apply Forall_app|].
    cbn [map concat].
    transitivity (concat (map parks ops) ++
      (parks op ++ map fst (held (passiveInvalidationBatch c) ++ held (activeInvalidationBatch c)))); [solve_Permutation|].
    rewrite Hp1, (map_app _ f1 f2), <- app_assoc, <- Hp2. solve_Permutation.
Qed.
End safety.

(** [C9] Pages sent by RDMA are reused safely: for every sequence of responses
    on a connection and every polling interval [2^k], no check fails (an
    invalidation batch never overflows, although it has only one entry more than
    the interval), every page that was parked is either reclaimed once or still
    parked, and when a page is reclaimed all work requests posted before it was
    parked are known to be done. *)
Theorem parked_pages_safe {P} k (ops : list (reply_op P)) : 0 <= k <= 31 →
  ∃ freed c, reply_run k ops (ctx_new (2 ^ k)) = Ok (freed, c) ∧
    Forall (λ x, x.1.2 <= x.2) freed ∧
    concat (map parks ops) ≡ₚ
      map (fst ∘ fst) freed ++ map fst (held (passiveInvalidationBatch c) ++ held (activeInvalidationBatch c)).
Proof.
  intros Hk. pose proof (batch_new (P:=P) k Hk) as [Hb Hh].
  destruct (reply_run_ok k Hk ops (ctx_new (2 ^ k))) as (freed & c & Hrun & _ & Hf & Hp).
  - constructor; cbn -[Z.pow]; try done; try (by rewrite Hh).
  - exists freed, c. split; [done|]. split; [done|]. rewrite <- Hp. cbn [ctx_new passiveInvalidationBatch activeInvalidationBatch].
    by rewrite Hh, app_nil_r.
Qed.

Lemma parked_pages_safe_witness : (0 <= 1 <= 31) ∧ ∃ c,
  reply_run 1 [ReplyThenPark 7%nat; ReplyThenPark 8%nat; ReplyOnly; ParkThenReply 9%nat] (ctx_new (2 ^ 1)) = Ok ([(7%nat, 1, 2)], c) ∧
  map fst (held (passiveInvalidationBatch c)) = [8%nat; 9%nat].
Proof.
  split; [lia|].
  destruct (parked_pages_safe 1 [ReplyThenPark 7%nat; ReplyThenPark 8%nat; ReplyOnly; ParkThenReply 9%nat]) as (freed & c & Hrun & _); [lia|].
  vm_compute in Hrun. injection Hrun as <- <-. eexists. split; [vm_compute; reflexivity|reflexivity].
Defined.
