(* ===== verification/Mailboxes.v ===== *)
(** * rdma/MessageHandler.cpp: mailboxes

    The mailboxes of the clients, divided among the threads of the message
    handler; the assignment of the connections to the mailboxes; the loop in
    which a thread polls its mailboxes and hands the messages to their handlers;
    and the table of copy requests in flight, which the page provider reads.

    What a handler does to the page is the subject of Protocol.v and
    Coherence.v; here it is a function [handle] that says what is left to do on
    the mailbox. *)

From S2P Require Import Prelude Defs RingBuffer Memory.
Local Open Scope Z_scope.

(** ** Partitions *)

Record InflightCopyRequest := mkCR { cr_inflight : bool; cr_pid : Z; cr_pVersion : Z }.
Definition cr_none : InflightCopyRequest := mkCR false EMPTY_PID 0.

Record MailboxPartition := mkPart {
  mailboxes : list Z;
  numberMailboxes : Z;
  beginId : Z;
  inflightCRs : list InflightCopyRequest;
}.

(** [memory] is what the allocated bytes hold: the global buffer comes from
    [posix_memalign] and is not cleared. *)
Definition partition_new (memory : Z → list Z) (n threads t_i : Z) : MailboxPartition :=
  let '(begin, end_) := block n threads t_i in
  mkPart (memory t_i) (end_ -₆₄ begin) begin (replicate (Z.to_nat (end_ -₆₄ begin)) cr_none).

(** The constructor; without remote workers no thread is started. *)
Definition mh_new (worker nodes threads : Z) (memory : Z → list Z) : result (list MailboxPartition) :=
  let n := worker *₆₄ (nodes -₆₄ 1) in
  if 0 <? n then
    _ ← ensure (threads <=? n);
    _ ← (if threads =? 0 then Throw UndefinedBehaviour else Ok tt);
    _ ← ensure (0 <? n / threads);
    Ok (map (partition_new memory n threads) (seqZ 0 threads))
  else Ok [].

(** ** Connections *)

Inductive conn_type := RDMA_CM | WORKER | PAGE_PROVIDER | MESSAGE_HANDLER.
#[export] Instance conn_type_eq_dec : EqDecision conn_type.
Proof. solve_decision. Defined.

(** The loop over the shuffled connections: the mailbox of each worker, as a
    partition and an offset in it. *)
Fixpoint assign (conns : list conn_type) (ps : list MailboxPartition) (counter partitionId partitionOffset : Z) :
    result (list (Z * Z) * Z) :=
  match conns with
  | [] => Ok ([], counter)
  | WORKER :: conns =>
      p ← arr_getZ ps partitionId;
      let '(partitionId, partitionOffset) :=
        if beginId p +₆₄ numberMailboxes p <=? counter then (partitionId +₆₄ 1, 0) else (partitionId, partitionOffset) in
      p ← arr_getZ ps partitionId;
      _ ← ensure (beginId p +₆₄ partitionOffset =? counter);
      '(l, counter) ← assign conns ps (counter +₆₄ 1) partitionId (partitionOffset +₆₄ 1);
      Ok ((partitionId, partitionOffset) :: l, counter)
  | _ :: conns => assign conns ps counter partitionId partitionOffset
  end.

Definition mh_init (worker nodes : Z) (conns : list conn_type) (ps : list MailboxPartition) : result (list (Z * Z)) :=
  '(l, counter) ← assign conns ps 0 0 0;
  _ ← ensure (counter =? worker *₆₄ (nodes -₆₄ 1));
  Ok l.

(** ** Polling *)

(** What a handler leaves to do: nothing, the message again, or a copy request
    that was delegated to another node. *)
Inductive outcome := Handled | Retry | CopyInflight (pid pVersion : Z).

Section polling.
Context {S : Type} (handle : Z → S → result (outcome * S)).

Definition poll_one (m_i mailboxIdx : Z) (p : MailboxPartition) (s : S) : result (MailboxPartition * S) :=
  flag ← arr_getZ (mailboxes p) mailboxIdx;
  if flag =? 0 then Ok (p, s)
  else
    mbs ← arr_setZ (mailboxes p) mailboxIdx 0;
    let clientId := mailboxIdx +₆₄ beginId p in
    cr ← arr_getZ (inflightCRs p) m_i;
    crs ← (if cr_inflight cr then arr_setZ (inflightCRs p) m_i cr_none else Ok (inflightCRs p));
    '(o, s) ← handle clientId s;
    match o with
    | Handled => Ok (mkPart mbs (numberMailboxes p) (beginId p) crs, s)
    | Retry =>
        mbs ← arr_setZ mbs mailboxIdx 1;
        Ok (mkPart mbs (numberMailboxes p) (beginId p) crs, s)
    | CopyInflight pid v =>
        crs ← arr_setZ crs mailboxIdx (mkCR true pid v);
        Ok (mkPart mbs (numberMailboxes p) (beginId p) crs, s)
    end.

(** The [for] loop over the mailboxes, with the [k] iterations that are left. *)
Fixpoint poll_pass (k : nat) (m_i mailboxIdx : Z) (p : MailboxPartition) (s : S) : result (MailboxPartition * S) :=
  match k with
  | O => Ok (p, s)
  | Datatypes.S k =>
      let mailboxIdx := if numberMailboxes p <=? mailboxIdx then 0 else mailboxIdx in
      '(p, s) ← poll_one m_i mailboxIdx p s;
      poll_pass k (m_i + 1) (mailboxIdx +₆₄ 1) p s
  end.

(** Flags set from outside: by a client's message, or for a message that waited
    for an SSD read. *)
Fixpoint set_flags (l : list Z) (mbs : list Z) : result (list Z) :=
  match l with [] => Ok mbs | i :: l => mbs ← arr_setZ mbs i 1; set_flags l mbs end.

(** The [while] loop: the k-th pass starts at mailbox [k]; [arrivals] are the
    flags set before each pass. *)
Fixpoint poll_loop (arrivals : list (list Z)) (startPosition mailboxIdx : Z) (p : MailboxPartition) (s : S) :
    result (MailboxPartition * S) :=
  match arrivals with
  | [] => Ok (p, s)
  | a :: arrivals =>
      mbs ← set_flags a (mailboxes p);
      '(p, s) ← poll_pass (Z.to_nat (numberMailboxes p)) 0 mailboxIdx (mkPart mbs (numberMailboxes p) (beginId p) (inflightCRs p)) s;
      let startPosition := startPosition +₆₄ 1 in
      poll_loop arrivals startPosition startPosition p s
  end.
End polling.

(** The handler together with a log of the clients it was called for. *)
Definition logged {S} (handle : Z → S → result (outcome * S)) (c : Z) (s : S * list Z) : result (outcome * (S * list Z)) :=
  '(o, s') ← handle c s.1; Ok (o, (s', s.2 ++ [c])).

(** ** Partitions and connections fit together *)

Section assignment.
Context (memory : Z → list Z) (n threads : Z) (Hn : 0 < threads <= n) (Hw : n < 2 ^ 64).
Let ps := map (partition_new memory n threads) (seqZ 0 threads).
Let low t := (block n threads t).1.
Let high t := (block n threads t).2.

Lemma partition_fields t : 0 <= t < threads →
  beginId (partition_new memory n threads t) = low t ∧ numberMailboxes (partition_new memory n threads t) = high t - low t ∧
  Z.of_nat (length (inflightCRs (partition_new memory n threads t))) = high t - low t.
Proof.
  intros Ht. pose proof (block_bounds n threads Hn Hw t Ht) as Hb. unfold partition_new, low, high.
  destruct (block n threads t) as [b e]. cbn in *. rewrite u64_small by lia. rewrite length_replicate. lia.
Qed.

Lemma partition_lookup t : 0 <= t < threads → arr_getZ ps t = Ok (partition_new memory n threads t).
Proof.
  intros Ht. unfold arr_getZ. rewrite decide_True by lia. apply arr_get_lookup. unfold ps.
  rewrite list_lookup_fmap, lookup_seqZ_lt by lia. cbn [fmap option_fmap option_map]. by rewrite Z2Nat.id by lia.
Qed.

Lemma block_next t : 0 <= t < threads - 1 → low (t + 1) = high t.
Proof.
  intros Ht. unfold low, high. rewrite (block_inner n threads Hn Hw t) by lia. cbn [fst snd].
  destruct (decide (t + 1 = threads - 1)) as [E|].
  - rewrite E, (block_last n threads Hn Hw). cbn [fst snd]. rewrite <- E. lia.
  - rewrite (block_inner n threads Hn Hw (t + 1)) by lia. cbn [fst snd]. lia.
Qed.

(** A mailbox that belongs to client [i]. *)
Definition mailbox_of (i : Z) (m : Z * Z) : Prop :=
  0 <= m.1 < threads ∧ 0 <= m.2 < high m.1 - low m.1 ∧ low m.1 + m.2 = i.

Lemma assign_ok conns counter t off :
  0 <= t < threads → low t + off = counter → 0 <= off <= high t - low t →
  counter + Z.of_nat (length (filter (λ c, c = WORKER) conns)) <= n →
  ∃ l, assign conns ps counter t off = Ok (l, counter + Z.of_nat (length (filter (λ c, c = WORKER) conns))) ∧
    length l = length (filter (λ c, c = WORKER) conns) ∧
    ∀ i m, l !! i = Some m → mailbox_of (counter + Z.of_nat i) m.
Proof.
  revert counter t off. induction conns as [|[] conns IH]; intros counter t off Ht Hc Ho Hl; cbn [assign].
  - exists []. cbn. rewrite Z.add_0_r. by split_and!.
  - rewrite filter_cons_False in Hl |- * by done. by apply IH.
  - rewrite filter_cons_True in Hl |- * by done. cbn [length] in Hl |- *.
    pose proof (block_bounds n threads Hn Hw t Ht) as Hb. fold (low t) (high t) in Hb.
    destruct (partition_fields t Ht) as (Eb & En & _). rewrite (partition_lookup t Ht). cbn [mbind result_bind].
    rewrite Eb, En. rewrite (u64_small (low t + _)) by lia.
    set (next := if low t + (high t - low t) <=? counter then _ else _).
    assert (∃ t' off', next = (t', off') ∧ 0 <= t' < threads ∧ low t' + off' = counter ∧ 0 <= off' < high t' - low t')
      as (t' & off' & -> & Ht' & Hc' & Ho').
    { unfold next. destruct (Z.leb_spec (low t + (high t - low t)) counter).
      - assert (t < threads - 1) as Hlt.
        { destruct (decide (t = threads - 1)) as [->|]; [|lia]. unfold high in *. rewrite (block_last n threads Hn Hw) in *. cbn in *. lia. }
        pose proof (block_next t ltac:(lia)). pose proof (block_bounds n threads Hn Hw (t + 1) ltac:(lia)) as Hb'.
        fold (low (t + 1)) (high (t + 1)) in Hb'. rewrite u64_small by lia. exists (t + 1), 0. split_and!; [done|lia..].
      - exists t, off. split_and!; [done|lia..]. }
    pose proof (block_bounds n threads Hn Hw t' Ht') as Hb'. fold (low t') (high t') in Hb'.
    rewrite (partition_lookup t' Ht'). cbn [mbind result_bind]. destruct (partition_fields t' Ht') as (-> & _ & _).
    rewrite Hc', !u64_small, Z.eqb_refl by lia. cbn [ensure mbind result_bind].
    destruct (IH (counter + 1) t' (off' + 1)) as (l & -> & Hlen & Hm); [lia..|]. cbn [mbind result_bind].
    exists ((t', off') :: l). split; [f_equal; f_equal; lia|]. split; [cbn; lia|].
    intros [|i] m Hi; cbn in Hi.
    + injection Hi as <-. unfold mailbox_of. cbn [fst snd]. lia.
    + replace (counter + Z.of_nat (Datatypes.S i)) with (counter + 1 + Z.of_nat i) by lia. by apply Hm.
  - rewrite filter_cons_False in Hl |- * by done. by apply IH.
  - rewrite filter_cons_False in Hl |- * by done. by apply IH.
Qed.
End assignment.

(** Every connection gets the mailbox that its thread polls for it: with
    [n = worker * (nodes - 1)] remote workers and at most [n] handler threads,
    the set-up passes all its checks, and the mailbox of the i-th worker lies in
    an existing partition [p], at an offset below its size, with
    [beginId p + offset = i], the client id the polling thread computes. *)
Theorem mailbox_assignment worker nodes threads memory conns :
  let n := worker *₆₄ (nodes -₆₄ 1) in
  0 < threads <= n → Z.of_nat (length (filter (λ c, c = WORKER) conns)) = n →
  ∃ ps l, mh_new worker nodes threads memory = Ok ps ∧ mh_init worker nodes conns ps = Ok l ∧
    Z.of_nat (length l) = n ∧
    ∀ (i : nat) t off, l !! i = Some (t, off) → ∃ p, arr_getZ ps t = Ok p ∧
      0 <= off < numberMailboxes p ∧ beginId p + off = Z.of_nat i.
Proof.
  intros n Hn Hconns. assert (0 <= n < 2 ^ 64) as Hw by apply u64_range. unfold mh_new, mh_init. fold n.
  rewrite (proj2 (Z.ltb_lt 0 n)), (proj2 (Z.leb_le threads n)) by lia. cbn [ensure mbind result_bind].
  destruct (Z.eqb_spec threads 0); [lia|]. cbn [mbind result_bind].
  rewrite (proj2 (Z.ltb_lt 0 (n / threads))) by (apply Z.div_str_pos; lia). cbn [ensure mbind result_bind].
  pose proof (block_bounds n threads Hn (proj2 Hw) 0 ltac:(lia)) as Hb0.
  assert ((block n threads 0).1 = 0) as Hz by (unfold block; cbn; by rewrite Z.mul_0_l).
  destruct (assign_ok memory n threads Hn (proj2 Hw) conns 0 0 0) as (l & Hl & Hlen & Hm); [lia..|].
  eexists _, l. split; [done|]. rewrite Hl. cbn [mbind result_bind]. rewrite (proj2 (Z.eqb_eq _ n)) by lia. cbn [ensure mbind result_bind].
  split; [done|]. split; [lia|]. intros i t off Hi. destruct (Hm i _ Hi) as (Ht & Ho & Hs). cbn [fst snd] in Ht, Ho, Hs.
  eexists. split; [apply partition_lookup; lia|]. destruct (partition_fields memory n threads Hn (proj2 Hw) t Ht) as (-> & -> & _). lia.
Qed.

Lemma mailbox_assignment_witness : ∃ ps l,
  mh_new 3 2 2 (λ _, [0; 0]) = Ok ps ∧ mh_init 3 2 [WORKER; PAGE_PROVIDER; WORKER; MESSAGE_HANDLER; WORKER] ps = Ok l ∧ l = [(0, 0); (1, 0); (1, 1)].
Proof.
  destruct (mailbox_assignment 3 2 2 (λ _, [0; 0]) [WORKER; PAGE_PROVIDER; WORKER; MESSAGE_HANDLER; WORKER])
    as (ps & l & H1 & H2 & _); [vm_compute; split; congruence|reflexivity|].
  exists ps, l. split; [exact H1|]. split; [exact H2|]. vm_compute in H1. injection H1 as <-. vm_compute in H2. by injection H2 as <-.
Defined.

(** ** A pass over the mailboxes *)

Definition part_ok (p : MailboxPartition) : Prop :=
  0 <= numberMailboxes p < 2 ^ 64 ∧ Z.of_nat (length (mailboxes p)) = numberMailboxes p ∧
  Z.of_nat (length (inflightCRs p)) = numberMailboxes p.

Definition flag (p : MailboxPartition) (i : Z) : Z := mailboxes p !!! Z.to_nat i.
(** Client ids of the mailboxes that hold a message. *)
Definition client (p : MailboxPartition) (i : Z) : Z := i +₆₄ beginId p.

(** Where pass number [start] begins, and its order. *)
Definition first_mailbox (n start : Z) : Z := if n <=? start then 0 else start.
Definition visit (n first m_i : Z) : Z := (first + m_i) `mod` n.
Definition order (n first : Z) : list Z := map (visit n first) (seqZ 0 n).

Section pass.
Context {S : Type} (handle : Z → S → result (outcome * S)).
Hypothesis Htotal : ∀ c s, ∃ o s', handle c s = Ok (o, s').
Notation run := (poll_one (logged handle)).

Lemma getZ_flag p i : part_ok p → 0 <= i < numberMailboxes p → arr_getZ (mailboxes p) i = Ok (flag p i).
Proof.
  intros (_ & Hl & _) Hi. unfold arr_getZ, flag. rewrite decide_True by lia. apply arr_get_lookup, list_lookup_lookup_total_lt. lia.
Qed.

Lemma poll_one_ok m_i i p s log : part_ok p → 0 <= m_i < numberMailboxes p → 0 <= i < numberMailboxes p →
  ∃ p' s', run m_i i p (s, log) = Ok (p', (s', log ++ if flag p i =? 0 then [] else [client p i])) ∧
    part_ok p' ∧ numberMailboxes p' = numberMailboxes p ∧ beginId p' = beginId p ∧
    ∀ j, 0 <= j → j ≠ i → flag p' j = flag p j.
Proof.
  intros Hp Hm Hi. pose proof Hp as (Hn & Hl & Hc). unfold poll_one. rewrite getZ_flag by done. cbn [mbind result_bind].
  destruct (Z.eqb_spec (flag p i) 0); [exists p, s; by rewrite app_nil_r|].
  rewrite (arr_setZ_lt (mailboxes p)) by lia. cbn [mbind result_bind].
  destruct (lookup_lt_is_Some_2 (inflightCRs p) (Z.to_nat m_i)) as [cr Hcr]; [lia|].
  unfold arr_getZ at 1. rewrite decide_True, (arr_get_lookup _ _ _ Hcr) by lia. cbn [mbind result_bind].
  assert (∃ crs, (if cr_inflight cr then arr_setZ (inflightCRs p) m_i cr_none else Ok (inflightCRs p)) = Ok crs ∧
    length crs = length (inflightCRs p)) as (crs & -> & Hcrs).
  { destruct (cr_inflight cr); [rewrite arr_setZ_lt by lia|]; eexists; [split; [done|apply length_insert]|done]. }
  cbn [mbind result_bind]. unfold logged. destruct (Htotal (client p i) s) as (o & s' & Hh). cbn [fst snd]. fold (client p i).
  rewrite Hh. cbn [mbind result_bind].
  destruct o as [| |pid v]; rewrite ?arr_setZ_lt by (rewrite ?length_insert; lia); cbn [mbind result_bind]; eexists _, s';
    (split; [done|]); unfold part_ok, flag; cbn; rewrite ?length_insert, ?Hcrs;
    (split; [done|]); (split; [done|]); (split; [done|]); intros j Hj Hji;
    rewrite ?list_lookup_total_insert_ne by lia; done.
Qed.

(** The iterations of a pass as a list of pairs of indices. *)
Fixpoint poll_list (l : list (Z * Z)) (p : MailboxPartition) (s : S * list Z) : result (MailboxPartition * (S * list Z)) :=
  match l with
  | [] => Ok (p, s)
  | (m_i, i) :: l => '(p, s) ← run m_i i p s; poll_list l p s
  end.

Lemma poll_list_ok l p s log : part_ok p → NoDup l.*2 →
  Forall (λ x, 0 <= x.1 < numberMailboxes p ∧ 0 <= x.2 < numberMailboxes p) l →
  ∃ p' s', poll_list l p (s, log) = Ok (p', (s', log ++ map (client p) (filter (λ i, flag p i ≠ 0) l.*2))) ∧
    part_ok p' ∧ numberMailboxes p' = numberMailboxes p ∧ beginId p' = beginId p.
Proof.
  revert p s log. induction l as [|[m_i i] l IH]; intros p s log Hp Hnd Hl; cbn [poll_list fmap list_fmap snd].
  - exists p, s. by rewrite app_nil_r.
  - apply NoDup_cons in Hnd as [Hi Hnd]. apply Forall_cons in Hl as [[Hm1 Hm2] Hl]. cbn in Hm1, Hm2.
    destruct (poll_one_ok m_i i p s log Hp Hm1 Hm2) as (p1 & s1 & -> & Hp1 & Hn1 & Hb1 & Hf1). cbn [mbind result_bind].
    edestruct (IH p1 s1) as (p' & s' & -> & Hp' & Hn' & Hb'); [done|done|by rewrite Hn1|].
    exists p', s'. rewrite Hn', Hb'. split; [|done]. do 2 f_equal. f_equal. rewrite <- app_assoc. f_equal.
    replace (map (client p1) (filter (λ i0, flag p1 i0 ≠ 0) l.*2)) with (map (client p) (filter (λ i0, flag p i0 ≠ 0) l.*2)).
    + destruct (Z.eqb_spec (flag p i) 0); [by rewrite filter_cons_False by tauto|by rewrite filter_cons_True].
    + rewrite (Prelude.filter_ext_in (λ i0, flag p1 i0 ≠ 0) (λ i0, flag p i0 ≠ 0)).
      * apply map_ext. intros j. unfold client. by rewrite Hb1.
      * intros j Hj. pose proof Hj as ([a b] & -> & Hab)%list_elem_of_fmap.
        pose proof (proj1 (Forall_forall _ _) Hl _ Hab) as Hr. cbn in *. rewrite Hf1; [done|lia|]. intros ->. contradiction.
Qed.

Lemma poll_pass_list k first m_i idx p s : part_ok p → 0 <= first < numberMailboxes p → 0 <= m_i →
  m_i + Z.of_nat k <= numberMailboxes p →
  first_mailbox (numberMailboxes p) idx = visit (numberMailboxes p) first m_i →
  poll_pass (logged handle) k m_i idx p s =
  poll_list (map (λ m, (m, visit (numberMailboxes p) first m)) (seqZ m_i (Z.of_nat k))) p s.
Proof.
  revert m_i idx p s. induction k as [|k IH]; intros m_i idx p s Hp Hf Hm Hk Hv; [done|].
  cbn [poll_pass]. fold (first_mailbox (numberMailboxes p) idx). rewrite Hv. set (n := numberMailboxes p) in *.
  rewrite seqZ_cons by lia. cbn [map poll_list].
  pose proof (Z.mod_pos_bound (first + m_i) n ltac:(lia)) as Hr. fold (visit n first m_i) in Hr.
  destruct s as [s log]. destruct (poll_one_ok m_i (visit n first m_i) p s log) as (p1 & s1 & -> & Hp1 & Hn1 & Hb1 & _); [done|fold n; lia|done|].
  cbn [mbind result_bind]. pose proof Hp as ((? & ?) & _). fold n in Hn1, Hf.
  rewrite (IH (m_i + 1)); rewrite ?Hn1; [|done|lia..|].
  - f_equal. f_equal; f_equal; lia.
  - rewrite u64_small by lia. unfold first_mailbox, visit in *. destruct (Z.leb_spec n ((first + m_i) `mod` n + 1)).
    + rewrite Z.add_assoc, <- (Zplus_mod_idemp_l (first + m_i)).
      replace ((first + m_i) `mod` n + 1) with n by lia. by rewrite Z_mod_same_full.
    + rewrite Z.add_assoc, <- (Zplus_mod_idemp_l (first + m_i)). symmetry. apply Z.mod_small. lia.
Qed.
End pass.

(** A pass visits every mailbox once. *)
Lemma order_perm n first : 0 <= first < n → order n first ≡ₚ seqZ 0 n.
Proof.
  intros Hf. apply submseteq_length_Permutation; [|unfold order; by rewrite length_map].
  apply NoDup_submseteq.
  - apply NoDup_fmap_2_strong; [|apply NoDup_seqZ]. intros x y Hx%elem_of_seqZ Hy%elem_of_seqZ. unfold visit. intros E.
    pose proof (Z.div_mod (first + x) n ltac:(lia)). pose proof (Z.div_mod (first + y) n ltac:(lia)).
    set (q := (first + x) / n) in *. set (q' := (first + y) / n) in *. 
    assert (q = q') by nia. lia.
  - intros i (m & -> & _)%list_elem_of_fmap. apply elem_of_seqZ. unfold visit.
    pose proof (Z.mod_pos_bound (first + m) n). lia.
Qed.

(** [C27] In every pass over its mailboxes a thread hands each message that is
    there to its handler exactly once, and calls no handler for an empty
    mailbox, wherever the pass starts: the clients the handler is called for are,
    up to order, those of the mailboxes whose flag is set. *)
Theorem poll_pass_once {S} (handle : Z → S → result (outcome * S)) start p s :
  part_ok p → 0 <= start → (∀ c s, ∃ o s', handle c s = Ok (o, s')) →
  ∃ p' s' log, poll_pass (logged handle) (Z.to_nat (numberMailboxes p)) 0 start p (s, []) = Ok (p', (s', log)) ∧
    part_ok p' ∧ log ≡ₚ map (client p) (filter (λ i, flag p i ≠ 0) (seqZ 0 (numberMailboxes p))).
Proof.
  intros Hp Hs Htotal. pose proof Hp as (Hn & _). destruct (decide (numberMailboxes p = 0)) as [E|Hne].
  { rewrite E. cbn. by eexists p, s, []. }
  set (n := numberMailboxes p) in *. set (first := first_mailbox n start).
  assert (0 <= first < n) as Hf by (unfold first, first_mailbox; destruct (Z.leb_spec n start); lia).
  assert (visit n first 0 = first) as Hv by (unfold visit; rewrite Z.add_0_r, Z.mod_small; lia).
  rewrite (poll_pass_list handle Htotal _ first) by (fold n; try done; lia). fold n. rewrite Z2Nat.id by lia.
  assert ((map (λ m, (m, visit n first m)) (seqZ 0 n)).*2 = order n first) as E by (unfold order; by rewrite <- list_fmap_compose).
  pose proof (order_perm n first Hf) as Hord.
  destruct (poll_list_ok handle Htotal (map (λ m, (m, visit n first m)) (seqZ 0 n)) p s []) as (p' & s' & -> & Hp' & _).
  - done.
  - rewrite E, Hord. apply NoDup_seqZ.
  - apply Forall_fmap, Forall_forall. intros m Hm%elem_of_seqZ. cbn. fold n. unfold visit. pose proof (Z.mod_pos_bound (first + m) n). lia.
  - eexists p', s', _. split; [done|]. split; [done|]. cbn [app]. rewrite E, Hord. done.
Qed.

Lemma poll_pass_once_witness :
  let p := mkPart [0; 1; 0; 1] 4 10 (replicate 4 cr_none) in
  part_ok p ∧ ∃ p' log, poll_pass (logged (λ c (s : unit), Ok (Handled, s))) 4 0 2 p (tt, []) = Ok (p', (tt, log)) ∧
    log = [13; 11] ∧ log ≡ₚ [11; 13].
Proof.
  intros p. assert (part_ok p) as Hp by (vm_compute; split_and!; congruence). split; [exact Hp|].
  assert (∀ (c : Z) (s : unit), ∃ o s', (λ c (s : unit), Ok (Handled, s)) c s = Ok (o, s')) as Ht by (intros c s; by exists Handled, s).
  destruct (poll_pass_once (λ c (s : unit), Ok (Handled, s)) 2 p tt Hp ltac:(lia) Ht) as (p' & [] & log & H & _ & Hl).
  exists p', log. split; [exact H|]. split; [vm_compute in H; by injection H as <- <-|exact Hl].
Defined.

(** The table of copy requests is reset under the index of the iteration but
    filled under that of the mailbox: here the second message of the client in
    mailbox 1 leaves the entry of its first one in the table. *)
Lemma inflight_reset_misses :
  let handle := λ (c : Z) (s : nat), Ok (match s with O => CopyInflight 5 1 | _ => Handled end, Datatypes.S s) in
  ∃ p, poll_loop handle [[]; [1]; [1]] 0 0 (mkPart [0; 0; 0] 3 0 (replicate 3 cr_none)) O = Ok (p, 2%nat) ∧
    inflightCRs p !! 1%nat = Some (mkCR true 5 1).
Proof. eexists. split; [vm_compute; reflexivity|reflexivity]. Qed.

(** Once the start position has passed the number of mailboxes, every pass
    starts at mailbox 0, and both indices agree. *)
Lemma late_passes_aligned n start m_i : n <= start → 0 <= m_i < n → visit n (first_mailbox n start) m_i = m_i.
Proof.
  intros Hs Hm. unfold first_mailbox, visit. destruct (Z.leb_spec n start); [|lia]. by rewrite Z.mod_small by lia.
Qed.
