(* ===== verification/EvictionBatch.v ===== *)
(** * storage/buffermanager/PageProvider: requests and responses between providers

    The owner of pages handles a whole request of another provider: it looks up
    and latches the frames of the entries, tests them against the copy requests
    in flight, changes the directory entries (Eviction.v) and collects the
    response and the RDMA reads.  The requester matches the response against the
    frames it asked for.  Owner and requester agree on the result, unless a check
    or an assertion ends the exchange. *)

From S2P Require Import Prelude Defs Bitmap Latch BufferFrame RingBuffer Eviction.
Local Open Scope Z_scope.

Implicit Types (f : BufferFrame) (nodeId bmId pid : Z) (buf : ring nat).

(** ** A whole request *)

(** What the non-blocking lookup with an exclusive latch gives: the frame could
    not be latched, it could not and the bucket changed meanwhile, so that the
    functor's [undo] is called on a guard that has nothing to undo, the page has
    no frame, or the frame is latched. *)
Inductive lookup_result := LRetry | LUndone | LNotFound | LFound (i : nat).

(** The frames of the owner, by index, and what handling a request did: the
    private pages, the response, the reads, the frames that stay latched, those
    that were unlatched and those that were removed. *)
Record handling := mkHandling {
  h_frames : gmap nat BufferFrame;
  h_buf : ring nat;
  h_resp : EvictionResponse;
  h_reads : RdmaReadBuffer;
  h_latched : list nat;
  h_unlatched : list nat;
  h_removed : list nat;
}.

(** The entries whose frame is latched and has the requested version. *)
Fixpoint qualify (find : Z → lookup_result) (entries : list EvictionEntry) (h : handling) : result (list (nat * EvictionEntry) * handling) :=
  match entries with
  | [] => Ok ([], h)
  | ee :: entries =>
      match find (ee_pid ee) with
      | LRetry => qualify find entries h
      | LUndone | LNotFound => Throw EnsureFailed
      | LFound i =>
          f ← of_option UndefinedBehaviour (h_frames h !! i);
          if negb (bf_pVersion f =? ee_pVersion ee) then
            qualify find entries (mkHandling (h_frames h) (h_buf h) (h_resp h) (h_reads h) (h_latched h) (i :: h_unlatched h) (h_removed h))
          else '(l, h) ← qualify find entries h; Ok ((i, ee) :: l, h)
      end
  end.

(** The copy requests in flight: sorted, up to the first empty entry, then
    searched; [std::binary_search] tests for membership in a sorted range. *)
Fixpoint valid_pids (l : list Z) : list Z :=
  match l with [] => [] | x :: l => if x =? EMPTY_PID then [] else x :: valid_pids l end.
Definition copy_inflight (crs : list Z) pid : bool :=
  let sorted := merge_sort Z.le crs in
  let valid := valid_pids sorted in
  negb (bool_decide (valid = [])) && bool_decide (pid ∈ valid).

(** The loop over the latched frames.  Before a frame is removed the code asserts
    that the node is one of the lower half. *)
Definition handle_guard `{!Build} (evict_to_ssd : bool) nodeId bmId (crs : list Z) (i : nat) (ee : EvictionEntry) (h : handling) : result handling :=
  f ← of_option UndefinedBehaviour (h_frames h !! i);
  if copy_inflight crs (bf_pid f) then
    Ok (mkHandling (h_frames h) (h_buf h) (h_resp h) (h_reads h) (h_latched h) (i :: h_unlatched h) (h_removed h))
  else
    '(o, buf) ← evict_entry evict_to_ssd nodeId bmId (h_buf h) f;
    resp ← es_add (bf_pid f) (h_resp h);
    match o with
    | EAck f => Ok (mkHandling (<[i := f]> (h_frames h)) buf resp (h_reads h) (h_latched h) (i :: h_unlatched h) (h_removed h))
    | EAckRemove f =>
        _ ← assert_ (negb (upper_node nodeId));
        Ok (mkHandling (delete i (h_frames h)) buf resp (h_reads h) (h_latched h) (h_unlatched h) (i :: h_removed h))
    | ERead page f =>
        reads ← rd_add page (ee_offset ee) (h_reads h);
        Ok (mkHandling (<[i := f]> (h_frames h)) buf resp reads (h_latched h ++ [i]) (h_unlatched h) (h_removed h))
    end.

Fixpoint handle_guards `{!Build} (evict_to_ssd : bool) nodeId bmId (crs : list Z) (l : list (nat * EvictionEntry)) (h : handling) : result handling :=
  match l with
  | [] => Ok h
  | (i, ee) :: l => h ← handle_guard evict_to_ssd nodeId bmId crs i ee h; handle_guards evict_to_ssd nodeId bmId crs l h
  end.

(** The entries of a request. *)
Fixpoint entries_of (l : list (option EvictionEntry)) : result (list EvictionEntry) :=
  match l with [] => Ok [] | e :: l => e ← of_option UndefinedBehaviour e; l ← entries_of l; Ok (e :: l) end.

(** One mailbox of phase 1: [None] when the private buffer does not hold enough
    pages, else the frames that are latched until the response is sent. *)
Definition handle_request `{!Build} (evict_to_ssd : bool) nodeId (find : Z → lookup_result) (crs : list Z) (m_i t_i : Z) (request : EvictionRequest)
    (h : handling) : result (option handling) :=
  if rb_getSize (h_buf h) <? er_elements request then Ok None
  else
    _ ← ensure (er_bmId request =? m_i);
    _ ← ensure (er_pId request =? t_i);
    entries ← entries_of (take (Z.to_nat (er_elements request)) (er_entries request));
    '(guards, h) ← qualify find entries h;
    h ← handle_guards evict_to_ssd nodeId (er_bmId request) crs guards h;
    Ok (Some h).

(** ** Responses *)

(** The frames of the last request of [nodeId] against the response: those to
    remove, which is asserted to happen on the lower half of the nodes only, and
    those to unlatch. *)
Fixpoint match_frames `{!Build} nodeId (pid_of : nat → Z) (pids : list Z) (elements r_i : Z) (l : list nat) : result (list nat * list nat) :=
  match l with
  | [] => Ok ([], [])
  | i :: l =>
      p ← arr_getZ pids r_i;
      if pid_of i =? p then
        _ ← assert_ (negb (upper_node nodeId));
        _ ← ensure (r_i <=? elements);
        '(removed, unlatched) ← match_frames nodeId pid_of pids elements (r_i + 1) l;
        Ok (i :: removed, unlatched)
      else
        '(removed, unlatched) ← match_frames nodeId pid_of pids elements r_i l;
        Ok (removed, i :: unlatched)
  end.

Definition handle_response `{!Build} nodeId (pid_of : nat → Z) (response : EvictionResponse) (frames : list nat) : result (list nat * list nat) :=
  if 0 <? es_elements response then match_frames nodeId pid_of (es_pids response) (es_elements response) 0 frames
  else Ok ([], frames).

(** ** What a request leaves behind *)

(** The frame of a page that [bmId] gave back: the requester is no holder any
    more, another node is, or the frame is gone because the SSD has the page. *)
Definition given_back (ssd : bool) nodeId bmId f (f' : option BufferFrame) : Prop :=
  match f' with
  | Some g => entry_ok nodeId g ∧ bf_pid g = bf_pid f ∧ bmId ∉ holders g ∧ holders f ∖ {[bmId]} ⊆ holders g
  | None => ssd = true ∧ bf_dirty f = false ∧ holders f = {[bmId]}
  end.

Definition outcome_frame (o : entry_outcome) : option BufferFrame :=
  match o with EAck f | ERead _ f => Some f | EAckRemove _ => None end.

Lemma entry_done_given ssd nodeId bmId f o : bmId ≠ nodeId → entry_done ssd nodeId bmId f o →
  given_back ssd nodeId bmId f (outcome_frame o).
Proof.
  intros Hne. destruct o as [g|g|page g]; unfold entry_done, given_back, outcome_frame; intros [H Hp].
  - destruct H as (? & Hh & _). rewrite Hh. split_and!; [done|naive_solver|set_solver|set_solver].
  - done.
  - destruct H as (? & Hh & _). rewrite Hh. split_and!; [done|naive_solver|set_solver|set_solver].
Qed.

Record handling_ok (room : Z) (h : handling) : Prop := mkHandlingOk {
  ho_buf : rb_inv (h_buf h);
  ho_pages : room <= rb_getSize (h_buf h);
  ho_pids : Z.of_nat (length (es_pids (h_resp h))) = batchSize;
  ho_elements : 0 <= es_elements (h_resp h) ∧ es_elements (h_resp h) + room <= batchSize;
  ho_wr : Z.of_nat (length (rd_wr (h_reads h))) = batchSize;
  ho_reads : 0 <= rd_elements (h_reads h) ∧ rd_elements (h_reads h) + room <= batchSize;
}.

Definition accepted (r : EvictionResponse) : list Z := take (Z.to_nat (es_elements r)) (es_pids r).

Lemma es_add_ok pid r : Z.of_nat (length (es_pids r)) = batchSize → 0 <= es_elements r < batchSize →
  ∃ r', es_add pid r = Ok r' ∧ es_elements r' = es_elements r + 1 ∧ length (es_pids r') = length (es_pids r) ∧
    accepted r' = accepted r ++ [pid] ∧ drop (Z.to_nat (es_elements r')) (es_pids r') = drop (Z.to_nat (es_elements r')) (es_pids r).
Proof.
  intros Hl He. unfold es_add. rewrite (proj2 (Z.ltb_lt _ _)) by lia. cbn [ensure mbind result_bind].
  rewrite arr_setZ_lt by lia. cbn [mbind result_bind]. eexists. split; [done|]. unfold accepted. cbn.
  rewrite length_insert. replace (Z.to_nat (es_elements r + 1)) with (Datatypes.S (Z.to_nat (es_elements r))) by lia.
  split_and!; try done.
  - rewrite (take_S_r _ _ pid), take_insert_ge; [done|lia|]. apply list_lookup_insert_eq. lia.
  - apply drop_insert_lt. lia.
Qed.

(** The assertions of the two sides fail: the owner removes the frame of a page
    that only the requester has, the requester removes a frame. *)
Definition remove_aborts `{!Build} (ssd : bool) nodeId bmId f : bool :=
  asserts && upper_node nodeId && ssd && negb (bf_dirty f) && bool_decide (holders f = {[bmId]}).

Section request.
Context `{!Build} (ssd : bool) (nodeId bmId : Z) (crs : list Z).
Hypothesis Hnode : 0 <= nodeId < 64.

(** A latched frame that qualifies for an entry. *)
Definition guard_ok (frames : gmap nat BufferFrame) (x : nat * EvictionEntry) : Prop :=
  ∃ f, frames !! x.1 = Some f ∧ bf_pid f = ee_pid x.2 ∧ entry_ok nodeId f ∧ requester nodeId bmId f.

Definition acked (x : nat * EvictionEntry) : bool := negb (copy_inflight crs (ee_pid x.2)).

(** What a handled guard leaves behind. *)
Definition guard_done (frames frames' : gmap nat BufferFrame) (x : nat * EvictionEntry) : Prop :=
  ∃ f, frames !! x.1 = Some f ∧
  if acked x then given_back ssd nodeId bmId f (frames' !! x.1) else frames' !! x.1 = Some f.

Lemma handle_guard_ok i ee h room : handling_ok (room + 1) h → 0 <= room → guard_ok (h_frames h) (i, ee) →
  (∃ f, h_frames h !! i = Some f ∧ remove_aborts ssd nodeId bmId f = true ∧ handle_guard ssd nodeId bmId crs i ee h = Throw AssertFailed) ∨
  ∃ h', handle_guard ssd nodeId bmId crs i ee h = Ok h' ∧ handling_ok room h' ∧
    guard_done (h_frames h) (h_frames h') (i, ee) ∧ (∀ j, j ≠ i → h_frames h' !! j = h_frames h !! j) ∧
    es_elements (h_resp h) <= es_elements (h_resp h') ∧
    accepted (h_resp h') = accepted (h_resp h) ++ (if acked (i, ee) then [ee_pid ee] else []) ∧
    drop (Z.to_nat (es_elements (h_resp h'))) (es_pids (h_resp h')) = drop (Z.to_nat (es_elements (h_resp h'))) (es_pids (h_resp h)) ∧
    h_latched h' ++ h_unlatched h' ++ h_removed h' ≡ₚ i :: h_latched h ++ h_unlatched h ++ h_removed h.
Proof.
  intros [Hb Hpg Hpids He Hwr Hrd] Hroom (f & Hf & Hpid & Hok & Hreq). cbn in Hf, Hpid.
  unfold handle_guard, guard_done, acked. cbn [fst snd]. rewrite Hf. cbn [of_option mbind result_bind]. rewrite Hpid.
  destruct (copy_inflight crs (ee_pid ee)) eqn:Ec; cbn [negb].
  { right. eexists. split; [done|]. cbn. split; [constructor; cbn; lia || done|]. split; [by eexists|]. split; [done|].
    rewrite app_nil_r. split_and!; [lia|done|done|solve_Permutation]. }
  destruct (evict_entry_ok ssd nodeId bmId (h_buf h) f Hnode Hok Hreq Hb ltac:(lia)) as (o & buf & -> & Ho & Hbuf & Hsz).
  cbn [mbind result_bind]. destruct (es_add_ok (ee_pid ee) (h_resp h) Hpids ltac:(lia)) as (resp & -> & Hel & Hlen & Hacc & Hdrop).
  cbn [mbind result_bind]. pose proof Hreq as (_ & Hne & _). pose proof (entry_done_given _ _ _ _ _ Hne Ho) as Hg.
  destruct o as [g|g|page g]; cbn [outcome_frame] in Hg.
  - right. eexists. split; [done|]. cbn. split; [constructor; cbn; lia || done|]. rewrite lookup_insert_eq.
    split; [by eexists|]. split; [intros j Hj; by rewrite lookup_insert_ne|]. split_and!; [lia|done|done|solve_Permutation].
  - rewrite assert_cases, negb_involutive. destruct Hg as (-> & Hd & Hho). destruct (asserts && upper_node nodeId) eqn:Ea; cbn [mbind result_bind].
    { left. exists f. split; [done|]. split; [|done]. unfold remove_aborts. rewrite Ea, Hd, Hho. cbn. by rewrite bool_decide_true. }
    right. eexists. split; [done|]. cbn. split; [constructor; cbn; lia || done|]. rewrite lookup_delete_eq.
    split; [by eexists|]. split; [intros j Hj; by rewrite lookup_delete_ne|]. split_and!; [lia|done|done|solve_Permutation].
  - right. unfold rd_add. rewrite arr_setZ_lt by lia. cbn [mbind result_bind].
    eexists. split; [done|]. cbn. split; [constructor; cbn; rewrite ?length_insert; lia || done|]. rewrite lookup_insert_eq.
    split; [by eexists|]. split; [intros j Hj; by rewrite lookup_insert_ne|]. split_and!; [lia|done|done|solve_Permutation].
Qed.

Lemma handle_guards_ok l h : NoDup l.*1 → handling_ok (Z.of_nat (length l)) h → Forall (guard_ok (h_frames h)) l →
  (∃ x f, x ∈ l ∧ h_frames h !! x.1 = Some f ∧ remove_aborts ssd nodeId bmId f = true ∧
     handle_guards ssd nodeId bmId crs l h = Throw AssertFailed) ∨
  ∃ h', handle_guards ssd nodeId bmId crs l h = Ok h' ∧ Forall (guard_done (h_frames h) (h_frames h')) l ∧
    (∀ j, j ∉ l.*1 → h_frames h' !! j = h_frames h !! j) ∧
    accepted (h_resp h') = accepted (h_resp h) ++ map (ee_pid ∘ snd) (filter (λ x, acked x = true) l) ∧
    length (es_pids (h_resp h')) = length (es_pids (h_resp h)) ∧
    es_elements (h_resp h) <= es_elements (h_resp h') <= batchSize ∧
    drop (Z.to_nat (es_elements (h_resp h'))) (es_pids (h_resp h')) = drop (Z.to_nat (es_elements (h_resp h'))) (es_pids (h_resp h)) ∧
    h_latched h' ++ h_unlatched h' ++ h_removed h' ≡ₚ l.*1 ++ h_latched h ++ h_unlatched h ++ h_removed h.
Proof.
  revert h. induction l as [|[i ee] l IH]; intros h Hnd Hh Hl; cbn [handle_guards].
  - right. exists h. split; [done|]. pose proof (ho_elements _ _ Hh). cbn in *. rewrite app_nil_r. split_and!; try done; lia.
  - cbn [fmap list_fmap fst] in Hnd. apply NoDup_cons in Hnd as [Hi Hnd]. apply Forall_cons in Hl as [Hg Hl].
    destruct (handle_guard_ok i ee h (Z.of_nat (length l))) as [(f & Hf & Hab & ->)|(h1 & -> & Hh1 & Hd & Hfr & Hel & Hacc & Hdrop & Hlat)]; [|lia|done| |].
    { by replace (Z.of_nat (length l) + 1) with (Z.of_nat (length ((i, ee) :: l))) by (cbn [length]; lia). }
    { left. exists (i, ee), f. split; [by left|done]. }
    cbn [mbind result_bind].
    assert (∀ x, x ∈ l → x.1 ≠ i) as Hne by (intros x Hx <-; apply Hi; by apply list_elem_of_fmap_2).
    destruct (IH h1) as [(x & f & Hx & Hf & Hab & ->)|(h' & -> & Hd' & Hfr' & Hacc' & Hlen' & Hel' & Hdrop' & Hlat')]; [done|done| | |].
    { apply Forall_forall. intros x Hx. pose proof (proj1 (Forall_forall _ _) Hl x Hx) as (f & Hf & ?). exists f. rewrite Hfr; auto. }
    { left. exists x, f. split; [by right|]. rewrite <- Hfr by auto. done. }
    right. exists h'. split; [done|]. split; [|split; [|split; [|split; [|split; [|split]]]]].
    + constructor.
      * destruct Hd as (f & Hf & Hd). exists f. split; [done|]. cbn [fst]. by rewrite Hfr'.
      * apply Forall_forall. intros x Hx. pose proof (proj1 (Forall_forall _ _) Hd' x Hx) as (f & Hf & ?). exists f.
        rewrite <- (Hfr x.1); auto.
    + intros j Hj. cbn in Hj. apply not_elem_of_cons in Hj as [? ?]. rewrite Hfr', Hfr; done.
    + rewrite Hacc', Hacc, <- app_assoc. f_equal.
      destruct (acked (i, ee)) eqn:Ea; [by rewrite filter_cons_True|by rewrite filter_cons_False by congruence].
    + pose proof (ho_pids _ _ Hh). pose proof (ho_pids _ _ Hh1). lia.
    + lia.
    + rewrite Hdrop'. set (n := Z.to_nat (es_elements (h_resp h1))) in *.
      replace (Z.to_nat (es_elements (h_resp h'))) with (n + (Z.to_nat (es_elements (h_resp h')) - n))%nat by lia.
      by rewrite <- !drop_drop, Hdrop.
    + rewrite Hlat', Hlat. cbn. solve_Permutation.
Qed.

(** The frame that is found for an entry is the owner's frame of the page, and if
    the versions agree the requester holds the page. *)
Definition entry_pre (find : Z → lookup_result) (frames : gmap nat BufferFrame) (ee : EvictionEntry) : Prop :=
  ∀ i, find (ee_pid ee) = LFound i → ∃ f, frames !! i = Some f ∧ bf_pid f = ee_pid ee ∧ entry_ok nodeId f ∧
    (bf_pVersion f = ee_pVersion ee → requester nodeId bmId f).

(** The lookups after which the owner's checks fail. *)
Definition refused (find : Z → lookup_result) (ee : EvictionEntry) : bool :=
  match find (ee_pid ee) with LUndone | LNotFound => true | _ => false end.

Definition found (find : Z → lookup_result) (ee : EvictionEntry) : option nat :=
  match find (ee_pid ee) with LFound i => Some i | _ => None end.

Lemma qualify_refused find entries h : Forall (entry_pre find (h_frames h)) entries → existsb (refused find) entries = true →
  qualify find entries h = Throw EnsureFailed.
Proof.
  revert h. induction entries as [|ee entries IH]; intros h Hpre Hex; [done|]. cbn [qualify existsb] in *.
  apply Forall_cons in Hpre as [Hee Hpre]. unfold refused in Hex at 1. unfold entry_pre in Hee.
  destruct (find (ee_pid ee)) as [| | |i]; cbn [orb] in Hex; [by apply IH|done|done|].
  destruct (Hee i eq_refl) as (f & -> & _). cbn [of_option mbind result_bind]. destruct (negb _); [by apply IH|].
  by rewrite IH.
Qed.

Lemma qualify_ok find entries h : Forall (entry_pre find (h_frames h)) entries → existsb (refused find) entries = false → NoDup (map ee_pid entries) →
  ∃ l unlatched, qualify find entries h = Ok (l, mkHandling (h_frames h) (h_buf h) (h_resp h) (h_reads h) (h_latched h) unlatched (h_removed h)) ∧
    Forall (guard_ok (h_frames h)) l ∧ Forall (λ x, found find x.2 = Some x.1) l ∧ NoDup l.*1 ∧ l.*2 `sublist_of` entries ∧
    l.*1 ++ unlatched ≡ₚ omap (found find) entries ++ h_unlatched h.
Proof.
  revert h. induction entries as [|ee entries IH]; intros h Hpre Hex Hnd; cbn [qualify].
  { exists [], (h_unlatched h). destruct h. split_and!; try done; constructor. }
  apply Forall_cons in Hpre as [Hee Hpre]. cbn [map] in Hnd. apply NoDup_cons in Hnd as [Hni Hnd]. cbn [omap list_omap].
  cbn [existsb] in Hex. apply orb_false_iff in Hex as [Hr Hex]. unfold refused in Hr. unfold entry_pre in Hee.
  destruct (find (ee_pid ee)) as [| | |i] eqn:Hfound; try done; clear Hr.
  { rename Hfound into Hr. destruct (IH h Hpre Hex Hnd) as (l & un & -> & H1 & H2 & H3 & H4 & H5). unfold found at 2. rewrite Hr. exists l, un.
    split_and!; try done. by constructor. }
  destruct (Hee i eq_refl) as (f & Hf & Hpid & Hok & Hreq).
  unfold found at 2. rewrite Hfound, Hf. cbn [of_option mbind result_bind].
  destruct (Z.eqb_spec (bf_pVersion f) (ee_pVersion ee)) as [Hv|Hv]; cbn [negb].
  - destruct (IH h Hpre Hex Hnd) as (l & un & -> & H1 & H2 & H3 & H4 & H5). cbn [mbind result_bind]. exists ((i, ee) :: l), un.
    split; [done|]. cbn [fmap list_fmap fst snd].
    split; [constructor; [exists f; auto|done]|]. split; [constructor; [unfold found; cbn; by rewrite Hfound|done]|].
    split; [|split; [by apply sublist_skip|by rewrite <- app_comm_cons, H5]].
    constructor; [|done]. intros ([j e] & -> & Hj)%list_elem_of_fmap. cbn in Hf.
    pose proof (proj1 (Forall_forall _ _) H1 _ Hj) as (f' & Hf' & Hpid' & _). cbn in Hf', Hpid'.
    apply Hni. rewrite <- Hpid. assert (f' = f) as -> by congruence. rewrite Hpid'.
    apply list_elem_of_fmap. exists e. split; [done|]. eapply elem_of_sublist; [|exact H4]. by apply (list_elem_of_fmap_2 snd) in Hj.
  - destruct (IH (mkHandling (h_frames h) (h_buf h) (h_resp h) (h_reads h) (h_latched h) (i :: h_unlatched h) (h_removed h)) Hpre Hex Hnd)
      as (l & un & -> & H1 & H2 & H3 & H4 & H5). exists l, un. split_and!; try done; [by constructor|].
    rewrite H5. cbn. solve_Permutation.
Qed.
End request.

(** ** Responses *)

Lemma sublist_full {A} (l k : list A) : l `sublist_of` k → (length k <= length l)%nat → l = k.
Proof.
  induction 1 as [|x l k Hs IH|x l k Hs IH]; cbn; intros Hl; [done| |].
  - f_equal. apply IH. lia.
  - apply sublist_length in Hs. lia.
Qed.

Lemma match_frames_ok `{!Build} nodeId pid_of pids elements acc rest l r_i : NoDup (map pid_of l) → acc `sublist_of` map pid_of l →
  0 <= r_i → drop (Z.to_nat r_i) pids = acc ++ rest → elements = r_i + Z.of_nat (length acc) →
  match rest with [] => acc = map pid_of l | p :: _ => p ∉ map pid_of l end →
  match_frames nodeId pid_of pids elements r_i l =
    if asserts && upper_node nodeId && negb (bool_decide (acc = [])) then Throw AssertFailed
    else Ok (filter (λ i, pid_of i ∈ acc) l, filter (λ i, pid_of i ∉ acc) l).
Proof.
  revert acc r_i. induction l as [|i l IH]; intros acc r_i Hnd Hsub Hr Hd Hel Hrest.
  { apply sublist_nil_r in Hsub as ->. cbn. by rewrite andb_false_r. }
  cbn [match_frames map] in *. apply NoDup_cons in Hnd as [Hi Hnd].
  assert (∀ x y, acc ++ rest = x :: y → arr_getZ pids r_i = Ok x ∧ drop (Z.to_nat (r_i + 1)) pids = y) as Hget.
  { intros x y E. rewrite E in Hd. unfold arr_getZ. rewrite decide_True by lia. split.
    - apply arr_get_lookup. rewrite <- (Nat.add_0_r (Z.to_nat r_i)), <- lookup_drop, Hd. done.
    - replace (Z.to_nat (r_i + 1)) with (Z.to_nat r_i + 1)%nat by lia. by rewrite <- drop_drop, Hd. }
  destruct acc as [|a acc].
  - destruct rest as [|p rest]; [done|]. apply not_elem_of_cons in Hrest as [Hp Hrest].
    destruct (Hget p rest eq_refl) as [-> _]. cbn [mbind result_bind]. rewrite (proj2 (Z.eqb_neq _ _)) by done.
    rewrite (IH [] r_i) by (try done; apply sublist_nil_l). rewrite bool_decide_true by done. cbn [negb]. rewrite andb_false_r. cbn [mbind result_bind].
    rewrite filter_cons_False, filter_cons_True by (apply not_elem_of_nil). done.
  - destruct (Hget a (acc ++ rest) eq_refl) as [-> Hd']. cbn [mbind result_bind].
    rewrite bool_decide_false by done. cbn [negb]. rewrite andb_true_r.
    destruct (Z.eqb_spec (pid_of i) a) as [<-|Hne].
    + rewrite assert_cases, negb_involutive. destruct (asserts && upper_node nodeId) eqn:Ea; [done|]. cbn [mbind result_bind].
      rewrite (proj2 (Z.leb_le _ _)) by (cbn [length] in Hel; lia). cbn [ensure mbind result_bind].
      assert (acc `sublist_of` map pid_of l) as Hsub'.
      { apply sublist_cons_r in Hsub as [Hs|(acc' & [= ->] & ?)]; [|done]. exfalso. apply Hi.
        eapply elem_of_sublist; [|exact Hs]. by left. }
      rewrite (IH acc (r_i + 1)); try done; [|lia|cbn [length] in Hel; lia|].
      * rewrite ?Ea. cbn [andb mbind result_bind]. rewrite filter_cons_True, filter_cons_False by (rewrite elem_of_cons; tauto).
        assert (∀ j, j ∈ l → pid_of j ≠ pid_of i) as Hj by (intros j Hj E; apply Hi; rewrite <- E; by apply list_elem_of_fmap_2).
        do 2 f_equal; [f_equal|]; apply filter_ext_in; intros j Hjl; rewrite elem_of_cons; pose proof (Hj j Hjl); tauto.
      * destruct rest; [by injection Hrest|]. by apply not_elem_of_cons in Hrest as [_ ?].
    + assert (a :: acc `sublist_of` map pid_of l) as Hsub'.
      { apply sublist_cons_r in Hsub as [?|(acc' & E & _)]; [done|]. by injection E as ->. }
      rewrite (IH (a :: acc) r_i); try done; [|by destruct rest; [injection Hrest|apply not_elem_of_cons in Hrest as [_ ?]]].
      rewrite bool_decide_false by done. cbn [negb]. rewrite andb_true_r. destruct (asserts && upper_node nodeId); [done|].
      cbn [mbind result_bind]. assert (pid_of i ∉ a :: acc) as Hni.
      { intros [?|Hin]%elem_of_cons; [done|]. apply Hi. eapply elem_of_sublist; [|exact Hsub']. by right. }
      by rewrite filter_cons_False, filter_cons_True by tauto.
Qed.

(** ** An exchange of request and response *)

(** A request of node [bmId] for its frames [frames], and the owner when it
    handles it: the pages are distinct and fit in a batch, the response buffer is
    reset, the private buffer holds enough pages. *)
Record exchange (nodeId bmId t_i : Z) (pid_of : nat → Z) (frames : list nat) (request : EvictionRequest)
    (entries : list EvictionEntry) (find : Z → lookup_result) (h : handling) : Prop := mkExchange {
  ex_pids : NoDup (map pid_of frames);
  ex_entries : map ee_pid entries = map pid_of frames;
  ex_request : er_elements request = Z.of_nat (length entries) ∧ take (length entries) (er_entries request) = map Some entries ∧
               er_bmId request = bmId ∧ er_pId request = t_i;
  ex_size : Z.of_nat (length frames) <= batchSize;
  ex_owner : Forall (entry_pre nodeId bmId find (h_frames h)) entries;
  ex_resp : Z.of_nat (length (es_pids (h_resp h))) = batchSize ∧ es_elements (h_resp h) = 0;
  ex_reads : Z.of_nat (length (rd_wr (h_reads h))) = batchSize ∧ rd_elements (h_reads h) = 0;
  ex_buf : rb_inv (h_buf h) ∧ Z.of_nat (length frames) <= rb_getSize (h_buf h);
  ex_held : h_latched h = [] ∧ h_unlatched h = [] ∧ h_removed h = [];
}.

Lemma entries_of_Some l : entries_of (map Some l) = Ok l.
Proof. induction l as [|x l IH]; [done|]. cbn. by rewrite IH. Qed.

Section exchange.
Context `{!Build} (ssd : bool) (nodeId bmId t_i : Z) (crs : list Z) (pid_of : nat → Z) (frames : list nat) (request : EvictionRequest)
  (entries : list EvictionEntry) (find : Z → lookup_result) (h : handling).
Hypothesis Hnode : 0 <= nodeId < 64.
Hypothesis Hex : exchange nodeId bmId t_i pid_of frames request entries find h.

Lemma request_refused : existsb (refused find) entries = true → handle_request ssd nodeId find crs bmId t_i request h = Throw EnsureFailed.
Proof.
  intros Href. destruct Hex as [_ He (Hel & Htake & Hb & Ht) _ Hown _ _ (_ & Hpages) _].
  assert (length entries = length frames) as Hlen by (apply (f_equal length) in He; by rewrite !length_map in He).
  unfold handle_request. rewrite (proj2 (Z.ltb_ge _ _)), Hb, Ht, !Z.eqb_refl by lia. cbn [ensure mbind result_bind].
  rewrite Hel, Nat2Z.id, Htake, entries_of_Some. cbn [mbind result_bind].
  by rewrite (qualify_refused nodeId bmId find entries h Hown Href).
Qed.

(** The owner handles the request; [l] are the entries that qualified. *)
Lemma request_handled : existsb (refused find) entries = false →
  (handle_request ssd nodeId find crs bmId t_i request h = Throw AssertFailed ∧
   ∃ ee k f, ee ∈ entries ∧ find (ee_pid ee) = LFound k ∧ h_frames h !! k = Some f ∧ remove_aborts ssd nodeId bmId f = true) ∨
  ∃ l h', handle_request ssd nodeId find crs bmId t_i request h = Ok (Some h') ∧
  l.*2 `sublist_of` entries ∧ Forall (guard_ok nodeId bmId (h_frames h)) l ∧ Forall (λ x, found find x.2 = Some x.1) l ∧
  Forall (guard_done ssd nodeId bmId crs (h_frames h) (h_frames h')) l ∧
  (∀ j, j ∉ l.*1 → h_frames h' !! j = h_frames h !! j) ∧
  accepted (h_resp h') = map (ee_pid ∘ snd) (filter (λ x, acked crs x = true) l) ∧
  Z.of_nat (length (es_pids (h_resp h'))) = batchSize ∧ 0 <= es_elements (h_resp h') <= batchSize ∧
  drop (Z.to_nat (es_elements (h_resp h'))) (es_pids (h_resp h')) = drop (Z.to_nat (es_elements (h_resp h'))) (es_pids (h_resp h)) ∧
  h_latched h' ++ h_unlatched h' ++ h_removed h' ≡ₚ omap (found find) entries.
Proof.
  intros Href. destruct Hex as [Hnd He (Hel & Htake & Hb & Ht) Hsz Hown (Hpids & Hr0) (Hwr & Hd0) (Hbuf & Hpages) (Hl0 & Hu0 & Hrm0)].
  assert (length entries = length frames) as Hlen by (apply (f_equal length) in He; by rewrite !length_map in He).
  unfold handle_request. rewrite (proj2 (Z.ltb_ge _ _)), Hb, Ht, !Z.eqb_refl by lia. cbn [ensure mbind result_bind].
  rewrite Hel, Nat2Z.id, Htake, entries_of_Some. cbn [mbind result_bind].
  destruct (qualify_ok nodeId bmId find entries h) as (l & un & -> & Hg & Hf & Hnl & Hsub & Hun); [done|done|by rewrite He|].
  cbn [mbind result_bind]. pose proof (sublist_length _ _ Hsub) as Hsl. rewrite length_fmap in Hsl.
  edestruct (handle_guards_ok ssd nodeId bmId crs Hnode l)
    as [([k ee] & f & Hx & Hk & Hab & ->)|(h' & -> & Hdone & Hother & Hacc & Hlen' & Hel' & Hdrop & Hlat)];
    [done| |exact Hg| |]; [constructor; cbn; rewrite ?Hr0, ?Hd0; try done; lia| |].
  { left. split; [done|]. exists ee, k, f. split; [eapply elem_of_sublist; [|exact Hsub]; by apply (list_elem_of_fmap_2 snd) in Hx|].
    split; [|done]. pose proof (proj1 (Forall_forall _ _) Hf _ Hx) as Hk'. unfold found in Hk'. cbn in Hk'.
    by destruct (find (ee_pid ee)); simplify_eq. }
  right. cbn [mbind result_bind]. cbn in *. exists l, h'. rewrite Hu0, app_nil_r in Hun. rewrite Hl0, Hrm0, app_nil_r in Hlat. cbn in Hlat.
  unfold accepted at 2 in Hacc. rewrite Hr0 in *. split_and!; try done; try lia. by rewrite Hlat.
Qed.
End exchange.

Lemma response_matched `{!Build} nodeId pid_of resp stale frames : NoDup (map pid_of frames) → accepted resp `sublist_of` map pid_of frames →
  Z.of_nat (length frames) <= batchSize → Z.of_nat (length (es_pids resp)) = batchSize → 0 <= es_elements resp <= batchSize →
  drop (Z.to_nat (es_elements resp)) (es_pids resp) = drop (Z.to_nat (es_elements resp)) stale →
  (∀ p, stale !! Z.to_nat (es_elements resp) = Some p → p ∉ map pid_of frames) →
  handle_response nodeId pid_of resp frames =
    if asserts && upper_node nodeId && negb (bool_decide (accepted resp = [])) then Throw AssertFailed
    else Ok (filter (λ i, pid_of i ∈ accepted resp) frames, filter (λ i, pid_of i ∉ accepted resp) frames).
Proof.
  intros Hnd Hsub Hsz Hlen Hel Hdrop Hstale. unfold handle_response.
  assert (length (accepted resp) = Z.to_nat (es_elements resp)) as Ha by (unfold accepted; rewrite length_take; lia).
  destruct (Z.ltb_spec 0 (es_elements resp)).
  - apply (match_frames_ok _ _ _ _ (accepted resp) (drop (Z.to_nat (es_elements resp)) (es_pids resp))); try done; [|lia|].
    + unfold accepted. by rewrite take_drop.
    + rewrite Hdrop. destruct (drop _ stale) as [|p rest] eqn:E.
      * apply (sublist_full _ _ Hsub). rewrite length_map, Ha.
        apply (f_equal length) in Hdrop. rewrite length_drop in Hdrop. cbn in Hdrop. pose proof (sublist_length _ _ Hsub) as Hl.
        rewrite length_map in Hl. lia.
      * apply Hstale. rewrite <- (Nat.add_0_r (Z.to_nat _)), <- lookup_drop, E. done.
  - assert (accepted resp = []) as -> by (apply length_zero_iff_nil; lia). rewrite bool_decide_true by done.
    cbn [negb]. rewrite andb_false_r. do 2 f_equal.
    + symmetry. apply filter_none. intros i _. apply not_elem_of_nil.
    + symmetry. apply filter_all, Forall_true. intros i. apply not_elem_of_nil.
Qed.

(** What the exchange left of the frame of a requested page. *)
Lemma agreed_frame ssd nodeId bmId crs (pid_of : nat → Z) (frames : list nat) entries find (frames0 frames1 : gmap nat BufferFrame) l acc i k f :
  Forall (entry_pre nodeId bmId find frames0) entries → Forall (guard_ok nodeId bmId frames0) l → Forall (λ x, found find x.2 = Some x.1) l →
  Forall (guard_done ssd nodeId bmId crs frames0 frames1) l → (∀ j, j ∉ l.*1 → frames1 !! j = frames0 !! j) →
  acc = map (ee_pid ∘ snd) (filter (λ x, acked crs x = true) l) →
  pid_of i ∈ map ee_pid entries → i ∈ frames → find (pid_of i) = LFound k → frames0 !! k = Some f →
  if decide (i ∈ filter (λ i, pid_of i ∈ acc) frames) then given_back ssd nodeId bmId f (frames1 !! k) else frames1 !! k = Some f.
Proof.
  intros Hown Hg Hfound Hdone Hother Hacc Hin Hi Hk Hf.
  assert (bf_pid f = pid_of i) as Hpid.
  { apply list_elem_of_fmap in Hin as (ee & E & Hee). rewrite E in Hk.
    destruct (proj1 (Forall_forall _ _) Hown ee Hee k Hk) as (f' & H1 & H2 & _). rewrite E. congruence. }
  destruct (decide (i ∈ _)) as [Hr|Hr].
  - apply list_elem_of_filter in Hr as [Hr _]. rewrite Hacc in Hr. apply list_elem_of_fmap in Hr as ([j ee] & E & Hx).
    apply list_elem_of_filter in Hx as [Hack Hx]. cbn in E.
    pose proof (proj1 (Forall_forall _ _) Hfound _ Hx) as Hj. unfold found in Hj. cbn in Hj. rewrite <- E, Hk in Hj. injection Hj as ->.
    destruct (proj1 (Forall_forall _ _) Hdone _ Hx) as (f' & Hf' & Hd). cbn in Hf'. rewrite Hack in Hd. by simplify_eq.
  - destruct (decide (k ∈ l.*1)) as [Hkl|Hkl]; [|by rewrite Hother].
    apply list_elem_of_fmap in Hkl as ([j ee] & -> & Hx).
    destruct (proj1 (Forall_forall _ _) Hdone _ Hx) as (f' & Hf' & Hd). destruct (proj1 (Forall_forall _ _) Hg _ Hx) as (f2 & Hf2 & Hp2 & _).
    cbn in *. simplify_eq. destruct (acked crs (j, ee)) eqn:Hack; [|done]. exfalso. apply Hr. apply list_elem_of_filter. split; [|done].
    apply list_elem_of_fmap. exists (j, ee). split; [cbn; congruence|]. by apply list_elem_of_filter.
Qed.

(** [C7] What a request for eviction does at the owner and at the requester.
    The frames the owner finds are its frames of the pages, and where the version
    agrees the requester is a holder.  If a lookup finds no frame, or has to undo
    a latch it did not get, the owner stops with a failed check.  Else it ends in
    an assertion only where assertions are compiled in, the node is one of the
    upper half and it removes the frame of a clean page; or it handles the whole
    request, and every frame it latched is unlatched, removed or kept latched
    for the read of its page.  Then, if the entry behind the last one of the
    response, which is left from an earlier response, is not one of the requested
    pages, the requester removes exactly the frames the owner accounted for, or
    ends in an assertion when it is itself of the upper half: for a removed frame
    it is no longer among the holders of the page, and another node is or the
    SSD has the page; for every other one the owner's frame is as before. *)
Theorem eviction_agreement `{!Build} ssd nodeId bmId t_i crs pid_of frames request entries find h :
  0 <= nodeId < 64 → exchange nodeId bmId t_i pid_of frames request entries find h →
  let r := handle_request ssd nodeId find crs bmId t_i request h in
  if existsb (refused find) entries then r = Throw EnsureFailed
  else
    (r = Throw AssertFailed ∧ ∃ ee k f, ee ∈ entries ∧ find (ee_pid ee) = LFound k ∧ h_frames h !! k = Some f ∧ remove_aborts ssd nodeId bmId f = true) ∨
    ∃ h', r = Ok (Some h') ∧
    h_latched h' ++ h_unlatched h' ++ h_removed h' ≡ₚ omap (found find) entries ∧
    ((∀ p, es_pids (h_resp h) !! Z.to_nat (es_elements (h_resp h')) = Some p → p ∉ map pid_of frames) →
     if asserts && upper_node bmId && negb (bool_decide (accepted (h_resp h') = [])) then
       handle_response bmId pid_of (h_resp h') frames = Throw AssertFailed
     else
       ∃ removed unlatched, handle_response bmId pid_of (h_resp h') frames = Ok (removed, unlatched) ∧
       frames ≡ₚ removed ++ unlatched ∧
       ∀ i k f, i ∈ frames → find (pid_of i) = LFound k → h_frames h !! k = Some f →
         if decide (i ∈ removed) then given_back ssd nodeId bmId f (h_frames h' !! k) else h_frames h' !! k = Some f).
Proof.
  intros Hnode Hex r. subst r. destruct (existsb (refused find) entries) eqn:Href; [by eapply request_refused|].
  destruct (request_handled ssd nodeId bmId t_i crs pid_of frames request entries find h Hnode Hex Href)
    as [?|(l & h' & Hrun & Hsub & Hg & Hfound & Hdone & Hother & Hacc & Hlen & Hel & Hdrop & Hlat)]; [by left|right].
  exists h'. split; [done|]. split; [done|]. intros Hstale. destruct Hex as [Hnd He _ Hsz Hown _ _ _ _].
  rewrite (response_matched bmId pid_of (h_resp h') (es_pids (h_resp h)) frames); try done.
  2: { rewrite Hacc, <- He. unfold compose. rewrite <- (map_map snd ee_pid). apply fmap_sublist. etransitivity; [|exact Hsub]. apply fmap_sublist, sublist_filter. }
  destruct (_ && _); [done|]. eexists _, _. split; [done|].
  split; [symmetry; apply filter_app_complement|]. intros i k f Hi Hk Hf.
  eapply agreed_frame; try done. rewrite He. by apply list_elem_of_fmap_2.
Qed.

(** A run of the exchange: node 1 wants to drop pages 10, 11 and 12 of node 0.
    It holds page 10 exclusively, page 11 is latched, and node 2 also has page
    12. *)
Module Demo.
Definition frame pid possession possessors dirty : BufferFrame :=
  mkBF pid None None 1 0 (sh_init ∅) possessors EVICTED false false dirty false possession (sh_init ∅).
Definition entry pid : EvictionEntry := mkEntry pid None 1.
Definition entries : list EvictionEntry := [entry 10; entry 11; entry 12].
Definition request : EvictionRequest := mkRequest 1 0 0 3 (map Some entries ++ replicate 29 None).
Definition find (pid : Z) : lookup_result := if pid =? 10 then LFound 0 else if pid =? 12 then LFound 1 else LRetry.
Definition owner (stale : Z) : handling :=
  mkHandling {[0%nat := frame 10 EXCLUSIVE 1 true; 1%nat := frame 12 SHARED 6 false]}
    (mkRing 4 [100; 101; 102; 103]%nat 0 3) (mkResponse (replicate 32 stale) 0 0 0) rd_new [] [] [].

Lemma demo_exchange stale : exchange 0 1 0 Z.of_nat [10; 11; 12]%nat request entries find (owner stale).
Proof.
  constructor.
  - vm_compute. apply (bool_decide_unpack _). reflexivity.
  - reflexivity.
  - by vm_compute.
  - vm_compute. congruence.
  - assert (∀ pid possession possessors dirty, is_u64 possessors → (possession = EXCLUSIVE ∧ 0 <= possessors < 64 ∧ dirty = true ∨ possession = SHARED) →
      1 ∈ holders (frame pid possession possessors dirty) → 0 ∉ holders (frame pid possession possessors dirty) →
      entry_ok 0 (frame pid possession possessors dirty)) as Hok.
    { intros pid possession possessors dirty Hw Hp H1 H0. constructor; [done|cbn; naive_solver|by eapply elem_nonempty|by right|].
      cbn. intros -> _. naive_solver. }
    apply Forall_cons; split; [|apply Forall_cons; split; [by intros ? [=]|apply Forall_cons; split; [|by apply Forall_nil]]].
    + intros i [= <-]. eexists. split; [reflexivity|]. split; [reflexivity|].
      split; [|intros _; split; [lia|split; [lia|vm_compute; reflexivity]]].
      apply Hok; [unfold is_u64; lia|left; split; [done|split; [lia|done]]|vm_compute; reflexivity|vm_compute; congruence].
    + intros i [= <-]. eexists. split; [reflexivity|]. split; [reflexivity|].
      split; [|intros _; split; [lia|split; [lia|vm_compute; reflexivity]]].
      apply Hok; [unfold is_u64; lia|by right|vm_compute; reflexivity|vm_compute; congruence].
  - split; [|reflexivity]. cbn [h_resp owner es_pids]. by rewrite length_replicate.
  - by vm_compute.
  - split; [|vm_compute; congruence]. split; [by exists 2|]. by vm_compute.
  - done.
Qed.
End Demo.

(** With assertions compiled in, on nodes of the lower half. *)
Lemma eviction_agreement_witness :
  exchange 0 1 0 Z.of_nat [10; 11; 12]%nat Demo.request Demo.entries Demo.find (Demo.owner 0) ∧ ∃ h',
  handle_request (H:=mkBuild true 4) false 0 Demo.find [] 1 0 Demo.request (Demo.owner 0) = Ok (Some h') ∧
  handle_response (H:=mkBuild true 4) 1 Z.of_nat (h_resp h') [10; 11; 12]%nat = Ok ([10; 12], [11])%nat ∧ h_latched h' = [0%nat].
Proof.
  split; [apply Demo.demo_exchange|].
  destruct (eviction_agreement (H:=mkBuild true 4) false 0 1 0 [] Z.of_nat [10; 11; 12]%nat Demo.request Demo.entries Demo.find (Demo.owner 0))
    as [(Hbad & _)|(h' & Hrun & _ & Hrest)]; [lia|apply Demo.demo_exchange|vm_compute in Hbad; discriminate Hbad|].
  exists h'. split; [exact Hrun|]. vm_compute in Hrun. injection Hrun as <-. split; [|reflexivity].
  destruct Hrest as (removed & unlatched & Hm & _).
  - intros p Hp. vm_compute in Hp. injection Hp as <-. apply (bool_decide_unpack _). vm_compute. exact I.
  - vm_compute in Hm. injection Hm as <- <-. reflexivity.
Defined.

(** The condition on the entry behind the response is needed: with a page id of
    an earlier response there, the requester drops page 11 although the owner
    never looked at it. *)
Lemma stale_entry_removes : ∃ h',
  handle_request (H:=release_build) false 0 (λ pid, if pid =? 10 then LFound 0 else LRetry) [] 1 0 Demo.request (Demo.owner 11) = Ok (Some h') ∧
  accepted (h_resp h') = [10] ∧
  handle_response (H:=release_build) 1 Z.of_nat (h_resp h') [10; 11; 12]%nat = Ok ([10; 11], [12])%nat.
Proof. eexists. split; [vm_compute; reflexivity|]. split; reflexivity. Qed.

(** A lookup that has to undo ends the provider; so do, on a node of the upper
    half, the assertions of the requester. *)
Example undone_lookup_fails :
  handle_request (H:=release_build) false 0 (λ pid, if pid =? 10 then LFound 0 else LUndone) [] 1 0 Demo.request (Demo.owner 0) = Throw EnsureFailed.
Proof. reflexivity. Qed.
Example upper_requester_aborts : ∃ h',
  handle_request (H:=mkBuild true 2) false 0 Demo.find [] 1 0 Demo.request (Demo.owner 0) = Ok (Some h') ∧
  handle_response (H:=mkBuild true 2) 1 Z.of_nat (h_resp h') [10; 11; 12]%nat = Throw AssertFailed.
Proof. eexists. split; [vm_compute; reflexivity|]. reflexivity. Qed.

(** ** Copy requests in flight *)

Lemma valid_pids_elem l pid : Sorted Z.le l → Forall is_u64 l → pid ∈ valid_pids l ↔ pid ∈ l ∧ pid ≠ EMPTY_PID.
Proof.
  intros Hs Hl. apply Sorted_StronglySorted in Hs; [|exact _]. induction Hs as [|x l Hs IH Hx]; cbn [valid_pids]; [set_solver|].
  apply Forall_cons in Hl as [Hxu Hl]. destruct (Z.eqb_spec x EMPTY_PID) as [->|Hne].
  - split; [by intros []%elem_of_nil|]. intros [[->|Hin]%elem_of_cons Hn]; [done|]. exfalso. apply Hn.
    pose proof (proj1 (Forall_forall _ _) Hx _ Hin). pose proof (proj1 (Forall_forall _ _) Hl _ Hin) as Hu.
    unfold is_u64, EMPTY_PID in *. lia.
  - rewrite !elem_of_cons, IH by done. naive_solver.
Qed.

(** The test against the copy requests in flight is exact: it succeeds for
    a page if and only if some client registered a copy of it, and the range it
    searches is sorted, as the binary search requires. *)
Theorem copy_inflight_iff crs pid : Forall is_u64 crs →
  Sorted Z.le (valid_pids (merge_sort Z.le crs)) ∧
  (copy_inflight crs pid = true ↔ pid ∈ crs ∧ pid ≠ EMPTY_PID).
Proof.
  intros Hc. pose proof (Sorted_merge_sort Z.le crs) as Hs. assert (Forall is_u64 (merge_sort Z.le crs)) as Hf by (by rewrite merge_sort_Permutation).
  split.
  - clear Hf Hc. induction Hs as [|x l Hs IH Hx]; cbn [valid_pids]; [constructor|]. destruct (x =? EMPTY_PID); [constructor|].
    constructor; [done|]. destruct Hx as [|y l' Hxy]; cbn [valid_pids]; [constructor|]. destruct (y =? EMPTY_PID); by constructor.
  - assert (pid ∈ valid_pids (merge_sort Z.le crs) ↔ pid ∈ crs ∧ pid ≠ EMPTY_PID) as <-.
    { rewrite (valid_pids_elem _ _ Hs Hf). by rewrite (elem_of_Permutation_proper pid _ _ (merge_sort_Permutation Z.le crs)). }
    unfold copy_inflight. rewrite andb_true_iff, bool_decide_eq_true, negb_true_iff, bool_decide_eq_false.
    split; [tauto|]. intros Hin. split; [|done]. intros E. rewrite E in Hin. by apply elem_of_nil in Hin.
Qed.

Lemma copy_inflight_iff_witness : Forall is_u64 [EMPTY_PID; 9; EMPTY_PID; 4] ∧
  copy_inflight [EMPTY_PID; 9; EMPTY_PID; 4] 4 = true ∧ copy_inflight [EMPTY_PID; 9; EMPTY_PID; 4] EMPTY_PID = false.
Proof.
  assert (Forall is_u64 [EMPTY_PID; 9; EMPTY_PID; 4]) as H by (repeat constructor; unfold EMPTY_PID; lia).
  split; [exact H|]. split; [|reflexivity].
  apply (proj2 (copy_inflight_iff _ 4 H)). apply (bool_decide_unpack _). vm_compute. exact I.
Defined.
