(* ===== verification/PageProvider.v ===== *)
(** * storage/buffermanager/PageProvider: the provider's rounds

    The partition of the hash table among the provider threads, the window of
    buckets a round looks at, the traversal of its chains level by level, the
    sampling of epochs that sets the eviction threshold, the choice of
    candidates, and the messages between providers: when a request or a response
    is sent, and the completions of their writes.  What happens to the frames is
    in Eviction.v. *)

From S2P Require Import Prelude Defs Bitmap Latch BufferFrame RingBuffer Memory Bag PageTable PageTableInv PageTableSpec Eviction EvictionBatch.
Local Open Scope Z_scope.

Definition pp_batch_size : Z := 128.
Definition required_samples : Z := 600.
Definition minOutgoingElements : Z := 16.
Definition maxOutstandingWrites : Z := 32.

(** ** Partitions and windows *)

(** The constructor's partitions of the [n] buckets; [below_one] tells that
    [FLAGS_evictCoolestEpochs] is. *)
Definition pp_partitions (below_one : bool) (n threads : Z) : result (list (Z * Z)) :=
  _ ← ensure below_one;
  if 0 <? n then
    _ ← (if threads =? 0 then Throw UndefinedBehaviour else Ok tt);
    _ ← ensure (0 <? n / threads);
    let partitions := map (block n threads) (seqZ 0 threads) in
    _ ← ensure (Z.of_nat (length partitions) =? threads);
    Ok partitions
  else Ok [].

(** The next window of a partition, and the offset after it. *)
Definition next_window (partition_size current_batch_offset : Z) : Z * Z * Z :=
  let begin_offset := current_batch_offset `mod` partition_size in
  let end_offset := current_batch_offset +₆₄ pp_batch_size in
  let end_offset := if partition_size <? end_offset then partition_size else end_offset in
  (begin_offset, end_offset, end_offset `mod` partition_size).

(** The windows of [k] rounds. *)
Fixpoint windows (k : nat) (partition_size offset : Z) : list (Z * Z) * Z :=
  match k with
  | O => ([], offset)
  | S k =>
      let '(b, e, offset) := next_window partition_size offset in
      let '(l, offset) := windows k partition_size offset in
      ((b, e) :: l, offset)
  end.

(** ** The traversal of a window *)

Section traverse.
Context {S : Type} (frames_of : S → gmap nat BufferFrame).
Context (condition : nat → S → result (bool * S)) (post_process_level : S → result S).

(** The [for] loop over the current level, with [k] entries left: the next
    level is written in place. *)
Fixpoint level (k : nat) (b_i write_idx : nat) (batch : list (option nat)) (s : S) : result (nat * list (option nat) * S) :=
  match k with
  | O => Ok (write_idx, batch, s)
  | Datatypes.S k =>
      tmp_ptr ← arr_get batch b_i;
      match tmp_ptr with
      | None => level k (b_i + 1) write_idx batch s
      | Some i =>
          '(more, s) ← condition i s;
          if negb more then Ok (write_idx, batch, s)
          else
            frame ← of_option UndefinedBehaviour (frames_of s !! i);
            match bf_next frame with
            | Some j =>
                batch ← arr_set batch write_idx (Some j);
                level k (b_i + 1) (write_idx + 1) batch s
            | None => level k (b_i + 1) write_idx batch s
            end
      end
  end.

(** The [while] loop; [fuel] bounds the levels. *)
Fixpoint traverse (fuel : nat) (entries : nat) (batch : list (option nat)) (s : S) : result S :=
  match fuel with
  | O => Throw OutOfFuel
  | Datatypes.S fuel =>
      if decide (entries = 0%nat) then Ok s
      else
        '(entries, batch, s) ← level entries 0 0 batch s;
        s ← post_process_level s;
        traverse fuel entries batch s
  end.

(** [batch] is the vector left from the last traversal. *)
Definition batch_traverse_hashtable (fuel : nat) (begin_bfs end_bfs : Z) (batch : list (option nat)) (s : S) : result S :=
  let entries := end_bfs -₆₄ begin_bfs in
  _ ← ensure (entries <=? pp_batch_size);
  let batch := map (λ i, Some (Z.to_nat i)) (seqZ begin_bfs entries) ++ drop (Z.to_nat entries) batch in
  traverse fuel (Z.to_nat entries) batch s.
End traverse.

(** ** Sampling *)

(** [samples], [sample_epochs] and the frames they are taken from. *)
Record sampling := mkSampling { sm_samples : Z; sm_epochs : list Z; sm_frames : gmap nat BufferFrame }.

Definition sample_condition (i : nat) (s : sampling) : result (bool * sampling) :=
  if sm_samples s =? required_samples then Ok (false, s)
  else
    frame ← of_option UndefinedBehaviour (sm_frames s !! i);
    if decide (bf_state frame = FREE ∨ bf_state frame = EVICTED) then Ok (true, s)
    else
      epochs ← arr_setZ (sm_epochs s) (sm_samples s) (bf_epoch frame);
      Ok (true, mkSampling (sm_samples s + 1) epochs (sm_frames s)).

(** The [while] loop; [levels] bounds each traversal. *)
Fixpoint sample_loop (fuel levels : nat) (begin partition_size offset : Z) (batch : list (option nat)) (s : sampling) : result (Z * sampling) :=
  if sm_samples s <? required_samples then
    match fuel with
    | O => Throw OutOfFuel
    | S fuel =>
        let '(b, e, offset) := next_window partition_size offset in
        s ← batch_traverse_hashtable sm_frames sample_condition Ok levels (b + begin) (e + begin) batch s;
        sample_loop fuel levels begin partition_size offset batch s
    end
  else Ok (offset, s).

(** The epoch up to which pages are evicted; [eviction_idx] is the product of
    the number of samples with [FLAGS_evictCoolestEpochs]. *)
Definition eviction_threshold (eviction_idx : Z) (s : sampling) : result Z :=
  arr_getZ (merge_sort Z.le (take (Z.to_nat (sm_samples s)) (sm_epochs s))) eviction_idx.

(** ** The connection to another provider *)

Record slots (T : Type) := mkSlots { current : T; prev : T }.
Arguments mkSlots {T} _ _.
Arguments current {T} _.
Arguments prev {T} _.
Definition swap {T} (m : slots T) : slots T := mkSlots (prev m) (current m).

Record pctx := mkPctx {
  responseExpected : bool;
  readScheduled : bool;
  responseOutstanding : bool;
  readCompleted : bool;
  pollCompleted : bool;
  outgoingResp : slots EvictionResponse;
  outgoing : slots EvictionRequest;
  latchedFrames : list nat;
  inflightFrames : slots (list nat);
  pp_wqe : Z;
  rdmaReadBuffer : RdmaReadBuffer;
}.

Definition with_outgoing (o : slots EvictionRequest) (fr : slots (list nat)) (expected : bool) (c : pctx) : pctx :=
  mkPctx expected (readScheduled c) (responseOutstanding c) (readCompleted c) (pollCompleted c) (outgoingResp c) o (latchedFrames c)
    fr (pp_wqe c) (rdmaReadBuffer c).

(** A candidate joins the current request. *)
Definition ask_owner (e : EvictionEntry) (i : nat) (c : pctx) : result pctx :=
  r ← er_add e (current (outgoing c));
  Ok (with_outgoing (mkSlots r (prev (outgoing c)))
        (mkSlots (current (inflightFrames c) ++ [i]) (prev (inflightFrames c))) (responseExpected c) c).

Definition with_failedSend (n : Z) (r : EvictionRequest) : EvictionRequest :=
  mkRequest (er_bmId r) (er_pId r) n (er_elements r) (er_entries r).
Definition address (nodeId t_i : Z) (r : EvictionRequest) : EvictionRequest :=
  mkRequest nodeId t_i (er_failedSend r) (er_elements r) (er_entries r).

(** [writeRequest] and [writeResponse]: whether the write is signalled, and the
    wait for a completion that is not that of a read. *)
Fixpoint await_write (wcs : list bool) (c : pctx) : result (list bool * pctx) :=
  match wcs with
  | [] => Throw WouldBlock
  | false :: wcs => Ok (wcs, c)
  | true :: wcs =>
      await_write wcs (mkPctx (responseExpected c) (readScheduled c) (responseOutstanding c) true (pollCompleted c) (outgoingResp c)
        (outgoing c) (latchedFrames c) (inflightFrames c) (pp_wqe c) (rdmaReadBuffer c))
  end.
Definition with_wqe (w : Z) (polled : bool) (c : pctx) : pctx :=
  mkPctx (responseExpected c) (readScheduled c) (responseOutstanding c) (readCompleted c) polled (outgoingResp c)
    (outgoing c) (latchedFrames c) (inflightFrames c) w (rdmaReadBuffer c).
Definition write_message (wcs : list bool) (c : pctx) : result (bool * list bool * pctx) :=
  let signal := pp_wqe c =? maxOutstandingWrites in
  '(wcs, c) ←
    (if (pp_wqe c =? maxOutstandingWrites) && negb (pollCompleted c) then
       '(wcs, c) ← await_write wcs c; Ok (wcs, with_wqe 0 false c)
     else Ok (wcs, c));
  Ok (signal, wcs, with_wqe (pp_wqe c +₆₄ 1) (pollCompleted c) c).

(** Phase 4 for one node: the request that is sent, if any. *)
Definition send_request (nodeId t_i : Z) (wcs : list bool) (c : pctx) : result (option EvictionRequest * list bool * pctx) :=
  if responseExpected c then Ok (None, wcs, c)
  else
    let r := current (outgoing c) in
    if (minOutgoingElements <? er_elements r) || ((100 <? er_failedSend r) && (0 <? er_elements r)) then
      let r := address nodeId t_i r in
      '(_, wcs, c) ← write_message wcs c;
      let o := swap (mkSlots (with_failedSend 0 r) (prev (outgoing c))) in
      let o := mkSlots (er_reset (current o)) (prev o) in
      Ok (Some r, wcs, with_outgoing o (swap (inflightFrames c)) true c)
    else
      Ok (None, wcs, with_outgoing (mkSlots (with_failedSend (er_failedSend r +₆₄ 1) r) (prev (outgoing c))) (inflightFrames c) false c).

(** Phase 5 for one node whose response arrived: the frames to remove and to
    unlatch. *)
Definition take_response `{!Build} nodeId (pid_of : nat → Z) (response : EvictionResponse) (c : pctx) : result (list nat * list nat * pctx) :=
  _ ← ensure (responseExpected c);
  '(removed, unlatched) ← handle_response nodeId pid_of response (prev (inflightFrames c));
  Ok (removed, unlatched, with_outgoing (outgoing c) (mkSlots (current (inflightFrames c)) []) false c).

(** [RdmaReadBuffer::pollCompletion]: [wcs] are the identifiers of the
    completions that are there, [true] for a read. *)
Fixpoint poll_reads (k : nat) (wcs : list bool) (c : pctx) : bool * list bool * pctx :=
  match k with
  | O => (false, wcs, c)
  | S k =>
      match wcs with
      | [] => poll_reads k [] c
      | true :: wcs =>
          (true, wcs, mkPctx (responseExpected c) (readScheduled c) (responseOutstanding c) (readCompleted c) (pollCompleted c) (outgoingResp c)
             (outgoing c) (latchedFrames c) (inflightFrames c) 0 (mkReads (rd_wr (rdmaReadBuffer c)) 0))
      | false :: wcs =>
          poll_reads k wcs (mkPctx (responseExpected c) (readScheduled c) (responseOutstanding c) (readCompleted c) true (outgoingResp c)
             (outgoing c) (latchedFrames c) (inflightFrames c) (pp_wqe c) (rdmaReadBuffer c))
      end
  end.
Definition read_completion (wcs : list bool) (c : pctx) : bool * list bool * pctx :=
  if readCompleted c then
    (true, wcs, mkPctx (responseExpected c) (readScheduled c) (responseOutstanding c) (readCompleted c) (pollCompleted c) (outgoingResp c)
       (outgoing c) (latchedFrames c) (inflightFrames c) (pp_wqe c) (mkReads (rd_wr (rdmaReadBuffer c)) 0))
  else poll_reads 2 wcs c.

(** Phase 6 for one node: the response that is sent and the frames that are
    unlatched. *)
Definition send_response (nodeId t_i : Z) (wcs : list bool) (c : pctx) : result (option (EvictionResponse * list nat) * list bool * pctx) :=
  let '(go, wcs, c) := if readScheduled c then read_completion wcs c else (true, wcs, c) in
  if negb go then Ok (None, wcs, c)
  else
    let response := current (outgoingResp c) in
    if negb (responseOutstanding c) then Ok (None, wcs, c)
    else
      let response := mkResponse (es_pids response) (es_elements response) nodeId t_i in
      let c := mkPctx (responseExpected c) false false false (pollCompleted c) (mkSlots response (prev (outgoingResp c)))
        (outgoing c) (latchedFrames c) (inflightFrames c) (pp_wqe c) (rdmaReadBuffer c) in
      '(_, wcs, c) ← write_message wcs c;
      let o := swap (outgoingResp c) in
      Ok (Some (response, latchedFrames c), wcs,
          mkPctx (responseExpected c) (readScheduled c) (responseOutstanding c) (readCompleted c) (pollCompleted c)
            (mkSlots (es_reset (current o)) (prev o)) (outgoing c) [] (inflightFrames c) (pp_wqe c) (rdmaReadBuffer c)).

(** ** Windows cover a partition *)

Lemma next_window_spec size offset : 0 <= offset < size → size + pp_batch_size < 2 ^ 64 →
  ∃ e, next_window size offset = (offset, e, e `mod` size) ∧ e = Z.min (offset + pp_batch_size) size.
Proof.
  intros Ho Hs. unfold next_window, pp_batch_size in *. rewrite Z.mod_small, u64_small by lia.
  destruct (Z.ltb_spec size (offset + 128)); eexists; (split; [done|]); lia.
Qed.

Lemma windows_run k size offset : 0 <= offset < size → size + pp_batch_size < 2 ^ 64 →
  offset + pp_batch_size * Z.of_nat k < size + pp_batch_size → (0 < k)%nat → size <= offset + pp_batch_size * Z.of_nat k →
  ∃ l, windows k size offset = (l, 0) ∧ concat (map range l) = seqZ offset (size - offset) ∧
    Forall (λ w, 0 <= w.1 < w.2 ∧ w.2 <= size ∧ w.2 - w.1 <= pp_batch_size) l.
Proof.
  revert offset. induction k as [|k IH]; intros offset Ho Hs Hk Hpos Hend; [lia|].
  cbn [windows]. destruct (next_window_spec size offset Ho Hs) as (e & -> & ->). unfold pp_batch_size in *.
  destruct (decide (k = 0%nat)) as [->|Hk0].
  - rewrite Z.min_r by lia. cbn [windows]. rewrite Z_mod_same_full. eexists. split; [done|]. cbn [map concat]. rewrite app_nil_r.
    split; [done|]. constructor; [cbn; lia|done].
  - rewrite Z.min_l, Z.mod_small by lia. destruct (IH (offset + 128)) as (l & -> & Hl & Hf); [lia..|].
    eexists. split; [done|]. cbn [map concat]. rewrite Hl. unfold range at 1. cbn [fst snd]. split; [|constructor; [cbn; lia|done]].
    replace (size - offset) with (offset + 128 - offset + (size - (offset + 128))) by lia. rewrite (seqZ_app offset) by lia.
    do 2 f_equal. lia.
Qed.

(** The rounds of a provider cover its partition: from the start of the
    partition, [k] windows with [128 (k - 1) < size <= 128 k] contain each of
    its buckets once, none is larger than the batch that holds it, and the next
    round starts at the beginning again. *)
Theorem windows_cover k size : 0 < size → size + pp_batch_size < 2 ^ 64 →
  pp_batch_size * (Z.of_nat k - 1) < size <= pp_batch_size * Z.of_nat k →
  ∃ l, windows k size 0 = (l, 0) ∧ concat (map range l) = seqZ 0 size ∧ Forall (λ w, w.2 - w.1 <= pp_batch_size) l.
Proof.
  intros Hs Hw Hk. destruct (windows_run k size 0) as (l & Hl & Hc & Hf); [unfold pp_batch_size in *; lia..|].
  exists l. rewrite Z.sub_0_r in Hc. split; [done|]. split; [done|]. eapply Forall_impl; [exact Hf|]. cbn. tauto.
Qed.

Lemma windows_cover_witness : 0 < 300 ∧ 300 + pp_batch_size < 2 ^ 64 ∧ windows 3 300 0 = ([(0, 128); (128, 256); (256, 300)], 0) ∧
  concat (map range [(0, 128); (128, 256); (256, 300)]) = seqZ 0 300.
Proof.
  split; [lia|]. split; [unfold pp_batch_size; lia|]. split; [vm_compute; reflexivity|].
  destruct (windows_cover 3 300) as (l & Hl & Hc & _); [lia|unfold pp_batch_size; lia|unfold pp_batch_size; lia|].
  vm_compute in Hl. injection Hl as <-. exact Hc.
Defined.

(** ** The traversal visits the chains *)

(** A frame with the rest of its chain. *)
Definition step_chain (x : nat * list nat) : option (nat * list nat) :=
  match x.2 with [] => None | j :: l => Some (j, l) end.
Definition next_level (cur : list (nat * list nat)) : list (nat * list nat) := omap step_chain cur.
Definition chain_of (x : nat * list nat) : list nat := x.1 :: x.2.

Lemma next_level_perm cur : cur.*1 ++ concat (map chain_of (next_level cur)) ≡ₚ concat (map chain_of cur).
Proof.
  induction cur as [|[i l] cur IH]; [done|]. cbn. destruct l as [|j l]; cbn; [by rewrite IH|].
  rewrite <- IH. constructor. solve_Permutation.
Qed.

Section visit.
Context {S : Type} (frames_of : S → gmap nat BufferFrame) (log : S → list nat) (I stopped : S → Prop).
Context (condition : nat → S → result (bool * S)) (post : S → result S).

(** The callbacks keep the invariant [I], go through every frame unless they
    have [stopped], and change the links of frames that were visited only. *)
Definition visits : Prop := ∀ i s, I s → is_Some (frames_of s !! i) →
  (∃ s', condition i s = Ok (true, s') ∧ I s' ∧ log s' = log s ++ [i] ∧ frames_of s' = frames_of s) ∨
  stopped s ∧ condition i s = Ok (false, s).
Definition keeps_links : Prop := ∀ s, I s → ∃ s', post s = Ok s' ∧ I s' ∧ (stopped s → s' = s) ∧ log s' = log s ∧
  ∀ i l, (∀ j, j ∈ i :: l → j ∉ log s) → linked (frames_of s) i l → linked (frames_of s') i l.
Hypothesis Hvisits : visits.
Hypothesis Hpost : keeps_links.

Lemma linked_next fs i l : linked fs i l → ∃ f, fs !! i = Some f ∧ bf_next f = fst <$> step_chain (i, l) ∧
  ∀ x, step_chain (i, l) = Some x → linked fs x.1 x.2.
Proof. destruct l as [|j l]; intros (f & Hf & Hl); exists f; (split; [done|]); cbn; [by split|]. destruct Hl as [-> Hl]. split; [done|]. by intros x [= <-]. Qed.

Lemma level_ok cur b_i batch s tail (done_ : list nat) : I s → drop b_i batch = map (Some ∘ fst) cur ++ tail →
  take (length done_) batch = map Some done_ → (length done_ <= b_i)%nat → (b_i <= length batch)%nat → Forall (λ x, linked (frames_of s) x.1 x.2) cur →
  ∃ written batch' s', level frames_of condition (length cur) b_i (length done_) batch s = Ok (length written, batch', s') ∧ I s' ∧
    take (length written) batch' = map Some written ∧ length batch' = length batch ∧ frames_of s' = frames_of s ∧
    (written = done_ ++ (next_level cur).*1 ∧ log s' = log s ++ cur.*1 ∨
     stopped s' ∧ (length written <= length (done_ ++ (next_level cur).*1))%nat).
Proof.
  revert b_i batch s done_. induction cur as [|[i l] cur IH]; intros b_i batch s done_ HI Hd Ht Hle Hlen Hc.
  { cbn. exists done_, batch, s. rewrite !app_nil_r. split_and!; try done. by left. }
  apply Forall_cons in Hc as [Hl Hc]. cbn in Hl. cbn [length level].
  assert (batch !! b_i = Some (Some i)) as Hb by (rewrite <- (Nat.add_0_r b_i), <- lookup_drop, Hd; done).
  rewrite (arr_get_lookup _ _ _ Hb). cbn [mbind result_bind].
  destruct (Hvisits i s HI) as [(s1 & -> & HI1 & Hlog & Hfr)|[Hst ->]]; cbn [mbind result_bind negb].
  { destruct (linked_next _ _ _ Hl) as (f & Hf & _). by eexists. }
  2:{ exists done_, batch, s. rewrite length_app. split_and!; try done. right. split; [done|lia]. }
  rewrite <- Hfr in Hl, Hc. destruct (linked_next _ _ _ Hl) as (f & -> & Hn & _). cbn [of_option mbind result_bind]. rewrite Hn.
  assert (drop (b_i + 1) batch = map (Some ∘ fst) cur ++ tail) as Hd' by (by rewrite <- drop_drop, Hd).
  assert (b_i < length batch)%nat as Hlt by (by apply lookup_lt_Some in Hb).
  cbn [next_level omap list_omap]. fold (next_level cur). destruct (step_chain (i, l)) as [[j l']|]; cbn [fmap option_fmap option_map fst].
  - rewrite arr_set_lt by lia. cbn [mbind result_bind].
    destruct (IH (b_i + 1)%nat (<[length done_:=Some j]> batch) s1 (done_ ++ [j])) as (wr & batch' & s' & E & HI' & Ht' & Hlen' & Hfr' & Hres).
    + done.
    + rewrite drop_insert_lt by lia. done.
    + rewrite length_app, Nat.add_1_r. rewrite (take_S_r _ _ (Some j)) by (apply list_lookup_insert_eq; lia).
      by rewrite take_insert_ge, Ht, map_app by lia.
    + rewrite length_app. cbn. lia.
    + rewrite length_insert. lia.
    + done.
    + rewrite length_app in E. cbn [length] in E. rewrite E. exists wr, batch', s'. rewrite length_insert in Hlen'. rewrite <- app_assoc in Hres.
      split_and!; try done; [by rewrite Hfr'|]. rewrite Hlog, <- app_assoc in Hres. done.
  - destruct (IH (b_i + 1)%nat batch s1 done_) as (wr & batch' & s' & -> & HI' & Ht' & Hlen' & Hfr' & Hres); try done; [lia..|].
    exists wr, batch', s'. rewrite Hlog, <- app_assoc in Hres. split_and!; try done. by rewrite Hfr'.
Qed.

Lemma next_level_linked fs cur : Forall (λ x, linked fs x.1 x.2) cur → Forall (λ x, linked fs x.1 x.2) (next_level cur).
Proof.
  induction 1 as [|[i l] cur Hx _ IH]; [constructor|]. cbn. destruct (linked_next _ _ _ Hx) as (f & _ & _ & Hn).
  destruct (step_chain (i, l)) as [y|] eqn:E; [constructor; [by apply Hn|done]|done].
Qed.

Lemma next_level_depth n cur : Forall (λ x, (length x.2 < Datatypes.S n)%nat) cur → Forall (λ x : nat * list nat, (length x.2 < n)%nat) (next_level cur).
Proof.
  induction 1 as [|[i l] cur Hx _ IH]; [constructor|]. cbn. destruct l as [|j l]; cbn; [done|]. constructor; [cbn in *; lia|done].
Qed.

Lemma traverse_step fuel entries batch s : traverse frames_of condition post (Datatypes.S fuel) entries batch s =
  if decide (entries = 0%nat) then Ok s
  else '(entries, batch, s) ← level frames_of condition entries 0 0 batch s; s ← post s; traverse frames_of condition post fuel entries batch s.
Proof. done. Qed.

Hypothesis Hstop : ∀ i s, I s → stopped s → condition i s = Ok (false, s).

(** After a stop at most one more level is looked at. *)
Lemma traverse_stopped fuel l batch s : I s → stopped s → take (length l) batch = map Some l → (l = [] ∨ 1 <= fuel)%nat →
  traverse frames_of condition post (Datatypes.S fuel) (length l) batch s = Ok s.
Proof.
  intros HI Hst Ht Hf. rewrite traverse_step. destruct l as [|i l]; [done|]. destruct Hf as [?|Hf]; [done|].
  rewrite decide_False by done. cbn [length level].
  assert (batch !! 0%nat = Some (Some i)) as Hb by (by destruct batch; [|injection Ht as ->]).
  rewrite (arr_get_lookup _ _ _ Hb). cbn [mbind result_bind]. rewrite Hstop by done. cbn [mbind result_bind negb].
  destruct (Hpost s HI) as (s' & -> & _ & Hsame & _). cbn [mbind result_bind]. rewrite (Hsame Hst).
  destruct fuel as [|fuel]; [lia|]. by rewrite traverse_step.
Qed.

Lemma traverse_ok fuel cur batch s tail : I s → batch = map (Some ∘ fst) cur ++ tail →
  Forall (λ x, linked (frames_of s) x.1 x.2) cur → Forall (λ x, (length x.2 < fuel)%nat) cur →
  NoDup (log s ++ concat (map chain_of cur)) →
  ∃ s', traverse frames_of condition post (Datatypes.S fuel) (length cur) batch s = Ok s' ∧ I s' ∧
    (log s' ≡ₚ log s ++ concat (map chain_of cur) ∨ stopped s').
Proof.
  revert cur batch s tail. induction fuel as [|fuel IH]; intros cur batch s tail HI Hb Hl Hdep Hnd.
  { destruct cur as [|x cur]; [|apply Forall_cons in Hdep as [Hx _]; lia]. cbn. exists s. rewrite app_nil_r. split_and!; try done. by left. }
  destruct (decide (cur = [])) as [->|Hne].
  { cbn. exists s. rewrite app_nil_r. split_and!; try done. by left. }
  rewrite traverse_step, decide_False by (by destruct cur).
  destruct (level_ok cur 0 batch s tail []) as (wr & batch' & s1 & E & HI1 & Ht & Hlen & Hfr & Hres); try done; [lia|].
  cbn [length] in E. rewrite E. cbn [mbind result_bind].
  destruct (Hpost s1 HI1) as (s2 & -> & HI2 & Hsame & Hlog2 & Hlinks). cbn [mbind result_bind].
  destruct Hres as [[-> Hlog]|[Hst Hwl]]; cbn [app] in *.
  - rewrite length_fmap. pose proof (next_level_perm cur) as Hperm.
    destruct (IH (next_level cur) batch' s2 (drop (length (next_level cur).*1) batch')) as (s' & -> & HI' & Hlog'); [done|..].
    + rewrite <- (take_drop (length (next_level cur).*1) batch') at 1. rewrite Ht. f_equal. by rewrite map_map.
    + apply Forall_forall. intros x Hx. apply Hlinks.
      * intros j Hj. rewrite Hlog. rewrite <- Hperm, app_assoc in Hnd. apply NoDup_app in Hnd as (_ & Hnd & _).
        intros Hin. apply (Hnd j Hin). apply list_elem_of_In, in_concat. exists (chain_of x). split; apply list_elem_of_In; [by apply list_elem_of_fmap_2|done].
      * rewrite Hfr. by apply (proj1 (Forall_forall _ _) (next_level_linked _ _ Hl)).
    + by apply next_level_depth.
    + rewrite Hlog2, Hlog, <- app_assoc, Hperm. done.
    + exists s'. split; [done|]. split; [done|]. destruct Hlog' as [Hlog'|?]; [left|by right]. by rewrite Hlog', Hlog2, Hlog, <- app_assoc, Hperm.
  - rewrite (Hsame Hst). exists s1. split; [|split; [done|by right]].
    apply traverse_stopped; try done. destruct wr as [|w wr]; [by left|right]. apply next_level_depth in Hdep.
    destruct (next_level cur); [cbn in Hwl; lia|]. apply Forall_cons in Hdep as [? _]. lia.
Qed.
End visit.

Section table.
Context {QF QP QI : Type} `{!FreeBag QF nat, !FreeBag QP nat, !FreeBag QI Z}.
Notation BM := (@BM QF QP QI).

(** The chains of the buckets in a list. *)
Definition bucket_chains (ch : nat → list nat) (l : list nat) : list nat := concat (map (λ b, b :: ch b) l).

Lemma elem_bucket_chains ch l i : i ∈ bucket_chains ch l ↔ ∃ b, b ∈ l ∧ i ∈ b :: ch b.
Proof.
  unfold bucket_chains. rewrite list_elem_of_In, in_concat. split.
  - intros (c & (b & <- & Hb)%in_map_iff & Hi). exists b. by rewrite !list_elem_of_In.
  - intros (b & Hb & Hi). exists (b :: ch b). rewrite list_elem_of_In in Hb, Hi. split; [|done]. apply in_map_iff. by exists b.
Qed.

Lemma bucket_chains_nodup (bm : BM) ch l : wf bm ch → Forall (is_bucket bm) l → NoDup l → NoDup (bucket_chains ch l).
Proof.
  intros Hw Hl Hnd. induction Hnd as [|b l Hb Hnd IH]; [constructor|]. apply Forall_cons in Hl as [Hbb Hl].
  unfold bucket_chains. cbn [map concat]. apply NoDup_app. split; [by apply (wf_chain_nodup bm)|]. split; [|by apply IH].
  intros i Hi Hi'. apply elem_bucket_chains in Hi' as (b' & Hb' & Hi').
  pose proof (proj1 (Forall_forall _ _) Hl _ Hb') as Hbb'.
  assert (∀ x c, is_bucket bm x → is_bucket bm c → x ∈ ch c → False) as Hnot.
  { intros x c Hx Hc Hin. destruct (wf_buckets _ _ Hw x Hx) as [f Hf]. by destruct (wf_chained _ _ Hw c x f Hc Hin Hf). }
  apply elem_of_cons in Hi as [->|Hi], Hi' as [E|Hi']; subst; eauto.
  by assert (b = b') as -> by (by apply (wf_disj _ _ Hw b b' i)).
Qed.

(** The page table with what the callbacks keep besides. *)
Context {S : Type} (frames_of : S → gmap nat BufferFrame) (log : S → list nat) (I stopped : S → Prop).
Context (condition : nat → S → result (bool * S)) (post : S → result S).

Lemma window_traversed (bm : BM) ch b e batch s :
  visits frames_of log I stopped condition → keeps_links frames_of log I stopped post →
  (∀ i s, I s → stopped s → condition i s = Ok (false, s)) → wf bm ch → I s → frames_of s = bfs bm → log s = [] →
  0 <= b <= e → e <= pt_size bm → e - b <= pp_batch_size →
  NoDup (bucket_chains ch (map Z.to_nat (seqZ b (e - b)))) ∧
  ∃ s', batch_traverse_hashtable frames_of condition post (Datatypes.S (chain_fuel bm)) b e batch s = Ok s' ∧ I s' ∧
    (log s' ≡ₚ bucket_chains ch (map Z.to_nat (seqZ b (e - b))) ∨ stopped s').
Proof.
  intros Hv Hk Hstop Hw HI Hfr Hlog Hbe Hes Hsz. unfold batch_traverse_hashtable.
  assert (pt_size bm < 2 ^ 64) as H64.
  { destruct (wf_size _ _ Hw) as (k & Hk' & ->). apply Z.pow_lt_mono_r; lia. }
  rewrite u64_small, (proj2 (Z.leb_le _ _)) by (unfold pp_batch_size in *; lia). cbn [ensure mbind result_bind].
  set (l := map Z.to_nat (seqZ b (e - b))). set (cur := map (λ i, (i, ch i)) l).
  assert (Forall (is_bucket bm) l) as Hl.
  { apply Forall_fmap, Forall_forall. intros x Hx%elem_of_seqZ. unfold compose, is_bucket. lia. }
  assert (NoDup l) as Hnd.
  { apply NoDup_fmap_2_strong; [|apply NoDup_seqZ]. intros x y Hx%elem_of_seqZ Hy%elem_of_seqZ. lia. }
  assert (concat (map chain_of cur) = bucket_chains ch l) as Ecur by (unfold cur; by rewrite map_map).
  pose proof (bucket_chains_nodup bm ch l Hw Hl Hnd) as Hndc. split; [done|].
  assert (length cur = Z.to_nat (e - b)) as Hlen by (unfold cur, l; by rewrite !length_map, length_seqZ).
  destruct (traverse_ok frames_of log I stopped condition post Hv Hk Hstop (chain_fuel bm) cur
    (map (λ i, Some (Z.to_nat i)) (seqZ b (e - b)) ++ drop (Z.to_nat (e - b)) batch) s (drop (Z.to_nat (e - b)) batch)) as (s' & Hrun & HI' & Hs').
  - done.
  - f_equal. unfold cur, l. by rewrite !map_map.
  - apply Forall_fmap, Forall_forall. intros i Hi. cbn. rewrite Hfr. apply (wf_linked _ _ Hw). by apply (proj1 (Forall_forall _ _) Hl).
  - apply Forall_fmap, Forall_forall. intros i Hi. cbn. pose proof (proj1 (Forall_forall _ _) Hl _ Hi) as Hb.
    pose proof (linked_length _ _ _ (wf_linked _ _ Hw i Hb) (wf_chain_nodup _ _ _ Hw Hb)). unfold chain_fuel. cbn in *. lia.
  - by rewrite Hlog, Ecur.
  - rewrite Hlen in Hrun. exists s'. split; [exact Hrun|]. split; [done|]. by rewrite Hlog, Ecur in Hs'.
Qed.

Lemma window_page (bm : BM) ch b e pid i : 0 <= b → maps bm ch pid i → b <= Z.of_nat (bucket_of (pt_size bm) pid) < e →
  i ∈ bucket_chains ch (map Z.to_nat (seqZ b (e - b))).
Proof.
  intros Hb (f & Hi & _) Hin. apply elem_bucket_chains. exists (bucket_of (pt_size bm) pid). split; [|done].
  apply list_elem_of_fmap. exists (Z.of_nat (bucket_of (pt_size bm) pid)). rewrite Nat2Z.id. split; [done|]. apply elem_of_seqZ. lia.
Qed.
End table.

(** [C21] The traversal of a window terminates and visits every frame of the
    chains of its buckets exactly once, so every page that hashes to the window
    is looked at, whatever the callbacks do to the frames that were already
    visited (such as removing them from their chains). *)
Theorem traversal_complete {QF QP QI : Type} `{!FreeBag QF nat, !FreeBag QP nat, !FreeBag QI Z} {S : Type}
    (frames_of : S → gmap nat BufferFrame) (log : S → list nat) (I : S → Prop) condition post (bm : @BM QF QP QI) ch b e batch s :
  visits frames_of log I (λ _, False) condition → keeps_links frames_of log I (λ _, False) post →
  wf bm ch → I s → frames_of s = bfs bm → log s = [] → 0 <= b <= e → e <= pt_size bm → e - b <= pp_batch_size →
  ∃ s', batch_traverse_hashtable frames_of condition post (Datatypes.S (chain_fuel bm)) b e batch s = Ok s' ∧ I s' ∧
    log s' ≡ₚ bucket_chains ch (map Z.to_nat (seqZ b (e - b))) ∧ NoDup (log s') ∧
    ∀ pid i, maps bm ch pid i → b <= Z.of_nat (bucket_of (pt_size bm) pid) < e → i ∈ log s'.
Proof.
  intros Hv Hk Hw HI Hfr Hlog Hbe Hes Hsz.
  destruct (window_traversed frames_of log I (λ _, False) condition post bm ch b e batch s) as (Hnd & s' & Hrun & HI' & [Hs'|[]]); try done.
  exists s'. split; [done|]. split; [done|]. split; [done|]. rewrite Hs'. split; [done|].
  intros pid i Hm Hin. rewrite Hs'. apply (window_page bm ch b e pid); [lia|done|done].
Qed.

Lemma traversal_complete_witness :
  let cond := λ i (s : list nat * gmap nat BufferFrame), Ok (true, (s.1 ++ [i], s.2)) in
  ∃ s', batch_traverse_hashtable snd cond Ok (Datatypes.S (chain_fuel ex_alloc.2)) 0 (pt_size ex_alloc.2) [] ([], bfs ex_alloc.2) = Ok s' ∧
    ex_alloc.1 ∈ s'.1.
Proof.
  intros cond. destruct ex_alloc_table as (f & _ & (ch & Hw & Hmaps) & _).
  destruct (traversal_complete snd fst (λ _, True) cond Ok ex_alloc.2 ch 0 (pt_size ex_alloc.2) [] ([], bfs ex_alloc.2)) as (s' & Hrun & _ & _ & _ & Hin).
  - intros i s _ _. left. by eexists.
  - intros s _. by exists s.
  - exact Hw.
  - done.
  - done.
  - done.
  - vm_compute. split; congruence.
  - lia.
  - vm_compute. congruence.
  - exists s'. split; [exact Hrun|]. apply (Hin (mkPID 3 5)); [by apply Hmaps, lookup_singleton_eq|].
    vm_compute. split; congruence.
Defined.
