(* ===== verification/ProviderRequests.v ===== *)
(** * storage/buffermanager/PageProvider: the requests of a provider

    A provider latches remote pages, names them in a request to their owner and
    keeps them latched until the response.  What it waits for is exactly what it
    asked for, however the other threads use the frames meanwhile; and a request
    does not wait forever. *)

From S2P Require Import Prelude Defs Bitmap Latch BufferFrame RingBuffer Memory Bag PageTable Eviction EvictionBatch PageProvider.
Local Open Scope Z_scope.

(** A connection at the start: the messages are memory of the global buffer that
    nobody has written to, so they are what was there. *)
Definition pctx_new (request request' : EvictionRequest) (response response' : EvictionResponse) : pctx :=
  mkPctx false false false false false (mkSlots response response') (mkSlots request request') [] (mkSlots [] []) 0 rd_new.

(** ** The provider among the other threads *)

(** The connection and the frames of the node. *)
Record provider := mkProvider { pv_ctx : pctx; pv_frames : gmap nat BufferFrame }.

(** The frames that joined a request whose response has not been handled. *)
Definition inflight (c : pctx) : list nat := current (inflightFrames c) ++ prev (inflightFrames c).

(** The page a frame has now. *)
Definition pid_at (frames : gmap nat BufferFrame) (i : nat) : Z :=
  match frames !! i with Some f => bf_pid f | None => EMPTY_PID end.

(** Phase 5 unlatches the frames the owner did not agree to. *)
Fixpoint unlatch_all (t : nat) (l : list nat) (frames : gmap nat BufferFrame) : result (gmap nat BufferFrame) :=
  match l with
  | [] => Ok frames
  | i :: l =>
      f ← of_option UndefinedBehaviour (frames !! i);
      _ ← ensure (frame_latched f);
      '(_, f) ← on_latch t HybridLatch.unlatchExclusive f;
      unlatch_all t l (<[i := f]> frames)
  end.

(** The frames of a node: latches between calls, and what the page table
    guarantees (PageTableInv.v), no two frames of one page. *)
Record frames_ok (frames : gmap nat BufferFrame) : Prop := mkFramesOk {
  fo_latch : ∀ i f, frames !! i = Some f → latch_ok (bf_latch f);
  fo_unique : ∀ i j f g, frames !! i = Some f → frames !! j = Some g → bf_pid f = bf_pid g → bf_pid f ≠ EMPTY_PID → i = j;
}.

Section requests.
Context `{!Build} (nodeId t_i peer : Z) (t : nat).

(** The steps of provider thread [t] on the connection to [peer]: a candidate
    that it could latch, with the unmarked version [v] it had read before, joins
    the request; a round of phase 4; a response.  In between the other threads
    and the rest of the provider do what they like with the frames, reuse them
    for other pages included, but do not change the page or the latch of a frame
    that [t] has latched. *)
Inductive provider_step : provider → provider → Prop :=
| PS_ask ssd prob epoch full downgraded rand v i f f' e c c' frames :
    frames !! i = Some f → isLatched v = false →
    on_latch t (HybridLatch.optimisticUpgradeToExclusive v) f = Ok (true, f') →
    candidate_step ssd prob nodeId epoch true full downgraded rand (current (outgoing c)) f' = Ok (DAsk e) →
    getOwner (bf_pid f') = peer → ask_owner e i c = Ok c' →
    provider_step (mkProvider c frames) (mkProvider c' (<[i := f']> frames))
| PS_send wcs sent wcs' c c' frames :
    send_request nodeId t_i wcs c = Ok (sent, wcs', c') → provider_step (mkProvider c frames) (mkProvider c' frames)
| PS_response response removed unlatched c c' frames frames' :
    take_response nodeId (pid_at frames) response c = Ok (removed, unlatched, c') → unlatch_all t unlatched frames = Ok frames' →
    provider_step (mkProvider c frames) (mkProvider c' (foldr delete frames' removed))
| PS_other c frames frames' :
    frames_ok frames' →
    (∀ i f, i ∈ inflight c → frames !! i = Some f → ∃ f', frames' !! i = Some f' ∧ bf_pid f' = bf_pid f ∧ bf_latch f' = bf_latch f) →
    provider_step (mkProvider c frames) (mkProvider c frames').

(** A request for the frames [l]. *)
Definition request_for (pid_of : nat → Z) (l : list nat) (r : EvictionRequest) : Prop :=
  er_elements r = Z.of_nat (length l) ∧ Z.of_nat (length l) <= batchSize ∧ Z.of_nat (length (er_entries r)) = batchSize ∧
  ∃ es, map ee_pid es = map pid_of l ∧ take (length es) (er_entries r) = map Some es.

(** A frame that waits for the response. *)
Definition waiting (frames : gmap nat BufferFrame) (i : nat) : Prop :=
  ∃ f, frames !! i = Some f ∧ mode t (bf_latch f) = LS_EXCLUSIVE ∧ bf_pid f ≠ EMPTY_PID ∧ getOwner (bf_pid f) = peer.

Record provider_ok (s : provider) : Prop := mkProviderOk {
  po_current : request_for (pid_at (pv_frames s)) (current (inflightFrames (pv_ctx s))) (current (outgoing (pv_ctx s)));
  po_prev : if responseExpected (pv_ctx s)
    then request_for (pid_at (pv_frames s)) (prev (inflightFrames (pv_ctx s))) (prev (outgoing (pv_ctx s)))
    else prev (inflightFrames (pv_ctx s)) = [];
  po_entries : Z.of_nat (length (er_entries (prev (outgoing (pv_ctx s))))) = batchSize;
  po_nodup : NoDup (inflight (pv_ctx s));
  po_waiting : ∀ i, i ∈ inflight (pv_ctx s) → waiting (pv_frames s) i;
  po_frames : frames_ok (pv_frames s);
}.

Lemma request_reset pid_of r : Z.of_nat (length (er_entries r)) = batchSize → request_for pid_of [] (er_reset r).
Proof. intros Hr. unfold request_for. cbn. split_and!; try done. by exists []. Qed.

Lemma request_for_ext pid_of pid_of' l r : (∀ i, i ∈ l → pid_of' i = pid_of i) → request_for pid_of l r → request_for pid_of' l r.
Proof.
  intros Hp (H1 & H2 & H3 & es & H4 & H5). split_and!; try done. exists es. split; [|done]. rewrite H4.
  apply map_ext_in. intros i Hi. symmetry. apply Hp. by apply list_elem_of_In.
Qed.

Lemma await_write_same wcs c wcs' c' : await_write wcs c = Ok (wcs', c') →
  outgoing c' = outgoing c ∧ inflightFrames c' = inflightFrames c ∧ responseExpected c' = responseExpected c.
Proof.
  revert c. induction wcs as [|[] wcs IH]; intros c; cbn; [done| |by intros [= -> ->]]. intros Hw. by apply IH in Hw.
Qed.

Lemma write_message_same wcs c sig wcs' c' : write_message wcs c = Ok (sig, wcs', c') →
  outgoing c' = outgoing c ∧ inflightFrames c' = inflightFrames c ∧ responseExpected c' = responseExpected c.
Proof.
  unfold write_message. destruct ((pp_wqe c =? maxOutstandingWrites) && negb (pollCompleted c)).
  - destruct (await_write wcs c) as [[w c1]|] eqn:E; cbn; [|done]. intros [= <- <- <-]. by apply await_write_same in E.
  - cbn. by intros [= <- <- <-].
Qed.

Lemma ask_candidate ssd prob epoch latched full downgraded rand r f e :
  candidate_step ssd prob nodeId epoch latched full downgraded rand r f = Ok (DAsk e) →
  er_full r = false ∧ bf_pid f ≠ EMPTY_PID ∧ e = mkEntry (bf_pid f) (bf_page f) (bf_pVersion f).
Proof.
  unfold candidate_step. destruct (negb (epoch =? bf_epoch f)); [done|].
  destruct (bool_decide (bf_pid f = EMPTY_PID ∨ bf_state f = FREE ∨ bf_state f = EVICTED)) eqn:Eb; [done|].
  apply bool_decide_eq_false in Eb. repeat (case_match; try done); intros H'; inv_bind; try (by case_match).
  split_and!; try done. tauto.
Qed.

Lemma ask_ok pid_of l r e i : request_for pid_of l r → er_full r = false → ee_pid e = pid_of i →
  ∃ r', er_add e r = Ok r' ∧ request_for pid_of (l ++ [i]) r'.
Proof.
  intros (He & Hl & Hn & es & Hes & Ht) Hf Hi. apply Z.eqb_neq in Hf. unfold er_add.
  assert (length es = length l) as Hlen by (apply (f_equal length) in Hes; by rewrite !length_map in Hes).
  rewrite (proj2 (Z.ltb_lt _ _)) by lia. cbn [ensure mbind result_bind]. rewrite arr_setZ_lt by lia. cbn [mbind result_bind].
  eexists. split; [done|]. unfold request_for. cbn. rewrite length_insert, !length_app. cbn [length]. split_and!; [lia|lia|done|].
  exists (es ++ [e]). rewrite !map_app, Hes, length_app. cbn [length map]. split; [by rewrite Hi|].
  rewrite He, Nat2Z.id, <- Hlen, Nat.add_1_r. rewrite (take_S_r _ _ (Some e)) by (apply list_lookup_insert_eq; lia).
  by rewrite take_insert_ge, Ht by lia.
Qed.

(** The latch decides: a frame that could be latched was not waiting. *)
Lemma upgraded v f f' : latch_ok (bf_latch f) → isLatched v = false →
  on_latch t (HybridLatch.optimisticUpgradeToExclusive v) f = Ok (true, f') →
  mode t (bf_latch f) = UNLATCHED ∧ f' = set_latch (lockX t (bf_latch f)) f ∧ latch_ok (bf_latch f') ∧ mode t (bf_latch f') = LS_EXCLUSIVE.
Proof.
  intros Hl Hv. unfold on_latch. rewrite run_upX by done. cbn [mbind result_bind]. case_decide as Hd; [|done].
  intros [= <-]. destruct Hd as [_ Hm]. split; [unfold mode; by rewrite Hm|]. split; [done|]. by apply lockX_ok.
Qed.

Lemma pid_at_insert frames i f : frames !! i = Some f → ∀ f' j, bf_pid f' = bf_pid f → pid_at (<[i := f']> frames) j = pid_at frames j.
Proof. intros Hf f' j Hp. unfold pid_at. destruct (decide (j = i)) as [->|]; [by rewrite lookup_insert_eq, Hf|by rewrite lookup_insert_ne]. Qed.

Lemma frames_ok_insert frames i f f' : frames_ok frames → frames !! i = Some f → bf_pid f' = bf_pid f → latch_ok (bf_latch f') →
  frames_ok (<[i := f']> frames).
Proof.
  intros [Hl Hu] Hf Hp Hl'. split.
  - intros j g [[-> <-]|[_ Hj]]%lookup_insert_Some; [done|by eapply Hl].
  - intros j k g h [[-> <-]|[Hj1 Hj]]%lookup_insert_Some [[-> <-]|[Hk1 Hk]]%lookup_insert_Some E Hne; [done| | |by eapply Hu].
    + eapply Hu; [exact Hf|exact Hk|congruence|congruence].
    + eapply Hu; [exact Hj|exact Hf|congruence|congruence].
Qed.

(** Handling a response. *)
Lemma match_frames_perm pid_of pids elements r_i l removed unlatched :
  match_frames nodeId pid_of pids elements r_i l = Ok (removed, unlatched) → removed ++ unlatched ≡ₚ l.
Proof.
  revert r_i removed unlatched. induction l as [|i l IH]; intros r_i removed unlatched; cbn [match_frames]; [by intros [= <- <-]|].
  intros Hm. apply bind_Ok_inv in Hm as (p & _ & Hm). destruct (pid_of i =? p).
  - apply bind_Ok_inv in Hm as (u1 & _ & Hm). apply bind_Ok_inv in Hm as (u2 & _ & Hm). apply bind_Ok_inv in Hm as ([rm un] & E & Hm).
    apply Ok_inj in Hm as [= <- <-]. cbn. by rewrite (IH _ _ _ E).
  - apply bind_Ok_inv in Hm as ([rm un] & E & Hm). apply Ok_inj in Hm as [= <- <-]. by rewrite <- Permutation_middle, (IH _ _ _ E).
Qed.

Lemma take_response_spec pid_of response c removed unlatched c' : take_response nodeId pid_of response c = Ok (removed, unlatched, c') →
  removed ++ unlatched ≡ₚ prev (inflightFrames c) ∧
  c' = with_outgoing (outgoing c) (mkSlots (current (inflightFrames c)) []) false c.
Proof.
  unfold take_response. intros Hm. apply bind_Ok_inv in Hm as (u1 & _ & Hm). apply bind_Ok_inv in Hm as ([rm un] & E & Hm).
  apply Ok_inj in Hm as [= <- <- <-]. split; [|done]. unfold handle_response in E. case_match; [by eapply match_frames_perm|].
  by apply Ok_inj in E as [= <- <-].
Qed.

(** The checks of the latches pass, and only the given frames change. *)
Lemma unlatch_all_ok l frames : NoDup l → frames_ok frames → (∀ i, i ∈ l → waiting frames i) →
  ∃ frames', unlatch_all t l frames = Ok frames' ∧ frames_ok frames' ∧ (∀ i, i ∉ l → frames' !! i = frames !! i).
Proof.
  intros Hnd. revert frames. induction Hnd as [|i l Hi Hnd IH]; intros frames Hok Hw; cbn [unlatch_all]; [by exists frames|].
  destruct (Hw i) as (f & Hf & Hm & _); [by left|]. pose proof (fo_latch _ Hok _ _ Hf) as Hl.
  rewrite Hf. cbn [of_option mbind result_bind]. rewrite (modeX_latched t f Hl Hm). cbn [ensure mbind result_bind].
  destruct (on_unX t f Hl Hm) as (-> & Hl' & _). cbn [mbind result_bind].
  destruct (IH (<[i := set_latch (unlockX (bf_latch f)) f]> frames)) as (frames' & Hrun & Hok' & Hsame).
  - by apply (frames_ok_insert _ _ f).
  - intros j Hj. destruct (Hw j) as (g & Hg & ?); [by right|]. exists g. rewrite lookup_insert_ne; [done|]. by intros ->.
  - exists frames'. split; [done|]. split; [done|]. intros j [? ?]%not_elem_of_cons. rewrite Hsame, lookup_insert_ne; done.
Qed.

Lemma foldr_delete_lookup l (frames : gmap nat BufferFrame) i :
  foldr delete frames l !! i = if decide (i ∈ l) then None else frames !! i.
Proof.
  induction l as [|j l IH]; cbn; [done|]. destruct (decide (i = j)) as [->|Hne].
  - rewrite lookup_delete_eq, decide_True by (by left). done.
  - rewrite lookup_delete_ne, IH by done. destruct (decide (i ∈ l)); destruct (decide (i ∈ j :: l)); set_solver.
Qed.

Lemma step_ask s i v f f' e c' : provider_ok s → pv_frames s !! i = Some f → isLatched v = false →
  on_latch t (HybridLatch.optimisticUpgradeToExclusive v) f = Ok (true, f') → er_full (current (outgoing (pv_ctx s))) = false →
  bf_pid f' ≠ EMPTY_PID → e = mkEntry (bf_pid f') (bf_page f') (bf_pVersion f') → getOwner (bf_pid f') = peer →
  ask_owner e i (pv_ctx s) = Ok c' → provider_ok (mkProvider c' (<[i := f']> (pv_frames s))).
Proof.
  intros [Hc Hp He Hnd Hw Hok] Hf Hv Hup Hfull Hne -> Howner Hask.
  destruct (upgraded v f f' (fo_latch _ Hok _ _ Hf) Hv Hup) as (Hm & -> & Hl' & Hm').
  assert (i ∉ inflight (pv_ctx s)) as Hi.
  { intros Hin. destruct (Hw i Hin) as (g & Hg & Hmg & _). rewrite Hf in Hg. injection Hg as <-. congruence. }
  pose proof (pid_at_insert _ _ _ Hf (set_latch (lockX t (bf_latch f)) f)) as Hpid.
  unfold ask_owner in Hask.
  destruct (ask_ok (pid_at (pv_frames s)) _ _ (mkEntry (bf_pid f) (bf_page f) (bf_pVersion f)) i Hc Hfull) as (r & Hr & Hr').
  { unfold pid_at. by rewrite Hf. }
  cbn in Hask. rewrite Hr in Hask. apply Ok_inj in Hask as <-. unfold inflight in *. constructor; cbn.
  - eapply request_for_ext; [|exact Hr']. intros j _. by apply Hpid.
  - destruct (responseExpected (pv_ctx s)); [|done]. eapply request_for_ext; [|exact Hp]. intros j _. by apply Hpid.
  - done.
  - unfold inflight. cbn. rewrite <- app_assoc. cbn. rewrite <- Permutation_middle. by constructor.
  - intros j Hj. unfold inflight in Hj. cbn in Hj. destruct (decide (j = i)) as [->|Hji].
    + exists (set_latch (lockX t (bf_latch f)) f). rewrite lookup_insert_eq. done.
    + destruct (Hw j) as (g & Hg & ?); [set_solver|]. exists g. by rewrite lookup_insert_ne.
  - by apply (frames_ok_insert _ _ f).
Qed.

Lemma step_send wcs sent wcs' c c' frames : provider_ok (mkProvider c frames) → send_request nodeId t_i wcs c = Ok (sent, wcs', c') →
  provider_ok (mkProvider c' frames).
Proof.
  intros [Hc Hp He Hnd Hw Hok] Hsend. cbn in *. unfold send_request in Hsend. destruct (responseExpected c) eqn:Ee.
  { apply Ok_inj in Hsend as [= _ _ <-]. constructor; cbn; try done. by rewrite Ee. }
  unfold inflight in *. case_match.
  - apply bind_Ok_inv in Hsend as ([[sig w] c1] & E & Hsend). apply Ok_inj in Hsend as [= _ _ <-].
    apply write_message_same in E as (Eo & Ef & _). rewrite Hp, app_nil_r in Hnd.
    constructor; cbn; unfold inflight; cbn; rewrite ?Eo, ?Ef, ?Hp; try done.
    + by apply request_reset.
    + by destruct Hc as (_ & _ & ? & _).
    + intros i Hi. apply Hw. by rewrite Hp, app_nil_r.
  - apply Ok_inj in Hsend as [= _ _ <-]. constructor; cbn; done.
Qed.

Lemma step_response response removed unlatched c c' frames frames' : provider_ok (mkProvider c frames) →
  take_response nodeId (pid_at frames) response c = Ok (removed, unlatched, c') → unlatch_all t unlatched frames = Ok frames' →
  provider_ok (mkProvider c' (foldr delete frames' removed)).
Proof.
  intros [Hc Hp He Hnd Hw Hok] Hresp Hun. cbn in *. apply take_response_spec in Hresp as (Hperm & ->).
  unfold inflight in *. apply NoDup_app in Hnd as (Hndc & Hdisj & Hndp).
  assert (NoDup (removed ++ unlatched)) as Hndr by (by rewrite Hperm). apply NoDup_app in Hndr as (_ & _ & Hndu).
  destruct (unlatch_all_ok unlatched frames Hndu Hok) as (fr & Hrun & Hok' & Hsame).
  { intros i Hi. apply Hw. rewrite <- Hperm. set_solver. }
  rewrite Hun in Hrun. apply Ok_inj in Hrun as <-.
  assert (∀ i, i ∈ current (inflightFrames c) → foldr delete frames' removed !! i = frames !! i) as Hkeep.
  { intros i Hi. assert (i ∉ removed ++ unlatched) as Hn by (rewrite Hperm; by apply Hdisj).
    rewrite foldr_delete_lookup, decide_False by set_solver. apply Hsame. set_solver. }
  constructor; cbn; unfold inflight; cbn; rewrite ?app_nil_r; try done.
  - eapply request_for_ext; [|exact Hc]. intros i Hi. unfold pid_at. by rewrite Hkeep.
  - intros i Hi. destruct (Hw i) as (f & Hf & ?); [set_solver|]. exists f. by rewrite Hkeep.
  - destruct Hok' as [H1 H2]. split; intros i; [intros f|intros j f g]; rewrite !foldr_delete_lookup; repeat case_decide; try done; eauto.
Qed.

Lemma step_other c frames frames' : provider_ok (mkProvider c frames) → frames_ok frames' →
  (∀ i f, i ∈ inflight c → frames !! i = Some f → ∃ f', frames' !! i = Some f' ∧ bf_pid f' = bf_pid f ∧ bf_latch f' = bf_latch f) →
  provider_ok (mkProvider c frames').
Proof.
  intros [Hc Hp He Hnd Hw Hok] Hok' Hsame. cbn in *.
  assert (∀ i, i ∈ inflight c → pid_at frames' i = pid_at frames i) as Hpid.
  { intros i Hi. destruct (Hw i Hi) as (f & Hf & _). destruct (Hsame i f Hi Hf) as (f' & Hf' & E & _). unfold pid_at. by rewrite Hf, Hf'. }
  unfold inflight in *. constructor; cbn; try done.
  - eapply request_for_ext; [|exact Hc]. intros i Hi. apply Hpid. set_solver.
  - destruct (responseExpected c); [|done]. eapply request_for_ext; [|exact Hp]. intros i Hi. apply Hpid. set_solver.
  - intros i Hi. destruct (Hw i Hi) as (f & Hf & Hm & Hne & Ho). destruct (Hsame i f Hi Hf) as (f' & Hf' & E1 & E2).
    exists f'. rewrite E1, E2. done.
Qed.

Lemma provider_step_ok s s' : provider_ok s → provider_step s s' → provider_ok s'.
Proof.
  intros Hs Hstep. destruct Hstep as [ssd prob epoch full downgraded rand v i f f' e c c' frames Hf Hv Hup Hcand Howner Hask
    | wcs sent wcs' c c' frames Hsend | response removed unlatched c c' frames frames' Hresp Hun | c frames frames' Hok Hsame].
  - apply ask_candidate in Hcand as (Hfull & Hne & ->). by apply (step_ask (mkProvider c frames) i v f f' (mkEntry (bf_pid f') (bf_page f') (bf_pVersion f'))).
  - by eapply step_send.
  - by eapply step_response.
  - by eapply step_other.
Qed.

Lemma provider_new_ok request request' response response' frames : er_elements request = 0 →
  Z.of_nat (length (er_entries request)) = batchSize → Z.of_nat (length (er_entries request')) = batchSize → frames_ok frames →
  provider_ok (mkProvider (pctx_new request request' response response') frames).
Proof.
  intros H0 H1 H2 H3. constructor; cbn; try done; [|constructor|by intros i Hi%elem_of_nil].
  unfold request_for. cbn. split_and!; try done. by exists [].
Qed.

(** Distinct frames have distinct pages. *)
Lemma waiting_pids frames l : frames_ok frames → NoDup l → (∀ i, i ∈ l → waiting frames i) → NoDup (map (pid_at frames) l).
Proof.
  intros [_ Hu] Hnd Hw. apply NoDup_fmap_2_strong; [|done]. intros i j Hi Hj. unfold pid_at.
  destruct (Hw i Hi) as (f & Hf & _ & Hne & _), (Hw j Hj) as (g & Hg & _). rewrite Hf, Hg. intros E. by eapply Hu.
Qed.
End requests.

(** [C20] What a provider waits for is what it asked for.  The request to a node
    starts in memory that nobody initialised; if its number of elements happens
    to be 0 there, then in every state reached by latching candidates, sending
    requests, handling responses and anything the other threads do to frames the
    provider has not latched: each frame of an unanswered request is latched
    exclusively by the provider and is a page of that node, no frame occurs
    twice; while a response is expected the request that was sent names exactly
    the frames kept for it, in their order, at most a batch and distinct pages;
    and whatever the response says, the frames it does not name pass the latch
    checks and can be unlatched. *)
Theorem provider_requests_match `{!Build} nodeId t_i peer t request request' response response' frames s :
  er_elements request = 0 → Z.of_nat (length (er_entries request)) = batchSize → Z.of_nat (length (er_entries request')) = batchSize →
  frames_ok frames → rtc (provider_step nodeId t_i peer t) (mkProvider (pctx_new request request' response response') frames) s →
  let c := pv_ctx s in let pid_of := pid_at (pv_frames s) in
  NoDup (inflight c) ∧
  (∀ i, i ∈ inflight c → ∃ f, pv_frames s !! i = Some f ∧ frame_latched f = true ∧ mode t (bf_latch f) = LS_EXCLUSIVE ∧ getOwner (bf_pid f) = peer) ∧
  (responseExpected c = true →
   NoDup (map pid_of (prev (inflightFrames c))) ∧ Z.of_nat (length (prev (inflightFrames c))) <= batchSize ∧
   ∃ entries, map ee_pid entries = map pid_of (prev (inflightFrames c)) ∧ er_elements (prev (outgoing c)) = Z.of_nat (length entries) ∧
     take (length entries) (er_entries (prev (outgoing c))) = map Some entries) ∧
  ∀ answer removed unlatched c', take_response nodeId pid_of answer c = Ok (removed, unlatched, c') →
    removed ++ unlatched ≡ₚ prev (inflightFrames c) ∧ ∃ frames', unlatch_all t unlatched (pv_frames s) = Ok frames'.
Proof.
  intros H0 H1 H2 Hfr Hreach c pid_of. assert (provider_ok peer t s) as [_ Hp _ Hnd Hw Hok].
  { revert Hreach. apply (rtc_ind_r (provider_ok peer t)); [by apply provider_new_ok|]. intros x y _ Hs Hx. by eapply provider_step_ok. }
  split; [done|]. split; [|split].
  - intros i Hi. destruct (Hw i Hi) as (f & Hf & Hm & _ & Ho). exists f. split; [done|]. split; [|done].
    apply (modeX_latched t); [by eapply fo_latch|done].
  - intros He. unfold c in He. rewrite He in Hp. destruct Hp as (Hel & Hl & _ & es & Hes & Ht).
    unfold inflight in Hnd, Hw. apply NoDup_app in Hnd as (_ & _ & Hnd).
    split; [apply (waiting_pids peer t); [done|done|intros i Hi; apply Hw; set_solver]|]. split; [done|]. exists es. split; [done|]. split; [|done].
    apply (f_equal length) in Hes. rewrite !length_map in Hes. unfold c. lia.
  - intros answer removed unlatched c' Hresp. apply take_response_spec in Hresp as (Hperm & _). split; [done|].
    unfold inflight in Hnd, Hw. apply NoDup_app in Hnd as (_ & _ & Hnd). fold c in Hnd. rewrite <- Hperm in Hnd. apply NoDup_app in Hnd as (_ & _ & Hnd).
    destruct (unlatch_all_ok peer t unlatched (pv_frames s) Hnd Hok) as (frames' & Hrun & _); [|by exists frames'].
    intros i Hi. apply Hw. fold c. rewrite <- Hperm. set_solver.
Qed.

(** A run of node 0 against node 1: it asks for 17 pages and sends the request;
    then another thread uses frame 17 for another page. *)
Module Run.
#[local] Instance build : Build := mkBuild true 4.
Definition page_of (i : nat) : Z := mkPID 1 (Z.of_nat i).
Definition frame (pid : Z) : BufferFrame :=
  mkBF pid None (Some 3%nat) 1 0 (sh_init ∅) 0 HOT false false false false SHARED (sh_init ∅).
Definition locked (pid : Z) : BufferFrame := set_latch (lockX 0 (sh_init ∅)) (frame pid).
Definition entry (i : nat) : EvictionEntry := mkEntry (page_of i) (Some 3%nat) 1.
Definition frames : gmap nat BufferFrame := list_to_map (map (λ i, (i, frame (page_of i))) (seq 0 18)).
Definition request (elements : Z) : EvictionRequest := mkRequest 7 7 0 elements (replicate 32 None).
Definition response : EvictionResponse := mkResponse (replicate 32 0) 0 7 7.
Definition start (elements : Z) : pctx := pctx_new (request elements) (request 7) response response.

Fixpoint ask_all (l : list nat) (s : provider) : result provider :=
  match l with
  | [] => Ok s
  | i :: l => c ← ask_owner (entry i) i (pv_ctx s); ask_all l (mkProvider c (<[i := locked (page_of i)]> (pv_frames s)))
  end.
Definition asked : provider := match ask_all (seq 0 17) (mkProvider (start 0) frames) with Ok s => s | Throw _ => mkProvider (start 0) frames end.
Definition sent : pctx := match send_request 0 0 [] (pv_ctx asked) with Ok (_, _, c) => c | Throw _ => start 0 end.
Definition final : provider := mkProvider sent (<[17%nat := frame (mkPID 2 5)]> (pv_frames asked)).

Lemma candidate (i : nat) r : (i < 17)%nat →
  candidate_step false 0 0 0 true false false 0 r (locked (page_of i)) = if er_full r then Ok DStop else Ok (DAsk (entry i)).
Proof.
  intros Hi. unfold candidate_step. generalize (er_full r) as b. intros b.
  do 17 (destruct i as [|i]; [destruct b; vm_compute; reflexivity|]). lia.
Qed.

Lemma asks l s s' : ask_all l s = Ok s' → NoDup l → Forall (λ i, (i < 17)%nat ∧ pv_frames s !! i = Some (frame (page_of i))) l →
  er_elements (current (outgoing (pv_ctx s))) + Z.of_nat (length l) <= batchSize → rtc (provider_step 0 0 1 0) s s'.
Proof.
  intros Hrun Hnd. revert s Hrun. induction Hnd as [|i l Hi Hnd IH]; intros s; cbn [ask_all]; [by intros [= ->]|].
  intros Hrun Hl Hs. apply bind_Ok_inv in Hrun as (c & Hc & Hrun). apply Forall_cons in Hl as [[Hi1 Hi2] Hl]. cbn [length] in Hs.
  assert (er_full (current (outgoing (pv_ctx s))) = false) as Hfull by (apply Z.eqb_neq; lia).
  eapply rtc_l; [|apply (IH _ Hrun)].
  - destruct s as [c0 fr]. cbn in *. eapply (PS_ask 0 0 1 0 false 0 0 false false 0 (sh_version (sh_init ∅)) i (frame (page_of i))); [done|reflexivity| | | |exact Hc].
    + reflexivity.
    + rewrite candidate by done. by rewrite Hfull.
    + do 17 (destruct i as [|i]; [vm_compute; reflexivity|]). lia.
  - apply Forall_forall. intros j Hj. cbn. pose proof (proj1 (Forall_forall _ _) Hl j Hj) as [? ?].
    rewrite lookup_insert_ne; [done|]. by intros ->.
  - unfold ask_owner, er_add in Hc. apply bind_Ok_inv in Hc as (r & Hr & Hc). apply Ok_inj in Hc as <-.
    apply bind_Ok_inv in Hr as (u & _ & Hr). apply bind_Ok_inv in Hr as (l' & _ & Hr). apply Ok_inj in Hr as <-. cbn. lia.
Qed.

Lemma frames_lookup i f : frames !! i = Some f → f = frame (page_of i) ∧ (i < 18)%nat.
Proof.
  intros Hf. apply elem_of_list_to_map_2, list_elem_of_fmap in Hf as (j & [= -> ->] & Hj%elem_of_seq). split; [done|lia].
Qed.

Lemma frames_start : frames_ok frames.
Proof.
  split.
  - intros i f [-> _]%frames_lookup. split; vm_compute; [split; congruence|done].
  - intros i j f g [-> Hi]%frames_lookup [-> Hj]%frames_lookup E _. cbn in E.
    assert (∀ k, (k < 18)%nat → page_of k = Z.shiftl 1 56 + Z.of_nat k) as Hp.
    { intros k Hk. do 18 (destruct k as [|k]; [vm_compute; reflexivity|]). lia. }
    rewrite !Hp in E by done. lia.
Qed.

Lemma asked_pids l s s' : ask_all l s = Ok s' → Forall (λ i, (i < 18)%nat) l →
  (∀ i f, pv_frames s !! i = Some f → bf_pid f = page_of i ∧ (i < 18)%nat) →
  ∀ i f, pv_frames s' !! i = Some f → bf_pid f = page_of i ∧ (i < 18)%nat.
Proof.
  revert s. induction l as [|j l IH]; intros s; cbn [ask_all]; [by intros [= ->]|].
  intros Hrun Hl Hs. apply bind_Ok_inv in Hrun as (c & _ & Hrun). apply Forall_cons in Hl as [Hj Hl]. apply (IH _ Hrun Hl).
  cbn. intros i f [[<- <-]|[_ Hf]]%lookup_insert_Some; [done|by apply Hs].
Qed.

Lemma reach_ok s : rtc (provider_step 0 0 1 0) (mkProvider (start 0) frames) s → provider_ok 1 0 s.
Proof.
  apply (rtc_ind_r (provider_ok 1 0)).
  - apply provider_new_ok; [reflexivity|reflexivity|reflexivity|apply frames_start].
  - intros x y _ Hs Hx. by eapply provider_step_ok.
Qed.

(** Another thread puts a page of node 2 into frame 17. *)
Lemma reuse c fr : provider_ok 1 0 (mkProvider c fr) → 17%nat ∉ inflight c →
  (∀ i f, fr !! i = Some f → bf_pid f = page_of i ∧ (i < 18)%nat) →
  provider_step 0 0 1 0 (mkProvider c fr) (mkProvider c (<[17%nat := frame (mkPID 2 5)]> fr)).
Proof.
  intros Hok Hin Hp. apply PS_other.
  - assert (∀ k, (k < 18)%nat → page_of k ≠ mkPID 2 5) as Hne.
    { intros k Hk. do 18 (destruct k as [|k]; [vm_compute; congruence|]). lia. }
    destruct (po_frames _ _ _ Hok) as [Hl Hu]. cbn in Hl, Hu. split.
    + intros i f [[<- <-]|[_ Hf]]%lookup_insert_Some; [split; vm_compute; [split; congruence|done]|by eapply Hl].
    + intros i j f g [[<- <-]|[Hi1 Hf]]%lookup_insert_Some [[<- <-]|[Hj1 Hg]]%lookup_insert_Some E Hn; [done| | |by eapply Hu].
      * destruct (Hp _ _ Hg) as [E1 Hj]. rewrite E1 in E. by destruct (Hne j Hj).
      * destruct (Hp _ _ Hf) as [E1 Hi]. rewrite E1 in E. by destruct (Hne i Hi).
  - intros i f Hi Hf. exists f. split; [|done]. rewrite lookup_insert_ne; [done|]. by intros <-.
Qed.

Lemma asked_runs : ask_all (seq 0 17) (mkProvider (start 0) frames) = Ok asked.
Proof. vm_compute. reflexivity. Qed.
Lemma sent_runs : ∃ r wcs, send_request 0 0 [] (pv_ctx asked) = Ok (r, wcs, sent).
Proof. do 2 eexists. vm_compute. reflexivity. Qed.
Lemma sent_inflight : 17%nat ∉ inflight sent.
Proof. apply (bool_decide_unpack _). vm_compute. exact I. Qed.

Lemma asked_reached : rtc (provider_step 0 0 1 0) (mkProvider (start 0) frames) asked.
Proof.
  apply (asks (seq 0 17)); [exact asked_runs|apply NoDup_seq| |vm_compute; congruence].
  apply Forall_forall. intros i Hi%elem_of_seq. split; [lia|]. do 17 (destruct i as [|i]; [vm_compute; reflexivity|]). lia.
Qed.

Lemma provider_eta s : s = mkProvider (pv_ctx s) (pv_frames s).
Proof. by destruct s. Qed.

Lemma run_reaches : rtc (provider_step 0 0 1 0) (mkProvider (start 0) frames) final.
Proof.
  assert (rtc (provider_step 0 0 1 0) (mkProvider (start 0) frames) (mkProvider sent (pv_frames asked))) as Hr.
  { eapply rtc_r; [exact asked_reached|]. destruct sent_runs as (r & wcs & Hs). rewrite (provider_eta asked) at 1.
    exact (PS_send 0 0 1 0 [] r wcs (pv_ctx asked) sent (pv_frames asked) Hs). }
  eapply rtc_r; [exact Hr|]. apply reuse; [exact (reach_ok _ Hr)|exact sent_inflight|].
  apply (asked_pids _ _ _ asked_runs).
  - apply Forall_forall. intros i Hi%elem_of_seq. lia.
  - intros i f [-> Hi]%frames_lookup. split; [reflexivity|exact Hi].
Qed.
End Run.

Lemma provider_requests_match_witness :
  rtc (provider_step (H:=Run.build) 0 0 1 0) (mkProvider (Run.start 0) Run.frames) Run.final ∧
  er_elements (prev (outgoing (pv_ctx Run.final))) = 17 ∧ pid_at (pv_frames Run.final) 17 = mkPID 2 5 ∧
  NoDup (map (pid_at (pv_frames Run.final)) (prev (inflightFrames (pv_ctx Run.final)))) ∧
  ∃ f, pv_frames Run.final !! 16%nat = Some f ∧ frame_latched f = true.
Proof.
  destruct (provider_requests_match (H:=Run.build) 0 0 1 0 (Run.request 0) (Run.request 7) Run.response Run.response Run.frames Run.final)
    as (_ & Hl & Hr & _); [reflexivity|reflexivity|reflexivity|apply Run.frames_start|apply Run.run_reaches|].
  split; [apply Run.run_reaches|]. split; [vm_compute; reflexivity|]. split; [vm_compute; reflexivity|].
  split; [apply Hr; vm_compute; reflexivity|].
  destruct (Hl 16%nat) as (f & Hf & Hlf & _); [apply (bool_decide_unpack _); vm_compute; exact I|].
  exists f. split; [exact Hf|exact Hlf].
Defined.

(** The number of elements of a fresh request matters: if the memory holds 5
    there, the first request names 5 entries nobody put in it; with 40 the
    first candidate fails the check of [add]. *)
Example uncleared_request_names_garbage : ∃ s sent wcs c,
  Run.ask_all (seq 0 12) (mkProvider (Run.start 5) Run.frames) = Ok s ∧ send_request 0 0 [] (pv_ctx s) = Ok (Some sent, wcs, c) ∧
  er_elements sent = 17 ∧ length (prev (inflightFrames c)) = 12%nat ∧ er_entries sent !! 0%nat = Some None.
Proof. do 4 eexists. split; [vm_compute; reflexivity|]. split; [vm_compute; reflexivity|]. split_and!; vm_compute; reflexivity. Qed.
Example uncleared_request_fails : ask_owner (Run.entry 0) 0 (Run.start 40) = Throw EnsureFailed.
Proof. reflexivity. Qed.

(** ** A request that is not empty is sent *)

(** [k] rounds of phase 4. *)
Fixpoint send_rounds (k : nat) (nodeId t_i : Z) (c : pctx) : result (option EvictionRequest * pctx) :=
  match k with
  | O => Ok (None, c)
  | S k =>
      '(sent, _, c) ← send_request nodeId t_i [false] c;
      match sent with Some r => Ok (Some r, c) | None => send_rounds k nodeId t_i c end
  end.

Lemma write_message_total c : 0 <= pp_wqe c < 2 ^ 64 → ∃ sig wcs c', write_message [false] c = Ok (sig, wcs, c').
Proof. intros H. unfold write_message. destruct (_ && _); cbn; by do 3 eexists. Qed.

Lemma send_now nodeId t_i c : 0 <= pp_wqe c < 2 ^ 64 → responseExpected c = false → 0 < er_elements (current (outgoing c)) →
  100 < er_failedSend (current (outgoing c)) ∨ minOutgoingElements < er_elements (current (outgoing c)) →
  ∃ wcs c', send_request nodeId t_i [false] c = Ok (Some (address nodeId t_i (current (outgoing c))), wcs, c') ∧ responseExpected c' = true.
Proof.
  intros Hw He Hel Hf. unfold send_request. rewrite He.
  rewrite (proj2 (orb_true_iff _ _)) by (rewrite andb_true_iff, !Z.ltb_lt; tauto).
  destruct (write_message_total c Hw) as (sig & wcs & c' & ->). cbn [mbind result_bind]. by do 2 eexists.
Qed.

Lemma send_later nodeId t_i c : responseExpected c = false → er_failedSend (current (outgoing c)) <= 100 → 0 <= er_failedSend (current (outgoing c)) →
  ¬ minOutgoingElements < er_elements (current (outgoing c)) →
  ∃ c', send_request nodeId t_i [false] c = Ok (None, [false], c') ∧ responseExpected c' = false ∧ pp_wqe c' = pp_wqe c ∧
    current (outgoing c') = with_failedSend (er_failedSend (current (outgoing c)) + 1) (current (outgoing c)).
Proof.
  intros He Hf H0 Hel. unfold send_request. rewrite He.
  rewrite (proj2 (Z.ltb_nlt _ _) Hel), (proj2 (Z.ltb_ge _ _) Hf). cbn [orb andb].
  eexists. split; [done|]. cbn. by rewrite u64_small by lia.
Qed.

Lemma send_rounds_sends k nodeId t_i c : (0 < k)%nat → 0 <= pp_wqe c < 2 ^ 64 → responseExpected c = false →
  0 < er_elements (current (outgoing c)) → 0 <= er_failedSend (current (outgoing c)) → 101 - er_failedSend (current (outgoing c)) < Z.of_nat k →
  ∃ r c', send_rounds k nodeId t_i c = Ok (Some r, c') ∧ er_entries r = er_entries (current (outgoing c)) ∧
    er_elements r = er_elements (current (outgoing c)) ∧ responseExpected c' = true.
Proof.
  revert c. induction k as [|k IH]; intros c Hk Hw He Hel Hf Hlt; [lia|]. cbn [send_rounds].
  destruct (decide (100 < er_failedSend (current (outgoing c)) ∨ minOutgoingElements < er_elements (current (outgoing c)))) as [Hgo|Hno].
  - destruct (send_now nodeId t_i c Hw He Hel Hgo) as (wcs & c' & -> & Hc'). cbn [mbind result_bind]. by do 2 eexists.
  - destruct (send_later nodeId t_i c He) as (c1 & -> & He1 & Hw1 & Hc1); [lia..|]. cbn [mbind result_bind].
    destruct (IH c1) as (r & c' & -> & H1 & H2 & H3); rewrite ?Hw1, ?Hc1 in *; cbn; try done; try lia. by exists r, c'.
Qed.

(** No request waits forever: once no response is outstanding, a request
    with at least one page is sent within 102 rounds, however few pages it
    has. *)
Theorem request_sent_eventually nodeId t_i c : 0 <= pp_wqe c < 2 ^ 64 → responseExpected c = false →
  0 < er_elements (current (outgoing c)) → 0 <= er_failedSend (current (outgoing c)) →
  ∃ r c', send_rounds 102 nodeId t_i c = Ok (Some r, c') ∧ er_entries r = er_entries (current (outgoing c)) ∧
    er_elements r = er_elements (current (outgoing c)) ∧ responseExpected c' = true.
Proof. intros Hw He Hel Hf. apply send_rounds_sends; try done; lia. Qed.

Lemma request_sent_eventually_witness : ∃ s r c',
  Run.ask_all [0]%nat (mkProvider (Run.start 0) Run.frames) = Ok s ∧ send_rounds 102 0 0 (pv_ctx s) = Ok (Some r, c') ∧ er_elements r = 1.
Proof.
  destruct (Run.ask_all [0]%nat (mkProvider (Run.start 0) Run.frames)) as [s|e] eqn:Ec; [|vm_compute in Ec; discriminate].
  vm_compute in Ec. injection Ec as <-.
  edestruct (request_sent_eventually 0 0) as (r & c' & H1 & _ & H2 & _); [| | | |eexists _, r, c'; split; [reflexivity|split; [exact H1|exact H2]]].
  - vm_compute. split; congruence.
  - reflexivity.
  - vm_compute. reflexivity.
  - vm_compute. congruence.
Defined.

(** ** Completions of writes *)

(** Once the counter of outstanding writes has passed its limit, no write is
    signalled and none is waited for, until a read completes. *)
Lemma wqe_overrun wcs c : maxOutstandingWrites < pp_wqe c → pp_wqe c + 1 < 2 ^ 64 →
  write_message wcs c = Ok (false, wcs, with_wqe (pp_wqe c + 1) (pollCompleted c) c).
Proof.
  intros Hw H64. unfold write_message. rewrite (proj2 (Z.eqb_neq (pp_wqe c) _)) by lia. cbn. rewrite u64_small by (unfold maxOutstandingWrites in *; lia). done.
Qed.
(** It passes it when the completion of the previous signalled write was already
    taken by the poll for a read. *)
Lemma wqe_passes_limit wcs c : pp_wqe c = maxOutstandingWrites → pollCompleted c = true →
  ∃ c', write_message wcs c = Ok (true, wcs, c') ∧ maxOutstandingWrites < pp_wqe c'.
Proof.
  intros Hw Hp. unfold write_message. rewrite Hw, Hp, Z.eqb_refl. cbn [andb negb mbind result_bind]. rewrite Hw, Hp.
  eexists. split; [done|]. cbn [pp_wqe with_wqe]. rewrite u64_small; unfold maxOutstandingWrites; lia.
Qed.
