(* ===== verification/PageSampling.v ===== *)
(** * storage/buffermanager/PageProvider: the sampling loop

    The loop that collects 600 epochs before pages are evicted to the SSD
    repeats windows until it has them.  It terminates when the partition holds
    one page that is cached, and the threshold it computes is an order statistic
    of the samples. *)

From S2P Require Import Prelude Defs Bitmap Latch BufferFrame RingBuffer Memory Bag PageTable PageTableInv PageTableSpec Eviction EvictionBatch PageProvider.
Local Open Scope Z_scope.

(** ** Traversals with a log of the visited frames *)

Section logged.
Context {S : Type} (frames_of : S → gmap nat BufferFrame).
Context (condition : nat → S → result (bool * S)).

Definition logged_condition (i : nat) (s : S * list nat) : result (bool * (S * list nat)) :=
  '(more, s') ← condition i s.1; Ok (more, (s', if (more : bool) then s.2 ++ [i] else s.2)).

Lemma level_erase k b_i w batch s l w' batch' s' l' :
  level (frames_of ∘ fst) logged_condition k b_i w batch (s, l) = Ok (w', batch', (s', l')) →
  level frames_of condition k b_i w batch s = Ok (w', batch', s').
Proof.
  revert b_i w batch s l. induction k as [|k IH]; intros b_i w batch s l; cbn [level]; [by intros [= <- <- <- <-]|].
  destruct (arr_get batch b_i) as [[i|]|]; cbn [mbind result_bind]; [|by apply IH|done].
  assert (logged_condition i (s, l) = '(more, s') ← condition i s; Ok (more, (s', if (more : bool) then l ++ [i] else l))) as -> by done.
  destruct (condition i s) as [[more s1]|]; cbn [mbind result_bind]; [|done].
  destruct more; cbn [negb]; [|by intros [= <- <- <- <-]]. change ((frames_of ∘ fst) (s1, l ++ [i])) with (frames_of s1).
  destruct (frames_of s1 !! i) as [f|]; cbn [of_option mbind result_bind]; [|done].
  destruct (bf_next f) as [j|]; [|by apply IH]. destruct (arr_set batch w (Some j)); cbn [mbind result_bind]; [by apply IH|done].
Qed.

Lemma traverse_erase fuel entries batch s l s' l' :
  traverse (frames_of ∘ fst) logged_condition Ok fuel entries batch (s, l) = Ok (s', l') →
  traverse frames_of condition Ok fuel entries batch s = Ok s'.
Proof.
  revert entries batch s l. induction fuel as [|fuel IH]; intros entries batch s l; cbn [traverse]; [done|].
  destruct (decide (entries = 0%nat)); [by intros [= <- <-]|].
  destruct (level _ _ _ _ _ _ (s, l)) as [[[w batch'] [s1 l1]]|] eqn:E; cbn [mbind result_bind]; [|done].
  apply level_erase in E. rewrite E. cbn [mbind result_bind]. apply IH.
Qed.
End logged.

(** ** Samples *)

Definition sampleable (fs : gmap nat BufferFrame) (i : nat) : Prop :=
  ∃ f, fs !! i = Some f ∧ ¬ (bf_state f = FREE ∨ bf_state f = EVICTED).
#[export] Instance sampleable_dec fs i : Decision (sampleable fs i).
Proof.
  unfold sampleable. destruct (fs !! i) as [f|]; [|right; naive_solver].
  destruct (decide (bf_state f = FREE ∨ bf_state f = EVICTED)); [right; naive_solver|left; eauto].
Defined.

Record sampling_ok (fs : gmap nat BufferFrame) (s : sampling) : Prop := mkSamplingOk {
  so_frames : sm_frames s = fs;
  so_epochs : Z.of_nat (length (sm_epochs s)) = required_samples;
  so_samples : 0 <= sm_samples s <= required_samples;
  so_from : Forall (λ e, ∃ i f, sampleable fs i ∧ fs !! i = Some f ∧ bf_epoch f = e) (take (Z.to_nat (sm_samples s)) (sm_epochs s));
}.

(** During a traversal that started with [base] samples. *)
Definition sampling_inv (fs : gmap nat BufferFrame) (base : Z) (x : sampling * list nat) : Prop :=
  sampling_ok fs x.1 ∧ sm_samples x.1 = base + Z.of_nat (length (filter (sampleable fs) x.2)).
Definition sampling_full (x : sampling * list nat) : Prop := sm_samples x.1 = required_samples.

Lemma sample_visits fs base : visits (sm_frames ∘ fst) snd (sampling_inv fs base) sampling_full (logged_condition sample_condition).
Proof.
  intros i [s l] [Hok Hn] [f Hf]. unfold compose in Hf. cbn [fst snd] in Hf, Hn, Hok. pose proof Hok as [Hfs He Hs Hfrom].
  unfold logged_condition, sample_condition, sampling_full. cbn [fst snd].
  destruct (Z.eqb_spec (sm_samples s) required_samples) as [E|E]; [right; by split|left].
  rewrite Hf. cbn [of_option mbind result_bind]. rewrite Hfs in Hf.
  destruct (decide (bf_state f = FREE ∨ bf_state f = EVICTED)) as [Hno|Hyes]; cbn [mbind result_bind].
  - eexists. split; [done|]. split; [|done]. split; [done|]. cbn. rewrite filter_app, length_app.
    rewrite (filter_cons_False _ i []) by (intros (g & Hg & Hn'); naive_solver). cbn. lia.
  - rewrite arr_setZ_lt by lia. cbn [mbind result_bind]. eexists. split; [done|].
    assert (sampleable fs i) as Hsi by (by exists f). split; [|done]. split.
    + constructor; cbn; [done|by rewrite length_insert|lia|].
      replace (Z.to_nat (sm_samples s + 1)) with (Datatypes.S (Z.to_nat (sm_samples s))) by lia.
      rewrite (take_S_r _ _ (bf_epoch f)) by (apply list_lookup_insert_eq; lia). rewrite take_insert_ge by lia.
      apply Forall_app. split; [done|]. constructor; [by exists i, f|done].
    + cbn. rewrite filter_app, length_app. rewrite (filter_cons_True _ i []) by done. cbn. lia.
Qed.

Lemma sample_keeps fs base : keeps_links (sm_frames ∘ fst) snd (sampling_inv fs base) sampling_full Ok.
Proof. intros s HI. exists s. by split_and!. Qed.

Section sampling.
Context {QF QP QI : Type} `{!FreeBag QF nat, !FreeBag QP nat, !FreeBag QI Z}.
Context (bm : @BM QF QP QI) (ch : nat → list nat) (Hwf : wf bm ch).

(** One window: all its cached pages were sampled, or the samples are complete. *)
Lemma sample_window b e batch s : sampling_ok (bfs bm) s → 0 <= b <= e → e <= pt_size bm → e - b <= pp_batch_size →
  ∃ s', batch_traverse_hashtable sm_frames sample_condition Ok (Datatypes.S (chain_fuel bm)) b e batch s = Ok s' ∧ sampling_ok (bfs bm) s' ∧
    (sm_samples s' = required_samples ∨
     sm_samples s' = sm_samples s + Z.of_nat (length (filter (sampleable (bfs bm)) (bucket_chains ch (map Z.to_nat (seqZ b (e - b))))))).
Proof.
  intros Hok Hbe He Hsz. pose proof Hok as [Hfs _ _ _].
  destruct (window_traversed (sm_frames ∘ fst) snd (sampling_inv (bfs bm) (sm_samples s)) sampling_full (logged_condition sample_condition) Ok
    bm ch b e batch (s, [])) as (_ & [s' l] & Hrun & [Hok' Hn] & Hres); try done.
  - apply sample_visits.
  - apply sample_keeps.
  - intros i [s1 l1] _ Hfull. unfold sampling_full in Hfull. cbn in Hfull. unfold logged_condition, sample_condition. cbn. by rewrite Hfull, Z.eqb_refl.
  - split; [done|]. cbn. lia.
  - exists s'. split; [|split; [done|]].
    + unfold batch_traverse_hashtable in *. destruct (ensure _); cbn [mbind result_bind] in *; [|done]. by apply traverse_erase in Hrun.
    + destruct Hres as [Hl|Hl]; [right|left; done]. cbn in Hl, Hn. by rewrite Hn, Hl.
Qed.

(** Buckets from the offset to [b], going round. *)
Definition distance (size b offset : Z) : Z := if offset <=? b then b - offset else b - offset + size.

Context (begin size b : Z) (pid : Z) (i : nat).
Hypothesis Hpart : 0 <= begin ∧ 0 < size ∧ begin + size <= pt_size bm.
Hypothesis Hb : 0 <= b < size ∧ Z.of_nat (bucket_of (pt_size bm) pid) = begin + b.
Hypothesis Hpage : maps bm ch pid i ∧ sampleable (bfs bm) i.

Lemma size_bound : pt_size bm + pp_batch_size < 2 ^ 64.
Proof.
  destruct (wf_size _ _ Hwf) as (k & Hk & ->). unfold pp_batch_size.
  assert (2 ^ k <= 2 ^ 63) by (apply Z.pow_le_mono_r; lia). lia.
Qed.

Lemma sample_loop_ok fuel offset batch s : sampling_ok (bfs bm) s → 0 <= offset < size →
  (required_samples - sm_samples s) * size + distance size b offset < Z.of_nat fuel →
  ∃ offset' s', sample_loop fuel (Datatypes.S (chain_fuel bm)) begin size offset batch s = Ok (offset', s') ∧ sampling_ok (bfs bm) s' ∧
    sm_samples s' = required_samples ∧ 0 <= offset' < size.
Proof.
  revert offset s. induction fuel as [|fuel IH]; intros offset s Hok Ho Hm; pose proof (so_samples _ _ Hok) as Hs; cbn [sample_loop].
  { exfalso. unfold distance in Hm. destruct (Z.leb_spec offset b); nia. }
  destruct (Z.ltb_spec (sm_samples s) required_samples) as [Hlt|Hge].
  2:{ exists offset, s. split_and!; try done; lia. }
  pose proof size_bound as H64. destruct (next_window_spec size offset Ho ltac:(lia)) as (e & -> & He).
  assert (offset < e <= size ∧ e - offset <= pp_batch_size) as Hwin by (unfold pp_batch_size in *; lia).
  destruct (sample_window (offset + begin) (e + begin) batch s Hok) as (s' & -> & Hok' & Hres); [lia..|]. cbn [mbind result_bind].
  pose proof (Z.mod_pos_bound e size ltac:(lia)) as Hmod. pose proof (so_samples _ _ Hok') as Hs'.
  apply IH; [done|done|]. clear IH.
  assert (distance size b (e `mod` size) < size ∧ 0 <= distance size b (e `mod` size)) as Hdist by (unfold distance; destruct (Z.leb_spec (e `mod` size) b); lia).
  destruct (decide (offset <= b < e)) as [Hin|Hout].
  - assert (sm_samples s < sm_samples s') as Hgrow.
    { destruct Hres as [->| ->]; [lia|]. assert (i ∈ filter (sampleable (bfs bm)) (bucket_chains ch (map Z.to_nat (seqZ (offset + begin) (e + begin - (offset + begin)))))) as Hi.
      { apply list_elem_of_filter. split; [apply Hpage|]. apply (window_page bm ch (offset + begin) (e + begin) pid); [lia|apply Hpage|lia]. }
      destruct (filter _ _); [by apply elem_of_nil in Hi|cbn; lia]. }
    unfold distance in Hm at 1. destruct (offset <=? b) eqn:E; [|apply Z.leb_gt in E; lia]. nia.
  - assert (sm_samples s <= sm_samples s') by (destruct Hres as [->| ->]; lia).
    assert (distance size b (e `mod` size) < distance size b offset) as Hd.
    { unfold distance. destruct (Z.eqb_spec e size) as [->|Hne].
      - rewrite Z_mod_same_full. destruct (Z.leb_spec 0 b), (Z.leb_spec offset b); lia.
      - rewrite Z.mod_small by lia. destruct (Z.leb_spec e b), (Z.leb_spec offset b); lia. }
    nia.
Qed.
End sampling.

(** ** The threshold *)

Lemma order_statistic (l : list Z) k : (k < length l)%nat → ∃ w : Z, merge_sort Z.le l !! k = Some w ∧ w ∈ l ∧
  (k < length (filter (λ e, e <= w)%Z l))%nat ∧ (length (filter (λ e, e < w)%Z l) <= k)%nat.
Proof.
  intros Hk. pose proof (merge_sort_Permutation Z.le l) as Hp. pose proof (StronglySorted_merge_sort Z.le l) as Hs.
  destruct (lookup_lt_is_Some_2 (merge_sort Z.le l) k) as [w Hw]; [by rewrite Hp|]. exists w. split; [done|].
  split; [rewrite <- (elem_of_Permutation_proper w _ _ Hp); by eapply list_elem_of_lookup_2|].
  rewrite <- Hp. clear Hp Hk. set (m := merge_sort Z.le l) in *. clearbody m.
  rewrite <- (take_drop (S k) m), !filter_app, !length_app. split.
  - rewrite (filter_all _ (take (S k) m)); [rewrite length_take; apply lookup_lt_Some in Hw; lia|].
    apply Forall_lookup. intros j x Hx. apply lookup_take_Some in Hx as [Hx Hj].
    destruct (decide (j = k)) as [->|]; [simplify_eq; lia|]. pose proof (ssorted_lookup_lt _ _ j k x w Hs Hx Hw). lia.
  - rewrite (filter_none _ (drop (S k) m)).
    + rewrite (take_S_r _ _ _ Hw), filter_app, (filter_cons_False _ w []), length_app by lia. cbn.
      pose proof (length_filter (λ e, e < w) (take k m)) as H. rewrite length_take in H. lia.
    + intros x (j & Hj)%list_elem_of_lookup. rewrite lookup_drop in Hj. pose proof (ssorted_lookup_lt _ _ k (S k + j) w x Hs Hw Hj). lia.
Qed.

(** [C22] The sampling of epochs terminates and gives the threshold it should.
    From whatever bucket of the partition the loop starts, if one page of the
    partition is cached and the table does not change meanwhile, it ends after
    at most [601 * size] windows with 600 samples, each the epoch of a cached page, and
    the threshold is the epoch at the wanted position of the sorted samples:
    more than [eviction_idx] samples are not above it, at most [eviction_idx]
    are below. *)
Theorem sampling_threshold {QF QP QI : Type} `{!FreeBag QF nat, !FreeBag QP nat, !FreeBag QI Z} (bm : @BM QF QP QI) ch begin size pid i
    offset0 eviction_idx batch epochs :
  wf bm ch → 0 <= begin ∧ 0 < size ∧ begin + size <= pt_size bm → maps bm ch pid i → sampleable (bfs bm) i →
  begin <= Z.of_nat (bucket_of (pt_size bm) pid) < begin + size → 0 <= offset0 < size → 0 <= eviction_idx < required_samples →
  Z.of_nat (length epochs) = required_samples →
  ∃ offset s w, sample_loop (Z.to_nat (601 * size)) (Datatypes.S (chain_fuel bm)) begin size offset0 batch (mkSampling 0 epochs (bfs bm)) = Ok (offset, s) ∧
    sm_samples s = required_samples ∧ eviction_threshold eviction_idx s = Ok w ∧
    Forall (λ e, ∃ i f, sampleable (bfs bm) i ∧ bfs bm !! i = Some f ∧ bf_epoch f = e) (sm_epochs s) ∧
    eviction_idx < Z.of_nat (length (filter (λ e, e <= w) (sm_epochs s))) ∧
    Z.of_nat (length (filter (λ e, e < w) (sm_epochs s))) <= eviction_idx.
Proof.
  intros Hw Hp Hm Hsa Hb Hoff Hidx Hlen. set (b := Z.of_nat (bucket_of (pt_size bm) pid) - begin).
  assert (sampling_ok (bfs bm) (mkSampling 0 epochs (bfs bm))) as H0 by (constructor; cbn; [done|done|unfold required_samples; lia|constructor]).
  destruct (sample_loop_ok bm ch Hw begin size b pid i Hp ltac:(lia) (conj Hm Hsa) (Z.to_nat (601 * size)) offset0 batch
    (mkSampling 0 epochs (bfs bm)) H0) as (offset & s & -> & [_ He _ Hfrom] & Hs & _); [lia| |].
  { unfold distance, required_samples. cbn. destruct (Z.leb_spec offset0 b); lia. }
  rewrite Hs in Hfrom. rewrite take_ge in Hfrom by lia.
  destruct (order_statistic (sm_epochs s) (Z.to_nat eviction_idx)) as (w & Hl & _ & H1 & H2); [lia|].
  exists offset, s, w. split; [done|]. split; [done|]. split.
  - unfold eviction_threshold. rewrite Hs, take_ge by lia. unfold arr_getZ. rewrite decide_True by lia. by apply arr_get_lookup.
  - split; [done|]. lia.
Qed.

Lemma sampling_threshold_witness : ∃ offset s w,
  sample_loop (Z.to_nat (601 * pt_size ex_alloc.2)) (Datatypes.S (chain_fuel ex_alloc.2)) 0 (pt_size ex_alloc.2) 1 []
    (mkSampling 0 (replicate 600 0) (bfs ex_alloc.2)) = Ok (offset, s) ∧ eviction_threshold 60 s = Ok w.
Proof.
  destruct ex_alloc_table as (f & _ & (ch & Hw & Hmaps) & _ & Hf & (_ & _ & _ & _ & _ & _ & Hs & _)).
  destruct (sampling_threshold ex_alloc.2 ch 0 (pt_size ex_alloc.2) (mkPID 3 5) ex_alloc.1 1 60 [] (replicate 600 0) Hw)
    as (offset & s & w & H1 & _ & H2 & _).
  - vm_compute. split; [congruence|]. split; congruence.
  - by apply Hmaps, lookup_singleton_eq.
  - exists f. split; [exact Hf|]. rewrite Hs. by intros [?|?].
  - vm_compute. split; congruence.
  - vm_compute. split; congruence.
  - unfold required_samples. lia.
  - by rewrite length_replicate.
  - exists offset, s, w. split; [exact H1|exact H2].
Defined.
