(* ===== verification/LinkedList.v ===== *)
(** * storage/datastructures/Vector.hpp: the linked list of pages

    A list of elements over pages: every page holds up to [maxEntries] elements
    and the identifier of the next page.  As in BTree.v the store of pages is a
    map, the operations run sequentially (the type is documented as not thread
    safe), and [alloc] is the identifier the buffer manager or the caller's
    allocation function hands out.  Following a link that is no page is
    undefined: the code would ask the buffer manager for the page [EMPTY_PID]. *)

From S2P Require Import Prelude Defs RingBuffer.
Local Open Scope Z_scope.

Section list.
Context {T : Type} (maxEntries : Z) (junk : list T) (alloc : gset Z → Z).

Record LinkedListNode := mkNode { ll_count : Z; ll_next : Z; ll_entries : list T }.
Notation store := (gmap Z LinkedListNode).
Implicit Types (st : store) (n : LinkedListNode) (pid : Z).

(** [allocate<LinkedListNode>()]: the entries are what the page held. *)
Definition node_new : LinkedListNode := mkNode 0 EMPTY_PID junk.
Definition isFull n : bool := ll_count n =? maxEntries.
Definition node_push (element : T) n : result LinkedListNode :=
  _ ← ensure (negb (isFull n));
  entries ← arr_setZ (ll_entries n) (ll_count n) element;
  Ok (mkNode (ll_count n +₆₄ 1) (ll_next n) entries).
Definition node_get (idx : Z) n : result T :=
  _ ← ensure (idx <? ll_count n);
  arr_getZ (ll_entries n) idx.

Definition get_node st pid : result LinkedListNode := of_option UndefinedBehaviour (st !! pid).

(** The constructor: the store and [head]. *)
Definition ll_new st : result (store * Z) :=
  let head := alloc (dom st) in
  let headNode := node_new in
  _ ← ensure (ll_count headNode =? 0);
  _ ← ensure (ll_next headNode =? EMPTY_PID);
  Ok (<[head := headNode]> st, head).

(** The loop to the last page. *)
Fixpoint last_page (fuel : nat) st pid : result Z :=
  match fuel with
  | O => Throw OutOfFuel
  | S fuel =>
      n ← get_node st pid;
      if negb (ll_next n =? EMPTY_PID) then last_page fuel st (ll_next n) else Ok pid
  end.
Definition page_fuel st : nat := S (size st).

(** A new page behind the page [pid]. *)
Definition append_page st pid : result (store * Z) :=
  let new := alloc (dom st) in
  let st := <[new := node_new]> st in
  n ← get_node st pid;
  Ok (<[pid := mkNode (ll_count n) new (ll_entries n)]> st, new).

Definition push (head : Z) (element : T) st : result store :=
  cur ← last_page (page_fuel st) st head;
  n ← get_node st cur;
  if isFull n then
    '(st, new) ← append_page st cur;
    n ← get_node st new;
    n ← node_push element n;
    Ok (<[new := n]> st)
  else
    n ← node_push element n;
    Ok (<[cur := n]> st).

(** The loop that all the [fill] functions share: [source k pid] is the k-th
    element, which may depend on the page it goes to.  Returns the pages that
    were allocated, too. *)
Fixpoint fill_loop (source : Z → Z → T) (k : nat) (elements cur : Z) st : result (list Z * store) :=
  match k with
  | O => Ok ([], st)
  | S k =>
      n ← get_node st cur;
      '(pids, st, cur) ←
        (if isFull n then '(st, new) ← append_page st cur; Ok ([new], st, new) else Ok ([], st, cur));
      n ← get_node st cur;
      n ← node_push (source elements cur) n;
      '(pids', st) ← fill_loop source k (elements + 1) cur (<[cur := n]> st);
      Ok (pids ++ pids', st)
  end.
Definition fill_with (head : Z) (source : Z → Z → T) (k : nat) st : result (list Z * store) :=
  cur ← last_page (page_fuel st) st head;
  fill_loop source k 0 cur st.

(** [fill] from a vector, from an iterator, and the two [fillNumbers]. *)
Definition fill `{!Inhabited T} (head : Z) (content : list T) st : result store :=
  '(_, st) ← fill_with head (λ k _, content !!! Z.to_nat k) (length content) st; Ok st.
Definition fill_from `{!Inhabited T} (head : Z) (content : list T) (numberElements : nat) st : result store :=
  '(_, st) ← fill_with head (λ k _, content !!! Z.to_nat k) numberElements st; Ok st.
Definition fillNumbers (of_Z : Z → T) (head : Z) (numberElements : nat) st : result store :=
  '(_, st) ← fill_with head (λ k _, of_Z k) numberElements st; Ok st.
Definition fillNumbers_with (incrFunction : Z → Z → T) (head : Z) (numberElements : nat) st : result (list Z * store) :=
  fill_with head incrFunction numberElements st.

(** [pages] pages further. *)
Fixpoint skip_pages (pages : nat) st pid : result Z :=
  match pages with
  | O => Ok pid
  | S pages => n ← get_node st pid; skip_pages pages st (ll_next n)
  end.

Definition get (head idx : Z) st : result T :=
  let pages := idx / maxEntries in
  cur ← skip_pages (Z.to_nat pages) st head;
  let page_idx := idx `mod` maxEntries in
  n ← get_node st cur;
  _ ← ensure (page_idx <? ll_count n);
  arr_getZ (ll_entries n) page_idx.

(** The two loops of [applyToRange]: [k] elements are left. *)
Fixpoint range_loop {S} (func : T → S → S) (fuel : nat) (k : nat) (page_idx cur : Z) st (s : S) : result S :=
  match fuel with
  | O => Throw OutOfFuel
  | Datatypes.S fuel =>
      match k with
      | O => Ok s
      | Datatypes.S k' =>
          n ← get_node st cur;
          if page_idx <? ll_count n then
            e ← arr_getZ (ll_entries n) page_idx;
            range_loop func fuel k' (page_idx + 1) cur st (func e s)
          else range_loop func fuel k 0 (ll_next n) st s
      end
  end.
Definition applyToRange {S} (func : T → S → S) (head startIdx endIdx : Z) st (s : S) : result S :=
  let pages := startIdx / maxEntries in
  cur ← skip_pages (Z.to_nat pages) st head;
  let page_idx := startIdx `mod` maxEntries in
  n ← get_node st cur;
  _ ← ensure (page_idx <? ll_count n);
  let k := Z.to_nat (endIdx - startIdx) in
  range_loop func (k + k + page_fuel st) k page_idx cur st s.

(** ** The list a store represents *)

Definition elems n : list T := take (Z.to_nat (ll_count n)) (ll_entries n).
Definition node_ok n : Prop := Z.of_nat (length (ll_entries n)) = maxEntries ∧ 0 <= ll_count n <= maxEntries.

(** The pages [p :: ps] in order hold [l]; all but the last are full. *)
Fixpoint seg st (p : Z) (ps : list Z) (l : list T) : Prop :=
  ∃ n, st !! p = Some n ∧ node_ok n ∧
  match ps with
  | [] => ll_next n = EMPTY_PID ∧ l = elems n
  | q :: ps => ll_next n = q ∧ q ≠ EMPTY_PID ∧ ll_count n = maxEntries ∧ ∃ l', l = elems n ++ l' ∧ seg st q ps l'
  end.
Definition repr st (head : Z) (l : list T) : Prop := ∃ ps, NoDup (head :: ps) ∧ seg st head ps l.

(** ** Proofs *)

Hypothesis Hmax : 0 < maxEntries < 2 ^ 64.
Hypothesis Hjunk : Z.of_nat (length junk) = maxEntries.
Hypothesis Halloc : ∀ X, alloc X ∉ X ∧ alloc X ≠ EMPTY_PID.

Definition last_of (p : Z) (ps : list Z) : Z := default p (last ps).
Lemma last_of_cons p q ps : last_of p (q :: ps) = last_of q ps.
Proof. unfold last_of. rewrite last_cons. by destruct (last ps). Qed.
Lemma last_of_elem p ps : last_of p ps ∈ p :: ps.
Proof. revert p. induction ps as [|q ps IH]; intros p; [by left|]. rewrite last_of_cons. right. apply IH. Qed.

Lemma seg_frame st st' p ps l : seg st p ps l → (∀ q, q ∈ p :: ps → st' !! q = st !! q) → seg st' p ps l.
Proof.
  revert p l. induction ps as [|q ps IH]; intros p l (n & Hn & Hok & H) Hs; exists n; (split; [by rewrite Hs by (by left)|]); split; try done.
  destruct H as (? & ? & ? & l' & -> & Hseg). split_and!; try done. exists l'. split; [done|]. apply IH; [done|].
  intros q' Hq'. apply Hs. by right.
Qed.

Lemma seg_dom st p ps l q : seg st p ps l → q ∈ p :: ps → is_Some (st !! q).
Proof.
  revert p l. induction ps as [|q' ps IH]; intros p l (n & Hn & _ & H) [->|Hq]%elem_of_cons; try by eexists.
  - by apply elem_of_nil in Hq.
  - destruct H as (_ & _ & _ & l' & _ & Hseg). by eapply IH.
Qed.

Lemma seg_length st p ps l : seg st p ps l → NoDup (p :: ps) → (length ps < size st)%nat.
Proof.
  intros Hs Hnd. assert (length (p :: ps) ≤ size st)%nat; [|cbn in *; lia].
  rewrite <- (size_list_to_set (C:=gset Z)) by done. rewrite <- size_dom. apply subseteq_size.
  intros q Hq. rewrite elem_of_list_to_set in Hq. apply elem_of_dom. by eapply seg_dom.
Qed.

(** The last page, and what replacing it does. *)
Lemma seg_end st p ps l : seg st p ps l → NoDup (p :: ps) →
  ∃ n l0, st !! last_of p ps = Some n ∧ node_ok n ∧ ll_next n = EMPTY_PID ∧ l = l0 ++ elems n ∧
    (∀ n', node_ok n' → ll_next n' = EMPTY_PID → seg (<[last_of p ps := n']> st) p ps (l0 ++ elems n')) ∧
    (∀ new m, new ∉ p :: ps → new ≠ EMPTY_PID → ll_count n = maxEntries → node_ok m → ll_next m = EMPTY_PID →
      seg (<[last_of p ps := mkNode (ll_count n) new (ll_entries n)]> (<[new := m]> st)) p (ps ++ [new]) (l ++ elems m)).
Proof.
  revert p l. induction ps as [|q ps IH]; intros p l Hs Hnd.
  - destruct Hs as (n & Hn & Hok & Hnx & ->). exists n, []. unfold last_of. cbn. split_and!; try done.
    + intros n' Hok' Hnx'. exists n'. rewrite lookup_insert_eq. by split_and!.
    + intros new m Hnew Hne Hc Hm Hmx. assert (p ≠ new) by set_solver. eexists. rewrite lookup_insert_eq. split; [done|].
      split; [done|]. cbn. split_and!; try done. exists (elems m). split; [done|]. exists m. rewrite lookup_insert_ne, lookup_insert_eq by done.
      by split_and!.
  - destruct Hs as (n & Hn & Hok & Hnx & Hq & Hc & l' & -> & Hs). apply NoDup_cons in Hnd as [Hp Hnd].
    destruct (IH q l' Hs Hnd) as (n1 & l0 & Hn1 & Hok1 & Hnx1 & -> & Hupd & Happ). rewrite last_of_cons.
    pose proof (last_of_elem q ps) as Hlast. assert (last_of q ps ≠ p) as Hne by congruence.
    exists n1, (elems n ++ l0). split_and!; try done; [by rewrite app_assoc| |].
    + intros n' Hok' Hnx'. exists n. rewrite lookup_insert_ne by done. split_and!; try done. exists (l0 ++ elems n').
      split; [by rewrite app_assoc|]. by apply Hupd.
    + intros new m Hnew Hne' Hc' Hm Hmx. apply not_elem_of_cons in Hnew as [Hnp Hnew]. exists n.
      rewrite !lookup_insert_ne by congruence. split_and!; try done. exists ((l0 ++ elems n1) ++ elems m). split; [by rewrite <- !app_assoc|].
      by apply Happ.
Qed.

Lemma last_page_ok fuel st p ps l : seg st p ps l → (length ps < fuel)%nat → last_page fuel st p = Ok (last_of p ps).
Proof.
  revert p ps l. induction fuel as [|fuel IH]; intros p ps l Hs Hf; [lia|]. cbn [last_page]. unfold get_node.
  destruct ps as [|q ps]; destruct Hs as (n & Hn & _ & H); rewrite Hn; cbn [of_option mbind result_bind].
  - destruct H as [-> _]. by rewrite Z.eqb_refl.
  - destruct H as (-> & Hq & _ & l' & _ & Hs). rewrite (proj2 (Z.eqb_neq _ _) Hq). cbn. rewrite last_of_cons. eapply IH; [done|]. cbn in Hf. lia.
Qed.

Lemma node_push_ok e n : node_ok n → isFull n = false → ∃ n', node_push e n = Ok n' ∧ node_ok n' ∧ ll_next n' = ll_next n ∧ elems n' = elems n ++ [e].
Proof.
  intros [Hl Hc] Hf. apply Z.eqb_neq in Hf. unfold node_push, isFull. rewrite (proj2 (Z.eqb_neq _ _) Hf). cbn [negb ensure mbind result_bind].
  rewrite arr_setZ_lt by lia. cbn [mbind result_bind]. rewrite u64_small by lia. eexists. split; [done|]. unfold node_ok, elems. cbn.
  rewrite length_insert. split_and!; try done; try lia.
  replace (Z.to_nat (ll_count n + 1)) with (S (Z.to_nat (ll_count n))) by lia.
  rewrite (take_S_r _ _ e) by (apply list_lookup_insert_eq; lia). by rewrite take_insert_ge by lia.
Qed.

Lemma node_new_ok : node_ok node_new ∧ elems node_new = [] ∧ isFull node_new = false.
Proof.
  unfold node_ok, isFull, elems. cbn [ll_count ll_entries node_new]. split; [lia|]. split; [done|]. apply Z.eqb_neq. lia.
Qed.

Lemma elems_length n : node_ok n → Z.of_nat (length (elems n)) = ll_count n.
Proof. intros [Hl Hc]. unfold elems. rewrite length_take. lia. Qed.

Lemma seg_count st p ps l n : seg st p ps l → st !! last_of p ps = Some n →
  Z.of_nat (length l) = Z.of_nat (length ps) * maxEntries + ll_count n ∧ ll_count n <= maxEntries.
Proof.
  revert p l. induction ps as [|q ps IH]; intros p l (m & Hm & Hok & H); [|rewrite last_of_cons]; intros Hn.
  - change (st !! p = Some n) in Hn. simplify_eq. destruct H as [_ ->]. rewrite elems_length by done. destruct Hok. cbn. lia.
  - destruct H as (_ & _ & Hc & l' & -> & Hs). destruct (IH q l' Hs Hn) as [H1 H2]. split; [|done].
    rewrite length_app, Nat2Z.inj_add, elems_length, H1, Hc by done. cbn [length]. lia.
Qed.

(** The list with its last page, which is not empty unless it is the only
    one. *)
Definition at_end st (head cur : Z) (l : list T) : Prop :=
  ∃ ps, NoDup (head :: ps) ∧ EMPTY_PID ∉ head :: ps ∧ seg st head ps l ∧ cur = last_of head ps ∧
    (ps = [] ∨ Z.of_nat (length ps) * maxEntries < Z.of_nat (length l)).

(** One element more: where it goes, and the store after it. *)
Lemma add_element st head cur l (source : Z → T) : at_end st head cur l →
  ∃ n pids st' cur' n', get_node st cur = Ok n ∧
    (if isFull n then '(st, new) ← append_page st cur; Ok ([new], st, new) else Ok ([], st, cur)) = Ok (pids, st', cur') ∧
    (n1 ← get_node st' cur'; node_push (source cur') n1) = Ok n' ∧
    at_end (<[cur' := n']> st') head cur' (l ++ [source cur']) ∧
    (∀ q, q ∈ dom st → q ≠ cur → <[cur' := n']> st' !! q = st !! q).
Proof.
  intros (ps & Hnd & He & Hs & -> & Hfill). destruct (seg_end st head ps l Hs Hnd) as (n & l0 & Hn & Hok & Hnx & -> & Hupd & Happ).
  exists n. unfold get_node. rewrite Hn. cbn [of_option]. destruct (isFull n) eqn:Hf.
  - destruct (Halloc (dom st)) as [Hfresh Hne]. set (new := alloc (dom st)) in *.
    assert (new ∉ head :: ps) as Hnew.
    { intros Hin. destruct (seg_dom _ _ _ _ _ Hs Hin) as [m Hm]. apply Hfresh. apply elem_of_dom. by eexists. }
    assert (last_of head ps ≠ new) as Hln by (intros E; apply Hnew; rewrite <- E; apply last_of_elem).
    destruct node_new_ok as (Hnk & Hne0 & Hnf). destruct (node_push_ok (source new) node_new Hnk Hnf) as (n' & Hp & Hok' & Hnx' & Hel).
    eexists [new], _, new, n'. split; [done|]. split.
    { unfold append_page. fold new. unfold get_node. rewrite lookup_insert_ne by done. rewrite Hn. cbn. done. }
    rewrite lookup_insert_ne, lookup_insert_eq by done. cbn. split; [exact Hp|]. split.
    + exists (ps ++ [new]). split_and!.
      * rewrite app_comm_cons. apply NoDup_app. split; [done|]. split; [|apply NoDup_singleton]. intros q Hq ->%list_elem_of_singleton. done.
      * rewrite app_comm_cons. intros [?|E%list_elem_of_singleton]%elem_of_app; [done|]. by rewrite E in Hne.
      * apply Z.eqb_eq in Hf. pose proof (Happ new n' Hnew Hne Hf Hok' Hnx') as Hseg. rewrite Hel, Hne0 in Hseg.
        eapply seg_frame; [exact Hseg|]. intros q _. rewrite insert_insert_ne by done. by rewrite insert_insert_eq.
      * unfold last_of. by rewrite last_snoc.
      * right. apply Z.eqb_eq in Hf. destruct (seg_count _ _ _ _ _ Hs Hn) as [Hlen _]. rewrite length_app. cbn [length].
        rewrite (length_app (_ ++ _)). cbn [length]. lia.
    + intros q Hq Hqc. rewrite !lookup_insert_ne; [done|congruence|congruence|]; intros ->; done.
  - destruct (node_push_ok (source (last_of head ps)) n Hok Hf) as (n' & Hp & Hok' & Hnx' & Hel).
    exists [], st, (last_of head ps), n'. split; [done|]. split; [done|]. rewrite Hn. cbn. split; [exact Hp|]. split.
    + exists ps. split_and!; try done.
      * rewrite <- app_assoc, <- Hel. apply Hupd; [done|]. by rewrite Hnx'.
      * destruct Hfill as [->|Hfill]; [by left|right]. rewrite length_app. lia.
    + intros q _ Hq. by rewrite lookup_insert_ne.
Qed.

(** What the operations keep: the list, and that no page has the empty
    identifier. *)
Definition list_ok st (head : Z) (l : list T) : Prop := st !! EMPTY_PID = None ∧ ∃ cur, at_end st head cur l.

Lemma at_end_last st head cur l : at_end st head cur l → last_page (page_fuel st) st head = Ok cur.
Proof.
  intros (ps & Hnd & _ & Hs & -> & _). eapply last_page_ok; [done|]. pose proof (seg_length _ _ _ _ Hs Hnd). unfold page_fuel. lia.
Qed.

Lemma add_keeps_empty st head cur l (source : Z → T) n pids st' cur' n' : at_end st head cur l → st !! EMPTY_PID = None → get_node st cur = Ok n →
  (if isFull n then '(st, new) ← append_page st cur; Ok ([new], st, new) else Ok ([], st, cur)) = Ok (pids, st', cur') →
  <[cur' := n']> st' !! EMPTY_PID = None.
Proof.
  intros (ps & _ & He & Hs & -> & _) Hempty Hn Hstep. assert (last_of head ps ≠ EMPTY_PID) as Hl by (intros E; apply He; rewrite <- E; apply last_of_elem).
  destruct (Halloc (dom st)) as [_ Hne]. destruct (isFull n); [|by inv_bind; rewrite lookup_insert_ne].
  unfold append_page in Hstep. inv_bind. by rewrite !lookup_insert_ne by done.
Qed.

Lemma push_ok st head l e : list_ok st head l → ∃ st', push head e st = Ok st' ∧ list_ok st' head (l ++ [e]).
Proof.
  intros [Hempty [cur Hend]]. unfold push. rewrite (at_end_last _ _ _ _ Hend). cbn [mbind result_bind].
  destruct (add_element st head cur l (λ _, e) Hend) as (n & pids & st' & cur' & n' & Hn & Hstep & Hpush & Hend' & _).
  pose proof (add_keeps_empty st head cur l (λ _, e) n pids st' cur' n' Hend Hempty Hn Hstep) as Hempty'.
  rewrite Hn. cbn [mbind result_bind]. destruct (isFull n).
  - destruct (append_page st cur) as [[st1 new]|]; cbn [mbind result_bind] in *; [|done]. injection Hstep as <- -> ->.
    destruct (get_node st' cur') as [n1|]; cbn [mbind result_bind] in *; [|done]. rewrite Hpush. cbn. eexists. split; [done|].
    split; [done|]. by exists cur'.
  - injection Hstep as <- -> ->. rewrite Hn in Hpush. cbn in Hpush. rewrite Hpush. cbn. eexists. split; [done|]. split; [done|]. by eexists.
Qed.

Lemma fill_loop_ok source k j st head cur l : st !! EMPTY_PID = None → at_end st head cur l →
  ∃ pids st' where_, fill_loop source k j cur st = Ok (pids, st') ∧ length where_ = k ∧
    list_ok st' head (l ++ imap (λ i pid, source (j + Z.of_nat i) pid) where_).
Proof.
  revert j st cur l. induction k as [|k IH]; intros j st cur l Hempty Hend; cbn [fill_loop].
  { exists [], st, []. cbn. rewrite app_nil_r. split; [done|]. split; [done|]. split; [done|]. by exists cur. }
  destruct (add_element st head cur l (source j) Hend) as (n & pids & st' & cur' & n' & Hn & Hstep & Hpush & Hend' & _).
  pose proof (add_keeps_empty st head cur l (source j) n pids st' cur' n' Hend Hempty Hn Hstep) as Hempty'.
  rewrite Hn. cbn [mbind result_bind]. rewrite Hstep. cbn [mbind result_bind].
  destruct (get_node st' cur') as [n1|]; cbn [mbind result_bind] in *; [|done]. rewrite Hpush. cbn [mbind result_bind].
  destruct (IH (j + 1) _ cur' _ Hempty' Hend') as (pids' & st2 & wh & -> & Hlen & Hl). cbn [mbind result_bind].
  exists (pids ++ pids'), st2, (cur' :: wh). split; [done|]. split; [cbn; lia|]. cbn [imap]. rewrite Z.add_0_r, <- app_assoc in *.
  erewrite imap_ext; [exact Hl|]. intros i x _. cbn. f_equal. lia.
Qed.

Lemma fill_with_ok source k st head l : list_ok st head l →
  ∃ pids st' where_, fill_with head source k st = Ok (pids, st') ∧ length where_ = k ∧
    list_ok st' head (l ++ imap (λ i pid, source (Z.of_nat i) pid) where_).
Proof.
  intros [Hempty [cur Hend]]. unfold fill_with. rewrite (at_end_last _ _ _ _ Hend). cbn [mbind result_bind].
  destruct (fill_loop_ok source k 0 st head cur l Hempty Hend) as (pids & st' & wh & H). by exists pids, st', wh.
Qed.

Lemma imap_const_list {A B} (f : nat → A) (w : list B) : imap (λ i _, f i) w = map f (seq 0 (length w)).
Proof.
  revert f. induction w as [|x w IH]; intros f; [done|]. cbn. f_equal. rewrite <- seq_shift, map_map.
  transitivity (imap (λ i (_ : B), (f ∘ S) i) w); [done|]. by rewrite IH.
Qed.

Lemma fill_ok `{!Inhabited T} st head l content : list_ok st head l →
  ∃ st', fill head content st = Ok st' ∧ list_ok st' head (l ++ content).
Proof.
  intros Hl. unfold fill. destruct (fill_with_ok (λ k _, content !!! Z.to_nat k) (length content) st head l Hl) as (pids & st' & wh & -> & Hlen & Hl').
  cbn. exists st'. split; [done|]. rewrite (imap_const_list (λ i, content !!! Z.to_nat (Z.of_nat i))), Hlen in Hl'.
  replace content with (map (λ i, content !!! Z.to_nat (Z.of_nat i)) (seq 0 (length content))); [done|].
  apply list_eq. intros i. change (map ?g ?x) with (g <$> x). rewrite list_lookup_fmap. destruct (decide (i < length content)%nat).
  - rewrite lookup_seq_lt by done. cbn. rewrite Nat2Z.id. symmetry. by apply list_lookup_lookup_total_lt.
  - rewrite lookup_seq_ge by lia. cbn. symmetry. apply lookup_ge_None. lia.
Qed.

(** ** Reading *)

Lemma skip_none pages st : st !! EMPTY_PID = None →
  (cur ← skip_pages pages st EMPTY_PID; get_node st cur) = Throw UndefinedBehaviour.
Proof. destruct pages; cbn; intros He; unfold get_node; by rewrite He. Qed.

Lemma elems_lookup n i : node_ok n → (i < Z.to_nat (ll_count n))%nat → elems n !! i = ll_entries n !! i.
Proof. intros Hok Hi. unfold elems. by rewrite lookup_take_lt. Qed.

(** The page an index is on. *)
Lemma skip_pages_ok st p ps l k : st !! EMPTY_PID = None → seg st p ps l →
  (∃ cur n l1 l2, skip_pages k st p = Ok cur ∧ st !! cur = Some n ∧ node_ok n ∧ l = l1 ++ elems n ++ l2 ∧
     Z.of_nat (length l1) = Z.of_nat k * maxEntries ∧ (l2 = [] ∨ ll_count n = maxEntries) ∧ ∃ ps', seg st cur ps' (elems n ++ l2) ∧ (length ps' + k = length ps)%nat) ∨
  (Z.of_nat (length l) <= Z.of_nat k * maxEntries ∧ (length ps < k)%nat ∧ (cur ← skip_pages k st p; get_node st cur) = Throw UndefinedBehaviour).
Proof.
  intros Hempty. revert p ps l. induction k as [|k IH]; intros p ps l Hs.
  { left. cbn. destruct ps as [|q ps]; pose proof Hs as (n & Hn & Hok & H).
    - destruct H as [Hx ->]. exists p, n, [], []. rewrite app_nil_r. split_and!; try done; [by left|]. exists []. split; [done|cbn; lia].
    - destruct H as (Hx & Hq & Hc & l' & -> & Hs'). exists p, n, [], l'. split_and!; try done; [by right|]. exists (q :: ps). split; [done|cbn; lia]. }
  cbn [skip_pages]. unfold get_node. destruct ps as [|q ps]; destruct Hs as (n & Hn & Hok & H); rewrite Hn; cbn [of_option mbind result_bind].
  - destruct H as [-> ->]. right. rewrite elems_length by done. destruct Hok. split; [nia|]. split; [cbn; lia|]. by apply skip_none.
  - destruct H as (-> & Hq & Hc & l' & -> & Hs'). destruct (IH q ps l' Hs') as [(cur & m & l1 & l2 & H1 & H2 & H3 & -> & H4 & H5 & ps' & H6 & H7)|(H1 & H2 & H3)].
    + left. exists cur, m, (elems n ++ l1), l2. split_and!; try done; [by rewrite <- app_assoc| |].
      { rewrite length_app, Nat2Z.inj_add, elems_length, H4, Hc by done. lia. }
      exists ps'. split; [done|cbn; lia].
    + right. split; [|split; [cbn; lia|done]]. rewrite length_app, Nat2Z.inj_add, elems_length by done. lia.
Qed.

(** The number of the last page of [len] elements. *)
Definition last_page_no (len : nat) : Z := Z.max 0 (Z.of_nat len - 1) / maxEntries.

Lemma last_page_no_ok st head l : list_ok st head l → ∃ ps, seg st head ps l ∧ NoDup (head :: ps) ∧ Z.of_nat (length ps) = last_page_no (length l).
Proof.
  intros [_ (cur & ps & Hnd & _ & Hs & -> & Hfill)]. exists ps. split; [done|]. split; [done|].
  destruct (seg_end st head ps l Hs Hnd) as (n & l0 & Hn & Hok & _). destruct (seg_count _ _ _ _ _ Hs Hn) as [Hlen Hle]. destruct Hok as [_ Hc].
  unfold last_page_no. destruct (Z.eq_dec (ll_count n) 0) as [E|E].
  - assert (ps = []) as -> by (destruct Hfill; [done|lia]). cbn in *. rewrite E in Hlen. rewrite Hlen. rewrite Z.max_l by lia. by rewrite Z.div_0_l by lia.
  - rewrite Z.max_r by lia. apply (Z.div_unique _ _ _ (ll_count n - 1)); lia.
Qed.

Lemma get_ok st head l idx : list_ok st head l → 0 <= idx →
  get head idx st = match l !! Z.to_nat idx with
                    | Some x => Ok x
                    | None => Throw (if idx / maxEntries <=? last_page_no (length l) then EnsureFailed else UndefinedBehaviour)
                    end.
Proof.
  intros Hlist Hi. destruct (last_page_no_ok _ _ _ Hlist) as (ps & Hs & _ & <-). destruct Hlist as [Hempty _]. unfold get.
  pose proof (Z.div_mod idx maxEntries ltac:(lia)) as Hdm. pose proof (Z.mod_pos_bound idx maxEntries ltac:(lia)) as Hm.
  assert (0 <= idx / maxEntries) as Hd by (apply Z.div_pos; lia). set (k := Z.to_nat (idx / maxEntries)).
  destruct (skip_pages_ok st head ps l k Hempty Hs) as [(cur & n & l1 & l2 & -> & Hn & Hok & -> & Hl1 & Hl2 & ps' & _ & Hps)|(Hlen & Hps & Hnone)].
  - cbn [mbind result_bind]. unfold get_node. rewrite Hn. cbn [of_option mbind result_bind]. pose proof Hok as [Hent Hc].
    rewrite lookup_app_r by lia. replace (Z.to_nat idx - length l1)%nat with (Z.to_nat (idx `mod` maxEntries)) by lia.
    destruct (Z.ltb_spec (idx `mod` maxEntries) (ll_count n)) as [Hlt|Hge]; cbn [ensure mbind result_bind].
    + rewrite lookup_app_l by (pose proof (elems_length n Hok); lia). rewrite elems_lookup by (done || lia).
      destruct (lookup_lt_is_Some_2 (ll_entries n) (Z.to_nat (idx `mod` maxEntries))) as [x Hx]; [lia|]. rewrite Hx.
      unfold arr_getZ. rewrite decide_True by lia. by apply arr_get_lookup.
    + destruct Hl2 as [->|Hfull]; [|lia]. rewrite app_nil_r, lookup_ge_None_2; [by rewrite (proj2 (Z.leb_le _ _)) by lia|].
      pose proof (elems_length n Hok). lia.
  - rewrite lookup_ge_None_2 by nia. rewrite (proj2 (Z.leb_gt _ _)) by lia.
    destruct (skip_pages k st head) as [cur|e]; cbn [mbind result_bind] in Hnone |- *; [by rewrite Hnone|by injection Hnone as ->].
Qed.

Lemma range_loop_ok {S} (func : T → S → S) fuel k i st cur ps l s n : seg st cur ps l → st !! cur = Some n → (i <= Z.to_nat (ll_count n))%nat →
  (i + k <= length l)%nat → (k + length ps < fuel)%nat →
  range_loop func fuel k (Z.of_nat i) cur st s = Ok (foldl (λ s e, func e s) s (take k (drop i l))).
Proof.
  revert k i cur ps l s n. induction fuel as [|fuel IH]; intros k i cur ps l s n Hs Hn Hi Hl Hf; [lia|].
  cbn [range_loop]. destruct k as [|k]; [done|]. unfold get_node. rewrite Hn. cbn [of_option mbind result_bind].
  assert (node_ok n) as Hok by (destruct ps; destruct Hs as (m & Hm & ? & _); by simplify_eq).
  pose proof Hok as [Hent Hc]. pose proof (elems_length n Hok) as Hel.
  destruct (Z.ltb_spec (Z.of_nat i) (ll_count n)) as [Hlt|Hge].
  - assert (l !! i = ll_entries n !! i) as Hx.
    { rewrite <- (elems_lookup n i Hok) by lia. destruct ps; destruct Hs as (m & Hm & _ & H); assert (m = n) as -> by congruence.
      - by destruct H as [_ ->].
      - destruct H as (_ & _ & _ & l' & -> & _). rewrite lookup_app_l; [done|]. lia. }
    destruct (lookup_lt_is_Some_2 (ll_entries n) i) as [x Hxe]; [lia|]. rewrite Hxe in Hx.
    unfold arr_getZ. rewrite decide_True, Nat2Z.id, (arr_get_lookup _ _ _ Hxe) by lia. cbn [mbind result_bind].
    replace (Z.of_nat i + 1) with (Z.of_nat (i + 1)) by lia. rewrite (IH k (i + 1)%nat cur ps l (func x s) n); try done; try lia.
    rewrite (drop_S _ _ _ Hx). cbn. by rewrite Nat.add_1_r.
  - destruct ps as [|q ps]; destruct Hs as (m & Hm & _ & H); assert (m = n) as -> by congruence.
    + destruct H as [_ ->]. lia.
    + destruct H as (-> & _ & _ & l' & -> & Hs). rewrite length_app in Hl. assert (i = length (elems n)) as -> by lia.
      rewrite drop_app_length. cbn [length] in Hf. assert (∃ m, st !! q = Some m) as [m Hm'] by (destruct ps; destruct Hs as (m & ? & _); by exists m).
      apply (IH (Datatypes.S k) 0%nat q ps l' s m); try done; lia.
Qed.

Lemma applyToRange_ok {S} (func : T → S → S) st head l startIdx endIdx s : list_ok st head l → 0 <= startIdx < Z.of_nat (length l) →
  startIdx <= endIdx <= Z.of_nat (length l) →
  applyToRange func head startIdx endIdx st s =
    Ok (foldl (λ s e, func e s) s (take (Z.to_nat (endIdx - startIdx)) (drop (Z.to_nat startIdx) l))).
Proof.
  intros [Hempty (cur0 & ps & Hnd & _ & Hs & _)] Hi He. unfold applyToRange.
  pose proof (Z.div_mod startIdx maxEntries ltac:(lia)) as Hdm. pose proof (Z.mod_pos_bound startIdx maxEntries ltac:(lia)) as Hm.
  assert (0 <= startIdx / maxEntries) as Hd by (apply Z.div_pos; lia).
  destruct (skip_pages_ok st head ps l (Z.to_nat (startIdx / maxEntries)) Hempty Hs)
    as [(cur & n & l1 & l2 & -> & Hn & Hok & -> & Hl1 & Hl2 & ps' & Hs' & Hps)|(Hlen & _)]; [|lia].
  cbn [mbind result_bind]. unfold get_node. rewrite Hn. cbn [of_option mbind result_bind].
  rewrite !length_app in Hi, He. pose proof (elems_length n Hok) as Hel.
  assert (startIdx `mod` maxEntries < ll_count n) as Hlt by (destruct Hl2 as [->|]; [cbn in *; lia|lia]).
  rewrite (proj2 (Z.ltb_lt _ _) Hlt). cbn [ensure mbind result_bind].
  replace (Z.to_nat startIdx) with (length l1 + Z.to_nat (startIdx `mod` maxEntries))%nat by lia. rewrite <- drop_drop, drop_app_length.
  rewrite <- (range_loop_ok func (Z.to_nat (endIdx - startIdx) + Z.to_nat (endIdx - startIdx) + page_fuel st) _ _ st cur ps' _ s n Hs' Hn).
  - by rewrite Z2Nat.id by lia.
  - lia.
  - rewrite length_app. lia.
  - pose proof (seg_length _ _ _ _ Hs Hnd). unfold page_fuel. lia.
Qed.

Lemma ll_new_ok st : st !! EMPTY_PID = None → ∃ st' head, ll_new st = Ok (st', head) ∧ list_ok st' head [].
Proof.
  intros He. destruct (Halloc (dom st)) as [_ Hne]. unfold ll_new. cbn. eexists _, _. split; [done|]. split; [by rewrite lookup_insert_ne|].
  exists (alloc (dom st)), []. split_and!; [apply NoDup_singleton|set_solver| |done|by left].
  exists node_new. rewrite lookup_insert_eq. destruct node_new_ok as (? & ? & _). by split_and!.
Qed.
End list.
Arguments LinkedListNode : clear implicits.

(** ** A list that is written and read *)

Inductive list_op (T : Type) := LPush (e : T) | LFill (content : list T).
Arguments LPush {T} _.
Arguments LFill {T} _.
Definition added {T} (o : list_op T) : list T := match o with LPush e => [e] | LFill content => content end.

Fixpoint list_run {T} `{!Inhabited T} (maxEntries : Z) (junk : list T) (alloc : gset Z → Z) (head : Z) (ops : list (list_op T))
    (st : gmap Z (LinkedListNode T)) : result (gmap Z (LinkedListNode T)) :=
  match ops with
  | [] => Ok st
  | o :: ops =>
      st ← (match o with LPush e => push maxEntries junk alloc head e st | LFill content => fill maxEntries junk alloc head content st end);
      list_run maxEntries junk alloc head ops st
  end.

(** [C25] The linked list of pages is a list: after any sequence of [push] and
    [fill] on a new list, [get] returns the i-th of the elements added so far;
    for an index behind them its check fails if the index would be on the last
    page, and otherwise, since the links are not checked, it follows the link of
    the last page, which is no page; [applyToRange] applies its function to the
    elements of a range inside the list, in order.  No page is written past its
    end. *)
Theorem linked_list_refines {T} `{!Inhabited T} maxEntries (junk : list T) alloc st ops :
  0 < maxEntries < 2 ^ 64 → Z.of_nat (length junk) = maxEntries → (∀ X, alloc X ∉ X ∧ alloc X ≠ EMPTY_PID) → st !! EMPTY_PID = None →
  let l := concat (map added ops) in
  ∃ st1 head st', ll_new junk alloc st = Ok (st1, head) ∧ list_run maxEntries junk alloc head ops st1 = Ok st' ∧
    (∀ idx, 0 <= idx → get maxEntries head idx st' =
       match l !! Z.to_nat idx with
       | Some x => Ok x
       | None => Throw (if idx / maxEntries <=? last_page_no maxEntries (length l) then EnsureFailed else UndefinedBehaviour)
       end) ∧
    ∀ S (func : T → S → S) b e s, 0 <= b < Z.of_nat (length l) → b <= e <= Z.of_nat (length l) →
      applyToRange maxEntries func head b e st' s = Ok (foldl (λ s x, func x s) s (take (Z.to_nat (e - b)) (drop (Z.to_nat b) l))).
Proof.
  intros Hmax Hjunk Halloc He l. destruct (ll_new_ok maxEntries junk alloc Hmax Hjunk Halloc st He) as (st1 & head & Hnew & Hok).
  assert (∀ ops st l0, list_ok maxEntries st head l0 →
    ∃ st', list_run maxEntries junk alloc head ops st = Ok st' ∧ list_ok maxEntries st' head (l0 ++ concat (map added ops))) as Hrun.
  { clear -Hmax Hjunk Halloc. induction ops as [|o ops IH]; intros st l0 Hok; cbn [list_run map concat].
    - exists st. by rewrite app_nil_r.
    - assert (∃ st2, (match o with LPush e => push maxEntries junk alloc head e st | LFill content => fill maxEntries junk alloc head content st end) = Ok st2 ∧
        list_ok maxEntries st2 head (l0 ++ added o)) as (st2 & -> & Hok2).
      { destruct o; [by apply push_ok|by apply fill_ok]. }
      cbn [mbind result_bind]. rewrite app_assoc. by apply IH. }
  destruct (Hrun ops st1 [] Hok) as (st' & Hr & Hok'). cbn [app] in Hok'. fold l in Hok'.
  exists st1, head, st'. split; [done|]. split; [done|]. split.
  - intros idx Hi. by eapply get_ok.
  - intros S func b e s Hb Hbe. by eapply applyToRange_ok.
Qed.

Definition ex_pages (X : gset Z) : Z := fresh ({[EMPTY_PID]} ∪ X).

Lemma linked_list_refines_witness : ∃ st1 head st',
  ll_new (replicate 2 0) ex_pages ∅ = Ok (st1, head) ∧
  list_run 2 (replicate 2 0) ex_pages head [LPush 5; LFill [6; 7; 8]; LPush 9] st1 = Ok st' ∧
  get 2 head 3 st' = Ok 8 ∧ get 2 head 5 st' = Throw EnsureFailed ∧ get 2 head 6 st' = Throw UndefinedBehaviour ∧
  applyToRange 2 (λ x (s : list Z), s ++ [x]) head 1 4 st' [] = Ok [6; 7; 8].
Proof.
  destruct (linked_list_refines 2 (replicate 2 0) ex_pages ∅ [LPush 5; LFill [6; 7; 8]; LPush 9]) as (st1 & head & st' & H1 & H2 & H3 & H4).
  - lia.
  - reflexivity.
  - intros X. pose proof (is_fresh ({[EMPTY_PID]} ∪ X)) as H. unfold ex_pages. set_solver.
  - apply lookup_empty.
  - exists st1, head, st'. split; [exact H1|]. split; [exact H2|]. split; [exact (H3 3 ltac:(lia))|]. split; [exact (H3 5 ltac:(lia))|].
    split; [exact (H3 6 ltac:(lia))|].
    rewrite (H4 (list Z) (λ x s, s ++ [x]) 1 4 []); [reflexivity|cbn; lia|cbn; lia].
Defined.
