(* ===== verification/Barrier.v ===== *)
(** * storage/datastructures/DistributedBarrier.hpp and storage/buffermanager/Catalog.hpp

    The barrier that all workers of the cluster share, and the catalog in which
    they find it.  Both live on one page.  A page that is fixed exclusively is
    changed by one worker at a time, and an optimistic read is repeated until it
    was undisturbed, so the critical sections are atomic steps; the barrier is
    the system of any number of workers that take them in any order. *)

From S2P Require Import Prelude Defs RingBuffer.
Local Open Scope Z_scope.

(** ** The barrier *)

Record Body := mkBody { threadCount : Z; cntr : Z; round : Z }.

Definition initialize (threads : Z) : Body := mkBody threads threads 0.
Definition barrier_new (threads : Z) : result Body :=
  let body := initialize threads in
  _ ← ensure (threadCount body =? threads);
  Ok body.

(** The exclusive section of [wait]: [None] for the last thread, which runs the
    finalizer and returns, else the round to wait for. *)
Definition arrive (b : Body) : option Z * Body :=
  let prevRound := round b in
  let prev := cntr b in
  let b := mkBody (threadCount b) (cntr b -₆₄ 1) (round b) in
  if prev =? 1 then (None, mkBody (threadCount b) (threadCount b) (u8 (round b + 1)))
  else (Some prevRound, b).

(** One iteration of the loop: whether [wait] returns. *)
Definition check_round (prevRound : Z) (b : Body) : bool := negb (round b =? prevRound).

(** A worker outside of [wait] or waiting, with the number of calls of [wait]
    it has completed. *)
Inductive worker := Outside (passed : nat) | Waiting (prevRound : Z) (passed : nat).

(** The barrier, the workers, and how often the finalizer ran. *)
Record system := mkSystem { sy_body : Body; sy_workers : list worker; sy_final : nat }.

Inductive bstep : system → system → Prop :=
| BArrive b ws g t k b' r :
    ws !! t = Some (Outside k) → arrive b = (Some r, b') →
    bstep (mkSystem b ws g) (mkSystem b' (<[t := Waiting r k]> ws) g)
| BLast b ws g t k b' :
    ws !! t = Some (Outside k) → arrive b = (None, b') →
    bstep (mkSystem b ws g) (mkSystem b' (<[t := Outside (S k)]> ws) (S g))
| BLeave b ws g t k r :
    ws !! t = Some (Waiting r k) → check_round r b = true →
    bstep (mkSystem b ws g) (mkSystem b (<[t := Outside (S k)]> ws) g).

Definition started (n : nat) (s : system) : Prop :=
  ∃ b, barrier_new (Z.of_nat n) = Ok b ∧ s = mkSystem b (replicate n (Outside 0)) 0.

Definition passed (w : worker) : nat := match w with Outside k | Waiting _ k => k end.
(** Calls of [wait] that were started. *)
Definition arrived (w : worker) : nat := match w with Outside k => k | Waiting _ k => S k end.
Definition is_waiting (w : worker) : Prop := match w with Waiting _ _ => True | _ => False end.

(** *** Invariant *)

(** Worker states in generation [g]: not arrived, waiting for the end of the
    generation, or released by the end of the last one. *)
Definition worker_ok (g : nat) (w : worker) : Prop :=
  match w with
  | Outside k => k = g
  | Waiting r k => r = u8 (Z.of_nat k) ∧ (k = g ∨ S k = g)
  end.
Definition blocked (g : nat) (w : worker) : Prop := match w with Waiting _ k => k = g | _ => False end.
#[export] Instance blocked_dec g w : Decision (blocked g w).
Proof. destruct w; cbn; apply _. Defined.

Record barrier_ok (n : nat) (s : system) : Prop := mkBarrierOk {
  bo_workers : length (sy_workers s) = n;
  bo_each : Forall (worker_ok (sy_final s)) (sy_workers s);
  bo_count : threadCount (sy_body s) = Z.of_nat n;
  bo_cntr : cntr (sy_body s) = Z.of_nat n - Z.of_nat (length (filter (blocked (sy_final s)) (sy_workers s)));
  bo_pos : (length (filter (blocked (sy_final s)) (sy_workers s)) < n)%nat;
  bo_round : round (sy_body s) = u8 (Z.of_nat (sy_final s));
}.

Lemma started_ok n s : (0 < n)%nat → started n s → barrier_ok n s.
Proof.
  intros Hn (b & Hb & ->). unfold barrier_new in Hb. inv_bind.
  assert (filter (blocked 0) (replicate n (Outside 0)) = []) as Hf.
  { apply filter_none. intros w [-> _]%elem_of_replicate. by intros []. }
  constructor; cbn [sy_workers sy_body sy_final]; rewrite ?Hf, ?length_replicate; cbn; try done; try lia.
  by apply Forall_replicate.
Qed.

Lemma bstep_ok n s s' : Z.of_nat n < 2 ^ 64 → barrier_ok n s → bstep s s' → barrier_ok n s'.
Proof.
  intros H64 [Hlen Heach Htc Hc Hp Hr] Hs. destruct Hs as [b ws g t k b' r Ht Ha|b ws g t k b' Ht Ha|b ws g t k r Ht Hcheck]; cbn in *.
  - pose proof (Forall_lookup_1 _ _ _ _ Heach Ht) as Hk. cbn in Hk. subst k. unfold arrive in Ha. destruct (Z.eqb_spec (cntr b) 1); [done|].
    injection Ha as <- <-. pose proof (filter_insert_length (blocked g) ws t (Outside g) (Waiting (round b) g) Ht) as Hf.
    rewrite decide_False, decide_True in Hf by (done || tauto). constructor; cbn; rewrite ?length_insert; try done.
    + apply Forall_insert; [done|]. split; [done|by left].
    + rewrite u64_small by lia. lia.
    + lia.
  - pose proof (Forall_lookup_1 _ _ _ _ Heach Ht) as Hk. cbn in Hk. subst k. unfold arrive in Ha. destruct (Z.eqb_spec (cntr b) 1) as [E|]; [|done].
    injection Ha as <-. destruct (filter_others (blocked g) ws t (Outside g) Ht) as [H1 H2]; [by intros []|lia|].
    assert (∀ w, worker_ok g w → blocked g w → worker_ok (S g) w ∧ ¬ blocked (S g) w) as Hrel.
    { intros [|r k]; cbn; [done|]. intros [-> _] ->. split_and!; [done|by right|lia]. }
    assert (∀ l, Forall (worker_ok g) l → Forall (blocked g) l → Forall (worker_ok (S g)) l ∧ filter (blocked (S g)) l = []) as Hl.
    { intros l Hok Hbl. split.
      - apply Forall_forall. intros w Hw. apply Hrel; [by apply (proj1 (Forall_forall _ _) Hok)|by apply (proj1 (Forall_forall _ _) Hbl)].
      - apply filter_none. intros w Hw. apply Hrel; [by apply (proj1 (Forall_forall _ _) Hok)|by apply (proj1 (Forall_forall _ _) Hbl)]. }
    assert (t < length ws)%nat as Htl by (by apply lookup_lt_Some in Ht).
    destruct (Hl _ (Forall_take _ t _ Heach) H1) as [Ht1 Hf1]. destruct (Hl _ (Forall_drop _ (S t) _ Heach) H2) as [Ht2 Hf2].
    constructor; cbn [sy_workers sy_body sy_final]; rewrite ?insert_take_drop by done.
    + rewrite length_app. cbn. rewrite length_take, length_drop. lia.
    + apply Forall_app. split; [done|]. by constructor.
    + done.
    + rewrite filter_app, filter_cons_False, Hf1, Hf2 by (by intros []). cbn. lia.
    + rewrite filter_app, filter_cons_False, Hf1, Hf2 by (by intros []). cbn. lia.
    + cbn. rewrite Hr. unfold u8. rewrite Zplus_mod_idemp_l. f_equal. lia.
  - pose proof (Forall_lookup_1 _ _ _ _ Heach Ht) as [-> Hk]. unfold check_round in Hcheck. rewrite Hr in Hcheck.
    destruct Hk as [->|Hk]; [by rewrite Z.eqb_refl in Hcheck|]. subst g.
    pose proof (filter_insert_length (blocked (S k)) ws t _ (Outside (S k)) Ht) as Hf.
    rewrite !decide_False in Hf by (cbn; try tauto; lia). constructor; cbn; rewrite ?length_insert; try done; try lia.
    by apply Forall_insert.
Qed.

Lemma barrier_reachable n s s' : (0 < n)%nat → Z.of_nat n < 2 ^ 64 → started n s → rtc bstep s s' → barrier_ok n s'.
Proof.
  intros Hn H64 Hs. apply (rtc_ind_r (barrier_ok n)); [by apply started_ok|]. intros x y _ Hstep Hx. by eapply bstep_ok.
Qed.

(** [C23] The barrier is one: in every interleaving of [n] workers, no worker has
    completed more calls of [wait] than any other has started, and the finalizer
    has run once per round: at least as often as any worker completed [wait],
    and only after every worker had arrived as often.  The 8-bit round number
    wraps around without harm. *)
Theorem barrier_safe n s s' : (0 < n)%nat → Z.of_nat n < 2 ^ 64 → started n s → rtc bstep s s' →
  ∀ t u w v, sy_workers s' !! t = Some w → sy_workers s' !! u = Some v →
    (passed w <= sy_final s')%nat ∧ (sy_final s' <= arrived v)%nat ∧ (passed w <= arrived v)%nat.
Proof.
  intros Hn H64 Hs Hr t u w v Hw Hv. pose proof (bo_each _ _ (barrier_reachable n s s' Hn H64 Hs Hr)) as He.
  pose proof (Forall_lookup_1 _ _ _ _ He Hw) as H1. pose proof (Forall_lookup_1 _ _ _ _ He Hv) as H2.
  destruct w, v; cbn in *; lia.
Qed.

(** [C24] The barrier does not block forever: whenever all workers wait, one of
    them can leave. *)
Theorem barrier_live n s s' : (0 < n)%nat → Z.of_nat n < 2 ^ 64 → started n s → rtc bstep s s' → Forall is_waiting (sy_workers s') →
  ∃ t r k, sy_workers s' !! t = Some (Waiting r k) ∧ check_round r (sy_body s') = true.
Proof.
  intros Hn H64 Hs Hr Hw. destruct (barrier_reachable n s s' Hn H64 Hs Hr) as [Hlen Heach _ _ Hp Hround].
  destruct (decide (Forall (blocked (sy_final s')) (sy_workers s'))) as [Hall|Hnot].
  - rewrite (filter_all _ _ Hall) in Hp. lia.
  - apply not_Forall_Exists in Hnot; [|intros w; apply blocked_dec]. apply Exists_exists in Hnot as (w & Hin & Hnb).
    apply list_elem_of_lookup in Hin as [t Ht]. pose proof (Forall_lookup_1 _ _ _ _ Hw Ht) as Hwt. pose proof (Forall_lookup_1 _ _ _ _ Heach Ht) as Hwo.
    destruct w as [|r k]; [done|]. exists t, r, k. split; [done|]. destruct Hwo as [-> [->|Hk]]; [by destruct Hnb|].
    unfold check_round. rewrite Hround, <- Hk. apply negb_true_iff, Z.eqb_neq. apply u8_succ_ne.
Qed.

(** Two workers: the first arrives and waits, the second ends the round and
    arrives again while the first has not noticed yet. *)
Module TwoWorkers.
Definition s0 : system := mkSystem (mkBody 2 2 0) [Outside 0; Outside 0] 0.
Definition s1 : system := mkSystem (mkBody 2 1 0) [Waiting 0 0; Outside 0] 0.
Definition s2 : system := mkSystem (mkBody 2 2 1) [Waiting 0 0; Outside 1] 1.
Definition s3 : system := mkSystem (mkBody 2 1 1) [Waiting 0 0; Waiting 1 1] 1.
Lemma run2 : rtc bstep s0 s2.
Proof.
  apply (rtc_l _ _ s1); [apply (BArrive (mkBody 2 2 0) [Outside 0; Outside 0] 0 0 0 (mkBody 2 1 0) 0); reflexivity|].
  apply rtc_once. apply (BLast (mkBody 2 1 0) [Waiting 0 0; Outside 0] 0 1 0 (mkBody 2 2 1)); reflexivity.
Qed.
Lemma run3 : rtc bstep s0 s3.
Proof. apply (rtc_r _ s2); [apply run2|]. apply (BArrive (mkBody 2 2 1) [Waiting 0 0; Outside 1] 1 1 1 (mkBody 2 1 1) 1); reflexivity. Qed.
Lemma start : started 2 s0.
Proof. exists (mkBody 2 2 0). split; reflexivity. Qed.
End TwoWorkers.

Lemma barrier_safe_witness : started 2 TwoWorkers.s0 ∧ rtc bstep TwoWorkers.s0 TwoWorkers.s2 ∧ passed (Outside 1) = 1%nat ∧
  (passed (Outside 1) <= arrived (Waiting 0 0))%nat.
Proof.
  split; [exact TwoWorkers.start|]. split; [exact TwoWorkers.run2|]. split; [reflexivity|].
  apply (barrier_safe 2 TwoWorkers.s0 TwoWorkers.s2 ltac:(lia) ltac:(lia) TwoWorkers.start TwoWorkers.run2 1%nat 0%nat); reflexivity.
Defined.

Lemma barrier_live_witness : rtc bstep TwoWorkers.s0 TwoWorkers.s3 ∧ Forall is_waiting (sy_workers TwoWorkers.s3) ∧
  ∃ t r k, sy_workers TwoWorkers.s3 !! t = Some (Waiting r k) ∧ check_round r (sy_body TwoWorkers.s3) = true.
Proof.
  assert (Forall is_waiting (sy_workers TwoWorkers.s3)) as Hw by (repeat constructor).
  split; [exact TwoWorkers.run3|]. split; [exact Hw|].
  exact (barrier_live 2 TwoWorkers.s0 TwoWorkers.s3 ltac:(lia) ltac:(lia) TwoWorkers.start TwoWorkers.run3 Hw).
Defined.

(** ** The catalog *)

Inductive DS_TYPE := DS_EMPTY | DS_BARRIER | DS_TABLE | DS_BTREE | DS_LLIST | DS_MISC.
#[export] Instance DS_TYPE_eq_dec : EqDecision DS_TYPE.
Proof. solve_decision. Defined.

Record CatalogEntry := mkCatEntry { ce_id : Z; ce_type : DS_TYPE; ce_pid : Z }.
Record CatalogPage := mkCatPage {
  datastructureIds : Z; numEntries : Z; isInitialized : bool; cat_entries : list CatalogEntry }.

(** [Catalog::init]: on the owner; the other nodes wait for the flag. *)
Definition cat_init (p : CatalogPage) : CatalogPage := mkCatPage (datastructureIds p) (numEntries p) true (cat_entries p).
Definition cat_ready (p : CatalogPage) : bool := isInitialized p.

Definition insertCatalogEntry (type : DS_TYPE) (pid : Z) (p : CatalogPage) : result (Z * CatalogPage) :=
  let tmp := datastructureIds p in
  entries ← arr_setZ (cat_entries p) tmp (mkCatEntry tmp type pid);
  Ok (tmp, mkCatPage (tmp +₆₄ 1) (numEntries p) (isInitialized p) entries).

(** One iteration of [getCatalogEntry]: [None] when the entry is not there yet. *)
Definition getCatalogEntry (id : Z) (p : CatalogPage) : result (option CatalogEntry) :=
  if id <=? datastructureIds p then
    e ← arr_getZ (cat_entries p) id;
    Ok (if decide (ce_type e = DS_EMPTY) then None else Some e)
  else Ok None.

Fixpoint register_all (l : list (DS_TYPE * Z)) (p : CatalogPage) : result (list Z * CatalogPage) :=
  match l with
  | [] => Ok ([], p)
  | (type, pid) :: l => '(id, p) ← insertCatalogEntry type pid p; '(ids, p) ← register_all l p; Ok (id :: ids, p)
  end.

Lemma register_all_ok l p : 0 <= datastructureIds p → datastructureIds p + Z.of_nat (length l) <= Z.of_nat (length (cat_entries p)) →
  Z.of_nat (length (cat_entries p)) < 2 ^ 64 →
  ∃ p', register_all l p = Ok (seqZ (datastructureIds p) (Z.of_nat (length l)), p') ∧
    datastructureIds p' = datastructureIds p + Z.of_nat (length l) ∧
    (∀ i, (i < Z.to_nat (datastructureIds p))%nat → cat_entries p' !! i = cat_entries p !! i) ∧
    ∀ i type pid, l !! i = Some (type, pid) →
      cat_entries p' !! (Z.to_nat (datastructureIds p) + i)%nat = Some (mkCatEntry (datastructureIds p + Z.of_nat i) type pid).
Proof.
  revert p. induction l as [|[type pid] l IH]; intros p H0 Hl H64; cbn [register_all].
  { exists p. cbn. rewrite Z.add_0_r. by split_and!. }
  cbn [length] in Hl |- *. unfold insertCatalogEntry. rewrite arr_setZ_lt by lia. cbn [mbind result_bind]. rewrite u64_small by lia.
  set (es := <[Z.to_nat (datastructureIds p) := mkCatEntry (datastructureIds p) type pid]> (cat_entries p)).
  assert (length es = length (cat_entries p)) as Hes by apply length_insert.
  destruct (IH (mkCatPage (datastructureIds p + 1) (numEntries p) (isInitialized p) es)) as (p' & -> & Hid & Hold & Hnew);
    cbn [datastructureIds cat_entries numEntries isInitialized] in *; [lia..|].
  cbn [mbind result_bind]. exists p'. split; [do 2 f_equal; rewrite (seqZ_cons (datastructureIds p)) by lia; f_equal; f_equal; lia|].
  split; [lia|]. split.
  - intros i Hi. rewrite Hold by lia. unfold es. by rewrite list_lookup_insert_ne by lia.
  - intros [|i] type' pid' Hi; cbn in Hi.
    + injection Hi as -> ->. rewrite Nat.add_0_r, Hold by lia. unfold es. rewrite list_lookup_insert_eq by lia. by rewrite Z.add_0_r.
    + apply Hnew in Hi. replace (Z.to_nat (datastructureIds p) + S i)%nat with (Z.to_nat (datastructureIds p + 1) + i)%nat by lia.
      rewrite Hi. do 2 f_equal. lia.
Qed.

(** What is registered in the catalog is found there: as long as the page
    has room, data structures registered one after the other get consecutive
    identifiers, and under each of them every node reads the type and the page
    it was registered with. *)
Theorem catalog_roundtrip l p : datastructureIds p = 0 → Z.of_nat (length l) <= Z.of_nat (length (cat_entries p)) →
  Z.of_nat (length (cat_entries p)) < 2 ^ 64 → Forall (λ x, x.1 ≠ DS_EMPTY) l →
  ∃ p', register_all l p = Ok (seqZ 0 (Z.of_nat (length l)), p') ∧
    ∀ i type pid, l !! i = Some (type, pid) → getCatalogEntry (Z.of_nat i) p' = Ok (Some (mkCatEntry (Z.of_nat i) type pid)).
Proof.
  intros H0 Hl H64 Hty. destruct (register_all_ok l p) as (p' & Hr & Hid & _ & Hnew); [lia..|]. rewrite H0 in *.
  exists p'. split; [done|]. intros i type pid Hi. pose proof (Hnew i type pid Hi) as He. change (Z.to_nat 0 + i)%nat with i in He. rewrite Z.add_0_l in He.
  unfold getCatalogEntry. rewrite (proj2 (Z.leb_le _ _)) by (apply lookup_lt_Some in Hi; lia).
  unfold arr_getZ. rewrite decide_True, Nat2Z.id, (arr_get_lookup _ _ _ He) by lia. cbn [mbind result_bind].
  pose proof (Forall_lookup_1 _ _ _ _ Hty Hi) as Hne. cbn in Hne. by rewrite decide_False.
Qed.

Lemma catalog_roundtrip_witness :
  let p := mkCatPage 0 0 true (replicate 3 (mkCatEntry 0 DS_EMPTY 0)) in
  ∃ p', register_all [(DS_BTREE, 7); (DS_BARRIER, 9)] p = Ok ([0; 1], p') ∧ getCatalogEntry 1 p' = Ok (Some (mkCatEntry 1 DS_BARRIER 9)).
Proof.
  intros p. destruct (catalog_roundtrip [(DS_BTREE, 7); (DS_BARRIER, 9)] p) as (p' & H1 & H2).
  - reflexivity.
  - cbn. lia.
  - cbn. lia.
  - repeat constructor; by cbn.
  - exists p'. split; [exact H1|]. apply (H2 1%nat). reflexivity.
Defined.

(** There is no test for room: with a full page the next registration writes
    behind the array. *)
Lemma catalog_overflow type pid p : datastructureIds p = Z.of_nat (length (cat_entries p)) →
  insertCatalogEntry type pid p = Throw UndefinedBehaviour.
Proof. intros H. unfold insertCatalogEntry, arr_setZ, arr_set. rewrite H, decide_True, decide_False by lia. done. Qed.
