(* ===== verification/LockFreeQueue.v ===== *)
(** * The lock-free queue

    [utils/MPMCQueue.hpp]: a bounded queue for many producers and consumers.  A
    slot has a turn, and an operation takes a ticket: the push with ticket [h]
    waits for the even turn [2 * turn(h)] of its slot, the pop with the same
    ticket for the odd turn behind it.

    The operations are cut at their atomic loads, stores and read-modify-writes;
    threads interleave between them.  The construction and destruction of the
    element, which are not atomic, are steps of their own. *)

From S2P Require Import Prelude Defs RingBuffer.
Local Open Scope Z_scope.

Section queue.
Context {T : Type} (POWER_TWO : bool).

Record slot := mkSlot { sl_turn : Z; sl_storage : option T }.
Record queue := mkQueue { q_capacity : Z; q_bits : Z; q_slots : list slot; q_head : Z; q_tail : Z }.

(** [__builtin_clzll] *)
Definition clzll (n : Z) : result Z := if n =? 0 then Throw UndefinedBehaviour else Ok (63 - Z.log2 n).

Definition queue_new (capacity : Z) : result queue :=
  clz ← clzll capacity;
  let bits := 64 -₆₄ clz -₆₄ 1 in
  if capacity <? 1 then Throw InvalidArgument
  else if POWER_TWO && negb (powerOfTwo capacity) then Throw InvalidArgument
  else Ok (mkQueue capacity bits (replicate (Z.to_nat capacity) (mkSlot 0 None)) 0 0).

Definition idx (q : queue) (i : Z) : Z :=
  if POWER_TWO then Z.land i (q_capacity q -₆₄ 1) else i `mod` q_capacity q.
Definition turn (q : queue) (i : Z) : Z :=
  if POWER_TWO then Z.shiftr i (q_bits q) else i `div` q_capacity q.

Definition set_head h (q : queue) : queue := mkQueue (q_capacity q) (q_bits q) (q_slots q) h (q_tail q).
Definition set_tail t (q : queue) : queue := mkQueue (q_capacity q) (q_bits q) (q_slots q) (q_head q) t.
Definition slot_at (q : queue) (i : Z) : result slot := arr_getZ (q_slots q) (idx q i).
Definition set_slot (q : queue) (i : Z) (sl : slot) : result queue :=
  slots ← arr_setZ (q_slots q) (idx q i) sl;
  Ok (mkQueue (q_capacity q) (q_bits q) slots (q_head q) (q_tail q)).

(** ** Threads *)

Inductive op := OPush (v : T) | OTryPush (v : T) | OPop | OTryPop.
Inductive answer := RPush (b : bool) | RPop (v : option T).

Inductive pc :=
(** [emplace]: waits for its turn *)
| EWait (v : T) (h : Z)
(** [try_emplace]: reads the turn; exchanges the head; reads the head again *)
| TryE (v : T) (h : Z)
| TryECas (v : T) (h : Z)
| TryERe (v : T) (h : Z)
(** both: the element is constructed, the turn is stored *)
| Construct (v : T) (h : Z)
| PublishE (v : T) (h : Z)
(** [pop] and [try_pop] *)
| PWait (t : Z)
| TryP (t : Z)
| TryPCas (t : Z)
| TryPRe (t : Z)
| MoveOut (t : Z)
| Destroy (t : Z) (v : T)
| Release (t : Z) (v : T)
| Returned (r : answer).

(** [y_pushed] and [y_popped] are the history: the elements in the order of
    their tickets, and what was read with which ticket. *)
Record sys := mkSys { y_q : queue; y_threads : gmap nat pc; y_pushed : list T; y_popped : list (Z * T) }.
Implicit Types (s : sys) (i : nat) (h t : Z) (v : T).

Definition goto i (p : pc) s : sys := mkSys (y_q s) (<[i := p]> (y_threads s)) (y_pushed s) (y_popped s).
Definition with_q (q : queue) s : sys := mkSys q (y_threads s) (y_pushed s) (y_popped s).
(** The head or the tail is advanced. *)
Definition issue_push v s : sys :=
  mkSys (set_head (q_head (y_q s) +₆₄ 1) (y_q s)) (y_threads s) (y_pushed s ++ [v]) (y_popped s).
Definition issue_pop s : sys :=
  mkSys (set_tail (q_tail (y_q s) +₆₄ 1) (y_q s)) (y_threads s) (y_pushed s) (y_popped s).

(** [push], [try_push], [pop] and [try_pop] up to their first atomic access. *)
Definition start i (o : op) s : result sys :=
  match y_threads s !! i with
  | None | Some (Returned _) =>
      let q := y_q s in
      Ok match o with
         | OPush v => goto i (EWait v (q_head q)) (issue_push v s)
         | OTryPush v => goto i (TryE v (q_head q)) s
         | OPop => goto i (PWait (q_tail q)) (issue_pop s)
         | OTryPop => goto i (TryP (q_tail q)) s
         end
  | _ => Throw WouldBlock
  end.

Definition push_turn (q : queue) h : Z := turn q h *₆₄ 2.
Definition pop_turn (q : queue) t : Z := turn q t *₆₄ 2 +₆₄ 1.

(** The next atomic access of thread [i]. *)
Definition advance i s : result sys :=
  let q := y_q s in
  match y_threads s !! i with
  | Some (EWait v h) =>
      sl ← slot_at q h;
      if push_turn q h =? sl_turn sl then Ok (goto i (Construct v h) s) else Throw WouldBlock
  | Some (TryE v h) =>
      sl ← slot_at q h;
      Ok (if push_turn q h =? sl_turn sl then goto i (TryECas v h) s else goto i (TryERe v h) s)
  | Some (TryECas v h) =>
      Ok (if q_head q =? h then goto i (Construct v h) (issue_push v s) else goto i (TryE v (q_head q)) s)
  | Some (TryERe v h) =>
      Ok (if q_head q =? h then goto i (Returned (RPush false)) s else goto i (TryE v (q_head q)) s)
  | Some (Construct v h) =>
      sl ← slot_at q h;
      q ← set_slot q h (mkSlot (sl_turn sl) (Some v));
      Ok (goto i (PublishE v h) (with_q q s))
  | Some (PublishE v h) =>
      sl ← slot_at q h;
      q ← set_slot q h (mkSlot (push_turn q h +₆₄ 1) (sl_storage sl));
      Ok (goto i (Returned (RPush true)) (with_q q s))
  | Some (PWait t) =>
      sl ← slot_at q t;
      if pop_turn q t =? sl_turn sl then Ok (goto i (MoveOut t) s) else Throw WouldBlock
  | Some (TryP t) =>
      sl ← slot_at q t;
      Ok (if pop_turn q t =? sl_turn sl then goto i (TryPCas t) s else goto i (TryPRe t) s)
  | Some (TryPCas t) =>
      Ok (if q_tail q =? t then goto i (MoveOut t) (issue_pop s) else goto i (TryP (q_tail q)) s)
  | Some (TryPRe t) =>
      Ok (if q_tail q =? t then goto i (Returned (RPop None)) s else goto i (TryP (q_tail q)) s)
  | Some (MoveOut t) =>
      sl ← slot_at q t;
      v ← of_option UndefinedBehaviour (sl_storage sl);
      Ok (goto i (Destroy t v) (mkSys q (y_threads s) (y_pushed s) (y_popped s ++ [(t, v)])))
  | Some (Destroy t v) =>
      sl ← slot_at q t;
      q ← set_slot q t (mkSlot (sl_turn sl) None);
      Ok (goto i (Release t v) (with_q q s))
  | Some (Release t v) =>
      sl ← slot_at q t;
      q ← set_slot q t (mkSlot (turn q t *₆₄ 2 +₆₄ 2) (sl_storage sl));
      Ok (goto i (Returned (RPop (Some v))) (with_q q s))
  | Some (Returned _) | None => Throw WouldBlock
  end.

Inductive action := AStart (i : nat) (o : op) | AStep (i : nat).
Definition exec (a : action) s : result sys :=
  match a with AStart i o => start i o s | AStep i => advance i s end.

(** The counters have not reached the end of their range. *)
Definition tickets_left s : Prop := q_head (y_q s) < 2 ^ 62 ∧ q_tail (y_q s) < 2 ^ 62.
Definition step s s' : Prop := ∃ a, tickets_left s ∧ exec a s = Ok s'.

Definition initial (capacity : Z) s : Prop :=
  0 <= capacity < 2 ^ 32 ∧ ∃ q, queue_new capacity = Ok q ∧ s = mkSys q ∅ [] [].
Definition mpmc_reachable (capacity : Z) s : Prop := ∃ s0, initial capacity s0 ∧ rtc step s0 s.

(** ** Slots *)

Definition q_ok (q : queue) : Prop :=
  1 <= q_capacity q < 2 ^ 32 ∧ Z.of_nat (length (q_slots q)) = q_capacity q ∧
  (POWER_TWO = true → 0 <= q_bits q ∧ q_capacity q = 2 ^ q_bits q).

(** The arithmetic on powers of two agrees with division. *)
Lemma idx_spec q h : q_ok q → idx q h = h `mod` q_capacity q.
Proof.
  intros ([? ?] & _ & Hp). unfold idx. destruct POWER_TWO; [|done]. destruct (Hp eq_refl) as [? E].
  rewrite u64_small by lia. rewrite E. by apply land_ones_mod.
Qed.
Lemma turn_spec q h : q_ok q → turn q h = h `div` q_capacity q.
Proof.
  intros (_ & _ & Hp). unfold turn. destruct POWER_TWO; [|done]. destruct (Hp eq_refl) as [? ->].
  by apply Z.shiftr_div_pow2.
Qed.

Lemma queue_new_ok capacity : 0 <= capacity < 2 ^ 32 →
  match queue_new capacity with
  | Ok q => q_ok q ∧ q_capacity q = capacity ∧ q_head q = 0 ∧ q_tail q = 0 ∧ q_slots q = replicate (Z.to_nat capacity) (mkSlot 0 None)
  | Throw e => if capacity =? 0 then e = UndefinedBehaviour else e = InvalidArgument ∧ POWER_TWO = true ∧ powerOfTwo capacity = false
  end.
Proof.
  intros Hc. unfold queue_new, clzll. destruct (Z.eqb_spec capacity 0) as [|Hz]; [done|]. cbn [mbind result_bind].
  rewrite (proj2 (Z.ltb_ge _ _)) by lia. destruct (POWER_TWO && negb (powerOfTwo capacity)) eqn:E.
  { apply andb_true_iff in E as [-> ->%negb_true_iff]. done. }
  cbn. split; [|done]. split; [cbn; lia|]. cbn. split; [rewrite length_replicate; lia|]. intros ->. cbn in E. apply negb_false_iff in E.
  assert (0 <= Z.log2 capacity < 32) as Hl by (split; [apply Z.log2_nonneg|apply Z.log2_lt_pow2; lia]).
  assert (u64 (u64 (64 - (63 - Z.log2 capacity)) - 1) = Z.log2 capacity) as -> by (rewrite !u64_small; rewrite ?u64_small; lia).
  split; [lia|]. apply powerOfTwo_inv; [lia|done].
Qed.

(** ** The invariant *)

(** The turn and the contents of the slot of a ticket. *)
Definition slot_of s h : slot := default (mkSlot 0 None) (q_slots (y_q s) !! Z.to_nat (h `mod` q_capacity (y_q s))).
Definition tn s h : Z := sl_turn (slot_of s h).
Definition val s h : option T := sl_storage (slot_of s h).
Definition round s h : Z := h `div` q_capacity (y_q s).

Definition push_ticket (p : pc) : option Z :=
  match p with EWait _ h | Construct _ h | PublishE _ h => Some h | _ => None end.
Definition pop_ticket (p : pc) : option Z :=
  match p with PWait t | MoveOut t | Destroy t _ | Release t _ => Some t | _ => None end.

Definition pushed_at s h : option T := y_pushed s !! Z.to_nat h.
Definition was_read s t : Prop := t ∈ (y_popped s).*1.
Notation head s := (q_head (y_q s)).
Notation tail s := (q_tail (y_q s)).

(** What a thread knows where it is. *)
Definition pc_ok s (p : pc) : Prop :=
  match p with
  | EWait v h => 0 <= h < head s ∧ pushed_at s h = Some v ∧ tn s h <= 2 * round s h
  | Construct v h => 0 <= h < head s ∧ pushed_at s h = Some v ∧ tn s h = 2 * round s h
  | PublishE v h => 0 <= h < head s ∧ pushed_at s h = Some v ∧ tn s h = 2 * round s h ∧ val s h = Some v
  | TryE _ h | TryERe _ h => 0 <= h <= head s
  | TryECas _ h => 0 <= h <= head s ∧ 2 * round s h <= tn s h
  | PWait t => 0 <= t < tail s ∧ ¬ was_read s t ∧ tn s t <= 2 * round s t + 1
  | MoveOut t => 0 <= t < tail s ∧ ¬ was_read s t ∧ tn s t = 2 * round s t + 1 ∧ val s t = pushed_at s t
  | Destroy t v | Release t v => 0 <= t < tail s ∧ (t, v) ∈ y_popped s ∧ tn s t = 2 * round s t + 1
  | TryP t | TryPRe t => 0 <= t <= tail s
  | TryPCas t => 0 <= t <= tail s ∧ 2 * round s t + 1 <= tn s t
  | Returned (RPop (Some v)) => ∃ t, (t, v) ∈ y_popped s
  | Returned _ => True
  end.

Record inv s : Prop := mkInv {
  i_q : q_ok (y_q s);
  i_head : head s = Z.of_nat (length (y_pushed s));
  i_tail : 0 <= tail s;
  i_pc i p : y_threads s !! i = Some p → pc_ok s p;
  i_push_one i j p p' h : y_threads s !! i = Some p → y_threads s !! j = Some p' →
    push_ticket p = Some h → push_ticket p' = Some h → i = j;
  i_pop_one i j p p' t : y_threads s !! i = Some p → y_threads s !! j = Some p' →
    pop_ticket p = Some t → pop_ticket p' = Some t → i = j;
  i_push_issued h : 0 <= h → 2 * round s h < tn s h → h < head s;
  i_pop_issued t : 0 <= t → 2 * round s t + 1 < tn s t → t < tail s;
  i_push_live h : 0 <= h < head s → 2 * round s h < tn s h ∨ ∃ i p, y_threads s !! i = Some p ∧ push_ticket p = Some h;
  i_pop_live t : 0 <= t < tail s → 2 * round s t + 1 < tn s t ∧ was_read s t ∨ ∃ i p, y_threads s !! i = Some p ∧ pop_ticket p = Some t;
  i_val h : 0 <= h → tn s h = 2 * round s h + 1 → val s h = pushed_at s h ∨ ∃ i v, y_threads s !! i = Some (Release h v);
  i_popped t v : (t, v) ∈ y_popped s → 0 <= t < tail s ∧ pushed_at s t = Some v;
  i_nodup : NoDup (y_popped s).*1;
  i_turn h : 0 <= tn s h;
}.

(** Tickets of the same slot in the same round are the same. *)
Lemma ticket_eq s h h' : q_ok (y_q s) → h `mod` q_capacity (y_q s) = h' `mod` q_capacity (y_q s) → round s h = round s h' → h = h'.
Proof.
  intros ([? ?] & _) Hm Hr. unfold round in Hr.
  rewrite (Z.div_mod h (q_capacity (y_q s))), (Z.div_mod h' (q_capacity (y_q s))) by lia. lia.
Qed.

(** The slots after a store. *)
Lemma slot_at_ok s h : q_ok (y_q s) → slot_at (y_q s) h = Ok (slot_of s h).
Proof.
  intros Hq. pose proof Hq as ([? ?] & Hlen & _). unfold slot_at, arr_getZ, slot_of. rewrite idx_spec by done.
  pose proof (Z.mod_pos_bound h (q_capacity (y_q s)) ltac:(lia)). rewrite decide_True by lia. unfold arr_get.
  destruct (lookup_lt_is_Some_2 (q_slots (y_q s)) (Z.to_nat (h `mod` q_capacity (y_q s)))) as [sl ->]; [lia|done].
Qed.
Definition stored s h (sl : slot) : sys :=
  with_q (mkQueue (q_capacity (y_q s)) (q_bits (y_q s)) (<[Z.to_nat (h `mod` q_capacity (y_q s)) := sl]> (q_slots (y_q s))) (head s) (tail s)) s.
Lemma set_slot_ok s h sl : q_ok (y_q s) → set_slot (y_q s) h sl = Ok (y_q (stored s h sl)).
Proof.
  intros Hq. pose proof Hq as ([? ?] & Hlen & _). unfold set_slot, arr_setZ. rewrite idx_spec by done.
  pose proof (Z.mod_pos_bound h (q_capacity (y_q s)) ltac:(lia)). rewrite decide_True by lia. unfold arr_set.
  rewrite decide_True by lia. done.
Qed.
Lemma stored_slot s h sl h' : q_ok (y_q s) → slot_of (stored s h sl) h' =
  if decide (h' `mod` q_capacity (y_q s) = h `mod` q_capacity (y_q s)) then sl else slot_of s h'.
Proof.
  intros ([? ?] & Hlen & _). unfold slot_of, stored. cbn.
  pose proof (Z.mod_pos_bound h (q_capacity (y_q s)) ltac:(lia)). pose proof (Z.mod_pos_bound h' (q_capacity (y_q s)) ltac:(lia)).
  case_decide as E; [rewrite E, list_lookup_insert_eq by lia; done|]. rewrite list_lookup_insert_ne by lia. done.
Qed.
Lemma stored_q_ok s h sl : q_ok (y_q s) → q_ok (y_q (stored s h sl)).
Proof. intros (? & ? & ?). split; [done|]. cbn. by rewrite length_insert. Qed.

(** ** Steps *)

Lemma pc_ok_goto i p s p' : pc_ok (goto i p s) p' = pc_ok s p'.
Proof. done. Qed.

(** Thread [i] goes on; [s1] is the shared state after its access. *)
Section thread_step.
Variables (s s1 : sys) (i : nat) (p' : pc).
Hypotheses (Hi : inv s) (Ht : y_threads s1 = y_threads s).
Notation before := (y_threads s !! i).

Lemma inv_thread :
  q_ok (y_q s1) → head s1 = Z.of_nat (length (y_pushed s1)) → 0 <= tail s1 →
  pc_ok s1 p' → (∀ j p, j ≠ i → y_threads s !! j = Some p → pc_ok s p → pc_ok s1 p) →
  (∀ h, push_ticket p' = Some h → before ≫= push_ticket = Some h ∨ ∀ j p, y_threads s !! j = Some p → push_ticket p ≠ Some h) →
  (∀ t, pop_ticket p' = Some t → before ≫= pop_ticket = Some t ∨ ∀ j p, y_threads s !! j = Some p → pop_ticket p ≠ Some t) →
  (∀ h, 0 <= h → 2 * round s1 h < tn s1 h → h < head s1) →
  (∀ t, 0 <= t → 2 * round s1 t + 1 < tn s1 t → t < tail s1) →
  (∀ h, 0 <= h < head s1 → 2 * round s1 h < tn s1 h ∨ push_ticket p' = Some h ∨ ∃ j p, j ≠ i ∧ y_threads s !! j = Some p ∧ push_ticket p = Some h) →
  (∀ t, 0 <= t < tail s1 → 2 * round s1 t + 1 < tn s1 t ∧ was_read s1 t ∨ pop_ticket p' = Some t ∨
     ∃ j p, j ≠ i ∧ y_threads s !! j = Some p ∧ pop_ticket p = Some t) →
  (∀ h, 0 <= h → tn s1 h = 2 * round s1 h + 1 → val s1 h = pushed_at s1 h ∨ (∃ v, p' = Release h v) ∨
     ∃ j v, j ≠ i ∧ y_threads s !! j = Some (Release h v)) →
  (∀ t v, (t, v) ∈ y_popped s1 → 0 <= t < tail s1 ∧ pushed_at s1 t = Some v) → NoDup (y_popped s1).*1 → (∀ h, 0 <= tn s1 h) →
  inv (goto i p' s1).
Proof.
  intros Hq Hh Htl Hpc Hrest Hpo Hqo Hpi Hqi Hpl Hql Hv Hpop Hnd Hnn.
  assert (∀ j p, j ≠ i → y_threads (goto i p' s1) !! j = Some p → y_threads s !! j = Some p) as Hother.
  { intros j p Hj. cbn. by rewrite lookup_insert_ne, Ht. }
  assert (∀ j p, j ≠ i → y_threads s !! j = Some p → y_threads (goto i p' s1) !! j = Some p) as Hother'.
  { intros j p Hj. cbn. by rewrite lookup_insert_ne, Ht. }
  assert (y_threads (goto i p' s1) !! i = Some p') as Hself by (cbn; by rewrite lookup_insert_eq).
  assert (∀ j p, y_threads (goto i p' s1) !! j = Some p → j = i ∧ p = p' ∨ j ≠ i ∧ y_threads s !! j = Some p) as Hcases.
  { intros j p Hj. destruct (decide (j = i)) as [->|]; [left; split; [done|congruence]|right; auto]. }
  constructor; try done.
  - intros j p Hj. rewrite pc_ok_goto. destruct (Hcases j p Hj) as [[-> ->]|[Hne Hj']]; [done|].
    eapply Hrest; [done..|]. by eapply i_pc.
  - intros j k p p1 h Hj Hk Hp Hp1. destruct (Hcases j p Hj) as [[-> ->]|[Hnj Hj']], (Hcases k p1 Hk) as [[-> ->]|[Hnk Hk']]; try done.
    + destruct (Hpo h Hp) as [E|E]; [|by destruct (E k p1)]. destruct (y_threads s !! i) as [p0|] eqn:E0; [|done].
      by apply (i_push_one s Hi i k p0 p1 h).
    + destruct (Hpo h Hp1) as [E|E]; [|by destruct (E j p)]. destruct (y_threads s !! i) as [p0|] eqn:E0; [|done].
      by apply (i_push_one s Hi j i p p0 h).
    + by apply (i_push_one s Hi j k p p1 h).
  - intros j k p p1 h Hj Hk Hp Hp1. destruct (Hcases j p Hj) as [[-> ->]|[Hnj Hj']], (Hcases k p1 Hk) as [[-> ->]|[Hnk Hk']]; try done.
    + destruct (Hqo h Hp) as [E|E]; [|by destruct (E k p1)]. destruct (y_threads s !! i) as [p0|] eqn:E0; [|done].
      by apply (i_pop_one s Hi i k p0 p1 h).
    + destruct (Hqo h Hp1) as [E|E]; [|by destruct (E j p)]. destruct (y_threads s !! i) as [p0|] eqn:E0; [|done].
      by apply (i_pop_one s Hi j i p p0 h).
    + by apply (i_pop_one s Hi j k p p1 h).
  - intros h Hh'. destruct (Hpl h Hh') as [?|[?|(j & p & ? & ? & ?)]]; [by left|right; by exists i, p'|right; exists j, p; auto].
  - intros h Hh'. destruct (Hql h Hh') as [?|[?|(j & p & ? & ? & ?)]]; [by left|right; by exists i, p'|right; exists j, p; auto].
  - intros h Hh' Htn. destruct (Hv h Hh' Htn) as [?|[[v ->]|(j & v & ? & ?)]]; [by left|right; by exists i, v|right; exists j, v; auto].
Qed.
End thread_step.

(** A step that touches nothing shared. *)
Lemma inv_local s i p' : inv s → pc_ok s p' →
  y_threads s !! i ≫= push_ticket = push_ticket p' → y_threads s !! i ≫= pop_ticket = pop_ticket p' →
  (∀ h v, y_threads s !! i ≠ Some (Release h v)) → inv (goto i p' s).
Proof.
  intros Hi Hpc Hp Hq Hrel. pose proof Hi as [? ? ? Hpcs ? ? ? ? Hpl Hql Hv ? ? ?].
  apply (inv_thread s s i p' Hi); try done.
  - intros h E. left. congruence.
  - intros h E. left. congruence.
  - intros h Hh. destruct (Hpl h Hh) as [?|(j & p & Hj & E)]; [by left|right].
    destruct (decide (j = i)) as [->|]; [left; rewrite Hj in Hp; cbn in Hp; congruence|right; by exists j, p].
  - intros h Hh. destruct (Hql h Hh) as [?|(j & p & Hj & E)]; [by left|right].
    destruct (decide (j = i)) as [->|]; [left; rewrite Hj in Hq; cbn in Hq; congruence|right; by exists j, p].
  - intros h Hh E. destruct (Hv h Hh E) as [?|(j & v & Hj)]; [by left|right; right].
    destruct (decide (j = i)) as [->|]; [by destruct (Hrel h v)|by exists j, v].
Qed.

(** No ticket is held by thread [i]. *)
Definition no_ticket s i : Prop := y_threads s !! i ≫= push_ticket = None ∧ y_threads s !! i ≫= pop_ticket = None.

Lemma push_holder s i j p h : no_ticket s i → y_threads s !! j = Some p → push_ticket p = Some h → j ≠ i.
Proof. intros [Hn _] Hj E ->. rewrite Hj in Hn. cbn in Hn. congruence. Qed.
Lemma pop_holder s i j p t : no_ticket s i → y_threads s !! j = Some p → pop_ticket p = Some t → j ≠ i.
Proof. intros [_ Hn] Hj E ->. rewrite Hj in Hn. cbn in Hn. congruence. Qed.

Lemma pushed_bound s h v : inv s → 0 <= h → pushed_at s h = Some v → h < head s.
Proof. intros Hi Hh Hv. rewrite (i_head _ Hi). apply lookup_lt_Some in Hv. lia. Qed.

Section issue.
Variables (s : sys) (i : nat) (p' : pc).
Hypotheses (Hi : inv s) (Hleft : tickets_left s) (Hno : no_ticket s i).

Lemma issued_head v : head (issue_push v s) = head s + 1.
Proof. cbn. pose proof (i_head _ Hi). destruct Hleft. apply u64_small. lia. Qed.
Lemma issued_tail : tail (issue_pop s) = tail s + 1.
Proof. cbn. pose proof (i_tail _ Hi). destruct Hleft. apply u64_small. lia. Qed.
Lemma issued_at v h : 0 <= h < head s → pushed_at (issue_push v s) h = pushed_at s h.
Proof. intros Hh. unfold pushed_at. cbn. rewrite lookup_app_l; [done|]. rewrite (i_head _ Hi) in Hh. lia. Qed.
Lemma issued_new v : pushed_at (issue_push v s) (head s) = Some v.
Proof. unfold pushed_at. cbn. rewrite (i_head _ Hi), Nat2Z.id, lookup_app_r, Nat.sub_diag by lia. done. Qed.

Lemma inv_issue_push v : push_ticket p' = Some (head s) → pop_ticket p' = None → pc_ok (issue_push v s) p' → inv (goto i p' (issue_push v s)).
Proof.
  intros Hp Hq Hpc. pose proof Hi as [Hqk Hh Htl Hpcs _ _ Hpi Hqi Hpl Hql Hv Hpop Hnd Hnn]. pose proof (issued_head v) as Hh'.
  apply (inv_thread s _ i p' Hi); try done.
  - rewrite Hh'. cbn. rewrite length_app. cbn. lia.
  - intros j p _ Hj. destruct p; unfold pc_ok; rewrite ?Hh'; try done; try lia.
    + intros (? & E & ?). rewrite issued_at by done. split; [lia|done].
    + intros [? ?]. split; [lia|done].
    + intros (? & E & ?). rewrite issued_at by done. split; [lia|done].
    + intros (? & E & ?). rewrite issued_at by done. split; [lia|done].
    + intros (? & ? & E & ?). split; [done|]. split; [done|]. split; [done|]. rewrite issued_at; [done|].
      pose proof (Hpi t ltac:(lia) ltac:(lia)). lia.
  - intros h E. right. intros j p Hj E'. apply Hpcs in Hj as Hok. destruct p; try discriminate E'; cbn in E'; simplify_eq; cbn in Hok; lia.
  - by rewrite Hq.
  - intros h H0 Hd. rewrite Hh'. pose proof (Hpi h H0 Hd). lia.
  - intros h Hr. rewrite Hh' in Hr. destruct (decide (h = head s)) as [->|]; [by right; left|].
    destruct (Hpl h ltac:(lia)) as [?|(j & p & Hj & E)]; [by left|right; right]. exists j, p. split; [by eapply push_holder|done].
  - intros t Hr. destruct (Hql t Hr) as [?|(j & p & Hj & E)]; [by left|right; right]. exists j, p. split; [by eapply pop_holder|done].
  - intros h H0 E. change (tn (issue_push v s) h) with (tn s h) in E. change (round (issue_push v s) h) with (round s h) in E.
    pose proof (Hpi h H0 ltac:(lia)). rewrite issued_at by lia. destruct (Hv h H0 E) as [?|(j & x & Hj)]; [by left|right; right].
    exists j, x. split; [|done]. by eapply (pop_holder s i j _ h).
  - intros t x Hin. destruct (Hpop t x Hin) as [? Hx]. split; [done|]. pose proof (pushed_bound s t x Hi ltac:(lia) Hx).
    rewrite issued_at by lia. done.
Qed.

Lemma inv_issue_pop : pop_ticket p' = Some (tail s) → push_ticket p' = None → pc_ok (issue_pop s) p' → inv (goto i p' (issue_pop s)).
Proof.
  intros Hq Hp Hpc. pose proof Hi as [Hqk Hh Htl Hpcs _ _ Hpi Hqi Hpl Hql Hv Hpop Hnd Hnn]. pose proof issued_tail as Ht'.
  apply (inv_thread s _ i p' Hi); try done.
  - lia.
  - intros j p _ Hj. destruct p; unfold pc_ok; rewrite ?Ht'; try done; try lia; try (intros (? & ?); split; [lia|done]).
  - by rewrite Hp.
  - intros t E. right. intros j p Hj E'. apply Hpcs in Hj as Hok. destruct p; try discriminate E'; cbn in E'; simplify_eq; cbn in Hok; lia.
  - intros t H0 Hd. rewrite Ht'. pose proof (Hqi t H0 Hd). lia.
  - intros h Hr. destruct (Hpl h Hr) as [?|(j & p & Hj & E)]; [by left|right; right]. exists j, p. split; [by eapply push_holder|done].
  - intros t Hr. rewrite Ht' in Hr. destruct (decide (t = tail s)) as [->|]; [by right; left|].
    destruct (Hql t ltac:(lia)) as [?|(j & p & Hj & E)]; [by left|right; right]. exists j, p. split; [by eapply pop_holder|done].
  - intros h H0 E. destruct (Hv h H0 E) as [?|(j & x & Hj)]; [by left|right; right]. exists j, x. split; [|done].
    by eapply (pop_holder s i j _ h).
  - intros t x Hin. destruct (Hpop t x Hin) as [? Hx]. split; [lia|done].
Qed.
End issue.

(** A store to the slot of ticket [h] by thread [i], which is at [p]. *)
Section store.
Variables (s : sys) (i : nat) (p : pc) (h : Z).
Hypotheses (Hi : inv s) (Hp : y_threads s !! i = Some p).

Definition same h' : Prop := h' `mod` q_capacity (y_q s) = h `mod` q_capacity (y_q s).
#[global] Instance same_dec h' : Decision (same h') := Z.eq_dec _ _.
Lemma stored_tn sl h' : tn (stored s h sl) h' = if decide (same h') then sl_turn sl else tn s h'.
Proof.
  unfold tn. rewrite stored_slot by apply Hi. destruct (decide (same h')) as [Hs|Hs]; unfold same in Hs; [by rewrite decide_True|by rewrite decide_False].
Qed.
Lemma stored_val sl h' : val (stored s h sl) h' = if decide (same h') then sl_storage sl else val s h'.
Proof.
  unfold val. rewrite stored_slot by apply Hi. destruct (decide (same h')) as [Hs|Hs]; unfold same in Hs; [by rewrite decide_True|by rewrite decide_False].
Qed.
Lemma same_slot h' : same h' → tn s h' = tn s h ∧ val s h' = val s h.
Proof. unfold same, tn, val, slot_of. by intros ->. Qed.
Lemma same_ticket h' : same h' → round s h' = round s h → h' = h.
Proof. intros Hs Hr. by eapply ticket_eq; [apply Hi|..]. Qed.

(** The thread holds the ticket of the slot. *)
Lemma push_other j p1 h' : push_ticket p = Some h → j ≠ i → y_threads s !! j = Some p1 → push_ticket p1 = Some h' → same h' → round s h' ≠ round s h.
Proof.
  intros Hh Hj Hp1 Hh' Hs Hr. apply same_ticket in Hr as ->; [|done]. by apply Hj, (i_push_one s Hi j i p1 p h).
Qed.
Lemma pop_other j p1 h' : pop_ticket p = Some h → j ≠ i → y_threads s !! j = Some p1 → pop_ticket p1 = Some h' → same h' → round s h' ≠ round s h.
Proof.
  intros Hh Hj Hp1 Hh' Hs Hr. apply same_ticket in Hr as ->; [|done]. by apply Hj, (i_pop_one s Hi j i p1 p h).
Qed.
End store.

(** Only the contents of the slot change. *)
Lemma inv_contents s i p p' h x : inv s → y_threads s !! i = Some p →
  push_ticket p' = push_ticket p → pop_ticket p' = pop_ticket p → (∀ h' v, p ≠ Release h' v) →
  let s1 := stored s h (mkSlot (tn s h) x) in
  pc_ok s1 p' →
  (∀ j v h', j ≠ i → y_threads s !! j = Some (PublishE v h') → ¬ same s h h') →
  (∀ j t, j ≠ i → y_threads s !! j = Some (MoveOut t) → ¬ same s h t) →
  (∀ h', 0 <= h' → same s h h' → tn s h' = 2 * round s h' + 1 → ∃ v, p' = Release h' v) →
  inv (goto i p' s1).
Proof.
  intros Hi Hp Hpt Hqt Hrel s1 Hpc Hpub Hmov Hfull. pose proof Hi as [Hqk Hh Htl Hpcs _ _ Hpi Hqi Hpl Hql Hv Hpop Hnd Hnn].
  assert (∀ h', tn s1 h' = tn s h') as Etn.
  { intros h'. unfold s1. rewrite stored_tn by done. case_decide as Hs; [|done]. cbn. symmetry. by apply same_slot. }
  assert (∀ h', round s1 h' = round s h') as Er by done.
  assert (∀ h', ¬ same s h h' → val s1 h' = val s h') as Ev.
  { intros h' Hn. unfold s1. rewrite stored_val by done. by rewrite decide_False. }
  apply (inv_thread s s1 i p' Hi); try done.
  - by apply stored_q_ok.
  - intros j p1 Hj Hp1. destruct p1; unfold pc_ok; rewrite ?Etn, ?Er; try done.
    + intros (? & ? & ? & ?). rewrite Ev by (by eapply Hpub). done.
    + intros (? & ? & ? & ?). rewrite Ev by (by eapply Hmov). done.
  - intros h' E. left. rewrite Hp. cbn. congruence.
  - intros h' E. left. rewrite Hp. cbn. congruence.
  - intros h'. rewrite Etn, Er. apply Hpi.
  - intros h'. rewrite Etn, Er. apply Hqi.
  - intros h' Hr. rewrite Etn, Er. destruct (Hpl h' Hr) as [?|(j & p1 & Hj & E)]; [by left|right].
    destruct (decide (j = i)) as [->|]; [left; congruence|right; by exists j, p1].
  - intros h' Hr. rewrite Etn, Er. destruct (Hql h' Hr) as [?|(j & p1 & Hj & E)]; [by left|right].
    destruct (decide (j = i)) as [->|]; [left; congruence|right; by exists j, p1].
  - intros h' H0. rewrite Etn, Er. intros E. destruct (decide (same s h h')) as [Hs|Hs]; [right; left; by apply Hfull|].
    rewrite Ev by done. destruct (Hv h' H0 E) as [?|(j & v & Hj)]; [by left|right; right]. exists j, v. split; [|done].
    intros ->. destruct (Hrel h' v). congruence.
  - intros h'. by rewrite Etn.
Qed.

Lemma inv_construct s i v h : inv s → y_threads s !! i = Some (Construct v h) →
  inv (goto i (PublishE v h) (stored s h (mkSlot (tn s h) (Some v)))).
Proof.
  intros Hi Hp. destruct (i_pc _ Hi _ _ Hp) as (Hr & Hat & Htn).
  apply (inv_contents s i (Construct v h)); try done.
  - unfold pc_ok. rewrite stored_tn, stored_val, !decide_True by done. done.
  - intros j v' h' Hj Hp1 Hs. destruct (i_pc _ Hi _ _ Hp1) as (_ & _ & E & _). pose proof (same_slot s h h' Hs) as [E1 _].
    apply (push_other s i _ h Hi Hp j _ h' eq_refl Hj Hp1 eq_refl Hs). lia.
  - intros j t Hj Hp1 Hs. destruct (i_pc _ Hi _ _ Hp1) as (_ & _ & E & _). pose proof (same_slot s h t Hs) as [E1 _]. lia.
  - intros h' H0 Hs E. pose proof (same_slot s h h' Hs) as [E1 _]. lia.
Qed.

Lemma inv_destroy s i v t : inv s → y_threads s !! i = Some (Destroy t v) →
  inv (goto i (Release t v) (stored s t (mkSlot (tn s t) None))).
Proof.
  intros Hi Hp. destruct (i_pc _ Hi _ _ Hp) as (Hr & Hin & Htn).
  apply (inv_contents s i (Destroy t v)); try done.
  - unfold pc_ok. rewrite stored_tn, decide_True by done. done.
  - intros j v' h' Hj Hp1 Hs. destruct (i_pc _ Hi _ _ Hp1) as (_ & _ & E & _). pose proof (same_slot s t h' Hs) as [E1 _]. lia.
  - intros j t' Hj Hp1 Hs. destruct (i_pc _ Hi _ _ Hp1) as (_ & _ & E & _). pose proof (same_slot s t t' Hs) as [E1 _].
    apply (pop_other s i _ t Hi Hp j _ t' eq_refl Hj Hp1 eq_refl Hs). lia.
  - intros h' H0 Hs E. pose proof (same_slot s t h' Hs) as [E1 _]. exists v.
    assert (h' = t) as -> by (apply (same_ticket s t Hi h' Hs); lia). done.
Qed.

Lemma inv_publish s i v h : inv s → y_threads s !! i = Some (PublishE v h) →
  inv (goto i (Returned (RPush true)) (stored s h (mkSlot (2 * round s h + 1) (val s h)))).
Proof.
  intros Hi Hp. destruct (i_pc _ Hi _ _ Hp) as (Hr & Hat & Htn & Hval). pose proof Hi as [Hqk Hh Htl Hpcs _ _ Hpi Hqi Hpl Hql Hv Hpop Hnd Hnn].
  set (s1 := stored s h (mkSlot (2 * round s h + 1) (val s h))).
  assert (∀ h', tn s1 h' = if decide (same s h h') then 2 * round s h + 1 else tn s h') as Etn by (intros; by apply stored_tn).
  assert (∀ h', same s h h' → tn s h' = 2 * round s h) as Esame by (intros h' [E _]%same_slot; lia).
  assert (∀ h', tn s h' <= tn s1 h') as Hmono by (intros h'; rewrite Etn; case_decide as E; [rewrite (Esame h' E); lia|lia]).
  assert (∀ h', val s1 h' = val s h') as Ev.
  { intros h'. unfold s1. rewrite stored_val by done. case_decide as Hs; [|done]. cbn. symmetry. by apply same_slot. }
  assert (∀ h', round s1 h' = round s h') as Er by done.
  apply (inv_thread s s1 i _ Hi); try done.
  - by apply stored_q_ok.
  - intros j p1 Hj Hp1. destruct p1 as [v' h'| |v' h'| |v' h'|v' h'|t'| |t'| |t'|t' v'|t' v'|]; unfold pc_ok; rewrite ?Ev, ?Er; try done.
    + intros (? & ? & E). split; [done|]. split; [done|]. rewrite Etn. case_decide as Hs; [|done].
      pose proof (push_other s i _ h Hi Hp j _ h' eq_refl Hj Hp1 eq_refl Hs). rewrite (Esame h' Hs) in E. lia.
    + intros (? & E). split; [done|]. pose proof (Hmono h'). lia.
    + intros (? & ? & E). split; [done|]. split; [done|]. rewrite Etn. case_decide as Hs; [|done].
      pose proof (push_other s i _ h Hi Hp j _ h' eq_refl Hj Hp1 eq_refl Hs). rewrite (Esame h' Hs) in E. lia.
    + intros (? & ? & E & ?). split; [done|]. split; [done|]. split; [|done]. rewrite Etn. case_decide as Hs; [|done].
      pose proof (push_other s i _ h Hi Hp j _ h' eq_refl Hj Hp1 eq_refl Hs). rewrite (Esame h' Hs) in E. lia.
    + intros (? & ? & E). split; [done|]. split; [done|]. rewrite Etn. case_decide as Hs; [|done]. rewrite (Esame t' Hs) in E. lia.
    + intros (? & E). split; [done|]. pose proof (Hmono t'). lia.
    + intros (? & ? & E & ?). split; [done|]. split; [done|]. split; [|done]. rewrite Etn. case_decide as Hs; [|done]. rewrite (Esame t' Hs) in E. lia.
    + intros (? & ? & E). split; [done|]. split; [done|]. rewrite Etn. case_decide as Hs; [|done]. rewrite (Esame t' Hs) in E. lia.
    + intros (? & ? & E). split; [done|]. split; [done|]. rewrite Etn. case_decide as Hs; [|done]. rewrite (Esame t' Hs) in E. lia.
  - intros h' H0. rewrite Etn, Er. case_decide as Hs; [|apply Hpi; done]. intros E. destruct (decide (round s h' = round s h)) as [E'|E'].
    + apply same_ticket in E' as ->; [apply Hr|done..].
    + apply Hpi; [done|]. rewrite (Esame h' Hs). lia.
  - intros t' H0. rewrite Etn, Er. case_decide as Hs; [|apply Hqi; done]. intros E. apply Hqi; [done|]. rewrite (Esame t' Hs). lia.
  - intros h' Hr'. rewrite Er. destruct (Hpl h' Hr') as [?|(j & p1 & Hj & E)]; [left; pose proof (Hmono h'); lia|].
    destruct (decide (j = i)) as [->|]; [|right; right; by exists j, p1]. left. assert (p1 = PublishE v h) as -> by congruence.
    cbn in E. injection E as <-. rewrite Etn, decide_True by done. lia.
  - intros t' Hr'. rewrite Er. destruct (Hql t' Hr') as [[? ?]|(j & p1 & Hj & E)]; [left; split; [pose proof (Hmono t'); lia|done]|].
    right; right. exists j, p1. split; [|done]. intros ->. assert (p1 = PublishE v h) as -> by congruence. done.
  - intros h' H0. rewrite Er, Etn, Ev. case_decide as Hs; intros E.
    + assert (h' = h) as -> by (apply (same_ticket s h Hi h' Hs); lia). left. by rewrite Hval.
    + destruct (Hv h' H0 E) as [?|(j & x & Hj)]; [by left|right; right]. exists j, x. split; [|done]. intros ->. congruence.
  - intros h'. pose proof (Hmono h'). pose proof (Hnn h'). lia.
Qed.

Lemma inv_release s i v t : inv s → y_threads s !! i = Some (Release t v) →
  inv (goto i (Returned (RPop (Some v))) (stored s t (mkSlot (2 * round s t + 2) (val s t)))).
Proof.
  intros Hi Hp. destruct (i_pc _ Hi _ _ Hp) as (Hr & Hin & Htn). pose proof Hi as [Hqk Hh Htl Hpcs _ _ Hpi Hqi Hpl Hql Hv Hpop Hnd Hnn].
  set (s1 := stored s t (mkSlot (2 * round s t + 2) (val s t))).
  assert (∀ h', tn s1 h' = if decide (same s t h') then 2 * round s t + 2 else tn s h') as Etn by (intros; by apply stored_tn).
  assert (∀ h', same s t h' → tn s h' = 2 * round s t + 1) as Esame by (intros h' [E _]%same_slot; lia).
  assert (∀ h', tn s h' <= tn s1 h') as Hmono by (intros h'; rewrite Etn; case_decide as E; [rewrite (Esame h' E); lia|lia]).
  assert (∀ h', val s1 h' = val s h') as Ev.
  { intros h'. unfold s1. rewrite stored_val by done. case_decide as Hs; [|done]. cbn. symmetry. by apply same_slot. }
  assert (∀ h', round s1 h' = round s h') as Er by done.
  assert (∀ j p1 t', j ≠ i → y_threads s !! j = Some p1 → pop_ticket p1 = Some t' → same s t t' → round s t' ≠ round s t) as Hoth
    by (intros j p1 t' Hj Hp1 Ht'; by eapply (pop_other s i (Release t v) t Hi Hp)).
  apply (inv_thread s s1 i _ Hi); try done.
  - by apply stored_q_ok.
  - by exists t.
  - intros j p1 Hj Hp1. pose proof (λ t', Hoth j p1 t' Hj Hp1) as Hoth1.
    destruct p1 as [v' h'| |v' h'| |v' h'|v' h'|t'| |t'| |t'|t' v'|t' v'|]; unfold pc_ok; rewrite ?Ev, ?Er; try done.
    + intros (? & ? & E). split; [done|]. split; [done|]. rewrite Etn. case_decide as Hs; [|done]. rewrite (Esame h' Hs) in E. lia.
    + intros (? & E). split; [done|]. pose proof (Hmono h'). lia.
    + intros (? & ? & E). split; [done|]. split; [done|]. rewrite Etn. case_decide as Hs; [|done]. rewrite (Esame h' Hs) in E. lia.
    + intros (? & ? & E & ?). split; [done|]. split; [done|]. split; [|done]. rewrite Etn. case_decide as Hs; [|done]. rewrite (Esame h' Hs) in E. lia.
    + intros (? & ? & E). split; [done|]. split; [done|]. rewrite Etn. case_decide as Hs; [|done].
      pose proof (Hoth1 t' eq_refl Hs). rewrite (Esame t' Hs) in E. lia.
    + intros (? & E). split; [done|]. pose proof (Hmono t'). lia.
    + intros (? & ? & E & ?). split; [done|]. split; [done|]. split; [|done]. rewrite Etn. case_decide as Hs; [|done].
      pose proof (Hoth1 t' eq_refl Hs). rewrite (Esame t' Hs) in E. lia.
    + intros (? & ? & E). split; [done|]. split; [done|]. rewrite Etn. case_decide as Hs; [|done].
      pose proof (Hoth1 t' eq_refl Hs). rewrite (Esame t' Hs) in E. lia.
    + intros (? & ? & E). split; [done|]. split; [done|]. rewrite Etn. case_decide as Hs; [|done].
      pose proof (Hoth1 t' eq_refl Hs). rewrite (Esame t' Hs) in E. lia.
  - intros h' H0. rewrite Etn, Er. case_decide as Hs; [|apply Hpi; done]. intros E. apply Hpi; [done|]. rewrite (Esame h' Hs). lia.
  - intros t' H0. rewrite Etn, Er. case_decide as Hs; [|apply Hqi; done]. intros E. destruct (decide (round s t' = round s t)) as [E'|E'].
    + apply same_ticket in E' as ->; [apply Hr|done..].
    + apply Hqi; [done|]. rewrite (Esame t' Hs). lia.
  - intros h' Hr'. rewrite Er. destruct (Hpl h' Hr') as [?|(j & p1 & Hj & E)]; [left; pose proof (Hmono h'); lia|].
    right; right. exists j, p1. split; [|done]. intros ->. assert (p1 = Release t v) as -> by congruence. done.
  - intros t' Hr'. rewrite Er. destruct (Hql t' Hr') as [[? ?]|(j & p1 & Hj & E)]; [left; split; [pose proof (Hmono t'); lia|done]|].
    destruct (decide (j = i)) as [->|]; [|right; right; by exists j, p1]. left. assert (p1 = Release t v) as -> by congruence.
    cbn in E. injection E as <-. rewrite Etn, decide_True by done. split; [lia|]. apply list_elem_of_fmap. by exists (t, v).
  - intros h' H0. rewrite Er, Etn, Ev. case_decide as Hs; intros E; [lia|].
    destruct (Hv h' H0 E) as [?|(j & x & Hj)]; [by left|right; right]. exists j, x. split; [|done]. intros ->.
    assert (h' = t) as -> by congruence. done.
  - intros h'. pose proof (Hmono h'). pose proof (Hnn h'). lia.
Qed.

Lemma inv_move s i v t : inv s → y_threads s !! i = Some (MoveOut t) → val s t = Some v →
  inv (goto i (Destroy t v) (mkSys (y_q s) (y_threads s) (y_pushed s) (y_popped s ++ [(t, v)]))).
Proof.
  intros Hi Hp Hval. destruct (i_pc _ Hi _ _ Hp) as (Hr & Hnr & Htn & Hat). pose proof Hi as [Hqk Hh Htl Hpcs _ Hone Hpi Hqi Hpl Hql Hv Hpop Hnd Hnn].
  set (s1 := mkSys (y_q s) (y_threads s) (y_pushed s) (y_popped s ++ [(t, v)])).
  assert (∀ t', was_read s1 t' ↔ was_read s t' ∨ t' = t) as Hread.
  { intros t'. unfold was_read. cbn. rewrite fmap_app, elem_of_app. cbn. by rewrite list_elem_of_singleton. }
  assert (∀ x, x ∈ y_popped s → x ∈ y_popped s1) as Hsub by (intros x Hx; apply elem_of_app; by left).
  apply (inv_thread s s1 i _ Hi); try done.
  - split; [done|]. split; [|done]. apply elem_of_app. right. by apply list_elem_of_singleton.
  - intros j p1 Hj Hp1. assert (pop_ticket p1 ≠ Some t) as Hne by (intros E; by apply Hj, (Hone j i p1 (MoveOut t) t)).
    destruct p1 as [| | | | | |t'| | | |t'|t' v'|t' v'|[|[x|]]]; unfold pc_ok; try done.
    + intros (? & Hn & ?). split; [done|]. split; [|done]. rewrite Hread. intros [?| ->]; done.
    + intros (? & Hn & ?). split; [done|]. split; [|done]. rewrite Hread. intros [?| ->]; done.
    + intros (? & ? & ?). split; [done|]. split; [by apply Hsub|done].
    + intros (? & ? & ?). split; [done|]. split; [by apply Hsub|done].
    + intros [t' ?]. exists t'. by apply Hsub.
  - intros t' E. left. rewrite Hp. done.
  - intros h' Hr'. destruct (Hpl h' Hr') as [?|(j & p1 & Hj & E)]; [by left|right; right]. exists j, p1. split; [|done].
    intros ->. assert (p1 = MoveOut t) as -> by congruence. done.
  - intros t' Hr'. destruct (Hql t' Hr') as [[? ?]|(j & p1 & Hj & E)]; [left; split; [done|apply Hread; by left]|right].
    destruct (decide (j = i)) as [->|]; [left|right; by exists j, p1]. assert (p1 = MoveOut t) as -> by congruence. done.
  - intros h' H0 E. destruct (Hv h' H0 E) as [?|(j & x & Hj)]; [by left|right; right]. exists j, x. split; [|done]. intros ->. congruence.
  - intros t' v' [Hin|Hin]%elem_of_app; [by apply Hpop|]. apply list_elem_of_singleton in Hin. injection Hin as -> ->. split; [done|].
    change (pushed_at s1 t) with (pushed_at s t). congruence.
  - cbn. rewrite fmap_app. cbn. apply NoDup_app. split; [done|]. split; [|apply NoDup_singleton].
    intros x Hx ->%list_elem_of_singleton. done.
Qed.

Lemma round_bound s h : q_ok (y_q s) → 0 <= h → 0 <= round s h <= h.
Proof. intros ([? ?] & _) Hh. unfold round. split; [by apply Z.div_pos; lia|]. apply Z.div_le_upper_bound; nia. Qed.
Lemma turns s h : q_ok (y_q s) → 0 <= h <= 2 ^ 62 →
  push_turn (y_q s) h = 2 * round s h ∧ pop_turn (y_q s) h = 2 * round s h + 1 ∧
  push_turn (y_q s) h +₆₄ 1 = 2 * round s h + 1 ∧ turn (y_q s) h *₆₄ 2 +₆₄ 2 = 2 * round s h + 2.
Proof.
  intros Hq Hh. pose proof (round_bound s h Hq ltac:(lia)). unfold push_turn, pop_turn. rewrite turn_spec by done.
  change (h `div` q_capacity (y_q s)) with (round s h). rewrite (u64_small (round s h * 2)) by lia. rewrite !u64_small by lia. lia.
Qed.

(** The action is not enabled, or it succeeds and keeps the invariant. *)
Definition fine (r : result sys) : Prop := r = Throw WouldBlock ∨ ∃ s', r = Ok s' ∧ inv s'.
Lemma fine_Ok s : inv s → fine (Ok s).
Proof. intros. right. by exists s. Qed.

Lemma start_fine s i o : inv s → tickets_left s → fine (start i o s).
Proof.
  intros Hi Hl. unfold start.
  assert (no_ticket s i → (∀ h v, y_threads s !! i ≠ Some (Release h v)) → inv (match o with
    | OPush v => goto i (EWait v (head s)) (issue_push v s)
    | OTryPush v => goto i (TryE v (head s)) s
    | OPop => goto i (PWait (tail s)) (issue_pop s)
    | OTryPop => goto i (TryP (tail s)) s end)) as Hgo.
  { intros Hno Hrel. pose proof (i_head _ Hi). pose proof (i_tail _ Hi). pose proof Hno as [Hn1 Hn2]. destruct o.
    - apply inv_issue_push; try done. unfold pc_ok. rewrite issued_head, issued_new by done. split; [lia|]. split; [done|].
      destruct (decide (tn s (head s) <= 2 * round s (head s))) as [|Hgt]; [done|].
      pose proof (i_push_issued _ Hi (head s) ltac:(lia) ltac:(lia)). lia.
    - apply inv_local; try done. cbn. lia.
    - apply inv_issue_pop; try done. unfold pc_ok. rewrite issued_tail by done. split; [lia|]. split.
      + intros [[t x] [E Hin]]%list_elem_of_fmap. destruct (i_popped _ Hi _ _ Hin) as [? _]. cbn in *. lia.
      + destruct (decide (tn s (tail s) <= 2 * round s (tail s) + 1)) as [|Hgt]; [done|].
        pose proof (i_pop_issued _ Hi (tail s) ltac:(lia) ltac:(lia)). lia.
    - apply inv_local; try done. }
  destruct (y_threads s !! i) as [[]|] eqn:E; try (by left); apply fine_Ok, Hgo; unfold no_ticket; rewrite ?E; done.
Qed.

Lemma cas_push s i v h : inv s → tickets_left s → y_threads s !! i = Some (TryECas v h) → head s = h →
  inv (goto i (Construct v h) (issue_push v s)).
Proof.
  intros Hi Hl Hp Hh. destruct (i_pc _ Hi _ _ Hp) as [Hr Htn]. assert (no_ticket s i) as Hno by (unfold no_ticket; by rewrite Hp).
  apply inv_issue_push; try done; [by rewrite Hh|]. unfold pc_ok. rewrite issued_head by done. rewrite <- Hh, issued_new by done.
  split; [lia|]. split; [done|]. change (tn s (head s) = 2 * round s (head s)). rewrite Hh.
  destruct (decide (tn s h <= 2 * round s h)); [lia|]. pose proof (i_push_issued _ Hi h ltac:(lia) ltac:(lia)). lia.
Qed.
Lemma cas_pop s i t : inv s → tickets_left s → y_threads s !! i = Some (TryPCas t) → tail s = t →
  inv (goto i (MoveOut t) (issue_pop s)).
Proof.
  intros Hi Hl Hp Ht. destruct (i_pc _ Hi _ _ Hp) as [Hr Htn]. assert (no_ticket s i) as Hno by (unfold no_ticket; by rewrite Hp).
  assert (tn s t = 2 * round s t + 1) as E.
  { destruct (decide (tn s t <= 2 * round s t + 1)); [lia|]. pose proof (i_pop_issued _ Hi t ltac:(lia) ltac:(lia)). lia. }
  apply inv_issue_pop; try done; [by rewrite Ht|]. unfold pc_ok. rewrite issued_tail by done. split; [lia|]. split; [|split; [done|]].
  - intros [[t' x] [E' Hin]]%list_elem_of_fmap. destruct (i_popped _ Hi _ _ Hin) as [? _]. cbn in *. lia.
  - destruct (i_val _ Hi t ltac:(lia) E) as [?|(j & x & Hj)]; [done|]. destruct (i_pc _ Hi _ _ Hj) as [? _]. lia.
Qed.

(** The pop that has its turn finds its element. *)
Lemma turn_pop s i t : inv s → y_threads s !! i = Some (PWait t) → tn s t = 2 * round s t + 1 → inv (goto i (MoveOut t) s).
Proof.
  intros Hi Hp E. destruct (i_pc _ Hi _ _ Hp) as (Hr & Hn & _). apply inv_local; rewrite ?Hp; try done.
  split; [done|]. split; [done|]. split; [done|]. destruct (i_val _ Hi t ltac:(lia) E) as [?|(j & x & Hj)]; [done|].
  assert (i = j) as <- by (by eapply (i_pop_one _ Hi i j)). congruence.
Qed.

Lemma advance_fine s i : inv s → tickets_left s → fine (advance i s).
Proof.
  intros Hi Hl. pose proof (i_q _ Hi) as Hq. pose proof (i_head _ Hi). pose proof (i_tail _ Hi). pose proof Hl as [Hlh Hlt].
  unfold advance. destruct (y_threads s !! i) as [p|] eqn:Hp; [|by left]. pose proof (i_pc _ Hi _ _ Hp) as Hok.
  assert (∀ p', pc_ok s p' → push_ticket p = push_ticket p' → pop_ticket p = pop_ticket p' → (∀ h v, p ≠ Release h v) → fine (Ok (goto i p' s))) as Hloc.
  { intros p' ? ? ? Hr. apply fine_Ok, inv_local; rewrite ?Hp; try done. intros h v [= E]. by destruct (Hr h v). }
  destruct p as [v h|v h|v h|v h|v h|v h|t|t|t|t|t|t v|t v|r]; try (by left); rewrite ?slot_at_ok by done; cbn [mbind result_bind].
  - destruct Hok as (Hr & Hat & Htn). destruct (turns s h Hq ltac:(lia)) as (-> & _).
    destruct (Z.eqb_spec (2 * round s h) (sl_turn (slot_of s h))) as [E|]; [|by left]. by apply Hloc.
  - destruct (turns s h Hq ltac:(cbn in Hok; lia)) as (-> & _).
    destruct (Z.eqb_spec (2 * round s h) (sl_turn (slot_of s h))) as [E|]; apply Hloc; try done. split; [done|]. unfold tn. lia.
  - destruct (Z.eqb_spec (head s) h); [by apply fine_Ok, cas_push|]. apply Hloc; try done. cbn. lia.
  - destruct (Z.eqb_spec (head s) h); apply Hloc; try done. cbn. lia.
  - rewrite set_slot_ok by done. by apply fine_Ok, inv_construct.
  - destruct Hok as (Hr & _). destruct (turns s h Hq ltac:(lia)) as (_ & _ & -> & _). rewrite set_slot_ok by done. by apply fine_Ok, (inv_publish s i v h).
  - destruct Hok as (Hr & _). destruct (turns s t Hq ltac:(lia)) as (_ & -> & _).
    destruct (Z.eqb_spec (2 * round s t + 1) (sl_turn (slot_of s t))) as [E|]; [|by left]. apply fine_Ok, turn_pop; done.
  - destruct (turns s t Hq ltac:(cbn in Hok; lia)) as (_ & -> & _).
    destruct (Z.eqb_spec (2 * round s t + 1) (sl_turn (slot_of s t))) as [E|]; apply Hloc; try done. split; [done|]. unfold tn. lia.
  - destruct (Z.eqb_spec (tail s) t); [by apply fine_Ok, cas_pop|]. by apply Hloc.
  - destruct (Z.eqb_spec (tail s) t); by apply Hloc.
  - destruct Hok as (Hr & Hn & Htn & Hat). pose proof (i_push_issued _ Hi t ltac:(lia) ltac:(lia)) as Hlt'.
    destruct (lookup_lt_is_Some_2 (y_pushed s) (Z.to_nat t)) as [v Hv]; [lia|]. assert (val s t = Some v) as Hval by (rewrite Hat; exact Hv).
    unfold val in Hval. rewrite Hval. cbn. by apply fine_Ok, inv_move.
  - rewrite set_slot_ok by done. by apply fine_Ok, inv_destroy.
  - destruct Hok as (Hr & _). destruct (turns s t Hq ltac:(lia)) as (_ & _ & _ & ->). rewrite set_slot_ok by done. by apply fine_Ok, inv_release.
Qed.

Lemma exec_fine s a : inv s → tickets_left s → fine (exec a s).
Proof. intros Hi Hl. destruct a; [by apply start_fine|by apply advance_fine]. Qed.

Lemma inv_initial capacity s : initial capacity s → inv s.
Proof.
  intros (Hc & q & Hq & ->). pose proof (queue_new_ok capacity Hc) as Hn. rewrite Hq in Hn.
  destruct Hn as (Hqk & Ecap & Eh & Et & Es). set (s := mkSys q ∅ [] []).
  assert (∀ h, slot_of s h = mkSlot 0 None) as Hs.
  { intros h. unfold slot_of. cbn. rewrite Es, Ecap. destruct (replicate _ _ !! _) as [sl|] eqn:E; [|done]. by apply lookup_replicate in E as [-> _]. }
  assert (∀ h, tn s h = 0) as Ht by (intros h; unfold tn; by rewrite Hs).
  constructor; try done.
  - cbn. lia.
  - intros h H0. rewrite Ht. pose proof (round_bound s h Hqk H0). lia.
  - intros h H0. rewrite Ht. pose proof (round_bound s h Hqk H0). lia.
  - cbn. lia.
  - cbn. lia.
  - intros h H0. rewrite Ht. pose proof (round_bound s h Hqk H0). lia.
  - intros t v Hin. by apply not_elem_of_nil in Hin.
  - apply NoDup_nil_2.
  - intros h. by rewrite Ht.
Qed.

Lemma reachable_inv capacity s : mpmc_reachable capacity s → inv s ∧ q_capacity (y_q s) = capacity.
Proof.
  intros (s0 & Hi0 & Hr). assert (q_capacity (y_q s0) = capacity) as Ec.
  { destruct Hi0 as (Hc & q & Hq & ->). pose proof (queue_new_ok capacity Hc) as Hn. rewrite Hq in Hn. by destruct Hn as (_ & ? & _). }
  apply inv_initial in Hi0. induction Hr as [|s1 s2 s3 (a & Hl & Hex) _ IH]; [done|].
  destruct (exec_fine s1 a Hi0 Hl) as [E|(s' & E & Hi')]; [congruence|]. assert (s' = s2) as -> by congruence.
  apply IH; [done|]. rewrite <- Ec. clear -Hex.
  assert (∀ s h sl q, set_slot (y_q s) h sl = Ok q → q_capacity q = q_capacity (y_q s)) as Hset.
  { intros s h sl q H. unfold set_slot in H. by inv_bind. }
  destruct a as [i o|i]; cbn [exec] in Hex; [unfold start in Hex|unfold advance in Hex];
    destruct (y_threads s1 !! i) as [[]|]; try discriminate Hex; try destruct o;
    repeat (apply bind_Ok_inv in Hex as (? & ? & Hex)); repeat case_match; try discriminate; apply Ok_inj in Hex as <-; try done; cbn; by eapply Hset.
Qed.

(** ** What the queue promises *)

(** No operation is under way. *)
Definition quiescent s : Prop := ∀ i p, y_threads s !! i = Some p → ∃ r, p = Returned r.

Section quiet.
Variables (s : sys).
Hypotheses (Hi : inv s) (Hqs : quiescent s).

Lemma all_pushed h : 0 <= h < head s → 2 * round s h < tn s h.
Proof. intros Hh. destruct (i_push_live _ Hi h Hh) as [?|(i & p & Hp & E)]; [done|]. by destruct (Hqs i p Hp) as [r ->]. Qed.
Lemma all_popped t : 0 <= t < tail s → 2 * round s t + 1 < tn s t ∧ was_read s t.
Proof. intros Ht. destruct (i_pop_live _ Hi t Ht) as [?|(i & p & Hp & E)]; [done|]. by destruct (Hqs i p Hp) as [r ->]. Qed.

(** Tickets a round apart share their slot. *)
Lemma next_round h : round s (h + q_capacity (y_q s)) = round s h + 1 ∧ tn s (h + q_capacity (y_q s)) = tn s h.
Proof.
  destruct (i_q _ Hi) as ([? ?] & _). unfold round, tn, slot_of.
  replace (h + q_capacity (y_q s)) with (h + 1 * q_capacity (y_q s)) by lia. rewrite Z.div_add, Z.mod_add by lia. done.
Qed.

Lemma quiet_bounds : tail s <= head s <= tail s + q_capacity (y_q s).
Proof.
  pose proof (i_tail _ Hi). destruct (i_q _ Hi) as ([? ?] & _). split.
  - destruct (decide (tail s <= head s)) as [|Hgt]; [done|]. destruct (all_popped (head s)) as [E _].
    + rewrite (i_head _ Hi). rewrite (i_head _ Hi) in Hgt. lia.
    + assert (0 <= head s) by (rewrite (i_head _ Hi); lia). pose proof (i_push_issued _ Hi (head s) ltac:(lia) ltac:(lia)). lia.
  - destruct (decide (head s <= tail s + q_capacity (y_q s))) as [|Hgt]; [done|].
    pose proof (all_pushed (tail s + q_capacity (y_q s)) ltac:(lia)) as E. destruct (next_round (tail s)) as [E1 E2]. rewrite E1, E2 in E.
    pose proof (i_pop_issued _ Hi (tail s) ltac:(lia) ltac:(lia)). lia.
Qed.

Lemma quiet_contents h : tail s <= h < head s → val s h = pushed_at s h.
Proof.
  intros Hh. pose proof (i_tail _ Hi). pose proof (all_pushed h ltac:(lia)).
  destruct (decide (2 * round s h + 1 < tn s h)) as [E|E]; [pose proof (i_pop_issued _ Hi h ltac:(lia) E); lia|].
  destruct (i_val _ Hi h ltac:(lia) ltac:(lia)) as [?|(i & v & Hp)]; [done|]. by destruct (Hqs i _ Hp).
Qed.
End quiet.

(** ** Progress *)

Definition holds_ticket s (j : nat) : Prop := ∃ p, y_threads s !! j = Some p ∧ (is_Some (push_ticket p) ∨ is_Some (pop_ticket p)).

(** A thread whose turn it is goes on. *)
Lemma turn_enabled s j p : inv s → tickets_left s → y_threads s !! j = Some p → is_Some (push_ticket p) ∨ is_Some (pop_ticket p) →
  (∀ v h, p = EWait v h → tn s h = 2 * round s h) → (∀ t, p = PWait t → tn s t = 2 * round s t + 1) →
  ∃ s', advance j s = Ok s'.
Proof.
  intros Hi Hl Hp Ht He Hw. destruct (advance_fine s j Hi Hl) as [E|(s' & E & _)]; [|by exists s']. exfalso. revert E.
  pose proof (i_q _ Hi) as Hq. pose proof Hl as [? ?]. pose proof (i_pc _ Hi _ _ Hp) as Hok.
  assert (∀ q h sl (f : queue → result sys), (∀ q', f q' ≠ Throw WouldBlock) → (set_slot q h sl ≫= f) ≠ Throw WouldBlock) as Hset.
  { intros q h sl f Hf. unfold set_slot, arr_setZ, arr_set. repeat case_decide; cbn; try done. }
  unfold advance. rewrite Hp. destruct p as [v h| | | |v h|v h|t| | | |t|t v|t v|]; try (by destruct Ht as [[? ?]|[? ?]]);
    rewrite slot_at_ok by done; cbn [mbind result_bind].
  - destruct Hok as (Hr & _). destruct (turns s h Hq ltac:(lia)) as (-> & _).
    rewrite (proj2 (Z.eqb_eq _ _)); [done|]. symmetry. by apply (He v).
  - by apply Hset.
  - by apply Hset.
  - destruct Hok as (Hr & _). destruct (turns s t Hq ltac:(lia)) as (_ & -> & _).
    rewrite (proj2 (Z.eqb_eq _ _)); [done|]. symmetry. by apply Hw.
  - by destruct (sl_storage (slot_of s t)).
  - by apply Hset.
  - by apply Hset.
Qed.

(** The ticket of round [m] in the slot of [h]. *)
Definition peer s h m : Z := m * q_capacity (y_q s) + h `mod` q_capacity (y_q s).
Lemma peer_spec s h m : q_ok (y_q s) → 0 <= m →
  0 <= peer s h m ∧ round s (peer s h m) = m ∧ tn s (peer s h m) = tn s h ∧
  (m <= round s h → peer s h m <= h - (round s h - m) * q_capacity (y_q s)).
Proof.
  intros ([? ?] & _) Hm. pose proof (Z.mod_pos_bound h (q_capacity (y_q s)) ltac:(lia)) as Hb. unfold peer, round, tn, slot_of. split_and!.
  - nia.
  - rewrite Z.div_add_l by lia. rewrite (Z.div_small (h `mod` _)) by lia. lia.
  - rewrite Z.add_comm, Z.mod_add, Z.mod_mod by lia. done.
  - intros _. pose proof (Z.div_mod h (q_capacity (y_q s)) ltac:(lia)). nia.
Qed.

(** A push that is not ahead of the pops by more than the capacity, or a pop
    that is not ahead of the pushes, does not wait for itself. *)
Lemma waiter_moves s i p : inv s → tickets_left s → y_threads s !! i = Some p →
  match p with EWait _ h => h < tail s + q_capacity (y_q s) | PWait t => t < head s | _ => False end →
  ∃ j s', holds_ticket s j ∧ advance j s = Ok s'.
Proof.
  intros Hi Hl Hp Hnot. pose proof (i_q _ Hi) as Hq. pose proof Hq as ([? ?] & _). pose proof (i_pc _ Hi _ _ Hp) as Hok.
  assert (∃ x r, (push_ticket p = Some x ∨ pop_ticket p = Some x) ∧ 0 <= x ∧ tn s x <= r ∧
     (r = 2 * round s x ∧ x < head s ∧ x < tail s + q_capacity (y_q s) ∨ r = 2 * round s x + 1 ∧ x < tail s ∧ x < head s) ∧
     (tn s x = r → ∃ s', advance i s = Ok s')) as (x & r & Htk & Hx0 & Hle & Hcase & Hnow).
  { destruct p as [v h| | | | | |t| | | | | | |]; try done.
    - destruct Hok as (Hr & _ & Htn). exists h, (2 * round s h). split; [by left|]. split; [lia|]. split; [done|]. split; [left; lia|].
      intros E. apply (turn_enabled s i (EWait v h)); try done; [left; by eexists|]. by intros ? ? [= _ <-].
    - destruct Hok as (Hr & _ & Htn). exists t, (2 * round s t + 1). split; [by right|]. split; [lia|]. split; [done|]. split; [right; lia|].
      intros E. apply (turn_enabled s i (PWait t)); try done; [right; by eexists|]. by intros ? [= <-]. }
  destruct (decide (tn s x = r)) as [E|Hne].
  { destruct (Hnow E) as [s' ?]. exists i, s'. split; [|done]. exists p. split; [done|]. destruct Htk as [->| ->]; [left|right]; by eexists. }
  pose proof (i_turn _ Hi x) as Hpos. set (m := tn s x / 2).
  assert (0 <= m) as Hm by (apply Z.div_pos; lia). destruct (peer_spec s x m Hq Hm) as (Hp0 & Hpr & Hpt & Hple).
  assert (∀ j p1, y_threads s !! j = Some p1 → is_Some (push_ticket p1) ∨ is_Some (pop_ticket p1) → (∃ s', advance j s = Ok s') →
     ∃ j s', holds_ticket s j ∧ advance j s = Ok s') as Hgo.
  { intros j p1 Hj Ht [s' Hs']. exists j, s'. split; [by exists p1|done]. }
  pose proof (Z.div_mod (tn s x) 2 ltac:(lia)) as Hdm. pose proof (Z.mod_pos_bound (tn s x) 2 ltac:(lia)). change (tn s x / 2) with m in Hdm.
  destruct (decide (tn s x = 2 * m)) as [Ev|Hodd].
  - assert (peer s x m < head s) as Hph by (destruct Hcase as [(? & ? & ?)|(? & ? & ?)]; pose proof (Hple ltac:(lia)); nia).
    destruct (i_push_live _ Hi (peer s x m) ltac:(lia)) as [?|(j & p1 & Hj & Ht)]; [lia|].
    apply (Hgo j p1 Hj); [left; by eexists|]. apply (turn_enabled s j p1); try done; [left; by eexists|..].
    + intros v h ->. cbn in Ht. injection Ht as ->. lia.
    + intros t ->. done.
  - assert (peer s x m < tail s) as Hph by (destruct Hcase as [(? & ? & ?)|(? & ? & ?)]; pose proof (Hple ltac:(lia)); nia).
    destruct (i_pop_live _ Hi (peer s x m) ltac:(lia)) as [[? ?]|(j & p1 & Hj & Ht)]; [lia|].
    apply (Hgo j p1 Hj); [right; by eexists|]. apply (turn_enabled s j p1); try done; [right; by eexists|..].
    + intros v h ->. done.
    + intros t ->. cbn in Ht. injection Ht as ->. lia.
Qed.
End queue.

(** ** The claims *)

(** [C13] Elements leave the queue in the order of their tickets, whatever the
    interleaving of pushes, pops and their [try_] forms: what a pop reads with
    ticket [t] is the element of the push with ticket [t]; no ticket is read
    twice; an answer is an element that was read.  With no operation under way
    the queue holds at most [capacity] elements, every ticket below the tail was
    read, and the slots hold exactly the elements pushed from the tail to the head. *)
Theorem mpmc_fifo {T} (POWER_TWO : bool) capacity (s : sys (T := T)) : mpmc_reachable POWER_TWO capacity s →
  let q := y_q s in
  (∀ t v, (t, v) ∈ y_popped s → 0 <= t < q_tail q ∧ y_pushed s !! Z.to_nat t = Some v) ∧
  NoDup (y_popped s).*1 ∧
  (∀ i v, y_threads s !! i = Some (Returned (RPop (Some v))) → ∃ t, (t, v) ∈ y_popped s) ∧
  (quiescent s →
   q_tail q <= q_head q <= q_tail q + capacity ∧ q_head q = Z.of_nat (length (y_pushed s)) ∧
   (∀ t, 0 <= t < q_tail q → t ∈ (y_popped s).*1) ∧
   ∀ h, q_tail q <= h < q_head q → sl_storage <$> slot_at POWER_TWO q h = Ok (y_pushed s !! Z.to_nat h)).
Proof.
  intros [Hi Hc]%reachable_inv. cbn zeta. split; [apply (i_popped _ _ Hi)|]. split; [apply (i_nodup _ _ Hi)|]. split.
  { intros i v Hp. apply (i_pc _ _ Hi _ _ Hp). }
  intros Hqs. rewrite <- Hc. split; [by apply (quiet_bounds POWER_TWO)|]. split; [apply (i_head _ _ Hi)|]. split.
  - intros t Ht. by apply (all_popped POWER_TWO s Hi Hqs).
  - intros h Hh. rewrite slot_at_ok by apply (i_q _ _ Hi). cbn. f_equal. by apply (quiet_contents POWER_TWO s Hi Hqs).
Qed.

(** No access of the queue fails, in whatever order the threads run: a
    slot index is in range, and a pop never reads a slot without an element. *)
Theorem mpmc_never_fails {T} (POWER_TWO : bool) capacity (s : sys (T := T)) a e : mpmc_reachable POWER_TWO capacity s → tickets_left s →
  exec POWER_TWO a s = Throw e → e = WouldBlock.
Proof. intros [Hi _]%reachable_inv Hl He. destruct (exec_fine POWER_TWO s a Hi Hl) as [E|(s' & E & _)]; congruence. Qed.

(** [C14] The waits do not lock the queue: while a push whose ticket is less than
    the capacity ahead of the tail waits, or a pop whose ticket is below the head,
    some thread that holds a ticket can take its next step. *)
Theorem mpmc_progress {T} (POWER_TWO : bool) capacity (s : sys (T := T)) i p : mpmc_reachable POWER_TWO capacity s → tickets_left s →
  y_threads s !! i = Some p →
  match p with EWait _ h => h < q_tail (y_q s) + capacity | PWait t => t < q_head (y_q s) | _ => False end →
  ∃ j s', holds_ticket s j ∧ advance POWER_TWO j s = Ok s'.
Proof. intros [Hi <-]%reachable_inv Hl Hp Hm. by eapply waiter_moves. Qed.

(** ** Runs *)

#[export] Instance tickets_left_dec {T} (s : sys (T := T)) : Decision (tickets_left s) := and_dec _ _.

Fixpoint run {T} (POWER_TWO : bool) (acts : list action) (s : sys (T := T)) : option sys :=
  match acts with
  | [] => Some s
  | a :: acts =>
      if decide (tickets_left s) then match exec POWER_TWO a s with Ok s1 => run POWER_TWO acts s1 | Throw _ => None end else None
  end.
Lemma mpmc_run_reachable {T} POWER_TWO capacity acts (s s' : sys (T := T)) :
  mpmc_reachable POWER_TWO capacity s → run POWER_TWO acts s = Some s' → mpmc_reachable POWER_TWO capacity s'.
Proof.
  revert s. induction acts as [|a acts IH]; cbn; intros s Hr H; [by simplify_eq|]. case_decide as Hl; [|done].
  destruct (exec POWER_TWO a s) as [s1|] eqn:E; [|done]. apply (IH s1); [|done]. destruct Hr as (s0 & H0 & Hr).
  exists s0. split; [done|]. eapply rtc_r; [done|]. by exists a.
Qed.

Definition sample_start : sys (T := Z) := mkSys (mkQueue 2 1 [mkSlot 0 None; mkSlot 0 None] 0 0) ∅ [] [].
Definition steps (i n : nat) : list (action (T := Z)) := replicate n (AStep i).
(** Three threads push, the third waits for the slot of the first; a pop frees
    it: it has the ticket of the first element. *)
Definition sample_wait : list (action (T := Z)) :=
  AStart 1 (OPush 10) :: AStart 2 (OTryPush 20) :: steps 1 3 ++ steps 2 4 ++ [AStart 3 (OPush 30); AStart 4 OTryPop] ++ steps 4 2.
Definition sample_done : list (action (T := Z)) := sample_wait ++ steps 4 3 ++ steps 3 3.
Definition run_state (acts : list (action (T := Z))) : sys := default sample_start (run true acts sample_start).

Lemma sample_reachable acts : is_Some (run true acts sample_start) → mpmc_reachable true 2 (run_state acts).
Proof.
  intros [s E]. unfold run_state. rewrite E. cbn. refine (mpmc_run_reachable true 2 acts sample_start s _ E).
  exists sample_start. split; [|apply rtc_refl]. split; [lia|]. eexists. split; [reflexivity|]. reflexivity.
Qed.

Lemma mpmc_fifo_witness :
  y_pushed (run_state sample_done) = [10; 20; 30] ∧ y_popped (run_state sample_done) = [(0, 10)] ∧
  NoDup (y_popped (run_state sample_done)).*1.
Proof.
  split_and!; [reflexivity|reflexivity|]. eapply (mpmc_fifo true 2), sample_reachable. vm_compute. by eexists.
Defined.

Lemma mpmc_never_fails_witness : exec true (AStep 3) (run_state sample_wait) = Throw WouldBlock ∧ WouldBlock = WouldBlock.
Proof.
  split; [reflexivity|]. apply (mpmc_never_fails true 2 (run_state sample_wait) (AStep 3)).
  - apply sample_reachable. vm_compute. by eexists.
  - vm_compute. split; reflexivity.
  - reflexivity.
Defined.

Lemma mpmc_progress_witness : y_threads (run_state sample_wait) !! 3%nat = Some (EWait 30 2) ∧ ∃ j s',
  holds_ticket (run_state sample_wait) j ∧ advance true j (run_state sample_wait) = Ok s'.
Proof.
  assert (y_threads (run_state sample_wait) !! 3%nat = Some (EWait 30 2)) as Hp by reflexivity. split; [exact Hp|].
  assert (q_tail (y_q (run_state sample_wait)) = 1) as Ht by reflexivity.
  refine (mpmc_progress true 2 (run_state sample_wait) 3 (EWait 30 2) _ _ Hp _).
  - apply sample_reachable. vm_compute. by eexists.
  - vm_compute. split; reflexivity.
  - cbn beta iota. rewrite Ht. clear. lia.
Defined.
