(* ===== verification/WorkerPool.v ===== *)
(** * threads/WorkerPool: jobs for the worker threads

    Every worker thread shares a mutex, a condition variable, the job and three
    flags with the threads that schedule jobs; here with any number of them.
    [cv.wait(guard, pred)] is the loop of the standard: test the predicate, block
    (which releases the mutex and starts to wait in one step), and take the mutex
    again once notified.  [notify_one] wakes an arbitrary waiting thread; a
    thread may also wake without being notified.

    A step is an access of the mutex, of the condition variable or of an atomic
    of the pool; what happens under the mutex is only visible to its owner. *)

From S2P Require Import Prelude Defs RingBuffer.
Local Open Scope Z_scope.

Section pool.
Context {J : Type}.

Inductive who := TheWorker | Client (c : nat).
#[global] Instance who_eq_dec : EqDecision who.
Proof. solve_decision. Defined.

(** Where a thread is in taking a mutex and waiting for a predicate. *)
Inductive stage := SLock | STest | SBlock | SBlocked | SGo.

(** The worker thread *)
Inductive wpc :=
| WInit
| WLoop
| WWait (st : stage)
| WRun
| WNotify
| WUnlock (stop : bool)
| WExit
| WGone.

(** [WorkerThread] with the thread itself, the jobs that were scheduled and the
    jobs that were executed. *)
Record slot := mkSlot {
  mutex : option who; waiting : list who;
  job : option J; wtReady : bool; jobSet : bool; jobDone : bool;
  w_pc : wpc; sched : list J; ran : list J }.
Definition slot_new : slot := mkSlot None [] None true false false WInit [] [].
Implicit Types (m : slot) (c t k : nat) (j : J) (keepRunning : bool).

Definition set_mutex o m : slot := mkSlot o (waiting m) (job m) (wtReady m) (jobSet m) (jobDone m) (w_pc m) (sched m) (ran m).
Definition set_waiting l m : slot := mkSlot (mutex m) l (job m) (wtReady m) (jobSet m) (jobDone m) (w_pc m) (sched m) (ran m).
Definition set_pc p m : slot := mkSlot (mutex m) (waiting m) (job m) (wtReady m) (jobSet m) (jobDone m) p (sched m) (ran m).
Definition set_wtReady b m : slot := mkSlot (mutex m) (waiting m) (job m) b (jobSet m) (jobDone m) (w_pc m) (sched m) (ran m).

(** ** The mutex and the condition variable *)

Definition lock (w : who) m : result slot :=
  match mutex m with None => Ok (set_mutex (Some w) m) | Some _ => Throw WouldBlock end.
Definition unlock m : slot := set_mutex None m.
Definition block (w : who) m : slot := set_waiting (waiting m ++ [w]) (unlock m).
Definition awake (w : who) m : result slot := if decide (w ∈ waiting m) then Throw WouldBlock else lock w m.
(** [k] is the choice of the thread that is woken. *)
Definition wake k m : result slot :=
  match waiting m !! k with Some _ => Ok (set_waiting (delete k (waiting m)) m) | None => Throw WouldBlock end.
Definition notify_one k m : result slot := match waiting m with [] => Ok m | _ => wake k m end.

(** ** The worker thread *)

(** The step of the thread, and what it adds to [runningThreads]. *)
Definition worker_step keepRunning k m : result (slot * Z) :=
  match w_pc m with
  | WInit => Ok (set_pc WLoop m, 1)
  | WLoop => Ok (set_pc (if keepRunning then WWait SLock else WExit) m, 0)
  | WWait SLock => m ← lock TheWorker m; Ok (set_pc (WWait STest) m, 0)
  | WWait STest => Ok (set_pc (WWait (if negb keepRunning || jobSet m then SGo else SBlock)) m, 0)
  | WWait SBlock => Ok (set_pc (WWait SBlocked) (block TheWorker m), 0)
  | WWait SBlocked => m ← awake TheWorker m; Ok (set_pc (WWait STest) m, 0)
  | WWait SGo => Ok (if keepRunning then set_pc WRun (set_wtReady false m) else set_pc (WUnlock true) m, 0)
  | WRun =>
      (* an empty function throws *)
      j ← of_option RuntimeError (job m);
      Ok (mkSlot (mutex m) (waiting m) (job m) true false true WNotify (sched m) (ran m ++ [j]), 0)
  | WNotify => m ← notify_one k m; Ok (set_pc (WUnlock false) m, 0)
  | WUnlock stop => Ok (set_pc (if stop then WExit else WLoop) (unlock m), 0)
  | WExit => Ok (set_pc WGone m, -1)
  | WGone => Throw WouldBlock
  end.

(** ** The threads that use the pool *)

(** What a thread waits for; with [Await k j] comes the number of the job. *)
Inductive goal := Schedule (j : J) (sync : bool) | Await (k : nat) (j : J) | Join.
Inductive ret := RAsync | RSync (t k : nat) (j : J) | RJoined.
Inductive cpc :=
| CStarting
| CIdle (r : option ret)
| CWait (t : nat) (g : goal) (st : stage)
| CNotify (t : nat) (sync : option (nat * J))
| CStop (t : nat)
| CStopSpin
| CStopped.

Record sys := mkSys { keep : bool; running : Z; slots : list slot; clients : gmap nat cpc }.
Implicit Types (s : sys) (g : goal) (p : cpc).

Definition goto c p s : sys := mkSys (keep s) (running s) (slots s) (<[c := p]> (clients s)).
Definition put t m s : sys := mkSys (keep s) (running s) (<[t := m]> (slots s)) (clients s).
Definition workersCount s : nat := length (slots s).

(** The constructor up to the loop at its end. *)
Definition pool_new (workers : nat) : result sys :=
  _ ← ensure (Z.of_nat workers <? 70);
  Ok (mkSys true 0 (replicate workers slot_new) {[0%nat := CStarting]}).

Inductive call := ScheduleSync (t : nat) (j : J) | ScheduleAsync (t : nat) (j : J) | JoinAll | Destroy.

Definition start c (o : call) s : result sys :=
  match clients s !! c with
  | Some (CIdle _) =>
      match o with
      | ScheduleSync t j => _ ← ensure (bool_decide (t < workersCount s)%nat); Ok (goto c (CWait t (Schedule j true) SLock) s)
      | ScheduleAsync t j => _ ← ensure (bool_decide (t < workersCount s)%nat); Ok (goto c (CWait t (Schedule j false) SLock) s)
      | JoinAll => Ok (goto c (if decide (0 < workersCount s)%nat then CWait 0 Join SLock else CIdle (Some RJoined)) s)
      | Destroy => Ok (goto c (CStop 0) (mkSys false (running s) (slots s) (clients s)))
      end
  | _ => Throw WouldBlock
  end.

(** The predicate of the wait. *)
Definition ready g m : bool :=
  match g with Schedule _ _ | Join => negb (jobSet m) && wtReady m | Await _ _ => jobDone m end.

(** What follows a wait, up to the release of the mutex. *)
Definition set_job j m : slot := mkSlot None (waiting m) (Some j) (wtReady m) true false (w_pc m) (sched m ++ [j]) (ran m).
Definition proceed (count t : nat) g m : cpc * slot :=
  match g with
  | Schedule j sync => (CNotify t (if sync then Some (length (sched m), j) else None), set_job j m)
  | Await k j => (CIdle (Some (RSync t k j)), unlock m)
  | Join => (if decide (S t < count)%nat then CWait (S t) Join SLock else CIdle (Some RJoined), unlock m)
  end.

Definition client_step c k s : result sys :=
  match clients s !! c with
  | Some CStarting => if running s <? Z.of_nat (workersCount s) then Throw WouldBlock else Ok (goto c (CIdle None) s)
  | Some (CWait t g st) =>
      m ← arr_get (slots s) t;
      match st with
      | SLock => m ← lock (Client c) m; Ok (goto c (CWait t g STest) (put t m s))
      | STest => Ok (goto c (CWait t g (if ready g m then SGo else SBlock)) s)
      | SBlock => Ok (goto c (CWait t g SBlocked) (put t (block (Client c) m) s))
      | SBlocked => m ← awake (Client c) m; Ok (goto c (CWait t g STest) (put t m s))
      | SGo => let '(p, m) := proceed (workersCount s) t g m in Ok (goto c p (put t m s))
      end
  | Some (CNotify t sync) =>
      m ← arr_get (slots s) t;
      m ← notify_one k m;
      Ok (goto c (match sync with Some (n, j) => CWait t (Await n j) SLock | None => CIdle (Some RAsync) end) (put t m s))
  | Some (CStop t) =>
      if decide (t < workersCount s)%nat then
        m ← arr_get (slots s) t;
        m ← notify_one k m;
        Ok (goto c (CStop (S t)) (put t m s))
      else Ok (goto c CStopSpin s)
  | Some CStopSpin => if running s =? 0 then Ok (goto c CStopped s) else Throw WouldBlock
  | Some (CIdle _) | Some CStopped | None => Throw WouldBlock
  end.

(** ** Runs

    A thread of the pool starts others, threads call the pool, and all threads
    take steps. *)
Inductive action :=
| ASpawn (c : nat)
| ACall (c : nat) (o : call)
| AClient (c k : nat)
| AWorker (t k : nat)
| ASpurious (t k : nat).

Definition exec (a : action) s : result sys :=
  match a with
  | ASpawn c =>
      match clients s !! 0%nat, clients s !! c with
      | Some (CIdle _), None => Ok (goto c (CIdle None) s)
      | _, _ => Throw WouldBlock
      end
  | ACall c o => start c o s
  | AClient c k => client_step c k s
  | AWorker t k =>
      m ← of_option WouldBlock (slots s !! t);
      '(m, d) ← worker_step (keep s) k m;
      Ok (put t m (mkSys (keep s) (running s +₆₄ d) (slots s) (clients s)))
  | ASpurious t k => m ← of_option WouldBlock (slots s !! t); m ← wake k m; Ok (put t m s)
  end.

Definition step s s' : Prop := ∃ a, exec a s = Ok s'.
Definition pool_reachable (workers : nat) s : Prop := ∃ s0, pool_new workers = Ok s0 ∧ rtc step s0 s.

(** ** The invariant *)

(** Who owns the mutex, by its program counter. *)
Definition w_holds (p : wpc) : bool :=
  match p with WWait STest | WWait SBlock | WWait SGo | WRun | WNotify | WUnlock _ => true | _ => false end.
Definition c_holds t p : bool :=
  match p with CWait t' _ STest | CWait t' _ SBlock | CWait t' _ SGo => bool_decide (t = t') | _ => false end.
Definition stopping (w : wpc) : bool := match w with WUnlock true | WExit | WGone => true | _ => false end.
Definition at_run (w : wpc) : bool := match w with WRun => true | _ => false end.

Record slot_ok keepRunning m : Prop := mkSlotOk {
  sk_holds : w_holds (w_pc m) = true ↔ mutex m = Some TheWorker;
  sk_ready : wtReady m = negb (at_run (w_pc m));
  sk_jobs : if jobSet m then ∃ j, job m = Some j ∧ sched m = ran m ++ [j] else sched m = ran m;
  sk_done : jobDone m = true → jobSet m = false;
  sk_pending : sched m ≠ [] → jobSet m || jobDone m = true;
  sk_go : w_pc m = WWait SGo → keepRunning = false ∨ jobSet m = true;
  sk_run : w_pc m = WRun → jobSet m = true;
  sk_block : w_pc m = WWait SBlock → jobSet m = false;
  sk_waits : TheWorker ∈ waiting m → w_pc m = WWait SBlocked;
  sk_nodup : NoDup (waiting m);
  sk_keep : keepRunning = true → stopping (w_pc m) = false;
  sk_notify : w_pc m = WNotify → jobSet m = false ∧ jobDone m = true;
}.

Definition goal_ok m g : Prop := match g with Await k j => sched m !! k = Some j | _ => True end.
Definition client_ok (l : list slot) p : Prop :=
  match p with
  | CWait t g st => ∃ m, l !! t = Some m ∧ goal_ok m g ∧ (st = SGo → ready g m = true) ∧ (st = SBlock → ready g m = false)
  | CNotify t (Some (k, j)) => ∃ m, l !! t = Some m ∧ sched m !! k = Some j
  | CNotify t None => is_Some (l !! t)
  | CIdle (Some (RSync t k j)) => ∃ m, l !! t = Some m ∧ ran m !! k = Some j
  | _ => True
  end.

Record inv s : Prop := mkInv {
  iv_slot t m : slots s !! t = Some m → slot_ok (keep s) m;
  iv_hold c t m : slots s !! t = Some m → mutex m = Some (Client c) ↔ ∃ p, clients s !! c = Some p ∧ c_holds t p = true;
  iv_wait c t m : slots s !! t = Some m → Client c ∈ waiting m → ∃ g, clients s !! c = Some (CWait t g SBlocked);
  iv_client c p : clients s !! c = Some p → client_ok (slots s) p;
}.

(** What a step of [w] may do to a slot. *)
Record slot_step (w : who) m m' : Prop := mkSlotStep {
  ss_mutex c : Client c ≠ w → mutex m' = Some (Client c) ↔ mutex m = Some (Client c);
  ss_waiting c : Client c ≠ w → Client c ∈ waiting m' → Client c ∈ waiting m;
  ss_ran : ran m `prefix_of` ran m';
  ss_sched : sched m `prefix_of` sched m';
  ss_flags c : Client c ≠ w → mutex m = Some (Client c) → jobSet m' = jobSet m ∧ wtReady m' = wtReady m ∧ jobDone m' = jobDone m;
}.

Lemma ready_flags g m m' : jobSet m' = jobSet m → wtReady m' = wtReady m → jobDone m' = jobDone m → ready g m' = ready g m.
Proof. unfold ready. by intros -> -> ->. Qed.

Lemma client_ok_other s c t m m' w p : inv s → slots s !! t = Some m → slot_step w m m' → Client c ≠ w →
  clients s !! c = Some p → client_ok (<[t := m']> (slots s)) p.
Proof.
  intros Hi Hm [Hmx _ Hran Hsch Hfl] Hc Hp. pose proof (iv_client s Hi c p Hp) as Hok.
  assert (t < length (slots s))%nat as Hlt by by eapply lookup_lt_Some.
  assert (∀ t' m0, slots s !! t' = Some m0 → ∃ m1, <[t := m']> (slots s) !! t' = Some m1 ∧ ran m0 `prefix_of` ran m1 ∧ sched m0 `prefix_of` sched m1 ∧
    (t' = t ∧ m1 = m' ∧ m0 = m ∨ m1 = m0)) as Hl.
  { intros t' m0 H0. destruct (decide (t' = t)) as [->|].
    - exists m'. rewrite list_lookup_insert_eq by done. assert (m0 = m) as -> by congruence. split_and!; auto.
    - exists m0. rewrite list_lookup_insert_ne by done. split_and!; auto. }
  destruct p as [|[[|t' k j|]|]|t' g st|t' [[k j]|]|t'| |]; cbn in Hok |- *; try done.
  - destruct Hok as (m0 & H0 & Hk). destruct (Hl t' m0 H0) as (m1 & ? & ? & ? & _). exists m1. split; [done|]. by eapply prefix_lookup_Some.
  - destruct Hok as (m0 & H0 & Hg & Hgo & Hb). destruct (Hl t' m0 H0) as (m1 & H1 & _ & Hs & Hcase). exists m1. split; [done|]. split.
    { destruct g; [done| |done]. cbn in *. by eapply prefix_lookup_Some. }
    assert (st = SGo ∨ st = SBlock → ready g m1 = ready g m0) as Hr.
    { intros Hst. destruct Hcase as [(-> & -> & ->)| ->]; [|done].
      assert (mutex m = Some (Client c)) as Hmc.
      { apply (iv_hold s Hi c t m Hm). exists (CWait t g st). split; [done|]. destruct Hst as [-> | ->]; cbn; by rewrite bool_decide_eq_true. }
      destruct (Hfl c Hc Hmc) as (? & ? & ?). by apply ready_flags. }
    split; intros E; rewrite Hr by auto; auto.
  - destruct Hok as (m0 & H0 & Hk). destruct (Hl t' m0 H0) as (m1 & ? & ? & ? & _). exists m1. split; [done|]. by eapply prefix_lookup_Some.
  - destruct Hok as (m0 & H0). destruct (Hl t' m0 H0) as (m1 & ? & _). by exists m1.
Qed.

Lemma inv_put s t m m' w r cl' : inv s → slots s !! t = Some m → slot_ok (keep s) m' → slot_step w m m' →
  (∀ c, Client c ≠ w → cl' !! c = clients s !! c) →
  (∀ c, w = Client c → ∃ p, cl' !! c = Some p ∧ client_ok (<[t := m']> (slots s)) p ∧
     (mutex m' = Some (Client c) ↔ c_holds t p = true) ∧ (Client c ∈ waiting m' → ∃ g, p = CWait t g SBlocked) ∧
     ∀ t' m1, t' ≠ t → slots s !! t' = Some m1 → c_holds t' p = false ∧ mutex m1 ≠ Some (Client c) ∧ Client c ∉ waiting m1) →
  inv (mkSys (keep s) r (<[t := m']> (slots s)) cl').
Proof.
  intros Hi Hm Hok Hss Hcl Hact. assert (t < length (slots s))%nat as Hlt by by eapply lookup_lt_Some.
  assert (∀ t' m1, <[t := m']> (slots s) !! t' = Some m1 → t' = t ∧ m1 = m' ∨ t' ≠ t ∧ slots s !! t' = Some m1) as Hcase.
  { intros t' m1. destruct (decide (t' = t)) as [->|]; [rewrite list_lookup_insert_eq by done; intros [= ->]; auto|rewrite list_lookup_insert_ne by done; auto]. }
  constructor; cbn.
  - intros t' m1 [[-> ->]|[? ?]]%Hcase; [done|]. by eapply iv_slot.
  - intros c t' m1 H1. destruct (decide (w = Client c)) as [Hw|Hw].
    + destruct (Hact c Hw) as (p & Hp & _ & Hmx & _ & Hoth). destruct (Hcase t' m1 H1) as [[-> ->]|[Hne H2]].
      * rewrite Hmx. split; [by eauto|]. intros (p0 & ? & ?). congruence.
      * destruct (Hoth t' m1 Hne H2) as (? & ? & _). split; [done|]. intros (p0 & ? & ?). congruence.
    + rewrite Hcl by congruence. destruct (Hcase t' m1 H1) as [[-> ->]|[Hne H2]].
      * rewrite (ss_mutex _ _ _ Hss) by congruence. by apply iv_hold.
      * by apply iv_hold.
  - intros c t' m1 H1 Hin. destruct (decide (w = Client c)) as [Hw|Hw].
    + destruct (Hact c Hw) as (p & Hp & _ & _ & Hwt & Hoth). destruct (Hcase t' m1 H1) as [[-> ->]|[Hne H2]].
      * destruct (Hwt Hin) as [g ->]. by exists g.
      * by destruct (Hoth t' m1 Hne H2) as (_ & _ & []).
    + rewrite Hcl by congruence. destruct (Hcase t' m1 H1) as [[-> ->]|[Hne H2]].
      * eapply iv_wait; [done..|]. eapply (ss_waiting _ _ _ Hss); [congruence|done].
      * by eapply iv_wait.
  - intros c p Hp. destruct (decide (w = Client c)) as [Hw|Hw].
    + destruct (Hact c Hw) as (p' & Hp' & ? & _). congruence.
    + rewrite Hcl in Hp by congruence. eapply client_ok_other; [done..| |done]. congruence.
Qed.

(** A thread goes on without touching a slot; the pool may be stopped. *)
Lemma inv_goto s c p p' kr : inv s → clients s !! c = Some p ∨ clients s !! c = None ∧ p = CStarting →
  (∀ t, c_holds t p' = c_holds t p) → (∀ t g, p ≠ CWait t g SBlocked) → client_ok (slots s) p' →
  (kr = keep s ∨ kr = false) → inv (goto c p' (mkSys kr (running s) (slots s) (clients s))).
Proof.
  intros Hi Hp Hh Hb Hok Hkr. constructor; cbn.
  - intros t m Hm. destruct (iv_slot s Hi t m Hm). destruct Hkr as [->| ->]; constructor; auto. naive_solver.
  - intros c' t m Hm. rewrite (iv_hold s Hi c' t m Hm). destruct (decide (c' = c)) as [->|]; [|by rewrite lookup_insert_ne].
    rewrite lookup_insert_eq. split.
    + intros (p0 & H0 & H1). exists p'. split; [done|]. rewrite Hh. destruct Hp as [?|[? ?]]; congruence.
    + intros (p0 & [= <-] & H1). rewrite Hh in H1. destruct Hp as [?|[? ->]]; [by exists p|done].
  - intros c' t m Hm Hin. destruct (iv_wait s Hi c' t m Hm Hin) as [g Hg]. destruct (decide (c' = c)) as [->|]; [|exists g; by rewrite lookup_insert_ne].
    destruct Hp as [?|[? ?]]; [|congruence]. destruct (Hb t g). congruence.
  - intros c' p0 H0. destruct (decide (c' = c)) as [->|]; [rewrite lookup_insert_eq in H0; by injection H0 as <-|].
    rewrite lookup_insert_ne in H0 by done. by eapply iv_client.
Qed.

(** ** Steps of a slot *)

Lemma lock_inv w m m' : lock w m = Ok m' → mutex m = None ∧ m' = set_mutex (Some w) m.
Proof. unfold lock. destruct (mutex m); [done|]. by intros [= <-]. Qed.
Lemma awake_inv w m m' : awake w m = Ok m' → w ∉ waiting m ∧ mutex m = None ∧ m' = set_mutex (Some w) m.
Proof. unfold awake. case_decide; [done|]. intros [? ?]%lock_inv. done. Qed.
Lemma wake_inv k m m' : wake k m = Ok m' → ∃ l w, m' = set_waiting l m ∧ waiting m ≡ₚ w :: l.
Proof.
  unfold wake. destruct (waiting m !! k) as [w|] eqn:E; [|done]. intros [= <-]. eexists _, w. split; [done|]. by apply delete_Permutation.
Qed.
Lemma notify_inv k m m' : notify_one k m = Ok m' → m' = m ∧ waiting m = [] ∨ ∃ l w, m' = set_waiting l m ∧ waiting m ≡ₚ w :: l.
Proof. unfold notify_one. destruct (waiting m) eqn:E; [intros [= <-]; auto|]. rewrite <- E. intros ?%wake_inv. auto. Qed.

(** What a slot promises does not depend on who waits. *)
Lemma slot_ok_wake kr m l w : slot_ok kr m → waiting m ≡ₚ w :: l → slot_ok kr (set_waiting l m).
Proof.
  intros [] Hp. constructor; cbn; auto.
  - intros Hin. apply sk_waits0. rewrite Hp. by right.
  - rewrite Hp in sk_nodup0. by apply NoDup_cons_1_2 in sk_nodup0.
Qed.
Lemma slot_step_wake a m l w : waiting m ≡ₚ w :: l → slot_step a m (set_waiting l m).
Proof. intros Hp. constructor; cbn; try done. intros c _ Hin. rewrite Hp. by right. Qed.
Lemma slot_step_refl w m : slot_step w m m.
Proof. by constructor. Qed.

Lemma notify_ok kr a k m m' : slot_ok kr m → notify_one k m = Ok m' → slot_ok kr m' ∧ slot_step a m m' ∧ mutex m' = mutex m ∧ w_pc m' = w_pc m ∧
  sched m' = sched m ∧ (∀ w, w ∈ waiting m' → w ∈ waiting m).
Proof.
  intros Hok [[-> _]|(l & w & -> & Hp)]%notify_inv; [split_and!; auto; apply slot_step_refl|].
  split; [by eapply slot_ok_wake|]. split; [by eapply slot_step_wake|]. split_and!; try done. intros w' Hin. rewrite Hp. by right.
Qed.

(** A worker without the mutex changes nothing but its program counter. *)
Lemma slot_ok_pc kr m (p : wpc) : slot_ok kr m → w_holds (w_pc m) = w_holds p → w_pc m ≠ WWait SBlocked → at_run (w_pc m) = at_run p →
  (p = WWait SGo → kr = false ∨ jobSet m = true) → (p = WRun → jobSet m = true) → (p = WWait SBlock → jobSet m = false) →
  (kr = true → stopping p = false) → p ≠ WNotify → slot_ok kr (set_pc p m).
Proof.
  intros [] Hh Hb Hr Hgo Hrun Hbl Hk. constructor; cbn; auto.
  - by rewrite <- Hh.
  - by rewrite <- Hr.
  - intros Hin. by apply sk_waits0 in Hin.
Qed.

Lemma worker_ok kr k m m' d : slot_ok kr m → worker_step kr k m = Ok (m', d) → slot_ok kr m' ∧ slot_step TheWorker m m'.
Proof.
  intros Hok. pose proof Hok as [Hh Hr Hj Hd Hp Hg Hrun Hb Hw Hnd Hk Hnt]. unfold worker_step.
  destruct (w_pc m) as [| |[]| | |stop| |] eqn:Epc; cbn in Hh, Hr.
  - intros [= <- _]. split; [|by constructor]. apply slot_ok_pc; rewrite ?Epc; try done; auto.
  - intros [= <- _]. split; [|by constructor]. apply slot_ok_pc; rewrite ?Epc; try done; destruct kr; done.
  - intros (m1 & [Hm ->]%lock_inv & [= <- _])%bind_Ok_inv. split.
    + constructor; cbn; try done; auto. intros Hin. by apply Hw in Hin.
    + constructor; cbn; try done. intros c ?. rewrite Hm. split; congruence.
  - intros [= <- _]. split; [|by constructor].
    apply slot_ok_pc; rewrite ?Epc; try done; destruct kr, (jobSet m); cbn; try done; auto.
  - intros [= <- _]. assert (mutex m = Some TheWorker) as Hm by by apply Hh. split.
    + constructor; cbn; try done; auto. apply NoDup_app. split_and!; [done| |apply NoDup_singleton].
      intros w Hin ->%list_elem_of_singleton. by apply Hw in Hin.
    + constructor; cbn; try done.
      * intros c ?. rewrite Hm. done.
      * intros c ? [?|Hc%list_elem_of_singleton]%elem_of_app; [done|congruence].
  - intros (m1 & (Hnw & Hm & ->)%awake_inv & [= <- _])%bind_Ok_inv. split.
    + constructor; cbn; try done; auto.
    + constructor; cbn; try done. intros c ?. rewrite Hm. split; congruence.
  - assert (mutex m = Some TheWorker) as Hm by by apply Hh. destruct kr.
    + intros [= <- _]. destruct (Hg eq_refl) as [?|Hset]; [done|]. split.
      * constructor; cbn; try done; auto. intros Hin. by apply Hw in Hin.
      * constructor; cbn; try done. intros c _. rewrite Hm. done.
    + intros [= <- _]. split; [|by constructor]. apply slot_ok_pc; rewrite ?Epc; try done.
  - assert (mutex m = Some TheWorker) as Hm by by apply Hh. specialize (Hrun eq_refl). rewrite Hrun in Hj. destruct Hj as (j & Ej & Es).
    rewrite Ej. cbn. intros [= <- _]. split.
    + constructor; cbn; try done; auto. intros Hin. by apply Hw in Hin.
    + constructor; cbn; try done; [by exists [j]|]. intros c _. rewrite Hm. done.
  - intros (m1 & Hn & [= <- _])%bind_Ok_inv. destruct (notify_ok kr TheWorker k m m1 Hok Hn) as (Hok1 & Hs1 & _ & Epc1 & _). rewrite Epc in Epc1.
    split; [apply slot_ok_pc; rewrite ?Epc1; done|]. by destruct Hs1; constructor.
  - intros [= <- _]. assert (mutex m = Some TheWorker) as Hm by by apply Hh. split.
    + destruct stop; constructor; cbn; try done; auto; intros Hin; by apply Hw in Hin.
    + constructor; cbn; try done. intros c ?. rewrite Hm. done.
  - intros [= <- _]. split; [|by constructor]. apply slot_ok_pc; rewrite ?Epc; try done; auto.
  - done.
Qed.

(** ** Steps of the system *)

Lemma slot_ok_mutex kr m o : slot_ok kr m → mutex m ≠ Some TheWorker → o ≠ Some TheWorker → slot_ok kr (set_mutex o m).
Proof. intros [] Hm Ho. constructor; cbn; auto. split; [|done]. intros E%sk_holds0. done. Qed.
Lemma slot_ok_block kr m c : slot_ok kr m → mutex m = Some (Client c) → Client c ∉ waiting m → slot_ok kr (block (Client c) m).
Proof.
  intros Hok Hm Hn. pose proof (slot_ok_mutex kr m None Hok ltac:(congruence) ltac:(done)) as [Hh]. constructor; try done; cbn in *.
  - intros [?|Hc%list_elem_of_singleton]%elem_of_app; [auto|done].
  - apply NoDup_app. split_and!; [done| |apply NoDup_singleton]. by intros w Hin ->%list_elem_of_singleton.
Qed.
Lemma slot_ok_set_job kr m c j : slot_ok kr m → mutex m = Some (Client c) → jobSet m = false → slot_ok kr (set_job j m).
Proof.
  intros [Hh Hr Hj Hd Hp Hg Hrun Hb Hw Hnd Hk Hnt] Hm Hs. rewrite Hs in Hj.
  assert (w_holds (w_pc m) ≠ true) as Hnh by (rewrite Hh; congruence).
  constructor; cbn; auto.
  - split; [by intros ?%Hnh|done].
  - exists j. by rewrite Hj.
  - intros E. by rewrite E in Hnh.
  - intros E. by rewrite E in Hnh.
Qed.

(** A client that is at slot [t] is at no other. *)
Definition at_slot t p : Prop := match p with CWait t' _ _ | CNotify t' _ => t' = t | _ => True end.
Lemma elsewhere s c p t t' m : inv s → clients s !! c = Some p → at_slot t p → t' ≠ t → slots s !! t' = Some m →
  mutex m ≠ Some (Client c) ∧ Client c ∉ waiting m.
Proof.
  intros Hi Hp Hat Hne Hm. split.
  - intros (p0 & H0 & Hh)%(iv_hold s Hi c t' m Hm). assert (p0 = p) as -> by congruence.
    destruct p as [| |t0 g st| | | |]; try done. cbn in Hat, Hh. subst t0. destruct st; try done; by apply bool_decide_eq_true in Hh.
  - intros (g & Hg)%(iv_wait s Hi c t' m Hm). assert (p = CWait t' g SBlocked) as -> by congruence. done.
Qed.

Lemma inv_client_put s c p p' t m m' : inv s → clients s !! c = Some p → at_slot t p → slots s !! t = Some m →
  slot_ok (keep s) m' → slot_step (Client c) m m' → client_ok (<[t := m']> (slots s)) p' → (∀ t', t' ≠ t → c_holds t' p' = false) →
  (mutex m' = Some (Client c) ↔ c_holds t p' = true) → (Client c ∈ waiting m' → ∃ g, p' = CWait t g SBlocked) →
  inv (goto c p' (put t m' s)).
Proof.
  intros Hi Hp Hat Hm Hok Hss Hcok Hoth Hmx Hw. apply (inv_put s t m m' (Client c)); try done.
  - intros c' Hc. rewrite lookup_insert_ne; [done|congruence].
  - intros c' [= <-]. exists p'. split; [by rewrite lookup_insert_eq|]. split; [done|]. split; [done|]. split; [done|].
    intros t' m1 Hne Hm1. split; [by apply Hoth|]. by eapply elsewhere.
Qed.

Lemma holds_other t t' g st : t' ≠ t → c_holds t' (CWait t g st) = false.
Proof. intros Hne. destruct st; try done; cbn; by rewrite bool_decide_eq_false. Qed.
Lemma at_put (l : list slot) t m m' : l !! t = Some m → <[t := m']> l !! t = Some m'.
Proof. intros ?%lookup_lt_Some. by apply list_lookup_insert_eq. Qed.

Lemma lock_step s c t g m : inv s → slots s !! t = Some m → (∃ st, clients s !! c = Some (CWait t g st)) → goal_ok m g → Client c ∉ waiting m →
  mutex m = None → inv (goto c (CWait t g STest) (put t (set_mutex (Some (Client c)) m) s)).
Proof.
  intros Hi Hm [st Hp] Hg Hw Hmx. eapply inv_client_put; [done..| | | | | |]; cbn.
  - apply slot_ok_mutex; [by eapply iv_slot|congruence|done].
  - constructor; cbn; try done. intros c' Hc. rewrite Hmx. split; congruence.
  - eexists. split; [by eapply at_put|]. split_and!; [by destruct g|done|done].
  - intros t' Hne. by apply (holds_other t t' g STest).
  - by rewrite bool_decide_eq_true.
  - done.
Qed.

Lemma unlocked c m : mutex m = Some (Client c) → slot_step (Client c) m (unlock m).
Proof. intros Hm. constructor; cbn; try done. intros c' Hc. rewrite Hm. split; congruence. Qed.

Lemma proceed_ok s c t g m : inv s → slots s !! t = Some m → clients s !! c = Some (CWait t g SGo) → ready g m = true → goal_ok m g →
  mutex m = Some (Client c) → Client c ∉ waiting m →
  let '(p, m') := proceed (workersCount s) t g m in inv (goto c p (put t m' s)).
Proof.
  intros Hi Hm Hp Hr Hg Hmx Hw. pose proof (iv_slot s Hi t m Hm) as Hok. pose proof Hok as [Hh Hwr Hj Hd _ _ _ _ _ _ _ _].
  assert (slot_ok (keep s) (unlock m)) as Hun by (apply slot_ok_mutex; [done|congruence|done]).
  unfold proceed. destruct g as [j sync|k j|].
  - apply andb_true_iff in Hr as [Hset%negb_true_iff _]. eapply inv_client_put; [done..| | | | | |].
    + by eapply slot_ok_set_job.
    + constructor; cbn; try done; [|by exists [j]|].
      * intros c' Hc. rewrite Hmx. split; congruence.
      * intros c' Hc. rewrite Hmx. congruence.
    + destruct sync; cbn; [|eexists; by eapply at_put]. eexists. split; [by eapply at_put|]. cbn. by apply list_lookup_middle.
    + done.
    + done.
    + done.
  - cbn in Hr. eapply inv_client_put; [done..| | | | | |]; try done; [by apply unlocked|].
    eexists. split; [by eapply at_put|]. cbn in *. rewrite (Hd Hr) in Hj. by rewrite <- Hj.
  - eapply inv_client_put; [done..| | | | | |]; try done; [by apply unlocked| | |].
    + case_decide; [|done]. destruct (lookup_lt_is_Some_2 (slots s) (S t)) as [m1 H1]; [done|]. exists m1.
      rewrite list_lookup_insert_ne by lia. done.
    + intros t' Hne. by case_decide.
    + case_decide; done.
Qed.

(** The worker that a call names does not exist. *)
Definition bad_call (a : action) s : bool :=
  match a with ACall _ (ScheduleSync t _) | ACall _ (ScheduleAsync t _) => negb (bool_decide (t < workersCount s)%nat) | _ => false end.
Definition fine (a : action) s (r : result sys) : Prop :=
  match r with Ok s' => inv s' | Throw WouldBlock => True | Throw e => e = EnsureFailed ∧ bad_call a s = true end.

Lemma fine_bind {A} (Q : A → Prop) (r : result A) (f : A → result sys) a s :
  match r with Ok x => Q x | Throw e => e = WouldBlock end → (∀ x, Q x → fine a s (f x)) → fine a s (r ≫= f).
Proof. destruct r as [x|e]; cbn; [auto|]. by intros ->. Qed.
Lemma lock_block w m : match lock w m with Ok m' => mutex m = None ∧ m' = set_mutex (Some w) m | Throw e => e = WouldBlock end.
Proof. destruct (lock w m) eqn:E; [by apply lock_inv|]. unfold lock in E. destruct (mutex m); congruence. Qed.
Lemma awake_block w m : match awake w m with Ok m' => w ∉ waiting m ∧ mutex m = None ∧ m' = set_mutex (Some w) m | Throw e => e = WouldBlock end.
Proof. destruct (awake w m) eqn:E; [by apply awake_inv|]. unfold awake, lock in E. case_decide; [congruence|]. destruct (mutex m); congruence. Qed.
Lemma notify_block k m : match notify_one k m with Ok m' => notify_one k m = Ok m' | Throw e => e = WouldBlock end.
Proof. unfold notify_one, wake. destruct (waiting m) as [|w l]; [done|]. by destruct ((w :: l) !! k). Qed.

Lemma call_fine s c o : inv s → fine (ACall c o) s (start c o s).
Proof.
  intros Hi. unfold start. destruct (clients s !! c) as [[|r| | | | |]|] eqn:Ec; try done. destruct s as [kr rn sl cl].
  assert (∀ t j sync, fine (ACall c (if sync : bool then ScheduleSync t j else ScheduleAsync t j)) (mkSys kr rn sl cl)
    (_ ← ensure (bool_decide (t < length sl)%nat); Ok (goto c (CWait t (Schedule j sync) SLock) (mkSys kr rn sl cl)))) as Hs.
  { intros t j sync. case_bool_decide as Hlt; cbn; [|split; [done|]; destruct sync; cbn; by rewrite bool_decide_eq_false_2].
    destruct (lookup_lt_is_Some_2 sl t Hlt) as [m Hm].
    eapply (inv_goto (mkSys kr rn sl cl) c (CIdle r)); try done; [by left|cbn; by exists m|by left]. }
  destruct o as [t j|t j| |]; cbn [workersCount slots].
  - apply (Hs t j true).
  - apply (Hs t j false).
  - cbn. eapply (inv_goto (mkSys kr rn sl cl) c (CIdle r)); [done|by left|by case_decide|done| |by left]. case_decide as E; [|done].
    destruct (lookup_lt_is_Some_2 sl 0 E) as [m Hm]. cbn. by exists m.
  - cbn. eapply (inv_goto (mkSys kr rn sl cl) c (CIdle r)); try done; [by left|by right].
Qed.

Lemma not_blocked s c t g st m : inv s → clients s !! c = Some (CWait t g st) → slots s !! t = Some m → st ≠ SBlocked → Client c ∉ waiting m.
Proof. intros Hi Hp Hm Hst Hin. destruct (iv_wait s Hi c t m Hm Hin) as [g' ?]. congruence. Qed.

Lemma notify_step s c p p' t k m m' : inv s → clients s !! c = Some p → slots s !! t = Some m → notify_one k m = Ok m' →
  at_slot t p → (∀ t', c_holds t' p = false) → (∀ t' g, p ≠ CWait t' g SBlocked) → (∀ t', c_holds t' p' = false) →
  (∀ l, client_ok l p → client_ok l p') → inv (goto c p' (put t m' s)).
Proof.
  intros Hi Hp Hm Hn Hat Hh Hb Hh' Hok. destruct (notify_ok (keep s) (Client c) k m m' (iv_slot s Hi t m Hm) Hn) as (Hok' & Hss & Hmx & _ & Hsch & Hw).
  eapply inv_client_put; [done..| | | |].
  - apply Hok. pose proof (iv_client s Hi c p Hp) as Hc. destruct p as [|[[|t' n j|]|]|t' g st|t' [[n j]|]|t'| |]; try done.
    + destruct Hc as (m0 & H0 & Hr). destruct (decide (t' = t)) as [->|].
      * exists m'. split; [by eapply at_put|]. assert (m0 = m) as -> by congruence. by eapply prefix_lookup_Some; [|apply (ss_ran _ _ _ Hss)].
      * exists m0. by rewrite list_lookup_insert_ne.
    + cbn in Hat. subst t'. destruct Hc as (m0 & H0 & Hg & Hr). exists m'. split; [by eapply at_put|]. assert (m0 = m) as -> by congruence.
      split; [destruct g; cbn in *; by rewrite ?Hsch|]. specialize (Hh t). destruct st; cbn in Hh; try done; by rewrite bool_decide_eq_true_2 in Hh.
    + cbn in Hat. subst t'. destruct Hc as (m0 & H0 & Hg). exists m'. split; [by eapply at_put|]. assert (m0 = m) as -> by congruence. by rewrite Hsch.
    + cbn in Hat. subst t'. eexists. by eapply at_put.
  - intros t' _. apply Hh'.
  - rewrite Hmx, Hh', (iv_hold s Hi c t m Hm). split; [|done]. intros (p0 & ? & E). assert (p0 = p) as -> by congruence. by rewrite Hh in E.
  - intros (g & Hg)%Hw%(iv_wait s Hi c t m Hm). destruct (Hb t g). congruence.
Qed.

Lemma wait_fine s c k t g st : inv s → clients s !! c = Some (CWait t g st) → fine (AClient c k) s (client_step c k s).
Proof.
  intros Hi Hp. pose proof (iv_client s Hi c _ Hp) as (m & Hm & Hg & Hgo & Hbl). unfold client_step. rewrite Hp, (arr_get_lookup _ _ _ Hm). cbn [mbind result_bind].
  pose proof (not_blocked s c t g st m Hi Hp Hm) as Hnb.
  assert (c_holds t (CWait t g st) = true → mutex m = Some (Client c)) as Hmx by (intros E; apply (iv_hold s Hi c t m Hm); by eexists).
  destruct st; cbn in Hmx; rewrite ?bool_decide_eq_true_2 in Hmx by done.
  - eapply fine_bind; [apply lock_block|]. intros m' [? ->]. apply lock_step; try done; [by eexists|by apply Hnb].
  - destruct s as [kr rn sl cl]. eapply (inv_goto (mkSys kr rn sl cl) c (CWait t g STest)); [done|by left| |done| |by left].
    + intros t'. by destruct (ready g m).
    + exists m. split_and!; [done|done|..]; by destruct (ready g m).
  - specialize (Hmx eq_refl). eapply inv_client_put; [done..| | | | | |]; cbn.
    + apply slot_ok_block; [by eapply iv_slot|done|by apply Hnb].
    + constructor; cbn; try done.
      * intros c' Hc. rewrite Hmx. split; congruence.
      * intros c' Hc [?|?%list_elem_of_singleton]%elem_of_app; done.
    + eexists. split; [by eapply at_put|]. split_and!; [by destruct g|done|done].
    + done.
    + done.
    + intros _. by eexists.
  - eapply fine_bind; [apply awake_block|]. intros m' (? & ? & ->). apply lock_step; try done. by eexists.
  - pose proof (proceed_ok s c t g m Hi Hm Hp (Hgo eq_refl) Hg (Hmx eq_refl) (Hnb ltac:(done))) as Hpr.
    by destruct (proceed (workersCount s) t g m).
Qed.

Lemma client_fine s c k : inv s → fine (AClient c k) s (client_step c k s).
Proof.
  intros Hi. destruct (clients s !! c) as [p|] eqn:Hp; [|unfold client_step; by rewrite Hp].
  destruct p as [|r|t g st|t sync|t| |]; [| |by eapply wait_fine|..]; unfold client_step; rewrite Hp; try done.
  - case_match; [done|]. destruct s as [kr rn sl cl]. eapply (inv_goto (mkSys kr rn sl cl) c CStarting); try done; by left.
  - pose proof (iv_client s Hi c _ Hp) as Hok. assert (is_Some (slots s !! t)) as [m Hm].
    { destruct sync as [[n j]|]; [|done]. destruct Hok as (m & ? & _). by eexists. }
    rewrite (arr_get_lookup _ _ _ Hm). cbn [mbind result_bind]. eapply fine_bind; [apply notify_block|]. intros m' Hn.
    eapply (notify_step s c (CNotify t sync)); [exact Hi|exact Hp|exact Hm|exact Hn|cbn; done|..]; try done; [by destruct sync as [[]|]|]. intros l. destruct sync as [[n j]|]; [|done]. cbn. intros (m0 & ? & ?). by exists m0.
  - case_decide as Hlt.
    + destruct (lookup_lt_is_Some_2 (slots s) t Hlt) as [m Hm]. rewrite (arr_get_lookup _ _ _ Hm). cbn [mbind result_bind].
      eapply fine_bind; [apply notify_block|]. intros m' Hn. eapply (notify_step s c (CStop t)); [exact Hi|exact Hp|exact Hm|exact Hn|done..].
    + destruct s as [kr rn sl cl]. eapply (inv_goto (mkSys kr rn sl cl) c (CStop t)); try done; by left.
  - case_match; [|done]. destruct s as [kr rn sl cl]. eapply (inv_goto (mkSys kr rn sl cl) c CStopSpin); try done; by left.
Qed.

Lemma worker_block kr k m : slot_ok kr m → match worker_step kr k m with Ok md => worker_step kr k m = Ok md | Throw e => e = WouldBlock end.
Proof.
  intros [_ _ Hj _ _ _ Hrun _ _ _ _ _]. unfold worker_step. destruct (w_pc m) as [| |[]| | |stop| |]; try done.
  - pose proof (lock_block TheWorker m). by destruct (lock TheWorker m).
  - pose proof (awake_block TheWorker m). by destruct (awake TheWorker m).
  - rewrite Hrun in Hj by done. by destruct Hj as (j & -> & _).
  - pose proof (notify_block k m). by destruct (notify_one k m).
Qed.

Lemma pool_exec_fine s a : inv s → fine a s (exec a s).
Proof.
  intros Hi. destruct a as [c|c o|c k|t k|t k]; cbn [exec].
  - destruct (clients s !! 0%nat) as [[]|]; try done. destruct (clients s !! c) eqn:Ec; [done|]. destruct s as [kr rn sl cl].
    eapply (inv_goto (mkSys kr rn sl cl) c CStarting); try done; [by right|by left].
  - by apply call_fine.
  - by apply client_fine.
  - destruct (slots s !! t) as [m|] eqn:Hm; [|done]. cbn [of_option mbind result_bind].
    eapply fine_bind; [by apply worker_block, (iv_slot s Hi t)|]. intros [m' d] Hw.
    destruct (worker_ok _ _ _ _ _ (iv_slot s Hi t m Hm) Hw) as [Hok Hss]. by eapply (inv_put s t m m' TheWorker).
  - destruct (slots s !! t) as [m|] eqn:Hm; [|done]. cbn [of_option mbind result_bind].
    destruct (wake k m) as [m'|] eqn:Ew; [|unfold wake in Ew; destruct (waiting m !! k); [done|by injection Ew as <-]].
    apply wake_inv in Ew as (l & w & -> & Hw). cbn. eapply (inv_put s t m _ TheWorker); try done.
    + by eapply slot_ok_wake; [eapply iv_slot|].
    + by eapply slot_step_wake.
Qed.

Lemma pool_new_inv n s : pool_new n = Ok s → inv s.
Proof.
  unfold pool_new. intros (u & _ & [= <-])%bind_Ok_inv.
  assert (∀ t m, replicate n slot_new !! t = Some m → m = slot_new) as Hs by (intros t m [-> _]%lookup_replicate; done).
  constructor; cbn.
  - intros t m ->%Hs. constructor; cbn; try done; [by intros ?%not_elem_of_nil|apply NoDup_nil_2].
  - intros c t m ->%Hs. cbn. split; [done|]. intros (p & [<- <-]%lookup_singleton_Some & ?). done.
  - intros c t m ->%Hs Hin. by apply not_elem_of_nil in Hin.
  - intros c p [<- <-]%lookup_singleton_Some. done.
Qed.
Lemma pool_reachable_inv n s : pool_reachable n s → inv s.
Proof.
  intros (s0 & H0%pool_new_inv & Hr). induction Hr as [|s1 s2 s3 [a Ha] _ IH]; [done|]. apply IH.
  pose proof (pool_exec_fine s1 a H0) as Hf. by rewrite Ha in Hf.
Qed.

(** ** A pool with one client

    The storage engine schedules all jobs from one thread; then no notification
    is lost. *)

Definition alone s : Prop := ∀ c, is_Some (clients s !! c) → c = 0%nat.
Definition stops p : bool := match p with CStop _ | CStopSpin | CStopped => true | _ => false end.
(** The slots whose jobs a call of [joinAll] has waited for. *)
Definition joined s p t : Prop :=
  match p with CWait t' Join _ => (t < t')%nat | CIdle (Some RJoined) => True | _ => False end.

Record live s : Prop := mkLive {
  lv_worker t m : slots s !! t = Some m → TheWorker ∈ waiting m →
    jobSet m = false ∨ (∃ sync, clients s !! 0%nat = Some (CNotify t sync)) ∨ keep s = false;
  lv_client t m : slots s !! t = Some m → Client 0 ∈ waiting m → jobSet m = true ∨ w_pc m = WNotify;
  lv_joined t m p : slots s !! t = Some m → clients s !! 0%nat = Some p → joined s p t → jobSet m = false;
  lv_keep p : clients s !! 0%nat = Some p → keep s = true → stops p = false;
}.

(** What a step may do to the flags and the waiting threads of a slot. *)
Record live_step m m' : Prop := mkLiveStep {
  ls_set : jobSet m' = true → jobSet m = true;
  ls_worker : TheWorker ∈ waiting m' → TheWorker ∈ waiting m ∨ jobSet m' = false;
  ls_client : Client 0 ∈ waiting m' → Client 0 ∈ waiting m ∧ (jobSet m = true ∨ w_pc m = WNotify → jobSet m' = true ∨ w_pc m' = WNotify);
}.

Lemma insert_cases (l : list slot) t m' t' m1 : <[t := m']> l !! t' = Some m1 → t' = t ∧ m1 = m' ∨ t' ≠ t ∧ l !! t' = Some m1.
Proof.
  destruct (decide (t' = t)) as [->|]; [|rewrite list_lookup_insert_ne by done; auto].
  intros H. pose proof (lookup_lt_Some _ _ _ H) as Hlt. rewrite length_insert in Hlt. rewrite list_lookup_insert_eq in H by done. injection H as <-. auto.
Qed.

Lemma live_put s t m m' r : live s → slots s !! t = Some m → live_step m m' → live (mkSys (keep s) r (<[t := m']> (slots s)) (clients s)).
Proof.
  intros [Hw Hc Hj Hk] Hm [Hs Hlw Hlc]. constructor; cbn; [..|done].
  - intros t' m1 [[-> ->]|[? ?]]%insert_cases Hin; [|by apply (Hw t')]. destruct (Hlw Hin) as [Hin'|?]; [|auto].
    destruct (Hw t m Hm Hin') as [E|?]; [left|by right]. destruct (jobSet m'); [|done]. by rewrite Hs in E.
  - intros t' m1 [[-> ->]|[? ?]]%insert_cases Hin; [|by apply (Hc t')]. destruct (Hlc Hin) as [Hin' Hf]. apply Hf. by apply (Hc t).
  - intros t' m1 p [[-> ->]|[? ?]]%insert_cases Hp Hjn; [|by eapply (Hj t')]. destruct (jobSet m') eqn:E; [|done].
    specialize (Hs eq_refl). by rewrite (Hj t m p Hm Hp Hjn) in Hs.
Qed.

Lemma waiting_two s t m : inv s → alone s → slots s !! t = Some m → ∀ w, w ∈ waiting m → w = TheWorker ∨ w = Client 0.
Proof.
  intros Hi Ha Hm w Hin. destruct w as [|c]; [auto|right]. destruct (iv_wait s Hi c t m Hm Hin) as [g Hg]. f_equal. apply Ha. by eexists.
Qed.

(** With one other thread, a notification reaches it. *)
Lemma notify_all s t k m m' w : inv s → alone s → slots s !! t = Some m → w ∉ waiting m → w = TheWorker ∨ w = Client 0 →
  notify_one k m = Ok m' → m' = set_waiting [] m.
Proof.
  intros Hi Ha Hm Hnw Hw [[-> E]|(l & w1 & -> & Hp)]%notify_inv; [destruct m; cbn in *; by subst|]. f_equal.
  pose proof (waiting_two s t m Hi Ha Hm) as H2. pose proof (sk_nodup _ _ (iv_slot s Hi t m Hm)) as Hnd.
  destruct l as [|w2 l]; [done|]. exfalso. rewrite Hp in Hnd. apply NoDup_cons in Hnd as [Hn _].
  assert (w1 ≠ w2) as Hne by (intros ->; apply Hn; by left).
  assert (w1 ∈ waiting m) as H1 by (rewrite Hp; by left). assert (w2 ∈ waiting m) as H3 by (rewrite Hp; right; by left).
  destruct (H2 w1 H1) as [->| ->], (H2 w2 H3) as [->| ->], Hw as [->| ->]; done.
Qed.

Lemma worker_live s t k m m' d : inv s → alone s → slots s !! t = Some m → worker_step (keep s) k m = Ok (m', d) → live_step m m'.
Proof.
  intros Hi Ha Hm. pose proof (iv_slot s Hi t m Hm) as Hok. pose proof Hok as [Hh Hr Hj Hd Hp Hg Hrun Hb Hw Hnd Hk Hnt]. unfold worker_step.
  destruct (w_pc m) as [| |[]| | |stop| |] eqn:Epc.
  - intros [= <- _]. constructor; cbn; auto; rewrite ?Epc; naive_solver.
  - intros [= <- _]. constructor; cbn; auto; rewrite ?Epc; naive_solver.
  - intros (m1 & [_ ->]%lock_inv & [= <- _])%bind_Ok_inv. constructor; cbn; auto; rewrite ?Epc; naive_solver.
  - intros [= <- _]. constructor; cbn; auto; rewrite ?Epc; naive_solver.
  - intros [= <- _]. constructor; cbn; auto.
    intros [?|?%list_elem_of_singleton]%elem_of_app; [|done]. split; [done|]. rewrite Epc. naive_solver.
  - intros (m1 & (_ & _ & ->)%awake_inv & [= <- _])%bind_Ok_inv. constructor; cbn; auto; rewrite ?Epc; naive_solver.
  - intros [= <- _]. destruct (keep s); constructor; cbn; auto; rewrite ?Epc; naive_solver.
  - intros (j & _ & [= <- _])%bind_Ok_inv. constructor; cbn; auto.
  - intros (m1 & Hn & [= <- _])%bind_Ok_inv.
    rewrite (notify_all s t k m m1 TheWorker Hi Ha Hm) by (auto; intros Hin; by apply Hw in Hin).
    constructor; cbn; auto; by intros ?%not_elem_of_nil.
  - intros [= <- _]. destruct stop; constructor; cbn; auto; rewrite ?Epc; naive_solver.
  - intros [= <- _]. constructor; cbn; auto; rewrite ?Epc; naive_solver.
  - done.
Qed.

Lemma live_goto s p p' t m m' : live s → clients s !! 0%nat = Some p → slots s !! t = Some m → at_slot t p →
  (TheWorker ∈ waiting m' → jobSet m' = false ∨ (∃ sync, p' = CNotify t sync) ∨ keep s = false) →
  (Client 0 ∈ waiting m' → jobSet m' = true ∨ w_pc m' = WNotify) →
  (∀ t' m1, <[t := m']> (slots s) !! t' = Some m1 → joined s p' t' → jobSet m1 = false) →
  (keep s = true → stops p' = false) → live (goto 0 p' (put t m' s)).
Proof.
  intros [Hw Hc Hj Hk] Hp Hm Hat Hw' Hc' Hj' Hk'. constructor; cbn.
  - intros t' m1 [[-> ->]|[Hne Hm1]]%insert_cases Hin; rewrite lookup_insert_eq.
    + destruct (Hw' Hin) as [?|[[sync ->]|?]]; [by left|right; left; by exists sync|right; by right].
    + destruct (Hw t' m1 Hm1 Hin) as [?|[[sync ?]|?]]; [by left| |right; by right]. assert (p = CNotify t' sync) as -> by congruence. done.
  - intros t' m1 [[-> ->]|[Hne Hm1]]%insert_cases Hin; [auto|]. by apply (Hc t').
  - intros t' m1 p0 H1. rewrite lookup_insert_eq. intros [= <-] Hjn. by eapply Hj'.
  - intros p0. rewrite lookup_insert_eq. by intros [= <-].
Qed.

Lemma live_joined s p p' t m m' t' m1 : live s → clients s !! 0%nat = Some p → slots s !! t = Some m → <[t := m']> (slots s) !! t' = Some m1 →
  (joined s p' t' → joined s p t' ∧ t' ≠ t ∨ t' = t ∧ jobSet m' = false) → joined s p' t' → jobSet m1 = false.
Proof.
  intros Hl Hp Hm [[-> ->]|[Hne Hm1]]%insert_cases Hjn Hj; destruct (Hjn Hj) as [[? ?]|[? ?]]; try done. by eapply (lv_joined s Hl t').
Qed.

(** What the predicate of a wait says, for a client that owns the mutex. *)
Lemma ready_false kr m g c : slot_ok kr m → goal_ok m g → mutex m = Some (Client c) → ready g m = false → jobSet m = true.
Proof.
  intros [Hh Hr Hj Hd Hp Hg Hrun Hb Hw Hnd Hk Hnt] Hgo Hm Hrd. destruct (jobSet m) eqn:Es; [done|].
  assert (at_run (w_pc m) = false) as Ht. { destruct (w_pc m); try done. assert (mutex m = Some TheWorker) by (by apply Hh). congruence. }
  rewrite Ht in Hr. destruct g as [j sync|k j|]; cbn in *; rewrite ?Es, ?Hr in Hrd; try done.
  rewrite Hp in Hrd; [done|]. by intros E; rewrite E in Hgo.
Qed.

Lemma wait_live s t g st k s' : inv s → alone s → live s → clients s !! 0%nat = Some (CWait t g st) → client_step 0 k s = Ok s' → live s'.
Proof.
  intros Hi Ha Hl Hp. pose proof (iv_client s Hi 0%nat _ Hp) as (m & Hm & Hg & Hgo & Hbl). unfold client_step. rewrite Hp, (arr_get_lookup _ _ _ Hm). cbn [mbind result_bind].
  pose proof (not_blocked s 0 t g st m Hi Hp Hm) as Hnb. pose proof (iv_slot s Hi t m Hm) as Hok.
  assert (TheWorker ∈ waiting m → jobSet m = false ∨ (∃ sync, CWait t g st = CNotify t sync) ∨ keep s = false) as Hw.
  { intros Hin. destruct (lv_worker s Hl t m Hm Hin) as [?|[[? ?]|?]]; [auto|congruence|auto]. }
  assert (∀ st' m', jobSet m' = jobSet m → w_pc m' = w_pc m → (TheWorker ∈ waiting m' → TheWorker ∈ waiting m) →
     (Client 0 ∈ waiting m' → jobSet m' = true ∨ w_pc m' = WNotify) → live (goto 0 (CWait t g st') (put t m' s))) as Hgen.
  { intros st' m' Hs Hpc Hwt Hct. eapply (live_goto s (CWait t g st)); try done.
    - intros Hin. rewrite Hs. destruct (Hw (Hwt Hin)) as [?|[[? ?]|?]]; auto; done.
    - intros t' m1 H1. eapply live_joined; try done. destruct g; try done. cbn. intros ?. left. split; [done|lia]. }
  destruct st.
  - intros (m1 & [_ ->]%lock_inv & <-%Ok_inj)%bind_Ok_inv. apply Hgen; cbn; auto. intros Hin. by destruct Hnb.
  - intros <-%Ok_inj. replace s with (put t m s) at 1 by (destruct s; unfold put; cbn in *; by rewrite list_insert_id).
    apply Hgen; auto. intros Hin. by destruct Hnb.
  - intros <-%Ok_inj. assert (mutex m = Some (Client 0)) as Hmx.
    { apply (iv_hold s Hi 0%nat t m Hm). eexists. split; [done|]. cbn. by rewrite bool_decide_eq_true. }
    apply Hgen; cbn; auto; [intros [?|?%list_elem_of_singleton]%elem_of_app; done|]. intros _. left. by eapply ready_false; [..|apply Hbl].
  - intros (m1 & (Hnw & _ & ->)%awake_inv & <-%Ok_inj)%bind_Ok_inv. apply Hgen; cbn; auto; done.
  - specialize (Hnb ltac:(done)). specialize (Hgo eq_refl). unfold proceed. destruct g as [j sync|n j|]; intros <-%Ok_inj.
    + eapply (live_goto s); [done..| | | |]; cbn; try done. by destruct sync; eauto.
    + eapply (live_goto s); [done..| | | |]; cbn; try done. intros Hin. destruct (Hw Hin) as [?|[[? ?]|?]]; auto; done.
    + cbn in Hgo. apply andb_true_iff in Hgo as [Hset%negb_true_iff _]. eapply (live_goto s); [done..| | | |]; cbn; try done; [by auto| |by case_decide].
      intros t' m1 H1 Hjn. eapply live_joined; [done..| |exact Hjn]. cbn. intros Hj. destruct (decide (t' = t)) as [->|]; [by right|left].
      split; [|done]. case_decide; cbn in Hj; [lia|]. apply lookup_lt_Some in H1. rewrite length_insert in H1. unfold workersCount in *. lia.
Qed.

(** A client that is not inside a wait touches no flag. *)
Lemma live_pc s p p' kr : live s → clients s !! 0%nat = Some p → (∀ t sync, p ≠ CNotify t sync) → (kr = keep s ∨ kr = false) →
  (∀ t m, slots s !! t = Some m → joined s p' t → jobSet m = false) → (kr = true → stops p' = false) →
  live (goto 0 p' (mkSys kr (running s) (slots s) (clients s))).
Proof.
  intros [Hw Hc Hj Hk] Hp Hn Hkr Hj' Hk'. constructor; cbn; [|done|..].
  - intros t m Hm Hin. destruct (Hw t m Hm Hin) as [?|[[sync ?]|?]]; [by left| |right; right; naive_solver]. destruct (Hn t sync). congruence.
  - intros t m p0 Hm. rewrite lookup_insert_eq. intros [= <-] Hjn. by eapply Hj'.
  - intros p0. rewrite lookup_insert_eq. by intros [= <-].
Qed.

Lemma notified s t p k m m' : inv s → alone s → clients s !! 0%nat = Some p → slots s !! t = Some m → (∀ g, p ≠ CWait t g SBlocked) →
  notify_one k m = Ok m' → m' = set_waiting [] m.
Proof.
  intros Hi Ha Hp Hm Hn. apply (notify_all s t k m m' (Client 0)); auto. intros (g & ?)%(iv_wait s Hi 0%nat t m Hm). destruct (Hn g). congruence.
Qed.

Lemma client_live s k s' : inv s → alone s → live s → client_step 0 k s = Ok s' → live s'.
Proof.
  intros Hi Ha Hl. destruct (clients s !! 0%nat) as [p|] eqn:Hp; [|unfold client_step; by rewrite Hp].
  destruct p as [|r|t g st|t sync|t| |]; [| |by eapply wait_live|..]; unfold client_step; rewrite Hp; try done.
  - case_match; [done|]. intros <-%Ok_inj. destruct s as [kr rn sl cl].
    eapply (live_pc (mkSys kr rn sl cl) CStarting); try done; auto.
  - intros (m & Hm & (m' & Hn & <-%Ok_inj)%bind_Ok_inv)%bind_Ok_inv. apply arr_get_Ok in Hm. pose proof (notified s t (CNotify t sync) k m m' Hi Ha Hp Hm ltac:(done) Hn) as ->.
    eapply (live_goto s (CNotify t sync)); [done..| | | |]; cbn; try (by intros ?%not_elem_of_nil).
    + by destruct sync as [[]|].
    + by destruct sync as [[]|].
  - case_decide.
    + intros (m & Hm & (m' & Hn & <-%Ok_inj)%bind_Ok_inv)%bind_Ok_inv. apply arr_get_Ok in Hm. pose proof (notified s t (CStop t) k m m' Hi Ha Hp Hm ltac:(done) Hn) as ->.
      eapply (live_goto s (CStop t)); [done..| | | |]; cbn; try (by intros ?%not_elem_of_nil); [done|]. intros E. by apply (lv_keep s Hl _ Hp) in E.
    + intros <-%Ok_inj. destruct s as [kr rn sl cl]. eapply (live_pc (mkSys kr rn sl cl) (CStop t)); try done; [auto|].
      intros ->. by apply (lv_keep _ Hl _ Hp).
  - case_match; [|done]. intros <-%Ok_inj. destruct s as [kr rn sl cl]. eapply (live_pc (mkSys kr rn sl cl) CStopSpin); try done; [auto|].
    intros ->. by apply (lv_keep _ Hl _ Hp).
Qed.

Lemma start_live s o s' : live s → start 0 o s = Ok s' → live s'.
Proof.
  intros Hl. unfold start. destruct (clients s !! 0%nat) as [[|r| | | | |]|] eqn:Hp; try done. destruct s as [kr rn sl cl].
  destruct o as [t j|t j| |].
  - intros (u & _ & <-%Ok_inj)%bind_Ok_inv. eapply (live_pc (mkSys kr rn sl cl)); try done; auto.
  - intros (u & _ & <-%Ok_inj)%bind_Ok_inv. eapply (live_pc (mkSys kr rn sl cl)); try done; auto.
  - intros <-%Ok_inj. eapply (live_pc (mkSys kr rn sl cl)); try done; [auto| |by case_decide].
    intros t m Hm. case_decide as E; cbn; [lia|]. intros _. apply lookup_lt_Some in Hm. cbn in *. lia.
  - intros <-%Ok_inj. eapply (live_pc (mkSys kr rn sl cl)); try done; auto.
Qed.

Lemma exec_live a s s' : inv s → alone s → alone s' → live s → exec a s = Ok s' → live s'.
Proof.
  intros Hi Ha Ha' Hl. destruct a as [c|c o|c k|t k|t k]; cbn [exec].
  - destruct (clients s !! 0%nat) as [[]|] eqn:E0; try done. destruct (clients s !! c) eqn:Ec; [done|]. intros <-%Ok_inj.
    assert (c = 0%nat) as -> by (apply Ha'; cbn; rewrite lookup_insert_eq; by eexists). congruence.
  - intros Hx. assert (c = 0%nat) as ->; [|by eapply start_live]. apply Ha. unfold start in Hx. by destruct (clients s !! c).
  - intros Hx. assert (c = 0%nat) as ->; [|by eapply client_live]. apply Ha. unfold client_step in Hx. by destruct (clients s !! c).
  - destruct (slots s !! t) as [m|] eqn:Hm; [|done]. cbn [of_option mbind result_bind]. intros ([m' d] & Hw & <-%Ok_inj)%bind_Ok_inv.
    apply (live_put s t m m' _ Hl Hm). by eapply worker_live.
  - destruct (slots s !! t) as [m|] eqn:Hm; [|done]. cbn [of_option mbind result_bind]. intros (m' & (l & w & -> & Hp)%wake_inv & <-%Ok_inj)%bind_Ok_inv.
    eapply (live_put s t m (set_waiting l m) (running s)); [done..|]. constructor; cbn; [done|..]; intros Hin; [left; rewrite Hp; by right|split; [rewrite Hp; by right|done]].
Qed.

Lemma exec_clients a s s' c : exec a s = Ok s' → is_Some (clients s !! c) → is_Some (clients s' !! c).
Proof.
  intros Hx Hc. assert (∀ c' p s0, is_Some (clients s0 !! c) → is_Some (clients (goto c' p s0) !! c)) as Hg.
  { intros c' p s0 ?. cbn. destruct (decide (c' = c)) as [->|]; [rewrite lookup_insert_eq; by eexists|by rewrite lookup_insert_ne]. }
  destruct a as [c'|c' o|c' k|t k|t k]; cbn [exec] in Hx.
  - repeat case_match; try done. apply Ok_inj in Hx as <-. by apply Hg.
  - unfold start in Hx. repeat case_match; try done; inv_bind; by apply Hg.
  - unfold client_step in Hx. repeat case_match; try done; inv_bind; try (by apply Hg).
    unfold proceed in Hx. repeat case_match; inv_bind; by apply Hg.
  - inv_bind. destruct r0 as [m' d]. by inv_bind.
  - by inv_bind.
Qed.

(** [runningThreads] counts the workers that have started and not ended. *)
Definition counted (w : wpc) : Prop := match w with WInit | WGone => False | _ => True end.
#[global] Instance counted_dec w : Decision (counted w).
Proof. destruct w; apply _. Defined.
Definition count_ok s : Prop := (workersCount s < 70)%nat ∧ running s = Z.of_nat (length (filter counted (w_pc <$> slots s))).

Lemma worker_count kr k m m' d : worker_step kr k m = Ok (m', d) →
  Z.of_nat (if decide (counted (w_pc m')) then 1 else 0) = Z.of_nat (if decide (counted (w_pc m)) then 1 else 0) + d.
Proof.
  unfold worker_step. destruct (w_pc m) as [| |[]| | |[]| |] eqn:E; intros H; inv_bind; cbn; try done; try (by destruct kr).
Qed.

Lemma pcs_put (l : list slot) t m m' : l !! t = Some m → w_pc m' = w_pc m → w_pc <$> <[t := m']> l = w_pc <$> l.
Proof. intros Hm E. rewrite list_fmap_insert, E, list_insert_id; [done|]. by rewrite list_lookup_fmap, Hm. Qed.
Lemma notify_pc k m m' : notify_one k m = Ok m' → w_pc m' = w_pc m.
Proof. by intros [[-> _]|(l & w & -> & _)]%notify_inv. Qed.

(** Only a worker changes its program counter and the number of workers. *)
Lemma client_pcs c k s s' : client_step c k s = Ok s' → w_pc <$> slots s' = w_pc <$> slots s ∧ running s' = running s.
Proof.
  intros Hx. unfold client_step in Hx. destruct (clients s !! c) as [[|r|t g st|t sync|t| |]|]; try done.
  - case_match; [done|]. by apply Ok_inj in Hx as <-.
  - apply bind_Ok_inv in Hx as (m & Hm%arr_get_Ok & Hx). destruct st.
    + apply bind_Ok_inv in Hx as (m1 & [_ ->]%lock_inv & <-%Ok_inj). split; [by eapply pcs_put|done].
    + by apply Ok_inj in Hx as <-.
    + apply Ok_inj in Hx as <-. split; [by eapply pcs_put|done].
    + apply bind_Ok_inv in Hx as (m1 & (_ & _ & ->)%awake_inv & <-%Ok_inj). split; [by eapply pcs_put|done].
    + destruct (proceed (workersCount s) t g m) as [p m'] eqn:E. apply Ok_inj in Hx as <-. split; [|done]. eapply pcs_put; [done|].
      unfold proceed in E. destruct g; by simplify_eq.
  - apply bind_Ok_inv in Hx as (m & Hm%arr_get_Ok & (m1 & ?%notify_pc & <-%Ok_inj)%bind_Ok_inv). split; [by eapply pcs_put|done].
  - case_decide; [|by apply Ok_inj in Hx as <-].
    apply bind_Ok_inv in Hx as (m & Hm%arr_get_Ok & (m1 & ?%notify_pc & <-%Ok_inj)%bind_Ok_inv). split; [by eapply pcs_put|done].
  - case_match; [|done]. by apply Ok_inj in Hx as <-.
Qed.

Lemma exec_count a s s' : count_ok s → exec a s = Ok s' → count_ok s' ∧ workersCount s' = workersCount s.
Proof.
  intros [Hn Hr] Hx.
  assert (w_pc <$> slots s' = w_pc <$> slots s → running s' = running s → count_ok s' ∧ workersCount s' = workersCount s) as Hsame.
  { intros Hpc Hrn. assert (length (slots s') = length (slots s)) as Hl by (rewrite <- !(length_fmap w_pc); by rewrite Hpc).
    unfold count_ok, workersCount in *. rewrite Hl, Hpc, Hrn. done. }
  destruct a as [c|c o|c k|t k|t k]; cbn [exec] in Hx.
  - repeat case_match; try done. apply Ok_inj in Hx as <-. by apply Hsame.
  - unfold start in Hx. repeat case_match; try done; inv_bind; by apply Hsame.
  - apply client_pcs in Hx as [? ?]. by apply Hsame.
  - destruct (slots s !! t) as [m|] eqn:Hm; [|done]. cbn [of_option mbind result_bind] in Hx.
    apply bind_Ok_inv in Hx as ([m' d] & Hw & <-%Ok_inj). apply worker_count in Hw. unfold count_ok, workersCount in *. cbn. rewrite length_insert.
    split; [|done]. split; [done|]. rewrite list_fmap_insert.
    pose proof (filter_insert_length counted (w_pc <$> slots s) t (w_pc m) (w_pc m') ltac:(by rewrite list_lookup_fmap, Hm)) as Hf.
    pose proof (length_filter counted (<[t := w_pc m']> (w_pc <$> slots s))) as Hl. rewrite length_insert, length_fmap in Hl.
    rewrite u64_small; lia.
  - destruct (slots s !! t) as [m|] eqn:Hm; [|done]. cbn [of_option mbind result_bind] in Hx.
    apply bind_Ok_inv in Hx as (m' & (l & w & -> & Hp)%wake_inv & <-%Ok_inj). apply Hsame; [|done]. by eapply pcs_put.
Qed.

Lemma pool_new_rest n s : pool_new n = Ok s → alone s ∧ live s ∧ count_ok s ∧ workersCount s = n.
Proof.
  unfold pool_new. intros (u & Hn & <-%Ok_inj)%bind_Ok_inv. unfold ensure in Hn. destruct (Z.of_nat n <? 70) eqn:E; [|done]. apply Z.ltb_lt in E. split_and!.
  - intros c [p Hp]. cbn in Hp. by apply lookup_singleton_Some in Hp as [<- _].
  - constructor; cbn.
    + intros t m [-> _]%lookup_replicate. by intros ?%not_elem_of_nil.
    + intros t m [-> _]%lookup_replicate. by intros ?%not_elem_of_nil.
    + by intros t m p _ [= <-].
    + by intros p [= <-].
  - unfold count_ok, workersCount. cbn. rewrite length_replicate. split; [lia|].
    rewrite filter_none; [done|]. intros w (m & -> & [-> _]%elem_of_replicate)%list_elem_of_fmap. cbn. tauto.
  - unfold workersCount. cbn. by rewrite length_replicate.
Qed.

Lemma pool_reachable_count n s : pool_reachable n s → count_ok s ∧ workersCount s = n.
Proof.
  intros (s0 & (_ & _ & Hc & Hn)%pool_new_rest & Hr). induction Hr as [|s1 s2 s3 [a Ha] _ IH]; [done|].
  destruct (exec_count a s1 s2 Hc Ha) as [? E]. apply IH; [done|congruence].
Qed.
Lemma pool_reachable_live n s : pool_reachable n s → alone s → live s.
Proof.
  intros (s0 & Hn & Hr) Ha. destruct (pool_new_rest n s0 Hn) as (_ & Hl & _). apply pool_new_inv in Hn.
  induction Hr as [|s1 s2 s3 [a Hx] Hr IH]; [done|].
  assert (alone s2) as Ha2.
  { intros c Hc. apply Ha. clear -Hr Hc. induction Hr as [|? ? ? [a Hx] ? IH]; [done|]. apply IH. by eapply exec_clients. }
  assert (alone s1) as Ha1 by (intros c Hc; apply Ha2; by eapply exec_clients).
  pose proof (pool_exec_fine s1 a Hn) as Hf. rewrite Hx in Hf. apply IH; try done. by eapply (exec_live a s1).
Qed.

(** ** A call returns

    The distance of a worker from releasing the mutex, and from its notification. *)
Definition to_release (w : wpc) : nat :=
  match w with WUnlock _ | WWait SBlock => 1 | WNotify => 2 | WRun => 3 | WWait SGo => 4 | WWait STest => 5 | _ => 0 end.
Definition to_notify (w : wpc) : nat :=
  match w with
  | WNotify => 1 | WRun => 2 | WWait SGo => 3 | WWait STest => 4 | WWait SLock | WWait SBlocked => 5 | WLoop => 6 | WInit | WUnlock _ => 7
  | _ => 0
  end.
Definition enter m g : nat := (if ready g m then 3 else 33) + to_release (w_pc m).
Definition stage_rank m g (st : stage) : nat :=
  match st with
  | SLock => enter m g
  | STest => if ready g m then 2 else 32
  | SBlock => 31
  | SBlocked => if decide (Client 0 ∈ waiting m) then 20 + to_notify (w_pc m) else enter m g
  | SGo => 1
  end.
Definition goal_rank (count t : nat) g : nat :=
  match g with Schedule _ true => 100 | Schedule _ false => 50 | Await _ _ => 0 | Join => 100 * (count - t) end.
Definition rank s : nat :=
  match clients s !! 0%nat with
  | Some CStarting => S (workersCount s - length (filter counted (w_pc <$> slots s)))
  | Some (CWait t g st) => goal_rank (workersCount s) t g + stage_rank (default slot_new (slots s !! t)) g st
  | Some (CNotify _ (Some _)) => 60
  | Some (CNotify _ None) => 1
  | _ => 0
  end.

(** The steps the threads take by themselves. *)
Definition istep s s' : Prop := ∃ a, match a with AClient _ _ | AWorker _ _ => True | _ => False end ∧ exec a s = Ok s'.

Lemma notify_enabled m : ∃ m', notify_one 0 m = Ok m'.
Proof. unfold notify_one, wake. destruct (waiting m); by eexists. Qed.

Lemma worker_releases m g : slot_ok true m → w_holds (w_pc m) = true → ∃ m' d, worker_step true 0 m = Ok (m', d) ∧ (enter m' g < enter m g)%nat.
Proof.
  intros [Hh Hr Hj Hd Hp Hg Hrun Hb Hw Hnd Hk Hnt] Hw'. unfold worker_step, enter. destruct (w_pc m) as [| |[]| | |[]| |] eqn:Epc; try done.
  - eexists _, _. split; [done|]. rewrite (ready_flags g m) by done. cbn. destruct (jobSet m); cbn; lia.
  - eexists _, _. split; [done|]. rewrite (ready_flags g m) by done. cbn. lia.
  - eexists _, _. split; [done|]. destruct (Hg eq_refl) as [?|E]; [done|].
    assert (ready g (set_pc WRun (set_wtReady false m)) = ready g m) as -> by (destruct g; cbn; by rewrite ?E). cbn. lia.
  - rewrite Hrun in Hj by done. destruct Hj as (j & -> & _). eexists _, _. split; [done|]. cbn.
    match goal with |- ((if ready g ?x then _ else _) + _ < _)%nat => assert (ready g x = true) as -> by by destruct g end.
    destruct (ready g m); lia.
  - destruct (notify_enabled m) as [m' Hn]. rewrite Hn. eexists _, _. split; [done|].
    assert (ready g (set_pc (WUnlock false) m') = ready g m) as ->; [|cbn; lia].
    apply notify_inv in Hn as [[-> _]|(l & w & -> & _)]; by apply ready_flags.
  - by specialize (Hk eq_refl).
  - eexists _, _. split; [done|]. rewrite (ready_flags g m) by done. cbn. lia.
Qed.

Lemma worker_notifies s t m g : inv s → alone s → live s → keep s = true → slots s !! t = Some m → clients s !! 0%nat = Some (CWait t g SBlocked) →
  Client 0 ∈ waiting m → ∃ m' d, worker_step true 0 m = Ok (m', d) ∧ (stage_rank m' g SBlocked < stage_rank m g SBlocked)%nat.
Proof.
  intros Hi Ha Hl Hkp Hm Hc Hin. pose proof (iv_slot s Hi t m Hm) as Hok. rewrite Hkp in Hok. pose proof Hok as [Hh Hr Hj Hd Hp Hg Hrun Hb Hw Hnd Hk Hnt].
  pose proof (lv_client s Hl t m Hm Hin) as Hset. unfold stage_rank. rewrite (decide_True _ _ Hin).
  assert (w_holds (w_pc m) = false → mutex m = None) as Hfree.
  { intros E. destruct (mutex m) as [[|c]|] eqn:Emx; [by rewrite (proj2 Hh eq_refl) in E| |done].
    destruct (proj1 (iv_hold s Hi c t m Hm) Emx) as (p & Hp' & Hhold). assert (c = 0%nat) as -> by (apply Ha; by eexists).
    assert (p = CWait t g SBlocked) as -> by congruence. done. }
  unfold worker_step. destruct (w_pc m) as [| |[]| | |[]| |] eqn:Epc; cbn [w_holds] in Hfree;
    try (by specialize (Hk eq_refl)); try (destruct Hset as [Hset|]; [|done]).
  - eexists _, _. split; [done|]. rewrite decide_True by done. cbn. lia.
  - eexists _, _. split; [done|]. rewrite decide_True by done. cbn. lia.
  - unfold lock. rewrite Hfree by done. eexists _, _. split; [done|]. rewrite decide_True by done. cbn. lia.
  - rewrite Hset. eexists _, _. split; [done|]. rewrite decide_True by done. cbn. lia.
  - by rewrite Hb in Hset.
  - unfold awake. rewrite decide_False; [unfold lock; rewrite Hfree by done; eexists _, _; split; [done|]; rewrite decide_True by done; cbn; lia|].
    intros Hin'. destruct (lv_worker s Hl t m Hm Hin') as [?|[[sync ?]|?]]; congruence.
  - eexists _, _. split; [done|]. rewrite decide_True by done. cbn. lia.
  - rewrite Hrun in Hj by done. destruct Hj as (j & -> & _). eexists _, _. split; [done|]. rewrite decide_True by done. cbn. lia.
  - destruct (notify_enabled m) as [m' Hn]. rewrite Hn. eexists _, _. split; [done|].
    rewrite (notify_all s t 0 m m' TheWorker Hi Ha Hm) by (auto; intros Hin'; by apply Hw in Hin').
    rewrite decide_False by apply not_elem_of_nil. destruct (Hnt eq_refl) as [E1 E2]. unfold enter.
    assert (ready g (set_pc (WUnlock false) (set_waiting [] m)) = true) as -> by (destruct g; cbn; by rewrite ?E1, ?E2, ?Hr). cbn. lia.
  - eexists _, _. split; [done|]. rewrite decide_True by done. cbn. lia.
Qed.

Definition closer s : Prop := ∃ s', istep s s' ∧ (rank s' < rank s)%nat ∧ keep s' = keep s.

Lemma worker_closer s t m g st m' d : clients s !! 0%nat = Some (CWait t g st) → slots s !! t = Some m → worker_step (keep s) 0 m = Ok (m', d) →
  (stage_rank m' g st < stage_rank m g st)%nat → closer s.
Proof.
  intros Hp Hm Hw Hr. exists (put t m' (mkSys (keep s) (running s +₆₄ d) (slots s) (clients s))). split; [|split; [|done]].
  - exists (AWorker t 0). split; [done|]. cbn [exec]. rewrite Hm. cbn. by rewrite Hw.
  - unfold rank. cbn. rewrite Hp. unfold workersCount. cbn. rewrite length_insert, (at_put _ _ _ m' Hm), Hm. cbn. lia.
Qed.
Lemma client_closer s s' : client_step 0 0 s = Ok s' → (rank s' < rank s)%nat → keep s' = keep s → closer s.
Proof. intros Hx Hr Hk. exists s'. split; [|done]. by exists (AClient 0 0). Qed.

Lemma rank_goto s t m m' p : slots s !! t = Some m → rank (goto 0 p (put t m' s)) =
  match p with
  | CStarting => S (workersCount s - length (filter counted (w_pc <$> <[t := m']> (slots s))))
  | CWait t' g st => goal_rank (workersCount s) t' g + stage_rank (if decide (t' = t) then m' else default slot_new (slots s !! t')) g st
  | CNotify _ (Some _) => 60
  | CNotify _ None => 1
  | _ => 0
  end%nat.
Proof.
  intros Hm. unfold rank. cbn. rewrite lookup_insert_eq. unfold workersCount. cbn. rewrite length_insert. destruct p as [|r|t' g st|t' [|]|t'| |]; try done.
  case_decide as E; [subst t'; by rewrite (at_put _ _ _ m' Hm)|]. by rewrite list_lookup_insert_ne.
Qed.
Lemma enter_bound m g : (enter m g <= 38)%nat.
Proof. unfold enter. destruct (ready g m), (w_pc m) as [| |[]| | | | |]; cbn; lia. Qed.

(** The client needs the mutex: it is free, or the worker comes closer to releasing it. *)
Lemma enter_closer s t m g st : inv s → alone s → keep s = true → slots s !! t = Some m → clients s !! 0%nat = Some (CWait t g st) →
  st = SLock ∨ st = SBlocked → Client 0 ∉ waiting m → closer s.
Proof.
  intros Hi Ha Hk Hm Hp Hst Hnw. assert (stage_rank m g st = enter m g) as Er.
  { destruct Hst as [->| ->]; [done|]. cbn. by rewrite decide_False. }
  destruct (mutex m) as [[|c]|] eqn:Emx.
  - pose proof (iv_slot s Hi t m Hm) as Hok. rewrite Hk in Hok. destruct (worker_releases m g Hok) as (m' & d & Hw & Hlt); [by apply (sk_holds _ _ Hok)|].
    destruct (worker_ok _ _ _ _ _ Hok Hw) as [_ Hss]. eapply worker_closer; [done|done|by rewrite Hk|]. rewrite Er.
    destruct Hst as [->| ->]; [done|]. cbn. rewrite decide_False; [done|]. intros Hin. apply Hnw. by apply (ss_waiting _ _ _ Hss).
  - destruct (proj1 (iv_hold s Hi c t m Hm) Emx) as (p & Hp' & Hhold). assert (c = 0%nat) as -> by (apply Ha; by eexists).
    assert (p = CWait t g st) as -> by congruence. by destruct Hst as [->| ->].
  - assert (rank s = goal_rank (workersCount s) t g + enter m g)%nat as Ers by (unfold rank; rewrite Hp, Hm; cbn; by rewrite Er).
    eapply (client_closer s (goto 0 (CWait t g STest) (put t (set_mutex (Some (Client 0)) m) s))); [| |done]; cycle 1.
    { rewrite Ers, (rank_goto s t m), decide_True by done. unfold enter, stage_rank. rewrite (ready_flags g m) by done. destruct (ready g m); lia. }
    unfold client_step. rewrite Hp, (arr_get_lookup _ _ _ Hm). cbn [mbind result_bind]. unfold awake, lock. rewrite Emx.
    destruct Hst as [->| ->]; [done|]. by rewrite decide_False.
Qed.

Lemma wait_closer s t g st : inv s → alone s → live s → keep s = true → clients s !! 0%nat = Some (CWait t g st) → closer s.
Proof.
  intros Hi Ha Hl Hk Hp. pose proof (iv_client s Hi 0%nat _ Hp) as (m & Hm & Hg & Hgo & Hbl).
  pose proof (not_blocked s 0 t g st m Hi Hp Hm) as Hnb.
  assert (rank s = goal_rank (workersCount s) t g + stage_rank m g st)%nat as Er by (unfold rank; by rewrite Hp, Hm).
  assert (∀ s', client_step 0 0 s = Ok s' → (rank s' < rank s)%nat → keep s' = keep s → closer s) as Hc by apply client_closer.
  unfold client_step in Hc. rewrite Hp, (arr_get_lookup _ _ _ Hm) in Hc. cbn [mbind result_bind] in Hc.
  destruct st; [by apply (enter_closer s t m g SLock); auto; apply Hnb| | |
    destruct (decide (Client 0 ∈ waiting m)) as [Hin|Hnin]; [|by apply (enter_closer s t m g SBlocked); auto]|].
  - eapply Hc; [done| |done]. rewrite Er. unfold rank. cbn. rewrite lookup_insert_eq. unfold workersCount. cbn. rewrite Hm. cbn.
    destruct (ready g m); cbn; lia.
  - eapply Hc; [done| |done]. rewrite Er, (rank_goto s t m) by done. rewrite decide_True by done. cbn. rewrite decide_True by (apply elem_of_app; right; by left).
    destruct (w_pc m) as [| |[]| | | | |]; cbn; lia.
  - destruct (worker_notifies s t m g Hi Ha Hl Hk Hm Hp Hin) as (m' & d & Hw & Hlt). eapply worker_closer; [done|done|by rewrite Hk|done].
  - destruct (proceed (workersCount s) t g m) as [p m'] eqn:Epr. eapply Hc; [done| |done]. rewrite Er, (rank_goto s t m) by done.
    unfold proceed in Epr. destruct g as [j [|]|n j|]; simplify_eq; cbn [goal_rank stage_rank]; try lia.
    apply lookup_lt_Some in Hm as Hlt. case_decide as E; [|lia]. rewrite decide_False by lia. cbn [goal_rank stage_rank].
    pose proof (enter_bound (default slot_new (slots s !! S t)) Join). unfold workersCount in *. lia.
Qed.

Lemma starting_closer s : inv s → count_ok s → keep s = true → clients s !! 0%nat = Some CStarting → closer s.
Proof.
  intros Hi [Hn Hr] Hk Hp. pose proof (length_filter counted (w_pc <$> slots s)) as Hle. rewrite length_fmap in Hle.
  destruct (decide (workersCount s <= length (filter counted (w_pc <$> slots s)))%nat) as [Hall|Hnot].
  - eapply (client_closer s (goto 0 (CIdle None) s)); [|unfold rank; cbn; rewrite lookup_insert_eq, Hp; lia|done].
    unfold client_step. rewrite Hp, (proj2 (Z.ltb_ge _ _)) by lia. done.
  - destruct (decide (Forall counted (w_pc <$> slots s))) as [Hf|Hf].
    { rewrite filter_all, length_fmap in Hnot by done. unfold workersCount in Hnot. lia. }
    apply not_Forall_Exists in Hf; [|apply _]. apply Exists_exists in Hf as (w & (m & -> & (t & Hm)%list_elem_of_lookup_1)%list_elem_of_fmap & Hw).
    assert (w_pc m = WInit) as Epc. { pose proof (sk_keep _ _ (iv_slot s Hi t m Hm) Hk). destruct (w_pc m); try done; by destruct Hw. }
    exists (put t (set_pc WLoop m) (mkSys (keep s) (running s +₆₄ 1) (slots s) (clients s))). split; [|split; [|done]].
    + exists (AWorker t 0). split; [done|]. cbn [exec]. rewrite Hm. cbn. unfold worker_step. by rewrite Epc.
    + unfold rank. cbn. rewrite Hp. unfold workersCount in *. cbn. rewrite length_insert, list_fmap_insert. cbn.
      pose proof (filter_insert_length counted (w_pc <$> slots s) t (w_pc m) WLoop ltac:(by rewrite list_lookup_fmap, Hm)) as Hfl.
      rewrite (decide_False (P := counted (w_pc m))), (decide_True (P := counted WLoop)) in Hfl by (by rewrite ?Epc; cbn; auto). lia.
Qed.

Lemma some_closer s p : inv s → alone s → live s → count_ok s → keep s = true → clients s !! 0%nat = Some p → (∀ r, p ≠ CIdle r) → closer s.
Proof.
  intros Hi Ha Hl Hc Hk Hp Hn. pose proof (lv_keep s Hl p Hp Hk) as Hst. destruct p as [|r|t g st|t sync|t| |]; try done.
  - by apply starting_closer.
  - by destruct (Hn r).
  - by eapply wait_closer.
  - pose proof (iv_client s Hi 0%nat _ Hp) as Hok. assert (is_Some (slots s !! t)) as [m Hm].
    { destruct sync as [[k j]|]; [|done]. destruct Hok as (m & ? & _). by eexists. }
    destruct (notify_enabled m) as [m' Hn']. eapply client_closer; [unfold client_step; rewrite Hp, (arr_get_lookup _ _ _ Hm); cbn [mbind result_bind]; rewrite Hn'; done| |done].
    rewrite (rank_goto s t m) by done. unfold rank. rewrite Hp. destruct sync as [[k j]|]; [|lia]. rewrite decide_True by done. cbn [goal_rank stage_rank].
    pose proof (enter_bound m' (Await k j)). lia.
Qed.

Lemma istep_step s s' : istep s s' → step s s'.
Proof. intros (a & _ & ?). by exists a. Qed.
Lemma reachable_istep n s s' : pool_reachable n s → istep s s' → pool_reachable n s'.
Proof. intros (s0 & ? & ?) ?%istep_step. exists s0. split; [done|]. by eapply rtc_r. Qed.
Lemma alone_istep s s' : alone s → istep s s' → alone s'.
Proof.
  intros Ha (a & Hint & Hx) c Hc. apply Ha. destruct a as [c'|c' o|c' k|t k|t k]; try done; cbn [exec] in Hx.
  - unfold client_step in Hx. destruct (clients s !! c') as [p|] eqn:Hp; [|done].
    assert (∀ p1 s1, clients s1 = clients s → is_Some (clients (goto c' p1 s1) !! c) → is_Some (clients s !! c)) as Hg.
    { intros p1 s1 E. cbn. rewrite E. destruct (decide (c' = c)) as [->|]; [by eexists|by rewrite lookup_insert_ne]. }
    repeat case_match; try done; inv_bind; try (eapply Hg; [|exact Hc]; done).
    destruct (proceed (workersCount s) t g r). inv_bind. by eapply Hg; [|exact Hc].
  - inv_bind. destruct r0 as [m' d]. by inv_bind.
Qed.

Lemma first_client n s : pool_reachable n s → is_Some (clients s !! 0%nat).
Proof.
  intros (s0 & Hn & Hr). assert (is_Some (clients s0 !! 0%nat)) as H0.
  { unfold pool_new in Hn. apply bind_Ok_inv in Hn as (u & _ & <-%Ok_inj). by eexists. }
  clear Hn. induction Hr as [|s1 s2 s3 [a Ha] _ IH]; [done|]. apply IH. by eapply exec_clients.
Qed.

Lemma call_returns n s : pool_reachable n s → alone s → keep s = true → ∃ s' r, rtc istep s s' ∧ clients s' !! 0%nat = Some (CIdle r).
Proof.
  remember (rank s) as k eqn:Ek. revert s Ek. induction (lt_wf k) as [k _ IH]. intros s -> Hr Ha Hk. destruct (first_client n s Hr) as [p Hp].
  assert ((∃ r, p = CIdle r) ∨ ∀ r, p ≠ CIdle r) as [[r ->]|Hn] by (destruct p; auto; left; by eexists).
  { exists s, r. split; [apply rtc_refl|done]. }
  destruct (some_closer s p) as (s1 & Hs1 & Hlt & Hk1); try done; [by eapply pool_reachable_inv|by eapply pool_reachable_live|by eapply pool_reachable_count|].
  destruct (IH (rank s1) Hlt s1 eq_refl) as (s' & r & Hrs & Hc); [by eapply reachable_istep|by eapply alone_istep|congruence|].
  exists s', r. split; [by eapply rtc_l|done].
Qed.

(** A state in which only a spurious wake-up lets the threads go on. *)
Definition stuck s : Prop := ∀ a s', exec a s = Ok s' → match a with ASpurious _ _ => True | _ => False end.
End pool.

(** ** The claims *)

(** [C15] Whatever threads schedule jobs and however they interleave, also with
    spurious wake-ups: a worker executes the jobs scheduled for it in order and
    each once, with at most one waiting; [scheduleJobSync] returns only when its
    job was executed; and with one client [joinAll] returns only when all jobs
    were. *)
Theorem pool_jobs_once {J} n (s : sys (J := J)) : pool_reachable n s →
  (∀ t m, slots s !! t = Some m → ran m `prefix_of` sched m ∧ (length (sched m) <= S (length (ran m)))%nat) ∧
  (∀ c t k j, clients s !! c = Some (CIdle (Some (RSync t k j))) → ∃ m, slots s !! t = Some m ∧ ran m !! k = Some j) ∧
  (alone s → clients s !! 0%nat = Some (CIdle (Some RJoined)) → ∀ t m, slots s !! t = Some m → ran m = sched m).
Proof.
  intros Hr. pose proof (pool_reachable_inv n s Hr) as Hi.
  assert (∀ t m, slots s !! t = Some m → if jobSet m then ∃ j, job m = Some j ∧ sched m = ran m ++ [j] else sched m = ran m) as Hj.
  { intros t m Hm. apply (sk_jobs _ _ (iv_slot s Hi t m Hm)). }
  split; [|split].
  - intros t m Hm. specialize (Hj t m Hm). destruct (jobSet m); [destruct Hj as (j & _ & ->)|rewrite Hj; auto].
    split; [by eexists|]. rewrite length_app. cbn. lia.
  - intros c t k j Hc. apply (iv_client s Hi c _ Hc).
  - intros Ha Hc t m Hm. specialize (Hj t m Hm). by rewrite (lv_joined s (pool_reachable_live n s Hr Ha) t m _ Hm Hc) in Hj.
Qed.

(** [C16] With one client every call of the pool returns, the constructor
    included: from every state before the pool is destroyed the client and the
    workers reach one where the client has returned, without a spurious wake-up. *)
Theorem pool_call_returns {J} n (s : sys (J := J)) : pool_reachable n s → alone s → keep s = true →
  ∃ s' r, rtc istep s s' ∧ clients s' !! 0%nat = Some (CIdle r).
Proof. apply call_returns. Qed.

(** The only error of the pool is a worker id that is out of range. *)
Theorem pool_never_fails {J} n (s : sys (J := J)) a e : pool_reachable n s → exec a s = Throw e →
  e = WouldBlock ∨ e = EnsureFailed ∧ bad_call a s = true.
Proof.
  intros Hr%pool_reachable_inv He. pose proof (pool_exec_fine s a Hr) as Hf. rewrite He in Hf. destruct e; auto; naive_solver.
Qed.

(** ** Runs *)

Fixpoint run {J} (acts : list action) (s : sys (J := J)) : option sys :=
  match acts with [] => Some s | a :: acts => match exec a s with Ok s1 => run acts s1 | Throw _ => None end end.
Lemma pool_run {J} n acts (s0 s : sys (J := J)) : pool_new n = Ok s0 → run acts s0 = Some s → pool_reachable n s.
Proof.
  intros Hn Hr. exists s0. split; [done|]. clear Hn. revert s0 Hr. induction acts as [|a acts IH]; cbn; intros s0 Hr; [by injection Hr as ->; apply rtc_refl|].
  destruct (exec a s0) as [s1|] eqn:E; [|done]. eapply rtc_l; [by exists a|]. by apply IH.
Qed.

Definition clientx (c n : nat) : list (action (J := nat)) := replicate n (AClient c 0).
Definition workerx (n : nat) : list (action (J := nat)) := replicate n (AWorker 0 0).
Definition one : sys (J := nat) := mkSys true 0 [slot_new] {[0%nat := CStarting]}.
Definition started : list (action (J := nat)) := workerx 1 ++ clientx 0 1.

(** A job is scheduled synchronously and the client waits; the worker executes
    the job; the client returns and joins. *)
Definition sync_wait : list (action (J := nat)) := started ++ ACall 0 (ScheduleSync 0 7%nat) :: clientx 0 7.
Definition sync_done : list (action (J := nat)) := sync_wait ++ workerx 7 ++ clientx 0 3.
Definition all_joined : list (action (J := nat)) := sync_done ++ ACall 0 JoinAll :: clientx 0 3.
Definition at_ (acts : list action) : sys (J := nat) := default one (run acts one).
Lemma at_reachable acts : is_Some (run acts one) → pool_reachable 1 (at_ acts).
Proof. intros [s E]. unfold at_. rewrite E. by apply (pool_run 1 acts one s). Qed.

Lemma pool_jobs_once_witness :
  clients (at_ sync_done) !! 0%nat = Some (CIdle (Some (RSync 0 0 7%nat))) ∧
  (∃ m, slots (at_ sync_done) !! 0%nat = Some m ∧ ran m !! 0%nat = Some 7%nat) ∧
  clients (at_ all_joined) !! 0%nat = Some (CIdle (Some RJoined)) ∧ slots (at_ all_joined) !! 0%nat = Some (mkSlot None [] (Some 7%nat) true false true WLoop [7%nat] [7%nat]).
Proof.
  split_and!; [reflexivity| |reflexivity|reflexivity]. 
  assert (pool_reachable 1 (at_ sync_done)) as Hr by (apply at_reachable; vm_compute; by eexists).
  apply (proj1 (proj2 (pool_jobs_once 1 (at_ sync_done) Hr)) 0%nat). reflexivity.
Defined.

Lemma pool_call_returns_witness : clients (at_ sync_wait) !! 0%nat = Some (CWait 0 (Await 0 7%nat) SBlocked) ∧
  ∃ s' r, rtc istep (at_ sync_wait) s' ∧ clients s' !! 0%nat = Some (CIdle r).
Proof.
  split; [reflexivity|]. apply (pool_call_returns 1).
  - apply at_reachable. vm_compute. by eexists.
  - intros c Hc. assert (clients (at_ sync_wait) = {[0%nat := CWait 0 (Await 0 7%nat) SBlocked]}) as E by reflexivity.
    rewrite E in Hc. destruct Hc as [p [<- _]%lookup_singleton_Some]. reflexivity.
  - reflexivity.
Defined.

(** The destructor stores [keepRunning] and notifies without the mutex: if the
    worker has tested its predicate and is not waiting yet, it misses both, and
    the destructor waits for it forever. *)
Definition destroy_race : list (action (J := nat)) := started ++ workerx 3 ++ ACall 0 Destroy :: clientx 0 2 ++ workerx 1.
Lemma destructor_hangs : pool_reachable 1 (at_ destroy_race) ∧ clients (at_ destroy_race) !! 0%nat = Some CStopSpin ∧ stuck (at_ destroy_race).
Proof.
  split; [apply at_reachable; vm_compute; by eexists|]. split; [reflexivity|].
  assert (at_ destroy_race = mkSys false 1 [mkSlot None [TheWorker] None true false false (WWait SBlocked) [] []] {[0%nat := CStopSpin]}) as -> by reflexivity.
  intros a s' Hx. destruct a as [c|c o|c k|t k|]; [done| | | |done].
  - destruct c as [|c]; [done|]. cbn [exec] in Hx. unfold start in Hx. cbn [clients] in Hx. by rewrite lookup_singleton_ne in Hx by done.
  - destruct c as [|c]; [done|]. cbn [exec] in Hx. unfold client_step in Hx. cbn [clients] in Hx. by rewrite lookup_singleton_ne in Hx by done.
  - destruct t as [|t]; [|by destruct t]. done.
Qed.

(** Threads that schedule jobs wait on the condition variable of the worker: a
    [notify_one] can reach the wrong one.  Two calls of [scheduleJobSync] for one
    worker: its notification wakes the second client, whose notification wakes the
    first client in place of the worker. *)
Definition two_clients : list (action (J := nat)) :=
  started ++ ASpawn 1 :: ACall 0 (ScheduleSync 0 7%nat) :: clientx 0 7 ++ ACall 1 (ScheduleSync 0 8%nat) :: clientx 1 3 ++
  workerx 5 ++ AWorker 0 1 :: workerx 5 ++ clientx 1 7 ++ clientx 0 3.
Lemma two_clients_hang : pool_reachable 1 (at_ two_clients) ∧ stuck (at_ two_clients) ∧
  sched <$> slots (at_ two_clients) = [[7; 8]]%nat ∧ ran <$> slots (at_ two_clients) = [[7]]%nat.
Proof.
  split; [apply at_reachable; vm_compute; by eexists|]. split; [|by vm_compute].
  assert (at_ two_clients = mkSys true 1 [mkSlot None [TheWorker; Client 1; Client 0] (Some 8%nat) true true false (WWait SBlocked) [7; 8]%nat [7%nat]]
    (<[1%nat := CWait 0 (Await 1 8%nat) SBlocked]> {[0%nat := CWait 0 (Await 0 7%nat) SBlocked]})) as -> by reflexivity.
  intros a s' Hx. destruct a as [c|c o|c k|t k|]; [done| | | |done].
  - destruct c as [|[|c]]; [done..|]. cbn [exec] in Hx. unfold start in Hx. cbn [clients] in Hx.
    by rewrite lookup_insert_ne, lookup_singleton_ne in Hx by done.
  - destruct c as [|[|c]]; [done..|]. cbn [exec] in Hx. unfold client_step in Hx. cbn [clients] in Hx.
    by rewrite lookup_insert_ne, lookup_singleton_ne in Hx by done.
  - destruct t as [|t]; [|by destruct t]. done.
Qed.
