(* ===== verification/Worker.v ===== *)
(** * threads/Worker: requests to a message handler

    The connection of a worker to the message handler of another node: the
    worker writes its request and then the flag of its mailbox, the handler polls
    the flag and writes a response, whose last byte is the flag the worker waits
    for.  The handlers themselves are the subject of the coherence files; here a
    handler answers a request with a response, or leaves the request for another
    pass.

    The verbs library is not part of the sources.  A reliable connection executes
    its write requests in order, and a write in increasing order of addresses, so
    that the flag at the end of a response comes last; the completion of a
    signalled request is there once the request was executed. *)

From S2P Require Import Prelude Defs RingBuffer.
Local Open Scope Z_scope.

Section worker.
Context {Req Resp : Type} (pollingInterval : Z) (serves : Req → Resp → Prop).

Inductive write := WPayload (q : Req) | WMailbox.
Inductive rwrite := RPayload (r : Resp) | RFlag.

(** [ConnectionContext], the requests it posted, the memory the two sides write to. *)
Record ConnectionContext := mkCtx {
  wqe : Z;
  n_posted : Z;
  n_signals : list Z;
  n_done : Z;
  to_handler : list write;
  to_worker : list rwrite;
  mailbox : Z;
  payload : option Req;
  incoming : option Resp;
  receiveFlag : Z;
}.
Implicit Types (c : ConnectionContext) (q : Req) (r : Resp).

Definition ctx_new : ConnectionContext := mkCtx 0 0 [] (-1) [] [] 0 None None 0.

Definition SIGNAL_ : Z := pollingInterval / 2 -₆₄ 1.

Definition postWrite (signal : bool) (w : write) c : ConnectionContext :=
  mkCtx (wqe c) (n_posted c + 1) (if signal then n_signals c ++ [n_posted c] else n_signals c) (n_done c) (to_handler c ++ [w]) (to_worker c)
    (mailbox c) (payload c) (incoming c) (receiveFlag c).
(** A round of the loop: a completion is there, or not yet. *)
Definition pollCompletion c : result ConnectionContext :=
  match n_signals c with
  | k :: rest =>
      if k <? n_posted c - Z.of_nat (length (to_handler c)) then
        Ok (mkCtx (wqe c) (n_posted c) rest k (to_handler c) (to_worker c) (mailbox c) (payload c) (incoming c) (receiveFlag c))
      else Throw WouldBlock
  | [] => Throw WouldBlock
  end.
Definition incr_wqe c : ConnectionContext :=
  mkCtx (wqe c +₆₄ 1) (n_posted c) (n_signals c) (n_done c) (to_handler c) (to_worker c) (mailbox c) (payload c) (incoming c) (receiveFlag c).
Definition reset_flag c : ConnectionContext :=
  mkCtx (wqe c) (n_posted c) (n_signals c) (n_done c) (to_handler c) (to_worker c) (mailbox c) (payload c) (incoming c) 0.

(** [writeMsg] up to its loop, and whether it polls. *)
Definition writeMsg q c : bool * ConnectionContext :=
  let signal := Z.land (wqe c) SIGNAL_ =? 0 in
  let c := postWrite false (WPayload q) c in
  let c := postWrite signal WMailbox c in
  (Z.land (wqe c) SIGNAL_ =? SIGNAL_, c).

(** The worker: outside of a call, polling in [writeMsg], or behind it. *)
Inductive pc := PIdle | PPoll (q : Req) | PWait (q : Req).

(** [calls], [served] and [returned] are the history. *)
Record sys := mkSys { ctx : ConnectionContext; w_pc : pc; calls : list Req; served : list (Req * Resp); returned : list (Req * Resp) }.
Implicit Types (s : sys).
Definition with_ctx c s : sys := mkSys c (w_pc s) (calls s) (served s) (returned s).

(** [writeMsgSync] and [writeMsgASync] up to the loop of [writeMsg]. *)
Definition start q s : result sys :=
  match w_pc s with
  | PIdle =>
      let '(poll, c) := writeMsg q (reset_flag (ctx s)) in
      Ok (if poll then mkSys c (PPoll q) (calls s ++ [q]) (served s) (returned s)
          else mkSys (incr_wqe c) (PWait q) (calls s ++ [q]) (served s) (returned s))
  | _ => Throw WouldBlock
  end.
Definition poll s : result sys :=
  match w_pc s with
  | PPoll q => c ← pollCompletion (ctx s); Ok (mkSys (incr_wqe c) (PWait q) (calls s) (served s) (returned s))
  | _ => Throw WouldBlock
  end.
(** The end of [writeMsgSync], and [collectResponseMsgASync]. *)
Definition collect s : result sys :=
  match w_pc s with
  | PWait q =>
      if receiveFlag (ctx s) =? 0 then Throw WouldBlock
      else
        r ← of_option UndefinedBehaviour (incoming (ctx s));
        Ok (mkSys (ctx s) PIdle (calls s) (served s) (returned s ++ [(q, r)]))
  | _ => Throw WouldBlock
  end.

(** The network executes the next write. *)
Definition deliver s : result sys :=
  let c := ctx s in
  match to_handler c with
  | WPayload q :: rest => Ok (with_ctx (mkCtx (wqe c) (n_posted c) (n_signals c) (n_done c) rest (to_worker c) (mailbox c) (Some q) (incoming c) (receiveFlag c)) s)
  | WMailbox :: rest => Ok (with_ctx (mkCtx (wqe c) (n_posted c) (n_signals c) (n_done c) rest (to_worker c) 1 (payload c) (incoming c) (receiveFlag c)) s)
  | [] => Throw WouldBlock
  end.
Definition deliver_back s : result sys :=
  let c := ctx s in
  match to_worker c with
  | RPayload r :: rest => Ok (with_ctx (mkCtx (wqe c) (n_posted c) (n_signals c) (n_done c) (to_handler c) rest (mailbox c) (payload c) (Some r) (receiveFlag c)) s)
  | RFlag :: rest => Ok (with_ctx (mkCtx (wqe c) (n_posted c) (n_signals c) (n_done c) (to_handler c) rest (mailbox c) (payload c) (incoming c) 1) s)
  | [] => Throw WouldBlock
  end.

(** The message handler polls the mailbox: it answers with [answer], or leaves
    the message for another pass. *)
Definition handle (answer : option Resp) s : result sys :=
  let c := ctx s in
  if mailbox c =? 0 then Throw WouldBlock
  else
    q ← of_option UndefinedBehaviour (payload c);
    match answer with
    | Some r =>
        Ok (mkSys (mkCtx (wqe c) (n_posted c) (n_signals c) (n_done c) (to_handler c) (to_worker c ++ [RPayload r; RFlag]) 0 (payload c) (incoming c) (receiveFlag c))
              (w_pc s) (calls s) (served s ++ [(q, r)]) (returned s))
    | None => Ok s
    end.

Inductive action := AStart (q : Req) | APoll | ACollect | ADeliver | ADeliverBack | AHandle (answer : option Resp).
Definition exec (a : action) s : result sys :=
  match a with
  | AStart q => start q s
  | APoll => poll s
  | ACollect => collect s
  | ADeliver => deliver s
  | ADeliverBack => deliver_back s
  | AHandle o => handle o s
  end.
(** A handler answers with what it may answer. *)
Definition allowed (a : action) s : Prop :=
  match a with AHandle (Some r) => ∀ q, payload (ctx s) = Some q → serves q r | _ => True end.
Definition step s s' : Prop := ∃ a, allowed a s ∧ exec a s = Ok s'.
Definition rpc_initial : sys := mkSys ctx_new PIdle [] [] [].
Definition rpc_reachable s : Prop := rtc step rpc_initial s.

(** ** The invariant *)

(** How far a request is. *)
Inductive phase := Posted | PayloadThere | InMailbox | Answered (r : Resp) | ResponseThere (r : Resp) | Received (r : Resp).

Definition phase_ok q (ph : phase) s : Prop :=
  let c := ctx s in
  match ph with
  | Posted => to_handler c = [WPayload q; WMailbox] ∧ to_worker c = [] ∧ mailbox c = 0 ∧ receiveFlag c = 0
  | PayloadThere => to_handler c = [WMailbox] ∧ to_worker c = [] ∧ mailbox c = 0 ∧ payload c = Some q ∧ receiveFlag c = 0
  | InMailbox => to_handler c = [] ∧ to_worker c = [] ∧ mailbox c = 1 ∧ payload c = Some q ∧ receiveFlag c = 0
  | Answered r => to_handler c = [] ∧ to_worker c = [RPayload r; RFlag] ∧ mailbox c = 0 ∧ receiveFlag c = 0
  | ResponseThere r => to_handler c = [] ∧ to_worker c = [RFlag] ∧ mailbox c = 0 ∧ incoming c = Some r ∧ receiveFlag c = 0
  | Received r => to_handler c = [] ∧ to_worker c = [] ∧ mailbox c = 0 ∧ incoming c = Some r ∧ receiveFlag c = 1
  end.
Definition response (ph : phase) : option Resp :=
  match ph with Answered r | ResponseThere r | Received r => Some r | _ => None end.

(** The history, with the request that is under way. *)
Definition history q (o : option Resp) s : Prop :=
  calls s = (returned s).*1 ++ [q] ∧
  match o with Some r => served s = returned s ++ [(q, r)] | None => served s = returned s end.

Definition idle_ok s : Prop :=
  to_handler (ctx s) = [] ∧ to_worker (ctx s) = [] ∧ mailbox (ctx s) = 0 ∧ calls s = (returned s).*1 ∧ served s = returned s.
Definition protocol_ok s : Prop :=
  Forall (λ x, serves x.1 x.2) (served s) ∧
  match w_pc s with
  | PIdle => idle_ok s
  | PPoll q | PWait q => ∃ ph, phase_ok q ph s ∧ history q (response ph) s
  end.

Lemma start_ok q s s' : protocol_ok s → start q s = Ok s' → protocol_ok s'.
Proof.
  intros [Hf Hp] Hx. unfold start in Hx. destruct (w_pc s); try done. destruct Hp as (H1 & H2 & H3 & H4 & H5).
  destruct (writeMsg q (reset_flag (ctx s))) as [b c] eqn:E. unfold writeMsg in E. injection E as <- <-.
  destruct (Z.land _ _ =? _); apply Ok_inj in Hx as <-; (split; [done|]); exists Posted;
    (split; [cbn; by rewrite H1, H2, H3|]); (split; cbn; [by rewrite H4|done]).
Qed.
Lemma poll_fine s s' : protocol_ok s → poll s = Ok s' → protocol_ok s'.
Proof.
  intros [Hf Hp] Hx. unfold poll in Hx. destruct (w_pc s) as [|q|]; try done. destruct Hp as (ph & Hph & Hh).
  apply bind_Ok_inv in Hx as (c & Hc & <-%Ok_inj). split; [done|]. exists ph. split; [|done]. unfold pollCompletion in Hc.
  destruct (n_signals (ctx s)); [done|]. case_match; [|done]. apply Ok_inj in Hc as <-. by destruct ph.
Qed.
Lemma collect_ok s s' : protocol_ok s → collect s = Ok s' → protocol_ok s'.
Proof.
  intros [Hf Hp] Hx. unfold collect in Hx. destruct (w_pc s) as [| |q]; try done. destruct Hp as (ph & Hph & Hc & Hs).
  destruct (Z.eqb_spec (receiveFlag (ctx s)) 0) as [|Hfl]; [done|].
  destruct ph as [| | | | |r]; try (by destruct Hph as (_ & _ & _ & ?)); try (by destruct Hph as (_ & _ & _ & _ & ?)).
  destruct Hph as (H1 & H2 & H3 & H4 & _). rewrite H4 in Hx. apply Ok_inj in Hx as <-. split; [done|].
  cbn in Hs. split_and!; cbn [ctx calls served returned]; try done. by rewrite fmap_app.
Qed.

(** The network or the handler acts: a request is under way, and gets further. *)
Lemma under_way s : protocol_ok s → to_handler (ctx s) ≠ [] ∨ to_worker (ctx s) ≠ [] ∨ mailbox (ctx s) ≠ 0 →
  ∃ q ph, (w_pc s = PPoll q ∨ w_pc s = PWait q) ∧ phase_ok q ph s ∧ history q (response ph) s.
Proof.
  intros [_ Hp] Hn. destruct (w_pc s) as [|q|q]; [|destruct Hp as (ph & ? & ?); exists q, ph; auto..].
  destruct Hp as (E1 & E2 & E3 & _). rewrite E1, E2, E3 in Hn. naive_solver.
Qed.
Lemma gets_further s s' q ph' : Forall (λ x, serves x.1 x.2) (served s') → (w_pc s = PPoll q ∨ w_pc s = PWait q) → w_pc s' = w_pc s → phase_ok q ph' s' →
  history q (response ph') s' → protocol_ok s'.
Proof. intros Hf Hpc E ? ?. split; [done|]. rewrite E. destruct Hpc as [->| ->]; by exists ph'. Qed.

Lemma deliver_ok s s' : protocol_ok s → deliver s = Ok s' → protocol_ok s'.
Proof.
  intros Hok Hx. unfold deliver in Hx. destruct (to_handler (ctx s)) as [|w rest] eqn:E; [done|].
  destruct (under_way s Hok) as (q & ph & Hpc & Hph & Hh); [left; by rewrite E|]. destruct Hok as [Hf _].
  destruct ph; destruct Hph as (H1 & H2); rewrite E in H1; try done; injection H1 as -> ->; apply Ok_inj in Hx as <-.
  - apply (gets_further s _ q PayloadThere); try done. cbn. naive_solver.
  - apply (gets_further s _ q InMailbox); try done. cbn. naive_solver.
Qed.
Lemma deliver_back_ok s s' : protocol_ok s → deliver_back s = Ok s' → protocol_ok s'.
Proof.
  intros Hok Hx. unfold deliver_back in Hx. destruct (to_worker (ctx s)) as [|w rest] eqn:E; [done|].
  destruct (under_way s Hok) as (q & ph & Hpc & Hph & Hh); [right; left; by rewrite E|]. destruct Hok as [Hf _].
  destruct ph as [| | |r|r|]; destruct Hph as (H1 & H2 & H3); rewrite E in H2; try done; injection H2 as -> ->; apply Ok_inj in Hx as <-.
  - apply (gets_further s _ q (ResponseThere r)); try done. cbn. naive_solver.
  - apply (gets_further s _ q (Received r)); try done. cbn. naive_solver.
Qed.
Lemma handle_ok o s s' : protocol_ok s → allowed (AHandle o) s → handle o s = Ok s' → protocol_ok s'.
Proof.
  intros Hok Hal Hx. unfold handle in Hx. destruct (Z.eqb_spec (mailbox (ctx s)) 0) as [|E]; [done|].
  destruct (under_way s Hok) as (q & ph & Hpc & Hph & Hh); [auto|].
  destruct ph; destruct Hph as (H1 & H2 & H3 & H4); rewrite H3 in E; try done. destruct H4 as [H4 H5]. rewrite H4 in Hx.
  destruct o as [r|]; apply Ok_inj in Hx as <-; [|done]. destruct Hok as [Hf _]. destruct Hh as [Hc Hs]. apply (gets_further s _ q (Answered r)); try done.
  - cbn. apply Forall_app. split; [done|]. apply Forall_singleton. by apply Hal.
  - cbn. by rewrite H2.
  - split; [done|]. cbn in *. by rewrite Hs.
Qed.

Lemma protocol_step s s' : protocol_ok s → step s s' → protocol_ok s'.
Proof.
  intros Hok (a & Hal & Hx). destruct a; cbn [exec] in Hx;
    [by eapply start_ok|by eapply poll_fine|by eapply collect_ok|by eapply deliver_ok|by eapply deliver_back_ok|by eapply handle_ok].
Qed.
Lemma protocol_reachable s : rpc_reachable s → protocol_ok s.
Proof.
  unfold rpc_reachable. intros Hr. assert (protocol_ok rpc_initial) as H0 by (split; [constructor|repeat split]).
  induction Hr as [|s1 s2 s3 Hs _ IH]; [done|]. apply IH. by eapply protocol_step.
Qed.

(** ** The write requests *)

(** With [w] messages written in batches of [b]: the first message of a batch is
    signalled, and its completion is polled with the last one. *)
Definition batch_done (b w : Z) : Z := if w / b =? 0 then -1 else 2 * ((w / b - 1) * b) + 1.
Definition batch_signal (b w : Z) : Z := 2 * (w / b * b) + 1.
Definition written (s : sys) : Z := Z.of_nat (length (calls s)).
Definition count_ok (b : Z) s : Prop :=
  match w_pc s with
  | PPoll _ =>
      let w := written s - 1 in
      wqe (ctx s) = u64 w ∧ n_posted (ctx s) = 2 * written s ∧ n_signals (ctx s) = [batch_signal b w] ∧ n_done (ctx s) = batch_done b w ∧ written s `mod` b = 0 ∧ 1 <= written s
  | _ =>
      let w := written s in
      wqe (ctx s) = u64 w ∧ n_posted (ctx s) = 2 * w ∧ n_signals (ctx s) = (if w `mod` b =? 0 then [] else [batch_signal b w]) ∧ n_done (ctx s) = batch_done b w
  end.

Lemma batch_next b w : 0 < b → 0 <= w → w `mod` b = b - 1 ∧ (w + 1) `mod` b = 0 ∧ (w + 1) / b = w / b + 1 ∨
  w `mod` b ≠ b - 1 ∧ (w + 1) `mod` b ≠ 0 ∧ (w + 1) / b = w / b.
Proof.
  intros Hb Hw. pose proof (Z.div_mod w b ltac:(lia)) as Hd. pose proof (Z.mod_pos_bound w b Hb) as Hm.
  destruct (decide (w `mod` b = b - 1)) as [E|E]; [left|right]; (split; [done|]).
  - assert (w + 1 = 0 + (w / b + 1) * b) as -> by nia. rewrite Z.mod_add, Z.div_add by lia. rewrite Zmod_0_l, Zdiv_0_l. lia.
  - assert (w + 1 = (w `mod` b + 1) + w / b * b) as -> by nia. rewrite Z.mod_add, Z.div_add by lia.
    rewrite Z.mod_small, (Z.div_small (_ + 1)) by lia. lia.
Qed.

Section counting.
Variable k : Z.
Hypotheses (Hk : 0 <= k <= 62) (Hint : pollingInterval = 2 ^ (k + 1)).
Notation b := (2 ^ k).

Lemma signal_mask : SIGNAL_ = b - 1.
Proof.
  unfold SIGNAL_. rewrite Hint, Z.pow_add_r, Z.div_mul by lia. assert (1 <= 2 ^ k <= 2 ^ 62) by (split; [apply (Z.pow_le_mono_r 2 0 k)|apply Z.pow_le_mono_r]; lia).
  apply u64_small. lia.
Qed.
Lemma signal_mod w : Z.land (u64 w) SIGNAL_ = w `mod` b.
Proof.
  rewrite signal_mask, land_ones_mod by lia. unfold u64. apply Z.mod_mod_divide. exists (2 ^ (64 - k)).
  rewrite <- Z.pow_add_r by lia. f_equal. lia.
Qed.

Lemma count_start q s s' : count_ok b s → start q s = Ok s' → count_ok b s'.
Proof.
  intros Hc Hx. unfold start in Hx. unfold count_ok in Hc. destruct (w_pc s); try done. destruct Hc as (Hw & Hp & Hs & Hd).
  assert (0 <= written s) as H0 by (unfold written; lia). assert (0 < b) as Hb by lia.
  pose proof (Z.mod_pos_bound (written s) b Hb) as Hm. pose proof (Z.div_mod (written s) b ltac:(lia)) as Hdm.
  destruct (writeMsg q (reset_flag (ctx s))) as [pl c] eqn:E. unfold writeMsg in E. cbn [reset_flag wqe postWrite n_posted n_signals n_done] in E.
  rewrite Hw, signal_mod in E. injection E as <- <-.
  assert ((if (written s) `mod` b =? 0 then n_signals (ctx s) ++ [n_posted (ctx s) + 1] else n_signals (ctx s)) = [batch_signal b (written s)]) as Es.
  { rewrite Hs, Hp. destruct (Z.eqb_spec ((written s) `mod` b) 0); [|done]. cbn. f_equal. unfold batch_signal. lia. }
  assert (∀ c' p0, written (mkSys c' p0 (calls s ++ [q]) (served s) (returned s)) = written s + 1) as Hwr by (intros; unfold written; cbn; rewrite length_app; cbn; lia).
  rewrite signal_mask in Hx. destruct (batch_next b (written s) Hb H0) as [(E1 & E2 & E3)|(E1 & E2 & E3)].
  - rewrite (proj2 (Z.eqb_eq _ _) E1) in Hx. apply Ok_inj in Hx as <-. unfold count_ok, postWrite, reset_flag. cbn [w_pc ctx wqe n_posted n_signals n_done].
    rewrite Hwr, Es. replace (written s + 1 - 1) with (written s) by lia. split_and!; [done|lia|done|done|done|lia].
  - rewrite (proj2 (Z.eqb_neq _ _) E1) in Hx. apply Ok_inj in Hx as <-. unfold count_ok, incr_wqe, postWrite, reset_flag. cbn [w_pc ctx wqe n_posted n_signals n_done].
    rewrite Hwr, Es. rewrite (proj2 (Z.eqb_neq _ _) E2). unfold batch_signal, batch_done in *. rewrite E3. split_and!; [|lia|done|done].
    rewrite Hw. unfold u64. by rewrite Zplus_mod_idemp_l.
Qed.

Lemma count_poll s s' : count_ok b s → poll s = Ok s' → count_ok b s'.
Proof.
  intros Hc Hx. unfold poll in Hx. unfold count_ok in Hc. destruct (w_pc s); try done. destruct Hc as (Hw & Hp & Hs & Hd & Hm & H1).
  apply bind_Ok_inv in Hx as (c & Hc & <-%Ok_inj). unfold pollCompletion in Hc. rewrite Hs in Hc. case_match; [|done]. apply Ok_inj in Hc as <-.
  unfold count_ok, incr_wqe. cbn [w_pc ctx wqe n_posted n_signals n_done].
  change (written (mkSys _ _ (calls s) _ _)) with (written s). rewrite (proj2 (Z.eqb_eq _ _) Hm). assert (0 < b) as Hb by lia.
  destruct (batch_next b (written s - 1) Hb ltac:(lia)) as [(E1 & E2 & E3)|(E1 & E2 & E3)];
    replace (written s - 1 + 1) with (written s) in * by lia; [|lia].
  split_and!; [|done|done|].
  - rewrite Hw. unfold u64. rewrite Zplus_mod_idemp_l. f_equal. lia.
  - unfold batch_signal, batch_done. rewrite E3. rewrite (proj2 (Z.eqb_neq _ _)); [lia|].
    pose proof (Z.div_pos (written s - 1) b ltac:(lia) Hb). lia.
Qed.

Lemma count_reachable s : rpc_reachable s → count_ok b s.
Proof.
  unfold rpc_reachable. intros Hr. assert (count_ok b rpc_initial) as H0.
  { unfold count_ok, batch_done. cbn [rpc_initial w_pc ctx wqe n_posted n_signals n_done ctx_new].
    change (written rpc_initial) with 0. rewrite Zmod_0_l, Zdiv_0_l. done. }
  induction Hr as [|s1 s2 s3 (a & _ & Hx) _ IH]; [done|]. apply IH. clear IH.
  destruct a; cbn [exec] in Hx; [by eapply count_start|by eapply count_poll|..].
  - unfold collect in Hx. unfold count_ok in *. destruct (w_pc s1); try done. destruct (receiveFlag (ctx s1) =? 0); [done|]. apply bind_Ok_inv in Hx as (r & _ & <-%Ok_inj). done.
  - unfold deliver in Hx. repeat case_match; try done; by apply Ok_inj in Hx as <-.
  - unfold deliver_back in Hx. repeat case_match; try done; by apply Ok_inj in Hx as <-.
  - unfold handle in Hx. case_match; [done|]. apply bind_Ok_inv in Hx as (q & _ & Hx). case_match; by apply Ok_inj in Hx as <-.
Qed.

(** Not more than two batches are under way, and the completion that is polled
    for is that of a request that was posted before. *)
Lemma count_bound s : count_ok b s → n_posted (ctx s) - (n_done (ctx s) + 1) <= 2 * pollingInterval - 2.
Proof.
  assert (1 <= b) as Hb by lia. assert (2 * pollingInterval = 4 * b) as -> by (rewrite Hint, Z.pow_add_r by lia; lia).
  assert (∀ w, 0 <= w → 2 * w - (batch_done b w + 1) <= 4 * b - 2 ∧ 2 * w + 2 - (batch_done b w + 1) <= 4 * b - 2) as Hg.
  { intros w H0. pose proof (Z.div_mod w b ltac:(lia)). pose proof (Z.mod_pos_bound w b ltac:(lia)). unfold batch_done.
    destruct (Z.eqb_spec (w / b) 0) as [E|E]; [rewrite E in *|]; nia. }
  unfold count_ok. intros Hc. assert (0 <= written s) by (unfold written; lia). destruct (w_pc s).
  - destruct Hc as (_ & -> & _ & ->). apply Hg. done.
  - destruct Hc as (_ & -> & _ & -> & _ & H1). destruct (Hg (written s - 1)) as [_ ?]; lia.
  - destruct Hc as (_ & -> & _ & ->). apply Hg. done.
Qed.
Lemma poll_enabled s q : count_ok b s → w_pc s = PPoll q → to_handler (ctx s) = [] → ∃ s', poll s = Ok s'.
Proof.
  intros Hc Hpc Hth. unfold count_ok in Hc. rewrite Hpc in Hc. destruct Hc as (_ & Hp & Hs & _ & _ & H1).
  unfold poll, pollCompletion. rewrite Hpc, Hs, Hth. cbn [length]. rewrite (proj2 (Z.ltb_lt _ _)); [by eexists|].
  unfold batch_signal. rewrite Hp. pose proof (Z.mul_div_le (written s - 1) b ltac:(lia)). lia.
Qed.

(** ** A call returns *)

Definition distance (p : pc) (ph : phase) : nat :=
  (match p with PPoll _ => 1 | _ => 0 end +
   match ph with Posted => 6 | PayloadThere => 5 | InMailbox => 4 | Answered _ => 3 | ResponseThere _ => 2 | Received _ => 1 end)%nat.

Lemma phase_moves s q ph : (∀ q, ∃ r, serves q r) → protocol_ok s → count_ok b s → w_pc s = PPoll q ∨ w_pc s = PWait q → phase_ok q ph s →
  ∃ s', step s s' ∧ calls s' = calls s ∧ (w_pc s' = PIdle ∨ ∃ ph', (w_pc s' = PPoll q ∨ w_pc s' = PWait q) ∧ phase_ok q ph' s' ∧
    (distance (w_pc s') ph' < distance (w_pc s) ph)%nat).
Proof.
  intros Htot Hok Hc Hpc Hph. destruct ph as [| | |r|r|r]; destruct Hph as (H1 & H2 & H3 & H4).
  - eexists. split; [exists ADeliver; split; [done|]; cbn; unfold deliver; by rewrite H1|]. split; [done|]. right. exists PayloadThere. split; [done|]. split; [cbn; naive_solver|]. unfold distance. cbn [w_pc with_ctx]. lia.
  - eexists. split; [exists ADeliver; split; [done|]; cbn; unfold deliver; by rewrite H1|]. split; [done|]. right. exists InMailbox. split; [done|]. split; [cbn; naive_solver|]. unfold distance. cbn [w_pc with_ctx]. lia.
  - destruct H4 as [H4 H5]. destruct (Htot q) as [r Hr]. eexists. split.
    { exists (AHandle (Some r)). split; [intros q' Hq'; congruence|]. cbn. unfold handle. by rewrite H3, H4. }
    split; [done|]. right. exists (Answered r). split; [done|]. split; [cbn; rewrite H2; naive_solver|]. unfold distance. cbn [w_pc with_ctx]. lia.
  - eexists. split; [exists ADeliverBack; split; [done|]; cbn; unfold deliver_back; by rewrite H2|]. split; [done|]. right. exists (ResponseThere r). split; [done|]. split; [cbn; naive_solver|]. unfold distance. cbn [w_pc with_ctx]. lia.
  - eexists. split; [exists ADeliverBack; split; [done|]; cbn; unfold deliver_back; by rewrite H2|]. split; [done|]. right. exists (Received r). split; [done|]. split; [cbn; naive_solver|]. unfold distance. cbn [w_pc with_ctx]. lia.
  - destruct H4 as [H4 H5]. destruct Hpc as [Hpc|Hpc].
    + destruct (poll_enabled s q Hc Hpc H1) as [s' Hx]. exists s'. split; [by exists APoll|]. unfold poll in Hx. rewrite Hpc in Hx.
      apply bind_Ok_inv in Hx as (c & Hcc & <-%Ok_inj). split; [done|]. right. exists (Received r). split; [by right|]. rewrite Hpc. split; [|cbn; lia].
      unfold pollCompletion in Hcc. destruct (n_signals (ctx s)); [done|]. case_match; [|done]. apply Ok_inj in Hcc as <-. done.
    + eexists. split; [exists ACollect; split; [done|]; cbn; unfold collect; rewrite Hpc, H5, H4; done|]. split; [done|]. by left.
Qed.

Lemma call_finishes s : (∀ q, ∃ r, serves q r) → rpc_reachable s → ∃ s', rtc step s s' ∧ w_pc s' = PIdle ∧ calls s' = calls s.
Proof.
  intros Htot Hr. assert (w_pc s = PIdle ∨ ∃ q ph, (w_pc s = PPoll q ∨ w_pc s = PWait q) ∧ phase_ok q ph s) as [?|(q & ph & Hpc & Hph)].
  { destruct (protocol_reachable s Hr) as [_ Hp]. destruct (w_pc s) as [|q|q]; [by left|destruct Hp as (ph & ? & _); right; exists q, ph; auto..]. }
  { exists s. split; [apply rtc_refl|done]. }
  remember (distance (w_pc s) ph) as n eqn:En. revert s ph Hr Hpc Hph En. induction (lt_wf n) as [n _ IH]. intros s ph Hr Hpc Hph ->.
  destruct (phase_moves s q ph) as (s1 & Hs1 & Hc1 & Hcase); try done; [by apply protocol_reachable|by apply count_reachable|].
  assert (rpc_reachable s1) as Hr1 by (by eapply rtc_r).
  destruct Hcase as [Hi|(ph' & Hpc' & Hph' & Hlt)]; [exists s1; split; [by apply rtc_once|done]|].
  destruct (IH _ Hlt s1 ph' Hr1 Hpc' Hph' eq_refl) as (s' & Hs' & Hi & Hc'). exists s'. split; [by eapply rtc_l|]. split; [done|congruence].
Qed.
End counting.

Lemma rpc_fine s a e : protocol_ok s → exec a s = Throw e → e = WouldBlock.
Proof.
  intros Hok Hx. destruct a as [q| | | | |o]; cbn [exec] in Hx.
  - unfold start in Hx. destruct (w_pc s); try congruence. by destruct (writeMsg q (reset_flag (ctx s))).
  - unfold poll, pollCompletion in Hx. destruct (w_pc s); try congruence. destruct (n_signals (ctx s)); cbn in Hx; [congruence|]. case_match; cbn in *; congruence.
  - unfold collect in Hx. destruct Hok as [_ Hp]. destruct (w_pc s) as [| |q]; try congruence. destruct Hp as (ph & Hph & _).
    destruct (Z.eqb_spec (receiveFlag (ctx s)) 0) as [|Hfl]; [congruence|].
    destruct ph as [| | | | |r]; try (by destruct Hph as (_ & _ & _ & ?)); try (by destruct Hph as (_ & _ & _ & _ & ?)).
    destruct Hph as (_ & _ & _ & H4 & _). by rewrite H4 in Hx.
  - unfold deliver in Hx. repeat case_match; congruence.
  - unfold deliver_back in Hx. repeat case_match; congruence.
  - unfold handle in Hx. destruct (Z.eqb_spec (mailbox (ctx s)) 0) as [|E]; [congruence|].
    destruct (under_way s Hok) as (q & ph & Hpc & Hph & Hh); [auto|].
    destruct ph; destruct Hph as (H1 & H2 & H3 & H4); rewrite H3 in E; try done. destruct H4 as [H4 H5]. rewrite H4 in Hx. by destruct o.
Qed.
End worker.

(** ** The claims *)

(** [C17] A request is served exactly once, and the worker gets the response to it,
    never an earlier or an incomplete one: responses are returned in the order of
    the requests, each is what the handler answered to that request, and outside of
    a call nothing is left behind.  No access on either side fails. *)
Theorem rpc_exactly_once {Req Resp} pollingInterval (serves : Req → Resp → Prop) s : rpc_reachable pollingInterval serves s →
  returned s `prefix_of` served s ∧ (served s).*1 `prefix_of` calls s ∧ Forall (λ x, serves x.1 x.2) (returned s) ∧
  (w_pc s = PIdle → calls s = (returned s).*1 ∧ served s = returned s) ∧
  ∀ a e, exec pollingInterval a s = Throw e → e = WouldBlock.
Proof.
  intros Hr%protocol_reachable. assert (returned s `prefix_of` served s ∧ (served s).*1 `prefix_of` calls s) as [H1 H2].
  { destruct Hr as [_ Hp]. destruct (w_pc s) as [|q|q]; [destruct Hp as (_ & _ & _ & -> & ->); done|..];
      destruct Hp as (ph & _ & -> & Hs); (destruct (response ph); [rewrite Hs, fmap_app; split; [by eexists|done]|rewrite Hs; split; [done|by eexists]]). }
  split; [done|]. split; [done|]. split.
  - destruct Hr as [Hf _], H1 as [l E]. rewrite E in Hf. by apply Forall_app in Hf as [? _].
  - split; [|intros a e; by apply rpc_fine with serves].
    destruct Hr as [_ Hp]. intros E. rewrite E in Hp. by destruct Hp as (_ & _ & _ & ? & ?).
Qed.

(** [C18] If a handler can answer every request, every call returns: the worker
    does not wait in vain for a completion, nor for the flag of the response. *)
Theorem rpc_returns {Req Resp} k (serves : Req → Resp → Prop) s : 0 <= k <= 62 → (∀ q, ∃ r, serves q r) →
  rpc_reachable (2 ^ (k + 1)) serves s → ∃ s', rtc (step (2 ^ (k + 1)) serves) s s' ∧ w_pc s' = PIdle ∧ calls s' = calls s.
Proof. intros Hk Htot Hr. by apply (call_finishes _ _ k). Qed.

(** The writes of a connection that are not known to be executed are less than
    two per message of the polling interval times two, so the send queue of 1024
    entries suffices for intervals up to 512. *)
Theorem rpc_send_queue {Req Resp} k (serves : Req → Resp → Prop) s : 0 <= k <= 8 → rpc_reachable (2 ^ (k + 1)) serves s →
  n_posted (ctx s) - (n_done (ctx s) + 1) <= 2 * 2 ^ (k + 1) - 2 ∧ n_posted (ctx s) - (n_done (ctx s) + 1) <= 1024.
Proof.
  intros Hk Hr. assert (n_posted (ctx s) - (n_done (ctx s) + 1) <= 2 * 2 ^ (k + 1) - 2).
  { apply (count_bound _ k ltac:(lia) eq_refl). by apply (count_reachable _ serves k ltac:(lia) eq_refl). }
  split; [done|]. assert (2 ^ (k + 1) <= 2 ^ 9) by (apply Z.pow_le_mono_r; lia). lia.
Qed.

(** ** Runs *)

(** The requests are numbers, answered with the next number. *)
Definition succ_of (q r : Z) : Prop := r = q + 1.
Definition allowedb (a : action (Req := Z) (Resp := Z)) (s : sys (Req := Z) (Resp := Z)) : bool :=
  match a with AHandle (Some r) => bool_decide (payload (ctx s) = Some (r - 1)) | _ => true end.
Fixpoint run (interval : Z) (acts : list action) (s : sys (Req := Z) (Resp := Z)) : option sys :=
  match acts with
  | [] => Some s
  | a :: acts => if allowedb a s then match exec interval a s with Ok s1 => run interval acts s1 | Throw _ => None end else None
  end.
Lemma rpc_run interval acts s s' : rpc_reachable interval succ_of s → run interval acts s = Some s' → rpc_reachable interval succ_of s'.
Proof.
  revert s. induction acts as [|a acts IH]; cbn; intros s Hr H; [by injection H as ->|]. destruct (allowedb a s) eqn:Ea; [|done].
  destruct (exec interval a s) as [s1|] eqn:E; [|done]. apply (IH s1); [|done]. eapply rtc_r; [done|]. exists a. split; [|done].
  destruct a as [| | | | |[r|]]; try done. intros q Hq. cbn in Ea. apply bool_decide_eq_true in Ea. unfold succ_of. assert (q = r - 1) as -> by congruence. lia.
Qed.

(** The second of two calls, before its mailbox is written. *)
Definition second_call : list (action (Req := Z) (Resp := Z)) :=
  [AStart 5; ADeliver; ADeliver; APoll; AHandle None; AHandle (Some 6); ADeliverBack; ADeliverBack; ACollect; AStart 7; ADeliver].
Definition second : sys (Req := Z) (Resp := Z) := default rpc_initial (run 2 second_call rpc_initial).
Lemma second_reachable : rpc_reachable 2 succ_of second.
Proof. refine (rpc_run 2 second_call rpc_initial second _ _); [exact (rtc_refl _ _)|]. vm_compute. reflexivity. Qed.

Lemma rpc_exactly_once_witness : calls second = [5; 7] ∧ returned second = [(5, 6)] ∧ Forall (λ x, succ_of x.1 x.2) (returned second).
Proof. split_and!; [reflexivity|reflexivity|]. exact (proj1 (proj2 (proj2 (rpc_exactly_once 2 succ_of second second_reachable)))). Defined.

Lemma rpc_returns_witness : w_pc second = PPoll 7 ∧ ∃ s', rtc (step 2 succ_of) second s' ∧ w_pc s' = PIdle ∧ calls s' = calls second.
Proof.
  split; [reflexivity|]. refine (rpc_returns 0 succ_of second _ _ second_reachable); [lia|]. intros q. exists (q + 1). reflexivity.
Defined.

Lemma rpc_send_queue_witness : n_posted (ctx second) = 4 ∧ n_done (ctx second) = 1 ∧ n_posted (ctx second) - (n_done (ctx second) + 1) <= 1024.
Proof. split_and!; [reflexivity|reflexivity|]. refine (proj2 (rpc_send_queue 0 succ_of second _ second_reachable)). lia. Defined.
