(* ===== verification/Threads.v ===== *)
(** * threads/Concurrency.hpp and threads/CoreManager.hpp

    The barrier of the threads of one node, with its two atomics accessed one at
    a time, and the assignment of threads to cores. *)

From S2P Require Import Prelude Defs RingBuffer.
Local Open Scope Z_scope.

(** ** concurrency::Barrier *)

Section barrier.
(** [threadCount] *)
Variable n : nat.

Record body := mkBody { cntr : Z; round : Z }.
Definition body_new : body := mkBody (Z.of_nat n) 0.

(** A thread outside of [wait]; after the load of the round; waiting for the next
    round; and the last one: about to reset the counter, to run the finalizer, to
    advance the round.  With the calls of [wait] it has completed. *)
Inductive thread := Out (k : nat) | Loaded (prevRound : Z) (k : nat) | Wait (prevRound : Z) (k : nat) | Reset_ (k : nat) | Finalize (k : nat) | Bump (k : nat).

(** The threads, and how often the finalizer ran and the round advanced. *)
Record sys := mkSys { b : body; threads : list thread; finals : nat; rounds : nat }.
Implicit Types (s : sys) (t : nat).

Definition wait_step t s : result sys :=
  th ← of_option WouldBlock (threads s !! t);
  let go th b f r := Ok (mkSys b (<[t := th]> (threads s)) f r) in
  match th with
  | Out k => go (Loaded (round (b s)) k) (b s) (finals s) (rounds s)
  | Loaded prevRound k =>
      let prev := cntr (b s) in
      go (if prev =? 1 then Reset_ k else Wait prevRound k) (mkBody (cntr (b s) -₆₄ 1) (round (b s))) (finals s) (rounds s)
  | Reset_ k => go (Finalize k) (mkBody (Z.of_nat n) (round (b s))) (finals s) (rounds s)
  | Finalize k => go (Bump k) (b s) (S (finals s)) (rounds s)
  | Bump k => go (Out (S k)) (mkBody (cntr (b s)) (u8 (round (b s) + 1))) (finals s) (S (rounds s))
  | Wait prevRound k => if round (b s) =? prevRound then Throw WouldBlock else go (Out (S k)) (b s) (finals s) (rounds s)
  end.

Definition step s s' : Prop := ∃ t, wait_step t s = Ok s'.
Definition initial s : Prop := s = mkSys body_new (replicate n (Out 0)) 0 0.

Definition passed (th : thread) : nat :=
  match th with Out k | Loaded _ k | Wait _ k | Reset_ k | Finalize k | Bump k => k end.
(** The calls in which the thread has decremented the counter. *)
Definition arrived (th : thread) : nat := match th with Out k | Loaded _ k => k | _ => S (passed th) end.
Definition last (th : thread) : bool := match th with Reset_ _ | Finalize _ | Bump _ => true | _ => false end.

(** Threads that arrived in the current round [g]. *)
Definition here (g : nat) (th : thread) : Prop := arrived th = S g.
#[global] Instance here_dec g th : Decision (here g th) := Nat.eq_dec _ _.

Definition thread_ok (g : nat) (th : thread) : Prop :=
  match th with
  | Out k => k = g
  | Loaded prevRound k => k = g ∧ prevRound = u8 (Z.of_nat g)
  | Wait prevRound k => prevRound = u8 (Z.of_nat k) ∧ (k = g ∨ S k = g)
  | Reset_ k | Finalize k | Bump k => k = g
  end.
Definition waiting s : nat := length (filter (here (rounds s)) (threads s)).

Record inv s : Prop := mkInv {
  iv_len : length (threads s) = n;
  iv_round : round (b s) = u8 (Z.of_nat (rounds s));
  iv_threads t th : threads s !! t = Some th → thread_ok (rounds s) th;
  iv_last t t' th th' : threads s !! t = Some th → threads s !! t' = Some th' → last th = true → last th' = true → t = t';
  iv_none : (∀ t th, threads s !! t = Some th → last th = false) →
    cntr (b s) = Z.of_nat n - Z.of_nat (waiting s) ∧ (waiting s < n)%nat ∧ finals s = rounds s;
  iv_some t th : threads s !! t = Some th → last th = true → waiting s = n ∧
    match th with Reset_ _ => cntr (b s) = 0 ∧ finals s = rounds s | Finalize _ => cntr (b s) = Z.of_nat n ∧ finals s = rounds s
    | _ => cntr (b s) = Z.of_nat n ∧ finals s = S (rounds s) end;
}.

Lemma list_insert_cases {A} (l : list A) t x t' y : <[t := x]> l !! t' = Some y → t' = t ∧ y = x ∨ t' ≠ t ∧ l !! t' = Some y.
Proof.
  destruct (decide (t' = t)) as [->|]; [|rewrite list_lookup_insert_ne by done; auto].
  intros H. pose proof (lookup_lt_Some _ _ _ H) as Hlt. rewrite length_insert in Hlt. rewrite list_lookup_insert_eq in H by done. injection H as <-. auto.
Qed.

Section step.
Variables (s : sys) (t : nat) (th : thread).
Hypotheses (Hn : Z.of_nat n < 2 ^ 64) (Hi : inv s) (Ht : threads s !! t = Some th).

Lemma all_here t' th' : waiting s = n → threads s !! t' = Some th' → here (rounds s) th'.
Proof.
  intros Hw H'. assert (Forall (here (rounds s)) (threads s)) as Hf by (apply (filter_full (here (rounds s))); unfold waiting in Hw; rewrite (iv_len _ Hi); lia).
  by eapply Forall_lookup_1 in Hf.
Qed.
Lemma waiting_insert th' b' f : (waiting (mkSys b' (<[t := th']> (threads s)) f (rounds s)) + (if decide (here (rounds s) th) then 1 else 0) =
  waiting s + (if decide (here (rounds s) th') then 1 else 0))%nat.
Proof. by apply filter_insert_length. Qed.

(** The round goes on: the thread moves to [th'], none or all arrived. *)
Lemma inv_shift th' b' f : round b' = round (b s) → thread_ok (rounds s) th' →
  (∀ t' th1, t' ≠ t → threads s !! t' = Some th1 → last th1 = true → last th' = false ∧ b' = b s ∧ f = finals s) →
  (here (rounds s) th → here (rounds s) th') →
  let s' := mkSys b' (<[t := th']> (threads s)) f (rounds s) in
  (last th' = false → last th = false ∧ ((∀ t th, threads s !! t = Some th → last th = false) →
     cntr b' = Z.of_nat n - Z.of_nat (waiting s') ∧ (waiting s' < n)%nat ∧ f = rounds s)) →
  (last th' = true → waiting s' = n ∧ match th' with Reset_ _ => cntr b' = 0 ∧ f = rounds s | Finalize _ => cntr b' = Z.of_nat n ∧ f = rounds s
    | _ => cntr b' = Z.of_nat n ∧ f = S (rounds s) end) → inv s'.
Proof.
  intros Hr Hok Hl Hh s' Hnone Hsome. constructor; cbn.
  - rewrite length_insert. apply (iv_len _ Hi).
  - rewrite Hr. apply (iv_round _ Hi).
  - intros t' th1 [[-> ->]|[? ?]]%list_insert_cases; [done|]. by eapply (iv_threads _ Hi).
  - intros t1 t2 th1 th2 [[-> ->]|[Hne1 H1]]%list_insert_cases [[-> ->]|[Hne2 H2]]%list_insert_cases L1 L2; try done.
    + destruct (Hl t2 th2 Hne2 H2 L2) as [? _]. congruence.
    + destruct (Hl t1 th1 Hne1 H1 L1) as [? _]. congruence.
    + by eapply (iv_last _ Hi).
  - intros Hall. assert (last th' = false) as L' by (apply (Hall t); apply list_lookup_insert_eq; by eapply lookup_lt_Some).
    destruct (Hnone L') as [L Hn']. apply Hn'. intros t1 th1 H1. destruct (decide (t1 = t)) as [->|Hne]; [congruence|].
    apply (Hall t1). by rewrite list_lookup_insert_ne.
  - intros t1 th1 [[-> ->]|[Hne H1]]%list_insert_cases L; [auto|].
    destruct (Hl t1 th1 Hne H1 L) as (L' & -> & ->). destruct (iv_some _ Hi t1 th1 H1 L) as [Hw Hm]. split; [|done].
    pose proof (all_here t th Hw Ht) as Hht. pose proof (waiting_insert th' (b s) (finals s)) as Hwi. rewrite !decide_True in Hwi by auto. unfold waiting in Hwi, Hw. cbn in Hwi. lia.
Qed.

Lemma inv_still th' : last th = false → last th' = false → thread_ok (rounds s) th' → ¬ here (rounds s) th → ¬ here (rounds s) th' →
  inv (mkSys (b s) (<[t := th']> (threads s)) (finals s) (rounds s)).
Proof.
  intros L L' Hok Hh Hh'. apply inv_shift; try done.
  - intros _. split; [done|]. intros Hall. destruct (iv_none _ Hi Hall) as (Hc & Hw & Hf).
    pose proof (waiting_insert th' (b s) (finals s)) as Hwi. rewrite !decide_False in Hwi by done.
    rewrite Nat.add_0_r in Hwi. rewrite Hwi, Nat.add_0_r. done.
  - congruence.
Qed.

Lemma inv_last th' b' f : last th = true → last th' = true → round b' = round (b s) → thread_ok (rounds s) th' → here (rounds s) th' →
  (waiting s = n → match th' with Reset_ _ => cntr b' = 0 ∧ f = rounds s | Finalize _ => cntr b' = Z.of_nat n ∧ f = rounds s
    | _ => cntr b' = Z.of_nat n ∧ f = S (rounds s) end) →
  inv (mkSys b' (<[t := th']> (threads s)) f (rounds s)).
Proof.
  intros L L' Hr Hok Hh Hm. apply inv_shift; try done.
  - intros t' th1 Hne H1 L1. destruct Hne. by eapply (iv_last _ Hi).
  - congruence.
  - intros _. destruct (iv_some _ Hi t th Ht L) as [Hw _]. split; [|by apply Hm].
    pose proof (waiting_insert th' b' f) as Hwi. rewrite (decide_True _ _ (all_here t th Hw Ht)), (decide_True _ _ Hh) in Hwi. lia.
Qed.

(** All arrived: the next round starts. *)
Lemma inv_bump k : th = Bump k →
  inv (mkSys (mkBody (cntr (b s)) (u8 (round (b s) + 1))) (<[t := Out (S k)]> (threads s)) (finals s) (S (rounds s))).
Proof.
  intros ->. destruct (iv_some _ Hi t _ Ht eq_refl) as [Hw [Hc Hf]]. pose proof (iv_threads _ Hi t _ Ht) as ->.
  assert (∀ t' th1, t' ≠ t → threads s !! t' = Some th1 → ∃ pr, th1 = Wait pr (rounds s) ∧ pr = u8 (Z.of_nat (rounds s))) as Hother.
  { intros t' th1 Hne H1. pose proof (all_here t' th1 Hw H1) as Hh. pose proof (iv_threads _ Hi t' th1 H1) as Hok.
    assert (last th1 = false) as L by (destruct (last th1) eqn:L; [|done]; destruct Hne; by eapply (iv_last _ Hi)).
    unfold here in Hh. destruct th1 as [k1|pr k1|pr k1| | |]; try done; cbn in *; try lia. exists pr.
    assert (k1 = rounds s) as -> by lia. destruct Hok. done. }
  set (s' := mkSys _ _ _ _). assert (waiting s' = 0%nat) as Hw0.
  { unfold waiting. rewrite filter_none; [done|]. intros th1 [t' [[-> ->]|[Hne H1]]%list_insert_cases]%list_elem_of_lookup_1; [unfold here; cbn; lia|].
    destruct (Hother t' th1 Hne H1) as (pr & -> & _). unfold here. cbn. lia. }
  assert (∀ t' th1, threads s' !! t' = Some th1 → last th1 = false) as Hnl.
  { intros t' th1 [[-> ->]|[Hne H1]]%list_insert_cases; [done|]. by destruct (Hother t' th1 Hne H1) as (pr & -> & _). }
  constructor.
  - cbn. rewrite length_insert. apply (iv_len _ Hi).
  - cbn. rewrite (iv_round _ Hi). unfold u8. rewrite Zplus_mod_idemp_l. f_equal. lia.
  - intros t' th1 [[-> ->]|[Hne H1]]%list_insert_cases; [done|]. destruct (Hother t' th1 Hne H1) as (pr & -> & ->). cbn. auto.
  - intros t1 t2 th1 th2 H1 _ L1 _. by rewrite (Hnl t1 th1 H1) in L1.
  - intros _. rewrite Hw0. cbn. rewrite Hc, Hf. split; [lia|]. split; [|done]. rewrite <- (iv_len _ Hi). apply lookup_lt_Some in Ht. lia.
  - intros t1 th1 H1 L1. by rewrite (Hnl t1 th1 H1) in L1.
Qed.

End step.

Lemma inv_arrive s t pr k : Z.of_nat n < 2 ^ 64 → inv s → threads s !! t = Some (Loaded pr k) →
  inv (mkSys (mkBody (cntr (b s) -₆₄ 1) (round (b s))) (<[t := if cntr (b s) =? 1 then Reset_ k else Wait pr k]> (threads s)) (finals s) (rounds s)).
Proof.
  intros Hn Hi Ht. pose proof (iv_threads _ Hi t _ Ht) as [-> ->]. assert (¬ here (rounds s) (Loaded (u8 (Z.of_nat (rounds s))) (rounds s))) as Hnh by (unfold here; cbn; lia).
  assert (∀ t th, threads s !! t = Some th → last th = false) as Hall.
  { intros t' th1 H1. destruct (last th1) eqn:L; [|done]. destruct (iv_some _ Hi t' th1 H1 L) as [Hw _]. by destruct Hnh; eapply (all_here s Hi t). }
  destruct (iv_none _ Hi Hall) as (Hc & Hw & Hf).
  assert (∀ t' th1, t' ≠ t → threads s !! t' = Some th1 → last th1 = true → False) as Hno by (intros t' th1 _ H1 L; by rewrite (Hall t' th1 H1) in L).
  set (th' := if cntr (b s) =? 1 then _ else _). assert (here (rounds s) th') as Hh' by (unfold th'; by destruct (_ =? 1)).
  set (b' := mkBody _ _). pose proof (waiting_insert s t _ Ht th' b' (finals s)) as Hwi. rewrite (decide_False _ _ Hnh), (decide_True _ _ Hh') in Hwi.
  assert (cntr b' = cntr (b s) - 1) as Hc' by (cbn; apply u64_small; lia).
  eapply (inv_shift s t _ Hi Ht); try done.
  - unfold th'. destruct (_ =? 1); cbn; auto.
  - intros t' th1 Hne H1 L. by destruct (Hno t' th1 Hne H1 L).
  - intros L'. split; [done|]. intros _. rewrite Hc'. unfold th' in L'. destruct (Z.eqb_spec (cntr (b s)) 1); [done|]. split_and!; [lia|lia|done].
  - intros L'. unfold th' in L' |- *. destruct (Z.eqb_spec (cntr (b s)) 1) as [E|]; [|done]. unfold th' in Hwi. split; [lia|].
    rewrite Hc', E. done.
Qed.

Lemma step_inv s s' : Z.of_nat n < 2 ^ 64 → inv s → step s s' → inv s'.
Proof.
  intros Hn Hi [t Hx]. unfold wait_step in Hx. destruct (threads s !! t) as [th|] eqn:Ht; [|done]. cbn [of_option mbind result_bind] in Hx.
  pose proof (iv_threads _ Hi t th Ht) as Hok. destruct th as [k|pr k|pr k|k|k|k].
  - apply Ok_inj in Hx as <-. cbn in Hok. subst k. eapply inv_still; try done; unfold here; cbn; [by rewrite (iv_round _ Hi)|lia|lia].
  - apply Ok_inj in Hx as <-. by eapply inv_arrive.
  - destruct (Z.eqb_spec (round (b s)) pr) as [|Hne]; [done|]. apply Ok_inj in Hx as <-. cbn in Hok. destruct Hok as [-> Hk]. rewrite (iv_round _ Hi) in Hne.
    assert (S k = rounds s) as Ek by (destruct Hk as [->|]; done). eapply inv_still; try done; unfold here; cbn; lia.
  - apply Ok_inj in Hx as <-. cbn in Hok. subst k. destruct (iv_some _ Hi t _ Ht eq_refl) as [_ [_ Hf]]. by eapply inv_last.
  - apply Ok_inj in Hx as <-. cbn in Hok. subst k. destruct (iv_some _ Hi t _ Ht eq_refl) as [_ [Hc Hf]]. eapply inv_last; try done. intros _. by rewrite Hc, Hf.
  - apply Ok_inj in Hx as <-. by eapply inv_bump.
Qed.
Lemma initial_inv s : (0 < n)%nat → initial s → inv s.
Proof.
  intros Hn ->. assert (∀ t th, replicate n (Out 0) !! t = Some th → th = Out 0) as Hr by (intros t th [-> _]%lookup_replicate; done).
  assert (waiting (mkSys body_new (replicate n (Out 0)) 0 0) = 0%nat) as Hw.
  { unfold waiting. rewrite filter_none; [done|]. intros th [-> _]%elem_of_replicate. unfold here. cbn. lia. }
  constructor.
  - apply length_replicate.
  - done.
  - by intros t th ->%Hr.
  - by intros t t' th th' ->%Hr.
  - intros _. rewrite Hw. cbn. split_and!; [lia|lia|done].
  - by intros t th ->%Hr.
Qed.
Lemma reachable_barrier s0 s : (0 < n)%nat → Z.of_nat n < 2 ^ 64 → initial s0 → rtc step s0 s → inv s.
Proof. intros Hn Hb H0%initial_inv Hr; [|done]. induction Hr as [|s1 s2 s3 Hs _ IH]; [done|]. apply IH. by eapply step_inv. Qed.
End barrier.

(** No thread leaves the barrier before all have arrived, with the accesses of
    the two atomics interleaved in any way: a thread that has completed [S k]
    calls of [wait] proves that every thread has arrived [S k] times.  The
    finalizer runs once per round, and before the threads are released. *)
Theorem thread_barrier_safe n s0 s t t' th th' : (0 < n)%nat → Z.of_nat n < 2 ^ 64 → initial n s0 → rtc (step n) s0 s →
  threads s !! t = Some th → threads s !! t' = Some th' → (passed th <= arrived th')%nat ∧ (passed th <= finals s <= S (rounds s))%nat.
Proof.
  intros Hn Hb H0 Hr Ht Ht'. pose proof (reachable_barrier n s0 s Hn Hb H0 Hr) as Hi.
  assert (∀ t th, threads s !! t = Some th → (rounds s <= S (passed th) ∧ passed th <= rounds s ∧ rounds s <= arrived th)%nat) as Hp.
  { intros t1 th1 H1. pose proof (iv_threads _ _ Hi t1 th1 H1). destruct th1; cbn in *; lia. }
  destruct (Hp t th Ht) as (_ & Hle & _), (Hp t' th' Ht') as (_ & _ & Hle'). split; [lia|].
  assert (rounds s <= finals s <= S (rounds s))%nat; [|lia].
  destruct (decide (Exists (λ th, last th = true) (threads s))) as [He|Hne].
  - apply Exists_exists in He as (th1 & [t1 H1]%list_elem_of_lookup_1 & L). destruct (iv_some _ _ Hi t1 th1 H1 L) as [_ Hm]. destruct th1; destruct Hm as [_ ->]; lia.
  - destruct (iv_none _ _ Hi) as (_ & _ & ->); [|lia]. intros t1 th1 H1. destruct (last th1) eqn:L; [|done]. destruct Hne. apply Exists_exists.
    exists th1. split; [by eapply list_elem_of_lookup_2|done].
Qed.

(** A thread in the loop of [wait] that sees the round it waits in. *)
Definition spins (s : sys) (th : thread) : bool := match th with Wait pr _ => round (b s) =? pr | _ => false end.

(** Threads that are all inside [wait] do not block each other: one of them
    can take a step. *)
Theorem thread_barrier_live n s0 s : (0 < n)%nat → Z.of_nat n < 2 ^ 64 → initial n s0 → rtc (step n) s0 s →
  (∀ t k, threads s !! t ≠ Some (Out k)) → ∃ t s', wait_step n t s = Ok s'.
Proof.
  intros Hn Hb H0 Hr Hin. pose proof (reachable_barrier n s0 s Hn Hb H0 Hr) as Hi.
  destruct (decide (Forall (λ th, spins s th = true) (threads s))) as [Hall|Hsome].
  - exfalso. assert (∀ t th, threads s !! t = Some th → last th = false ∧ here (rounds s) th) as Hw.
    { intros t th Ht. pose proof (iv_threads _ _ Hi t th Ht) as Hok. eapply Forall_lookup_1 in Hall; [|exact Ht]. destruct th as [|pr k|pr k| | |]; try done.
      cbn in Hall, Hok. apply Z.eqb_eq in Hall. destruct Hok as [Hp [->|Hk]]; [done|]. rewrite (iv_round _ _ Hi), Hp, <- Hk in Hall. by apply u8_succ_ne in Hall. }
    destruct (iv_none _ _ Hi) as (_ & Hlt & _); [intros t th Ht; by apply (Hw t)|]. unfold waiting in Hlt.
    rewrite filter_all, (iv_len _ _ Hi) in Hlt; [lia|]. apply Forall_lookup. intros t th Ht. by apply (Hw t).
  - apply not_Forall_Exists in Hsome; [|apply _]. apply Exists_exists in Hsome as (th & [t Ht]%list_elem_of_lookup_1 & Hs).
    exists t. unfold wait_step. rewrite Ht. cbn [of_option mbind result_bind]. destruct th; try by eexists. cbn in Hs. destruct (_ =? _); [done|by eexists].
Qed.

(** Two threads: the first one waits, the second one resets the counter, runs the
    finalizer and advances the round, and the first one leaves. *)
Fixpoint run (n : nat) (ts : list nat) (s : sys) : option sys :=
  match ts with [] => Some s | t :: ts => match wait_step n t s with Ok s1 => run n ts s1 | Throw _ => None end end.
Definition two : sys := mkSys (body_new 2) [Out 0; Out 0] 0 0.
Lemma two_rounds :
  run 2 [0; 1; 0; 1; 1]%nat two = Some (mkSys (mkBody 2 0) [Wait 0 0; Finalize 0] 0 0) ∧
  run 2 [0; 1; 0; 1; 1; 1; 1; 0]%nat two = Some (mkSys (mkBody 2 1) [Out 1; Out 1] 1 1).
Proof. by vm_compute. Qed.

(** ** CoreManager *)

Record CoreManager := mkCores { cores : list Z; hts : list Z }.
Implicit Types (m : CoreManager) (id : Z).

(** [count] is what the system reports as its number of hardware threads. *)
Definition cores_new (count : Z) : CoreManager :=
  let pCores := count / 2 in
  mkCores (seqZ 0 pCores) (seqZ pCores pCores).

(** The result holds the id of the core the thread was pinned to. *)
Definition pinThreadToHT m : result (Z * CoreManager) :=
  match hts m with [] => Throw EnsureFailed | id :: rest => Ok (id, mkCores (cores m) rest) end.
Definition pinThreadToCore m : result (Z * CoreManager) :=
  match cores m with [] => Throw EnsureFailed | id :: rest => Ok (id, mkCores rest (hts m)) end.
Definition pinThread m : result (Z * CoreManager) :=
  if negb (length (cores m) =? 0)%nat then pinThreadToCore m
  else if negb (length (hts m) =? 0)%nat then pinThreadToHT m
  else Throw RuntimeError.
Definition pinThreadRoundRobin m : result (Z * CoreManager) :=
  if (length (cores m) =? 0)%nat && (length (hts m) =? 0)%nat then Throw RuntimeError
  else if (length (hts m) <=? length (cores m))%nat then pinThreadToCore m
  else pinThreadToHT m.

Inductive pin := AnyCore | RoundRobin.
Definition pin_one (p : pin) : CoreManager → result (Z * CoreManager) := match p with AnyCore => pinThread | RoundRobin => pinThreadRoundRobin end.
Fixpoint pin_all (ps : list pin) m : result (list Z * CoreManager) :=
  match ps with
  | [] => Ok ([], m)
  | p :: ps => '(id, m) ← pin_one p m; '(ids, m) ← pin_all ps m; Ok (id :: ids, m)
  end.
Definition free m : list Z := cores m ++ hts m.

(** A pinning takes one of the free cores, and fails only when there is none. *)
Lemma pin_one_spec p m : match pin_one p m with
  | Ok (id, m') => free m ≡ₚ id :: free m'
  | Throw e => e = RuntimeError ∧ free m = [] end.
Proof.
  assert (∀ r, (cores m = [] → hts m = [] → r = Throw RuntimeError) → (free m ≠ [] → r = pinThreadToCore m ∧ cores m ≠ [] ∨ r = pinThreadToHT m ∧ hts m ≠ []) →
    match r with Ok (id, m') => free m ≡ₚ id :: free m' | Throw e => e = RuntimeError ∧ free m = [] end) as Hg.
  { intros r He Hs. destruct (decide (free m = [])) as [E|E].
    - apply app_nil in E as [Ec Eh]. rewrite (He Ec Eh). unfold free. by rewrite Ec, Eh.
    - destruct (Hs E) as [[-> Hc]|[-> Hh]]; unfold pinThreadToCore, pinThreadToHT, free.
      + by destruct (cores m).
      + destruct (hts m) as [|id l]; [done|]. cbn. by rewrite Permutation_middle. }
  apply Hg; destruct p; cbn; unfold pinThread, pinThreadRoundRobin, free; destruct (cores m) as [|c cs] eqn:Ec, (hts m) as [|h hs] eqn:Eh; cbn; try done; auto.
  intros _. destruct (length hs <=? length cs)%nat; auto.
Qed.

(** Threads are pinned to different cores, all of them existing, as long as there
    are as many; one more is refused. *)
Theorem pins_distinct count ps : 0 <= count →
  match pin_all ps (cores_new count) with
  | Ok (ids, _) => Z.of_nat (length ids) <= 2 * (count / 2) ∧ length ids = length ps ∧ NoDup ids ∧ Forall (λ id, 0 <= id < count) ids
  | Throw e => e = RuntimeError ∧ 2 * (count / 2) < Z.of_nat (length ps)
  end.
Proof.
  intros Hc. assert (∀ m, match pin_all ps m with
    | Ok (ids, m') => length ids = length ps ∧ free m ≡ₚ ids ++ free m'
    | Throw e => e = RuntimeError ∧ (length (free m) < length ps)%nat end) as Hg.
  { induction ps as [|p ps IH]; intros m; cbn [pin_all]; [done|]. pose proof (pin_one_spec p m) as Hp.
    destruct (pin_one p m) as [[id m1]|e]; cbn [mbind result_bind]; [|destruct Hp as [-> ->]; cbn; split; [done|lia]].
    specialize (IH m1). destruct (pin_all ps m1) as [[ids m2]|e]; cbn [mbind result_bind].
    - destruct IH as [Hl Hf]. split; [cbn; lia|]. by rewrite Hp, Hf.
    - destruct IH as [-> Hl]. split; [done|]. rewrite Hp. cbn. lia. }
  assert (free (cores_new count) = seqZ 0 (count / 2 + count / 2)) as Ef.
  { unfold free, cores_new. cbn. assert (0 <= count / 2) by (apply Z.div_pos; lia). rewrite (seqZ_app 0 (count / 2) (count / 2)) by lia. done. }
  assert (Z.of_nat (length (free (cores_new count))) = 2 * (count / 2)) as El by (rewrite Ef, length_seqZ; pose proof (Z.div_pos count 2 Hc); lia).
  specialize (Hg (cores_new count)). destruct (pin_all ps (cores_new count)) as [[ids m']|e].
  - destruct Hg as [Hl Hf]. split; [|split; [done|split]].
    + rewrite Hf, length_app in El. lia.
    + pose proof (NoDup_seqZ 0 (count / 2 + count / 2)) as Hnd. rewrite <- Ef, Hf in Hnd. by apply NoDup_app in Hnd as (? & _).
    + apply Forall_forall. intros id Hin. assert (id ∈ free (cores_new count)) as Hin' by (rewrite Hf; apply elem_of_app; by left).
      rewrite Ef in Hin'. apply elem_of_seqZ in Hin'. pose proof (Z.mul_div_le count 2). lia.
  - destruct Hg as [-> Hl]. split; [done|lia].
Qed.
