(* ===== verification/SmallMap.v ===== *)
(** * storage/datastructures/SmallMap.hpp

    A hash map whose buckets are chains of entries in one vector, with the free
    entries in a chain of their own.  Entry 0 is not used: position 0 ends a
    chain.  A key may be inserted again; [find] and [erase] then see the latest
    entry, so that a key holds a stack of values. *)

From S2P Require Import Prelude Defs RingBuffer.
Local Open Scope Z_scope.

Section map.
(** [v0] is the value of a default-constructed entry. *)
Context {V : Type} (v0 : V).

Record Entry := mkEntry { e_kv : Z * V; e_next : Z }.
Record SmallMap := mkMap { mask : Z; entries : list Entry; ht : list Z; freeList : Z }.
Implicit Types (m : SmallMap) (es : list Entry) (key p : Z) (v : V).

Definition map_new (htCount : Z) : result SmallMap :=
  _ ← ensure (htCount <=? 2 ^ 16);
  Ok (mkMap (u32 (htCount - 1)) [mkEntry (0, v0) 0] (replicate (Z.to_nat htCount) 0) 0).

(** MurmurHash64A of one word *)
Definition hashKey (k : Z) : Z :=
  let m := 0xc6a4a7935bd1e995 in
  let r := 47 in
  let h := Z.lxor 0x8445d61a4e774912 (8 *₆₄ m) in
  let k := k *₆₄ m in
  let k := Z.lxor k (Z.shiftr k r) in
  let k := k *₆₄ m in
  let h := Z.lxor h k in
  let h := h *₆₄ m in
  let h := Z.lxor h (Z.shiftr h r) in
  let h := h *₆₄ m in
  Z.lxor h (Z.shiftr h r).
Definition bucket m key : Z := Z.land (hashKey key) (mask m).

Definition set_entries es m : SmallMap := mkMap (mask m) es (ht m) (freeList m).
Definition set_ht h m : SmallMap := mkMap (mask m) (entries m) h (freeList m).
Definition set_free f m : SmallMap := mkMap (mask m) (entries m) (ht m) f.

Definition insert (key : Z) (v : V) m : result SmallMap :=
  pos ← arr_getZ (ht m) (bucket m key);
  if negb (freeList m =? 0) then
    e ← arr_getZ (entries m) (freeList m);
    let oldPos := freeList m in
    es ← arr_setZ (entries m) oldPos (mkEntry (key, v) pos);
    h ← arr_setZ (ht m) (bucket m key) oldPos;
    Ok (mkMap (mask m) es h (e_next e))
  else
    h ← arr_setZ (ht m) (bucket m key) (u16 (Z.of_nat (length (entries m))));
    Ok (mkMap (mask m) (entries m ++ [mkEntry (key, v) pos]) h (freeList m)).

(** The pointer of [erase]: into the hash table or to the [next] of an entry. *)
Inductive ptr := PHt (b : Z) | PNext (p : Z).
Definition load (q : ptr) m : result Z :=
  match q with PHt b => arr_getZ (ht m) b | PNext p => e ← arr_getZ (entries m) p; Ok (e_next e) end.
Definition store (q : ptr) (x : Z) m : result SmallMap :=
  match q with
  | PHt b => h ← arr_setZ (ht m) b x; Ok (set_ht h m)
  | PNext p => e ← arr_getZ (entries m) p; es ← arr_setZ (entries m) p (mkEntry (e_kv e) x); Ok (set_entries es m)
  end.

Fixpoint erase_loop (fuel : nat) (q : ptr) key m : result SmallMap :=
  match fuel with
  | O => Throw OutOfFuel
  | S fuel =>
      p ← load q m;
      if p =? 0 then Ok m
      else
        e ← arr_getZ (entries m) p;
        if (e_kv e).1 =? key then
          m ← store q (e_next e) m;
          m ← store (PNext p) (freeList m) m;
          Ok (set_free (u16 p) m)
        else erase_loop fuel (PNext p) key m
  end.
Definition erase key m : result SmallMap := erase_loop (S (length (entries m))) (PHt (bucket m key)) key m.

Fixpoint find_loop (fuel : nat) p key m : result (option (Z * V)) :=
  match fuel with
  | O => Throw OutOfFuel
  | S fuel =>
      if p =? 0 then Ok None
      else e ← arr_getZ (entries m) p; if (e_kv e).1 =? key then Ok (Some (e_kv e)) else find_loop fuel (e_next e) key m
  end.
Definition find key m : result (option (Z * V)) :=
  p ← arr_getZ (ht m) (bucket m key);
  find_loop (S (length (entries m))) p key m.

(** ** Chains *)

Fixpoint chain es p (l : list nat) : Prop :=
  match l with
  | [] => p = 0
  | i :: l => p = Z.of_nat i ∧ (0 < i)%nat ∧ ∃ e, es !! i = Some e ∧ chain es (e_next e) l
  end.
(** The pairs of a chain. *)
Definition kvs es (l : list nat) : list (Z * V) := omap (λ i, e_kv <$> es !! i) l.
Definition first key (l : list (Z * V)) : option (Z * V) := List.find (λ x, x.1 =? key) l.

Lemma chain_frame es es' p l : (∀ i, i ∈ l → es' !! i = es !! i) → chain es p l → chain es' p l.
Proof.
  revert p. induction l as [|i l IH]; intros p Hf; [done|]. cbn. intros (-> & Hi & e & He & Hc). split; [done|]. split; [done|].
  exists e. rewrite Hf by (by left). split; [done|]. apply IH; [|done]. intros j Hj. apply Hf. by right.
Qed.
Lemma kvs_frame es es' l : (∀ i, i ∈ l → es' !! i = es !! i) → kvs es' l = kvs es l.
Proof. intros Hf. unfold kvs. induction l as [|i l IH]; [done|]. cbn. rewrite Hf by (by left). rewrite IH; [done|]. intros j Hj. apply Hf. by right. Qed.
Lemma arr_getZ_nat {A} (l : list A) i x : l !! i = Some x → arr_getZ l (Z.of_nat i) = Ok x.
Proof. intros H. unfold arr_getZ. rewrite decide_True by lia. rewrite Nat2Z.id. by apply arr_get_lookup. Qed.
Lemma arr_setZ_nat {A} (l : list A) i x y : l !! i = Some y → arr_setZ l (Z.of_nat i) x = Ok (<[i := x]> l).
Proof. intros H%lookup_lt_Some. unfold arr_setZ. rewrite decide_True by lia. rewrite Nat2Z.id. by apply arr_set_lt. Qed.

Lemma find_chain fuel p key m l : chain (entries m) p l → (length l < fuel)%nat → find_loop fuel p key m = Ok (first key (kvs (entries m) l)).
Proof.
  revert p fuel. induction l as [|i l IH]; intros p [|fuel] Hc Hl; cbn in Hl; try lia; cbn [find_loop chain] in *.
  - by rewrite Hc.
  - destruct Hc as (-> & Hi & e & He & Hc). rewrite (proj2 (Z.eqb_neq _ _)) by lia. rewrite (arr_getZ_nat _ _ _ He). cbn [mbind result_bind].
    unfold kvs. cbn [omap list_omap]. rewrite He. cbn [fmap option_fmap option_map]. unfold first. cbn [List.find].
    destruct ((e_kv e).1 =? key); [done|]. apply IH; [done|lia].
Qed.

Lemma chain_lookup es p l i : chain es p l → i ∈ l → (0 < i)%nat ∧ is_Some (es !! i).
Proof.
  revert p. induction l as [|j l IH]; intros p Hc Hin; [by apply not_elem_of_nil in Hin|]. destruct Hc as (_ & Hj & e & He & Hc).
  apply elem_of_cons in Hin as [->|Hin]; [split; [done|by eexists]|]. by eapply IH.
Qed.
Lemma chain_app es p l1 l2 : chain es p (l1 ++ l2) → ∃ p', chain es p' l2.
Proof. revert p. induction l1 as [|i l1 IH]; intros p Hc; [by exists p|]. destruct Hc as (_ & _ & e & _ & Hc). by apply (IH (e_next e)). Qed.

(** Changing [next] fields keeps the pairs. *)
Lemma kvs_next es es' l : e_kv <$> es' = e_kv <$> es → kvs es' l = kvs es l.
Proof.
  intros E. unfold kvs. induction l as [|i l IH]; [done|]. cbn. rewrite IH. rewrite <- !list_lookup_fmap. by rewrite E.
Qed.
Lemma kv_insert es i e p : es !! i = Some e → e_kv <$> <[i := mkEntry (e_kv e) p]> es = e_kv <$> es.
Proof. intros He. rewrite list_fmap_insert. cbn. apply list_insert_id. by rewrite list_lookup_fmap, He. Qed.

(** The entry behind [j] is taken out. *)
Lemma chain_unlink es p l1 j i l2 ej ei : chain es p (l1 ++ j :: i :: l2) → NoDup (l1 ++ j :: i :: l2) → es !! j = Some ej → es !! i = Some ei →
  chain (<[j := mkEntry (e_kv ej) (e_next ei)]> es) p (l1 ++ j :: l2).
Proof.
  revert p. induction l1 as [|x l1 IH]; intros p Hc Hnd Hj Hi; cbn [app chain] in *.
  - destruct Hc as (-> & H0 & e & He & _ & H1 & e' & He' & Hc). split; [done|]. split; [done|]. eexists.
    split; [apply list_lookup_insert_eq; by eapply lookup_lt_Some|]. cbn. assert (e' = ei) as -> by congruence.
    apply (chain_frame es); [|done]. intros x Hx. apply list_lookup_insert_ne. intros ->. apply NoDup_cons in Hnd as [Hn _]. apply Hn. by right.
  - destruct Hc as (-> & H0 & e & He & Hc). apply NoDup_cons in Hnd as [Hn Hnd]. split; [done|]. split; [done|]. exists e. split.
    + rewrite list_lookup_insert_ne; [done|]. intros ->. apply Hn. apply elem_of_app. right. by left.
    + by apply IH.
Qed.

(** The pairs without the latest one of a key. *)
Fixpoint remove_first key (l : list (Z * V)) : list (Z * V) :=
  match l with [] => [] | x :: l => if x.1 =? key then l else x :: remove_first key l end.
Fixpoint last_ptr (q : ptr) (l : list nat) : ptr := match l with [] => q | i :: l => last_ptr (PNext (Z.of_nat i)) l end.

Definition unlink (q : ptr) (i : nat) (e : Entry) m : result SmallMap :=
  m ← store q (e_next e) m;
  m ← store (PNext (Z.of_nat i)) (freeList m) m;
  Ok (set_free (u16 (Z.of_nat i)) m).

(** [erase] finds no entry of the key, or takes out the first one. *)
Lemma erase_chain fuel q p key m l : load q m = Ok p → chain (entries m) p l → (length l < fuel)%nat →
  erase_loop fuel q key m = Ok m ∧ remove_first key (kvs (entries m) l) = kvs (entries m) l ∨
  ∃ l1 i l2 e, l = l1 ++ i :: l2 ∧ entries m !! i = Some e ∧ erase_loop fuel q key m = unlink (last_ptr q l1) i e m ∧
    remove_first key (kvs (entries m) l) = kvs (entries m) (l1 ++ l2).
Proof.
  revert q p fuel. induction l as [|i l IH]; intros q p [|fuel] Hq Hc Hl; cbn in Hl; try lia; cbn [erase_loop chain] in *; rewrite Hq; cbn [mbind result_bind].
  - left. by rewrite Hc.
  - destruct Hc as (-> & Hi & e & He & Hc). rewrite (proj2 (Z.eqb_neq _ _)) by lia. rewrite (arr_getZ_nat _ _ _ He). cbn [mbind result_bind].
    assert (kvs (entries m) (i :: l) = e_kv e :: kvs (entries m) l) as Ek by (unfold kvs; cbn; by rewrite He).
    rewrite Ek. cbn [remove_first]. destruct ((e_kv e).1 =? key) eqn:Ekey.
    + right. exists [], i, l, e. done.
    + destruct (IH (PNext (Z.of_nat i)) (e_next e) fuel) as [[-> E]|(l1 & i' & l2 & e' & -> & He' & -> & E)]; [|done|lia|left|right].
      * cbn [load]. by rewrite (arr_getZ_nat _ _ _ He).
      * by rewrite E.
      * exists (i :: l1), i', l2, e'. split; [done|]. split; [done|]. split; [done|]. rewrite E. unfold kvs. cbn. by rewrite He.
Qed.

(** ** The invariant *)

(** [cs] are the chains of the buckets and [fr] the free entries. *)
Record map_ok m (cs : list (list nat)) (fr : list nat) : Prop := mkOk {
  mo_len : length cs = length (ht m);
  mo_mask : mask m = Z.of_nat (length (ht m)) - 1 ∧ (1 <= length (ht m))%nat;
  mo_chain b p l : ht m !! b = Some p → cs !! b = Some l → chain (entries m) p l;
  mo_free : chain (entries m) (freeList m) fr;
  mo_nodup : NoDup (concat cs ++ fr);
  mo_pos : (0 < length (entries m))%nat;
}.
Definition contents m (cs : list (list nat)) (b : nat) : list (Z * V) := kvs (entries m) (default [] (cs !! b)).

Lemma concat_nodup (cs : list (list nat)) b l : NoDup (concat cs) → cs !! b = Some l → NoDup l.
Proof.
  intros Hnd Hb. rewrite <- (take_drop_middle _ _ _ Hb) in Hnd. rewrite concat_app in Hnd. cbn in Hnd.
  apply NoDup_app in Hnd as (_ & _ & Hnd). by apply NoDup_app in Hnd as (? & _).
Qed.
Lemma concat_elem (cs : list (list nat)) b l i : cs !! b = Some l → i ∈ l → i ∈ concat cs.
Proof. intros Hb Hi. apply list_elem_of_In, in_concat. exists l. split; apply list_elem_of_In; [by eapply list_elem_of_lookup_2|done]. Qed.
Lemma concat_split (cs : list (list nat)) b l l' : cs !! b = Some l → ∃ r, concat cs ≡ₚ l ++ r ∧ concat (<[b := l']> cs) ≡ₚ l' ++ r ∧
  ∀ b' l1 i, b' ≠ b → cs !! b' = Some l1 → i ∈ l1 → i ∈ r.
Proof.
  intros Hb. pose proof (lookup_lt_Some _ _ _ Hb) as Hlt. exists (concat (take b cs) ++ concat (drop (S b) cs)). split; [|split].
  - rewrite <- (take_drop_middle _ _ _ Hb) at 1. rewrite concat_app. cbn. rewrite !app_assoc. by rewrite (Permutation_app_comm (concat (take b cs)) l).
  - rewrite insert_take_drop by done. rewrite concat_app. cbn. rewrite !app_assoc. by rewrite (Permutation_app_comm (concat (take b cs)) l').
  - intros b' l1 i Hne Hb' Hi. apply elem_of_app. destruct (decide (b' < b)%nat).
    + left. apply (concat_elem _ b' l1); [|done]. by rewrite lookup_take_lt.
    + right. apply (concat_elem _ (b' - S b) l1); [|done]. rewrite lookup_drop. by replace (S b + (b' - S b))%nat with b' by lia.
Qed.

(** What a change of bucket [b] has to keep. *)
Lemma map_update m cs fr b p l m' p' l' fr' : map_ok m cs fr → ht m !! b = Some p → cs !! b = Some l →
  mask m' = mask m → ht m' = <[b := p']> (ht m) → l' ++ fr' ≡ₚ l ++ fr ∨ (∃ i, l' ++ fr' ≡ₚ i :: l ++ fr ∧ (length (entries m) <= i)%nat) →
  (∀ i, i ∉ l → i ∉ fr → is_Some (entries m !! i) → entries m' !! i = entries m !! i) →
  chain (entries m') p' l' → chain (entries m') (freeList m') fr' → (length (entries m) <= length (entries m'))%nat →
  map_ok m' (<[b := l']> cs) fr' ∧ ∀ b', b' ≠ b → contents m' (<[b := l']> cs) b' = contents m cs b'.
Proof.
  intros [Hlen Hmask Hch Hfree Hnd Hpos] Hp Hl Em Eh Hperm Hfr Hc' Hf' Hle. destruct (concat_split cs b l l' Hl) as (r & E1 & E2 & Hr).
  assert (NoDup ((l ++ fr) ++ r)) as Hnd'. { rewrite E1 in Hnd. rewrite <- app_assoc in Hnd |- *. by rewrite (Permutation_app_comm fr r). }
  assert (∀ b' p1 l1, b' ≠ b → ht m !! b' = Some p1 → cs !! b' = Some l1 → ∀ i, i ∈ l1 → entries m' !! i = entries m !! i) as Hother.
  { intros b' p1 l1 Hne Hp1 Hl1 i Hi. apply Hfr; [..|by eapply chain_lookup; [by apply (Hch b' p1)|]]; intros Hin;
      apply NoDup_app in Hnd' as (_ & Hd & _); apply (Hd i); [apply elem_of_app; by left|by eapply Hr|apply elem_of_app; by right|by eapply Hr]. }
  assert (∀ i, i ∈ (l ++ fr) ++ r → (i < length (entries m))%nat) as Hin.
  { intros i Hi. assert (i ∈ concat cs ++ fr) as Hi'. { rewrite E1. set_solver. }
    apply elem_of_app in Hi' as [Hi'|Hi']; [|by eapply chain_lookup in Hi' as [_ ?%lookup_lt_is_Some]; [|exact Hfree]].
    apply list_elem_of_In, in_concat in Hi' as (l1 & Hl1%list_elem_of_In & Hi1%list_elem_of_In). apply list_elem_of_lookup_1 in Hl1 as [b1 Hb1].
    destruct (lookup_lt_is_Some_2 (ht m) b1) as [p1 Hp1]; [rewrite <- Hlen; by eapply lookup_lt_Some|].
    by eapply chain_lookup in Hi1 as [_ ?%lookup_lt_is_Some]; [|by apply (Hch b1 p1)]. }
  split.
  - constructor.
    + by rewrite Eh, !length_insert.
    + by rewrite Em, Eh, length_insert.
    + intros b' p1 l1. rewrite Eh. destruct (decide (b' = b)) as [->|Hne].
      * rewrite !list_lookup_insert_eq by (rewrite <- ?Hlen; by eapply lookup_lt_Some). by intros [= <-] [= <-].
      * rewrite !list_lookup_insert_ne by done. intros Hp1 Hl1. eapply chain_frame; [by apply (Hother b' p1 l1)|]. by apply (Hch b').
    + done.
    + rewrite E2. assert ((l' ++ r) ++ fr' ≡ₚ (l' ++ fr') ++ r) as -> by (rewrite <- !app_assoc; by rewrite (Permutation_app_comm r fr')).
      destruct Hperm as [-> | (i & -> & Hi)]; [done|]. cbn. apply NoDup_cons. split; [|done]. intros Hi'. apply Hin in Hi'. lia.
    + lia.
  - intros b' Hne. unfold contents. rewrite list_lookup_insert_ne by done. destruct (cs !! b') as [l1|] eqn:Hl1; [|done]. cbn.
    destruct (lookup_lt_is_Some_2 (ht m) b') as [p1 Hp1]; [rewrite <- Hlen; by eapply lookup_lt_Some|]. apply kvs_frame. by apply (Hother b' p1).
Qed.

Lemma in_bucket m cs fr key : map_ok m cs fr → ∃ b p l, bucket m key = Z.of_nat b ∧ ht m !! b = Some p ∧ cs !! b = Some l.
Proof.
  intros [Hlen [Hm H1] _ _ _ _]. assert (0 <= bucket m key <= mask m) as Hb.
  { unfold bucket. split; [apply Z.land_nonneg; right; lia|].
    assert (0 <= mask m - Z.land (hashKey key) (mask m)); [|lia]. rewrite Z.sub_nocarry_ldiff.
    - apply Z.ldiff_nonneg. left. lia.
    - apply Z.bits_inj'. intros k Hk. rewrite Z.ldiff_spec, Z.land_spec, Z.bits_0. by destruct (Z.testbit (hashKey key) k), (Z.testbit (mask m) k). }
  exists (Z.to_nat (bucket m key)). destruct (lookup_lt_is_Some_2 (ht m) (Z.to_nat (bucket m key))) as [p Hp]; [lia|].
  destruct (lookup_lt_is_Some_2 cs (Z.to_nat (bucket m key))) as [l Hl]; [lia|]. exists p, l. split; [lia|done].
Qed.

Lemma chain_fits es p l : chain es p l → NoDup l → (length l <= length es)%nat.
Proof.
  intros Hc Hnd. rewrite <- (length_seq (length es) 0). apply submseteq_length. apply NoDup_submseteq; [done|].
  intros i Hi. apply elem_of_seq. destruct (chain_lookup _ _ _ _ Hc Hi) as [_ ?%lookup_lt_is_Some]. lia.
Qed.
Lemma nodup_bucket m cs fr b l : map_ok m cs fr → cs !! b = Some l → NoDup l.
Proof. intros Hok Hl. pose proof (mo_nodup _ _ _ Hok) as Hnd. apply NoDup_app in Hnd as (Hnd & _). by eapply concat_nodup. Qed.

Lemma concat_length (cs : list (list nat)) b l l' : cs !! b = Some l →
  (length (concat (<[b := l']> cs)) + length l = length (concat cs) + length l')%nat.
Proof. intros Hb. destruct (concat_split cs b l l' Hb) as (r & -> & -> & _). rewrite !length_app. lia. Qed.
Lemma kvs_length es p l : chain es p l → length (kvs es l) = length l.
Proof.
  revert p. induction l as [|i l IH]; intros p; [done|]. cbn [chain]. intros (_ & _ & e & He & Hc). unfold kvs. cbn [omap list_omap].
  rewrite He. cbn. f_equal. by eapply IH.
Qed.

Lemma find_ok m cs fr key : map_ok m cs fr → find key m = Ok (first key (contents m cs (Z.to_nat (bucket m key)))).
Proof.
  intros Hok. destruct (in_bucket m cs fr key Hok) as (b & p & l & Eb & Hp & Hl). unfold find. rewrite Eb, (arr_getZ_nat _ _ _ Hp), Nat2Z.id.
  cbn [mbind result_bind]. unfold contents. rewrite Hl. pose proof (mo_chain _ _ _ Hok b p l Hp Hl) as Hc.
  apply find_chain; [done|]. apply Nat.lt_succ_r. eapply chain_fits; [done|]. by eapply nodup_bucket.
Qed.

Lemma insert_ok m cs fr key v : map_ok m cs fr → (fr = [] → Z.of_nat (length (entries m)) < 2 ^ 16) → Z.of_nat (length (entries m)) <= 2 ^ 16 →
  ∃ m' cs' fr', insert key v m = Ok m' ∧ map_ok m' cs' fr' ∧ mask m' = mask m ∧
    (length (entries m') + length fr = length (entries m) + length fr' + 1)%nat ∧ Z.of_nat (length (entries m')) <= 2 ^ 16 ∧
    length (concat cs') = S (length (concat cs)) ∧
    ∀ b, contents m' cs' b = if decide (Z.of_nat b = bucket m key) then (key, v) :: contents m cs b else contents m cs b.
Proof.
  intros Hok Hlt0 Hmax. destruct (in_bucket m cs fr key Hok) as (b & p & l & Eb & Hp & Hl). pose proof (mo_chain _ _ _ Hok b p l Hp Hl) as Hc.
  pose proof (mo_free _ _ _ Hok) as Hf. unfold insert. rewrite Eb, (arr_getZ_nat _ _ _ Hp). cbn [mbind result_bind].
  assert (b < length cs)%nat as Hbl by (by eapply lookup_lt_Some).
  assert (∀ m' l', (∀ b', b' ≠ b → contents m' (<[b := l']> cs) b' = contents m cs b') → kvs (entries m') l' = (key, v) :: kvs (entries m) l →
    ∀ b', contents m' (<[b := l']> cs) b' = if decide (Z.of_nat b' = Z.of_nat b) then (key, v) :: contents m cs b' else contents m cs b') as Hcont.
  { intros m' l' Ho Hk b'. case_decide as E; [|apply Ho; intros ->; done]. assert (b' = b) as -> by lia. unfold contents.
    rewrite list_lookup_insert_eq by done. rewrite Hl. done. }
  destruct fr as [|i fr].
  - pose proof (Hlt0 eq_refl) as Hlt. cbn in Hf. rewrite Hf. cbn [negb Z.eqb]. rewrite (arr_setZ_nat _ _ _ _ Hp). cbn [mbind result_bind].
    assert (u16 (Z.of_nat (length (entries m))) = Z.of_nat (length (entries m))) as -> by (apply Z.mod_small; lia).
    set (m' := mkMap _ _ _ _). assert (entries m' !! length (entries m) = Some (mkEntry (key, v) p)) as Hnew by (cbn; by apply list_lookup_middle).
    assert (∀ j, is_Some (entries m !! j) → entries m' !! j = entries m !! j) as Hold by (intros j Hj; cbn; by apply lookup_app_l, lookup_lt_is_Some).
    assert (∀ j, j ∈ l → entries m' !! j = entries m !! j) as Hol by (intros j Hj; apply Hold; by eapply chain_lookup).
    pose proof (mo_pos _ _ _ Hok) as Hpos.
    destruct (map_update m cs [] b p l m' (Z.of_nat (length (entries m))) (length (entries m) :: l) [] Hok Hp Hl) as [Hok' Hrest]; try done.
    + right. exists (length (entries m)). split; [done|lia].
    + auto.
    + cbn [chain]. split; [done|]. split; [done|]. eexists. split; [exact Hnew|]. by eapply chain_frame.
    + cbn. rewrite length_app. lia.
    + eexists m', _, []. split; [done|]. split; [exact Hok'|]. split; [done|]. split; [cbn; rewrite length_app; cbn; lia|]. split; [cbn; rewrite length_app; cbn; lia|].
      split; [pose proof (concat_length cs b l (length (entries m) :: l) Hl) as Hcl; cbn [length] in Hcl; lia|].
      apply Hcont; [done|]. unfold kvs. cbn [omap list_omap]. rewrite Hnew. cbn. f_equal. by apply kvs_frame.
  - destruct Hf as (Ef & Hi & e & He & Hf). rewrite Ef, (proj2 (Z.eqb_neq _ _)) by lia. cbn [negb].
    rewrite (arr_getZ_nat _ _ _ He). cbn [mbind result_bind]. rewrite (arr_setZ_nat _ _ _ _ He), (arr_setZ_nat _ _ _ _ Hp). cbn [mbind result_bind].
    set (m' := mkMap _ _ _ _). assert (entries m' !! i = Some (mkEntry (key, v) p)) as Hnew by (cbn; apply list_lookup_insert_eq; by eapply lookup_lt_Some).
    assert (∀ j, j ≠ i → entries m' !! j = entries m !! j) as Hold by (intros j Hj; cbn; by apply list_lookup_insert_ne).
    pose proof (mo_nodup _ _ _ Hok) as Hnd. apply NoDup_app in Hnd as (_ & Hd & [Hnf _]%NoDup_cons).
    assert (∀ j, j ∈ l → entries m' !! j = entries m !! j) as Hol by (intros j Hj; apply Hold; intros ->; apply (Hd i); [by eapply concat_elem|by left]).
    destruct (map_update m cs (i :: fr) b p l m' (Z.of_nat i) (i :: l) fr Hok Hp Hl) as [Hok' Hrest]; try done.
    + left. cbn. by rewrite Permutation_middle.
    + intros j _ Hj _. apply Hold. intros ->. apply Hj. by left.
    + cbn [chain]. split; [done|]. split; [done|]. eexists. split; [exact Hnew|]. by eapply chain_frame.
    + cbn. eapply chain_frame; [|exact Hf]. intros j Hj. apply Hold. by intros ->.
    + cbn. by rewrite length_insert.
    + eexists m', _, fr. split; [done|]. split; [exact Hok'|]. split; [done|]. split; [cbn; rewrite length_insert; lia|].
      split; [cbn; rewrite length_insert; lia|]. split; [pose proof (concat_length cs b l (i :: l) Hl) as Hcl; cbn [length] in Hcl; lia|].
      apply Hcont; [done|]. unfold kvs. cbn [omap list_omap]. rewrite Hnew. cbn. f_equal. by apply kvs_frame.
Qed.

Lemma last_ptr_app q l j : last_ptr q (l ++ [j]) = PNext (Z.of_nat j).
Proof. revert q. induction l as [|i l IH]; intros q; [done|]. apply IH. Qed.
Lemma unlink_at m m1 i (e e1 : Entry) q : store q (e_next e) m = Ok m1 → entries m1 !! i = Some e1 → e_kv e1 = e_kv e →
  unlink q i e m = Ok (mkMap (mask m1) (<[i := mkEntry (e_kv e) (freeList m1)]> (entries m1)) (ht m1) (u16 (Z.of_nat i))).
Proof.
  intros Hs H1 Hkv. unfold unlink. rewrite Hs. cbn [mbind result_bind store]. rewrite (arr_getZ_nat _ _ _ H1). cbn [mbind result_bind].
  rewrite (arr_setZ_nat _ _ _ _ H1). cbn. by rewrite Hkv.
Qed.

Lemma erase_ok m cs fr key : map_ok m cs fr → Z.of_nat (length (entries m)) <= 2 ^ 16 →
  ∃ m' cs' fr', erase key m = Ok m' ∧ map_ok m' cs' fr' ∧ mask m' = mask m ∧ length (entries m') = length (entries m) ∧
    (length (concat cs') + length fr' = length (concat cs) + length fr)%nat ∧
    (let l := contents m cs (Z.to_nat (bucket m key)) in length (concat cs') + length l = length (concat cs) + length (remove_first key l))%nat ∧
    ∀ b, contents m' cs' b = if decide (Z.of_nat b = bucket m key) then remove_first key (contents m cs b) else contents m cs b.
Proof.
  intros Hok Hlt. destruct (in_bucket m cs fr key Hok) as (b & p & l & Eb & Hp & Hl). pose proof (mo_chain _ _ _ Hok b p l Hp Hl) as Hc.
  pose proof (mo_free _ _ _ Hok) as Hf. unfold erase. rewrite Eb.
  assert (b < length cs)%nat as Hbl by (by eapply lookup_lt_Some).
  pose proof (mo_nodup _ _ _ Hok) as Hnd. apply NoDup_app in Hnd as (_ & Hd & Hndf). pose proof (nodup_bucket m cs fr b l Hok Hl) as Hndl.
  assert (∀ i, i ∈ l → i ∉ fr) as Hlf by (intros i Hi; apply Hd; by eapply concat_elem).
  destruct (erase_chain (S (length (entries m))) (PHt (Z.of_nat b)) p key m l) as [[-> Er]|(l1 & i & l2 & e & -> & He & -> & Er)]; [|done| | |].
  { cbn [load]. by apply arr_getZ_nat. }
  { apply Nat.lt_succ_r. by eapply chain_fits. }
  { exists m, cs, fr. split_and!; [done|done|done|done|done|cbn zeta; rewrite Nat2Z.id; unfold contents; rewrite Hl; cbn [default from_option id]; f_equal; by rewrite Er|]. intros b'. case_decide; [|done]. assert (b' = b) as -> by lia. unfold contents. rewrite Hl. symmetry. exact Er. }
  assert (i ∉ l1 ∧ i ∉ l2) as [Hi1 Hi2]. { apply NoDup_app in Hndl as (_ & Hdl & [? _]%NoDup_cons). split; [|done]. intros Hin. apply (Hdl i Hin). by left. }
  assert (i ∉ fr) as Hif by (apply Hlf; apply elem_of_app; right; by left).
  destruct (chain_lookup _ _ _ i Hc) as [Hi0 _]; [apply elem_of_app; right; by left|].
  assert (u16 (Z.of_nat i) = Z.of_nat i) as Ei by (apply Z.mod_small; apply lookup_lt_Some in He; lia).
  assert (∃ p' es1, e_kv <$> es1 = e_kv <$> entries m ∧ (∀ j, j ∉ l1 → es1 !! j = entries m !! j) ∧ chain es1 p' (l1 ++ l2) ∧
    store (last_ptr (PHt (Z.of_nat b)) l1) (e_next e) m = Ok (mkMap (mask m) es1 (<[b := p']> (ht m)) (freeList m)) ∧ length es1 = length (entries m))
    as (p' & es1 & Hkv & Hes & Hc1 & Hst & Hlen).
  { destruct l1 as [|j l0 _] using rev_ind.
    - exists (e_next e), (entries m). destruct Hc as (_ & _ & e' & He' & Hc). assert (e' = e) as -> by congruence.
      split_and!; [done|done|done| |done]. cbn [last_ptr store]. by rewrite (arr_setZ_nat _ _ _ _ Hp).
    - rewrite <- app_assoc in Hc, Hndl. cbn [app] in Hc, Hndl. destruct (chain_lookup _ _ _ j Hc) as [_ [ej Hj]]; [apply elem_of_app; right; by left|].
      exists p, (<[j := mkEntry (e_kv ej) (e_next e)]> (entries m)). split_and!.
      + by apply kv_insert.
      + intros x Hx. apply list_lookup_insert_ne. intros ->. apply Hx. apply elem_of_app. right. by left.
      + rewrite <- app_assoc. by eapply chain_unlink.
      + rewrite last_ptr_app. cbn [store]. rewrite (arr_getZ_nat _ _ _ Hj). cbn [mbind result_bind]. rewrite (arr_setZ_nat _ _ _ _ Hj). cbn.
        unfold set_entries. by rewrite (list_insert_id (ht m) b p Hp).
      + by rewrite length_insert. }
  assert (es1 !! i = Some e) as Hi by (by rewrite Hes).
  rewrite (unlink_at m _ i e e _ Hst Hi eq_refl), Ei. cbn [mask entries ht freeList]. set (m' := mkMap _ _ _ _).
  assert (∀ j, j ≠ i → entries m' !! j = es1 !! j) as Hold by (intros j Hj; cbn; by apply list_lookup_insert_ne).
  destruct (map_update m cs fr b p (l1 ++ i :: l2) m' p' (l1 ++ l2) (i :: fr) Hok Hp Hl) as [Hok' Hrest]; try done.
  - left. solve_Permutation.
  - intros j Hj _ _. rewrite Hold by (intros ->; apply Hj; apply elem_of_app; right; by left). apply Hes. intros Hin. apply Hj. apply elem_of_app. by left.
  - eapply chain_frame; [|exact Hc1]. intros j Hj. apply Hold. intros ->. apply elem_of_app in Hj as [?|?]; done.
  - cbn [chain]. split; [done|]. split; [done|]. eexists. split; [cbn; apply list_lookup_insert_eq; by eapply lookup_lt_Some|]. cbn.
    eapply chain_frame; [|exact Hf]. intros j Hj. rewrite Hold by (by intros ->). apply Hes. intros Hin. apply (Hlf j); [apply elem_of_app; by left|done].
  - cbn. rewrite length_insert, Hlen. done.
  - exists m', (<[b := l1 ++ l2]> cs), (i :: fr). split; [done|]. split; [exact Hok'|]. split; [done|]. split; [cbn; by rewrite length_insert|].
    pose proof (concat_length cs b _ (l1 ++ l2) Hl) as Hcl. rewrite !length_app in Hcl. cbn [length] in Hcl. split; [cbn; lia|]. split.
    { rewrite Nat2Z.id. unfold contents. rewrite Hl. cbn [default from_option id]. rewrite Er. rewrite (kvs_length _ p) by done.
      rewrite <- (kvs_next (entries m) es1) by done. rewrite (kvs_length es1 p') by done. rewrite !length_app. cbn [length]. lia. }
    intros b'. case_decide as E; [|apply Hrest; intros ->; done]. assert (b' = b) as -> by lia. unfold contents.
    rewrite list_lookup_insert_eq by done. rewrite Hl. transitivity (kvs (entries m) (l1 ++ l2)); [|by symmetry]. apply kvs_next. cbn. by rewrite kv_insert.
Qed.

(** ** The map as stacks of values *)

Definition vals key (l : list (Z * V)) : list V := snd <$> filter (λ x, x.1 = key) l.

Lemma first_vals key l : first key l = (λ v, (key, v)) <$> head (vals key l).
Proof.
  induction l as [|[k v] l IH]; [done|]. unfold first, vals. cbn [List.find]. rewrite filter_cons. cbn [fst].
  destruct (Z.eqb_spec k key) as [->|Hne]; [by rewrite decide_True|rewrite decide_False by done; apply IH].
Qed.
Lemma vals_remove key l : vals key (remove_first key l) = tail (vals key l).
Proof.
  induction l as [|[k v] l IH]; [done|]. unfold vals. cbn [remove_first fst]. rewrite (filter_cons _ (k, v) l). cbn [fst].
  destruct (Z.eqb_spec k key) as [->|Hne]; [by rewrite decide_True|]. rewrite filter_cons. cbn [fst]. rewrite !decide_False by done. apply IH.
Qed.
Lemma vals_remove_ne key key' l : key' ≠ key → vals key' (remove_first key l) = vals key' l.
Proof.
  intros Hne. induction l as [|[k v] l IH]; [done|]. unfold vals in *. cbn [remove_first fst].
  destruct (Z.eqb_spec k key) as [->|]; [by rewrite filter_cons_False by (cbn; congruence)|]. rewrite !filter_cons. cbn [fst]. case_decide; cbn; by rewrite IH.
Qed.

Lemma length_remove_first key l :
  length l = (length (remove_first key l) + if decide (vals key l = []) then 0 else 1)%nat.
Proof.
  induction l as [|[k v] l IH]; [done|]. unfold vals in *. cbn [remove_first fst length]. rewrite filter_cons. cbn [fst].
  destruct (Z.eqb_spec k key) as [->|Hne].
  - rewrite (decide_True (P:=key = key)) by done. cbn [fmap list_fmap]. rewrite decide_False by done. lia.
  - rewrite (decide_False (P:=k = key)) by done. cbn [length]. lia.
Qed.

Inductive mop := MInsert (key : Z) (v : V) | MErase (key : Z) | MFind (key : Z).
Fixpoint map_run (ops : list mop) m : result (list (option (Z * V)) * SmallMap) :=
  match ops with
  | [] => Ok ([], m)
  | MInsert key v :: ops => m ← insert key v m; map_run ops m
  | MErase key :: ops => m ← erase key m; map_run ops m
  | MFind key :: ops => x ← find key m; '(l, m) ← map_run ops m; Ok (x :: l, m)
  end.

Definition stack (A : gmap Z (list V)) key : list V := default [] (A !! key).
Fixpoint spec_run (ops : list mop) (A : gmap Z (list V)) : list (option (Z * V)) :=
  match ops with
  | [] => []
  | MInsert key v :: ops => spec_run ops (<[key := v :: stack A key]> A)
  | MErase key :: ops => spec_run ops (<[key := tail (stack A key)]> A)
  | MFind key :: ops => ((λ v, (key, v)) <$> head (stack A key)) :: spec_run ops A
  end.

(** [n] values are held; a sequence of operations never holds 65536. *)
Fixpoint fits (ops : list mop) (A : gmap Z (list V)) (n : nat) : bool :=
  match ops with
  | [] => true
  | MInsert key v :: ops => (Z.of_nat n + 1 <? 2 ^ 16) && fits ops (<[key := v :: stack A key]> A) (n + 1)
  | MErase key :: ops => fits ops (<[key := tail (stack A key)]> A) (match stack A key with [] => n | _ => n - 1 end)
  | MFind key :: ops => fits ops A n
  end.

Definition models m (A : gmap Z (list V)) (n : nat) : Prop := ∃ cs fr, map_ok m cs fr ∧
  (∀ key, stack A key = vals key (contents m cs (Z.to_nat (bucket m key)))) ∧
  length (concat cs) = n ∧ length (entries m) = (1 + n + length fr)%nat ∧ Z.of_nat (length (entries m)) <= 2 ^ 16.

Lemma bucket_nat m cs fr key : map_ok m cs fr → Z.of_nat (Z.to_nat (bucket m key)) = bucket m key.
Proof. intros Hok. destruct (in_bucket m cs fr key Hok) as (b & _ & _ & -> & _). lia. Qed.
Lemma stack_insert A key key' x : stack (<[key := x]> A) key' = if decide (key' = key) then x else stack A key'.
Proof. unfold stack. case_decide as E; [subst; by rewrite lookup_insert_eq|by rewrite lookup_insert_ne]. Qed.

Lemma models_insert m A n key v : models m A n → Z.of_nat n + 1 < 2 ^ 16 →
  ∃ m', insert key v m = Ok m' ∧ models m' (<[key := v :: stack A key]> A) (n + 1).
Proof.
  intros (cs & fr & Hok & HA & Hn & He & Hmax) Hlt.
  destruct (insert_ok m cs fr key v Hok) as (m' & cs' & fr' & Hx & Hok' & Em & He' & Hmax' & Hcc & Hc); [|done|].
  { intros ->. cbn in He. lia. }
  exists m'. split; [done|]. exists cs', fr'. split; [done|]. split; [|lia]. intros key'. rewrite stack_insert, Hc.
  assert (bucket m' key' = bucket m key') as -> by (unfold bucket; by rewrite Em). rewrite (bucket_nat m cs fr key' Hok).
  destruct (decide (key' = key)) as [->|Hne].
  - rewrite decide_True by done. unfold vals. rewrite filter_cons_True by done. cbn. f_equal. apply HA.
  - case_decide; [|apply HA]. unfold vals. rewrite filter_cons_False by (cbn; congruence). apply HA.
Qed.
Lemma models_erase m A n key : models m A n →
  ∃ m', erase key m = Ok m' ∧ models m' (<[key := tail (stack A key)]> A) (match stack A key with [] => n | _ => n - 1 end).
Proof.
  intros (cs & fr & Hok & HA & Hn & He & Hmax). destruct (erase_ok m cs fr key Hok Hmax) as (m' & cs' & fr' & Hx & Hok' & Em & Hle & Hsum & Hcc & Hc).
  exists m'. split; [done|]. exists cs', fr'. split; [done|]. split.
  - intros key'. rewrite stack_insert, Hc.
    assert (bucket m' key' = bucket m key') as -> by (unfold bucket; by rewrite Em). rewrite (bucket_nat m cs fr key' Hok).
    destruct (decide (key' = key)) as [->|Hne].
    + rewrite decide_True by done. by rewrite vals_remove, HA.
    + case_decide; [by rewrite vals_remove_ne|apply HA].
  - cbn zeta in Hcc. pose proof (length_remove_first key (contents m cs (Z.to_nat (bucket m key)))) as Hr. rewrite <- HA in Hr.
    destruct (stack A key); case_decide; try done; lia.
Qed.
Lemma models_run ops m A n : models m A n → fits ops A n = true → ∃ m', map_run ops m = Ok (spec_run ops A, m').
Proof.
  revert m A n. induction ops as [|o ops IH]; intros m A n Hm Hfit; [by exists m|]. destruct o as [key v|key|key]; cbn [map_run spec_run fits] in *.
  - apply andb_true_iff in Hfit as [Hlt%Z.ltb_lt Hfit]. destruct (models_insert m A n key v Hm Hlt) as (m' & -> & Hm'). by eapply IH.
  - destruct (models_erase m A n key Hm) as (m' & -> & Hm'). by eapply IH.
  - pose proof Hm as (cs & fr & Hok & HA & _). rewrite (find_ok m cs fr key Hok), first_vals, <- HA. cbn [mbind result_bind].
    destruct (IH m A n Hm Hfit) as [m' ->]. by exists m'.
Qed.

Lemma models_new htCount m : 1 <= htCount → map_new htCount = Ok m → models m ∅ 0.
Proof.
  intros H1 Hn. unfold map_new, ensure in Hn. destruct (Z.leb_spec htCount (2 ^ 16)) as [Hle|]; [|done]. apply Ok_inj in Hn as <-.
  assert (∀ b l, replicate (Z.to_nat htCount) (@nil nat) !! b = Some l → l = []) as Hr by (intros b l [-> _]%lookup_replicate; done).
  assert (concat (replicate (Z.to_nat htCount) (@nil nat)) = []) as Econc by (clear; induction (Z.to_nat htCount) as [|k IH]; [done|exact IH]).
  exists (replicate (Z.to_nat htCount) []), []. split; [|split; [|split; [by rewrite Econc|done]]].
  - constructor; cbn; [by rewrite !length_replicate| | |done| |lia].
    + rewrite length_replicate. unfold u32. rewrite Z.mod_small by lia. lia.
    + intros b p l [-> _]%lookup_replicate ->%Hr. done.
    + rewrite Econc. apply NoDup_nil_2.
  - intros key. unfold contents. destruct (_ !! Z.to_nat _) as [l|] eqn:E; [|done]. by rewrite (Hr _ _ E).
Qed.
End map.

(** [C26] A small map behaves as a stack of values for each key, found and erased
    from the top, whatever keys collide and however entries are reused: any
    sequence of operations, of any length, during which it never holds more than
    65535 values at once, so that positions fit 16 bits, finds what the stacks
    hold, and no access leaves the vectors. *)
Theorem small_map_refines {V} (v0 : V) htCount m ops : 1 <= htCount → map_new v0 htCount = Ok m → fits ops ∅ 0 = true →
  ∃ m', map_run ops m = Ok (spec_run ops ∅, m').
Proof. intros H1 Hn Hfit. exact (models_run ops m ∅ 0 (models_new v0 htCount m H1 Hn) Hfit). Qed.

Lemma small_map_refines_witness : ∃ m', map_run [MInsert 1 10; MInsert 2 20; MInsert 1 11; MErase 1; MFind 1; MInsert 3 30; MErase 1; MFind 1; MFind 2; MFind 3]
    (mkMap 1 [mkEntry (0, 0) 0] [0; 0] 0) = Ok ([Some (1, 10); None; Some (2, 20); Some (3, 30)], m').
Proof. apply (small_map_refines 0 2 _ [MInsert 1 10; MInsert 2 20; MInsert 1 11; MErase 1; MFind 1; MInsert 3 30; MErase 1; MFind 1; MFind 2; MFind 3]); [lia|reflexivity|reflexivity]. Defined.

(** The position of a new entry is cut to 16 bits: the one behind 65535 empties
    its bucket. *)
Lemma insert_overflow {V} key (v : V) m m' : freeList m = 0 → Z.of_nat (length (entries m)) = 2 ^ 16 → insert key v m = Ok m' → find key m' = Ok None.
Proof.
  intros Hf Hl Hx. unfold insert in Hx. apply bind_Ok_inv in Hx as (pos & Hp & Hx). rewrite Hf in Hx. cbn [negb Z.eqb] in Hx.
  apply bind_Ok_inv in Hx as (h & Hs & <-%Ok_inj). rewrite Hl in Hs. change (u16 (2 ^ 16)) with 0 in Hs.
  unfold find. change (bucket (mkMap (mask m) _ _ _) key) with (bucket m key). cbn [ht].
  assert (arr_getZ h (bucket m key) = Ok 0) as ->; [|done]. unfold arr_setZ, arr_getZ in *. case_decide; [|done]. unfold arr_set in Hs. case_decide; [|done].
  apply Ok_inj in Hs as <-. apply arr_get_lookup. by apply list_lookup_insert_eq.
Qed.
